(* ===== verification/_CoqProject ===== *)
-Q . S2P
Prelude.v
GoString.v
Storage.v
Chunker.v
Retention.v
Calendar.v
Worm.v
Commit.v
Lsn.v
Timeline.v
Hash.v
WalSegment.v
Inventory.v
Json.v
WalPrune.v
Concur.v
Lease.v
GapState.v
RestorePreflight.v
Gc.v
GcFence.v
GcSweep.v
Envelope.v
Cas.v
FencedCommit.v
FenceProtocol.v
WalReceive.v
WalSink.v
WalSinkLive.v
BackupManifest.v
ManifestRead.v
SampleJson.v
ManifestStore.v
Hold.v
SoftDelete.v
Interleave.v
Pool.v
OrphanRace.v
Undelete.v
AuditLog.v
AuditVerify.v
Rotate.v
RestoreSeed.v
SharedKey.v
