(* ===== verification/Prelude.v ===== *)
(** * pg_hardstorage: a verification library

    pg_hardstorage keeps PostgreSQL backups and write-ahead log in a repository: objects
    under string keys behind a storage plugin (filesystem, S3, ...).  Backups are split into
    content-defined chunks that are stored once under their hash; manifests list the chunks
    of a backup or of a WAL segment; retention tombstones backups and deletes WAL; garbage
    collection deletes the chunks no manifest lists while writers go on committing; a restore
    checks first that the WAL it will need is there.  The library models these parts from the
    Go sources under src/internal (file names below are relative to it) and proves what each
    of them promises.

    ** The model of effects

    - [Prelude]: machine integers, [time], stable sorting, the [pghs] hint databases and the
      tactics shared by all files.  [GoString]: the functions of [strings], [strconv] and
      [fmt] the code uses, byte by byte.
    - [Storage] (plugin/storage/storage.go): a repository is a [gmap] from keys to objects.
      Code that talks to it is a [prog], a tree of calls; the environment answers each call
      with a [decision] (success, failure without effect, failure after the effect, the
      clock, the order and length of a listing).  [run] executes a program against a stream
      of decisions, [wp] is its weakest precondition over all of them, and the healthy
      environment is the one whose decisions never fail.
    - [Concur]: the same programs while other processes change the store between two calls;
      [runc] executes them, [wpi] is a rely-guarantee precondition sound for it, and
      [touches] says which keys a program can write.  [Interleave]: two programs on one
      store, call by call, with the history of the store; [wpt] is the precondition of one of
      them, [par_sound] composes two, and programs that write a mark and then look for the
      other's cannot both succeed ([verified_once]).  [Pool]: any number of programs on one
      store, scheduled call by call; [wps] is the precondition of one of them when all obey a
      common relation between stores, and [pool_sound] composes them.
    - [Commit] (plugin/storage/commit.go, readlimit.go): publishing an object exactly once,
      against any failures (nothing is overwritten) and on a healthy backend (it succeeds).

    JSON documents are values behind a [Codec]; [encoding/json]'s scanner, SHA-256, the zstd
    encoder, AES-GCM, the gear table and the third-party LSN type are parameters, and what is
    relied on of them is named where it is used.

    ** Chunks

    - [Chunker] (backup/chunker/fastcdc.go): the buffered splitter refines the function that
      cuts the remaining bytes without a buffer; the chunks of a stream concatenate to it
      within the size bounds, and resynchronise after a common boundary.
    - [Hash] (repo/hash.go, chunkkey.go): hashes, their text and their keys.
    - [Envelope] (plugin/compression, plugin/encryption): the stored form of a chunk.
    - [Cas] (repo/cas.go, adopted_mark.go): the content-addressed store.  What it wrote reads
      back; a success means this process stored the body itself or has marked the chunk as
      adopted; its cache names stored chunks only, through any sequence of operations.

    ** The WAL archive

    - [Lsn], [Timeline] (wal/timeline), [WalSegment] (pg/walsink/manifest.go, push.go),
      [Inventory] (wal/inventory), [WalPrune] (repo/walprune.go): history files and their
      store, segments and their manifests, the first hole of a range, and WAL retention,
      which deletes only and, on a healthy backend, exactly what the kept backups let go.
    - [WalReceive], [WalSink], [WalSinkLive] (pg/walsink/walsink.go, opening_check.go,
      push.go): the sink.  The receiver queues exactly the bytes of the longest well-placed
      prefix of its records; the position acknowledged to the server is the end of segments
      that are archived, whatever fails; on a healthy backend every queued segment is.
    - [GapState] (wal/gapstate): the recorded gaps of a deployment.

    ** Backups

    - [Retention] (backup/retention): the policies keep exactly the closure of what they
      claim, whatever the order of the map.  [Calendar]: its daily, weekly, monthly and yearly
      buckets are days, weeks, months and years.  [Worm] (repo/worm.go): retention locks.
    - [Lease] (backup/lease.go, lease_wedge.go): one backup at a time.  An acquisition fails
      while a live lease is in the store, takes over a stale one, and a holder writes only
      its own grant, under interference; the window in which it does not is a theorem too.
    - [BackupManifest] (backup/manifest.go): the document of a backup; validation is a type
      checker for it, and the chunks of an accepted file tile it unless their lengths wrap.
      [ManifestRead] (manifest.go, manifest_scan.go, manifest_stream.go, sign.go): documents
      with one reading, signing and verifying, and the streaming reader, which agrees with the
      one that holds the document.  [SampleJson] instantiates the encoding and the signature.
    - [ManifestStore] (backup/manifest_store.go, manifest_files.go, chunk_check.go): keys,
      commits with their replica and index, reads and listings.  [Hold] (backup/hold.go):
      legal holds, which nothing unforced weakens.  [SoftDelete]: the descendants of a backup
      are what its child links reach; a backup with a live child or an active hold is not
      deleted under interference; what every refusal leaves behind.  [OrphanRace]: a commit
      and a deletion of its parent never both succeed in any interleaving, and the cascade,
      with which they can.  [Undelete]: what a resurrection hands back, that the walk over its
      ancestors ends, and that it and a deletion of the parent never both succeed.
    - [Rotate] (cli/rotate.go, rotate_policy_source.go, hold.go, agent.go): where the policies,
      the holds and the batch deletion meet.  A rotation's plan is what the policy lets go outside
      the chains of held backups and leaves no backup without its parent; nothing but the plan is
      written, and a backup that stays held keeps its whole chain, whatever fails.  The walk over
      a held backup's parents ends on a listing without circles and only there.
    - [RestoreSeed] (restore/latest.go, timetarget.go): the backup a restore starts from, and
      that no rotation takes the newest one away.
    - [RestorePreflight] (restore/gapcheck.go and the other preflight files): the checks in
      the order of Restore, when they refuse, and when they accept without a warning.

    ** Garbage collection

    - [Json] (repo/manifeststream.go): the streaming manifest readers, over the tokens of
      [encoding/json], are folds over the document.
    - [Gc] (repo/gc.go): the reference set is what the live manifests list, the orphans are
      the old chunks outside it.  [GcFence] (repo/gcfence.go), [GcSweep] (repo/gcsweep.go):
      run records, pins, and the delete batches, which never delete a chunk that a manifest
      live throughout references nor one that was pinned before the batch, whatever fails and
      whatever others do.  [FencedCommit]: the writer's side ends, blocks and commits.
    - [FenceProtocol]: collections and a writer as one transition system; in every
      interleaving a confirmed commit has its manifest and its adopted chunk from then on.

    ** The audit log

    - [AuditLog] (audit/audit.go, computehash.go): hash-chained events in shards, without a
      lock.  Any number of appends, interleaved call by call and failing anywhere, leave every
      shard a chain from its first event and never lose or change one.
    - [AuditVerify] (audit/audit.go, transparency.go): the verifier says OK exactly on chains that
      reach their head pointers, a log only appends made verifies, and a verified chain with a
      verified anchor still has the history that was anchored unless the hash collides.  Anchors
      go through the class [TransparencyLog], which the storage-backed log implements.

    ** Fuel

    Loops that are not structural take fuel, and a theorem says it is enough or that the
    caller's bound is.  [Iter] of the chunker has one unit per remaining byte and one for the
    end, and never runs out ([Iter_refines]); [copy_loop] of the receiver has the length of
    the record; [promote_loop] of retention the work list and every manifest once; [wait_loop]
    of the fence [wait_fuel], the polls that fit between two readings of a clock that advances
    ([fence_returns]); the JSON readers the number of tokens.  [descend] of the deletion has one
    unit per child link and one more ([descendants_spec]); the walk over ancestors ends when its
    fuel exceeds twice the number of stored objects ([walk_ends]).  [required_timelines] ends with
    the timelines in its range unless the range ends at the last 32-bit number, where the
    loop of the code does not end ([required_timelines_end]).  [anchor_walk] of the rotation has
    one unit per manifest, enough without circles ([filter_chains_ends]); with a circle no fuel is
    ([held_circle_endless]), and neither does the loop of the code end.  The bounded retries of the
    code (claim generations and settle checks of the lease, read-backs of the fence, the 1024
    attempts of an append) are its own constants.

    ** Not modelled

    The command line, the agent and control plane, notification sinks, reports, the assistant
    and the test tooling wire or observe the parts above.  Storage backends, key management
    and base backup are system calls, vendor SDKs and cryptographic libraries; their contracts
    are [Storage] and the laws in [Envelope].  Inside modelled files: metrics, logs, contexts
    that are cancelled, durability barriers, spill files (a spilled set is the set it holds)
    and worker pools (their jobs run in the order they are sent).  Each file's comment names
    what it leaves out.

    Left out although they hold state: the replication stream's continuity checks, logical
    backup and the restore's data path (sockets, files and PostgreSQL's own formats make up most
    of them), key rotation and key custody (the primitives are parameters already), the copying
    of repositories and of manifests through spool files (the same commits and listings again,
    over two stores), high availability and the control plane (consensus and HTTP services
    outside the source).  Nothing proved here speaks about them.
*)
From stdpp Require Export base tactics numbers option list gmap sets strings sorting.
From Stdlib Require Export ZArith Lia.

#[global] Open Scope Z_scope.

(** ** Automation *)

(** Case analysis on the scrutinee of a [match] or [if] in the goal or a
    hypothesis, clearing the impossible branches. *)
Ltac crunch_match :=
  repeat (case_match; simplify_eq/=; try done).

(** Turn the boolean tests the code uses into the propositions they decide. *)
Ltac zbool :=
  repeat match goal with
  | H : _ && _ = true |- _ => apply andb_true_iff in H; destruct H
  | H : _ && _ = false |- _ => apply andb_false_iff in H
  | H : _ || _ = true |- _ => apply orb_true_iff in H
  | H : _ || _ = false |- _ => apply orb_false_iff in H; destruct H
  | H : negb _ = true |- _ => apply negb_true_iff in H
  | H : negb _ = false |- _ => apply negb_false_iff in H
  | H : (_ <? _) = true |- _ => apply Z.ltb_lt in H
  | H : (_ <? _) = false |- _ => apply Z.ltb_ge in H
  | H : (_ <=? _) = true |- _ => apply Z.leb_le in H
  | H : (_ <=? _) = false |- _ => apply Z.leb_gt in H
  | H : (_ =? _) = true |- _ => apply Z.eqb_eq in H
  | H : (_ =? _) = false |- _ => apply Z.eqb_neq in H
  end.

Create HintDb pghs.
Create Rewrite HintDb pghs.

(** ** Machine integers *)

(** Go's fixed-width unsigned integers, as [Z] with the wrap-around written out. *)
Definition u32 (z : Z) : Z := z mod 2 ^ 32.
Definition u64 (z : Z) : Z := z mod 2 ^ 64.

Definition max_int64 : Z := 2 ^ 63 - 1.
Definition min_int64 : Z := - 2 ^ 63.

(** [int64] addition wraps around to the negative half. *)
Definition i64 (z : Z) : Z := (z + 2 ^ 63) mod 2 ^ 64 - 2 ^ 63.

Lemma u32_range z : 0 <= u32 z < 2 ^ 32.
Proof. apply Z.mod_pos_bound. lia. Qed.

Lemma u64_range z : 0 <= u64 z < 2 ^ 64.
Proof. apply Z.mod_pos_bound. lia. Qed.

Lemma u32_id z : 0 <= z < 2 ^ 32 -> u32 z = z.
Proof. apply Z.mod_small. Qed.

Lemma u64_id z : 0 <= z < 2 ^ 64 -> u64 z = z.
Proof. apply Z.mod_small. Qed.

Lemma i64_id z : min_int64 <= z <= max_int64 -> i64 z = z.
Proof.
  unfold i64, min_int64, max_int64. intros ?.
  rewrite Z.mod_small; lia.
Qed.

#[export] Hint Resolve u32_range u64_range : pghs.
#[export] Hint Rewrite u32_id u64_id i64_id using lia : pghs.

(** ** Time

    A Go [time.Time] is its distance in nanoseconds from the zero time
    (January 1, year 1, UTC); the zero value is [0].  A [time.Duration] is an
    [int64] number of nanoseconds, and [Time.Sub] saturates at its bounds. *)
Definition time : Type := Z.
Definition duration : Type := Z.

Module Time.
Definition zero : time := 0.
Definition IsZero (t : time) : bool := t =? 0.
Definition Before (t u : time) : bool := t <? u.
Definition After (t u : time) : bool := u <? t.
Definition Equal (t u : time) : bool := t =? u.
Definition Add (t : time) (d : duration) : time := t + d.
Definition Sub (t u : time) : duration :=
  Z.max min_int64 (Z.min max_int64 (t - u)).

Definition Nanosecond : duration := 1.
Definition Millisecond : duration := 10 ^ 6.
Definition Second : duration := 10 ^ 9.
Definition Minute : duration := 60 * Second.
Definition Hour : duration := 60 * Minute.

(** Nanoseconds between year 1 and the Unix epoch. *)
Definition unix_epoch : time := 62135596800 * Second.

Lemma Sub_exact t u : min_int64 <= t - u <= max_int64 -> Sub t u = t - u.
Proof. unfold Sub. lia. Qed.

Lemma Sub_lt t u d : min_int64 < d <= max_int64 -> Sub t u < d <-> t - u < d.
Proof. unfold Sub, min_int64, max_int64. lia. Qed.
End Time.

(** *** The calendar, UTC *)

(** Days since January 1 of year 1. *)
Definition day_of (t : time) : Z := t / (86400 * Time.Second).

(** Year, month and day of a day number (the Gregorian calendar, proleptic). *)
Definition civil (day : Z) : Z * Z * Z :=
  let z := day + 306 in
  let era := z / 146097 in
  let doe := z mod 146097 in
  let yoe := (doe - doe / 1460 + doe / 36524 - doe / 146096) / 365 in
  let doy := doe - (365 * yoe + yoe / 4 - yoe / 100) in
  let mp := (5 * doy + 2) / 153 in
  let d := doy - (153 * mp + 2) / 5 + 1 in
  let m := if mp <? 10 then mp + 3 else mp - 9 in
  (yoe + era * 400 + (if m <=? 2 then 1 else 0), m, d).

(** ** Lists *)

Section list_facts.
Context {A B : Type}.
Implicit Types (l k : list A) (f : A -> bool).

(** The first [Some] a function gives along a list. *)
Fixpoint first_some (g : A -> option B) (l : list A) : option B :=
  match l with
  | [] => None
  | x :: l => match g x with Some y => Some y | None => first_some g l end
  end.

Lemma first_some_None (g : A -> option B) l :
  first_some g l = None <-> forall x, x ∈ l -> g x = None.
Proof.
  induction l as [|a l IH]; simpl; [split; [intros _ x Hx; inversion Hx | done]|].
  destruct (g a) eqn:E; split; intros H.
  - done.
  - exfalso. specialize (H a ltac:(left)). congruence.
  - intros x [->|Hx]%elem_of_cons; [done | by apply IH].
  - apply IH. intros x Hx. apply H. by right.
Qed.

Lemma first_some_Some (g : A -> option B) l y :
  first_some g l = Some y -> exists x, x ∈ l /\ g x = Some y.
Proof.
  induction l as [|a l IH]; simpl; [done|].
  destruct (g a) eqn:E; intros H.
  - exists a. split; [left | congruence].
  - destruct (IH H) as (x & ? & ?). exists x. split; [by right | done].
Qed.
End list_facts.

(** ** Stable sorting

    [sort.SliceStable] with a comparison: an insertion sort, which keeps equal
    elements in their order. *)
Section sorting.
Context {A : Type} (less : A -> A -> bool).

Fixpoint insert_by (x : A) (l : list A) : list A :=
  match l with
  | [] => [x]
  | y :: l' => if less y x then y :: insert_by x l' else x :: l
  end.

Definition stable_sort (l : list A) : list A := foldr insert_by [] l.

Lemma insert_by_perm x l : insert_by x l ≡ₚ x :: l.
Proof.
  induction l as [|y l IH]; simpl; [done|]. case_match; [|done].
  rewrite IH. apply Permutation_swap.
Qed.

Lemma stable_sort_perm l : stable_sort l ≡ₚ l.
Proof. induction l as [|x l IH]; simpl; [done|]. by rewrite insert_by_perm, IH. Qed.

Lemma elem_of_stable_sort x l : x ∈ stable_sort l <-> x ∈ l.
Proof. by rewrite stable_sort_perm. Qed.

(** No element is less than one before it. *)
Definition ordered : list A -> Prop := StronglySorted (fun x y => less y x = false).

Hypothesis less_asym : forall x y, less x y = true -> less y x = false.
Hypothesis less_neg_trans : forall x y z,
  less y x = false -> less z y = false -> less z x = false.

Lemma insert_by_ordered x l : ordered l -> ordered (insert_by x l).
Proof.
  induction 1 as [|y l Hl IH Hy]; simpl; [by repeat constructor|].
  case_match eqn:E; constructor; try done.
  - rewrite insert_by_perm. constructor; [by apply less_asym|done].
  - by constructor.
  - constructor; [done|]. eapply Forall_impl; [exact Hy|]. simpl. eauto.
Qed.

Lemma stable_sort_ordered l : ordered (stable_sort l).
Proof. induction l; simpl; [constructor | by apply insert_by_ordered]. Qed.
End sorting.

(** ** Sets of keys seen so far *)
Section seen_sets.
Context `{Countable K}.
Implicit Types (a b : K) (s t X : gset K).

Lemma not_elem_of_seen_cons a b s t :
  a ∈ s -> b ∉ s ∪ ({[a]} ∪ t) <-> b ∉ s ∪ t.
Proof. set_solver. Qed.

Lemma not_elem_of_seen_move a b s t :
  b ∉ s ∪ ({[a]} ∪ t) <-> b ∉ ({[a]} ∪ s) ∪ t.
Proof. set_solver. Qed.

Lemma seen_difference a s X : a ∈ s -> ({[a]} ∪ X) ∖ s = X ∖ s.
Proof. set_solver. Qed.

Lemma seen_difference_size a s X :
  a ∉ s -> size (({[a]} ∪ X) ∖ s) = S (size (X ∖ ({[a]} ∪ s))).
Proof.
  intros Ha. replace (({[a]} ∪ X) ∖ s) with ({[a]} ∪ (X ∖ ({[a]} ∪ s))).
  - rewrite size_union by set_solver. by rewrite size_singleton.
  - apply set_eq. intros x. destruct (decide (x = a)); set_solver.
Qed.
End seen_sets.
