(* ===== verification/GoString.v ===== *)
(** The functions of Go's [strings], [strconv] and [fmt] packages the modelled
    code uses, on strings of bytes. *)
From S2P Require Import Prelude.
From stdpp Require Export pretty.
From Stdlib Require Import Ascii.

Local Open Scope string_scope.
#[local] Arguments String.append : simpl nomatch.

(** ** [strings] *)

Fixpoint HasPrefix (s p : string) : bool :=
  match p, s with
  | EmptyString, _ => true
  | String a p, String b s => Ascii.eqb a b && HasPrefix s p
  | String _ _, EmptyString => false
  end.

Fixpoint sdrop (n : nat) (s : string) : string :=
  match n, s with
  | O, _ => s
  | S n, String _ s => sdrop n s
  | S _, EmptyString => EmptyString
  end.

Fixpoint stake (n : nat) (s : string) : string :=
  match n, s with
  | O, _ => EmptyString
  | S n, String a s => String a (stake n s)
  | S _, EmptyString => EmptyString
  end.

Definition TrimPrefix (s p : string) : string :=
  if HasPrefix s p then sdrop (String.length p) s else s.

Definition HasSuffix (s suf : string) : bool :=
  (String.length suf <=? String.length s)%nat &&
  String.eqb (sdrop (String.length s - String.length suf) s) suf.

Definition TrimSuffix (s suf : string) : string :=
  if HasSuffix s suf then stake (String.length s - String.length suf) s else s.

(** [strings.CutSuffix]: the string without the suffix, and whether it was there. *)
Definition CutSuffix (s suf : string) : string * bool :=
  if HasSuffix s suf then (stake (String.length s - String.length suf) s, true)
  else (s, false).

Fixpoint Contains (s sub : string) : bool :=
  HasPrefix s sub ||
  match s with EmptyString => false | String _ s => Contains s sub end.

(** [strings.Cut] on a one-byte separator. *)
Fixpoint CutByte (s : string) (c : ascii) : option (string * string) :=
  match s with
  | EmptyString => None
  | String a s =>
      if Ascii.eqb a c then Some (EmptyString, s)
      else match CutByte s c with
           | Some (x, y) => Some (String a x, y)
           | None => None
           end
  end.

(** [strings.Split] on a one-byte separator: never empty. *)
Fixpoint SplitByte (s : string) (c : ascii) : list string :=
  match s with
  | EmptyString => [EmptyString]
  | String a s =>
      if Ascii.eqb a c then EmptyString :: SplitByte s c
      else match SplitByte s c with
           | x :: l => String a x :: l
           | [] => [String a EmptyString]
           end
  end.

Definition slash : ascii := "/"%char.

(** The part after the last slash: what [strings.LastIndexByte(s, '/')] and a
    slice of the rest give. *)
Fixpoint basename (s : string) : string :=
  match s with
  | EmptyString => EmptyString
  | String a s' =>
      match CutByte s' slash with
      | Some _ => basename s'
      | None => if Ascii.eqb a slash then s' else String a s'
      end
  end.

(** ** Facts about them *)

Lemma string_app_assoc (a b c : string) : (a ++ b) ++ c = a ++ (b ++ c).
Proof. induction a; simpl; congruence. Qed.

Lemma string_app_length (a b : string) :
  String.length (a ++ b) = (String.length a + String.length b)%nat.
Proof. induction a; simpl; congruence. Qed.

Lemma string_app_nil_r (a : string) : a ++ "" = a.
Proof. induction a; simpl; congruence. Qed.

Lemma string_app_inj_l (a b c : string) : a ++ b = a ++ c -> b = c.
Proof. induction a as [|x a IH]; simpl; [done|]. intros [=]. auto. Qed.

Lemma HasPrefix_app p s : HasPrefix (p ++ s) p = true.
Proof.
  induction p as [|a p IH]; simpl; [by destruct s|].
  by rewrite Ascii.eqb_refl, IH.
Qed.

Lemma HasPrefix_inv s p : HasPrefix s p = true -> exists t, s = p ++ t.
Proof.
  revert s. induction p as [|a p IH]; intros s; simpl; [eauto|].
  destruct s as [|b s]; [done|]. intros [E H]%andb_true_iff.
  apply Ascii.eqb_eq in E as ->. destruct (IH _ H) as [t ->]. eauto.
Qed.

Lemma sdrop_app p s : sdrop (String.length p) (p ++ s) = s.
Proof. induction p; simpl; [by destruct s | done]. Qed.

Lemma stake_app p s : stake (String.length p) (p ++ s) = p.
Proof. induction p; simpl; [by destruct s | congruence]. Qed.

Lemma TrimPrefix_app p s : TrimPrefix (p ++ s) p = s.
Proof. unfold TrimPrefix. by rewrite HasPrefix_app, sdrop_app. Qed.

Lemma HasSuffix_app s suf : HasSuffix (s ++ suf) suf = true.
Proof.
  unfold HasSuffix. rewrite string_app_length, Nat.add_sub, sdrop_app.
  rewrite String.eqb_refl, andb_true_r. apply Nat.leb_le. lia.
Qed.

Lemma stake_sdrop n s : s = stake n s ++ sdrop n s.
Proof. revert s; induction n; intros [|a s]; simpl; try done. by rewrite <- IHn. Qed.

Lemma HasSuffix_inv s suf : HasSuffix s suf = true -> exists t, s = t ++ suf.
Proof.
  unfold HasSuffix. intros [_ E]%andb_true_iff. apply String.eqb_eq in E.
  exists (stake (String.length s - String.length suf) s).
  rewrite <- E at 2. apply stake_sdrop.
Qed.

Lemma TrimSuffix_app s suf : TrimSuffix (s ++ suf) suf = s.
Proof.
  unfold TrimSuffix. by rewrite HasSuffix_app, string_app_length, Nat.add_sub, stake_app.
Qed.

Lemma CutSuffix_app s suf : CutSuffix (s ++ suf) suf = (s, true).
Proof.
  unfold CutSuffix. by rewrite HasSuffix_app, string_app_length, Nat.add_sub, stake_app.
Qed.

#[export] Hint Rewrite HasPrefix_app HasSuffix_app TrimPrefix_app TrimSuffix_app
  CutSuffix_app string_app_length : pghs.

Lemma CutByte_None_app s t c :
  CutByte s c = None -> CutByte (s ++ t) c = match CutByte t c with
                                             | Some (x, y) => Some (s ++ x, y)
                                             | None => None
                                             end.
Proof.
  induction s as [|a s IH]; simpl; [by destruct (CutByte t c) as [[]|]|].
  destruct (Ascii.eqb a c); [done|].
  destruct (CutByte s c) as [[]|] eqn:E; [done|].
  intros _. rewrite (IH eq_refl). by destruct (CutByte t c) as [[]|].
Qed.

Lemma CutByte_app_Some s t c x y :
  CutByte t c = Some (x, y) -> exists x' y', CutByte (s ++ t) c = Some (x', y').
Proof.
  intros H. induction s as [|a s (x' & y' & IH)]; simpl; [eauto|].
  destruct (Ascii.eqb a c); [eauto|]. rewrite IH. eauto.
Qed.

(** The base name of [dir/b] is [b], when [b] holds no slash. *)
Lemma basename_app d b :
  CutByte b slash = None -> basename (d ++ String slash b) = b.
Proof.
  intros Hb. induction d as [|a d IH]; simpl.
  - by rewrite Hb.
  - destruct (CutByte_app_Some d (String slash b) slash "" b) as (x & y & ->); [done|].
    exact IH.
Qed.

(** ** The byte order of strings, Go's [<] *)

Fixpoint string_ltb (s t : string) : bool :=
  match s, t with
  | _, EmptyString => false
  | EmptyString, String _ _ => true
  | String a s, String b t =>
      (Ascii.N_of_ascii a <? Ascii.N_of_ascii b)%N ||
      (Ascii.N_of_ascii a =? Ascii.N_of_ascii b)%N && string_ltb s t
  end.

Lemma N_of_ascii_inj a b : Ascii.N_of_ascii a = Ascii.N_of_ascii b -> a = b.
Proof.
  intros H. rewrite <- (Ascii.ascii_N_embedding a), <- (Ascii.ascii_N_embedding b).
  by rewrite H.
Qed.

Lemma string_ltb_cons a b s t :
  string_ltb (String a s) (String b t) = true <->
  (Ascii.N_of_ascii a < Ascii.N_of_ascii b)%N \/ a = b /\ string_ltb s t = true.
Proof.
  simpl. rewrite orb_true_iff, andb_true_iff, N.ltb_lt, N.eqb_eq. 
  split; (intros [H|[H1 H2]]; [by left|right; split; [|done]]).
  - by apply N_of_ascii_inj.
  - by subst.
Qed.

Lemma string_ltb_irrefl s : string_ltb s s = false.
Proof.
  induction s as [|a s IH]; simpl; [done|]. rewrite IH, N.ltb_irrefl, andb_false_r. done.
Qed.

Lemma string_ltb_trans s t u :
  string_ltb s t = true -> string_ltb t u = true -> string_ltb s u = true.
Proof.
  revert s u. induction t as [|b t IH]; intros [|a s] [|c u]; try done.
  rewrite !string_ltb_cons. intros [H1|[-> H1]] [H2|[-> H2]];
    [left; lia|by left|by left|right; eauto].
Qed.

Lemma string_ltb_total s t : string_ltb s t = true \/ s = t \/ string_ltb t s = true.
Proof.
  revert t. induction s as [|a s IH]; intros [|b t]; auto.
  rewrite !string_ltb_cons.
  destruct (N.lt_trichotomy (Ascii.N_of_ascii a) (Ascii.N_of_ascii b)) as [?|[E|?]]; auto.
  apply N_of_ascii_inj in E as ->. destruct (IH t) as [?|[->|?]]; auto.
Qed.

Lemma string_ltb_asym s t : string_ltb s t = true -> string_ltb t s = false.
Proof.
  intros H. destruct (string_ltb t s) eqn:E; [|done].
  pose proof (string_ltb_trans _ _ _ H E) as F. by rewrite string_ltb_irrefl in F.
Qed.

(** ** Decimal: ["%0nd"] *)

Fixpoint zeros (n : nat) : string :=
  match n with O => "" | S n => String "0"%char (zeros n) end.

Definition fmt_dec (width : nat) (z : Z) : string :=
  let s := pretty z in zeros (width - String.length s) ++ s.

(** ** Hexadecimal *)

Local Open Scope Z_scope.

Definition hexDigit (d : Z) : ascii :=
  if d <? 10 then Ascii.ascii_of_N (Z.to_N (48 + d))
  else Ascii.ascii_of_N (Z.to_N (55 + d)).

(** The value of one hexadecimal digit, either case. *)
Definition hexNibble (c : ascii) : option Z :=
  let n := Z.of_N (Ascii.N_of_ascii c) in
  if (48 <=? n) && (n <=? 57) then Some (n - 48)
  else if (97 <=? n) && (n <=? 102) then Some (n - 97 + 10)
  else if (65 <=? n) && (n <=? 70) then Some (n - 65 + 10)
  else None.

(** [n] upper-case hexadecimal digits, most significant first: what ["%0nX"]
    prints for a value below [16^n]. *)
Fixpoint hexFixed (n : nat) (z : Z) : string :=
  match n with
  | O => ""
  | S n => hexFixed n (z / 16) ++ String (hexDigit (z mod 16)) ""
  end.

(** The shift-and-or loop of the hand-written hex parsers. *)
Fixpoint hexParse (acc : Z) (s : string) : option Z :=
  match s with
  | EmptyString => Some acc
  | String c s =>
      match hexNibble c with
      | Some d => hexParse (Z.lor (Z.shiftl acc 4) d) s
      | None => None
      end
  end.

Lemma hexNibble_digit d : 0 <= d < 16 -> hexNibble (hexDigit d) = Some d.
Proof.
  intros H.
  assert (d ∈ seqZ 0 16) as Hd by (apply elem_of_seqZ; lia).
  revert d Hd H. apply (Forall_forall (fun d => 0 <= d < 16 -> _)).
  vm_compute seqZ. repeat constructor.
Qed.

Lemma hexNibble_range c d : hexNibble c = Some d -> 0 <= d < 16.
Proof. unfold hexNibble. intros. crunch_match; zbool; lia. Qed.

Lemma lor_shiftl4 acc d : 0 <= d < 16 -> Z.lor (Z.shiftl acc 4) d = acc * 16 + d.
Proof.
  intros Hd. pose proof (Z.add_lor_land (Z.shiftl acc 4) d) as E.
  pose proof (Z.shiftl_mul_pow2 acc 4 ltac:(lia)) as E'.
  enough (Z.land (Z.shiftl acc 4) d = 0) by lia.
  apply Z.bits_inj'. intros i Hi. rewrite Z.land_spec, Z.bits_0.
  destruct (Z.lt_ge_cases i 4).
  - by rewrite Z.shiftl_spec_low.
  - pose proof (Z.pow_le_mono_r 2 4 i ltac:(lia) ltac:(lia)).
    rewrite (Z.testbit_eqb d), (Z.div_small d) by lia. by rewrite andb_false_r.
Qed.

Lemma hexParse_app s t acc :
  hexParse acc (s ++ t) = match hexParse acc s with Some a => hexParse a t | None => None end.
Proof.
  revert acc. induction s as [|c s IH]; intros acc; simpl; [done|].
  destruct (hexNibble c); [apply IH | done].
Qed.

(** Parsing what was printed gives the value back, modulo the field's width. *)
Lemma hexParse_hexFixed n z acc :
  hexParse acc (hexFixed n z) = Some (acc * 16 ^ Z.of_nat n + z mod 16 ^ Z.of_nat n).
Proof.
  revert z acc. induction n as [|n IH]; intros z acc.
  - cbn. rewrite Z.mod_1_r. f_equal. lia.
  - rewrite Nat2Z.inj_succ, Z.pow_succ_r by lia. cbn [hexFixed].
    rewrite hexParse_app, IH. cbn [hexParse].
    rewrite hexNibble_digit by (apply Z.mod_pos_bound; lia). f_equal.
    rewrite lor_shiftl4 by (apply Z.mod_pos_bound; lia).
    rewrite Z.rem_mul_r by lia. lia.
Qed.

Lemma hexParse_range s acc z : 0 <= acc -> hexParse acc s = Some z ->
  0 <= z < (acc + 1) * 16 ^ Z.of_nat (String.length s).
Proof.
  revert acc. induction s as [|c s IH]; intros acc Ha.
  - cbn. intros [= <-]. lia.
  - cbn [hexParse String.length]. destruct (hexNibble c) as [d|] eqn:E; [|done].
    apply hexNibble_range in E. rewrite lor_shiftl4 by done. intros H.
    apply IH in H; [|lia]. rewrite Nat2Z.inj_succ, Z.pow_succ_r by lia. nia.
Qed.

Lemma hexFixed_length n z : String.length (hexFixed n z) = n.
Proof.
  revert z. induction n; intros z; simpl; [done|]. rewrite string_app_length, IHn. simpl. lia.
Qed.

(** ** White space: [unicode.IsSpace] on UTF-8

    A white-space rune is one to three bytes; its lead byte is never a
    continuation byte, so matching byte prefixes finds exactly the runes. *)
Definition byte_of (c : ascii) : Z := Z.of_N (Ascii.N_of_ascii c).

(** The number of bytes of the white-space rune a string starts with, or [0]. *)
Definition space_width (s : string) : nat :=
  match s with
  | EmptyString => 0
  | String a s1 =>
      let x := byte_of a in
      if (x =? 32) || ((9 <=? x) && (x <=? 13)) then 1%nat
      else match s1 with
      | EmptyString => 0%nat
      | String b s2 =>
          let y := byte_of b in
          if (x =? 194) && ((y =? 133) || (y =? 160)) then 2%nat
          else match s2 with
          | EmptyString => 0%nat
          | String c _ =>
              let z := byte_of c in
              if ((x =? 225) && (y =? 154) && (z =? 128)) ||
                 ((x =? 226) && (y =? 128) &&
                    (((128 <=? z) && (z <=? 138)) || (z =? 168) || (z =? 169) || (z =? 175))) ||
                 ((x =? 226) && (y =? 129) && (z =? 159)) ||
                 ((x =? 227) && (y =? 128) && (z =? 128))
              then 3%nat else 0%nat
          end
      end
  end.

(** [strings.TrimSpace], from the left: [skip] counts the bytes of a
    white-space rune still to drop. *)
Fixpoint trim_left (skip : nat) (s : string) : string :=
  match s with
  | EmptyString => EmptyString
  | String a s' =>
      match skip with
      | S k => trim_left k s'
      | O => match space_width s with
             | O => s
             | S k => trim_left k s'
             end
      end
  end.

Definition blank (s : string) : bool := String.eqb (trim_left 0 s) "".

Fixpoint trim_right (s : string) : string :=
  match s with
  | EmptyString => EmptyString
  | String a s' => if blank s then EmptyString else String a (trim_right s')
  end.

Definition TrimSpace (s : string) : string := trim_right (trim_left 0 s).

(** [strings.Fields]: [cur] is the field being read. *)
Fixpoint fields_from (skip : nat) (cur s : string) : list string :=
  let flush l := if String.eqb cur "" then l else cur :: l in
  match s with
  | EmptyString => flush []
  | String a s' =>
      match skip with
      | S k => fields_from k cur s'
      | O => match space_width s with
             | O => fields_from 0 (cur ++ String a "") s'
             | S k => flush (fields_from k "" s')
             end
      end
  end.

Definition Fields (s : string) : list string := fields_from 0 "" s.

(** [strings.Join]. *)
Fixpoint Join (l : list string) (sep : string) : string :=
  match l with
  | [] => ""
  | [x] => x
  | x :: l => x ++ sep ++ Join l sep
  end.

(** ** Decimal parsing *)

Definition isDigit (c : ascii) : bool := (48 <=? byte_of c) && (byte_of c <=? 57).

Fixpoint decParse (acc : Z) (s : string) : option Z :=
  match s with
  | EmptyString => Some acc
  | String c s => if isDigit c then decParse (acc * 10 + (byte_of c - 48)) s else None
  end.

(** [strconv.ParseUint(s, 10, bits)]: digits only, at least one, in range. *)
Definition ParseUint (s : string) (bits : Z) : option Z :=
  if String.eqb s "" then None
  else match decParse 0 s with
       | Some z => if z <? 2 ^ bits then Some z else None
       | None => None
       end.

(** [strconv.FormatUint(z, 10)]. *)
Definition FormatUint (z : Z) : string := pretty (Z.to_N z).

(** ** Facts about white space and decimals *)

(** A visible ASCII character, never part of white space. *)
Definition graphic (c : ascii) : bool := (33 <=? byte_of c) && (byte_of c <=? 126).

Fixpoint all_chars (f : ascii -> bool) (s : string) : bool :=
  match s with EmptyString => true | String a s => f a && all_chars f s end.

Lemma all_chars_app f s t : all_chars f (s ++ t) = all_chars f s && all_chars f t.
Proof. induction s as [|a s IH]; simpl; [done|]. by rewrite IH, andb_assoc. Qed.

Lemma all_chars_impl (f g : ascii -> bool) s :
  (forall c, f c = true -> g c = true) -> all_chars f s = true -> all_chars g s = true.
Proof.
  intros Hfg. induction s as [|a s IH]; simpl; [done|].
  intros [Ha Hs]%andb_true_iff. by rewrite (Hfg a Ha), IH.
Qed.

Lemma all_chars_CutByte f c s :
  all_chars f s = true -> f c = false -> CutByte s c = None.
Proof.
  induction s as [|a s IH]; simpl; [done|]. intros [Ha Hs]%andb_true_iff Hc.
  destruct (Ascii.eqb a c) eqn:E; [apply Ascii.eqb_eq in E; congruence|]. by rewrite IH.
Qed.

Lemma isDigit_graphic c : isDigit c = true -> graphic c = true.
Proof. unfold isDigit, graphic. lia. Qed.

Lemma graphic_width a s : graphic a = true -> space_width (String a s) = 0%nat.
Proof.
  unfold graphic. intros H. cbn.
  replace (byte_of a =? 32) with false by lia.
  replace (byte_of a <=? 13) with false by lia. rewrite andb_false_r. simpl.
  destruct s as [|b s]; [done|]. replace (byte_of a =? 194) with false by lia. simpl.
  destruct s as [|c s]; [done|].
  replace (byte_of a =? 225) with false by lia.
  replace (byte_of a =? 226) with false by lia.
  replace (byte_of a =? 227) with false by lia. done.
Qed.

Lemma trim_left_graphic a s : graphic a = true -> trim_left 0 (String a s) = String a s.
Proof. intros H. cbn [trim_left]. by rewrite graphic_width. Qed.

Lemma fields_word w cur s : all_chars graphic w = true ->
  fields_from 0 cur (w ++ s) = fields_from 0 (cur ++ w) s.
Proof.
  revert cur. induction w as [|a w IH]; intros cur.
  - by rewrite string_app_nil_r.
  - intros [Ha Hw]%andb_true_iff. cbn [String.append fields_from].
    rewrite (graphic_width a) by done.
    rewrite IH by done. by rewrite string_app_assoc.
Qed.

(** A separator of one byte ends the field being read. *)
Lemma fields_sep a cur s : space_width (String a s) = 1%nat -> cur <> "" ->
  fields_from 0 cur (String a s) = cur :: fields_from 0 "" s.
Proof.
  intros H Hc. cbn [fields_from]. rewrite H.
  destruct (String.eqb_spec cur ""); [done|]. done.
Qed.

Lemma fields_space a s : space_width (String a s) = 1%nat ->
  fields_from 0 "" (String a s) = fields_from 0 "" s.
Proof. intros H. cbn [fields_from]. by rewrite H. Qed.

Lemma fields_last w : all_chars graphic w = true -> w <> "" -> fields_from 0 "" w = [w].
Proof.
  intros Hw Hne. rewrite <- (string_app_nil_r w) at 1. rewrite fields_word by done. cbn.
  destruct (String.eqb_spec w ""); done.
Qed.

(** A non-empty sequence of visible ASCII characters. *)
Definition word (w : string) : Prop := all_chars graphic w = true /\ w <> "".

(** The fields of a line whose words are separated by single blanks. *)
Lemma Fields_Join (l : list string) :
  Forall word l -> Fields (Join l " ") = l.
Proof.
  unfold Fields. induction 1 as [|w l [Hw Hne] Hl IH]; [done|].
  destruct l as [|w' l']; [by apply fields_last|].
  change (Join (w :: w' :: l') " ") with (w ++ String " "%char (Join (w' :: l') " ")).
  rewrite fields_word by done. rewrite fields_sep by done. by rewrite IH.
Qed.

(** An ASCII character: never the lead byte of a longer rune. *)
Definition plain (c : ascii) : bool := byte_of c <? 128.

Lemma graphic_plain c : graphic c = true -> plain c = true.
Proof. unfold graphic, plain. lia. Qed.

Lemma plain_width a s : plain a = true ->
  space_width (String a s) = 0%nat \/ space_width (String a s) = 1%nat.
Proof.
  unfold plain. intros H. unfold space_width. destruct (_ || _); [by right|left].
  destruct s as [|b s]; [done|]. replace (byte_of a =? 194) with false by lia. cbn [andb].
  destruct s as [|c s]; [done|].
  replace (byte_of a =? 225) with false by lia.
  replace (byte_of a =? 226) with false by lia.
  replace (byte_of a =? 227) with false by lia. done.
Qed.

Lemma blank_plain s c : all_chars plain s = true -> graphic c = true ->
  blank (s ++ String c "") = false.
Proof.
  intros Hs Hc. unfold blank. apply String.eqb_neq.
  induction s as [|a s IH]; cbn [String.append].
  - by rewrite trim_left_graphic.
  - apply andb_true_iff in Hs as [Ha Hs]. cbn [trim_left].
    destruct (plain_width a (s ++ String c "") Ha) as [-> | ->]; [done|by apply IH].
Qed.

(** A text of ASCII bytes between two visible ones is its own trimming. *)
Lemma TrimSpace_plain a s c : graphic a = true -> all_chars plain s = true -> graphic c = true ->
  TrimSpace (String a (s ++ String c "")) = String a (s ++ String c "").
Proof.
  intros Ha Hs Hc. unfold TrimSpace. rewrite trim_left_graphic by done.
  assert (all_chars plain (String a s) = true) as H.
  { cbn [all_chars]. by rewrite graphic_plain, Hs. }
  change (String a (s ++ String c "")) with (String a s ++ String c "").
  revert H. generalize (String a s). clear -Hc. intros s.
  induction s as [|b s IH]; cbn [String.append]; intros Hs.
  - cbn [trim_right]. assert (blank (String c "") = false) as -> by (by apply (blank_plain "" c)).
    done.
  - cbn [trim_right]. change (String b (s ++ String c "")) with (String b s ++ String c "").
    rewrite blank_plain by done. apply andb_true_iff in Hs as [_ Hs]. by rewrite (IH Hs).
Qed.

Lemma SplitByte_app w s c : CutByte w c = None -> SplitByte (w ++ String c s) c = w :: SplitByte s c.
Proof.
  induction w as [|a w IH]; cbn [String.append].
  - intros _. cbn [SplitByte]. by rewrite Ascii.eqb_refl.
  - cbn [CutByte SplitByte]. destruct (Ascii.eqb a c); [done|].
    destruct (CutByte w c) as [[]|]; [done|]. intros _. by rewrite IH.
Qed.

Lemma Join_cons w l sep : l <> [] -> Join (w :: l) sep = w ++ sep ++ Join l sep.
Proof. by destruct l. Qed.

Lemma Join_chars f l : f " "%char = true -> Forall (fun w => all_chars f w = true) l ->
  all_chars f (Join l " ") = true.
Proof.
  intros Hsp. induction 1 as [|w l Hw Hl IH]; [done|].
  destruct l as [|w' l]; [done|]. rewrite Join_cons by done. rewrite !all_chars_app.
  rewrite Hw, IH. cbn [all_chars]. by rewrite Hsp.
Qed.

Lemma words_chars f l : (forall c, graphic c = true -> f c = true) -> Forall word l ->
  Forall (fun w => all_chars f w = true) l.
Proof. intros Hf Hl. eapply Forall_impl; [exact Hl|]. intros w [Hw _]. by eapply all_chars_impl. Qed.

Lemma string_snoc s : s <> "" -> exists t c, s = t ++ String c "".
Proof.
  induction s as [|a s IH]; [done|]. intros _. destruct s as [|b s]; [by exists "", a|].
  destruct IH as (t & c & ->); [done|]. by exists (String a t), c.
Qed.

Lemma Join_snoc l : l <> [] -> Forall word l ->
  exists s c, Join l " " = s ++ String c "" /\ all_chars plain s = true /\ graphic c = true.
Proof.
  intros Hne Hl. assert (exists s c, Join l " " = s ++ String c "" /\ graphic c = true) as (s & c & E & Hc).
  { induction Hl as [|w l [Hw Hw'] Hl IH]; [done|].
    destruct l as [|w' l].
    - destruct (string_snoc w Hw') as (t & c & ->). exists t, c. split; [done|].
      rewrite all_chars_app in Hw. cbn [all_chars] in Hw.
      apply andb_true_iff in Hw as [_ Hw]. by rewrite andb_true_r in Hw.
    - destruct IH as (s & c & E & Hc); [done|]. exists (w ++ " " ++ s), c.
      rewrite Join_cons, E by done. split; [|done]. by rewrite !string_app_assoc. }
  exists s, c. split; [done|]. split; [|done].
  pose proof (Join_chars plain l eq_refl (words_chars _ l graphic_plain Hl)) as Hp.
  rewrite E, all_chars_app in Hp.
  by apply andb_true_iff in Hp as [? _].
Qed.

Lemma decParse_pretty_go x s :
  decParse 0 (pretty_N_go x s) = decParse (Z.of_N x) s.
Proof.
  revert s. induction (N.lt_wf_0 x) as [x _ IH]. intros s.
  assert (x = 0 \/ 0 < x)%N as [->|Hx] by lia; [done|].
  rewrite pretty_N_go_step by done. rewrite IH by (apply N.div_lt; lia).
  cbn [decParse]. pose proof (N.mod_lt x 10 ltac:(done)) as Hd.
  pose proof (N.div_mod x 10 ltac:(done)) as Hx'.
  assert (isDigit (pretty_N_char (x mod 10)) = true /\
          byte_of (pretty_N_char (x mod 10)) = 48 + Z.of_N (x mod 10)) as [-> ->].
  { generalize dependent (x mod 10)%N. intros d. clear. intros Hd _.
    assert (d = 0 \/ d = 1 \/ d = 2 \/ d = 3 \/ d = 4 \/ d = 5 \/ d = 6 \/ d = 7 \/ d = 8 \/ d = 9)%N
      by lia. by repeat match goal with H : _ \/ _ |- _ => destruct H as [->|H] | H : _ = _ |- _ => subst end. }
  f_equal. lia.
Qed.

Lemma decParse_FormatUint z : 0 <= z -> decParse 0 (FormatUint z) = Some z.
Proof.
  intros Hz. unfold FormatUint, pretty, pretty_N. case_decide as E.
  - replace z with 0 by lia. done.
  - rewrite decParse_pretty_go. simpl. f_equal. lia.
Qed.

Lemma decParse_digits s acc z : decParse acc s = Some z -> all_chars isDigit s = true.
Proof.
  revert acc. induction s as [|a s IH]; intros acc; simpl; [done|].
  destruct (isDigit a); [|done]. simpl. eauto.
Qed.

Lemma FormatUint_digits z : 0 <= z -> all_chars isDigit (FormatUint z) = true.
Proof. intros Hz. eapply decParse_digits. by apply decParse_FormatUint. Qed.

Lemma FormatUint_graphic z : 0 <= z -> all_chars graphic (FormatUint z) = true.
Proof. intros Hz. eapply all_chars_impl; [apply isDigit_graphic|by apply FormatUint_digits]. Qed.

Lemma FormatUint_nonempty z : 0 <= z -> FormatUint z <> "".
Proof.
  intros Hz. unfold FormatUint, pretty, pretty_N. case_decide as E; [done|].
  generalize (Z.to_N z) E. clear. intros x E Hs.
  assert (forall x s, s <> "" -> pretty_N_go x s <> "") as H.
  { clear. intros x. induction (N.lt_wf_0 x) as [x _ IH]. intros s Hs.
    assert (x = 0 \/ 0 < x)%N as [->|Hx] by lia; [done|].
    rewrite pretty_N_go_step by done. apply IH; [apply N.div_lt; lia|done]. }
  rewrite pretty_N_go_step in Hs by lia. revert Hs. by apply H.
Qed.

Lemma ParseUint_FormatUint z bits : 0 <= z < 2 ^ bits -> ParseUint (FormatUint z) bits = Some z.
Proof.
  intros Hz. unfold ParseUint.
  destruct (String.eqb_spec (FormatUint z) "") as [E|_].
  - exfalso. revert E. apply FormatUint_nonempty. lia.
  - rewrite decParse_FormatUint by lia. rewrite (proj2 (Z.ltb_lt _ _)) by lia. done.
Qed.

Lemma FormatUint_inj y z : 0 <= y -> 0 <= z -> FormatUint y = FormatUint z -> y = z.
Proof. unfold FormatUint. intros ?? E. apply (inj pretty) in E. lia. Qed.

Lemma decParse_nonneg s acc z : 0 <= acc -> decParse acc s = Some z -> 0 <= z.
Proof.
  revert acc. induction s as [|a s IH]; intros acc Ha; simpl; [intros [=]; lia|].
  destruct (isDigit a) eqn:E; [|done]. apply IH. unfold isDigit in E. lia.
Qed.

Lemma ParseUint_range s bits z : ParseUint s bits = Some z -> 0 <= z < 2 ^ bits.
Proof.
  unfold ParseUint. intros H. crunch_match. zbool. split; [|done].
  by eapply decParse_nonneg; [|eassumption].
Qed.

(** ** Lower-case hexadecimal, [hex.EncodeToString] *)

Definition hexDigitLow (d : Z) : ascii :=
  if d <? 10 then Ascii.ascii_of_N (Z.to_N (48 + d))
  else Ascii.ascii_of_N (Z.to_N (87 + d)).

Fixpoint hexLow (n : nat) (z : Z) : string :=
  match n with
  | O => ""
  | S n => hexLow n (z / 16) ++ String (hexDigitLow (z mod 16)) ""
  end.

Lemma hexNibble_digitLow d : 0 <= d < 16 -> hexNibble (hexDigitLow d) = Some d.
Proof.
  intros H.
  assert (d ∈ seqZ 0 16) as Hd by (apply elem_of_seqZ; lia).
  revert d Hd H. apply (Forall_forall (fun d => 0 <= d < 16 -> _)).
  vm_compute seqZ. repeat constructor.
Qed.

Lemma hexParse_hexLow n z acc :
  hexParse acc (hexLow n z) = Some (acc * 16 ^ Z.of_nat n + z mod 16 ^ Z.of_nat n).
Proof.
  revert z acc. induction n as [|n IH]; intros z acc.
  - cbn. rewrite Z.mod_1_r. f_equal. lia.
  - rewrite Nat2Z.inj_succ, Z.pow_succ_r by lia. cbn [hexLow].
    rewrite hexParse_app, IH. cbn [hexParse].
    rewrite hexNibble_digitLow by (apply Z.mod_pos_bound; lia). f_equal.
    rewrite lor_shiftl4 by (apply Z.mod_pos_bound; lia).
    rewrite Z.rem_mul_r by lia. lia.
Qed.

Lemma hexLow_length n z : String.length (hexLow n z) = n.
Proof.
  revert z. induction n; intros z; simpl; [done|]. rewrite string_app_length, IHn. simpl. lia.
Qed.

(** ** Slices *)

Lemma stake_length n s : String.length (stake n s) = Nat.min n (String.length s).
Proof. revert s. induction n; intros [|a s]; simpl; try done. by rewrite IHn. Qed.

Lemma sdrop_length n s : String.length (sdrop n s) = (String.length s - n)%nat.
Proof. revert s. induction n; intros [|a s]; simpl; try done. Qed.

(** [s[i]] *)
Definition char_at (n : nat) (s : string) : option ascii := String.get n s.

Lemma stake_sdrop_at n s c : char_at n s = Some c ->
  s = stake n s ++ String c (sdrop (S n) s).
Proof.
  unfold char_at. revert s. induction n as [|n IH]; intros [|a s]; simpl; try done.
  - intros [= ->]. done.
  - intros H. f_equal. exact (IH s H).
Qed.

Lemma sdrop_sdrop n m s : sdrop n (sdrop m s) = sdrop (m + n) s.
Proof.
  revert s. induction m as [|m IH]; intros [|a s]; simpl; try done; by destruct n.
Qed.

Lemma stake_all n s : (String.length s <= n)%nat -> stake n s = s.
Proof.
  revert s. induction n as [|n IH]; intros [|a s]; simpl; try done; [lia|].
  intros H. rewrite IH by lia. done.
Qed.

Lemma stake_app_le n s t : (n <= String.length s)%nat -> stake n (s ++ t) = stake n s.
Proof.
  revert s. induction n as [|n IH]; intros [|a s]; simpl; try done; [lia|].
  intros H. rewrite IH by lia. done.
Qed.

Lemma sdrop_app_le n s t : (n <= String.length s)%nat -> sdrop n (s ++ t) = sdrop n s ++ t.
Proof.
  revert s. induction n as [|n IH]; intros [|a s]; simpl; try done; [lia|].
  intros H. by rewrite IH by lia.
Qed.

(** ** Suffixes *)

Lemma string_app_inj_length (a b c d : string) :
  String.length c = String.length d -> a +:+ c = b +:+ d -> a = b /\ c = d.
Proof.
  revert b. induction a as [|x a IH]; intros [|y b] Hl E; cbn in E.
  - done.
  - subst c. cbn in Hl. rewrite string_app_length in Hl. lia.
  - subst d. cbn in Hl. rewrite string_app_length in Hl. lia.
  - injection E as -> E. destruct (IH b Hl E) as [-> ->]. done.
Qed.

Lemma HasSuffix_last s u v a b : a <> b ->
  HasSuffix s (u +:+ String a "") = true -> HasSuffix s (v +:+ String b "") = false.
Proof.
  intros Hab [t Ht]%HasSuffix_inv. destruct (HasSuffix s (v +:+ String b "")) eqn:E; [|done].
  apply HasSuffix_inv in E as [t' Ht']. rewrite Ht in Ht'.
  rewrite <- !string_app_assoc in Ht'. by apply string_app_inj_length in Ht' as [_ [= ?]].
Qed.

Lemma manifest_not_tombstone k : HasSuffix k "/manifest.json" = true ->
  HasSuffix k "/manifest.json.tombstone" = false.
Proof. by apply (HasSuffix_last k "/manifest.jso" "/manifest.json.tombston" "n" "e"). Qed.
(** ** Bytes *)

Lemma byte_of_range c : 0 <= byte_of c < 256.
Proof. unfold byte_of. pose proof (Ascii.N_ascii_bounded c). lia. Qed.
