(* ===== verification/Storage.v ===== *)
(** The storage contract (internal/plugin/storage/storage.go) and the effect
    monad of the code that runs against it.

    A repository is a finite map from keys to objects.  A [prog] is a sequence
    of calls on the [StoragePlugin] interface and readings of the clock, with
    the pure code between two calls as the continuation.  What the environment
    decides about one call (a failure, a failure after the effect has landed, a
    clock reading, the order of a listing) is a [decision]; [run] executes a
    program against a stream of them, and [wp] is the weakest precondition over
    every stream a predicate admits.  The contents of an object are a value of
    an arbitrary type [B]: what a reader decodes from it is the reader's
    [Codec]. *)
From S2P Require Import Prelude GoString.
From Stdlib Require Import Ascii.

(** ** The contract's vocabulary *)

(** The sentinel errors of storage.go; every other failure is [ErrBackend]. *)
Inductive serr :=
| ErrNotFound
| ErrAlreadyExists
| ErrUnsupported
| ErrBackend (code : nat).

#[export] Instance serr_eq_dec : EqDecision serr.
Proof. solve_decision. Defined.

(** A fallible result. *)
Inductive result (E A : Type) :=
| Ok (a : A)
| Err (e : E).
Arguments Ok {E A} a.
Arguments Err {E A} e.

Definition is_ok {E A} (r : result E A) : bool :=
  match r with Ok _ => true | Err _ => false end.

Record Capabilities := { WORM : bool; ConditionalPut : bool }.

(** Object-lock modes. *)
Inductive WORMMode := WORMNone | WORMGovernance | WORMCompliance.

Record PutOptions := {
  IfNotExists : bool;
  ContentLength : Z;
  RetainUntil : time;
  RetentionMode : WORMMode
}.

Record ObjectInfo := {
  Key : string;
  Size : Z;
  ModTime : time
}.

#[export] Instance ObjectInfo_eq_dec : EqDecision ObjectInfo.
Proof. solve_decision. Defined.

Record object (B : Type) := Object {
  ob_body : B;
  ob_size : Z;
  ob_mod : time;
  ob_retain : time;
  ob_mode : WORMMode
}.
Arguments Object {B} _ _ _ _ _.
Arguments ob_body {B} _.
Arguments ob_size {B} _.
Arguments ob_mod {B} _.
Arguments ob_retain {B} _.
Arguments ob_mode {B} _.

(** Decoding an object's body as a document of type [T], and encoding one. *)
Class Codec (B T : Type) := {
  encode : T -> B;
  decode : B -> option T;
  decode_encode : forall x, decode (encode x) = Some x
}.
#[export] Hint Rewrite @decode_encode : pghs.

(** A codec of any countable type: the binary digits of its code. *)
Fixpoint bits (p : positive) : string :=
  match p with
  | xH => ""
  | xO p => String "0"%char (bits p)
  | xI p => String "1"%char (bits p)
  end.

Fixpoint unbits (s : string) : option positive :=
  match s with
  | EmptyString => Some xH
  | String c s => match unbits s with
                  | Some p => Some (if Ascii.eqb c "0"%char then xO p else xI p)
                  | None => None
                  end
  end.

Lemma unbits_bits p : unbits (bits p) = Some p.
Proof. induction p as [p IH|p IH|]; cbn; [by rewrite IH..|done]. Qed.

Definition countable_codec `{Countable T} : Codec string T.
Proof.
  refine {| encode := fun x => bits (countable.encode x);
            decode := fun s => match unbits s with Some p => countable.decode p | None => None end |}.
  intros x. rewrite unbits_bits. apply countable.decode_encode.
Defined.

(** ** Calls and programs *)

Inductive op (B : Type) : Type -> Type :=
| OGet (k : string) : op B (result serr B)
| OStat (k : string) : op B (result serr ObjectInfo)
| OPut (k : string) (b : B) (o : PutOptions) : op B (result serr unit)
| ODelete (k : string) : op B (result serr unit)
| ORename (src dst : string) : op B (result serr unit)
| OSetRetention (k : string) (until : time) (mode : WORMMode) : op B (result serr unit)
| OList (prefix : string) : op B (list ObjectInfo * option serr)
| ONow : op B time.
Arguments OGet {B} k.
Arguments OStat {B} k.
Arguments OPut {B} k b o.
Arguments ODelete {B} k.
Arguments ORename {B} src dst.
Arguments OSetRetention {B} k until mode.
Arguments OList {B} prefix.
Arguments ONow {B}.

Inductive prog (B A : Type) : Type :=
| Ret (a : A)
| Vis (R : Type) (o : op B R) (k : R -> prog B A).
Arguments Ret {B A} a.
Arguments Vis {B A R} o k.

Fixpoint pbind {B A C} (p : prog B A) (f : A -> prog B C) : prog B C :=
  match p with
  | Ret a => f a
  | Vis o k => Vis o (fun r => pbind (k r) f)
  end.

Definition call {B R} (o : op B R) : prog B R := Vis o Ret.

Declare Scope prog_scope.
Delimit Scope prog_scope with prog.
Notation "'let*' x ':=' p 'in' q" := (pbind p (fun x => q))
  (at level 10, x pattern, p at level 100, q at level 200) : prog_scope.
Open Scope prog_scope.

Definition sGet {B} k : prog B _ := call (OGet k).
Definition sStat {B} k : prog B _ := call (OStat k).
Definition sPut {B} k b o : prog B _ := call (OPut k b o).
Definition sDelete {B} k : prog B _ := call (ODelete k).
Definition sRename {B} src dst : prog B _ := call (ORename src dst).
Definition sSetRetention {B} k until mode : prog B _ := call (OSetRetention k until mode).
Definition sList {B} prefix : prog B _ := call (OList prefix).
Definition now {B} : prog B time := call ONow.

(** A Go [for range] over a sequence: the body continues with a new loop state
    or leaves the function with a value. *)
Fixpoint for_ {B X S R} (l : list X) (st : S) (body : X -> S -> prog B (S + R))
    : prog B (S + R) :=
  match l with
  | [] => Ret (inl st)
  | x :: l =>
      let* r := body x st in
      match r with
      | inl st => for_ l st body
      | inr v => Ret (inr v)
      end
  end.

(** ** The environment *)

(** A call goes through, fails without an effect, or has its effect and fails
    all the same (the response was lost). *)
Inductive fault := Normal | Fails (code : nat) | Lost (code : nat).

Record decision := {
  d_fault : fault;
  d_time : time;
  d_order : list ObjectInfo -> list ObjectInfo;
  d_order_perm : forall l, d_order l ≡ₚ l;
  d_listed : nat
}.

Section semantics.
Context {B : Type}.
Local Abbreviation store := (gmap string (object B)).

Definition info_of (k : string) (o : object B) : ObjectInfo :=
  {| Key := k; Size := ob_size o; ModTime := ob_mod o |}.

(** The objects under a prefix. *)
Definition listing (prefix : string) (s : store) : list ObjectInfo :=
  map (fun '(k, o) => info_of k o)
    (filter (fun '(k, _) => HasPrefix k prefix = true) (map_to_list s)).

Definition put_object (t : time) (b : B) (o : PutOptions) : object B :=
  Object b (ContentLength o) t (RetainUntil o) (RetentionMode o).

(** A fallible call: [eff] is its result and its effect when it goes through. *)
Definition with_fault {A} (d : decision) (s : store)
    (eff : result serr A * store) : result serr A * store :=
  match d_fault d with
  | Normal => eff
  | Fails c => (Err (ErrBackend c), s)
  | Lost c => (Err (ErrBackend c), eff.2)
  end.

Definition exec {R} (d : decision) (o : op B R) (s : store) : R * store :=
  match o in op _ R return R * store with
  | OGet k => with_fault d s
      (match s !! k with Some o => Ok (ob_body o) | None => Err ErrNotFound end, s)
  | OStat k => with_fault d s
      (match s !! k with Some o => Ok (info_of k o) | None => Err ErrNotFound end, s)
  | OPut k b o => with_fault d s
      (match s !! k with
       | Some _ => if IfNotExists o then (Err ErrAlreadyExists, s)
                   else (Ok (), <[k := put_object (d_time d) b o]> s)
       | None => (Ok (), <[k := put_object (d_time d) b o]> s)
       end)
  | ODelete k => with_fault d s (Ok (), delete k s)
  | ORename src dst => with_fault d s
      (match s !! src, s !! dst with
       | None, _ => (Err ErrNotFound, s)
       | Some _, Some _ => (Err ErrAlreadyExists, s)
       | Some o, None => (Ok (), <[dst := o]> (delete src s))
       end)
  | OSetRetention k until mode => with_fault d s
      (match s !! k with
       | Some o => (Ok (), <[k := Object (ob_body o) (ob_size o) (ob_mod o) until mode]> s)
       | None => (Err ErrNotFound, s)
       end)
  | OList prefix =>
      let l := d_order d (listing prefix s) in
      match d_fault d with
      | Normal => (l, None, s)
      | Fails c | Lost c => (take (d_listed d) l, Some (ErrBackend c), s)
      end
  | ONow => (d_time d, s)
  end.

(** Running a program against a stream of decisions, from the [i]-th on. *)
Fixpoint run {A} (ds : nat -> decision) (i : nat) (p : prog B A) (s : store) : A * store :=
  match p with
  | Ret a => (a, s)
  | Vis o k => let '(r, s') := exec (ds i) o s in run ds (S i) (k r) s'
  end.

(** The weakest precondition over every stream of decisions [D] admits. *)
Fixpoint wp {A} (D : decision -> Prop) (p : prog B A) (Q : A -> store -> Prop)
    (s : store) : Prop :=
  match p with
  | Ret a => Q a s
  | Vis o k => forall d, D d -> let '(r, s') := exec d o s in wp D (k r) Q s'
  end.

Lemma wp_run {A} D (p : prog B A) Q s ds i :
  (forall j, D (ds j)) -> wp D p Q s ->
  Q (run ds i p s).1 (run ds i p s).2.
Proof.
  intros HD. revert i s. induction p as [a|R o k IH]; intros i s; simpl; [done|].
  intros H. specialize (H (ds i) (HD i)).
  destruct (exec (ds i) o s) as [r s']. by apply IH.
Qed.

Lemma wp_mono {A} D (p : prog B A) (Q Q' : A -> store -> Prop) s :
  (forall a s', Q a s' -> Q' a s') -> wp D p Q s -> wp D p Q' s.
Proof.
  intros HQ. revert s. induction p as [a|R o k IH]; intros s; simpl; [auto|].
  intros H d Hd. specialize (H d Hd). destruct (exec d o s). auto.
Qed.

Lemma wp_and {A} D (p : prog B A) (Q Q' : A -> store -> Prop) s :
  wp D p Q s -> wp D p Q' s -> wp D p (fun a s' => Q a s' /\ Q' a s') s.
Proof.
  revert s. induction p as [a|R o k IH]; intros s; simpl; [done|].
  intros H H' d Hd. specialize (H d Hd). specialize (H' d Hd). destruct (exec d o s). auto.
Qed.

Lemma wp_bind {A C} D (p : prog B A) (f : A -> prog B C) Q s :
  wp D p (fun a s' => wp D (f a) Q s') s -> wp D (pbind p f) Q s.
Proof.
  revert s. induction p as [a|R o k IH]; intros s; simpl; [done|].
  intros H d Hd. specialize (H d Hd). destruct (exec d o s). auto.
Qed.

(** The loop rule: an invariant on the entries visited, those still to come,
    the loop state and the store. *)
Lemma wp_for {X S R} D (l : list X) (body : X -> S -> prog B (S + R))
    (I : list X -> list X -> S -> store -> Prop) (Q : S + R -> store -> Prop) st s :
  I [] l st s ->
  (forall pre x post st s, l = pre ++ x :: post -> I pre (x :: post) st s ->
     wp D (body x st) (fun r s' =>
       match r with
       | inl st' => I (pre ++ [x]) post st' s'
       | inr v => Q (inr v) s'
       end) s) ->
  (forall st s, I l [] st s -> Q (inl st) s) ->
  wp D (for_ l st body) Q s.
Proof.
  intros H0 Hbody Hend.
  enough (H : forall post pre st s, l = pre ++ post -> I pre post st s ->
            wp D (for_ post st body) Q s) by exact (H l [] st s eq_refl H0).
  clear st s H0. intros post. induction post as [|x post IH]; intros pre st s Hl HI; simpl.
  - rewrite app_nil_r in Hl. subst pre. by apply Hend.
  - apply wp_bind. eapply wp_mono; [|by apply (Hbody pre x post)].
    intros [st'|v] s'; simpl; [|done].
    intros HI'. apply (IH (pre ++ [x])); [by rewrite <- app_assoc | done].
Qed.

Lemma elem_of_listing i prefix s :
  i ∈ listing prefix s <->
  exists o, s !! Key i = Some o /\ i = info_of (Key i) o /\ HasPrefix (Key i) prefix = true.
Proof.
  unfold listing. rewrite list_elem_of_fmap. split.
  - intros ([k o] & -> & [Hp Hin]%list_elem_of_filter). apply elem_of_map_to_list in Hin.
    exists o. done.
  - intros (o & Hs & Hi & Hp). exists (Key i, o). split; [done|].
    apply list_elem_of_filter. split; [done|]. by apply elem_of_map_to_list.
Qed.

Lemma listing_keys_NoDup prefix s : NoDup (map Key (listing prefix s)).
Proof.
  unfold listing. rewrite map_map, (map_ext _ fst) by (by intros [k o]).
  apply (sublist_NoDup _ (map fst (map_to_list s))); [apply NoDup_fst_map_to_list|apply fmap_sublist, sublist_filter].
Qed.
(** ** One rule per call

    Each rule lists the outcomes of one call: the effect, the refusal, a failure
    without the effect and a failure after it. *)

Lemma wp_get D k (Q : result serr B -> store -> Prop) s :
  (forall o, s !! k = Some o -> Q (Ok (ob_body o)) s) ->
  (s !! k = None -> Q (Err ErrNotFound) s) ->
  (forall d c, D d -> d_fault d <> Normal -> Q (Err (ErrBackend c)) s) ->
  wp D (sGet k) Q s.
Proof.
  intros H1 H2 H3 d Hd. unfold exec, with_fault.
  destruct (d_fault d) eqn:F; [destruct (s !! k) eqn:E; simpl; eauto| |];
    (eapply H3; [exact Hd|congruence]).
Qed.

Lemma wp_stat D k (Q : result serr ObjectInfo -> store -> Prop) s :
  (forall o, s !! k = Some o -> Q (Ok (info_of k o)) s) ->
  (s !! k = None -> Q (Err ErrNotFound) s) ->
  (forall d c, D d -> d_fault d <> Normal -> Q (Err (ErrBackend c)) s) ->
  wp D (sStat k) Q s.
Proof.
  intros H1 H2 H3 d Hd. unfold exec, with_fault.
  destruct (d_fault d) eqn:F; [destruct (s !! k) eqn:E; simpl; eauto| |];
    (eapply H3; [exact Hd|congruence]).
Qed.

Lemma wp_put D k b o (Q : result serr unit -> store -> Prop) s :
  (forall d, D d -> (IfNotExists o = true -> s !! k = None) ->
     Q (Ok ()) (<[k := put_object (d_time d) b o]> s)) ->
  (is_Some (s !! k) -> IfNotExists o = true -> Q (Err ErrAlreadyExists) s) ->
  (forall d c, D d -> d_fault d <> Normal -> Q (Err (ErrBackend c)) s) ->
  (forall d c, D d -> d_fault d <> Normal -> (IfNotExists o = true -> s !! k = None) ->
     Q (Err (ErrBackend c)) (<[k := put_object (d_time d) b o]> s)) ->
  wp D (sPut k b o) Q s.
Proof.
  intros H1 H2 H3 H4 d Hd. unfold exec, with_fault.
  destruct (d_fault d) eqn:F; simpl.
  - destruct (s !! k) eqn:E; [destruct (IfNotExists o) eqn:G|]; simpl;
      [apply H2; eauto|apply H1; done|apply H1; done].
  - apply (H3 d); [exact Hd|congruence].
  - destruct (s !! k) eqn:E; [destruct (IfNotExists o) eqn:G|]; simpl;
      [apply (H3 d); [exact Hd|congruence]|apply H4; congruence|apply H4; congruence].
Qed.

Lemma wp_delete D k (Q : result serr unit -> store -> Prop) s :
  Q (Ok ()) (delete k s) ->
  (forall d c, D d -> d_fault d <> Normal -> Q (Err (ErrBackend c)) s) ->
  (forall d c, D d -> d_fault d <> Normal -> Q (Err (ErrBackend c)) (delete k s)) ->
  wp D (sDelete k) Q s.
Proof.
  intros H1 H2 H3 d Hd. unfold exec, with_fault.
  destruct (d_fault d) eqn:F; simpl; [done|apply (H2 d)|apply (H3 d)]; congruence.
Qed.

Lemma wp_rename D src dst (Q : result serr unit -> store -> Prop) s :
  (forall o, s !! src = Some o -> s !! dst = None -> Q (Ok ()) (<[dst := o]> (delete src s))) ->
  (s !! src = None -> Q (Err ErrNotFound) s) ->
  (is_Some (s !! src) -> is_Some (s !! dst) -> Q (Err ErrAlreadyExists) s) ->
  (forall d c, D d -> d_fault d <> Normal -> Q (Err (ErrBackend c)) s) ->
  (forall d c o, D d -> d_fault d <> Normal -> s !! src = Some o -> s !! dst = None ->
     Q (Err (ErrBackend c)) (<[dst := o]> (delete src s))) ->
  wp D (sRename src dst) Q s.
Proof.
  intros H1 H2 H3 H4 H5 d Hd. unfold exec, with_fault.
  destruct (d_fault d) eqn:F; simpl.
  - destruct (s !! src) eqn:E, (s !! dst) eqn:G; simpl; eauto.
  - apply (H4 d); congruence.
  - destruct (s !! src) eqn:E; [destruct (s !! dst) eqn:G|]; simpl;
      [apply (H4 d); congruence|apply (H5 d); congruence|apply (H4 d); congruence].
Qed.

Lemma wp_set_retention D k until mode (Q : result serr unit -> store -> Prop) s :
  (forall o, s !! k = Some o ->
     Q (Ok ()) (<[k := Object (ob_body o) (ob_size o) (ob_mod o) until mode]> s)) ->
  (s !! k = None -> Q (Err ErrNotFound) s) ->
  (forall d c, D d -> d_fault d <> Normal -> Q (Err (ErrBackend c)) s) ->
  (forall d c o, D d -> d_fault d <> Normal -> s !! k = Some o ->
     Q (Err (ErrBackend c)) (<[k := Object (ob_body o) (ob_size o) (ob_mod o) until mode]> s)) ->
  wp D (sSetRetention k until mode) Q s.
Proof.
  intros H1 H2 H3 H4 d Hd. unfold exec, with_fault.
  destruct (d_fault d) eqn:F; simpl.
  - destruct (s !! k) eqn:E; simpl; eauto.
  - apply (H3 d); congruence.
  - destruct (s !! k) eqn:E; simpl; [apply (H4 d); congruence|apply (H3 d); congruence].
Qed.

Lemma wp_list D prefix (Q : list ObjectInfo * option serr -> store -> Prop) s :
  (forall l, l ≡ₚ listing prefix s -> Q (l, None) s) ->
  (forall d c l l', D d -> d_fault d <> Normal -> l ++ l' ≡ₚ listing prefix s ->
     Q (l, Some (ErrBackend c)) s) ->
  wp D (sList prefix) Q s.
Proof.
  intros H1 H2 d Hd. unfold exec.
  destruct (d_fault d) eqn:F; simpl; [apply H1, d_order_perm| |];
    (eapply H2; [exact Hd|congruence|rewrite take_drop; apply d_order_perm]).
Qed.

Lemma wp_now D (Q : time -> store -> Prop) s :
  (forall d, D d -> Q (d_time d) s) -> wp D now Q s.
Proof. intros H d Hd. by apply H. Qed.
End semantics.

Arguments exec {B R} d o s : simpl never.

(** A backend with no failures. *)
Definition healthy (d : decision) : Prop := d_fault d = Normal.

(** One step of a program: a bind, then the rule of its first call. *)
Ltac wp_step :=
  lazymatch goal with
  | |- wp _ (pbind (sGet _) _) _ _ => apply wp_bind, wp_get
  | |- wp _ (pbind (sStat _) _) _ _ => apply wp_bind, wp_stat
  | |- wp _ (pbind (sPut _ _ _) _) _ _ => apply wp_bind, wp_put
  | |- wp _ (pbind (sDelete _) _) _ _ => apply wp_bind, wp_delete
  | |- wp _ (pbind (sRename _ _) _) _ _ => apply wp_bind, wp_rename
  | |- wp _ (pbind (sSetRetention _ _ _) _) _ _ => apply wp_bind, wp_set_retention
  | |- wp _ (pbind (sList _) _) _ _ => apply wp_bind, wp_list
  | |- wp _ (pbind now _) _ _ => apply wp_bind, wp_now
  | |- wp _ (pbind _ _) _ _ => apply wp_bind
  end.

#[export] Hint Extern 0 (d_fault _ <> Normal) => assumption : pghs.
