(* ===== verification/Chunker.v ===== *)
(** Content-defined chunking (internal/backup/chunker/fastcdc.go).

    [NewWithParams], [findBoundary] and the [Iter] loop with its working buffer,
    read cursor, compaction and end-of-file flag, run against a reader that
    delivers some bytes and then ends or fails.  The reference [items_of] cuts
    the remaining bytes without any buffer; [Iter_refines] says the loop is that
    function, for every consumer of the iterator.  The gear table, which Go's
    [math/rand] generates from a fixed seed, is a parameter: nothing proved here
    depends on its contents. *)
From S2P Require Import Prelude.
From Stdlib Require Import Strings.Byte.

Definition len {A} (l : list A) : Z := Z.of_nat (length l).
Definition takeZ {A} (n : Z) (l : list A) : list A := take (Z.to_nat n) l.
Definition dropZ {A} (n : Z) (l : list A) : list A := drop (Z.to_nat n) l.

Section chunker.
(** [gearTable[b]], a [uint32]. *)
Context (gearTable : byte -> Z).

(** ** Parameters *)

Definition DefaultMinSize : Z := 4 * 1024.
Definition DefaultAvgSize : Z := 64 * 1024.
Definition DefaultMaxSize : Z := 256 * 1024.

(** [for v >>= 1; v != 0; v >>= 1 { out++ }], 64 rounds at most for a [uint]. *)
Fixpoint log2Floor_loop (fuel : nat) (v out : Z) : Z :=
  match fuel with
  | O => out
  | S fuel =>
      let v := Z.shiftr v 1 in
      if v =? 0 then out else log2Floor_loop fuel v (out + 1)
  end.

Definition log2Floor (v : Z) : Z :=
  if v =? 0 then 0 else log2Floor_loop 64 v 0.

Definition bitsToMask (bits : Z) : Z :=
  if bits <=? 0 then 0
  else if 32 <=? bits then 2 ^ 32 - 1
  else u32 (Z.shiftl 1 bits) - 1.

Record Chunker := {
  cmin : Z;
  cavg : Z;
  cmax : Z;
  maskTight : Z;
  maskLoose : Z
}.

(** [None] is the panic on invalid bounds. *)
Definition NewWithParams (min avg max : Z) : option Chunker :=
  if (min <=? 0) || (avg <? min) || (max <? avg) then None
  else
    let bits := log2Floor (u64 avg) in
    Some {| cmin := min; cavg := avg; cmax := max;
            maskTight := bitsToMask (bits + 2);
            maskLoose := bitsToMask (bits - 2) |}.

Definition New : option Chunker :=
  NewWithParams DefaultMinSize DefaultAvgSize DefaultMaxSize.

(** ** The cut position *)

(** One phase of [findBoundary]: the gear hash rolled over the bytes from
    index [i] on, until it hits the mask or the bytes end. *)
Fixpoint scan (mask hash i : Z) (l : list byte) : Z + Z :=
  match l with
  | [] => inr hash
  | b :: l =>
      let hash := u32 (u32 (Z.shiftl hash 1) + gearTable b) in
      if Z.land hash mask =? 0 then inl (i + 1) else scan mask hash (i + 1) l
  end.

Definition findBoundary (c : Chunker) (buf : list byte) : Z :=
  let n := len buf in
  if n <=? cmin c then n
  else
    let avgEnd := if n <? cavg c then n else cavg c in
    match scan (maskTight c) 0 (cmin c) (takeZ (avgEnd - cmin c) (dropZ (cmin c) buf)) with
    | inl cut => cut
    | inr hash =>
        match scan (maskLoose c) hash avgEnd (dropZ avgEnd buf) with
        | inl cut => cut
        | inr _ => n
        end
    end.

(** ** The reader *)

(** What an [io.Reader] still delivers: bytes, then the end of the stream or a
    failure. *)
Record reader := { rd_data : list byte; rd_err : option nat }.

Inductive readErr := EOF | ErrUnexpectedEOF | ReadError (e : nat).

(** [io.ReadFull] into a buffer of [n] bytes. *)
Definition ReadFull (r : reader) (n : Z) : list byte * option readErr * reader :=
  if n <=? len (rd_data r) then
    (takeZ n (rd_data r), None, {| rd_data := dropZ n (rd_data r); rd_err := rd_err r |})
  else
    (rd_data r,
     match rd_err r with
     | Some e => Some (ReadError e)
     | None => Some (match rd_data r with [] => EOF | _ => ErrUnexpectedEOF end)
     end,
     {| rd_data := []; rd_err := rd_err r |}).

(** ** The iterator *)

Inductive item :=
| IChunk (data : list byte) (offset : Z)
| IErr (e : nat).

(** The loop's variables; the buffer's capacity is [cmax c]. *)
Record istate := {
  buf : list byte;
  pos : Z;
  offset : Z;
  eof : bool;
  rd : reader
}.

Inductive outcome (S : Type) := Returned (s : S) | Panicked | OutOfFuel.
Arguments Returned {S} s.
Arguments Panicked {S}.
Arguments OutOfFuel {S}.

(** Compaction: the live bytes move to the front of the buffer. *)
Definition compact (c : Chunker) (it : istate) : istate :=
  if cmax c - len (buf it) <? cmax c / 2 then
    if 0 <? pos it then
      {| buf := dropZ (pos it) (buf it); pos := 0; offset := offset it;
         eof := eof it; rd := rd it |}
    else it
  else it.

(** The refill at the head of the loop; [inr] is a read error. *)
Definition refill (c : Chunker) (it : istate) : istate + nat :=
  if eof it then inl it
  else
    let it := compact c it in
    let '(bs, err, rd') := ReadFull (rd it) (cmax c - len (buf it)) in
    let mk e := {| buf := buf it ++ bs; pos := pos it; offset := offset it;
                   eof := e; rd := rd' |} in
    match err with
    | None => inl (mk (eof it))
    | Some EOF | Some ErrUnexpectedEOF => inl (mk true)
    | Some (ReadError e) => inr e
    end.

(** The loop, with the consumer's [yield] threaded through its own state. *)
Fixpoint iter_loop {S} (fuel : nat) (c : Chunker) (yield : item -> S -> S * bool)
    (it : istate) (st : S) : outcome S :=
  match fuel with
  | O => OutOfFuel
  | Datatypes.S fuel =>
      match refill c it with
      | inr e => Returned (yield (IErr e) st).1
      | inl it =>
          if len (buf it) =? pos it then Returned st
          else
            let live := dropZ (pos it) (buf it) in
            if eof it && (len live <=? cmin c) then
              Returned (yield (IChunk live (offset it)) st).1
            else
              let boundary := findBoundary c live in
              let boundary := if len live <? boundary then len live else boundary in
              if negb ((0 <? boundary) && (boundary <=? cmax c)) then Panicked
              else if negb (eof it || (cmin c <=? boundary)) then Panicked
              else
                let '(st, more) := yield (IChunk (takeZ boundary live) (offset it)) st in
                if negb more then Returned st
                else iter_loop fuel c yield
                       {| buf := buf it; pos := pos it + boundary;
                          offset := offset it + boundary; eof := eof it; rd := rd it |} st
      end
  end.

(** Every round but the last consumes a byte. *)
Definition Iter {S} (c : Chunker) (r : reader) (yield : item -> S -> S * bool) (st : S)
    : outcome S :=
  iter_loop (Datatypes.S (Datatypes.S (length (rd_data r)))) c yield
    {| buf := []; pos := 0; offset := 0; eof := false; rd := r |} st.

(** ** The reference: cut the remaining bytes, no buffer *)

(** A consumer driven over a list of items. *)
Fixpoint drive {S} (yield : item -> S -> S * bool) (l : list item) (st : S) : S :=
  match l with
  | [] => st
  | x :: l => let '(st, more) := yield x st in if more then drive yield l st else st
  end.

(** The boundary looks at no more than the next [cmax] bytes.  On a failing
    reader a cut needs [cmax] bytes to look at. *)
Fixpoint items_from (fuel : nat) (c : Chunker) (err : option nat) (off : Z) (s : list byte)
    : list item :=
  match fuel with
  | O => []
  | S fuel =>
      let b := findBoundary c (takeZ (cmax c) s) in
      let next := IChunk (takeZ b s) off :: items_from fuel c err (off + b) (dropZ b s) in
      match err with
      | Some e => if len s <? cmax c then [IErr e] else next
      | None => if len s =? 0 then [] else next
      end
  end.

Definition items_of (c : Chunker) (r : reader) : list item :=
  items_from (S (length (rd_data r))) c (rd_err r) 0 (rd_data r).

(** ** Bounds of a cut *)

Definition valid (c : Chunker) : Prop := 0 < cmin c /\ cmin c <= cavg c <= cmax c.

Lemma NewWithParams_valid min avg max c :
  NewWithParams min avg max = Some c ->
  valid c /\ cmin c = min /\ cavg c = avg /\ cmax c = max.
Proof.
  unfold NewWithParams. intros H. case_match; [done|]. injection H as <-.
  zbool. unfold valid; simpl. lia.
Qed.

Lemma scan_bounds mask h i l cut : scan mask h i l = inl cut -> i < cut <= i + len l.
Proof.
  revert h i. induction l as [|b l IH]; intros h i; simpl; [done|].
  unfold len in *. simpl. case_match; [intros [= <-]; lia|].
  intros Hs%IH. lia.
Qed.

Lemma len_takeZ {A} n (l : list A) : 0 <= n -> len (takeZ n l) = Z.min n (len l).
Proof. unfold len, takeZ. rewrite length_take. lia. Qed.

Lemma len_dropZ {A} n (l : list A) : 0 <= n -> len (dropZ n l) = Z.max 0 (len l - n).
Proof. unfold len, dropZ. rewrite length_drop. lia. Qed.

Lemma len_app {A} (l k : list A) : len (l ++ k) = len l + len k.
Proof. unfold len. rewrite length_app. lia. Qed.

Lemma len_nonneg {A} (l : list A) : 0 <= len l.
Proof. unfold len. lia. Qed.

Lemma len_nil {A} (l : list A) : len l = 0 <-> l = [].
Proof. unfold len. destruct l; simpl; split; try done; lia. Qed.

Lemma findBoundary_bounds c s :
  valid c -> s <> [] ->
  0 < findBoundary c s <= len s /\
  (cmin c <= findBoundary c s \/ findBoundary c s = len s).
Proof.
  intros Hv Hs. unfold valid in Hv. pose proof (len_nonneg s).
  assert (len s <> 0) by (by rewrite len_nil).
  unfold findBoundary. case_match; zbool; [lia|].
  set (avgEnd := if len s <? cavg c then len s else cavg c).
  assert (cmin c <= avgEnd <= len s) by (unfold avgEnd; case_match; zbool; lia).
  case_match eqn:E1; [|case_match eqn:E2]; [| |lia];
    [apply scan_bounds in E1 | apply scan_bounds in E2].
  - rewrite len_takeZ, len_dropZ in E1; lia.
  - rewrite len_dropZ in E2; lia.
Qed.

Lemma takeZ_all {A} n (l : list A) : len l <= n -> takeZ n l = l.
Proof. unfold takeZ, len. intros. apply take_ge. lia. Qed.

Lemma takeZ_takeZ {A} n m (l : list A) : n <= m -> takeZ n (takeZ m l) = takeZ n l.
Proof. unfold takeZ. intros. rewrite take_take. f_equal. lia. Qed.

Lemma takeZ_dropZ {A} n (l : list A) : takeZ n l ++ dropZ n l = l.
Proof. apply take_drop. Qed.

Lemma takeZ_app {A} n (l k : list A) :
  len l <= n -> takeZ n (l ++ k) = l ++ takeZ (n - len l) k.
Proof.
  unfold takeZ, len. intros. rewrite take_app_ge by lia. do 2 f_equal. lia.
Qed.

Lemma dropZ_0 {A} (l : list A) : dropZ 0 l = l.
Proof. done. Qed.

(** What a cut does to the remaining bytes. *)
Lemma cut_bounds c s (b := findBoundary c (takeZ (cmax c) s)) :
  valid c -> s <> [] ->
  0 < b <= cmax c /\ b <= len s /\ (cmin c <= b \/ b = len s).
Proof.
  intros Hv Hs. pose proof Hv as [? ?]. pose proof (len_nonneg s).
  assert (len s <> 0) by (by rewrite len_nil).
  assert (takeZ (cmax c) s <> []) by (rewrite <- len_nil, len_takeZ by lia; lia).
  destruct (findBoundary_bounds c (takeZ (cmax c) s)) as [? ?]; [done..|].
  rewrite len_takeZ in * by lia. subst b. lia.
Qed.

(** Any fuel above the number of bytes gives the same items. *)
Lemma items_from_fuel c err n m off s :
  valid c -> (length s < n)%nat -> (length s < m)%nat ->
  items_from n c err off s = items_from m c err off s.
Proof.
  intros Hv. revert m off s. induction n as [|n IH]; intros [|m] off s ? ?; try lia.
  cbn [items_from]. destruct (decide (s = [])) as [->|Hs].
  - destruct err as [e|]; [|done]. destruct Hv. simpl.
    replace (len [] <? cmax c) with true by (symmetry; apply Z.ltb_lt; unfold len; simpl; lia).
    done.
  - destruct (cut_bounds c s Hv Hs) as (? & ? & ?).
    rewrite (IH m) by (unfold dropZ; rewrite length_drop; unfold len in *; lia). done.
Qed.

(** ** The loop refines the reference *)

(** The bytes not yet handed to the consumer. *)
Definition rest (it : istate) : list byte := dropZ (pos it) (buf it) ++ rd_data (rd it).

(** The buffer invariant at the head of the loop: before the end of the stream
    the buffer is either fresh or full with a consumed prefix. *)
Definition good (c : Chunker) (it : istate) : Prop :=
  0 <= pos it <= len (buf it) /\ len (buf it) <= cmax c /\
  if eof it then rd_data (rd it) = [] /\ rd_err (rd it) = None
  else (buf it = [] /\ pos it = 0) \/ (len (buf it) = cmax c /\ 0 < pos it).

(** A filled buffer: all the bytes left, or exactly [cmax] of them. *)
Definition filled (c : Chunker) (it it' : istate) : Prop :=
  0 <= pos it' <= len (buf it') /\ len (buf it') <= cmax c /\
  offset it' = offset it /\ rest it' = rest it /\ rd_err (rd it') = rd_err (rd it) /\
  dropZ (pos it') (buf it') = takeZ (cmax c) (rest it) /\
  if eof it' then rd_data (rd it') = [] /\ rd_err (rd it') = None
  else pos it' = 0 /\ len (buf it') = cmax c.

Lemma compact_good c it :
  2 <= cmax c -> good c it -> eof it = false ->
  pos (compact c it) = 0 /\ buf (compact c it) = dropZ (pos it) (buf it) /\
  offset (compact c it) = offset it /\ rd (compact c it) = rd it /\
  eof (compact c it) = false.
Proof.
  intros Hmax (? & ? & Hg) He. rewrite He in Hg. unfold compact.
  destruct Hg as [[Hb Hp] | [Hl Hp]].
  - rewrite Hb, Hp. unfold dropZ. simpl. repeat case_match; simpl; rewrite ?Hb; done.
  - assert ((cmax c - len (buf it) <? cmax c / 2) = true) as ->.
    { apply Z.ltb_lt. pose proof (Z.div_str_pos (cmax c) 2). lia. }
    assert ((0 <? pos it) = true) as -> by (apply Z.ltb_lt; lia). done.
Qed.

Lemma refill_spec c it :
  valid c -> 2 <= cmax c -> good c it ->
  match refill c it with
  | inr e => eof it = false /\ rd_err (rd it) = Some e /\ len (rest it) < cmax c
  | inl it' => filled c it it' /\ (rd_err (rd it) = None \/ cmax c <= len (rest it))
  end.
Proof.
  intros Hv Hmax Hgood. unfold refill. destruct (eof it) eqn:He.
  - destruct Hgood as (? & ? & Hg). rewrite He in Hg. destruct Hg as [Hd Herr].
    split; [|by left]. unfold filled, rest. rewrite He, Hd, app_nil_r.
    repeat split; try lia; try done.
    symmetry. apply takeZ_all. rewrite len_dropZ; lia.
  - destruct (compact_good c it Hmax Hgood He) as (Hp & Hb & Ho & Hr & He').
    destruct Hgood as (? & ? & _). unfold rest.
    set (live := dropZ (pos it) (buf it)) in *.
    assert (len live <= cmax c) by (unfold live; rewrite len_dropZ; lia).
    pose proof (len_nonneg live). pose proof (len_nonneg (rd_data (rd it))).
    unfold ReadFull. cbv zeta. rewrite Hr, Hb, len_app.
    destruct (cmax c - len live <=? len (rd_data (rd it))) eqn:E; zbool; cbn.
    + rewrite He'. split; [|right; lia]. unfold filled, rest; simpl.
      rewrite Hp, Ho, !dropZ_0, <- app_assoc, !takeZ_dropZ.
      repeat split; try done; rewrite ?len_app, ?len_takeZ by lia; try lia.
      by rewrite takeZ_app.
    + destruct (rd_err (rd it)) as [e|] eqn:Herr; [split_and!; [done|done|lia]|].
      remember (match rd_data (rd it) with [] => EOF | _ => ErrUnexpectedEOF end) as y eqn:Hy.
       assert (y = EOF \/ y = ErrUnexpectedEOF) as Hy'.
      { destruct (rd_data (rd it)); subst y; auto. }
      clear Hy.
      assert (filled c it {| buf := live ++ rd_data (rd it); pos := 0; offset := offset it;
                eof := true; rd := {| rd_data := []; rd_err := None |} |}) as Hf.
      { unfold filled, rest; simpl. fold live. rewrite Herr.
        rewrite !dropZ_0, app_nil_r.
        repeat split; try done; rewrite ?len_app; try lia.
        symmetry. apply takeZ_all. rewrite len_app. lia. }
      destruct Hy' as [-> | ->]; rewrite Hp, Ho; (split; [exact Hf | by left]).
Qed.

Lemma dropZ_dropZ {A} n m (l : list A) : 0 <= n -> 0 <= m -> dropZ n (dropZ m l) = dropZ (m + n) l.
Proof. unfold dropZ. intros. rewrite drop_drop. f_equal. lia. Qed.

Lemma dropZ_app_l {A} n (l k : list A) : n <= len l -> dropZ n (l ++ k) = dropZ n l ++ k.
Proof. unfold dropZ, len. intros. apply drop_app_le. lia. Qed.

Lemma filled_next c it it' b :
  filled c it it' -> 0 < b <= len (dropZ (pos it') (buf it')) ->
  let nxt := {| buf := buf it'; pos := pos it' + b; offset := offset it' + b;
                eof := eof it'; rd := rd it' |} in
  good c nxt /\ rest nxt = dropZ b (rest it) /\ rd_err (rd nxt) = rd_err (rd it).
Proof.
  intros (? & ? & ? & Hr & He & _ & Hf) Hb nxt. rewrite len_dropZ in Hb by lia.
  split_and!; [| |exact He].
  - unfold good; simpl. destruct (eof it'); destruct Hf; split_and!; try done; lia.
  - unfold rest in *; simpl.
    rewrite <- Hr, dropZ_app_l, dropZ_dropZ; [done|lia|lia|rewrite len_dropZ; lia].
Qed.

Lemma iter_loop_refines {S} c (yield : item -> S -> S * bool) fuel it st :
  valid c -> 2 <= cmax c -> good c it -> (length (rest it) < fuel)%nat ->
  iter_loop fuel c yield it st =
    Returned (drive yield (items_from fuel c (rd_err (rd it)) (offset it) (rest it)) st).
Proof.
  intros Hv Hmax. revert it st. induction fuel as [|fuel IH]; intros it st Hgood Hfuel; [lia|].
  cbn [iter_loop items_from]. pose proof (refill_spec c it Hv Hmax Hgood) as Hrf.
  pose proof Hv as [? ?]. pose proof (len_nonneg (rest it)).
  destruct (refill c it) as [it'|e].
  2: { destruct Hrf as (_ & -> & Hl). apply Z.ltb_lt in Hl as ->. simpl.
       by destruct (yield (IErr e) st) as [? []]. }
  destruct Hrf as [Hf Herr].
  pose proof Hf as (Hp & _ & Ho & Hrest & _ & Hlive & Heof).
  assert (len (dropZ (pos it') (buf it')) = len (buf it') - pos it') as Hll
    by (rewrite len_dropZ; lia).
  rewrite Hlive, len_takeZ in Hll by lia.
  destruct (len (buf it') =? pos it') eqn:E; zbool.
  { assert (rest it = []) as Hnil by (apply len_nil; lia).
    rewrite Hnil in *. destruct Herr as [-> | Herr]; [done | unfold len in Herr; simpl in Herr; lia]. }
  assert (rest it <> []) as Hne by (rewrite <- len_nil; lia).
  destruct (cut_bounds c (rest it) Hv Hne) as (Hb1 & Hb2 & Hb3).
  rewrite Hlive. set (b := findBoundary c (takeZ (cmax c) (rest it))) in *.
  match goal with |- _ = Returned (drive _ ?l _) =>
    assert (l = IChunk (takeZ b (rest it)) (offset it)
              :: items_from fuel c (rd_err (rd it)) (offset it + b) (dropZ b (rest it))) as -> end.
  { destruct (rd_err (rd it)) as [e|].
    - destruct Herr as [?|?]; [done|]. by rewrite (proj2 (Z.ltb_ge _ _)).
    - rewrite (proj2 (Z.eqb_neq _ _)); [done|]. by rewrite len_nil. }
  rewrite len_takeZ by lia.
  destruct (eof it' && (Z.min (cmax c) (len (rest it)) <=? cmin c)) eqn:Eshort.
  { apply andb_true_iff in Eshort as [He Hs]. rewrite He in Heof. destruct Heof as [Hd Hn].
    assert (takeZ (cmax c) (rest it) = rest it) as Hall.
    { rewrite <- Hlive, <- Hrest. unfold rest. by rewrite Hd, app_nil_r. }
    pose proof (f_equal len Hall) as Hlen. rewrite len_takeZ in Hlen by lia.
    assert (b = len (rest it)) as Hbl.
    { unfold b. rewrite Hall. unfold findBoundary. zbool. by rewrite (proj2 (Z.leb_le _ _)) by lia. }
    rewrite Hall, Ho, Hbl, takeZ_all by lia. cbn [drive].
    assert (dropZ (len (rest it)) (rest it) = []) as -> by
      (apply len_nil; rewrite len_dropZ; lia).
    destruct Hf as (_ & _ & _ & _ & <- & _). rewrite Hn. cbn [items_from].
    destruct fuel; simpl; by destruct (yield _ st) as [? []]. }
  replace (Z.min (cmax c) (len (rest it)) <? b) with false by (symmetry; apply Z.ltb_ge; lia).
  replace ((0 <? b) && (b <=? cmax c)) with true
    by (symmetry; apply andb_true_iff; split; [apply Z.ltb_lt|apply Z.leb_le]; lia).
  assert ((eof it' || (cmin c <=? b)) = true) as ->.
  { destruct (eof it'); [done|]. apply Z.leb_le. lia. }
  cbn [negb drive]. rewrite Ho, takeZ_takeZ by lia.
  destruct (yield _ st) as [st' []]; [|done]. cbn [negb].
  destruct (filled_next c it it' b Hf) as (Hg & Hr & Hre);
    [rewrite Hlive, len_takeZ; lia|]. rewrite Ho in *.
  rewrite IH; [by rewrite Hr, Hre|exact Hg|].
  rewrite Hr. unfold dropZ. rewrite length_drop. unfold len in *. lia.
Qed.

(** ** What a consumer receives *)

Definition item_data (i : item) : list byte :=
  match i with IChunk d _ => d | IErr _ => [] end.

(** The consumer that keeps a copy of every item. *)
Definition collect (i : item) (acc : list item) : list item * bool := (acc ++ [i], true).

Definition chunks_of (c : Chunker) (data : list byte) : outcome (list item) :=
  Iter c {| rd_data := data; rd_err := None |} collect [].

Lemma drive_collect l acc : drive collect l acc = acc ++ l.
Proof.
  revert acc. induction l as [|x l IH]; intros acc; simpl; [by rewrite app_nil_r|].
  rewrite IH. by rewrite <- app_assoc.
Qed.

Lemma Iter_items {S} c r (yield : item -> S -> S * bool) st :
  valid c -> 2 <= cmax c -> Iter c r yield st = Returned (drive yield (items_of c r) st).
Proof.
  intros Hv Hmax. unfold Iter, items_of. rewrite iter_loop_refines; try done.
  - do 2 f_equal. apply items_from_fuel; [done|simpl; lia..].
  - unfold good; simpl. unfold len; simpl. destruct Hv. split_and!; try lia. by left.
  - unfold rest. simpl. unfold dropZ. simpl. lia.
Qed.

Lemma chunks_of_items c data :
  valid c -> 2 <= cmax c ->
  chunks_of c data = Returned (items_of c {| rd_data := data; rd_err := None |}).
Proof. intros. unfold chunks_of. by rewrite Iter_items, drive_collect. Qed.

(** Cutting [s] at offset [off]: the shape of the items before a failure. *)
Inductive cuts (c : Chunker) (err : option nat) : Z -> list byte -> list item -> Prop :=
| cuts_end off : err = None -> cuts c err off [] []
| cuts_err off s e : err = Some e -> len s < cmax c -> cuts c err off s [IErr e]
| cuts_chunk off d s l :
    0 < len d <= cmax c -> (s <> [] \/ err <> None -> cmin c <= len d) ->
    cuts c err (off + len d) s l ->
    cuts c err off (d ++ s) (IChunk d off :: l).

Lemma items_from_cuts c err fuel off s :
  valid c -> (length s < fuel)%nat -> cuts c err off s (items_from fuel c err off s).
Proof.
  intros Hv. revert off s. induction fuel as [|fuel IH]; intros off s Hf; [lia|].
  pose proof Hv as [? ?]. cbn [items_from].
  assert (s <> [] -> (err <> None -> cmax c <= len s) -> cuts c err off s
    (IChunk (takeZ (findBoundary c (takeZ (cmax c) s)) s) off
       :: items_from fuel c err (off + findBoundary c (takeZ (cmax c) s))
            (dropZ (findBoundary c (takeZ (cmax c) s)) s))) as Hcut.
  { intros Hs Hmax. destruct (cut_bounds c s Hv Hs) as (? & ? & ?).
    set (b := findBoundary c (takeZ (cmax c) s)) in *.
    rewrite <- (takeZ_dropZ b s) at 1.
    assert (len (takeZ b s) = b) as Hl by (rewrite len_takeZ; lia).
    constructor; rewrite Hl; [lia| |].
    - intros [Hne|He%Hmax]; [|lia]. rewrite <- len_nil, len_dropZ in Hne by lia. lia.
    - apply IH. unfold dropZ. rewrite length_drop. unfold len in *. lia. }
  destruct err as [e|].
  - destruct (len s <? cmax c) eqn:E; zbool; [by constructor|].
    apply Hcut; [|lia]. rewrite <- len_nil. lia.
  - destruct (len s =? 0) eqn:E; zbool.
    + apply len_nil in E as ->. by constructor.
    + apply Hcut; [by rewrite <- len_nil | done].
Qed.

Lemma cuts_concat c off s l : cuts c None off s l -> concat (map item_data l) = s.
Proof. induction 1; simpl; congruence. Qed.

Lemma cuts_nth c err off s l i d o :
  cuts c err off s l -> l !! i = Some (IChunk d o) ->
  0 < len d <= cmax c /\ (err = None -> (S i < length l)%nat -> cmin c <= len d) /\
  o = off + len (concat (map item_data (take i l))).
Proof.
  intros H. revert i. induction H as [off Herr|off s e|off d' s l Hd Hm Hc IH]; intros i Hi.
  - done.
  - destruct i; [done|]. done.
  - destruct i as [|i]; simpl in *.
    + injection Hi as <- <-. split_and!; [lia|lia| |unfold len; simpl; lia].
      intros -> Hl. apply Hm. left. intros ->. inversion Hc; subst; simpl in *; [lia|done|].
      match goal with H : _ ++ _ = [] |- _ => apply app_eq_nil in H as [-> ->] end.
      unfold len in *; simpl in *; lia.
    + destruct (IH i Hi) as (? & Hmin & ->). split_and!; [lia|lia| |].
      * intros. apply Hmin; [done|lia].
      * rewrite len_app. lia.
Qed.

(** Cutting is a function of the bytes that are left alone: the tail of a
    stream's chunks is what chunking the tail's bytes gives. *)
Lemma items_from_tail c fuel off s cs ds :
  valid c -> (length s < fuel)%nat ->
  map item_data (items_from fuel c None off s) = cs ++ ds ->
  ds = map item_data (items_of c {| rd_data := concat ds; rd_err := None |}).
Proof.
  intros Hv. assert (Hoff : forall fuel o1 o2 s, map item_data (items_from fuel c None o1 s)
                              = map item_data (items_from fuel c None o2 s)).
  { intros n. induction n as [|n IHn]; intros o1 o2 t; simpl; [done|].
    case_match; simpl; [done|]. by f_equal. }
  revert off s cs. induction fuel as [|fuel IH]; intros off s cs Hf Heq; [lia|].
  destruct cs as [|x cs].
  - simpl app in Heq. pose proof (items_from_cuts c None (S fuel) off s Hv Hf) as Hc.
    apply cuts_concat in Hc. rewrite Heq in Hc. rewrite Hc, <- Heq.
    unfold items_of. cbn [rd_data rd_err]. rewrite (Hoff _ off 0).
    by rewrite (items_from_fuel c None (S fuel) (S (length s))) by (try done; lia).
  - cbn [items_from] in Heq. case_match; simpl in Heq; [done|]. zbool.
    injection Heq as _ Heq. apply IH in Heq; [done|].
    destruct (cut_bounds c s Hv) as (? & ? & _); [by rewrite <- len_nil|].
    unfold dropZ. rewrite length_drop. unfold len in *. lia.
Qed.
End chunker.

Arguments Returned {S} s.
Arguments Panicked {S}.
Arguments OutOfFuel {S}.

(** ** Properties *)

(** C32: the buffered loop of [Iter], with its compaction and its reader, hands a
    consumer exactly the items of the buffer-free reference, in order, up to the
    point where the consumer stops: it terminates, and neither boundary
    assertion fires. *)
Theorem Iter_refines {S} gear min avg max c r (yield : item -> S -> S * bool) st :
  NewWithParams min avg max = Some c -> 2 <= max ->
  Iter gear c r yield st = Returned (drive yield (items_of gear c r) st).
Proof.
  intros (Hv & _ & _ & Hm)%NewWithParams_valid Hmax. apply Iter_items; [done|lia].
Qed.

(** On a reader that ends cleanly the chunks are a partition of the stream:
    their bytes concatenate to it, each carries its own offset, none is empty or
    above the maximum, and only the last may fall below the minimum. *)
Theorem chunks_reassemble gear min avg max c data :
  NewWithParams min avg max = Some c -> 2 <= max ->
  exists l, chunks_of gear c data = Returned l /\ concat (map item_data l) = data /\
    forall i x, l !! i = Some x -> exists d,
      x = IChunk d (len (concat (map item_data (take i l)))) /\
      0 < len d <= max /\ ((S i < length l)%nat -> min <= len d).
Proof.
  intros (Hv & <- & _ & <-)%NewWithParams_valid Hmax.
  set (r := {| rd_data := data; rd_err := None |}).
  assert (cuts c None 0 data (items_of gear c r)) as Hc by (apply items_from_cuts; [done|simpl; lia]).
  exists (items_of gear c r). split_and!; [by apply chunks_of_items|by eapply cuts_concat|].
  intros i x Hx. destruct x as [d o|e].
  - destruct (cuts_nth _ _ _ _ _ _ _ _ Hc Hx) as (? & Hmin & ->). exists d. auto.
  - exfalso. revert i Hx. clear -Hc. induction Hc; intros [|i]; simpl; naive_solver.
Qed.

(** Deduplication resynchronises.  Two streams may differ in any way before
    some point; once both have a chunk boundary there and the same bytes after
    it, all later chunks carry the same bytes. *)
Theorem chunks_resynchronise gear min avg max c s1 s2 l1 l2 cs1 cs2 ds1 ds2 :
  NewWithParams min avg max = Some c -> 2 <= max ->
  chunks_of gear c s1 = Returned l1 -> chunks_of gear c s2 = Returned l2 ->
  map item_data l1 = cs1 ++ ds1 -> map item_data l2 = cs2 ++ ds2 ->
  concat ds1 = concat ds2 -> ds1 = ds2.
Proof.
  intros (Hv & _ & _ & <-)%NewWithParams_valid Hmax.
  rewrite !chunks_of_items by done. intros [= <-] [= <-] H1 H2 Hcat.
  apply items_from_tail in H1, H2; [|done|simpl; lia|done|simpl; lia]. congruence.
Qed.

(** A reader that fails mid-stream: the consumer sees whole chunks of a
    prefix of what the reader delivered and then the failure; fewer than [max]
    delivered bytes are lost with it. *)
Theorem chunks_of_failing_reader gear min avg max c data e :
  NewWithParams min avg max = Some c -> 2 <= max ->
  exists l tail, Iter gear c {| rd_data := data; rd_err := Some e |} collect [] =
      Returned (l ++ [IErr e]) /\
    concat (map item_data l) ++ tail = data /\ len tail < max /\
    Forall (fun x => match x with IChunk d _ => min <= len d <= max | IErr _ => False end) l.
Proof.
  intros (Hv & <- & _ & <-)%NewWithParams_valid Hmax.
  rewrite Iter_items, drive_collect by done. simpl app.
  set (r := {| rd_data := data; rd_err := Some e |}).
  assert (cuts c (Some e) 0 data (items_of gear c r)) as Hc
    by (apply items_from_cuts; [done|simpl; lia]).
  induction Hc as [?|off s e' [= <-] Hl|off d s l Hd Hm Hc IH]; [done| |].
  - by exists [], s.
  - destruct IH as (l' & tail & [= ->] & <- & Ht & Hl).
    exists (IChunk d off :: l'), tail. simpl. rewrite <- app_assoc. split_and!; try done.
    constructor; [|done]. split; [|lia]. apply Hm. by right.
Qed.

(** ** Witnesses *)

(** A small gear table: the bytes, spread over the 32 bits. *)
Definition sample_gear (b : byte) : Z := u32 (Z.of_N (Byte.to_N b) * 2654435761).

Definition sample_chunker : Chunker :=
  {| cmin := 2; cavg := 4; cmax := 8; maskTight := 15; maskLoose := 0 |}.

Definition sample_data : list byte :=
  [x61; x62; x63; x64; x65; x66; x67; x68; x69; x6a; x6b].

Lemma Iter_refines_witness :
  NewWithParams 2 4 8 = Some sample_chunker /\ 2 <= 8 /\
  Iter sample_gear sample_chunker {| rd_data := sample_data; rd_err := None |} collect [] =
    Returned (drive collect
      (items_of sample_gear sample_chunker {| rd_data := sample_data; rd_err := None |}) []).
Proof.
  split; [reflexivity|]. split; [lia|].
  apply (Iter_refines sample_gear 2 4 8); [reflexivity|lia].
Defined.

Lemma chunks_reassemble_witness :
  exists l, chunks_of sample_gear sample_chunker sample_data = Returned l /\
    concat (map item_data l) = sample_data.
Proof.
  destruct (chunks_reassemble sample_gear 2 4 8 sample_chunker sample_data)
    as (l & Hl & Hc & _); [reflexivity|lia|]. exists l. split; [exact Hl|exact Hc].
Defined.

Definition sample_stream (p : list byte) : list item :=
  match chunks_of sample_gear sample_chunker (p ++ sample_data) with
  | Returned l => l
  | _ => []
  end.

Lemma chunks_resynchronise_witness :
  drop 1 (map item_data (sample_stream [x61; x62; x63; x64; x65])) =
  drop 1 (map item_data (sample_stream [x7a; x7a; x7a; x7a; x7a])).
Proof.
  apply (chunks_resynchronise sample_gear 2 4 8 sample_chunker
    ([x61; x62; x63; x64; x65] ++ sample_data) ([x7a; x7a; x7a; x7a; x7a] ++ sample_data)
    (sample_stream [x61; x62; x63; x64; x65]) (sample_stream [x7a; x7a; x7a; x7a; x7a])
    (take 1 (map item_data (sample_stream [x61; x62; x63; x64; x65])))
    (take 1 (map item_data (sample_stream [x7a; x7a; x7a; x7a; x7a]))));
    first [lia | vm_compute; reflexivity].
Defined.

Lemma chunks_of_failing_reader_witness :
  exists l tail, Iter sample_gear sample_chunker {| rd_data := sample_data; rd_err := Some 7%nat |} collect [] =
      Returned (l ++ [IErr 7]) /\ concat (map item_data l) ++ tail = sample_data /\ len tail < 8.
Proof.
  destruct (chunks_of_failing_reader sample_gear 2 4 8 sample_chunker sample_data 7)
    as (l & tail & H1 & H2 & H3 & _); [reflexivity|lia|].
  exists l, tail. split; [exact H1|]. split; [exact H2|exact H3].
Defined.

(** ** A degenerate configuration

    [NewWithParams] accepts a maximum of one byte.  The compaction test
    [cap - len < max / 2] then never holds, the full buffer cannot be refilled,
    and the loop takes the end of its buffer for the end of the stream: all
    bytes after the first are dropped without an error. *)
Definition one_byte_chunker : Chunker :=
  {| cmin := 1; cavg := 1; cmax := 1; maskTight := 3; maskLoose := 0 |}.

Lemma Iter_max_one_drops_data :
  NewWithParams 1 1 1 = Some one_byte_chunker /\
  chunks_of sample_gear one_byte_chunker sample_data = Returned [IChunk [x61] 0].
Proof. split; reflexivity. Qed.
