(* ===== verification/Retention.v ===== *)
(** Retention policies (internal/backup/retention).

    The three policies [GFSPolicy], [SimplePolicy] and [CountPolicy], the
    decision they build in a map of reasons, and [finalize], which adds the
    newest and the undatable backups and the ancestors of every kept backup
    before it splits the manifests.  The order in which Go ranges over the
    reasons map is a parameter. *)
From S2P Require Import Prelude GoString.

Local Open Scope string_scope.
Local Open Scope list_scope.
Local Open Scope Z_scope.

Module Retention.

(** ** Manifests and decisions *)

(** The fields of a backup manifest retention reads. *)
Record Manifest := {
  BackupID : string;
  Type_ : string;
  ParentBackupID : string;
  StoppedAt : time
}.

#[export] Instance Manifest_eq_dec : EqDecision Manifest.
Proof. solve_decision. Defined.

Definition BackupTypeFull : string := "full".

Record Decision := {
  PolicyName : string;
  Keep : list Manifest;
  Delete : list Manifest;
  Reasons : gmap string (list string)
}.

(** The part of the decision the policies write to. *)
Definition reasons : Type := gmap string (list string).

Definition addReason (d : gmap string (list string)) (id label : string)
    : gmap string (list string) :=
  <[id := default [] (d !! id) ++ [label]]> d.

(** The order of [sort.SliceStable]: newest first, then the larger id. *)
Definition newer (x y : Manifest) : bool :=
  if negb (Time.Equal (StoppedAt x) (StoppedAt y)) then Time.After (StoppedAt x) (StoppedAt y)
  else string_ltb (BackupID y) (BackupID x).

Definition sortByStoppedAtDesc (l : list Manifest) : list Manifest := stable_sort newer l.

(** ** Finalisation *)

Definition keepUndatable (d : gmap string (list string)) (sorted : list Manifest)
    : gmap string (list string) :=
  foldl (fun d m =>
    if negb (Time.IsZero (StoppedAt m)) then d
    else match d !! BackupID m with
         | Some _ => d
         | None => addReason d (BackupID m) "undatable"
         end) d sorted.

(** [byID]: a later manifest with the same id replaces an earlier one. *)
Definition index (sorted : list Manifest) : gmap string Manifest :=
  foldl (fun byID m => <[BackupID m := m]> byID) ∅ sorted.

(** The worklist loop of [promoteChainParents]. *)
Fixpoint promote_loop (fuel : nat) (byID : gmap string Manifest) (work : list string)
    (d : gmap string (list string)) : gmap string (list string) :=
  match fuel, work with
  | S fuel, id :: work =>
      match byID !! id with
      | None => promote_loop fuel byID work d
      | Some m =>
          if String.eqb (ParentBackupID m) "" then promote_loop fuel byID work d
          else match d !! ParentBackupID m with
               | Some _ => promote_loop fuel byID work d
               | None =>
                   match byID !! ParentBackupID m with
                   | None => promote_loop fuel byID work d
                   | Some _ =>
                       promote_loop fuel byID (work ++ [ParentBackupID m])
                         (addReason d (ParentBackupID m) "chain-anchor")
                   end
               end
      end
  | _, _ => d
  end.

Section policies.
(** The order a [range] over the reasons map visits its keys in. *)
Context (range : list string -> list string).
Context (range_perm : forall l, range l ≡ₚ l).
(** [time.Duration]'s [String] method, used in a label. *)
Context (Duration_String : duration -> string).

Definition promoteChainParents (d : gmap string (list string)) (sorted : list Manifest)
    : gmap string (list string) :=
  let byID := index sorted in
  let work := range (elements (dom d)) in
  promote_loop (length work + size byID) byID work d.

Definition finalize (name : string) (d : gmap string (list string)) (sorted : list Manifest)
    : Decision :=
  match sorted with
  | [] => {| PolicyName := name; Keep := []; Delete := []; Reasons := d |}
  | newest :: _ =>
      let d := match d !! BackupID newest with
               | Some _ => d
               | None => addReason d (BackupID newest) "newest"
               end in
      let d := promoteChainParents (keepUndatable d sorted) sorted in
      {| PolicyName := name;
         Keep := filter (fun m => is_Some (d !! BackupID m)) sorted;
         Delete := filter (fun m => ~ is_Some (d !! BackupID m)) sorted;
         Reasons := d |}
  end.

(** ** Calendar keys

    [Time.Date] and [Time.ISOWeek] in UTC, from the day number. *)

(** The day number of January 1. *)
Definition year_start (y : Z) : Z :=
  365 * (y - 1) + (y - 1) / 4 - (y - 1) / 100 + (y - 1) / 400.

(** The ISO year and week are those of the week's Thursday; day 0 is a Monday. *)
Definition ISOWeek (day : Z) : Z * Z :=
  let thursday := day - day mod 7 + 3 in
  let '(y, _, _) := civil thursday in
  (y, (thursday - year_start y) / 7 + 1).

Definition dailyKey (t : time) : string :=
  let '(y, m, d) := civil (day_of t) in
  (fmt_dec 4 y +:+ "-" +:+ fmt_dec 2 m +:+ "-" +:+ fmt_dec 2 d)%string.

Definition isoWeekKey (t : time) : string :=
  let '(y, w) := ISOWeek (day_of t) in
  (fmt_dec 4 y +:+ "-W" +:+ fmt_dec 2 w)%string.

Definition monthlyKey (t : time) : string :=
  let '(y, m, _) := civil (day_of t) in
  (fmt_dec 4 y +:+ "-" +:+ fmt_dec 2 m)%string.

Definition yearlyKey (t : time) : string :=
  let '(y, _, _) := civil (day_of t) in fmt_dec 4 y.

(** ** The policies *)

Definition numbered (label : string) (n : Z) : string := (label +:+ "-" +:+ pretty n)%string.

Fixpoint pick_loop (keep : Z) (label : string) (key : time -> string)
    (sorted : list Manifest) (seen : gset string) (picked : Z)
    (d : gmap string (list string)) : gmap string (list string) :=
  match sorted with
  | [] => d
  | m :: sorted =>
      let k := key (StoppedAt m) in
      if decide (k ∈ seen) then pick_loop keep label key sorted seen picked d
      else
        let picked := picked + 1 in
        let d := addReason d (BackupID m) (numbered label picked) in
        if keep <=? picked then d
        else pick_loop keep label key sorted ({[k]} ∪ seen) picked d
  end.

Definition pickPerBucket (d : gmap string (list string)) (sorted : list Manifest)
    (keep : Z) (label : string) (key : time -> string) : gmap string (list string) :=
  if keep <=? 0 then d else pick_loop keep label key sorted ∅ 0 d.

Inductive Policy :=
| GFSPolicy (KeepDaily KeepWeekly KeepMonthly KeepYearly : Z)
| SimplePolicy (KeepFor : duration)
| CountPolicy (KeepFulls : Z).

Definition Name (p : Policy) : string :=
  match p with
  | GFSPolicy _ _ _ _ => "gfs"
  | SimplePolicy _ => "simple"
  | CountPolicy _ => "count"
  end.

Definition gfs_claims (kd kw km ky : Z) (sorted : list Manifest) : gmap string (list string) :=
  let d := pickPerBucket ∅ sorted kd "daily" dailyKey in
  let d := pickPerBucket d sorted kw "weekly" isoWeekKey in
  let d := pickPerBucket d sorted km "monthly" monthlyKey in
  pickPerBucket d sorted ky "yearly" yearlyKey.

Definition simple_claims (keepFor : duration) (now : time) (sorted : list Manifest)
    : gmap string (list string) :=
  let cutoff := Time.Add now (- keepFor) in
  foldl (fun d m =>
    if negb (Time.Before (StoppedAt m) cutoff)
    then addReason d (BackupID m) ("within-" +:+ Duration_String keepFor)%string
    else d) ∅ sorted.

Fixpoint count_loop (keep : Z) (sorted : list Manifest) (picked : Z)
    (d : gmap string (list string)) : gmap string (list string) :=
  match sorted with
  | [] => d
  | m :: sorted =>
      if negb (String.eqb (Type_ m) BackupTypeFull) && negb (String.eqb (Type_ m) "")
      then count_loop keep sorted picked d
      else if keep <=? picked then d
      else
        let picked := picked + 1 in
        count_loop keep sorted picked (addReason d (BackupID m) (numbered "full" picked))
  end.

Definition count_claims (keepFulls : Z) (sorted : list Manifest) : gmap string (list string) :=
  count_loop (if keepFulls <? 0 then 0 else keepFulls) sorted 0 ∅.

(** What a policy claims before [finalize] adds to it. *)
Definition claims (p : Policy) (now : time) (sorted : list Manifest)
    : gmap string (list string) :=
  match p with
  | GFSPolicy kd kw km ky => gfs_claims kd kw km ky sorted
  | SimplePolicy keepFor => simple_claims keepFor now sorted
  | CountPolicy keepFulls => count_claims keepFulls sorted
  end.

Definition Apply (p : Policy) (now : time) (l : list Manifest) : Decision :=
  let sorted := sortByStoppedAtDesc l in
  finalize (Name p) (claims p now sorted) sorted.
End policies.

(** ** The order *)

Lemma newer_true x y :
  newer x y = true <->
  StoppedAt y < StoppedAt x \/
  StoppedAt x = StoppedAt y /\ string_ltb (BackupID y) (BackupID x) = true.
Proof.
  unfold newer, Time.Equal, Time.After.
  destruct (StoppedAt x =? StoppedAt y) eqn:E; zbool; simpl; [|rewrite Z.ltb_lt]; intuition lia.
Qed.

Lemma newer_false x y :
  newer x y = false <->
  StoppedAt x < StoppedAt y \/
  StoppedAt x = StoppedAt y /\ (BackupID x = BackupID y \/ string_ltb (BackupID x) (BackupID y) = true).
Proof.
  rewrite <- not_true_iff_false, newer_true.
  destruct (Z.lt_trichotomy (StoppedAt x) (StoppedAt y)) as [Ht|[Ht|Ht]]; [|rewrite Ht|].
  - split; [by left|]. intros _ [?|[? _]]; lia.
  - destruct (string_ltb_total (BackupID x) (BackupID y)) as [H|[H|H]].
    + rewrite (string_ltb_asym _ _ H). split; [auto|]. intros _ [?|[_ ?]]; [lia|done].
    + rewrite H, string_ltb_irrefl. split; [auto|]. intros _ [?|[_ ?]]; [lia|done].
    + rewrite H. split; [intros Hn; exfalso; auto|].
      intros [?|[_ [E|E]]] _; [lia| |].
      * by rewrite E, string_ltb_irrefl in H.
      * by rewrite (string_ltb_asym _ _ E) in H.
  - split; [intros Hn; exfalso; auto|]. intros [?|[? _]]; lia.
Qed.

Lemma newer_asym x y : newer x y = true -> newer y x = false.
Proof. rewrite newer_true, newer_false. intros [?|[-> ?]]; auto. Qed.

Lemma newer_neg_trans x y z : newer y x = false -> newer z y = false -> newer z x = false.
Proof.
  rewrite !newer_false. intros [?|[? H1]] [?|[? H2]]; try (left; lia).
  right. split; [lia|]. destruct H1 as [E1|H1], H2 as [E2|H2]; [left; congruence|right..].
  - by rewrite <- E1.
  - by rewrite E2.
  - by eapply string_ltb_trans.
Qed.

Lemma sorted_ordered l : ordered newer (sortByStoppedAtDesc l).
Proof. apply stable_sort_ordered; [apply newer_asym | apply newer_neg_trans]. Qed.

(** [m] is the newest manifest of [l]. *)
Definition newest_of (l : list Manifest) (m : Manifest) : Prop :=
  m ∈ l /\ forall x, x ∈ l -> newer x m = false.

Lemma sorted_head l m sorted :
  sortByStoppedAtDesc l = m :: sorted -> newest_of l m.
Proof.
  intros E. pose proof (sorted_ordered l) as Ho. rewrite E in Ho.
  inversion Ho as [|? ? _ Hm]; subst. rewrite Forall_forall in Hm.
  assert (forall x, x ∈ l <-> x ∈ m :: sorted) as Hin
    by (intros x; rewrite <- E; symmetry; apply elem_of_stable_sort).
  split; [apply Hin; left|].
  intros x [->|Hx]%Hin%elem_of_cons; [|by apply Hm].
  apply newer_false. right. auto.
Qed.

Lemma newest_of_unique l m m' :
  NoDup (map BackupID l) -> newest_of l m -> newest_of l m' -> m = m'.
Proof.
  intros Hnd [Hm H1] [Hm' H2]. specialize (H1 _ Hm'). specialize (H2 _ Hm).
  rewrite newer_false in H1, H2.
  assert (BackupID m = BackupID m') as E.
  { destruct H1 as [?|[? [?|H1]]], H2 as [?|[? [?|H2]]]; try lia; try done.
    by rewrite (string_ltb_asym _ _ H1) in H2. }
  clear H1 H2. apply list_elem_of_lookup in Hm as [i Hi], Hm' as [j Hj].
  assert (i = j) as ->; [|congruence].
  eapply (NoDup_lookup _ i j (BackupID m) Hnd); [|rewrite E];
    rewrite list_lookup_fmap; [by rewrite Hi | by rewrite Hj].
Qed.

(** ** The index and the worklist *)

Lemma addReason_dom d id label id' :
  is_Some (addReason d id label !! id') <-> id = id' \/ is_Some (d !! id').
Proof.
  unfold addReason. destruct (decide (id = id')) as [->|Hne].
  - rewrite lookup_insert_eq. split; [by left|]. eauto.
  - rewrite lookup_insert_ne by done. naive_solver.
Qed.

Lemma index_lookup sorted id m :
  NoDup (map BackupID sorted) ->
  index sorted !! id = Some m <-> m ∈ sorted /\ BackupID m = id.
Proof.
  unfold index. induction sorted as [|x l IH] using rev_ind.
  - intros _. simpl. rewrite lookup_empty. split; [done|]. intros [H _]. inversion H.
  - rewrite map_app, foldl_app, NoDup_app. intros (Hnd & Hd & _). simpl.
    assert (BackupID x = id -> forall y, y ∈ l -> BackupID y <> id) as Hx.
    { intros <- y Hy E. apply (Hd (BackupID y)); [|rewrite E; left].
      apply list_elem_of_fmap. eauto. }
    specialize (IH Hnd). rewrite elem_of_app, list_elem_of_singleton.
    destruct (decide (BackupID x = id)) as [E|Hne].
    + rewrite E, lookup_insert_eq. specialize (Hx E). naive_solver.
    + rewrite lookup_insert_ne, IH by done. naive_solver.
Qed.

(** The ids reached from a base set along parent links inside the index. *)
Inductive needed (byID : gmap string Manifest) (base : string -> Prop) : string -> Prop :=
| needed_base id : base id -> needed byID base id
| needed_parent id m :
    needed byID base id -> byID !! id = Some m -> ParentBackupID m <> "" ->
    is_Some (byID !! ParentBackupID m) -> needed byID base (ParentBackupID m).

(** [id]'s parent, where the index has it, is already kept. *)
Definition closed (byID : gmap string Manifest) (d : gmap string (list string)) (id : string) : Prop :=
  forall m, byID !! id = Some m -> ParentBackupID m <> "" ->
    is_Some (byID !! ParentBackupID m) -> is_Some (d !! ParentBackupID m).

Definition missing (byID : gmap string Manifest) (d : gmap string (list string)) : nat :=
  size (dom byID ∖ dom d).

Lemma missing_addReason byID d id label :
  is_Some (byID !! id) -> d !! id = None ->
  (S (missing byID (addReason d id label)) <= missing byID d)%nat.
Proof.
  intros Hb Hd. unfold missing, addReason. rewrite dom_insert_L.
  apply elem_of_dom in Hb. apply not_elem_of_dom in Hd.
  apply Nat.le_succ_l, subset_size. set_solver.
Qed.

Lemma promote_loop_mono fuel byID work d id :
  is_Some (d !! id) -> is_Some (promote_loop fuel byID work d !! id).
Proof.
  revert work d. induction fuel as [|fuel IH]; intros [|i work] d Hd; simpl; try done.
  repeat case_match; try (by apply IH).
  apply IH, addReason_dom. by right.
Qed.

Lemma promote_loop_sound fuel byID base work d id :
  (forall i, is_Some (d !! i) -> needed byID base i) ->
  (forall i, i ∈ work -> needed byID base i) ->
  is_Some (promote_loop fuel byID work d !! id) -> needed byID base id.
Proof.
  revert work d. induction fuel as [|fuel IH]; intros [|i work] d Hd Hw; simpl; auto.
  assert (forall j, j ∈ work -> needed byID base j) by (intros; apply Hw; by right).
  destruct (byID !! i) as [m|] eqn:Em; [|by apply IH].
  destruct (String.eqb_spec (ParentBackupID m) ""); [by apply IH|].
  destruct (d !! ParentBackupID m) eqn:Ep; [by apply IH|].
  destruct (byID !! ParentBackupID m) eqn:Eb; [|by apply IH].
  assert (needed byID base (ParentBackupID m))
    by (apply (needed_parent _ _ i); [apply Hw; left|done|done|eauto]).
  apply IH.
  - intros j [<- |Hj]%addReason_dom; auto.
  - intros j [Hj| ->%list_elem_of_singleton]%elem_of_app; auto.
Qed.

Lemma promote_loop_closed fuel byID work d id :
  (length work + missing byID d <= fuel)%nat ->
  (forall i, is_Some (d !! i) -> i ∈ work \/ closed byID d i) ->
  is_Some (promote_loop fuel byID work d !! id) ->
  closed byID (promote_loop fuel byID work d) id.
Proof.
  revert work d. induction fuel as [|fuel IH]; intros [|i work] d Hf Hinv; simpl in *;
    try (intros Hid; destruct (Hinv _ Hid) as [Hi|]; [by inversion Hi|done]); try lia.
  assert (forall d', closed byID d' i -> (forall j, is_Some (d !! j) -> is_Some (d' !! j)) ->
    forall j, is_Some (d !! j) -> j ∈ work \/ closed byID d' j) as Hkeep.
  { intros d' Hc Hm j Hj. destruct (Hinv j Hj) as [[->|Hw]%elem_of_cons|Hcl]; auto.
    right. intros m ???. apply Hm. by apply (Hcl m). }
  destruct (byID !! i) as [m|] eqn:Em.
  2: { apply IH; [lia|]. apply Hkeep; [|done]. intros m ?. congruence. }
  destruct (String.eqb_spec (ParentBackupID m) "").
  { apply IH; [lia|]. apply Hkeep; [|done]. intros m' ?. congruence. }
  destruct (d !! ParentBackupID m) eqn:Ep.
  { apply IH; [lia|]. apply Hkeep; [|done]. intros m' ?. simplify_eq. rewrite Ep. eauto. }
  destruct (byID !! ParentBackupID m) eqn:Eb.
  2: { apply IH; [lia|]. apply Hkeep; [|done]. intros m' ? _ [? ?]. congruence. }
  apply IH.
  - rewrite length_app. simpl.
    pose proof (missing_addReason byID d (ParentBackupID m) "chain-anchor" ltac:(eauto) Ep). lia.
  - intros j [<- |Hj]%addReason_dom; [left; set_solver|].
    destruct (Hkeep (addReason d (ParentBackupID m) "chain-anchor")) with (j := j); auto; [| |set_solver].
    + intros m' ?. simplify_eq. intros. apply addReason_dom. by left.
    + intros ??. apply addReason_dom. by right.
Qed.

(** The worklist keeps exactly what is reachable from the seed. *)
Lemma promoteChainParents_spec range d sorted id :
  (forall l, range l ≡ₚ l) ->
  is_Some (promoteChainParents range d sorted !! id) <->
  needed (index sorted) (fun i => is_Some (d !! i)) id.
Proof.
  intros Hrange. unfold promoteChainParents. split.
  - apply promote_loop_sound; [by constructor|]. intros i Hi. constructor.
    rewrite Hrange, elem_of_elements in Hi. by apply elem_of_dom.
  - set (fuel := (_ + _)%nat).
    assert (forall j, is_Some (promote_loop fuel (index sorted) (range (elements (dom d))) d !! j) ->
      closed (index sorted) (promote_loop fuel (index sorted) (range (elements (dom d))) d) j) as Hc.
    { intros j. apply promote_loop_closed.
      - unfold fuel, missing. rewrite <- size_dom.
        enough (size (dom (index sorted) ∖ dom d) <= size (dom (index sorted)))%nat by lia.
        apply subseteq_size. set_solver.
      - intros i Hi. left. rewrite Hrange. by apply elem_of_elements, elem_of_dom. }
    induction 1 as [i Hi|i m Hi IH Hm Hne Hp]; [by apply promote_loop_mono|].
    by apply (Hc i IH m).
Qed.

Lemma keepUndatable_spec d sorted id :
  is_Some (keepUndatable d sorted !! id) <->
  is_Some (d !! id) \/ exists m, m ∈ sorted /\ BackupID m = id /\ StoppedAt m = Time.zero.
Proof.
  unfold keepUndatable, Time.IsZero, Time.zero. revert d.
  induction sorted as [|m l IH]; intros d; simpl.
  - split; [by left|]. intros [?|(m & Hm & _)]; [done|inversion Hm].
  - rewrite IH. setoid_rewrite elem_of_cons.
    destruct (StoppedAt m =? 0) eqn:E; zbool; simpl; [|naive_solver lia].
    destruct (d !! BackupID m) eqn:Ed.
    + split; [naive_solver|]. intros [?|(x & [->|Hx] & <- & ?)]; [by left| |right; eauto].
      left. rewrite Ed. eauto.
    + rewrite addReason_dom. naive_solver.
Qed.

(** What a decision has to keep: what the policy claims, the newest manifest,
    the undatable ones, and the parent of anything kept. *)
Inductive required (claimed : string -> Prop) (l : list Manifest) : Manifest -> Prop :=
| req_claimed m : m ∈ l -> claimed (BackupID m) -> required claimed l m
| req_newest m : newest_of l m -> required claimed l m
| req_undatable m : m ∈ l -> StoppedAt m = Time.zero -> required claimed l m
| req_parent m p :
    required claimed l m -> p ∈ l -> BackupID p = ParentBackupID m ->
    ParentBackupID m <> "" -> required claimed l p.

Lemma required_in claimed l m : required claimed l m -> m ∈ l.
Proof. induction 1 as [| ? [? ?] | |]; done. Qed.

Lemma NoDup_ids_sorted l :
  NoDup (map BackupID l) -> NoDup (map BackupID (sortByStoppedAtDesc l)).
Proof.
  intros H. unfold sortByStoppedAtDesc.
  by rewrite (fmap_Permutation BackupID _ _ (stable_sort_perm newer l)).
Qed.

Lemma finalize_reasons range name d l m :
  (forall l, range l ≡ₚ l) -> NoDup (map BackupID l) -> m ∈ l ->
  is_Some (Reasons (finalize range name d (sortByStoppedAtDesc l)) !! BackupID m) <->
  required (fun id => is_Some (d !! id)) l m.
Proof.
  intros Hrange Hnd Hm. pose proof (NoDup_ids_sorted l Hnd) as Hnds.
  assert (forall x, x ∈ sortByStoppedAtDesc l <-> x ∈ l) as Hin by (intros; apply elem_of_stable_sort).
  destruct (sortByStoppedAtDesc l) as [|newest rest] eqn:E.
  { apply Hin in Hm. inversion Hm. }
  pose proof (sorted_head l newest rest E) as Hnew. cbn [finalize Reasons].
  set (d1 := match d !! BackupID newest with Some _ => d | None => _ end).
  assert (forall id, is_Some (d1 !! id) <-> is_Some (d !! id) \/ id = BackupID newest) as Hd1.
  { intros id. unfold d1. destruct (d !! BackupID newest) eqn:En.
    - split; [auto|]. intros [?| ->]; [done|rewrite En; eauto].
    - rewrite addReason_dom. naive_solver. }
  rewrite promoteChainParents_spec by done. split.
  - intros Hn. remember (BackupID m) as id eqn:Hid. revert m Hm Hid.
    induction Hn as [i Hi|i m0 Hn IH Hm0 Hne Hp]; intros m Hm Hmid.
    + subst i. rewrite keepUndatable_spec, Hd1 in Hi.
      destruct Hi as [[Hi|Hi]|(x & Hx & Hid & Hz)].
      * by apply req_claimed.
      * apply req_newest. enough (m = newest) as -> by done.
        assert (forall x, x ∈ newest :: rest -> index (newest :: rest) !! BackupID x = Some x) as Hidx
          by (intros; by apply index_lookup).
        apply Hin in Hm. pose proof (Hidx m Hm). pose proof (Hidx newest ltac:(left)). congruence.
      * apply Hin in Hm. apply req_undatable; [by apply Hin|]. enough (x = m) as <- by done.
        assert (forall x, x ∈ newest :: rest -> index (newest :: rest) !! BackupID x = Some x) as Hidx
          by (intros; by apply index_lookup).
        pose proof (Hidx m Hm). pose proof (Hidx x Hx). congruence.
    + apply index_lookup in Hm0 as [Hm0 Hid0]; [|done].
      eapply req_parent; [apply (IH m0)|done|done|done]; [by apply Hin|done].
  - induction 1 as [m Hl Hc|m Hnm|m Hl Hz|m p Hr IH Hp Hid Hne].
    + apply needed_base, keepUndatable_spec. left. apply Hd1. by left.
    + apply needed_base, keepUndatable_spec. left. apply Hd1. right.
      by rewrite (newest_of_unique l m newest).
    + apply needed_base, keepUndatable_spec. right. exists m. split_and!; [by apply Hin|done|done].
    + rewrite Hid. apply required_in in Hr as Hml. eapply needed_parent; [by apply IH| |done|].
      * apply index_lookup; [done|]. split; [by apply Hin|done].
      * exists p. apply index_lookup; [done|]. split; [by apply Hin|done].
Qed.

(** ** What each policy claims *)

(** The bucket keys of a list of manifests. *)
Definition keys (key : time -> string) (l : list Manifest) : gset string :=
  list_to_set (C := gset string) (map (fun m => key (StoppedAt m)) l).

(** [m] is the newest of its bucket, and fewer than [keep] buckets are newer. *)
Definition bucket_claim (keep : Z) (key : time -> string) (sorted : list Manifest)
    (m : Manifest) : Prop :=
  exists i, sorted !! i = Some m /\ ~ (key (StoppedAt m) ∈ keys key (take i sorted)) /\
    Z.of_nat (size (keys key (take i sorted))) < keep.

Definition full (m : Manifest) : Prop := Type_ m = BackupTypeFull \/ Type_ m = "".

#[export] Instance full_dec m : base.Decision (full m).
Proof. unfold full. apply _. Defined.

(** The manifests a policy selects by itself. *)
Definition claimed_by (p : Policy) (now : time) (sorted : list Manifest) (m : Manifest) : Prop :=
  match p with
  | GFSPolicy kd kw km ky =>
      bucket_claim kd dailyKey sorted m \/ bucket_claim kw isoWeekKey sorted m \/
      bucket_claim km monthlyKey sorted m \/ bucket_claim ky yearlyKey sorted m
  | SimplePolicy keepFor => m ∈ sorted /\ now - keepFor <= StoppedAt m
  | CountPolicy keep =>
      exists i, sorted !! i = Some m /\ full m /\
        Z.of_nat (length (filter full (take i sorted))) < keep
  end.

(** A fact about some position of [x :: l], split by the position. *)
Lemma exists_lookup_cons {A} (x : A) (l : list A) (P : nat -> A -> Prop) :
  (exists i y, (x :: l) !! i = Some y /\ P i y) <->
  P O x \/ exists i y, l !! i = Some y /\ P (S i) y.
Proof.
  split.
  - intros ([|i] & y & Hi & HP); simpl in Hi; [left; congruence|right; eauto].
  - intros [?|(i & y & ? & ?)]; [exists O, x; done|exists (S i), y; done].
Qed.

Lemma keys_cons key m l : keys key (m :: l) = {[key (StoppedAt m)]} ∪ keys key l.
Proof. done. Qed.

Lemma pick_loop_spec keep label key sorted seen picked d id :
  picked < keep ->
  is_Some (pick_loop keep label key sorted seen picked d !! id) <->
  is_Some (d !! id) \/ exists i m, sorted !! i = Some m /\
    (BackupID m = id /\ ~ (key (StoppedAt m) ∈ seen ∪ keys key (take i sorted)) /\
     picked + Z.of_nat (size (keys key (take i sorted) ∖ seen)) < keep).
Proof.
  revert seen picked d. induction sorted as [|m l IH]; intros seen picked d Hp.
  { simpl. split; [by left|]. intros [?|(i & m & ? & _)]; done. }
  rewrite exists_lookup_cons. cbn [pick_loop take].
  assert (keys key [] = ∅) as -> by done.
  assert ((∅ ∖ seen : gset string) = ∅) as -> by set_solver.
  rewrite union_empty_r_L, size_empty.
  setoid_rewrite keys_cons.
  destruct (decide (key (StoppedAt m) ∈ seen)) as [Hin|Hout].
  - rewrite (IH seen picked d Hp). split.
    + intros [?|(i & x & Hi & Hid & Hk & Hc)]; [by left|]. right. right. exists i, x.
      rewrite not_elem_of_seen_cons, seen_difference by done. done.
    + intros [?|[[? [? ?]]|(i & x & Hi & Hid & Hk & Hc)]]; [by left|done|]. right. exists i, x.
      rewrite not_elem_of_seen_cons in Hk by done. rewrite seen_difference in Hc by done. done.
  - setoid_rewrite not_elem_of_seen_move.
    destruct (keep <=? picked + 1) eqn:E; zbool.
    + rewrite addReason_dom. split.
      * intros [<- |?]; [|by left]. right. left. split_and!; [done|done|lia].
      * intros [?|[[? _]|(i & x & _ & _ & _ & Hc)]]; [by right|by left|].
        rewrite seen_difference_size in Hc by done. lia.
    + rewrite (IH _ (picked + 1)) by lia. rewrite addReason_dom. split.
      * intros [[<- |?]|(i & x & Hi & Hid & Hk & Hc)]; [|by left|].
        -- right. left. split_and!; [done|done|lia].
        -- right. right. exists i, x. rewrite seen_difference_size by done.
           split_and!; [done..|lia].
      * intros [?|[[? _]|(i & x & Hi & Hid & Hk & Hc)]]; [by left; right|by left; left|].
        rewrite seen_difference_size in Hc by done.
        right. exists i, x. split_and!; [done..|lia].
Qed.

Lemma pickPerBucket_spec d sorted keep label key id :
  is_Some (pickPerBucket d sorted keep label key !! id) <->
  is_Some (d !! id) \/ exists m, bucket_claim keep key sorted m /\ BackupID m = id.
Proof.
  unfold pickPerBucket, bucket_claim. destruct (keep <=? 0) eqn:E; zbool.
  - split; [by left|]. intros [?|(m & (i & _ & _ & ?) & _)]; [done|lia].
  - rewrite pick_loop_spec by lia. setoid_rewrite union_empty_l_L.
    setoid_rewrite difference_empty_L. naive_solver.
Qed.

Lemma simple_claims_spec dstr keepFor now sorted id :
  is_Some (simple_claims dstr keepFor now sorted !! id) <->
  exists m, (m ∈ sorted /\ now - keepFor <= StoppedAt m) /\ BackupID m = id.
Proof.
  unfold simple_claims, Time.Add, Time.Before.
  enough (forall d, is_Some (foldl (fun d m => if negb (StoppedAt m <? now + - keepFor)
      then addReason d (BackupID m) ("within-" +:+ dstr keepFor) else d) d sorted !! id) <->
    is_Some (d !! id) \/ exists m, (m ∈ sorted /\ now - keepFor <= StoppedAt m) /\ BackupID m = id)
    as H by (rewrite H, lookup_empty; split; [intros [[? ?]|?]; done|auto]).
  induction sorted as [|m l IH]; intros d; simpl.
  - split; [by left|]. intros [?|(m & [Hm _] & _)]; [done|inversion Hm].
  - rewrite IH. setoid_rewrite elem_of_cons.
    destruct (StoppedAt m <? now + - keepFor) eqn:E; zbool; simpl; [naive_solver lia|].
    rewrite addReason_dom. naive_solver lia.
Qed.

Lemma full_eqb m :
  negb (String.eqb (Type_ m) BackupTypeFull) && negb (String.eqb (Type_ m) "") =
  bool_decide (~ full m).
Proof.
  symmetry. unfold full.
  destruct (String.eqb_spec (Type_ m) BackupTypeFull), (String.eqb_spec (Type_ m) "");
    simpl; first [apply bool_decide_eq_true_2; tauto | apply bool_decide_eq_false_2; tauto].
Qed.

Lemma count_loop_spec keep sorted picked d id :
  is_Some (count_loop keep sorted picked d !! id) <->
  is_Some (d !! id) \/ exists i m, sorted !! i = Some m /\
    (BackupID m = id /\ full m /\ picked + Z.of_nat (length (filter full (take i sorted))) < keep).
Proof.
  revert picked d. induction sorted as [|m l IH]; intros picked d.
  { simpl. split; [by left|]. intros [?|(i & m & ? & _)]; done. }
  rewrite exists_lookup_cons. cbn [count_loop take]. rewrite filter_nil.
  setoid_rewrite filter_cons.
  rewrite full_eqb.
  destruct (decide (full m)) as [Hf|Hf].
  - rewrite bool_decide_eq_false_2 by tauto. simpl length.
    destruct (keep <=? picked) eqn:E; zbool.
    + split; [by left|]. intros [?|[(_ & _ & ?)|(i & x & _ & _ & _ & ?)]]; [done|lia|lia].
    + rewrite IH, addReason_dom. split.
      * intros [[<- |?]|(i & x & ? & ? & ? & ?)]; [|by left|].
        -- right. left. split_and!; [done|done|lia].
        -- right. right. exists i, x. split_and!; [done..|lia].
      * intros [?|[(<- & _)|(i & x & ? & ? & ? & ?)]]; [auto|auto|].
        right. exists i, x. split_and!; [done..|lia].
  - rewrite bool_decide_eq_true_2 by done. rewrite IH. naive_solver.
Qed.

Lemma claims_spec dstr p now sorted id :
  is_Some (claims dstr p now sorted !! id) <->
  exists m, claimed_by p now sorted m /\ BackupID m = id.
Proof.
  destruct p as [kd kw km ky|keepFor|keep]; simpl.
  - unfold gfs_claims. rewrite !pickPerBucket_spec, lookup_empty, is_Some_alt. naive_solver.
  - apply simple_claims_spec.
  - unfold count_claims. rewrite count_loop_spec, lookup_empty.
    assert (forall n : nat, 0 + Z.of_nat n < (if keep <? 0 then 0 else keep) <-> Z.of_nat n < keep) as Hn.
    { intros n. destruct (keep <? 0) eqn:E; zbool; lia. }
    setoid_rewrite Hn. split.
    + intros [[? ?]|(i & m & ? & ? & ? & ?)]; [done|]. exists m. split; [|done]. eauto.
    + intros (m & (i & ? & ? & ?) & ?). right. exists i, m. done.
Qed.

Lemma finalize_split range name d l :
  (Keep (finalize range name d (sortByStoppedAtDesc l)) ++
   Delete (finalize range name d (sortByStoppedAtDesc l)) ≡ₚ l) /\
  forall m, m ∈ Keep (finalize range name d (sortByStoppedAtDesc l)) <->
    m ∈ l /\ is_Some (Reasons (finalize range name d (sortByStoppedAtDesc l)) !! BackupID m).
Proof.
  assert (sortByStoppedAtDesc l ≡ₚ l) as Hp by apply stable_sort_perm.
  destruct (sortByStoppedAtDesc l) as [|newest rest] eqn:E; cbn [finalize Keep Delete Reasons].
  - split; [done|]. intros m. split; [intros H; inversion H|].
    intros [H _]. rewrite <- Hp in H. inversion H.
  - split.
    + etransitivity; [apply filter_app_complement | done].
    + intros m. rewrite list_elem_of_filter. rewrite <- Hp. tauto.
Qed.

(** ** Properties *)

(** A decision is a partition: every manifest of the input is either kept or
    deleted, once, whatever the policy, the instant and the map order. *)
Theorem Apply_partition range dstr p now l :
  Keep (Apply range dstr p now l) ++ Delete (Apply range dstr p now l) ≡ₚ l.
Proof. apply finalize_split. Qed.

(** C33: the kept manifests are exactly the ones a policy has to keep: those it
    claims (the newest of each of the first N buckets, those inside the window,
    or the N newest fulls), the newest manifest, every manifest without a stop
    time, and, transitively, every parent of a kept manifest.  Nothing else
    survives and nothing of this is deleted, in whatever order the reasons map
    is ranged over. *)
Theorem Apply_keeps_exactly range dstr p now l m :
  (forall k, range k ≡ₚ k) -> NoDup (map BackupID l) -> m ∈ l ->
  m ∈ Keep (Apply range dstr p now l) <->
  required (fun id => exists x, claimed_by p now (sortByStoppedAtDesc l) x /\ BackupID x = id) l m.
Proof.
  intros Hrange Hnd Hm. unfold Apply. cbv zeta.
  destruct (finalize_split range (Name p) (claims dstr p now (sortByStoppedAtDesc l)) l) as [_ Hk].
  rewrite Hk, finalize_reasons by done.
  assert (forall P Q : string -> Prop, (forall id, P id -> Q id) ->
    forall x, required P l x -> required Q l x) as Hmono.
  { induction 2; eauto using required. }
  split.
  - intros [_ H]. eapply Hmono; [|exact H]. intros id. simpl. by rewrite claims_spec.
  - intros H. split; [done|]. eapply Hmono; [|exact H]. intros id. simpl. by rewrite claims_spec.
Qed.

(** The decision is deterministic: Go's random map iteration order, which
    seeds the worklist of [promoteChainParents], changes neither list. *)
Theorem Apply_deterministic range1 range2 dstr p now l :
  (forall k, range1 k ≡ₚ k) -> (forall k, range2 k ≡ₚ k) ->
  Keep (Apply range1 dstr p now l) = Keep (Apply range2 dstr p now l) /\
  Delete (Apply range1 dstr p now l) = Delete (Apply range2 dstr p now l).
Proof.
  intros H1 H2. unfold Apply, finalize. cbv zeta.
  destruct (sortByStoppedAtDesc l) as [|newest rest]; [done|]. cbn [Keep Delete].
  split; apply list_filter_iff; intros m; by rewrite !promoteChainParents_spec.
Qed.

(** ** Witnesses *)

(** A full backup, an incremental on it, and an undatable one; one day each. *)
Definition day (n : Z) : time := n * (24 * Time.Hour).

Definition sample : list Manifest :=
  [ {| BackupID := "a"; Type_ := "full"; ParentBackupID := ""; StoppedAt := day 700000 |};
    {| BackupID := "b"; Type_ := "incremental"; ParentBackupID := "a"; StoppedAt := day 700003 |};
    {| BackupID := "c"; Type_ := "full"; ParentBackupID := ""; StoppedAt := day 700001 |};
    {| BackupID := "d"; Type_ := "full"; ParentBackupID := ""; StoppedAt := 0 |} ].

Definition sample_kept (p : Policy) : list string :=
  map BackupID (Keep (Apply id (fun _ => "24h0m0s") p (day 700003) sample)).

(** The incremental is the newest; its anchor survives with it, and so does the
    undatable backup. *)
Example sample_kept_simple : sample_kept (SimplePolicy (24 * Time.Hour)) = ["b"; "a"; "d"].
Proof. vm_compute. reflexivity. Qed.

Example sample_kept_gfs : sample_kept (GFSPolicy 2 0 0 0) = ["b"; "c"; "a"; "d"].
Proof. vm_compute. reflexivity. Qed.

Lemma Apply_keeps_exactly_witness :
  let l := sample in let m := {| BackupID := "a"; Type_ := "full"; ParentBackupID := ""; StoppedAt := day 700000 |} in
  m ∈ Keep (Apply id (fun _ => "") (CountPolicy 0) (day 700003) l) <->
  required (fun id => exists x, claimed_by (CountPolicy 0) (day 700003) (sortByStoppedAtDesc l) x /\
    BackupID x = id) l m.
Proof.
  apply (Apply_keeps_exactly id (fun _ => "") (CountPolicy 0) (day 700003) sample).
  - reflexivity.
  - apply (bool_decide_unpack _). vm_compute. exact I.
  - left.
Defined.

Lemma Apply_deterministic_witness :
  Keep (Apply id (fun _ => "") (CountPolicy 1) (day 700003) sample) =
  Keep (Apply (@rev string) (fun _ => "") (CountPolicy 1) (day 700003) sample).
Proof.
  refine (proj1 (Apply_deterministic id (@rev string) (fun _ => "") (CountPolicy 1)
    (day 700003) sample _ _)); intros k; [reflexivity|].
  symmetry. apply Permutation_rev.
Defined.

End Retention.
