(* ===== verification/Calendar.v ===== *)
(** The calendar and its text: dates grow with time, and their fixed-width decimal text grows with them
    in the byte order of strings.  What retention's bucket keys tell apart. *)
From S2P Require Import Prelude GoString Retention.
From Stdlib Require Import Ascii.

Local Open Scope string_scope.
Local Open Scope list_scope.
Local Open Scope Z_scope.
#[local] Arguments String.append : simpl nomatch.

(** ** Dates *)

(** The order of dates. *)
Definition date_lt (a b : Z * Z * Z) : Prop :=
  let '(y, m, d) := a in let '(y', m', d') := b in y < y' \/ y = y' /\ (m < m' \/ m = m' /\ d < d').

Definition date_ltb (a b : Z * Z * Z) : bool :=
  let '(y, m, d) := a in let '(y', m', d') := b in (y <? y') || (y =? y') && ((m <? m') || (m =? m') && (d <? d')).

Lemma date_ltb_lt a b : date_ltb a b = true <-> date_lt a b.
Proof. destruct a as [[y m] d], b as [[y' m'] d']. unfold date_ltb, date_lt. lia. Qed.

Lemma date_lt_trans a b c : date_lt a b -> date_lt b c -> date_lt a c.
Proof. destruct a as [[y m] d], b as [[y' m'] d'], c as [[y2 m2] d2]. unfold date_lt. lia. Qed.

Lemma date_lt_irrefl a : ~ date_lt a a.
Proof. destruct a as [[y m] d]. unfold date_lt. lia. Qed.

(** The calendar repeats every 400 years. *)
Lemma civil_era day e : civil (day + 146097 * e) = (let '(y, m, d) := civil day in (y + 400 * e, m, d)).
Proof.
  unfold civil. replace (day + 146097 * e + 306) with ((day + 306) + e * 146097) by lia.
  rewrite Z.mod_add, Z.div_add by lia. cbv zeta. f_equal. f_equal. lia.
Qed.

(** *** One period of 400 years, counted from March 1 *)

Definition year_of_era (doe : Z) : Z := (doe - doe / 1460 + doe / 36524 - doe / 146096) / 365.
Definition era_start (yoe : Z) : Z := 365 * yoe + yoe / 4 - yoe / 100 + yoe / 400.
(** A day of such a year: whether it is in the next civil year, the month and the day. *)
Definition day_of_march (doy : Z) : Z * Z * Z :=
  let mp := (5 * doy + 2) / 153 in
  (if mp <? 10 then 0 else 1, if mp <? 10 then mp + 3 else mp - 9, doy - (153 * mp + 2) / 5 + 1).

Fixpoint holds_upto (f : Z -> bool) (n : nat) (k : Z) : bool :=
  match n with O => true | S n => f k && holds_upto f n (k + 1) end.

Lemma holds_upto_all f n : forall k, holds_upto f n k = true -> forall i, k <= i < k + Z.of_nat n -> f i = true.
Proof.
  induction n as [|n IH]; intros k H i Hi; [lia|]. cbn in H. apply andb_true_iff in H as [H1 H2].
  destruct (decide (i = k)) as [->|Hne]; [done|]. apply (IH (k + 1)); [done|lia].
Qed.

Definition good_year (yoe : Z) : bool :=
  (year_of_era (era_start yoe) =? yoe) && (year_of_era (era_start (yoe + 1) - 1) =? yoe) &&
  (era_start yoe + 365 <=? era_start (yoe + 1)) && (era_start (yoe + 1) <=? era_start yoe + 366).

Definition good_day (doy : Z) : bool :=
  let '(c, m, d) := day_of_march doy in
  date_ltb (c, m, d) (day_of_march (doy + 1)) && (1 <=? m) && (m <=? 12) && (1 <=? d) && (d <=? 31) &&
  (c =? if m <=? 2 then 1 else 0) && ((doy <? 306) || (c =? 1)).

Lemma good_years yoe : 0 <= yoe < 400 -> good_year yoe = true.
Proof. intros H. apply (holds_upto_all good_year 400 0); [by vm_compute|lia]. Qed.

Lemma good_days doy : 0 <= doy < 366 -> good_day doy = true.
Proof. intros H. apply (holds_upto_all good_day 366 0); [by vm_compute|lia]. Qed.

Lemma year_of_era_step doe : 0 <= doe -> year_of_era doe <= year_of_era (doe + 1).
Proof.
  intros H. unfold year_of_era. apply Z.div_le_mono; [lia|].
  replace 146096 with (36524 * 4) by lia. rewrite <- !Z.div_div by lia. Z.to_euclidean_division_equations. lia.
Qed.

Lemma year_of_era_mono doe doe' : 0 <= doe <= doe' -> year_of_era doe <= year_of_era doe'.
Proof.
  intros H. replace doe' with (doe + Z.of_nat (Z.to_nat (doe' - doe))) by lia.
  induction (Z.to_nat (doe' - doe)) as [|n IH]; [rewrite Z.add_0_r; lia|].
  etransitivity; [exact IH|]. replace (doe + Z.of_nat (S n)) with (doe + Z.of_nat n + 1) by lia. apply year_of_era_step. lia.
Qed.

Lemma era_start_le yoe yoe' : yoe <= yoe' -> era_start yoe <= era_start yoe'.
Proof. intros H. unfold era_start. Z.to_euclidean_division_equations. lia. Qed.

(** Every day of a period lies in the year the formula gives. *)
Lemma year_of_era_spec doe : 0 <= doe < 146097 ->
  0 <= year_of_era doe < 400 /\ era_start (year_of_era doe) <= doe < era_start (year_of_era doe + 1).
Proof.
  intros H. pose proof (year_of_era_mono 0 doe ltac:(lia)) as H0. pose proof (year_of_era_mono doe 146096 ltac:(lia)) as H1.
  change (year_of_era 0) with 0 in H0. change (year_of_era 146096) with 399 in H1. set (y := year_of_era doe) in *.
  split; [lia|]. assert (y - 1 < 0 \/ 0 <= y - 1 < 400) as Hp by lia. assert (399 < y + 1 \/ 0 <= y + 1 < 400) as Hn by lia.
  split.
  - destruct Hp as [Hp|Hp]; [assert (y = 0) as -> by lia; change (era_start 0) with 0; lia|]. pose proof (good_years _ Hp) as Hg. unfold good_year in Hg.
    rewrite !andb_true_iff, !Z.eqb_eq in Hg. replace (y - 1 + 1) with y in Hg by lia.
    destruct (Z.lt_ge_cases doe (era_start y)) as [Hlt|]; [|done].
    pose proof (year_of_era_mono doe (era_start y - 1) ltac:(lia)). fold y in H2. lia.
  - destruct Hn as [Hn|Hn]; [assert (y + 1 = 400) as -> by lia; change (era_start 400) with 146097; lia|]. pose proof (good_years _ Hn) as Hg. unfold good_year in Hg.
    rewrite !andb_true_iff, !Z.eqb_eq in Hg. destruct (Z.lt_ge_cases doe (era_start (y + 1))) as [|Hge]; [done|].
    assert (year_of_era (era_start (y + 1)) <= y) by (apply (year_of_era_mono _ doe); pose proof (era_start_le 0 (y + 1)) as Hz; change (era_start 0) with 0 in Hz; lia).
    pose proof (good_years _ Hn) as Hg'. unfold good_year in Hg'. rewrite !andb_true_iff, !Z.eqb_eq in Hg'. lia.
Qed.

(** A date by its period, its year and its day there. *)
Lemma civil_parts day :
  let z := day + 306 in let doe := z mod 146097 in let yoe := year_of_era doe in
  let doy := doe - era_start yoe in
  0 <= doy < 366 /\ civil day = (yoe + z / 146097 * 400 + (day_of_march doy).1.1, (day_of_march doy).1.2, (day_of_march doy).2).
Proof.
  intros z doe yoe doy. pose proof (Z.mod_pos_bound z 146097 ltac:(lia)) as B. destruct (year_of_era_spec doe B) as [Hy Hd].
  pose proof (good_years yoe Hy) as Hg. unfold good_year in Hg. rewrite !andb_true_iff, !Z.leb_le in Hg.
  assert (0 <= doy < 366) as Hdoy by (subst doy yoe; lia). split; [done|].
  pose proof (good_days doy Hdoy) as Hgd. unfold good_day, day_of_march in Hgd.
  unfold civil. fold z. cbv zeta. fold doe.
  change ((doe - doe / 1460 + doe / 36524 - doe / 146096) / 365) with yoe.
  replace (doe - (365 * yoe + yoe / 4 - yoe / 100)) with doy.
  2: { subst doy. unfold era_start. rewrite (Z.div_small yoe 400) by done. lia. }
  unfold day_of_march. cbn [fst snd]. rewrite !andb_true_iff, !Z.eqb_eq in Hgd.
  destruct Hgd as [[_ Hc] _]. f_equal. f_equal. rewrite <- Hc. lia.
Qed.

(** The other way round: the date of a day of a year of a period. *)
Lemma civil_at e yoe doy : 0 <= yoe < 400 -> 0 <= doy < era_start (yoe + 1) - era_start yoe ->
  civil (e * 146097 + era_start yoe + doy - 306) =
  (yoe + e * 400 + (day_of_march doy).1.1, (day_of_march doy).1.2, (day_of_march doy).2).
Proof.
  intros Hy Hd. pose proof (era_start_le 0 yoe ltac:(lia)) as H0. pose proof (era_start_le (yoe + 1) 400 ltac:(lia)) as H1.
  change (era_start 0) with 0 in H0. change (era_start 400) with 146097 in H1.
  destruct (civil_parts (e * 146097 + era_start yoe + doy - 306)) as [_ E].
  replace (e * 146097 + era_start yoe + doy - 306 + 306) with ((era_start yoe + doy) + e * 146097) in E by lia.
  rewrite Z.mod_add, Z.div_add, (Z.mod_small (era_start yoe + doy)), (Z.div_small (era_start yoe + doy)) in E by lia.
  assert (year_of_era (era_start yoe + doy) = yoe) as Ey.
  { destruct (year_of_era_spec (era_start yoe + doy) ltac:(lia)) as [_ Hs]. set (y := year_of_era _) in *.
    destruct (Z.lt_trichotomy y yoe) as [Hlt|[?|Hgt]]; [|done|].
    - pose proof (era_start_le (y + 1) yoe ltac:(lia)). lia.
    - pose proof (era_start_le (yoe + 1) y ltac:(lia)). lia. }
  rewrite Ey in E. replace (era_start yoe + doy - era_start yoe) with doy in E by lia. exact E.
Qed.

Lemma day_split day : exists e yoe doy, 0 <= yoe < 400 /\ 0 <= doy < era_start (yoe + 1) - era_start yoe /\
  day = e * 146097 + era_start yoe + doy - 306.
Proof.
  set (z := day + 306). pose proof (Z.mod_pos_bound z 146097 ltac:(lia)) as B. destruct (year_of_era_spec _ B) as [Hy Hd].
  exists (z / 146097), (year_of_era (z mod 146097)), (z mod 146097 - era_start (year_of_era (z mod 146097))).
  split_and!; [lia..|]. pose proof (Z.div_mod z 146097 ltac:(lia)). lia.
Qed.

Lemma day_good day : date_lt (civil day) (civil (day + 1)) /\
  let '(y, m, d) := civil day in 1 <= m <= 12 /\ 1 <= d <= 31.
Proof.
  destruct (day_split day) as (e & yoe & doy & Hy & Hd & ->). pose proof (good_years yoe Hy) as Hg. unfold good_year in Hg.
  rewrite !andb_true_iff, !Z.leb_le in Hg. pose proof (good_days doy ltac:(lia)) as Hgd. unfold good_day in Hgd.
  rewrite (civil_at e yoe doy Hy Hd). destruct (day_of_march doy) as [[c m] d]. cbn [fst snd].
  rewrite !andb_true_iff, date_ltb_lt in Hgd. destruct Hgd as [[[[[[Hlt Hm1] Hm2] Hd1] Hd2] Hc] Hlast].
  split; [|lia]. destruct (decide (doy + 1 < era_start (yoe + 1) - era_start yoe)) as [Hin|Hout].
  - replace (e * 146097 + era_start yoe + doy - 306 + 1) with (e * 146097 + era_start yoe + (doy + 1) - 306) by lia.
    rewrite civil_at by lia. destruct (day_of_march (doy + 1)) as [[c' m'] d']. cbn [fst snd]. unfold date_lt in *. lia.
  - assert (exists e' yoe', 0 <= yoe' < 400 /\ yoe' + e' * 400 = yoe + e * 400 + 1 /\
      e * 146097 + era_start yoe + doy - 306 + 1 = e' * 146097 + era_start yoe' + 0 - 306) as (e' & yoe' & Hy' & Ey & ->).
    { destruct (decide (yoe = 399)) as [->|Hne].
      - exists (e + 1), 0. change (era_start 0) with 0. change (era_start (399 + 1)) with 146097 in *. lia.
      - exists e, (yoe + 1). lia. }
    rewrite civil_at; [|done|pose proof (good_years yoe' Hy') as Hg'; unfold good_year in Hg'; rewrite !andb_true_iff, !Z.leb_le in Hg'; lia].
    change (day_of_march 0) with (0, 3, 1). cbn [fst snd]. apply Z.eqb_eq in Hc.
    assert (c = 1) as -> by lia. destruct (Z.leb_spec m 2); [|done]. unfold date_lt. lia.
Qed.

Lemma civil_lt day day' : day < day' -> date_lt (civil day) (civil day').
Proof.
  intros H. replace day' with (day + 1 + Z.of_nat (Z.to_nat (day' - day - 1))) by lia.
  clear H. induction (Z.to_nat (day' - day - 1)) as [|n IH]; [rewrite Z.add_0_r; apply day_good|].
  eapply date_lt_trans; [exact IH|]. replace (day + 1 + Z.of_nat (S n)) with (day + 1 + Z.of_nat n + 1) by lia. apply day_good.
Qed.

Lemma civil_lt_iff day day' : date_lt (civil day) (civil day') <-> day < day'.
Proof.
  split; [|apply civil_lt]. intros H. destruct (Z.lt_trichotomy day day') as [?|[->|Hgt]]; [done|by apply date_lt_irrefl in H|].
  apply civil_lt in Hgt. destruct (date_lt_irrefl (civil day)). by eapply date_lt_trans.
Qed.

Lemma civil_inj day day' : civil day = civil day' -> day = day'.
Proof.
  intros E. destruct (Z.lt_trichotomy day day') as [H|[->|H]]; [|done|]; apply civil_lt in H; rewrite E in H; by apply date_lt_irrefl in H.
Qed.

Lemma civil_year day : 0 <= day -> 1 <= (civil day).1.1.
Proof.
  intros H. destruct (decide (day = 0)) as [->|]; [by vm_compute|]. assert (0 < day) as H0 by lia. apply civil_lt in H0.
  change (civil 0) with (1, 1, 1) in H0. destruct (civil day) as [[y m] d]. unfold date_lt in H0. cbn. lia.
Qed.

(** ** Decimal text *)

Lemma pretty_nonneg z : 0 <= z -> pretty z = FormatUint z.
Proof. by destruct z as [|p|p]; [| |lia]. Qed.

Lemma decParse_zeros n s : decParse 0 (zeros n +:+ s) = decParse 0 s.
Proof. induction n as [|n IH]; [done|]. exact IH. Qed.

Lemma decParse_fmt_dec w z : 0 <= z -> decParse 0 (fmt_dec w z) = Some z.
Proof. intros H. unfold fmt_dec. cbv zeta. by rewrite decParse_zeros, pretty_nonneg, decParse_FormatUint. Qed.

Lemma fmt_dec_inj w z z' : 0 <= z -> 0 <= z' -> fmt_dec w z = fmt_dec w z' -> z = z'.
Proof. intros H H' E. apply (f_equal (decParse 0)) in E. rewrite !decParse_fmt_dec in E by done. by injection E. Qed.

Lemma fmt_dec_digits w z : 0 <= z -> all_chars isDigit (fmt_dec w z) = true.
Proof. intros H. eapply decParse_digits. by apply decParse_fmt_dec. Qed.

Lemma pretty_go_length n : forall x s, (x < 10 ^ N.of_nat n)%N -> (String.length (pretty_N_go x s) <= n + String.length s)%nat.
Proof.
  induction n as [|n IH]; intros x s Hx.
  - replace x with 0%N by (cbn in Hx; lia). done.
  - destruct (decide (x = 0)%N) as [->|Hne]; [rewrite pretty_N_go_0; lia|]. rewrite pretty_N_go_step by lia.
    specialize (IH (x / 10)%N (String (pretty_N_char (x mod 10)) s)). cbn [String.length] in IH.
    rewrite Nat2N.inj_succ, N.pow_succ_r' in Hx. assert (x / 10 < 10 ^ N.of_nat n)%N by (apply N.Div0.div_lt_upper_bound; lia).
    specialize (IH H). lia.
Qed.

Lemma zeros_length n : String.length (zeros n) = n.
Proof. induction n; cbn; auto. Qed.

Lemma fmt_dec_length w z : (0 < w)%nat -> 0 <= z < 10 ^ Z.of_nat w -> String.length (fmt_dec w z) = w.
Proof.
  intros Hw Hz. unfold fmt_dec. cbv zeta. rewrite pretty_nonneg, string_app_length, zeros_length by lia.
  enough (String.length (FormatUint z) <= w)%nat by lia.
  unfold FormatUint, pretty, pretty_N. case_decide; [cbn; lia|].
  pose proof (pretty_go_length w (Z.to_N z) "") as H0. cbn [String.length] in H0. rewrite Nat.add_0_r in H0. apply H0.
  apply N2Z.inj_lt. rewrite Z2N.id, N2Z.inj_pow by lia. rewrite nat_N_Z. lia.
Qed.

(** ** Fixed-width text grows with its value *)

Lemma decParse_bounds s : forall acc a, decParse acc s = Some a ->
  acc * 10 ^ Z.of_nat (String.length s) <= a < (acc + 1) * 10 ^ Z.of_nat (String.length s).
Proof.
  induction s as [|c s IH]; intros acc a H; cbn [decParse String.length] in *; [injection H as <-; lia|].
  destruct (isDigit c) eqn:Ed; [|done]. unfold isDigit in Ed. apply IH in H. rewrite Nat2Z.inj_succ, Z.pow_succ_r by lia.
  assert (0 < 10 ^ Z.of_nat (String.length s)) by (apply Z.pow_pos_nonneg; lia). nia.
Qed.

Lemma digits_ltb s : forall t acc a b, String.length s = String.length t -> decParse acc s = Some a -> decParse acc t = Some b ->
  string_ltb s t = true <-> a < b.
Proof.
  induction s as [|c s IH]; intros [|d t] acc a b Hl Ha Hb; try done.
  - cbn in Ha, Hb. injection Ha as <-. injection Hb as <-. cbn. lia.
  - cbn [String.length] in Hl. injection Hl as Hl. cbn [decParse] in Ha, Hb.
    destruct (isDigit c) eqn:Ec; [|done]. destruct (isDigit d) eqn:Ed; [|done]. rewrite string_ltb_cons.
    unfold isDigit, byte_of in *. pose proof (decParse_bounds _ _ _ Ha) as Ba. pose proof (decParse_bounds _ _ _ Hb) as Bb.
    rewrite <- Hl in Bb. assert (0 < 10 ^ Z.of_nat (String.length s)) as Hp by (apply Z.pow_pos_nonneg; lia).
    destruct (N.lt_trichotomy (Ascii.N_of_ascii c) (Ascii.N_of_ascii d)) as [Hlt|[E|Hgt]].
    + split; [intros _; nia|by left].
    + apply N_of_ascii_inj in E as ->. rewrite <- (IH t _ a b Hl Ha Hb). split; [intros [?|[_ ?]]; [lia|done]|by right].
    + split; [intros [?|[-> _]]; lia|nia].
Qed.

Lemma fmt_dec_ltb w a b : (0 < w)%nat -> 0 <= a < 10 ^ Z.of_nat w -> 0 <= b < 10 ^ Z.of_nat w ->
  string_ltb (fmt_dec w a) (fmt_dec w b) = true <-> a < b.
Proof.
  intros Hw Ha Hb. apply (digits_ltb _ _ 0); [by rewrite !fmt_dec_length|apply decParse_fmt_dec; lia..].
Qed.

(** Fields of the same width compare one after the other. *)
Lemma string_ltb_app a b s t : String.length a = String.length b ->
  string_ltb (a +:+ s) (b +:+ t) = true <-> string_ltb a b = true \/ a = b /\ string_ltb s t = true.
Proof.
  revert b. induction a as [|x a IH]; intros [|y b] Hl; try done.
  - split; [by right|]. intros [H|[_ H]]; done.
  - change (string_ltb (String x (a +:+ s)) (String y (b +:+ t)) = true <->
      string_ltb (String x a) (String y b) = true \/ String x a = String y b /\ string_ltb s t = true).
    rewrite !string_ltb_cons. injection Hl as Hl. rewrite (IH b Hl). split.
    + intros [?|[-> [?|[-> ?]]]]; [by left; left|by left; right|by right].
    + intros [[?|[-> ?]]|[[= -> ->] ?]]; [by left|right; auto|right; auto].
Qed.

Lemma field_ltb w a b s t : (0 < w)%nat -> 0 <= a < 10 ^ Z.of_nat w -> 0 <= b < 10 ^ Z.of_nat w ->
  string_ltb (fmt_dec w a +:+ s) (fmt_dec w b +:+ t) = true <-> a < b \/ a = b /\ string_ltb s t = true.
Proof.
  intros Hw Ha Hb. rewrite string_ltb_app by (by rewrite !fmt_dec_length). rewrite fmt_dec_ltb by done.
  split; (intros [?|[E ?]]; [by left|right; split; [|done]]); [|congruence]. apply (fmt_dec_inj w); [lia..|done].
Qed.

Lemma string_ltb_same a s t : string_ltb (a +:+ s) (a +:+ t) = string_ltb s t.
Proof.
  apply eq_true_iff_eq. rewrite string_ltb_app by done. split; [|by right]. intros [H|[_ H]]; [|done].
  by rewrite string_ltb_irrefl in H.
Qed.

(** ** Retention's buckets *)

Lemma digits_nodash s : all_chars isDigit s = true -> CutByte s "-"%char = None.
Proof.
  induction s as [|c s IH]; [done|]. cbn [all_chars CutByte]. intros H. apply andb_true_iff in H as [Hc Hs].
  destruct (Ascii.eqb_spec c "-"%char) as [->|]; [done|]. by rewrite IH.
Qed.

(** A number, a dash and the rest. *)
Lemma dash_inj w a b s t : 0 <= a -> 0 <= b -> fmt_dec w a +:+ "-" +:+ s = fmt_dec w b +:+ "-" +:+ t -> a = b /\ s = t.
Proof.
  intros Ha Hb E. assert (forall z u, 0 <= z -> CutByte (fmt_dec w z +:+ "-" +:+ u) "-"%char = Some (fmt_dec w z, u)) as Hc.
  { intros z u Hz. change ("-" +:+ u) with (String "-"%char u). rewrite CutByte_None_app by (apply digits_nodash, fmt_dec_digits; done).
    cbn [CutByte]. rewrite Ascii.eqb_refl. by rewrite string_app_nil_r. }
  apply (f_equal (fun u => CutByte u "-"%char)) in E. rewrite !Hc in E by done. injection E as Ea Es.
  split; [by apply (fmt_dec_inj w)|done].
Qed.

(** The week of a day, from its Monday; day 0 is one. *)
Definition monday (day : Z) : Z := day - day mod 7.

Lemma ISOWeek_inj day day' : Retention.ISOWeek day = Retention.ISOWeek day' <-> monday day = monday day'.
Proof.
  unfold Retention.ISOWeek, monday. split.
  - destruct (civil (day - day mod 7 + 3)) as [[y m] d], (civil (day' - day' mod 7 + 3)) as [[y' m'] d'].
    intros E. injection E as -> E. Z.to_euclidean_division_equations. lia.
  - intros ->. done.
Qed.

Lemma civil_year_start y : civil (Retention.year_start y) = (y, 1, 1).
Proof.
  pose proof (Z.div_mod (y - 1) 400 ltac:(lia)) as E. pose proof (Z.mod_pos_bound (y - 1) 400 ltac:(lia)) as B.
  set (e := (y - 1) / 400) in *. set (yoe := (y - 1) mod 400) in *.
  pose proof (good_years yoe B) as Hg. unfold good_year in Hg. rewrite !andb_true_iff, !Z.leb_le in Hg.
  pose proof (civil_at e yoe 306 B ltac:(lia)) as H. change (day_of_march 306) with (1, 1, 1) in H. cbn [fst snd] in H.
  replace (Retention.year_start y) with (e * 146097 + era_start yoe + 306 - 306); [rewrite H; f_equal; f_equal; lia|].
  unfold Retention.year_start, era_start. clear H Hg. clearbody e yoe. rewrite E. Z.to_euclidean_division_equations. lia.
Qed.

Lemma year_start_le day : Retention.year_start (civil day).1.1 <= day.
Proof.
  destruct (Z.lt_ge_cases day (Retention.year_start (civil day).1.1)) as [H|]; [|done].
  apply civil_lt in H. rewrite civil_year_start in H. pose proof (day_good day) as [_ Hg].
  destruct (civil day) as [[y m] d]. cbn [fst] in H. unfold date_lt in H. lia.
Qed.

Lemma ISOWeek_nonneg day : 0 <= day -> 1 <= (Retention.ISOWeek day).1 /\ 1 <= (Retention.ISOWeek day).2.
Proof.
  intros H. unfold Retention.ISOWeek. pose proof (Z.mod_pos_bound day 7 ltac:(lia)) as B. pose proof (Z.div_mod day 7 ltac:(lia)) as E.
  pose proof (Z.div_pos day 7 H ltac:(lia)). set (th := day - day mod 7 + 3).
  pose proof (year_start_le th) as Hy. pose proof (civil_year th ltac:(lia)) as Hy1. destruct (civil th) as [[y m] d].
  cbn [fst snd] in *. split; [done|]. pose proof (Z.div_pos (th - Retention.year_start y) 7 ltac:(lia) ltac:(lia)). lia.
Qed.

Lemma day_of_nonneg t : 0 <= t -> 0 <= day_of t.
Proof. intros H. by apply Z.div_pos. Qed.

(** C34: the buckets of a GFS policy are what they are called: two backups share the daily bucket exactly when
    they stopped on the same day (UTC), the weekly one in the same week from Monday on, the monthly one
    in the same month of the same year, the yearly one in the same year. *)
Theorem bucket_keys_exact (t t' : time) : 0 <= t -> 0 <= t' ->
  let '(y, m, _) := civil (day_of t) in let '(y', m', _) := civil (day_of t') in
  (Retention.dailyKey t = Retention.dailyKey t' <-> day_of t = day_of t') /\
  (Retention.isoWeekKey t = Retention.isoWeekKey t' <-> monday (day_of t) = monday (day_of t')) /\
  (Retention.monthlyKey t = Retention.monthlyKey t' <-> y = y' /\ m = m') /\
  (Retention.yearlyKey t = Retention.yearlyKey t' <-> y = y').
Proof.
  intros Ht Ht'. apply day_of_nonneg in Ht, Ht'. pose proof (ISOWeek_inj (day_of t) (day_of t')) as Hiso.
  pose proof (ISOWeek_nonneg _ Ht) as [Hw1 Hw2]. pose proof (ISOWeek_nonneg _ Ht') as [Hw1' Hw2'].
  unfold Retention.dailyKey, Retention.isoWeekKey, Retention.monthlyKey, Retention.yearlyKey.
  destruct (Retention.ISOWeek (day_of t)) as [wy w], (Retention.ISOWeek (day_of t')) as [wy' w']. cbn [fst snd] in *.
  pose proof (civil_year _ Ht) as Hy. pose proof (civil_year _ Ht') as Hy'.
  pose proof (day_good (day_of t)) as [_ Hg]. pose proof (day_good (day_of t')) as [_ Hg'].
  assert (civil (day_of t) = civil (day_of t') <-> day_of t = day_of t') as Hinj by (split; [apply civil_inj|congruence]).
  destruct (civil (day_of t)) as [[y m] d], (civil (day_of t')) as [[y' m'] d']. cbn [fst snd] in *.
  rewrite <- Hinj, <- Hiso. split_and!.
  - split; [|intros [= -> -> ->]; done]. intros E. apply dash_inj in E as [-> E]; [|lia..]. apply dash_inj in E as [-> E]; [|lia..].
    apply fmt_dec_inj in E as ->; [done|lia..].
  - split; [|intros [= -> ->]; done]. intros E.
    change ("-W" +:+ fmt_dec 2 w) with ("-" +:+ ("W" +:+ fmt_dec 2 w)) in E. change ("-W" +:+ fmt_dec 2 w') with ("-" +:+ ("W" +:+ fmt_dec 2 w')) in E.
    apply dash_inj in E as [-> E]; [|lia..]. apply string_app_inj_l in E. apply fmt_dec_inj in E as ->; [done|lia..].
  - split; [|intros [-> ->]; done]. intros E. apply dash_inj in E as [-> E]; [|lia..]. apply fmt_dec_inj in E as ->; [done|lia..].
  - split; [|by intros ->]. intros E. apply fmt_dec_inj in E; [done|lia..].
Qed.

Lemma bucket_keys_exact_witness :
  let t := 738000 * 86400 * Time.Second in
  (Retention.dailyKey t = Retention.dailyKey (t + 1) <-> day_of t = day_of (t + 1)).
Proof.
  pose proof (bucket_keys_exact (738000 * 86400 * Time.Second) (738000 * 86400 * Time.Second + 1) ltac:(done) ltac:(done)) as H.
  exact (proj1 H).
Defined.
