(* ===== verification/Worm.v ===== *)
(** Write-once retention (internal/repo/worm.go): the policy, the deadline it
    puts on an object, and the parser of the operator's duration string.  Every
    [int64] product is written with its wrap-around. *)
From S2P Require Import Prelude GoString Storage.
From Stdlib Require Import Ascii.

Local Open Scope string_scope.
Local Open Scope Z_scope.
#[local] Arguments String.append : simpl nomatch.

(** ** The policy *)

Record WORMPolicy := {
  Mode : string;
  Retention : string;
  RetentionSeconds : Z
}.

Definition MaxRetentionSeconds : Z := max_int64 / Time.Second.

(** A [nil] policy is [None]. *)
Definition WORM_IsZero (p : option WORMPolicy) : bool :=
  match p with None => true | Some p => String.eqb (Mode p) "" end.

Definition WORM_RetainUntil (p : option WORMPolicy) (now : time) : time :=
  match p with
  | None => Time.zero
  | Some q =>
      if WORM_IsZero p || (RetentionSeconds q <=? 0) then Time.zero
      else
        let secs := if MaxRetentionSeconds <? RetentionSeconds q
                    then MaxRetentionSeconds else RetentionSeconds q in
        Time.Add now (i64 (secs * Time.Second))
  end.

(** The validity errors of [Validate] and of the parser. *)
Inductive werr :=
| BadMode | NonPositive | TooLarge | Empty | BadShape | MissingUnit
| ZeroValue | ExceedsMax | UnknownUnit | NotTogether.

Definition WORM_Validate (p : option WORMPolicy) : result werr unit :=
  match p with
  | None => Ok ()
  | Some p =>
      if String.eqb (Mode p) "" && String.eqb (Retention p) "" && (RetentionSeconds p =? 0)
      then Ok ()
      else if negb (String.eqb (Mode p) "compliance" || String.eqb (Mode p) "governance")
      then Err BadMode
      else if RetentionSeconds p <=? 0 then Err NonPositive
      else if MaxRetentionSeconds <? RetentionSeconds p then Err TooLarge
      else Ok ()
  end.

(** ** The duration parser *)

(** The scan of [ParseWORMRetention]: digits accumulate in [num], guarded
    against overflow, and only the last byte may be a unit.  [first] tells
    whether the byte is at index 0. *)
Fixpoint retention_scan (first : bool) (num : Z) (s : string) : result werr (Z * Z) :=
  match s with
  | EmptyString => Ok (num, 0)
  | String c s =>
      if isDigit c then
        let d := byte_of c - 48 in
        if (max_int64 - d) / 10 <? num then Err TooLarge
        else retention_scan false (i64 (num * 10 + d)) s
      else if first || negb (String.eqb s "") then Err BadShape
      else Ok (num, byte_of c)
  end.

Definition minute : Z := 60.
Definition hour : Z := 60 * minute.
Definition day : Z := 24 * hour.
Definition year : Z := 365 * day.

(** The multiplier of a unit byte, either case; [0] for any other. *)
Definition unit_seconds (u : Z) : Z :=
  if (u =? 121) || (u =? 89) then year
  else if (u =? 100) || (u =? 68) then day
  else if (u =? 104) || (u =? 72) then hour
  else if (u =? 109) || (u =? 77) then minute
  else 0.

Definition ParseWORMRetention (s : string) : result werr Z :=
  let s := TrimSpace s in
  if String.eqb s "" then Err Empty
  else
    match retention_scan true 0 s with
    | Err e => Err e
    | Ok (num, unit) =>
        if unit =? 0 then Err MissingUnit
        else if num <=? 0 then Err ZeroValue
        else
          let mult := unit_seconds unit in
          if negb (mult =? 0) then
            if MaxRetentionSeconds / mult <? num then Err ExceedsMax
            else Ok (i64 (num * mult))
          else Err UnknownUnit
    end.

(** [strings.ToLower].  Two runes outside ASCII lower to an ASCII letter, the
    dotted capital I (C4 B0) and the Kelvin sign (E2 84 AA); every other one
    lowers to bytes outside ASCII and is left as it is here, where the result is
    only compared with ASCII words. *)
Definition lower (c : ascii) : ascii :=
  if (65 <=? byte_of c) && (byte_of c <=? 90)
  then Ascii.ascii_of_N (Ascii.N_of_ascii c + 32) else c.

Fixpoint ToLower (s : string) : string :=
  match s with
  | EmptyString => EmptyString
  | String a s1 =>
      let plain := String (lower a) (ToLower s1) in
      match s1 with
      | EmptyString => plain
      | String b s2 =>
          if (byte_of a =? 196) && (byte_of b =? 176) then String "i"%char (ToLower s2)
          else match s2 with
               | EmptyString => plain
               | String c s3 =>
                   if (byte_of a =? 226) && (byte_of b =? 132) && (byte_of c =? 170)
                   then String "k"%char (ToLower s3) else plain
               end
      end
  end.

Definition MakeWORMPolicy (mode retention : string) : result werr (option WORMPolicy) :=
  if String.eqb mode "" && String.eqb retention "" then Ok None
  else if String.eqb mode "" || String.eqb retention "" then Err NotTogether
  else
    match ParseWORMRetention retention with
    | Err e => Err e
    | Ok secs =>
        let p := {| Mode := ToLower (TrimSpace mode); Retention := retention;
                    RetentionSeconds := secs |} in
        match WORM_Validate (Some p) with
        | Err e => Err e
        | Ok _ => Ok (Some p)
        end
    end.

(** ** The parser is exact *)

Lemma decParse_mono s acc z : 0 <= acc -> decParse acc s = Some z -> acc <= z.
Proof.
  revert acc. induction s as [|c s IH]; intros acc Ha; simpl; [intros [=]; lia|].
  destruct (isDigit c) eqn:E; [|done]. unfold isDigit in E. intros H.
  apply IH in H; lia.
Qed.

Lemma MaxRetentionSeconds_eq : MaxRetentionSeconds = 9223372036.
Proof. reflexivity. Qed.

(** Arithmetic with the bounds spelled out. *)
Ltac secs_lia := rewrite ?MaxRetentionSeconds_eq in *; unfold min_int64, max_int64, Time.Second in *; lia.

(** The guard is the exact overflow test. *)
Lemma scan_guard num d : ((max_int64 - d) / 10 <? num) = (max_int64 <? num * 10 + d).
Proof. apply Bool.eq_iff_eq_true. rewrite !Z.ltb_lt.
  pose proof (Z.div_mod (max_int64 - d) 10). pose proof (Z.mod_pos_bound (max_int64 - d) 10). lia.
Qed.

Lemma scan_step c num s first : 0 <= num -> isDigit c = true ->
  retention_scan first num (String c s) =
  if max_int64 <? num * 10 + (byte_of c - 48) then Err TooLarge
  else retention_scan false (num * 10 + (byte_of c - 48)) s.
Proof.
  intros Hn Hc. cbn [retention_scan]. rewrite Hc, scan_guard.
  destruct (Z.ltb_spec max_int64 (num * 10 + (byte_of c - 48))); [done|].
  unfold isDigit in Hc. rewrite i64_id; [done|]. unfold min_int64, max_int64 in *. lia.
Qed.

Lemma scan_sound s first num n u :
  0 <= num <= max_int64 -> retention_scan first num s = Ok (n, u) -> u <> 0 ->
  exists ds c, s = ds ++ String c "" /\ u = byte_of c /\ (first = true -> ds <> "") /\
    decParse num ds = Some n /\ n <= max_int64.
Proof.
  revert first num. induction s as [|c s IH]; intros first num Hn; [by intros [= <- <-]|].
  destruct (isDigit c) eqn:Hc.
  - rewrite scan_step by (done || lia).
    destruct (Z.ltb_spec max_int64 (num * 10 + (byte_of c - 48))); [done|].
    intros Hr Hu. unfold isDigit in Hc.
    apply IH in Hr as (ds & c' & -> & -> & _ & Hd & Hm); [|lia|done].
    exists (String c ds), c'. repeat split; try done.
    cbn [decParse]. unfold isDigit. by rewrite Hc.
  - cbn [retention_scan]. rewrite Hc. destruct first; simpl; [done|].
    destruct (String.eqb_spec s "") as [->|]; simpl; [|done].
    intros [= <- <-] _. exists "", c. repeat split; try done. lia.
Qed.

Lemma scan_complete ds c first num n :
  0 <= num -> (first = true -> ds <> "") -> isDigit c = false ->
  decParse num ds = Some n -> n <= max_int64 ->
  retention_scan first num (ds ++ String c "") = Ok (n, byte_of c).
Proof.
  revert first num. induction ds as [|a ds IH]; intros first num Hn Hf Hc Hd Hm.
  - injection Hd as <-. cbn [String.append retention_scan]. rewrite Hc.
    destruct first; [|done]. by destruct Hf.
  - cbn [decParse] in Hd. destruct (isDigit a) eqn:Ha; [|done].
    pose proof Ha as Ha'. unfold isDigit in Ha'.
    cbn [String.append]. rewrite scan_step by done.
    apply decParse_mono in Hd as Hle; [|lia].
    rewrite (proj2 (Z.ltb_ge _ _)) by lia. apply IH; try done; lia.
Qed.

Lemma unit_seconds_pos u : 0 <= unit_seconds u <= year.
Proof. unfold unit_seconds, year, day, hour, minute. repeat case_match; lia. Qed.

Lemma unit_seconds_not_digit c : unit_seconds (byte_of c) <> 0 -> isDigit c = false.
Proof. unfold unit_seconds, isDigit. intros. crunch_match; zbool; lia. Qed.

(** What the parser accepts. *)
Lemma parse_retention_sound (s : string) (z : Z) :
  ParseWORMRetention s = Ok z ->
  exists ds c n, TrimSpace s = ds ++ String c "" /\ ds <> "" /\ decParse 0 ds = Some n /\
    unit_seconds (byte_of c) <> 0 /\ z = n * unit_seconds (byte_of c) /\
    0 < z <= MaxRetentionSeconds.
Proof.
  unfold ParseWORMRetention. cbv zeta. generalize (TrimSpace s). clear s. intros s.
  destruct (String.eqb_spec s "") as [|_]; [done|].
  destruct (retention_scan true 0 s) as [[n u]|] eqn:Hs; [|done].
  destruct (Z.eqb_spec u 0); [done|]. destruct (Z.leb_spec n 0); [done|].
  pose proof (unit_seconds_pos u).
  destruct (Z.eqb_spec (unit_seconds u) 0); simpl; [done|].
  destruct (Z.ltb_spec (MaxRetentionSeconds / unit_seconds u) n); [done|]. intros [= <-].
  apply scan_sound in Hs as (ds & c & -> & -> & Hne & Hd & Hm);
    [|unfold max_int64; lia|done].
  pose proof (Z.mul_div_le MaxRetentionSeconds (unit_seconds (byte_of c)) ltac:(lia)).
  assert (n * unit_seconds (byte_of c) <= MaxRetentionSeconds) by nia.
  assert (0 < n * unit_seconds (byte_of c)) by nia.
  rewrite i64_id by secs_lia.
  exists ds, c, n. specialize (Hne eq_refl). repeat split; done || lia.
Qed.

(** [ParseWORMRetention] accepts exactly the (trimmed) strings of digits
    followed by one unit letter whose value in seconds is positive and at most
    the representable maximum, and returns that value: no digit run wraps. *)
Theorem ParseWORMRetention_exact (s : string) (z : Z) :
  ParseWORMRetention s = Ok z <->
  exists ds c n, TrimSpace s = ds ++ String c "" /\ ds <> "" /\ decParse 0 ds = Some n /\
    unit_seconds (byte_of c) <> 0 /\ z = n * unit_seconds (byte_of c) /\
    0 < z <= MaxRetentionSeconds.
Proof.
  split; [apply parse_retention_sound|].
  unfold ParseWORMRetention. cbv zeta. generalize (TrimSpace s). clear s. intros s.
  intros (ds & c & n & -> & Hne & Hd & Hu & -> & Hz).
  pose proof (unit_seconds_pos (byte_of c)). 
  assert (0 < n <= MaxRetentionSeconds) by nia.
  rewrite (scan_complete ds c true 0 n); try done;
    [|by apply unit_seconds_not_digit|secs_lia].
  destruct (String.eqb_spec (ds ++ String c "") ""); [by destruct ds|].
  destruct (Z.eqb_spec (byte_of c) 0) as [E|]; [by rewrite E in Hu|].
  rewrite (proj2 (Z.leb_gt _ _)), (proj2 (Z.eqb_neq _ _)) by (done || lia). simpl.
  rewrite (proj2 (Z.ltb_ge _ _)) by (apply Z.div_le_lower_bound; lia).
  rewrite i64_id by secs_lia.
  done.
Qed.

(** ** The deadline *)

Lemma retention_product secs : 0 < secs <= MaxRetentionSeconds ->
  i64 (secs * Time.Second) = secs * Time.Second.
Proof.
  intros. apply i64_id. secs_lia.
Qed.

(** A policy with a mode and a positive retention, whatever value was
    persisted, puts the deadline strictly after [now]: the seconds asked for,
    clamped to the representable maximum; any other policy puts none.  A deadline
    never wraps into the past. *)
Theorem RetainUntil_not_past (p : option WORMPolicy) (now : time) :
  (WORM_RetainUntil p now = Time.zero /\
   (WORM_IsZero p = true \/ exists q, p = Some q /\ RetentionSeconds q <= 0)) \/
  (exists q, p = Some q /\ Mode q <> "" /\
     WORM_RetainUntil p now
     = now + Z.min (RetentionSeconds q) MaxRetentionSeconds * Time.Second /\
     now < WORM_RetainUntil p now <= now + max_int64).
Proof.
  destruct p as [q|]; [|by left; auto]. simpl.
  destruct (String.eqb_spec (Mode q) ""); simpl; [by left; auto|].
  destruct (Z.leb_spec (RetentionSeconds q) 0); [left; eauto|]. right. exists q.
  assert (0 < Z.min (RetentionSeconds q) MaxRetentionSeconds <= MaxRetentionSeconds)
    by secs_lia.
  replace (if MaxRetentionSeconds <? RetentionSeconds q then _ else _)
    with (Z.min (RetentionSeconds q) MaxRetentionSeconds)
    by (destruct (Z.ltb_spec MaxRetentionSeconds (RetentionSeconds q)); lia).
  rewrite retention_product by done. unfold Time.Add. repeat split; try done;
    secs_lia.
Qed.

(** A policy built from operator input is valid, and puts every object's
    deadline exactly the parsed number of seconds after its commit. *)
Theorem MakeWORMPolicy_sound (mode retention : string) (p : WORMPolicy) (now : time) :
  MakeWORMPolicy mode retention = Ok (Some p) ->
  WORM_Validate (Some p) = Ok () /\ ParseWORMRetention retention = Ok (RetentionSeconds p) /\
  (Mode p = "compliance" \/ Mode p = "governance") /\
  WORM_RetainUntil (Some p) now = now + RetentionSeconds p * Time.Second.
Proof.
  unfold MakeWORMPolicy.
  destruct (String.eqb mode "" && String.eqb retention ""); [done|].
  destruct (String.eqb mode "" || String.eqb retention ""); [done|].
  destruct (ParseWORMRetention retention) as [secs|] eqn:Hparse; [|done].
  destruct (WORM_Validate _) as [[]|] eqn:Hv; [|done]. intros [= <-].
  split; [done|]. split; [done|]. apply parse_retention_sound in Hparse.
  destruct Hparse as (_ & _ & _ & _ & _ & _ & _ & _ & Hz).
  assert (ToLower (TrimSpace mode) = "compliance" \/ ToLower (TrimSpace mode) = "governance") as Hm.
  { revert Hv. unfold WORM_Validate. cbn [RetentionSeconds Mode Retention].
    rewrite (proj2 (Z.eqb_neq secs 0)), andb_false_r by lia.
    destruct (String.eqb_spec (ToLower (TrimSpace mode)) "compliance"); [eauto|].
    destruct (String.eqb_spec (ToLower (TrimSpace mode)) "governance"); [eauto|done]. }
  split; [exact Hm|]. cbn [WORM_RetainUntil RetentionSeconds WORM_IsZero Mode].
  destruct (String.eqb_spec (ToLower (TrimSpace mode)) "") as [E|];
    [destruct Hm; congruence|].
  cbn [orb].
  rewrite (proj2 (Z.leb_gt _ _)), (proj2 (Z.ltb_ge _ _)) by lia.
  by rewrite retention_product.
Qed.

Lemma MakeWORMPolicy_sound_witness :
  exists p, MakeWORMPolicy " Compliance" "7y" = Ok (Some p) /\
    WORM_RetainUntil (Some p) 0 = 7 * 365 * 24 * Time.Hour.
Proof.
  eexists. split; [vm_compute; reflexivity|].
  refine (eq_trans (proj2 (proj2 (proj2 (MakeWORMPolicy_sound " Compliance" "7y" _ 0 _)))) _);
    vm_compute; reflexivity.
Defined.
