(* ===== verification/Commit.v ===== *)
(** Publishing an object that must never be overwritten
    (internal/plugin/storage/commit.go, readlimit.go), with its specification
    over every behaviour of the backend. *)
From S2P Require Import Prelude GoString Storage.

Local Open Scope string_scope.
Local Open Scope Z_scope.
#[local] Arguments String.append : simpl nomatch.

(** ** Reading *)

Definition MaxRecordBytes : Z := Z.shiftl 64 20.

(** [None]: the object exceeds the limit. *)
Definition ReadAllLimited (body : string) (max : Z) : option string :=
  if max <? Z.of_nat (String.length body) then None else Some body.

(** ** Committing *)

(** Where a commit failed, with the backend's error underneath. *)
Inductive commit_err :=
| CE_Put (e : serr)
| CE_Stage (e : serr)
| CE_Rename (e : serr)
| CE_Lock (e : serr)
| CE_LockRollback (e derr : serr).

(** [errors.Is] on a wrapped commit error. *)
Definition commit_is (e : commit_err) (target : serr) : bool :=
  match e with
  | CE_Put e | CE_Stage e | CE_Rename e | CE_Lock e => bool_decide (e = target)
  | CE_LockRollback e d => bool_decide (e = target) || bool_decide (d = target)
  end.

#[export] Instance WORMMode_eq_dec : EqDecision WORMMode.
Proof. solve_decision. Defined.

Section commit.
Context {B : Type}.

(** [opts] with the flags a publishing [Put] or a staging [Put] forces. *)
Definition exclusive_opts (opts : PutOptions) (size : Z) : PutOptions :=
  {| IfNotExists := true; ContentLength := size;
     RetainUntil := RetainUntil opts; RetentionMode := RetentionMode opts |}.

Definition staged_opts (size : Z) : PutOptions :=
  {| IfNotExists := false; ContentLength := size;
     RetainUntil := Time.zero; RetentionMode := WORMNone |}.

Definition staging_key (key suffix : string) : string := key ++ ".tmp." ++ suffix.

(** The mode of the lock put on the final key; compliance when none is named. *)
Definition lock_mode (opts : PutOptions) : WORMMode :=
  if bool_decide (RetentionMode opts = WORMNone) then WORMCompliance else RetentionMode opts.

(** The lock on the final key after the rename, taken back when it fails. *)
Definition lock_committed (caps : Capabilities) (key : string) (opts : PutOptions)
    : prog B (result commit_err unit) :=
  if negb (Time.IsZero (RetainUntil opts)) && WORM caps then
    let* r := sSetRetention key (RetainUntil opts) (lock_mode opts) in
    match r with
    | Ok _ => Ret (Ok ())
    | Err e =>
        let* d := sDelete key in
        match d with
        | Err derr => Ret (Err (CE_LockRollback e derr))
        | Ok _ => Ret (Err (CE_Lock e))
        end
    end
  else Ret (Ok ()).

Definition CommitExclusive (caps : Capabilities) (suffix key : string) (body : B) (size : Z)
    (opts : PutOptions) : prog B (result commit_err unit) :=
  if ConditionalPut caps then
    let* r := sPut key body (exclusive_opts opts size) in
    match r with
    | Err e => Ret (Err (CE_Put e))
    | Ok _ => Ret (Ok ())
    end
  else
    let tmp := staging_key key suffix in
    let* r := sPut tmp body (staged_opts size) in
    match r with
    | Err e => Ret (Err (CE_Stage e))
    | Ok _ =>
        let* r := sRename tmp key in
        match r with
        | Err e =>
            let* _ := sDelete tmp in
            Ret (Err (CE_Rename e))
        | Ok _ => lock_committed caps key opts
        end
    end.

(** ** Its specification *)

Local Abbreviation store := (gmap string (object B)).

(** Two stores agree on every key but those in [K]. *)
Definition same_but (K : list string) (s s' : store) : Prop :=
  forall k, k ∉ K -> s' !! k = s !! k.

Lemma same_but_refl K s : same_but K s s.
Proof. by intros k. Qed.

Lemma same_but_trans K s1 s2 s3 : same_but K s1 s2 -> same_but K s2 s3 -> same_but K s1 s3.
Proof. intros H1 H2 k Hk. by rewrite H2, H1. Qed.

Lemma same_but_insert K k o s : k ∈ K -> same_but K s (<[k := o]> s).
Proof. intros Hk k' Hk'. rewrite lookup_insert_ne; [done|]. by intros ->. Qed.

Lemma same_but_delete K k s : k ∈ K -> same_but K s (delete k s).
Proof. intros Hk k' Hk'. rewrite lookup_delete_ne; [done|]. by intros ->. Qed.

Lemma same_but_incl K K' s s' : K ⊆ K' -> same_but K s s' -> same_but K' s s'.
Proof. intros HK H k Hk. apply H. set_solver. Qed.

(** Retention the committed object must carry: what was asked for, where the
    backend can hold it. *)
Definition retention_kept (caps : Capabilities) (opts : PutOptions) (o : object B) : Prop :=
  ConditionalPut caps = true \/ WORM caps = true ->
  Time.IsZero (RetainUntil opts) = false ->
  ob_retain o = RetainUntil opts.
End commit.

Lemma staging_key_ne key suffix : staging_key key suffix <> key.
Proof.
  unfold staging_key. intros E. apply (f_equal String.length) in E.
  rewrite string_app_length in E. cbn in E. lia.
Qed.

#[export] Hint Resolve same_but_refl same_but_insert same_but_delete : pghs.

Section commit_facts.
Context {B : Type}.
Implicit Types (s : gmap string (object B)) (body : B).

(** What any run of a commit guarantees, faults included. *)
Definition commit_post (caps : Capabilities) (suffix key : string) body (size : Z)
    (opts : PutOptions) s (r : result commit_err unit) s' : Prop :=
  same_but [key; staging_key key suffix] s s' /\
  (forall o, s !! key = Some o -> s' !! key = Some o /\ r <> Ok ()) /\
  (r = Ok () -> exists o, s' !! key = Some o /\ ob_body o = body /\ ob_size o = size /\
     retention_kept caps opts o) /\
  (forall e, r = Err e -> commit_is e ErrAlreadyExists = true -> is_Some (s !! key)).

(** A commit that failed left the key alone, or put an object where none was. *)
Lemma commit_post_err caps suffix key body size opts s e s' :
  same_but [key; staging_key key suffix] s s' ->
  s !! key = None \/ s' !! key = s !! key ->
  (commit_is e ErrAlreadyExists = true -> is_Some (s !! key)) ->
  commit_post caps suffix key body size opts s (Err e) s'.
Proof.
  intros H1 H2 H3. split_and!; try done.
  - intros o Ho. split; [|done]. destruct H2; congruence.
  - by intros ? [= <-].
Qed.

Lemma commit_post_ok caps suffix key body size opts s s' o :
  same_but [key; staging_key key suffix] s s' ->
  s !! key = None -> s' !! key = Some o -> ob_body o = body -> ob_size o = size ->
  retention_kept caps opts o ->
  commit_post caps suffix key body size opts s (Ok ()) s'.
Proof. intros H1 H2 H3 H4 H5 H6. split_and!; eauto; naive_solver. Qed.

Lemma lock_committed_wp D caps suffix key body size opts s s' o :
  same_but [key; staging_key key suffix] s s' -> ConditionalPut caps = false ->
  s !! key = None -> s' !! key = Some o -> ob_body o = body -> ob_size o = size ->
  wp D (lock_committed caps key opts) (commit_post caps suffix key body size opts s) s'.
Proof.
  assert (key ∈ [key; staging_key key suffix]) as Hk by left.
  intros H1 Hcp H2 H3 H4 H5. unfold lock_committed.
  destruct (Time.IsZero (RetainUntil opts)) eqn:Hz; [|destruct (WORM caps) eqn:Hw].
  - eapply commit_post_ok; eauto. intros _. congruence.
  - assert (forall s2, same_but [key; staging_key key suffix] s s2 -> forall e e' Q,
      commit_is e ErrAlreadyExists = false -> (forall d, d <> ErrAlreadyExists -> 
        commit_is (e' d) ErrAlreadyExists = false) ->
      Q = commit_post caps suffix key body size opts s ->
      wp D (pbind (sDelete key) (fun d => match d with
                | Err derr => Ret (Err (e' derr)) | Ok _ => Ret (Err e) end)) Q s2) as Hdel.
    { intros s2 Hs2 e e' Q He He' ->. wp_step; intros; apply commit_post_err; auto with pghs;
        try (eapply same_but_trans; [exact Hs2|auto with pghs]);
        (rewrite He || rewrite He' by done); done. }
    cbn [negb andb]. wp_step.
    + intros o0 Ho0. eapply commit_post_ok; [|done|apply lookup_insert_eq|..]; try congruence.
      * eapply same_but_trans; [exact H1|auto with pghs].
      * simpl. congruence.
      * simpl. congruence.
      * by intros _ _.
    + congruence.
    + intros d c _ _. eapply Hdel; try done. intros d0 Hd0. simpl.
      by rewrite (bool_decide_eq_false_2 _ Hd0).
    + intros d c o0 _ _ Ho0. eapply Hdel; try done.
      * eapply same_but_trans; [exact H1|auto with pghs].
      * intros d0 Hd0. simpl. by rewrite (bool_decide_eq_false_2 _ Hd0).
  - eapply commit_post_ok; eauto. intros [|]; congruence.
Qed.

Lemma same_but_rename (K : list string) src dst s s' (o : object B) :
  src ∈ K -> dst ∈ K -> same_but K s s' -> same_but K s (<[dst := o]> (delete src s')).
Proof.
  intros Hs Hd H. eapply same_but_trans; [|by apply same_but_insert].
  eapply same_but_trans; [exact H|by apply same_but_delete].
Qed.

Lemma unstage_wp D caps suffix key body size opts s e s' :
  same_but [key; staging_key key suffix] s s' ->
  s !! key = None \/ s' !! key = s !! key ->
  (e = ErrAlreadyExists -> is_Some (s !! key)) ->
  wp D (let* _ := sDelete (staging_key key suffix) in Ret (Err (CE_Rename e)))
    (commit_post caps suffix key body size opts s) s'.
Proof.
  intros H1 H2 H3. pose proof (staging_key_ne key suffix) as Hne.
  assert (staging_key key suffix ∈ [key; staging_key key suffix]) as Ht by (right; left).
  assert (same_but [key; staging_key key suffix] s (delete (staging_key key suffix) s')) as Hd
    by (eapply same_but_trans; [exact H1|auto with pghs]).
  assert (delete (staging_key key suffix) s' !! key = s' !! key) as Hk by (by apply lookup_delete_ne).
  wp_step; intros; apply commit_post_err; rewrite ?Hk; auto;
    intros Hb; apply H3; by apply bool_decide_eq_true in Hb.
Qed.

Lemma commit_post_wp D caps suffix key body size opts s :
  wp D (CommitExclusive caps suffix key body size opts)
    (commit_post caps suffix key body size opts s) s.
Proof.
  assert (key ∈ [key; staging_key key suffix]) as Hk by left.
  assert (staging_key key suffix ∈ [key; staging_key key suffix]) as Ht by (right; left).
  pose proof (staging_key_ne key suffix) as Hne.
  unfold CommitExclusive. destruct (ConditionalPut caps) eqn:Hcp.
  - wp_step.
    + intros d _ Hn. eapply commit_post_ok; auto with pghs; apply lookup_insert_eq || done.
    + intros He _. apply commit_post_err; auto with pghs.
    + intros d c _ _. apply commit_post_err; auto with pghs; done.
    + intros d c _ _ Hn. apply commit_post_err; auto with pghs; done.
  - set (tmp := staging_key key suffix) in *. wp_step.
    + intros d _ _. set (s1 := <[tmp := _]> s).
      assert (same_but [key; tmp] s s1) as Hs1 by (apply same_but_insert; done).
      assert (s1 !! key = s !! key) as Hkey by (by apply lookup_insert_ne).
      wp_step.
      * intros o Ho Hn. rewrite Hkey in Hn.
        unfold s1 in Ho. rewrite lookup_insert_eq in Ho. injection Ho as <-.
        eapply lock_committed_wp; [by apply same_but_rename|done|done|apply lookup_insert_eq|done|done].
      * intros Hn. unfold s1 in Hn. by rewrite lookup_insert_eq in Hn.
      * intros _ He. rewrite Hkey in He. apply unstage_wp; auto.
      * intros d' c _ _. apply unstage_wp; auto; done.
      * intros d' c o _ _ Ho Hn. rewrite Hkey in Hn. apply unstage_wp; auto; [|done].
        by apply same_but_rename.
    + done.
    + intros d c _ _. apply commit_post_err; auto with pghs; done.
    + intros d c _ _ _. apply commit_post_err; auto with pghs; [|done].
      right. by apply lookup_insert_ne.
Qed.
End commit_facts.

(** C36: whatever fails, a commit changes nothing but its key and its staging key,
    never changes or removes an object that was at the key, reports success only
    when the whole body is there with the retention asked for, and reports "already
    exists" only when something was. *)
Theorem CommitExclusive_never_overwrites {B : Type} (ds : nat -> decision)
    (caps : Capabilities) (suffix key : string) (body : B) (size : Z) (opts : PutOptions)
    (s : gmap string (object B)) :
  let '(r, s') := run ds 0 (CommitExclusive caps suffix key body size opts) s in
  (forall k, k <> key -> k <> staging_key key suffix -> s' !! k = s !! k) /\
  (forall o, s !! key = Some o -> s' !! key = Some o /\ r <> Ok ()) /\
  (r = Ok () -> exists o, s' !! key = Some o /\ ob_body o = body /\ ob_size o = size /\
     retention_kept caps opts o) /\
  (forall e, r = Err e -> commit_is e ErrAlreadyExists = true -> is_Some (s !! key)).
Proof.
  pose proof (wp_run (fun _ => True) _ _ s ds 0 (fun _ => I)
    (commit_post_wp (fun _ => True) caps suffix key body size opts s)) as H.
  destruct (run ds 0 _ s) as [r s']. destruct H as (H1 & H2 & H3 & H4).
  split_and!; try done. intros k Hk Ht. apply H1. set_solver.
Qed.

Lemma CommitExclusive_healthy_wp {B : Type} (caps : Capabilities) (suffix key : string) (body : B) (size : Z)
    (opts : PutOptions) (s : gmap string (object B)) :
  s !! staging_key key suffix = None ->
  wp healthy (CommitExclusive caps suffix key body size opts) (fun r s' => match s !! key with
    | None => r = Ok () /\ exists o, s' = <[key := o]> s /\ ob_body o = body /\ ob_size o = size
    | Some _ => s' = s /\ exists e, r = Err e /\ commit_is e ErrAlreadyExists = true
    end) s.
Proof.
  intros Ht. pose proof (staging_key_ne key suffix) as Hne.
  unfold CommitExclusive, healthy. destruct (ConditionalPut caps).
  - wp_step; try done.
    + intros d _ Hn. rewrite Hn by done. simpl. eauto.
    + intros [o ->] _. split; eauto.
  - wp_step; try done. intros d _ _. set (o1 := put_object _ _ _). wp_step; try done.
    + intros o Ho Hn. rewrite lookup_insert_eq in Ho. injection Ho as <-.
      rewrite lookup_insert_ne in Hn by done. rewrite Hn, delete_insert_id by done.
      unfold lock_committed. case_match; [|by simpl; eauto 10].
      wp_step; try done.
      * intros o Ho. simpl. split; [done|]. rewrite lookup_insert_eq in Ho. injection Ho as <-.
        rewrite insert_insert_eq. eauto.
      * by rewrite lookup_insert_eq.
    + by rewrite lookup_insert_eq.
    + intros _ He. rewrite lookup_insert_ne in He by done. destruct He as [o ->].
      wp_step; try done. simpl. rewrite delete_insert_id by done. split; [done|]. eauto.
Qed.

(** On a backend that does not fail, a commit to a free key succeeds and leaves
    nothing but the new object behind; a commit to a taken key is refused as "already
    exists" and leaves the store as it was. *)
Theorem CommitExclusive_healthy {B : Type} (ds : nat -> decision)
    (caps : Capabilities) (suffix key : string) (body : B) (size : Z) (opts : PutOptions)
    (s : gmap string (object B)) :
  (forall i, healthy (ds i)) -> s !! staging_key key suffix = None ->
  let '(r, s') := run ds 0 (CommitExclusive caps suffix key body size opts) s in
  match s !! key with
  | None => r = Ok () /\ exists o, s' = <[key := o]> s /\ ob_body o = body /\ ob_size o = size
  | Some _ => s' = s /\ exists e, r = Err e /\ commit_is e ErrAlreadyExists = true
  end.
Proof.
  intros Hds Ht. pose proof (wp_run healthy _ _ s ds 0 Hds
    (CommitExclusive_healthy_wp caps suffix key body size opts s Ht)) as H.
  by destruct (run ds 0 _ s).
Qed.

Lemma CommitExclusive_healthy_witness :
  let d := {| d_fault := Normal; d_time := 5; d_order := fun l => l;
              d_order_perm := fun l => reflexivity l; d_listed := 0 |} in
  let o := {| IfNotExists := false; ContentLength := 0; RetainUntil := 9;
              RetentionMode := WORMNone |} in
  let p := CommitExclusive {| WORM := true; ConditionalPut := false |} "r" "k" "body" 4 o in
  (run (fun _ => d) 0 p ∅).1 = Ok ().
Proof.
  intros d o p.
  pose proof (CommitExclusive_healthy (fun _ => d) {| WORM := true; ConditionalPut := false |}
    "r" "k" "body" 4 o ∅ (fun _ => eq_refl) eq_refl) as H.
  fold p in H. destruct (run (fun _ => d) 0 p ∅) as [r s']. exact (proj1 H).
Defined.
