(* ===== verification/Lsn.v ===== *)
(** Log sequence numbers.

    The type and its printed form belong to a third-party package, so the code's
    use of it is an interface: a parser and a printer with the laws the code
    relies on.  [hex_lsn] is the documented format, two hexadecimal halves
    around a slash, used to evaluate the models. *)
From S2P Require Import Prelude GoString.
From Stdlib Require Import Ascii.

Local Open Scope string_scope.
Local Open Scope Z_scope.
#[local] Arguments String.append : simpl nomatch.

Definition valid_lsn (l : Z) : Prop := 0 <= l < 2 ^ 64.

Class LSN := {
  ParseLSN : string -> option Z;
  LSN_String : Z -> string;
  ParseLSN_range : forall s l, ParseLSN s = Some l -> valid_lsn l;
  ParseLSN_String : forall l, valid_lsn l -> ParseLSN (LSN_String l) = Some l;
  LSN_String_graphic : forall l, all_chars graphic (LSN_String l) = true;
  LSN_String_nonempty : forall l, LSN_String l <> ""
}.

(** ** The documented format *)

(** Leading zeros dropped, down to one digit. *)
Fixpoint strip_zeros (s : string) : string :=
  match s with
  | String a (String _ _ as s') => if Ascii.eqb a "0" then strip_zeros s' else s
  | _ => s
  end.

Definition hex_print (l : Z) : string :=
  strip_zeros (hexFixed 8 (l / 2 ^ 32)) ++ "/" ++ strip_zeros (hexFixed 8 l).

Definition hex_half (s : string) : option Z :=
  if (String.length s =? 0)%nat || (8 <? String.length s)%nat then None else hexParse 0 s.

Definition hex_parse (s : string) : option Z :=
  match CutByte s slash with
  | Some (x, y) =>
      match hex_half x, hex_half y with
      | Some hi, Some lo => Some (hi * 2 ^ 32 + lo)
      | _, _ => None
      end
  | None => None
  end.

Lemma hexParse_strip s : hexParse 0 (strip_zeros s) = hexParse 0 s.
Proof.
  induction s as [|a s IH]; [done|]. cbn [strip_zeros]. destruct s as [|b s]; [done|].
  destruct (Ascii.eqb_spec a "0") as [->|]; [|done]. rewrite IH. done.
Qed.

Lemma strip_zeros_length s : (String.length (strip_zeros s) <= String.length s)%nat.
Proof.
  induction s as [|a s IH]; [done|]. cbn [strip_zeros]. destruct s as [|b s]; [done|].
  case_match; simpl in *; lia.
Qed.

Lemma strip_zeros_nonempty s : s <> "" -> strip_zeros s <> "".
Proof.
  induction s as [|a s IH]; [done|]. cbn [strip_zeros]. destruct s as [|b s]; [done|].
  case_match; [intros _; by apply IH|done].
Qed.

Lemma strip_zeros_chars f s : all_chars f s = true -> all_chars f (strip_zeros s) = true.
Proof.
  induction s as [|a s IH]; [done|]. cbn [strip_zeros]. destruct s as [|b s]; [done|].
  intros H. case_match; [|done]. apply andb_true_iff in H as [_ H]. by apply IH.
Qed.

(** An upper-case hexadecimal digit. *)
Definition isHex (c : ascii) : bool :=
  isDigit c || ((65 <=? byte_of c) && (byte_of c <=? 70)).

Lemma isHex_digit d : 0 <= d < 16 -> isHex (hexDigit d) = true.
Proof.
  intros H.
  assert (d ∈ seqZ 0 16) as Hd by (apply elem_of_seqZ; lia).
  revert d Hd H. apply (Forall_forall (fun d => 0 <= d < 16 -> _)).
  vm_compute seqZ. repeat constructor.
Qed.

Lemma hexFixed_hex n z : all_chars isHex (hexFixed n z) = true.
Proof.
  revert z. induction n as [|n IH]; intros z; [done|]. cbn [hexFixed].
  rewrite all_chars_app, IH. cbn [all_chars].
  rewrite isHex_digit by (apply Z.mod_pos_bound; lia). done.
Qed.

Lemma isHex_graphic c : isHex c = true -> graphic c = true.
Proof. unfold isHex, isDigit, graphic. lia. Qed.

Lemma hex_half_print z :
  hex_half (strip_zeros (hexFixed 8 z)) = Some (z mod 2 ^ 32).
Proof.
  unfold hex_half.
  pose proof (strip_zeros_length (hexFixed 8 z)) as Hl. rewrite hexFixed_length in Hl.
  rewrite (proj2 (Nat.ltb_ge _ _)) by done.
  destruct (strip_zeros (hexFixed 8 z)) eqn:E.
  - exfalso. revert E. apply strip_zeros_nonempty. intros E.
    apply (f_equal String.length) in E. by rewrite hexFixed_length in E.
  - cbn [String.length Nat.eqb orb]. rewrite <- E, hexParse_strip, hexParse_hexFixed.
    f_equal.
Qed.

#[export] Instance hex_lsn : LSN.
Proof.
  refine {| ParseLSN := hex_parse; LSN_String := hex_print |}.
  - intros s l. unfold hex_parse, hex_half. intros H.
    destruct (CutByte s slash) as [[x y]|]; [|done].
    destruct (_ || _)%bool eqn:Ex; [done|]. destruct (hexParse 0 x) as [hi|] eqn:Hx; [|done].
    destruct (_ || _)%bool eqn:Ey in H; [done|]. destruct (hexParse 0 y) as [lo|] eqn:Hy; [|done].
    injection H as <-.
    apply hexParse_range in Hx; [|lia]. apply hexParse_range in Hy; [|lia].
    apply orb_false_iff in Ex as [_ Ex]. apply orb_false_iff in Ey as [_ Ey].
    apply Nat.ltb_ge in Ex, Ey.
    pose proof (Z.pow_le_mono_r 16 (Z.of_nat (String.length x)) 8 ltac:(lia) ltac:(lia)).
    pose proof (Z.pow_le_mono_r 16 (Z.of_nat (String.length y)) 8 ltac:(lia) ltac:(lia)).
    unfold valid_lsn. lia.
  - intros l Hl. unfold hex_parse, hex_print.
    rewrite CutByte_None_app.
    + assert (forall x, CutByte ("/" ++ x) slash = Some ("", x)) as -> by done.
      cbv beta iota. rewrite string_app_nil_r, !hex_half_print. f_equal. unfold valid_lsn in Hl.
      rewrite (Z.mod_small (l / 2 ^ 32)); [pose proof (Z.div_mod l (2 ^ 32)); lia|].
      split; [apply Z.div_pos; lia|apply Z.div_lt_upper_bound; lia].
    + apply (all_chars_CutByte isHex); [|done]. apply strip_zeros_chars, hexFixed_hex.
  - intros l. unfold hex_print. rewrite !all_chars_app.
    assert (forall z, all_chars graphic (strip_zeros (hexFixed 8 z)) = true) as H.
    { intros z. apply (all_chars_impl isHex); [apply isHex_graphic|].
      apply strip_zeros_chars, hexFixed_hex. }
    by rewrite !H.
  - intros l. unfold hex_print. by destruct (strip_zeros (hexFixed 8 (l / 2 ^ 32))).
Defined.
