(* ===== verification/Timeline.v ===== *)
(** Timeline history (internal/wal/timeline): parsing .history files, choosing
    the timeline to resume a stream on, and the store the files are kept in. *)
From S2P Require Import Prelude GoString Storage Worm Commit Lsn.
From Stdlib Require Import Ascii.

Local Open Scope string_scope.
Local Open Scope list_scope.
Local Open Scope Z_scope.
#[local] Arguments String.append : simpl nomatch.

(** ** Parsing *)

Record Switch := {
  Timeline : Z;
  SwitchPoint : Z;
  Reason : string
}.

Inductive history_err :=
| ShortLine (line : Z)
| BadTimeline (line : Z)
| BadSwitchPoint (line : Z)
| NotIncreasing (line : Z)
| LineTooLong.

Definition newline : ascii := Ascii.ascii_of_N 10.
Definition tab : ascii := Ascii.ascii_of_N 9.

(** The lines a [bufio.Scanner] yields: the text between newlines, without an
    empty last one. *)
Fixpoint drop_last_empty (l : list string) : list string :=
  match l with
  | [] => []
  | [x] => if String.eqb x "" then [] else [x]
  | x :: l => x :: drop_last_empty l
  end.

Definition scan_lines (content : string) : list string :=
  drop_last_empty (SplitByte content newline).

(** The scanner's buffer: a line that does not fit with its newline ends it. *)
Definition max_token : Z := Z.shiftl 1 20.

Section history.
Context `{L : LSN}.

(** The loop body of [ParseHistory] on one line: nothing, an entry or an error.
    [TrimSpace] also removes the carriage return the scanner drops. *)
Definition parse_line (line : Z) (out : list Switch) (text : string)
    : result history_err (option Switch) :=
  let s := TrimSpace text in
  if String.eqb s "" || HasPrefix s "#" then Ok None
  else
    match Fields s with
    | f0 :: f1 :: rest =>
        match ParseUint f0 32 with
        | None => Err (BadTimeline line)
        | Some tli =>
            if tli =? 0 then Err (BadTimeline line)
            else
              match ParseLSN f1 with
              | None => Err (BadSwitchPoint line)
              | Some lsn =>
                  let e := {| Timeline := tli; SwitchPoint := lsn; Reason := Join rest " " |} in
                  match last out with
                  | Some p => if Timeline e <=? Timeline p then Err (NotIncreasing line)
                              else Ok (Some e)
                  | None => Ok (Some e)
                  end
              end
        end
    | _ => Err (ShortLine line)
    end.

Fixpoint parse_lines (line : Z) (out : list Switch) (ls : list string)
    : result history_err (list Switch) :=
  match ls with
  | [] => Ok out
  | l :: ls =>
      if max_token <=? Z.of_nat (String.length l) then Err LineTooLong
      else
        match parse_line line out l with
        | Err e => Err e
        | Ok None => parse_lines (line + 1) out ls
        | Ok (Some e) => parse_lines (line + 1) (out ++ [e]) ls
        end
  end.

Definition ParseHistory (content : string) : result history_err (list Switch) :=
  parse_lines 1 [] (scan_lines content).
End history.

(** ** Choosing a timeline *)

Definition segmentStart (lsn segSize : Z) : Z :=
  if segSize <=? 0 then lsn else u64 lsn / u64 segSize * u64 segSize.

Fixpoint Containing (history : list Switch) (current lsn segSize : Z) : Z :=
  match history with
  | [] => current
  | e :: history =>
      if current <=? Timeline e then Containing history current lsn segSize
      else if segmentStart lsn segSize <? segmentStart (SwitchPoint e) segSize
      then Timeline e
      else Containing history current lsn segSize
  end.

Fixpoint leaves_at (best : option Z) (history : list Switch) (ancestor : Z) : option Z :=
  match history with
  | [] => best
  | e :: history =>
      if ancestor <? Timeline e then best
      else leaves_at (Some (SwitchPoint e)) history ancestor
  end.

Definition LeavesAt (history : list Switch) (ancestor : Z) : option Z :=
  leaves_at None history ancestor.

(** ** The store *)

Definition MaxMetadataBytes : Z := Z.shiftl 1 30.

Definition Path (deployment : string) (tli : Z) : string :=
  "wal/" ++ deployment ++ "/timelines/" ++ FormatUint tli ++ ".history".

Inductive timeline_err :=
| EmptyDeployment
| ZeroTimeline
| TL_Storage (e : serr)
| TL_Oversized
| TL_Install (e : commit_err)
| Mismatch (existing incoming : string).

(** [Store.read]: the object's bytes, within the metadata limit. *)
Definition read (key : string) : prog string (result timeline_err string) :=
  let* r := sGet key in
  match r with
  | Err e => Ret (Err (TL_Storage e))
  | Ok body =>
      match ReadAllLimited body MaxMetadataBytes with
      | None => Ret (Err TL_Oversized)
      | Some b => Ret (Ok b)
      end
  end.

(** [storage.WORMMode(s.worm.Mode)]. *)
Definition worm_mode (p : option WORMPolicy) : WORMMode :=
  match p with
  | Some p => if String.eqb (Mode p) "compliance" then WORMCompliance
              else if String.eqb (Mode p) "governance" then WORMGovernance else WORMNone
  | None => WORMNone
  end.

(** The options of the first write: the retention deadline is read off the clock
    when the repository has a policy. *)
Definition put_options (worm : option WORMPolicy) (size : Z) : prog string PutOptions :=
  if negb (WORM_IsZero worm) then
    let* t := now in
    Ret {| IfNotExists := false; ContentLength := size;
           RetainUntil := WORM_RetainUntil worm t; RetentionMode := worm_mode worm |}
  else
    Ret {| IfNotExists := false; ContentLength := size;
           RetainUntil := Time.zero; RetentionMode := WORMNone |}.

Definition size_of (content : string) : Z := Z.of_nat (String.length content).

Definition Put (caps : Capabilities) (worm : option WORMPolicy) (suffix deployment : string)
    (tli : Z) (content : string) : prog string (result timeline_err unit) :=
  if String.eqb deployment "" then Ret (Err EmptyDeployment)
  else if tli =? 0 then Ret (Err ZeroTimeline)
  else
    let key := Path deployment tli in
    let* st := sStat key in
    match st with
    | Ok _ =>
        let* ex := read key in
        match ex with
        | Err e => Ret (Err e)
        | Ok existing =>
            if String.eqb existing content then Ret (Ok ())
            else Ret (Err (Mismatch existing content))
        end
    | Err ErrNotFound =>
        let* opts := put_options worm (size_of content) in
        let* c := CommitExclusive caps suffix key content (size_of content) opts in
        match c with
        | Ok _ => Ret (Ok ())
        | Err e =>
            if commit_is e ErrAlreadyExists then
              let* ex := read key in
              match ex with
              | Err _ => Ret (Err (TL_Install e))
              | Ok existing =>
                  if String.eqb existing content then Ret (Ok ())
                  else Ret (Err (Mismatch existing content))
              end
            else Ret (Err (TL_Install e))
        end
    | Err e => Ret (Err (TL_Storage e))
    end.

Definition Get (deployment : string) (tli : Z) : prog string (result timeline_err string) :=
  if String.eqb deployment "" then Ret (Err EmptyDeployment)
  else read (Path deployment tli).

(** ** Parsing: soundness *)

(** Timeline ids strictly increase along a history. *)
Definition increasing (h : list Switch) : Prop :=
  StronglySorted (fun a b => Timeline a < Timeline b) h.

Lemma increasing_snoc h e :
  increasing h -> (forall p, last h = Some p -> Timeline p < Timeline e) -> increasing (h ++ [e]).
Proof.
  unfold increasing. induction 1 as [|a h Hh IH Ha]; intros Hl; simpl; [by repeat constructor|].
  assert (Timeline a < Timeline e) as Hae.
  { destruct h as [|b h]; [by apply Hl|]. destruct (last (b :: h)) as [p|] eqn:E.
    - rewrite Forall_forall in Ha. apply last_Some_elem_of in E as Hp.
      specialize (Ha p Hp). specialize (Hl p E). lia.
    - by apply last_None in E. }
  constructor.
  - apply IH. intros p Hp. apply Hl. destruct h; [done|exact Hp].
  - apply Forall_app. split; [done|]. by constructor.
Qed.

Definition valid_switch (e : Switch) : Prop :=
  0 < Timeline e < 2 ^ 32 /\ valid_lsn (SwitchPoint e).

Section parsing.
Context `{L : LSN}.

Lemma parse_line_sound line out text e :
  parse_line line out text = Ok (Some e) ->
  valid_switch e /\ forall p, last out = Some p -> Timeline p < Timeline e.
Proof.
  unfold parse_line. destruct (_ || _); [done|].
  destruct (Fields (TrimSpace text)) as [|f0 [|f1 rest]]; [done..|].
  destruct (ParseUint f0 32) as [tli|] eqn:Ht; [|done]. apply ParseUint_range in Ht.
  destruct (Z.eqb_spec tli 0); [done|].
  destruct (ParseLSN f1) as [lsn|] eqn:Hl; [|done]. apply ParseLSN_range in Hl.
  assert (valid_switch {| Timeline := tli; SwitchPoint := lsn; Reason := Join rest " " |})
    by (split; [simpl; lia|done]).
  destruct (last out) as [p|]; cbn [Timeline].
  - destruct (Z.leb_spec tli (Timeline p)); [done|]. intros [= <-].
    split; [done|]. by intros ? [= <-].
  - intros [= <-]. done.
Qed.

Lemma parse_lines_sound ls line out h :
  Forall valid_switch out -> increasing out -> parse_lines line out ls = Ok h ->
  Forall valid_switch h /\ increasing h.
Proof.
  revert line out. induction ls as [|l ls IH]; intros line out Hv Hi; simpl; [by intros [= <-]|].
  destruct (max_token <=? _); [done|].
  destruct (parse_line line out l) as [[e|]|] eqn:E; [|by apply IH|done].
  apply parse_line_sound in E as [He Hl]. apply IH.
  - apply Forall_app. auto.
  - by apply increasing_snoc.
Qed.

(** A history that parses lists valid timelines, each with a valid switchpoint,
    in strictly increasing order. *)
Theorem ParseHistory_sound (content : string) (h : list Switch) :
  ParseHistory content = Ok h -> Forall valid_switch h /\ increasing h.
Proof. apply parse_lines_sound; constructor. Qed.

(** ** Parsing: what PostgreSQL writes parses back *)

(** A line as PostgreSQL writes it: the three fields separated by tabs, the
    reason as words. *)
Definition history_line (e : Switch) : string :=
  FormatUint (Timeline e) ++ String tab (LSN_String (SwitchPoint e) ++ String tab (Reason e)).

Definition history_text (h : list Switch) : string :=
  foldr (fun e s => history_line e ++ String newline s)%string "" h.

(** A reason of visible ASCII words. *)
Definition worded (r : string) : Prop :=
  exists l, r = Join l " " /\ l <> [] /\ Forall word l.
(** The characters of a line: blanks and visible ASCII. *)
Definition line_char (c : ascii) : bool := graphic c || Ascii.eqb c " " || Ascii.eqb c tab.

Lemma graphic_line_char c : graphic c = true -> line_char c = true.
Proof. unfold line_char. by intros ->. Qed.

Lemma line_char_plain c : line_char c = true -> plain c = true.
Proof.
  unfold line_char. intros [[Hg| ->%Ascii.eqb_eq]%orb_true_iff| ->%Ascii.eqb_eq]%orb_true_iff;
    [by apply graphic_plain|done|done].
Qed.

Lemma history_line_chars e : 0 <= Timeline e -> worded (Reason e) ->
  all_chars line_char (history_line e) = true.
Proof.
  intros Ht (ws & Hr & _ & Hws). unfold history_line. rewrite Hr.
  rewrite all_chars_app. cbn [all_chars]. rewrite all_chars_app. cbn [all_chars].
  rewrite (all_chars_impl graphic line_char _ graphic_line_char (FormatUint_graphic _ Ht)).
  rewrite (all_chars_impl graphic line_char _ graphic_line_char (LSN_String_graphic _)).
  by rewrite (Join_chars line_char ws eq_refl (words_chars _ ws graphic_line_char Hws)).
Qed.

Lemma history_line_trim e : 0 <= Timeline e -> worded (Reason e) ->
  TrimSpace (history_line e) = history_line e.
Proof.
  intros Ht Hr. pose proof (history_line_chars e Ht Hr) as Hall.
  destruct Hr as (ws & Hr & Hne & Hws). revert Hall. unfold history_line. rewrite Hr.
  destruct (Join_snoc ws Hne Hws) as (t & c & -> & _ & Hc).
  pose proof (FormatUint_graphic (Timeline e) Ht) as Hf.
  pose proof (FormatUint_nonempty (Timeline e) Ht) as Hfne.
  destruct (FormatUint (Timeline e)) as [|a f]; [done|].
  apply andb_true_iff in Hf as [Ha _].
  set (m := (f ++ String tab (LSN_String (SwitchPoint e) ++ String tab t))%string).
  assert (forall x y : string, (x ++ String tab (LSN_String (SwitchPoint e) ++ String tab (t ++ y))
    = (x ++ String tab (LSN_String (SwitchPoint e) ++ String tab t)) ++ y)%string) as Hass.
  { intros x y. rewrite string_app_assoc. cbn [String.append]. by rewrite string_app_assoc. }
  cbn [String.append]. rewrite Hass. fold m. intros Hall. apply TrimSpace_plain; [done| |done].
  apply (all_chars_impl line_char); [apply line_char_plain|].
  cbn [all_chars] in Hall. apply andb_true_iff in Hall as [_ Hall].
  rewrite all_chars_app in Hall. by apply andb_true_iff in Hall as [? _].
Qed.

Lemma parse_history_line line out e : valid_switch e -> worded (Reason e) ->
  (forall p, last out = Some p -> Timeline p < Timeline e) ->
  parse_line line out (history_line e) = Ok (Some e).
Proof.
  intros [Ht Hl] (ws & Hr & Hne & Hws) Hlast.
  pose proof (FormatUint_graphic (Timeline e) ltac:(lia)) as Hf.
  pose proof (FormatUint_nonempty (Timeline e) ltac:(lia)) as Hfne.
  pose proof (FormatUint_digits (Timeline e) ltac:(lia)) as Hfd.
  assert (Fields (history_line e) = FormatUint (Timeline e) :: LSN_String (SwitchPoint e) :: ws) as HF.
  { unfold Fields, history_line. rewrite fields_word by done. rewrite fields_sep by done.
    rewrite fields_word by apply LSN_String_graphic.
    rewrite fields_sep by (done || apply LSN_String_nonempty).
    rewrite Hr. f_equal. f_equal. by apply Fields_Join. }
  assert (TrimSpace (history_line e) = history_line e) as HT
    by (apply history_line_trim; [lia|by exists ws]).
  unfold parse_line. rewrite HT, HF, ParseUint_FormatUint, ParseLSN_String by (done || lia).
  destruct (String.eqb_spec (history_line e) "") as [E|_]; [by rewrite E in HF|].
  replace (HasPrefix (history_line e) "#") with false; cycle 1.
  { unfold history_line. destruct (FormatUint (Timeline e)) as [|a f]; [done|].
    cbn [String.append HasPrefix]. destruct (Ascii.eqb_spec "#"%char a) as [<-|]; [|done]. done. }
  cbn [orb]. destruct (Z.eqb_spec (Timeline e) 0); [lia|].
  rewrite <- Hr. destruct e as [tl sp r]. cbn [Timeline SwitchPoint Reason] in *.
  destruct (last out) as [p|]; [|done].
  destruct (Z.leb_spec tl (Timeline p)); [|done]. specialize (Hlast p eq_refl). lia.
Qed.

Lemma scan_history h : Forall (fun e => 0 <= Timeline e /\ worded (Reason e)) h ->
  scan_lines (history_text h) = map history_line h.
Proof.
  unfold scan_lines. intros Hh.
  assert (SplitByte (history_text h) newline = (map history_line h ++ [""])%list) as ->.
  { induction Hh as [|e h [Ht Hr] Hh IH]; [done|].
    change (history_text (e :: h)) with (history_line e ++ String newline (history_text h))%string.
    rewrite SplitByte_app; [by rewrite IH|].
    apply (all_chars_CutByte line_char); [by apply history_line_chars|done]. }
  induction h as [|e h IH]; [done|]. apply Forall_cons in Hh as [_ Hh].
  cbn. rewrite IH by done. destruct h; [done|done].
Qed.

(** The text PostgreSQL writes for a history parses back to it, reasons
    included, when no line overflows the scanner's buffer. *)
Theorem ParseHistory_roundtrip (h : list Switch) :
  Forall valid_switch h -> increasing h -> Forall (fun e => worded (Reason e)) h ->
  Forall (fun e => Z.of_nat (String.length (history_line e)) < max_token) h ->
  ParseHistory (history_text h) = Ok h.
Proof.
  intros Hv Hi Hr Hlen. unfold ParseHistory. rewrite scan_history; cycle 1.
  { rewrite Forall_forall in *. intros e He. specialize (Hv e He) as [? _]. split; [lia|auto]. }
  enough (Hgo : forall post pre line, h = pre ++ post ->
            parse_lines line pre (map history_line post) = Ok h) by exact (Hgo h [] 1 eq_refl).
  intros post. induction post as [|e post IH]; intros pre line ->.
  - cbn. by rewrite app_nil_r.
  - cbn [map parse_lines]. rewrite !Forall_app, !Forall_cons in *.
    destruct Hv as (_ & Hv & _), Hr as (_ & Hr & _), Hlen as (_ & Hl & _).
    rewrite (proj2 (Z.leb_gt _ _)) by done.
    rewrite parse_history_line; [|done|done|].
    + apply IH. by rewrite <- app_assoc.
    + intros p Hp. apply last_Some_elem_of in Hp. unfold increasing in Hi.
      apply StronglySorted_app in Hi as (Hi & _). apply (Hi p e); [done|left].
Qed.

End parsing.

(** A history of two promotions. *)
Definition two_promotions : list Switch :=
  [{| Timeline := 27; SwitchPoint := 0xA3079D40; Reason := "no recovery target specified" |};
   {| Timeline := 28; SwitchPoint := 0xA60B6668; Reason := "no recovery target specified" |}].

Lemma two_promotions_ok :
  Forall valid_switch two_promotions /\ increasing two_promotions /\
  Forall (fun e => worded (Reason e)) two_promotions /\
  Forall (fun e => Z.of_nat (String.length (history_line e)) < max_token) two_promotions.
Proof.
  assert (worded "no recovery target specified") as Hw.
  { exists ["no"; "recovery"; "target"; "specified"]. split; [done|]. split; [done|].
    repeat constructor; done. }
  split_and!.
  - repeat constructor; done.
  - repeat constructor; done.
  - by repeat constructor.
  - repeat constructor; vm_compute; done.
Qed.

Lemma ParseHistory_roundtrip_witness :
  ParseHistory (history_text two_promotions) = Ok two_promotions.
Proof.
  destruct two_promotions_ok as (H1 & H2 & H3 & H4).
  exact (ParseHistory_roundtrip two_promotions H1 H2 H3 H4).
Defined.

Lemma ParseHistory_sound_witness :
  exists h, ParseHistory (history_text two_promotions) = Ok h /\ increasing h.
Proof.
  exists two_promotions. split; [vm_compute; reflexivity|].
  refine (proj2 (ParseHistory_sound (history_text two_promotions) two_promotions _)).
  vm_compute; reflexivity.
Defined.

(** ** Choosing a timeline: whole segments *)

Section containing.
Implicit Types (h pre post : list Switch) (current lsn segSize : Z).

(** An entry [Containing] passes over. *)
Definition passed (current lsn segSize : Z) (e : Switch) : Prop :=
  current <= Timeline e \/ segmentStart (SwitchPoint e) segSize <= segmentStart lsn segSize.

Lemma Containing_cases h current lsn segSize :
  (Containing h current lsn segSize = current /\ Forall (passed current lsn segSize) h) \/
  (exists pre e post, h = pre ++ e :: post /\ Containing h current lsn segSize = Timeline e /\
     Forall (passed current lsn segSize) pre /\ Timeline e < current /\
     segmentStart lsn segSize < segmentStart (SwitchPoint e) segSize).
Proof.
  induction h as [|e h IH]; cbn [Containing]; [by left|].
  destruct (Z.leb_spec current (Timeline e)) as [Hc|Hc].
  2: destruct (Z.ltb_spec (segmentStart lsn segSize) (segmentStart (SwitchPoint e) segSize)) as [Hs|Hs].
  2: by right; exists [], e, h; split_and!.
  all: destruct IH as [[E Hp]|(pre & e' & post & -> & E & Hp & H1 & H2)];
    [left; split; [done|]; constructor; [|done]; unfold passed; auto|].
  all: right; exists (e :: pre), e', post; split_and!; try done;
    constructor; [unfold passed; auto|done].
Qed.

Lemma passed_mono current lsn lsn' segSize e :
  segmentStart lsn segSize <= segmentStart lsn' segSize ->
  passed current lsn segSize e -> passed current lsn' segSize e.
Proof. unfold passed. lia. Qed.

Lemma segmentStart_idem lsn segSize : valid_lsn lsn -> 0 < segSize < 2 ^ 63 ->
  segmentStart (segmentStart lsn segSize) segSize = segmentStart lsn segSize.
Proof.
  unfold valid_lsn, segmentStart. intros Hl Hs.
  rewrite !(proj2 (Z.leb_gt _ _)) by lia. rewrite (u64_id lsn), (u64_id segSize) by lia.
  pose proof (Z.mul_div_le lsn segSize). pose proof (Z.div_pos lsn segSize).
  rewrite u64_id by lia. rewrite Z.div_mul by lia. done.
Qed.

(** Streaming a historic timeline archives its whole segments, so the next resume
    is at the start of the segment its switchpoint is in.  [resume_walk] lists the
    timelines a stream opened at [lsn] is served from, one per reconnect, until it
    is on the live one. *)
Fixpoint resume_walk (fuel : nat) (h : list Switch) (current lsn segSize : Z) : option (list Z) :=
  match fuel with
  | O => None
  | S fuel =>
      let t := Containing h current lsn segSize in
      if t =? current then Some [t]
      else
        match find (fun e => Timeline e =? t) h with
        | Some e =>
            match resume_walk fuel h current (segmentStart (SwitchPoint e) segSize) segSize with
            | Some l => Some (t :: l)
            | None => None
            end
        | None => None
        end
  end.

Lemma find_increasing pre e post : increasing (pre ++ e :: post) ->
  find (fun x => Timeline x =? Timeline e) (pre ++ e :: post) = Some e.
Proof.
  unfold increasing. induction pre as [|a pre IH]; cbn [app find]; intros H.
  - by rewrite Z.eqb_refl.
  - inversion H as [|? ? Hs Ha]; subst. rewrite Forall_app, Forall_cons in Ha.
    destruct Ha as (_ & Ha & _). destruct (Z.eqb_spec (Timeline a) (Timeline e)); [lia|].
    by apply IH.
Qed.

Lemma resume_walk_from fuel pre post current lsn segSize :
  0 < segSize < 2 ^ 63 -> Forall valid_switch (pre ++ post) -> increasing (pre ++ post) ->
  Forall (passed current lsn segSize) pre -> (length post < fuel)%nat ->
  exists l, resume_walk fuel (pre ++ post) current lsn segSize = Some (l ++ [current]) /\
    sublist l (map Timeline post) /\ Forall (fun t => t < current) l.
Proof.
  intros Hseg. revert pre post lsn. induction fuel as [|fuel IH]; [lia|].
  intros pre post lsn Hv Hi Hp Hf. cbn [resume_walk]. cbv zeta.
  destruct (Containing_cases (pre ++ post) current lsn segSize)
    as [[E _]|(pre' & e & post' & Eh & E & Hp' & Hc & Hs)].
  - exists []. rewrite E, Z.eqb_refl. split_and!; [done|apply sublist_nil_l|done].
  - rewrite E. destruct (Z.eqb_spec (Timeline e) current); [lia|].
    rewrite Eh, find_increasing by (by rewrite <- Eh).
    assert (exists q, pre' = pre ++ q /\ post = q ++ e :: post') as (q & Eq & Epost).
    { symmetry in Eh. apply app_eq_app in Eh as [l [(-> & E2)|(E1 & E2)]]; [by exists l|].
      destruct l as [|x l].
      - rewrite app_nil_r in E1. subst. exists []. by rewrite app_nil_r.
      - injection E2 as <- ->. subst pre. apply Forall_app in Hp as [_ Hp].
        apply Forall_cons in Hp as [[?|?] _]; lia. }
    subst pre' post.
    assert (valid_lsn (SwitchPoint e)) as Hsp.
    { rewrite !Forall_app, Forall_cons in Hv. destruct Hv as (_ & _ & [_ ?] & _). done. }
    destruct (IH ((pre ++ q) ++ [e]) post' (segmentStart (SwitchPoint e) segSize))
      as (l & Hw & Hsub & Hl).
    + rewrite <- !app_assoc in *. exact Hv.
    + rewrite <- !app_assoc in *. exact Hi.
    + rewrite Forall_app. split.
      * eapply Forall_impl; [exact Hp'|]. intros x. apply passed_mono.
        rewrite segmentStart_idem by done. lia.
      * constructor; [|constructor]. right. by rewrite segmentStart_idem.
    + rewrite length_app in Hf. simpl in Hf. lia.
    + exists (Timeline e :: l). rewrite <- (app_assoc _ [e]) in Hw. cbn [app] in Hw.
      rewrite Hw. split_and!; [done| |by constructor].
      rewrite map_app. apply sublist_inserts_l. by constructor.
Qed.
End containing.

(** The timeline chosen for a resume position is the first ancestor that still
    has a whole segment from there to its switchpoint, or the live timeline when
    every ancestor is exhausted. *)
Theorem Containing_first_whole_segment (h : list Switch) (current lsn segSize : Z) :
  (Containing h current lsn segSize = current /\
   forall e, e ∈ h -> Timeline e < current ->
     segmentStart (SwitchPoint e) segSize <= segmentStart lsn segSize) \/
  (exists pre e post, h = pre ++ e :: post /\ Containing h current lsn segSize = Timeline e /\
     Timeline e < current /\
     segmentStart lsn segSize < segmentStart (SwitchPoint e) segSize /\
     forall e', e' ∈ pre -> Timeline e' < current ->
       segmentStart (SwitchPoint e') segSize <= segmentStart lsn segSize).
Proof.
  destruct (Containing_cases h current lsn segSize) as [[E Hp]|(pre & e & post & Eh & E & Hp & H1 & H2)].
  - left. split; [done|]. rewrite Forall_forall in Hp. intros e He Hc.
    destruct (Hp e He); lia.
  - right. exists pre, e, post. split_and!; try done. rewrite Forall_forall in Hp.
    intros e' He Hc. destruct (Hp e' He); lia.
Qed.

(** Reconnecting never loops: from any position, resuming each time at the end of
    the whole segments archived reaches the live timeline after at most one stream per
    ancestor, each on a later timeline than the one before. *)
Theorem resume_walk_reaches_live (h : list Switch) (current lsn segSize : Z) :
  0 < segSize < 2 ^ 63 -> Forall valid_switch h -> increasing h ->
  exists l, resume_walk (S (length h)) h current lsn segSize = Some (l ++ [current]) /\
    sublist l (map Timeline h) /\ StronglySorted Z.lt (l ++ [current]).
Proof.
  intros Hs Hv Hi.
  destruct (resume_walk_from (S (length h)) [] h current lsn segSize) as (l & Hw & Hsub & Hl);
    try done; [lia|].
  exists l. split_and!; [done|done|]. apply StronglySorted_app. split_and!.
  - rewrite Forall_forall in Hl. intros x y Hx ->%list_elem_of_singleton. by apply Hl.
  - assert (StronglySorted Z.lt (map Timeline h)) as Hm.
    { clear -Hi. induction Hi as [|e h Hh IH He]; simpl; constructor; [done|]. by apply Forall_map. }
    clear -Hm Hsub. induction Hsub as [|x l k Hsub IH|x l k Hsub IH]; [done|..];
      inversion Hm as [|? ? Hk Hx]; subst; [|auto]. constructor; [auto|].
    rewrite Forall_forall in *. intros y Hy. apply Hx.
    by eapply sublist_subseteq.
  - by repeat constructor.
Qed.

Lemma resume_walk_reaches_live_witness :
  exists l, resume_walk 3 two_promotions 29 0xA1000000 0x1000000 = Some (l ++ [29]) /\
    sublist l [27; 28].
Proof.
  destruct two_promotions_ok as (H1 & H2 & _ & _).
  destruct (resume_walk_reaches_live two_promotions 29 0xA1000000 0x1000000) as (l & Hw & Hl & _);
    [lia|exact H1|exact H2|].
  exists l. split; [exact Hw|exact Hl].
Defined.

(** ** Where a lineage leaves an ancestor *)

Lemma leaves_at_spec best h ancestor : increasing h ->
  leaves_at best h ancestor =
  match last (filter (fun e => Timeline e <= ancestor) h) with
  | Some e => Some (SwitchPoint e)
  | None => best
  end.
Proof.
  intros Hi. revert best. induction Hi as [|e h Hh IH He]; intros best; [done|].
  cbn [leaves_at]. rewrite filter_cons.
  destruct (Z.ltb_spec ancestor (Timeline e)), (decide (Timeline e <= ancestor)); try lia.
  - replace (filter (fun e => Timeline e <= ancestor) h) with (@nil Switch); [done|].
    destruct (filter (fun e => Timeline e <= ancestor) h) as [|x l] eqn:E; [done|].
    assert (x ∈ filter (fun e => Timeline e <= ancestor) h) as [Hx Hin]%list_elem_of_filter
      by (rewrite E; left).
    rewrite Forall_forall in He. specialize (He x Hin). lia.
  - rewrite IH. destruct (filter (fun e => Timeline e <= ancestor) h) as [|x k]; [done|].
    rewrite last_cons_cons. by destruct (last (x :: k)) eqn:E; [|apply last_None in E].
Qed.

(** A lineage stops sharing history with an ancestor at the switchpoint of its
    nearest entry at or below it; nothing is known exactly when every entry is above. *)
Theorem LeavesAt_nearest (h : list Switch) (ancestor : Z) :
  increasing h ->
  match LeavesAt h ancestor with
  | Some sp => exists e, e ∈ h /\ sp = SwitchPoint e /\ Timeline e <= ancestor /\
      forall e', e' ∈ h -> Timeline e' <= ancestor -> e' = e \/ Timeline e' < Timeline e
  | None => forall e, e ∈ h -> ancestor < Timeline e
  end.
Proof.
  intros Hi. unfold LeavesAt. rewrite leaves_at_spec by done.
  destruct (last (filter _ h)) as [e|] eqn:E.
  - apply last_Some in E as [l E].
    assert (e ∈ filter (fun e => Timeline e <= ancestor) h) as He by (rewrite E; set_solver).
    apply list_elem_of_filter in He as [Ha He]. exists e. split_and!; try done.
    intros e' He' Ha'.
    assert (e' ∈ l ++ [e]) as [Hl|Hl]%elem_of_app
      by (rewrite <- E; apply list_elem_of_filter; done).
    + right. assert (increasing (l ++ [e])) as Hs.
      { rewrite <- E. unfold increasing. clear -Hi. induction Hi as [|x h Hh IH Hx]; [constructor|].
        rewrite filter_cons. case_decide; [|done]. constructor; [done|].
        rewrite Forall_forall in *. intros y [_ Hy]%list_elem_of_filter. auto. }
      apply StronglySorted_app in Hs as (Hs & _). apply Hs; [done|left].
    + left. by apply list_elem_of_singleton in Hl.
  - apply last_None in E. intros e He. destruct (Z.lt_ge_cases ancestor (Timeline e)); [done|].
    assert (e ∈ filter (fun e => Timeline e <= ancestor) h) as Hf
      by (apply list_elem_of_filter; done).
    rewrite E in Hf. by apply not_elem_of_nil in Hf.
Qed.

Lemma LeavesAt_nearest_witness :
  exists e, e ∈ two_promotions /\ 0xA3079D40 = SwitchPoint e /\ Timeline e <= 27.
Proof.
  destruct two_promotions_ok as (_ & H & _).
  destruct (LeavesAt_nearest two_promotions 27 H) as (e & H1 & H2 & H3 & _).
  exists e. split; [exact H1|]. split; [exact H2|exact H3].
Defined.

(** ** The store never rewrites history *)

Lemma read_wp D key (Q : result timeline_err string -> gmap string (object string) -> Prop) s :
  (forall o, s !! key = Some o -> Q (Ok (ob_body o)) s) ->
  (forall e, (forall x y, e <> Mismatch x y) -> Q (Err e) s) ->
  wp D (read key) Q s.
Proof.
  intros H1 H2. unfold read. wp_step.
  - intros o Ho. unfold ReadAllLimited.
    destruct (_ <? _); simpl; [by apply H2|by apply H1].
  - intros _. by apply H2.
  - intros. by apply H2.
Qed.

Lemma put_options_wp D worm size (Q : PutOptions -> gmap string (object string) -> Prop) s :
  (forall opts, Q opts s) -> wp D (put_options worm size) Q s.
Proof.
  intros H. unfold put_options. destruct (WORM_IsZero worm); [apply H|].
  cbn [negb]. wp_step. intros. apply H.
Qed.

(** What a [Put] guarantees, faults included. *)
Definition put_post (key suffix content : string) (s : gmap string (object string))
    (r : result timeline_err unit) (s' : gmap string (object string)) : Prop :=
  (forall k, k <> key -> k <> staging_key key suffix -> s' !! k = s !! k) /\
  (forall o, s !! key = Some o -> s' !! key = Some o) /\
  (r = Ok () -> exists o, s' !! key = Some o /\ ob_body o = content) /\
  (forall x y, r = Err (Mismatch x y) ->
     exists o, s !! key = Some o /\ ob_body o = x /\ y = content /\ x <> content).

(** The comparison with the stored bytes, after a store [s'] reached from [s]. *)
Lemma compare_wp D key suffix content s s' err :
  (forall k, k <> key -> k <> staging_key key suffix -> s' !! k = s !! k) ->
  is_Some (s !! key) -> (forall o, s !! key = Some o -> s' !! key = Some o) ->
  (forall e, (forall x y, e <> Mismatch x y) -> forall x y, err e <> Mismatch x y) ->
  wp D (let* ex := read key in
        match ex with
        | Err e => Ret (Err (err e))
        | Ok existing => if String.eqb existing content then Ret (Ok ())
                         else Ret (Err (Mismatch existing content))
        end) (put_post key suffix content s) s'.
Proof.
  intros H1 [o Ho] H2 H3. specialize (H2 o Ho). wp_step. apply read_wp.
  - intros o' Ho'. rewrite H2 in Ho'. injection Ho' as <-.
    destruct (String.eqb_spec (ob_body o) content); split_and!; try done; try congruence.
    + by exists o.
    + intros x y [= <- <-]. by exists o.
  - intros e He. split_and!; try done; try congruence.
    intros x y [= E]. by destruct (H3 e He x y).
Qed.

Lemma Put_wp D caps worm suffix deployment tli content s :
  wp D (Put caps worm suffix deployment tli content)
    (put_post (Path deployment tli) suffix content s) s.
Proof.
  unfold Put. set (key := Path deployment tli).
  assert (forall e, (forall x y, e <> Mismatch x y) -> put_post key suffix content s (Err e) s) as Herr.
  { intros e He. split_and!; try done. intros x y [= E]. by destruct (He x y). }
  destruct (String.eqb deployment ""); [by apply Herr|]. destruct (tli =? 0); [by apply Herr|].
  wp_step.
  - intros o Ho. apply (compare_wp _ key suffix content s s (fun e => e)); eauto.
  - intros Hn. wp_step. apply put_options_wp. intros opts. wp_step.
    eapply wp_mono; [|apply commit_post_wp]. intros [[]|e] s' (H1 & H2 & H3 & H4).
    + destruct (H3 eq_refl) as (o & Ho & Hb & _). split_and!; try done.
      * intros k Hk Ht. apply H1. set_solver.
      * congruence.
      * by exists o.
    + destruct (commit_is e ErrAlreadyExists) eqn:E; [by destruct (H4 e eq_refl E); congruence|].
      split_and!; try done; [|congruence].
      intros k Hk Ht. apply H1. set_solver.
  - intros. by apply Herr.
Qed.

(** Storing a timeline's history, whatever fails, changes no other key but its
    own staging key and never changes what was stored; it reports success only when
    the repository holds exactly the given bytes, and a mismatch only when it holds
    others, which it returns. *)
Theorem Put_never_rewrites (ds : nat -> decision) (caps : Capabilities)
    (worm : option WORMPolicy) (suffix deployment : string) (tli : Z) (content : string)
    (s : gmap string (object string)) :
  let key := Path deployment tli in
  let '(r, s') := run ds 0 (Put caps worm suffix deployment tli content) s in
  (forall k, k <> key -> k <> staging_key key suffix -> s' !! k = s !! k) /\
  (forall o, s !! key = Some o -> s' !! key = Some o) /\
  (r = Ok () -> exists o, s' !! key = Some o /\ ob_body o = content) /\
  (forall x y, r = Err (Mismatch x y) ->
     exists o, s !! key = Some o /\ ob_body o = x /\ y = content /\ x <> content).
Proof.
  intros key. pose proof (wp_run (fun _ => True) _ _ s ds 0 (fun _ => I)
    (Put_wp (fun _ => True) caps worm suffix deployment tli content s)) as H.
  destruct (run ds 0 _ s) as [r s']. exact H.
Qed.
