(* ===== verification/Hash.v ===== *)
(** Chunk hashes and chunk keys (internal/repo/hash.go, chunkkey.go, cas.go's
    [ParseChunkKey], gc.go's [parseHexHash]).

    A [Hash] is the 32 bytes of a SHA-256 digest read as a big-endian number, so
    [Compare] is the order of numbers; the digest itself is a parameter of the
    code that computes one. *)
From S2P Require Import Prelude GoString.
From Stdlib Require Import Ascii.

Local Open Scope string_scope.
Local Open Scope Z_scope.
#[local] Arguments String.append : simpl nomatch.

Definition Hash : Type := Z.

(** What 32 bytes can hold. *)
Definition is_hash (h : Hash) : Prop := 0 <= h < 2 ^ 256.

Definition Hash_String (h : Hash) : string := hexLow 64 h.

Definition Hash_IsZero (h : Hash) : bool := h =? 0.

Definition Hash_Compare (h o : Hash) : comparison := Z.compare h o.

Definition hash_less (h o : Hash) : bool := h <? o.

Definition sortHashes (hs : list Hash) : list Hash := stable_sort hash_less hs.

(** [UnmarshalText] and [parseHexHash]: exactly 64 hexadecimal digits, either case. *)
Definition parseHexHash (s : string) : option Hash :=
  if negb (String.length s =? 64)%nat then None else hexParse 0 s.

Definition ParseHash (s : string) : option Hash := parseHexHash s.

Definition ChunkKey (h : Hash) : string :=
  let s := Hash_String h in
  "chunks/sha256/" ++ stake 2 s ++ "/" ++ stake 2 (sdrop 2 s) ++ "/" ++ s ++ ".chk".

Definition chunk_prefix : string := "chunks/sha256/".
Definition chunk_suffix : string := ".chk".

Definition ParseChunkKey (key : string) : option Hash :=
  if (String.length key <? String.length chunk_prefix + 64 + String.length chunk_suffix)%nat then None
  else if negb (HasPrefix key chunk_prefix) then None
  else if negb (HasSuffix key chunk_suffix) then None
  else
    let rest := stake (String.length key - String.length chunk_suffix - String.length chunk_prefix)
                  (sdrop (String.length chunk_prefix) key) in
    if negb (String.length rest =? 2 + 1 + 2 + 1 + 64)%nat then None
    else
      match char_at 2 rest, char_at 5 rest with
      | Some c2, Some c5 =>
          if negb (Ascii.eqb c2 slash) || negb (Ascii.eqb c5 slash) then None
          else
            let hexHash := sdrop 6 rest in
            if negb (String.eqb (stake 2 hexHash) (stake 2 rest)) ||
               negb (String.eqb (stake 2 (sdrop 2 hexHash)) (stake 2 (sdrop 3 rest))) then None
            else hexParse 0 hexHash
      | _, _ => None
      end.

(** ** Round trips *)

Lemma parseHexHash_String h : is_hash h -> parseHexHash (Hash_String h) = Some h.
Proof.
  unfold is_hash, parseHexHash, Hash_String. intros Hh. rewrite hexLow_length.
  cbn [Nat.eqb negb]. rewrite hexParse_hexLow. f_equal. rewrite Z.mod_small; [done|].
  change (16 ^ Z.of_nat 64) with (2 ^ 256). lia.
Qed.

Lemma parseHexHash_range s h : parseHexHash s = Some h -> is_hash h.
Proof.
  unfold parseHexHash. destruct (String.length s =? 64)%nat eqn:E; [|done].
  apply Nat.eqb_eq in E. intros H. apply hexParse_range in H; [|lia]. rewrite E in H.
  unfold is_hash. change (2 ^ 256) with ((0 + 1) * 16 ^ Z.of_nat 64). done.
Qed.

Lemma ChunkKey_prefix h : HasPrefix (ChunkKey h) chunk_prefix = true.
Proof. apply HasPrefix_app. Qed.

Lemma ChunkKey_shape h : exists a b c d t,
  Hash_String h = String a (String b (String c (String d t))) /\ String.length t = 60%nat /\
  ChunkKey h = chunk_prefix ++ String a (String b (String slash (String c (String d
    (String slash (Hash_String h ++ chunk_suffix)))))).
Proof.
  unfold ChunkKey. pose proof (hexLow_length 64 h) as Hl. unfold Hash_String in *.
  destruct (hexLow 64 h) as [|a [|b [|c [|d t]]]]; try done.
  exists a, b, c, d, t. split; [done|]. split; [by injection Hl|]. done.
Qed.

Lemma ParseChunkKey_ChunkKey h : is_hash h -> ParseChunkKey (ChunkKey h) = Some h.
Proof.
  intros Hh. destruct (ChunkKey_shape h) as (a & b & c & d & t & Hs & Ht & Hk).
  set (rest := String a (String b (String slash (String c (String d (String slash (Hash_String h))))))).
  assert (ChunkKey h = (chunk_prefix ++ rest) ++ chunk_suffix) as Hk'.
  { rewrite Hk, string_app_assoc. reflexivity. }
  assert (String.length (Hash_String h) = 64%nat) as Hl by apply hexLow_length.
  assert (String.length rest = 70%nat) as Hr by (unfold rest; cbn; lia).
  unfold ParseChunkKey. rewrite Hk'. rewrite HasSuffix_app, string_app_assoc, HasPrefix_app, sdrop_app.
  rewrite !string_app_length, Hr. change (String.length chunk_prefix) with 14%nat.
  change (String.length chunk_suffix) with 4%nat. cbn [Nat.ltb Nat.leb negb Nat.add Nat.sub].
  rewrite <- Hr, stake_app, Hr. cbn [Nat.eqb negb Nat.add].
  unfold rest at 1 2. cbn [char_at String.get Ascii.eqb]. rewrite !Ascii.eqb_refl. cbn [negb orb].
  change (sdrop 6 rest) with (Hash_String h). unfold rest. rewrite Hs. cbn [sdrop stake].
  rewrite !String.eqb_refl. cbn [negb orb]. rewrite <- Hs.
  pose proof (parseHexHash_String h Hh) as Hp. unfold parseHexHash in Hp. by rewrite Hl in Hp.
Qed.

Lemma ChunkKey_inj h h' : is_hash h -> is_hash h' -> ChunkKey h = ChunkKey h' -> h = h'.
Proof.
  intros Hh Hh' E. pose proof (ParseChunkKey_ChunkKey h Hh) as H1.
  rewrite E, ParseChunkKey_ChunkKey in H1 by done. congruence.
Qed.

Lemma ParseChunkKey_prefix k h : ParseChunkKey k = Some h -> HasPrefix k chunk_prefix = true.
Proof.
  unfold ParseChunkKey. destruct (_ <? _)%nat; [done|].
  destruct (HasPrefix k chunk_prefix); done.
Qed.

Lemma ParseChunkKey_hash k h : ParseChunkKey k = Some h -> is_hash h.
Proof.
  unfold ParseChunkKey. destruct (_ <? _)%nat; [done|].
  destruct (HasPrefix k chunk_prefix); [|done]. destruct (HasSuffix k chunk_suffix); [|done].
  cbn [negb]. set (rest := stake _ _). destruct (String.length rest =? _)%nat eqn:Hr; [|done].
  apply Nat.eqb_eq in Hr. cbn [negb]. destruct (char_at 2 rest); [|done].
  destruct (char_at 5 rest); [|done]. destruct (_ || _); [done|]. destruct (_ || _); [done|].
  intros H. apply hexParse_range in H; [|lia]. rewrite sdrop_length, Hr in H.
  unfold is_hash. change (2 ^ 256) with ((0 + 1) * 16 ^ Z.of_nat (2 + 1 + 2 + 1 + 64 - 6)). done.
Qed.

Lemma sortHashes_perm hs : sortHashes hs ≡ₚ hs.
Proof. apply stable_sort_perm. Qed.
