(* ===== verification/WalSegment.v ===== *)
(** WAL segments (internal/pg/walsink/manifest.go, push.go and the size helpers
    of walsink.go): names, sizes, manifests, the exclusive commit of a segment
    manifest and the archiving of auxiliary files. *)
From S2P Require Import Prelude GoString Storage Worm Commit Lsn Timeline Hash.
From Stdlib Require Import Ascii.

Local Open Scope string_scope.
Local Open Scope Z_scope.
#[local] Arguments String.append : simpl nomatch.

(** ** Sizes *)

Definition DefaultSegmentSize : Z := 16 * 1024 * 1024.
Definition MinSegmentSize : Z := Z.shiftl 1 20.
Definition MaxSegmentSize : Z := Z.shiftl 1 30.

Definition ValidSegmentSize (s : Z) : bool :=
  (MinSegmentSize <=? s) && (s <=? MaxSegmentSize) && (Z.land s (s - 1) =? 0).

Definition NormSegmentSize (s : Z) : Z := if s <=? 0 then DefaultSegmentSize else s.

Definition pipelineDepth : Z := 16.
Definition pipelineBufferBudget : Z := Z.shiftl 256 20.
Definition batchCap : Z := 16.

Definition pipelineDepthFor (segSize : Z) : Z :=
  let d := pipelineBufferBudget / NormSegmentSize segSize in
  if d <? 2 then 2 else if pipelineDepth <? d then pipelineDepth else d.

Definition SegmentsPerLog (segmentSize : Z) : Z :=
  let per := 0x100000000 / u64 (NormSegmentSize segmentSize) in
  if 0 <? per then per else 1.

(** ** Names *)

(** ["%08X"] of a [uint32]. *)
Definition hex8 (z : Z) : string := hexFixed 8 z.

Definition SegmentFileName (timeline segNum segmentSize : Z) : string :=
  let perLog := SegmentsPerLog segmentSize in
  hex8 timeline ++ hex8 (u32 (segNum / perLog)) ++ hex8 (u32 (segNum mod perLog)).

(** [strconv.ParseUint(s, 16, 32)] of eight bytes. *)
Definition parse_hex8 (s : string) : option Z := hexParse 0 s.

Definition ParseSegmentName (name : string) (segmentSize : Z) : option (Z * Z) :=
  if negb (String.length name =? 24)%nat then None
  else
    match parse_hex8 (stake 8 name), parse_hex8 (stake 8 (sdrop 8 name)),
          parse_hex8 (stake 8 (sdrop 16 name)) with
    | Some t, Some logID, Some segLo =>
        Some (t, u64 (logID * SegmentsPerLog segmentSize + segLo))
    | _, _, _ => None
    end.

Definition SegmentPath (deployment : string) (timeline : Z) (segmentName : string) : string :=
  "wal/" ++ deployment ++ "/" ++ hex8 timeline ++ "/" ++ TrimSuffix segmentName ".json" ++ ".json".

(** ** Manifests *)

Record ChunkRef := { ref_Hash : Hash; ref_Offset : Z; ref_Len : Z }.

#[export] Instance ChunkRef_eq_dec : EqDecision ChunkRef.
Proof. solve_decision. Defined.

Record EncryptionInfo := {
  Scheme : string;
  KEKRef : string;
  WrappedDEK : string;
  EnvelopeVersion : Z
}.

Definition seg_schema : string := "pg_hardstorage.wal_segment.v1".

Record SegmentManifest := {
  sm_Schema : string;
  sm_Deployment : string;
  sm_SystemIdentifier : string;
  sm_Timeline : Z;
  sm_SegmentNumber : Z;
  sm_SegmentName : string;
  sm_StartLSN : string;
  sm_EndLSN : string;
  sm_SegmentSize : Z;
  sm_Chunks : list ChunkRef;
  sm_CreatedAt : time;
  sm_Encryption : option EncryptionInfo
}.

(** The loop of [ChunkRefsEqual]. *)
Fixpoint refs_equal (a b : list ChunkRef) : bool :=
  match a, b with
  | [], [] => true
  | x :: a, y :: b =>
      (ref_Hash x =? ref_Hash y) && (ref_Offset x =? ref_Offset y) &&
      (ref_Len x =? ref_Len y) && refs_equal a b
  | _, _ => false
  end.

Definition ChunkRefsEqual (a b : list ChunkRef) : bool :=
  if negb (length a =? length b)%nat then false else refs_equal a b.

Inductive seg_err :=
| SE_Commit (e : commit_err)
| SE_ReadFailed (e : option serr)
| SE_SystemIdentifier (existing ours : string)
| SE_Content
| SE_NotASegmentFile
| SE_FileTooLarge (size max : Z)
| SE_EmptyDeployment.

Section manifests.
Context `{Codec string SegmentManifest}.

Definition ParseSegmentManifest (raw : string) : option SegmentManifest :=
  match decode raw with
  | None => None
  | Some m => if negb (String.eqb (sm_Schema m) seg_schema) then None else Some m
  end.

Definition verifyExistingManifest (key : string) (m : SegmentManifest)
    : prog string (result seg_err unit) :=
  let* r := sGet key in
  match r with
  | Err e => Ret (Err (SE_ReadFailed (Some e)))
  | Ok body =>
      match ReadAllLimited body MaxMetadataBytes with
      | None => Ret (Err (SE_ReadFailed None))
      | Some body =>
          match ParseSegmentManifest body with
          | None => Ret (Err (SE_ReadFailed None))
          | Some existing =>
              if negb (String.eqb (sm_SystemIdentifier existing) (sm_SystemIdentifier m))
              then Ret (Err (SE_SystemIdentifier (sm_SystemIdentifier existing) (sm_SystemIdentifier m)))
              else if negb (ChunkRefsEqual (sm_Chunks existing) (sm_Chunks m))
              then Ret (Err SE_Content)
              else Ret (Ok ())
          end
      end
  end.

Definition manifest_key (m : SegmentManifest) : string :=
  SegmentPath (sm_Deployment m) (sm_Timeline m) (sm_SegmentName m).

Definition commitManifestStandalone (caps : Capabilities) (worm : option WORMPolicy)
    (suffix : string) (m : SegmentManifest) : prog string (result seg_err unit) :=
  let body := encode m in
  let key := manifest_key m in
  let* opts := put_options worm (size_of body) in
  let* c := CommitExclusive caps suffix key body (size_of body) opts in
  match c with
  | Ok _ => Ret (Ok ())
  | Err e => if commit_is e ErrAlreadyExists then verifyExistingManifest key m
             else Ret (Err (SE_Commit e))
  end.
End manifests.

(** ** Auxiliary files *)

Inductive AuxiliaryFileKind := AuxiliaryNone | AuxiliaryBackup | AuxiliaryHistory | AuxiliaryPartial.

Definition ClassifyArchiveInput (name : string) : AuxiliaryFileKind :=
  if HasSuffix name ".backup" then AuxiliaryBackup
  else if HasSuffix name ".history" then AuxiliaryHistory
  else if HasSuffix name ".partial" then AuxiliaryPartial
  else AuxiliaryNone.

(** The timeline a name starts with, upper-cased; [""] when it has none. *)
Definition parseLeadingTimeline (name : string) : string :=
  if (String.length name <? 8)%nat then ""
  else match hexParse 0 (stake 8 name) with
       | Some tli => hex8 tli
       | None => ""
       end.

Definition AuxiliaryFilePath (deployment basename : string) (kind : AuxiliaryFileKind) : string :=
  match kind with
  | AuxiliaryBackup | AuxiliaryPartial =>
      let tli := parseLeadingTimeline basename in
      if String.eqb tli "" then "wal/" ++ deployment ++ "/unknown/" ++ basename
      else "wal/" ++ deployment ++ "/" ++ tli ++ "/" ++ basename
  | AuxiliaryHistory => "wal/" ++ deployment ++ "/history/" ++ basename
  | AuxiliaryNone => ""
  end.

Definition MaxAuxiliaryFileSize : Z := 64 * 1024.

Definition maxAuxiliaryFileSize (kind : AuxiliaryFileKind) : Z :=
  match kind with AuxiliaryPartial => MaxSegmentSize | _ => MaxAuxiliaryFileSize end.

(** [readAuxiliaryFile] of a file with the given contents. *)
Definition readAuxiliaryFile (contents : string) (max : Z) : result seg_err string :=
  if max <? size_of contents then Err (SE_FileTooLarge (size_of contents) max) else Ok contents.

Definition verifyExistingAuxiliaryFile (key body : string) : prog string (result seg_err unit) :=
  let* r := sGet key in
  match r with
  | Err e => Ret (Err (SE_ReadFailed (Some e)))
  | Ok b =>
      match ReadAllLimited b MaxAuxiliaryFileSize with
      | None => Ret (Err (SE_ReadFailed None))
      | Some existing =>
          if negb (String.eqb existing body) then Ret (Err SE_Content) else Ret (Ok ())
      end
  end.

(** [base] is the file's base name, [contents] its bytes. *)
Definition PushAuxiliaryFile (caps : Capabilities) (worm : option WORMPolicy)
    (suffix deployment base contents : string) : prog string (result seg_err string) :=
  if String.eqb deployment "" then Ret (Err SE_EmptyDeployment)
  else
    let kind := ClassifyArchiveInput base in
    match kind with
    | AuxiliaryNone => Ret (Err SE_NotASegmentFile)
    | _ =>
        match readAuxiliaryFile contents (maxAuxiliaryFileSize kind) with
        | Err e => Ret (Err e)
        | Ok body =>
            let key := AuxiliaryFilePath deployment base kind in
            let* opts := put_options worm (size_of body) in
            let* c := CommitExclusive caps suffix key body (size_of body) opts in
            match c with
            | Ok _ => Ret (Ok key)
            | Err e =>
                if commit_is e ErrAlreadyExists then
                  let* v := verifyExistingAuxiliaryFile key body in
                  match v with Ok _ => Ret (Ok key) | Err e => Ret (Err e) end
                else Ret (Err (SE_Commit e))
            end
        end
    end.

(** ** Reading the cluster's identity off a segment *)

(** A little-endian number of [n] bytes from offset [off]. *)
Fixpoint le_bytes (n : nat) (s : string) : Z :=
  match n, s with
  | S n, String c s => byte_of c + 256 * le_bytes n s
  | _, _ => 0
  end.

(** [ReadSystemIdentifierFromSegment] of a file with the given contents. *)
Definition ReadSystemIdentifierFromSegment (contents : string) : option string :=
  if (String.length contents <? 32)%nat then None
  else
    let xlpInfo := le_bytes 2 (sdrop 2 contents) in
    if Z.land xlpInfo 2 =? 0 then None
    else
      let sysID := le_bytes 8 (sdrop 24 contents) in
      if sysID =? 0 then None else Some (FormatUint sysID).

(** [readSegmentFile] of a file with the given contents. *)
Definition readSegmentFile (contents : string) (wantSize : Z) : option string :=
  if negb (size_of contents =? wantSize) then None else Some contents.

(** ** Sizes: facts *)

Lemma NormSegmentSize_pos s : 0 < NormSegmentSize s.
Proof. unfold NormSegmentSize, DefaultSegmentSize. destruct (Z.leb_spec s 0); lia. Qed.

Lemma SegmentsPerLog_range s : s <= max_int64 -> 1 <= SegmentsPerLog s <= 2 ^ 32.
Proof.
  intros Hs. pose proof (NormSegmentSize_pos s) as Hp. unfold SegmentsPerLog.
  assert (u64 (NormSegmentSize s) = NormSegmentSize s) as ->.
  { apply u64_id. unfold NormSegmentSize, DefaultSegmentSize, max_int64 in *.
    destruct (Z.leb_spec s 0); lia. }
  pose proof (Z.div_le_upper_bound 0x100000000 (NormSegmentSize s) 0x100000000 ltac:(lia) ltac:(nia)).
  destruct (Z.ltb_spec 0 (0x100000000 / NormSegmentSize s)); lia.
Qed.

(** Powers of two, as the code tests for them. *)
Lemma land_pred_pow2 k : 0 <= k -> Z.land (2 ^ k) (2 ^ k - 1) = 0.
Proof.
  intros Hk. replace (2 ^ k - 1) with (Z.ones k) by (rewrite Z.ones_equiv; lia).
  rewrite Z.land_ones by done. by apply Z.mod_same, Z.pow_nonzero.
Qed.

Lemma pow2_of_land s : 0 < s -> Z.land s (s - 1) = 0 -> s = 2 ^ Z.log2 s.
Proof.
  intros Hs Hl. pose proof (Z.log2_spec s Hs) as [H1 H2].
  rewrite Z.pow_succ_r in H2 by apply Z.log2_nonneg.
  destruct (Z.eq_dec s (2 ^ Z.log2 s)) as [|Hne]; [done|]. exfalso.
  assert (Z.testbit (Z.land s (s - 1)) (Z.log2 s) = true) as Hb; [|by rewrite Hl, Z.bits_0 in Hb].
  rewrite Z.land_spec, Z.bit_log2 by done.
  replace (Z.log2 s) with (Z.log2 (s - 1)) at 1.
  - by rewrite Z.bit_log2 by lia.
  - apply Z.log2_unique; [apply Z.log2_nonneg|]. rewrite Z.pow_succ_r by apply Z.log2_nonneg. lia.
Qed.

Lemma ValidSegmentSize_iff s :
  ValidSegmentSize s = true <-> exists k, 20 <= k <= 30 /\ s = 2 ^ k.
Proof.
  unfold ValidSegmentSize, MinSegmentSize, MaxSegmentSize.
  change (Z.shiftl 1 20) with (2 ^ 20). change (Z.shiftl 1 30) with (2 ^ 30).
  rewrite !andb_true_iff, !Z.leb_le, Z.eqb_eq. split.
  - intros [[H1 H2] H3]. exists (Z.log2 s).
    pose proof (pow2_of_land s ltac:(lia) H3) as E. split; [|done]. split.
    + apply Z.log2_le_pow2; lia.
    + apply (Z.pow_le_mono_r_iff 2); [lia|lia|]. by rewrite <- E.
  - intros (k & Hk & ->). split; [split|].
    + apply Z.pow_le_mono_r; lia.
    + apply Z.pow_le_mono_r; lia.
    + apply land_pred_pow2; lia.
Qed.

(** The segment sizes accepted are the powers of two from 1 MiB to 1 GiB; for each
    of them a segment number fits its log, every log holds a whole number of segments,
    and the buffer pool has 2 to 16 buffers within its 256 MiB budget or two segments. *)
Theorem segment_sizes (s : Z) :
  ValidSegmentSize s = true ->
  (exists k, 20 <= k <= 30 /\ s = 2 ^ k) /\
  SegmentsPerLog s * s = 2 ^ 32 /\ 4 <= SegmentsPerLog s <= 4096 /\
  2 <= pipelineDepthFor s <= pipelineDepth /\
  pipelineDepthFor s * s <= Z.max pipelineBufferBudget (2 * s).
Proof.
  intros Hv. apply ValidSegmentSize_iff in Hv as (k & Hk & Hs). split; [by exists k|].
  assert (k = 20 \/ k = 21 \/ k = 22 \/ k = 23 \/ k = 24 \/ k = 25 \/ k = 26 \/ k = 27 \/
          k = 28 \/ k = 29 \/ k = 30) as Hc by lia.
  clear Hk. repeat destruct Hc as [Hc|Hc]; subst k s; vm_compute; repeat split; discriminate.
Qed.

Lemma segment_sizes_witness : SegmentsPerLog DefaultSegmentSize * DefaultSegmentSize = 2 ^ 32.
Proof. exact (proj1 (proj2 (segment_sizes DefaultSegmentSize eq_refl))). Defined.

(** ** Names: the round trip *)

Lemma parse_hex8_hex8 z : 0 <= z < 2 ^ 32 -> parse_hex8 (hex8 z) = Some z.
Proof.
  intros Hz. unfold parse_hex8, hex8. rewrite hexParse_hexFixed. f_equal.
  change (16 ^ Z.of_nat 8) with (2 ^ 32). rewrite Z.mod_small by lia. lia.
Qed.

Lemma hex8_length z : String.length (hex8 z) = 8%nat.
Proof. apply hexFixed_length. Qed.

Lemma stake_hex8 z s : stake 8 (hex8 z ++ s) = hex8 z.
Proof. rewrite <- (hex8_length z) at 1. apply stake_app. Qed.

Lemma sdrop_hex8 z s : sdrop 8 (hex8 z ++ s) = s.
Proof. rewrite <- (hex8_length z) at 1. apply sdrop_app. Qed.

Lemma split_segment n per : 1 <= per <= 2 ^ 32 -> 0 <= n < 2 ^ 32 * per ->
  0 <= n / per < 2 ^ 32 /\ 0 <= n mod per < 2 ^ 32 /\ n / per * per + n mod per = n /\ n < 2 ^ 64.
Proof.
  intros Hp Hn. pose proof (Z.div_mod n per ltac:(lia)). pose proof (Z.mod_pos_bound n per ltac:(lia)).
  repeat split; first [nia | apply Z.div_pos; lia | apply Z.div_lt_upper_bound; lia].
Qed.

(** A segment's file name parses back to its timeline and number, for every size
    and every number its log ids can hold. *)
Theorem SegmentName_roundtrip (tli segNum segmentSize : Z) :
  segmentSize <= max_int64 -> 0 <= tli < 2 ^ 32 ->
  0 <= segNum < 2 ^ 32 * SegmentsPerLog segmentSize ->
  ParseSegmentName (SegmentFileName tli segNum segmentSize) segmentSize = Some (tli, segNum).
Proof.
  intros Hs Ht Hn. pose proof (SegmentsPerLog_range segmentSize Hs) as Hp.
  destruct (split_segment segNum _ Hp Hn) as (H1 & H2 & H3 & H4).
  unfold ParseSegmentName, SegmentFileName.
  rewrite !string_app_length, !hex8_length. cbn [Nat.add Nat.eqb negb].
  rewrite stake_hex8. change (sdrop 16 ?x) with (sdrop (8 + 8) x).
  rewrite <- (sdrop_sdrop 8 8), sdrop_hex8, stake_hex8, sdrop_hex8.
  rewrite (stake_all 8 (hex8 (u32 (segNum mod _)))) by (by rewrite hex8_length).
  rewrite !(u32_id (_ / _)), !(u32_id (_ mod _)) by lia.
  rewrite !parse_hex8_hex8 by lia. rewrite H3, u64_id by lia. done.
Qed.

Lemma SegmentName_roundtrip_witness :
  ParseSegmentName "0000001D0000000A000000FF" DefaultSegmentSize = Some (29, 2815).
Proof.
  refine (SegmentName_roundtrip 29 2815 DefaultSegmentSize _ _ _); vm_compute;
    repeat split; discriminate.
Defined.

(** ** Comparing chunk lists *)

Lemma ChunkRefsEqual_iff a b : ChunkRefsEqual a b = true <-> a = b.
Proof.
  unfold ChunkRefsEqual. 
  assert (refs_equal a b = true <-> a = b) as Hr.
  { revert b. induction a as [|[h o l] a IH]; intros [|[h' o' l'] b]; simpl; try done.
    rewrite !andb_true_iff, !Z.eqb_eq, IH. split; [intros [[[-> ->] ->] ->]; done|].
    by intros [= -> -> -> ->]. }
  destruct (Nat.eqb_spec (length a) (length b)); simpl; [done|].
  split; [done|]. by intros ->.
Qed.

(** ** Committing a segment manifest *)

Section commit.
Context `{C : Codec string SegmentManifest}.

(** The object at a key is a manifest of the same cluster with the same chunks. *)
Definition archived_as (m : SegmentManifest) (o : object string) : Prop :=
  exists m', ParseSegmentManifest (ob_body o) = Some m' /\
    sm_SystemIdentifier m' = sm_SystemIdentifier m /\ sm_Chunks m' = sm_Chunks m.

Lemma verifyExisting_wp D key m (Q : result seg_err unit -> gmap string (object string) -> Prop) s :
  (forall o, s !! key = Some o -> archived_as m o -> Q (Ok ()) s) ->
  (forall e, Q (Err e) s) -> wp D (verifyExistingManifest key m) Q s.
Proof.
  intros Hok Herr. unfold verifyExistingManifest. wp_step; [|intros; apply Herr..].
  intros o Ho. unfold ReadAllLimited. destruct (_ <? _); [apply Herr|].
  destruct (ParseSegmentManifest (ob_body o)) as [m'|] eqn:E; [|apply Herr].
  destruct (String.eqb_spec (sm_SystemIdentifier m') (sm_SystemIdentifier m)); [|apply Herr].
  destruct (ChunkRefsEqual (sm_Chunks m') (sm_Chunks m)) eqn:F; [|apply Herr].
  apply ChunkRefsEqual_iff in F. apply (Hok o); [done|]. by exists m'.
Qed.

Definition segment_post (suffix : string) (m : SegmentManifest)
    (s : gmap string (object string)) (r : result seg_err unit)
    (s' : gmap string (object string)) : Prop :=
  (forall k, k <> manifest_key m -> k <> staging_key (manifest_key m) suffix -> s' !! k = s !! k) /\
  (forall o, s !! manifest_key m = Some o -> s' !! manifest_key m = Some o) /\
  (r = Ok () -> exists o, s' !! manifest_key m = Some o /\ archived_as m o).

Lemma commitManifestStandalone_wp D caps worm suffix m s :
  sm_Schema m = seg_schema ->
  wp D (commitManifestStandalone caps worm suffix m) (segment_post suffix m s) s.
Proof.
  intros Hm. unfold commitManifestStandalone. wp_step. apply put_options_wp. intros opts.
  wp_step. eapply wp_mono; [|apply commit_post_wp]. intros [[]|e] s' (H1 & H2 & H3 & H4).
  - destruct (H3 eq_refl) as (o & Ho & Hb & _). split_and!.
    + intros k Hk Ht. apply H1. set_solver.
    + intros o' Ho'. by apply H2.
    + intros _. exists o. split; [done|]. exists m. split_and!; try done.
      unfold ParseSegmentManifest. rewrite Hb, decode_encode, Hm. by rewrite String.eqb_refl.
  - assert (forall r, r <> Ok () -> segment_post suffix m s r s') as Hbad.
    { intros r Hr. split_and!; [intros k Hk Ht; apply H1; set_solver|intros o Ho; by apply H2|done]. }
    destruct (commit_is e ErrAlreadyExists); [|by apply Hbad].
    apply verifyExisting_wp; [|intros; by apply Hbad].
    intros o Ho Ha. split_and!; [intros k Hk Ht; apply H1; set_solver|intros o' Ho'; by apply H2|].
    intros _. by exists o.
Qed.
End commit.

(** Archiving a segment, whatever fails, never changes the manifest another run
    committed; success means the repository holds, at the segment's key, a manifest of
    the same cluster listing exactly the same chunks. *)
Theorem commit_segment_safe `{C : Codec string SegmentManifest} (ds : nat -> decision)
    (caps : Capabilities) (worm : option WORMPolicy) (suffix : string) (m : SegmentManifest)
    (s : gmap string (object string)) :
  sm_Schema m = seg_schema ->
  let '(r, s') := run ds 0 (commitManifestStandalone caps worm suffix m) s in
  (forall k, k <> manifest_key m -> k <> staging_key (manifest_key m) suffix -> s' !! k = s !! k) /\
  (forall o, s !! manifest_key m = Some o -> s' !! manifest_key m = Some o) /\
  (r = Ok () -> exists o, s' !! manifest_key m = Some o /\ archived_as m o).
Proof.
  intros Hm. pose proof (wp_run (fun _ => True) _ _ s ds 0 (fun _ => I)
    (commitManifestStandalone_wp (fun _ => True) caps worm suffix m s Hm)) as H.
  destruct (run ds 0 _ s) as [r s']. exact H.
Qed.

(** A codec of one manifest, to evaluate the model on. *)
Definition sample_manifest : SegmentManifest :=
  {| sm_Schema := seg_schema; sm_Deployment := "db1"; sm_SystemIdentifier := "7000";
     sm_Timeline := 1; sm_SegmentNumber := 3;
     sm_SegmentName := SegmentFileName 1 3 DefaultSegmentSize;
     sm_StartLSN := "0/3000000"; sm_EndLSN := "0/4000000"; sm_SegmentSize := DefaultSegmentSize;
     sm_Chunks := [{| ref_Hash := 5; ref_Offset := 0; ref_Len := DefaultSegmentSize |}];
     sm_CreatedAt := 0; sm_Encryption := None |}.

#[export] Instance SegmentManifest_eq_dec : EqDecision SegmentManifest.
Proof.
  assert (EqDecision EncryptionInfo) by solve_decision. solve_decision.
Defined.

Definition ref_tuple (r : ChunkRef) : Z * Z * Z := (ref_Hash r, ref_Offset r, ref_Len r).

#[export] Instance ChunkRef_countable : Countable ChunkRef.
Proof.
  apply (inj_countable' ref_tuple
    (fun '(h, o, l) => {| ref_Hash := h; ref_Offset := o; ref_Len := l |})). by intros [].
Defined.

#[export] Instance EncryptionInfo_eq_dec : EqDecision EncryptionInfo.
Proof. solve_decision. Defined.

#[export] Instance EncryptionInfo_countable : Countable EncryptionInfo.
Proof.
  apply (inj_countable' (fun e => (Scheme e, KEKRef e, WrappedDEK e, EnvelopeVersion e))
    (fun '(a, b, c, d) => Build_EncryptionInfo a b c d)). by intros [].
Defined.

#[export] Instance SegmentManifest_countable : Countable SegmentManifest.
Proof.
  apply (inj_countable' (fun m => (sm_Schema m, sm_Deployment m, sm_SystemIdentifier m,
      sm_Timeline m, sm_SegmentNumber m, sm_SegmentName m, sm_StartLSN m, sm_EndLSN m,
      sm_SegmentSize m, sm_Chunks m, sm_CreatedAt m, sm_Encryption m))
    (fun '(a, b, c, d, e, f, g, h, i, j, k, l) => Build_SegmentManifest a b c d e f g h i j k l)).
  by intros [].
Defined.

(** A run without failures. *)
Definition calm : nat -> decision := fun _ =>
  {| d_fault := Normal; d_time := 5; d_order := fun l => l;
     d_order_perm := fun l => reflexivity l; d_listed := 0 |}.

Definition plain_caps : Capabilities := {| WORM := false; ConditionalPut := true |}.

Lemma commit_sample_ok (C : Codec string SegmentManifest) :
  (run calm 0 (commitManifestStandalone plain_caps None "r" sample_manifest) ∅).1 = Ok ().
Proof. vm_compute. reflexivity. Qed.

Lemma commit_segment_safe_witness :
  exists (C : Codec string SegmentManifest) s' o,
    run calm 0 (commitManifestStandalone plain_caps None "r" sample_manifest) ∅ = (Ok (), s') /\
    s' !! manifest_key sample_manifest = Some o /\ archived_as sample_manifest o.
Proof.
  exists countable_codec.
  pose proof (commit_sample_ok countable_codec) as Hok.
  pose proof (@commit_segment_safe countable_codec calm plain_caps None "r" sample_manifest ∅ eq_refl) as H.
  destruct (run calm 0 _ ∅) as [r s']. cbn [fst] in Hok. subst r.
  destruct (proj2 (proj2 H) eq_refl) as (o & Ho & Ha). exists s', o.
  split; [reflexivity|]. split; [exact Ho|exact Ha].
Defined.

(** ** Auxiliary files: an identical push is not always accepted *)

Definition partial_name : string := "000000010000000000000003.partial".
Definition partial_key : string := "wal/db1/00000001/000000010000000000000003.partial".

(** The push of a [.partial] file within its size limit. *)
Lemma push_partial_unfold caps worm suffix contents :
  size_of contents <= MaxSegmentSize ->
  PushAuxiliaryFile caps worm suffix "db1" partial_name contents =
  (let* opts := put_options worm (size_of contents) in
   let* c := CommitExclusive caps suffix partial_key contents (size_of contents) opts in
   match c with
   | Ok _ => Ret (Ok partial_key)
   | Err e =>
       if commit_is e ErrAlreadyExists then
         let* v := verifyExistingAuxiliaryFile partial_key contents in
         match v with Ok _ => Ret (Ok partial_key) | Err e => Ret (Err e) end
       else Ret (Err (SE_Commit e))
   end).
Proof.
  intros Hs. unfold PushAuxiliaryFile. change (String.eqb "db1" "") with false. cbn iota.
  change (ClassifyArchiveInput partial_name) with AuxiliaryPartial. cbv zeta. cbn iota.
  unfold readAuxiliaryFile, maxAuxiliaryFileSize. rewrite (proj2 (Z.ltb_ge _ _)) by done. cbn iota.
  reflexivity.
Qed.

Lemma push_partial_first suffix contents s :
  size_of contents <= MaxSegmentSize -> s !! partial_key = None ->
  wp healthy (PushAuxiliaryFile plain_caps None suffix "db1" partial_name contents)
    (fun r s' => r = Ok partial_key /\ exists o, s' !! partial_key = Some o /\ ob_body o = contents) s.
Proof.
  intros Hs Hn. rewrite push_partial_unfold by done. unfold CommitExclusive. cbn [ConditionalPut plain_caps].
  wp_step. apply put_options_wp. intros opts. wp_step. wp_step; try done.
  - intros d _ _. split; [done|]. eexists. split; [apply lookup_insert_eq|done].
  - intros [o Ho]. congruence.
Qed.

Lemma push_partial_again suffix contents s o :
  MaxAuxiliaryFileSize < size_of contents <= MaxSegmentSize ->
  s !! partial_key = Some o -> ob_body o = contents ->
  wp healthy (PushAuxiliaryFile plain_caps None suffix "db1" partial_name contents)
    (fun r s' => r = Err (SE_ReadFailed None) /\ s' = s) s.
Proof.
  intros Hs Ho Hb. rewrite push_partial_unfold by lia. unfold CommitExclusive. cbn [ConditionalPut plain_caps].
  wp_step. apply put_options_wp. intros opts. wp_step. wp_step; try done.
  - intros d _ Hn. rewrite Hn in Ho by done. done.
  - intros _ _. cbn beta iota. cbn [wp].
    change (commit_is (CE_Put ErrAlreadyExists) ErrAlreadyExists) with true. cbn iota. wp_step. unfold verifyExistingAuxiliaryFile. wp_step; try done; [|congruence].
    intros o' Ho'. assert (o' = o) as -> by congruence. rewrite Hb. unfold ReadAllLimited.
    change (Z.of_nat (String.length contents)) with (size_of contents).
    rewrite (proj2 (Z.ltb_lt _ _)) by lia. done.
Qed.

(** [verifyExistingAuxiliaryFile] reads the stored copy under the 64 KiB cap of the
    small kinds: archiving a [.partial] file above it succeeds the first time, and
    archiving the identical bytes again fails, on a backend that does not fail. *)
Theorem partial_repush_refused (contents : string) :
  MaxAuxiliaryFileSize < size_of contents <= MaxSegmentSize ->
  let push := PushAuxiliaryFile plain_caps None "r" "db1" partial_name contents in
  let '(r1, s1) := run calm 0 push ∅ in
  let '(r2, s2) := run calm 0 push s1 in
  r1 = Ok partial_key /\ r2 = Err (SE_ReadFailed None) /\ s2 = s1.
Proof.
  intros Hs push.
  assert (forall i, healthy (calm i)) as Hc by done.
  pose proof (wp_run healthy _ _ ∅ calm 0 Hc
    (push_partial_first "r" contents ∅ (proj2 Hs) (lookup_empty _))) as H1.
  fold push in H1. destruct (run calm 0 push ∅) as [r1 s1]. destruct H1 as (E1 & o & Ho & Hb).
  pose proof (wp_run healthy _ _ s1 calm 0 Hc (push_partial_again "r" contents s1 o Hs Ho Hb)) as H2.
  fold push in H2. destruct (run calm 0 push s1) as [r2 s2]. destruct H2. done.
Qed.

(** A text of [n] bytes. *)
Fixpoint filler (n : nat) : string :=
  match n with O => "" | S n => String "x"%char (filler n) end.

Lemma filler_size n : size_of (filler n) = Z.of_nat n.
Proof. unfold size_of. f_equal. induction n; simpl; congruence. Qed.

Lemma partial_repush_refused_witness :
  exists contents s1 s2, MaxAuxiliaryFileSize < size_of contents <= MaxSegmentSize /\
    run calm 0 (PushAuxiliaryFile plain_caps None "r" "db1" partial_name contents) s1 =
      (Err (SE_ReadFailed None), s2).
Proof.
  assert (MaxAuxiliaryFileSize < size_of (filler (Z.to_nat 65537)) <= MaxSegmentSize) as Hs.
  { rewrite filler_size, Z2Nat.id by lia. vm_compute. split; [reflexivity|discriminate]. }
  exists (filler (Z.to_nat 65537)).
  pose proof (partial_repush_refused (filler (Z.to_nat 65537)) Hs) as H. cbv zeta in H.
  destruct (run calm 0 _ ∅) as [r1 s1] in H. destruct (run calm 0 _ s1) as [r2 s2] eqn:E in H.
  exists s1, s2. split; [exact Hs|]. rewrite E. f_equal. exact (proj1 (proj2 H)).
Defined.
