(* ===== verification/Inventory.v ===== *)
(** The WAL archive's inventory (internal/wal/inventory): the archived frontier of
    a timeline, the frontier before it, the first hole in a range of WAL and the
    point where the archive resumes.  A cancelled context is a listing failure. *)
From S2P Require Import Prelude GoString Storage Commit Lsn Timeline Hash WalSegment.
From Stdlib Require Import Ascii.

Local Open Scope string_scope.
Local Open Scope list_scope.
Local Open Scope Z_scope.

Definition segmentKeyIsStagingTemp (key : string) : bool := Contains (basename key) ".json.tmp.".

(** The directory of a timeline's segments. *)
Definition segment_prefix (deployment : string) (timeline : Z) : string :=
  "wal/" +:+ deployment +:+ "/" +:+ hex8 timeline +:+ "/".

(** [key[len(prefix) : len(key)-len(".json")]] *)
Definition key_base (prefix key : string) : string :=
  stake (String.length key - String.length prefix - 5) (sdrop (String.length prefix) key).

(** The keys a scan looks at, and those that are named like a segment. *)
Definition manifest_like (key : string) : bool :=
  HasSuffix key ".json" && negb (segmentKeyIsStagingTemp key).

Definition segment_like (prefix key : string) : bool :=
  manifest_like key && (String.length (key_base prefix key) =? 24)%nat.

(** The sixteen digits after the timeline, as one number. *)
Definition parseSegmentNumber (s : string) : option Z :=
  if negb (String.length s =? 24)%nat then None
  else match hexParse 0 (sdrop 8 s) with Some n => Some (u64 n) | None => None end.

Inductive inv_err :=
| InvEmptyDeployment
| InvStorage (e : serr)
| InvUnreadable
| InvBadLSN
| InvTooWide (segments : Z).

(** [highestSegmentKey]: the loop state is the best number and its key. *)
Definition highest_step (prefix : string) (i : ObjectInfo) (st : option (Z * string))
    : option (Z * string) :=
  let key := Key i in
  if negb (manifest_like key) then st
  else
    let base := key_base prefix key in
    if negb (String.length base =? 24)%nat then st
    else
      match parseSegmentNumber base with
      | None => st
      | Some n =>
          match st with
          | Some (m, _) => if m <? n then Some (n, key) else st
          | None => Some (n, key)
          end
      end.

Definition highestSegmentKey (deployment : string) (timeline : Z)
    : prog string (result inv_err (option string)) :=
  if String.eqb deployment "" then Ret (Err InvEmptyDeployment)
  else
    let prefix := segment_prefix deployment timeline in
    let* l := sList prefix in
    match l with
    | (_, Some e) => Ret (Err (InvStorage e))
    | (infos, None) =>
        Ret (Ok (option_map snd (fold_left (fun st i => highest_step prefix i st) infos None)))
    end.

Section inventory.
Context `{C : Codec string SegmentManifest} `{L : LSN}.

(** A manifest read with the metadata limit; [None] when it cannot be used. *)
Definition read_manifest (key : string) : prog string (result (option serr) SegmentManifest) :=
  let* r := sGet key in
  match r with
  | Err e => Ret (Err (Some e))
  | Ok body =>
      match ReadAllLimited body MaxMetadataBytes with
      | None => Ret (Err None)
      | Some raw => match ParseSegmentManifest raw with
                    | None => Ret (Err None)
                    | Some m => Ret (Ok m)
                    end
      end
  end.

Definition HighestArchivedLSN (deployment : string) (timeline : Z)
    : prog string (result inv_err (option Z)) :=
  let* r := highestSegmentKey deployment timeline in
  match r with
  | Err e => Ret (Err e)
  | Ok None => Ret (Ok None)
  | Ok (Some maxKey) =>
      let* m := read_manifest maxKey in
      match m with
      | Err (Some e) => Ret (Err (InvStorage e))
      | Err None => Ret (Err InvUnreadable)
      | Ok m => match ParseLSN (sm_EndLSN m) with
                | None => Ret (Err InvBadLSN)
                | Some lsn => Ret (Ok (Some lsn))
                end
      end
  end.

(** The downward loop of [HighestArchivedLSNBefore]: [n] is the next timeline. *)
Fixpoint highest_before (deployment : string) (n : nat) : prog string (result inv_err (option (Z * Z))) :=
  match n with
  | O => Ret (Ok None)
  | S n' =>
      let* r := HighestArchivedLSN deployment (Z.of_nat n) in
      match r with
      | Err e => Ret (Err e)
      | Ok (Some lsn) => Ret (Ok (Some (lsn, Z.of_nat n)))
      | Ok None => highest_before deployment n'
      end
  end.

Definition HighestArchivedLSNBefore (deployment : string) (timeline : Z)
    : prog string (result inv_err (option (Z * Z))) :=
  if timeline <=? 1 then Ret (Ok None)
  else highest_before deployment (Z.to_nat (timeline - 1)).

(** The loop body of [NextArchivedLSNAtOrAfter]: every manifest that can be read. *)
Definition next_step (from : Z) (i : ObjectInfo) (best : option Z)
    : prog string (option Z + result inv_err (option Z)) :=
  if negb (manifest_like (Key i)) then Ret (inl best)
  else
    let* m := read_manifest (Key i) in
    match m with
    | Err _ => Ret (inl best)
    | Ok m =>
        match ParseLSN (sm_StartLSN m) with
        | None => Ret (inl best)
        | Some start =>
            if (from <=? start) && match best with None => true | Some b => start <? b end
            then Ret (inl (Some start)) else Ret (inl best)
        end
    end.

Definition NextArchivedLSNAtOrAfter (deployment : string) (timeline from : Z)
    : prog string (result inv_err (option Z)) :=
  if String.eqb deployment "" then Ret (Err InvEmptyDeployment)
  else
    let* l := sList (segment_prefix deployment timeline) in
    let* r := for_ l.1 None (next_step from) in
    match r, l.2 with
    | inr e, _ => Ret e
    | inl _, Some e => Ret (Err (InvStorage e))
    | inl best, None => Ret (Ok best)
    end.

(** ** The hole scan *)

Definition holeScanMaxSegments : Z := Z.shiftl 1 29.
Definition holeScanSizeProbes : Z := 16.

(** The presence bitmap, in words of 64 bits. *)
Record bitmap := {
  bm_segSize : Z;
  bm_fromSeg : Z;
  bm_spanSegs : Z;
  bm_bits : gmap Z Z
}.

Definition word (m : gmap Z Z) (i : Z) : Z := default 0 (m !! i).

(** [prepare]. *)
Definition prepare (segSize fromLSN toLSN : Z) : result inv_err bitmap :=
  let segSize := NormSegmentSize segSize in
  let fromSeg := fromLSN / segSize in
  let toSeg := toLSN / segSize in
  let spanSegs := toSeg - fromSeg + 1 in
  if holeScanMaxSegments <? spanSegs then Err (InvTooWide spanSegs)
  else Ok {| bm_segSize := segSize; bm_fromSeg := fromSeg; bm_spanSegs := spanSegs; bm_bits := ∅ |}.

(** [mark]. *)
Definition mark (b : bitmap) (base : string) : bitmap :=
  match ParseSegmentName base (bm_segSize b) with
  | None => b
  | Some (_, segNum) =>
      if (bm_fromSeg b <=? segNum) && (segNum - bm_fromSeg b <? bm_spanSegs b) then
        let i := segNum - bm_fromSeg b in
        let w := Z.shiftr i 6 in
        {| bm_segSize := bm_segSize b; bm_fromSeg := bm_fromSeg b; bm_spanSegs := bm_spanSegs b;
           bm_bits := <[w := Z.lor (word (bm_bits b) w) (Z.shiftl 1 (Z.land i 63))]> (bm_bits b) |}
      else b
  end.

(** The bit of index [i]. *)
Definition marked (b : bitmap) (i : Z) : bool :=
  negb (Z.land (word (bm_bits b) (Z.shiftr i 6)) (Z.shiftl 1 (Z.land i 63)) =? 0).

Record scan := {
  sc_segSize : Z;
  sc_pending : list string;
  sc_anySeg : bool;
  sc_bitmap : option bitmap;
  sc_probes : Z
}.

Definition scan0 : scan :=
  {| sc_segSize := 0; sc_pending := []; sc_anySeg := false; sc_bitmap := None; sc_probes := 0 |}.

(** The size read off one manifest, [0] when it cannot be used. *)
Definition probe_size (m : result (option serr) SegmentManifest) : Z :=
  match m with
  | Ok m => if ValidSegmentSize (sm_SegmentSize m) then sm_SegmentSize m else 0
  | Err _ => 0
  end.

(** The loop body on one listed key. *)
Definition scan_step (prefix : string) (fromLSN toLSN : Z) (i : ObjectInfo) (st : scan)
    : prog string (scan + result inv_err (option Z)) :=
  let key := Key i in
  if negb (manifest_like key) then Ret (inl st)
  else
    let base := key_base prefix key in
    if negb (String.length base =? 24)%nat then Ret (inl st)
    else
      match sc_bitmap st with
      | Some b =>
          Ret (inl {| sc_segSize := sc_segSize st; sc_pending := sc_pending st; sc_anySeg := true;
                      sc_bitmap := Some (mark b base); sc_probes := sc_probes st |})
      | None =>
          let pending := sc_pending st ++ [base] in
          let finish segSize probes :=
            if negb (segSize =? 0) || (holeScanSizeProbes <=? probes) then
              match prepare segSize fromLSN toLSN with
              | Err e => Ret (inr (Err e))
              | Ok b => Ret (inl {| sc_segSize := bm_segSize b; sc_pending := []; sc_anySeg := true;
                                    sc_bitmap := Some (fold_left mark pending b);
                                    sc_probes := probes |})
              end
            else Ret (inl {| sc_segSize := segSize; sc_pending := pending; sc_anySeg := true;
                             sc_bitmap := None; sc_probes := probes |}) in
          if sc_segSize st =? 0 then
            let* m := read_manifest key in finish (probe_size m) (sc_probes st + 1)
          else finish (sc_segSize st) (sc_probes st)
      end.

(** The final walk over the bitmap. *)
Fixpoint first_clear (b : bitmap) (i : Z) (fuel : nat) : option Z :=
  match fuel with
  | O => None
  | S fuel =>
      if marked b i then first_clear b (i + 1) fuel
      else Some (u64 ((bm_fromSeg b + i) * bm_segSize b))
  end.

Definition walk (b : bitmap) : option Z := first_clear b 0 (Z.to_nat (bm_spanSegs b)).

Definition FirstWALHoleInRange (deployment : string) (timeline fromLSN toLSN : Z)
    : prog string (result inv_err (option Z)) :=
  if String.eqb deployment "" then Ret (Err InvEmptyDeployment)
  else if toLSN <? fromLSN then Ret (Ok None)
  else
    let prefix := segment_prefix deployment timeline in
    let* l := sList prefix in
    let* r := for_ l.1 scan0 (scan_step prefix fromLSN toLSN) in
    match r with
    | inr e => Ret e
    | inl st =>
        match l.2 with
        | Some e => Ret (Err (InvStorage e))
        | None =>
            if negb (sc_anySeg st) then Ret (Ok None)
            else
              match sc_bitmap st with
              | Some b => Ret (Ok (walk b))
              | None =>
                  match prepare (sc_segSize st) fromLSN toLSN with
                  | Err e => Ret (Err e)
                  | Ok b => Ret (Ok (walk (fold_left mark (sc_pending st) b)))
                  end
              end
        end
    end.
End inventory.

(** ** The bitmap *)

Lemma land_bit w k : 0 <= k -> negb (Z.land w (Z.shiftl 1 k) =? 0) = Z.testbit w k.
Proof.
  intros Hk. rewrite Z.shiftl_1_l. destruct (Z.testbit w k) eqn:E.
  - apply negb_true_iff, Z.eqb_neq. intros H.
    assert (Z.testbit (Z.land w (2 ^ k)) k = true) as Hb
      by (rewrite Z.land_spec, E, Z.pow2_bits_true by done; done).
    by rewrite H, Z.bits_0 in Hb.
  - apply negb_false_iff, Z.eqb_eq, Z.bits_inj'. intros j Hj.
    rewrite Z.land_spec, Z.bits_0, Z.pow2_bits_eqb by done.
    destruct (Z.eqb_spec k j) as [<-|]; [by rewrite E|apply andb_false_r].
Qed.

Lemma split_index i : 0 <= i ->
  i = Z.shiftr i 6 * 64 + Z.land i 63 /\ 0 <= Z.land i 63 < 64.
Proof.
  intros Hi. rewrite Z.shiftr_div_pow2 by lia. change 63 with (Z.ones 6).
  rewrite Z.land_ones by lia. change (2 ^ 6) with 64.
  pose proof (Z.div_mod i 64 ltac:(lia)). pose proof (Z.mod_pos_bound i 64 ltac:(lia)). lia.
Qed.

Lemma word_insert_eq (m : gmap Z Z) a x : word (<[a := x]> m) a = x.
Proof. unfold word. by rewrite lookup_insert_eq. Qed.

Lemma word_insert_ne (m : gmap Z Z) a b x : a <> b -> word (<[a := x]> m) b = word m b.
Proof. intros H. unfold word. by rewrite lookup_insert_ne. Qed.

(** A name stands for the segment of index [i]. *)
Definition hits (b : bitmap) (base : string) (i : Z) : Prop :=
  exists t, ParseSegmentName base (bm_segSize b) = Some (t, bm_fromSeg b + i) /\
    0 <= i < bm_spanSegs b.

(** Two bitmaps over the same range. *)
Definition same_range (b b' : bitmap) : Prop :=
  bm_segSize b' = bm_segSize b /\ bm_fromSeg b' = bm_fromSeg b /\ bm_spanSegs b' = bm_spanSegs b.

Lemma mark_range b base : same_range b (mark b base).
Proof. unfold mark. destruct (ParseSegmentName _ _) as [[]|]; [case_match|]; done. Qed.

Lemma mark_spec b base i : 0 <= i ->
  marked (mark b base) i = true <-> marked b i = true \/ hits b base i.
Proof.
  intros Hi. unfold mark, hits.
  destruct (ParseSegmentName base (bm_segSize b)) as [[t n]|]; cycle 1.
  { split; [by left|]. by intros [|(t & ? & _)]. }
  destruct ((bm_fromSeg b <=? n) && (n - bm_fromSeg b <? bm_spanSegs b)) eqn:E; cycle 1.
  { split; [by left|]. intros [|(t' & [= -> ->] & ?)]; [done|]. lia. }
  apply andb_true_iff in E as [E1 E2]. apply Z.leb_le in E1. apply Z.ltb_lt in E2.
  remember (n - bm_fromSeg b) as j eqn:Ej.
  destruct (split_index i Hi) as [Hi1 Hi2]. destruct (split_index j ltac:(lia)) as [Hj1 Hj2].
  unfold marked. cbn [bm_bits]. rewrite !land_bit by lia.
  destruct (decide (Z.shiftr i 6 = Z.shiftr j 6)) as [Ew|Ew].
  - rewrite Ew, word_insert_eq. rewrite Z.lor_spec, Z.shiftl_1_l, Z.pow2_bits_eqb by lia.
    rewrite orb_true_iff, Z.eqb_eq. split.
    + intros [H|H]; [by left|]. right. exists t. assert (j = i) by lia. split; [|lia].
      f_equal. f_equal. lia.
    + intros [H|(t' & [= <- Hn] & _)]; [by left|]. right. assert (j = i) as -> by lia. done.
  - rewrite word_insert_ne by done. split; [by left|].
    intros [H|(t' & [= <- Hn] & _)]; [done|]. destruct Ew. assert (j = i) as -> by lia. done.
Qed.

Lemma marks_spec bases b :
  same_range b (fold_left mark bases b) /\
  forall i, 0 <= i ->
    marked (fold_left mark bases b) i = true <->
    marked b i = true \/ exists base, base ∈ bases /\ hits b base i.
Proof.
  revert b. induction bases as [|base bases IH]; intros b; cbn [fold_left].
  - split; [done|]. intros i Hi. split; [by left|]. intros [|(x & Hx & _)]; [done|].
    by apply not_elem_of_nil in Hx.
  - destruct (IH (mark b base)) as [(R1 & R2 & R3) H].
    destruct (mark_range b base) as (Q1 & Q2 & Q3). split; [repeat split; congruence|].
    intros i Hi. rewrite H, mark_spec by done. unfold hits. rewrite Q1, Q2, Q3. split.
    + intros [[Hb|Hb]|(x & Hx & Hb)]; [by left|right; exists base; split; [left|done]|].
      right. exists x. split; [by right|done].
    + intros [Hb|(x & [->|Hx]%elem_of_cons & Hb)]; [by left; left|by left; right|].
      right. by exists x.
Qed.

Lemma prepare_marked segSize fromLSN toLSN b i :
  prepare segSize fromLSN toLSN = Ok b -> marked b i = false.
Proof.
  unfold prepare. cbv zeta. destruct (_ <? _); [done|]. intros [= <-].
  unfold marked, word. cbn [bm_bits]. by rewrite lookup_empty.
Qed.

Lemma first_clear_spec b fuel i :
  match first_clear b i fuel with
  | Some lsn => exists j, i <= j < i + Z.of_nat fuel /\ marked b j = false /\
      lsn = u64 ((bm_fromSeg b + j) * bm_segSize b) /\ forall k, i <= k < j -> marked b k = true
  | None => forall k, i <= k < i + Z.of_nat fuel -> marked b k = true
  end.
Proof.
  revert i. induction fuel as [|fuel IH]; intros i; cbn [first_clear]; [intros; lia|].
  destruct (marked b i) eqn:E.
  - specialize (IH (i + 1)). destruct (first_clear b (i + 1) fuel).
    + destruct IH as (j & Hj & H1 & H2 & H3). exists j. split_and!; [lia|lia|done|done|].
      intros k Hk. destruct (decide (k = i)) as [->|]; [done|]. apply H3. lia.
    + intros k Hk. destruct (decide (k = i)) as [->|]; [done|]. apply IH. lia.
  - exists i. split_and!; [lia|lia|done|done|]. intros; lia.
Qed.

(** ** The scan *)

Section facts.
Context `{C : Codec string SegmentManifest}.
Implicit Types (s : gmap string (object string)).

Lemma read_manifest_wp D key (Q : result (option serr) SegmentManifest -> gmap string (object string) -> Prop) s :
  (forall o m, s !! key = Some o -> ParseSegmentManifest (ob_body o) = Some m -> Q (Ok m) s) ->
  (forall e, Q (Err e) s) -> wp D (read_manifest key) Q s.
Proof.
  intros Hok Herr. unfold read_manifest. wp_step; [|intros; apply Herr..].
  intros o Ho. unfold ReadAllLimited. destruct (_ <? _); [apply Herr|].
  destruct (ParseSegmentManifest (ob_body o)) as [m|] eqn:E; [|apply Herr]. by apply (Hok o).
Qed.

(** A segment size the scan may work with: the default, or one an archived manifest
    of the store declares. *)
Definition known_size s (segSize : Z) : Prop :=
  segSize = DefaultSegmentSize \/
  exists key o m, s !! key = Some o /\ ParseSegmentManifest (ob_body o) = Some m /\
    sm_SegmentSize m = segSize /\ ValidSegmentSize segSize = true.

(** Segment number [n] is in the archive. *)
Definition archived s (prefix : string) (segSize n : Z) : Prop :=
  exists key t, is_Some (s !! key) /\ HasPrefix key prefix = true /\
    segment_like prefix key = true /\ ParseSegmentName (key_base prefix key) segSize = Some (t, n).

Definition bases (prefix : string) (l : list ObjectInfo) : list string :=
  map (fun i => key_base prefix (Key i)) (filter (fun i => segment_like prefix (Key i) = true) l).

(** What the bitmap holds once the names [names] are marked. *)
Definition bitmap_ok s (fromLSN toLSN : Z) (names : list string) (b : bitmap) : Prop :=
  known_size s (bm_segSize b) /\ bm_fromSeg b = fromLSN / bm_segSize b /\
  bm_spanSegs b = toLSN / bm_segSize b - fromLSN / bm_segSize b + 1 /\
  forall i, 0 <= i -> marked b i = true <-> exists base, base ∈ names /\ hits b base i.

Definition scan_inv s prefix fromLSN toLSN (pre post : list ObjectInfo) (st : scan)
    (s' : gmap string (object string)) : Prop :=
  s' = s /\ (sc_anySeg st = true <-> bases prefix pre <> []) /\
  match sc_bitmap st with
  | Some b => bitmap_ok s fromLSN toLSN (bases prefix pre) b
  | None => sc_pending st = bases prefix pre /\ sc_segSize st = 0
  end.

Lemma prepare_ok s segSize fromLSN toLSN b names :
  segSize = 0 \/ known_size s segSize -> prepare segSize fromLSN toLSN = Ok b ->
  bitmap_ok s fromLSN toLSN names (fold_left mark names b).
Proof.
  intros Hk Hp. destruct (marks_spec names b) as [(R1 & R2 & R3) Hm].
  assert (known_size s (bm_segSize b) /\ bm_fromSeg b = fromLSN / bm_segSize b /\
    bm_spanSegs b = toLSN / bm_segSize b - fromLSN / bm_segSize b + 1) as (H1 & H2 & H3).
  { revert Hp. unfold prepare. cbv zeta. destruct (_ <? _); [done|]. intros [= <-].
    cbn [bm_segSize bm_fromSeg bm_spanSegs]. split; [|done]. unfold NormSegmentSize.
    destruct Hk as [->|Hk]; [by left|]. destruct (segSize <=? 0); [by left|done]. }
  unfold bitmap_ok. rewrite R1, R2, R3. split_and!; try done.
  intros i Hi. rewrite Hm, (prepare_marked _ _ _ _ _ Hp) by done. unfold hits.
  rewrite R1, R2, R3. naive_solver.
Qed.

Lemma bases_snoc prefix pre x :
  bases prefix (pre ++ [x]) =
  bases prefix pre ++ (if segment_like prefix (Key x) then [key_base prefix (Key x)] else []).
Proof.
  unfold bases. rewrite filter_app, map_app. f_equal.
  rewrite filter_cons, filter_nil. by destruct (segment_like prefix (Key x)).
Qed.

Lemma probe_known D key s :
  wp D (read_manifest key)
    (fun m s' => s' = s /\ (probe_size m = 0 \/ known_size s (probe_size m))) s.
Proof.
  apply read_manifest_wp; [|by split; [|left]]. intros o m Ho Hm. split; [done|]. cbn [probe_size].
  destruct (ValidSegmentSize (sm_SegmentSize m)) eqn:E; [|by left].
  right. right. by exists key, o, m.
Qed.

Lemma scan_step_wp D prefix fromLSN toLSN pre x post st s :
  scan_inv s prefix fromLSN toLSN pre (x :: post) st s ->
  wp D (scan_step prefix fromLSN toLSN x st) (fun r s' =>
    match r with
    | inl st' => scan_inv s prefix fromLSN toLSN (pre ++ [x]) post st' s'
    | inr v => s' = s /\ exists e, v = Err e
    end) s.
Proof.
  intros (_ & Hany & Hb). unfold scan_step, scan_inv. rewrite bases_snoc. unfold segment_like.
  destruct (manifest_like (Key x)); cbn [negb andb]; [|rewrite app_nil_r; by split_and!].
  destruct (String.length (key_base prefix (Key x)) =? 24)%nat; cbn [negb];
    [|rewrite app_nil_r; by split_and!].
  set (base := key_base prefix (Key x)).
  assert (forall P : Prop, P -> (true = true <-> bases prefix pre ++ [base] <> []) /\ P) as Hne.
  { intros P HP. split; [|done]. split; [|done]. intros _. by destruct (bases prefix pre). }
  destruct (sc_bitmap st) as [b|].
  - split; [done|]. apply Hne. cbn [sc_bitmap].
    destruct Hb as (K1 & K2 & K3 & K4). destruct (mark_range b base) as (R1 & R2 & R3).
    unfold bitmap_ok. rewrite R1, R2, R3. split_and!; try done.
    intros i Hi. rewrite mark_spec, K4 by done. unfold hits. rewrite R1, R2, R3. split.
    + intros [(y & Hy & Ht)|Ht]; [exists y|exists base]; (split; [|done]); apply elem_of_app; [by left|right; left].
    + intros (y & [Hy|Hy]%elem_of_app & Ht); [left; by exists y|right].
      apply list_elem_of_singleton in Hy as ->. done.
  - destruct Hb as [Hp Hz]. rewrite Hz. cbn [Z.eqb]. wp_step. rewrite Hp.
    eapply wp_mono; [|apply probe_known]. intros m s' [-> Hk]. generalize dependent (probe_size m).
    clear m. intros segSize Hk.
    destruct (negb (segSize =? 0) || _) eqn:E.
    + destruct (prepare segSize fromLSN toLSN) as [b|e] eqn:Hprep; [|split; eauto].
      split; [done|]. apply Hne. cbn [sc_bitmap]. by eapply prepare_ok.
    + apply orb_false_iff in E as [E _]. apply negb_false_iff, Z.eqb_eq in E. subst segSize.
      split; [done|]. apply Hne. cbn [sc_bitmap sc_pending sc_segSize]. done.
Qed.
End facts.

Section hole.
Context `{C : Codec string SegmentManifest}.
Implicit Types (s : gmap string (object string)).

(** The names a complete listing gives are the archive's. *)
Lemma elem_of_bases s prefix l base : l ≡ₚ listing prefix s ->
  base ∈ bases prefix l <->
  exists key, is_Some (s !! key) /\ HasPrefix key prefix = true /\
    segment_like prefix key = true /\ base = key_base prefix key.
Proof.
  intros Hl. unfold bases. rewrite list_elem_of_fmap. split.
  - intros (i & -> & [Hi Hin]%list_elem_of_filter). rewrite Hl in Hin.
    apply elem_of_listing in Hin as (o & Ho & _ & Hp). exists (Key i). eauto.
  - intros (key & [o Ho] & Hp & Hs & ->). exists (info_of key o). split; [done|].
    apply list_elem_of_filter. split; [done|]. rewrite Hl. apply elem_of_listing.
    exists o. done.
Qed.

Lemma known_size_pos s segSize : known_size s segSize -> 0 < segSize < 2 ^ 63.
Proof.
  intros [->|(key & o & m & _ & _ & _ & Hv)]; [done|].
  unfold ValidSegmentSize, MinSegmentSize, MaxSegmentSize in Hv.
  change (Z.shiftl 1 20) with (2 ^ 20) in Hv. change (Z.shiftl 1 30) with (2 ^ 30) in Hv. lia.
Qed.

(** What the scan reports of a range. *)
Definition hole_post s (prefix : string) (fromLSN toLSN : Z) (r : result inv_err (option Z)) : Prop :=
  match r with
  | Ok (Some lsn) => exists segSize n, known_size s segSize /\ lsn = n * segSize /\
      fromLSN / segSize <= n <= toLSN / segSize /\ ~ archived s prefix segSize n /\
      forall m, fromLSN / segSize <= m < n -> archived s prefix segSize m
  | Ok None => toLSN < fromLSN \/
      (forall key, is_Some (s !! key) -> HasPrefix key prefix = true -> segment_like prefix key = false) \/
      exists segSize, known_size s segSize /\
        forall m, fromLSN / segSize <= m <= toLSN / segSize -> archived s prefix segSize m
  | Err _ => True
  end.

Lemma walk_ok s prefix fromLSN toLSN l b :
  valid_lsn fromLSN -> valid_lsn toLSN -> fromLSN <= toLSN -> l ≡ₚ listing prefix s ->
  bitmap_ok s fromLSN toLSN (bases prefix l) b ->
  hole_post s prefix fromLSN toLSN (Ok (walk b)).
Proof.
  intros Hf Ht Hle Hl (K1 & K2 & K3 & K4). unfold valid_lsn in *.
  pose proof (known_size_pos s _ K1) as Hpos.
  pose proof (Z.div_le_mono fromLSN toLSN (bm_segSize b) ltac:(lia) Hle) as Hd.
  pose proof (Z.div_pos fromLSN (bm_segSize b) ltac:(lia) ltac:(lia)) as Hd0.
  pose proof (Z.mul_div_le toLSN (bm_segSize b) ltac:(lia)) as Hdm.
  assert (forall i, 0 <= i < bm_spanSegs b ->
    marked b i = true <-> archived s prefix (bm_segSize b) (bm_fromSeg b + i)) as Hm.
  { intros i Hi. rewrite K4 by lia. unfold hits, archived. split.
    - intros (base & Hb & t & Hp & _). apply (elem_of_bases s prefix l) in Hb; [|done].
      destruct Hb as (key & H1 & H2 & H3 & ->). by exists key, t.
    - intros (key & t & H1 & H2 & H3 & Hp). exists (key_base prefix key).
      split; [apply (elem_of_bases s prefix l); [done|by exists key]|]. by exists t. }
  unfold walk. pose proof (first_clear_spec b (Z.to_nat (bm_spanSegs b)) 0) as Hw.
  rewrite Z2Nat.id in Hw by lia.
  destruct (first_clear b 0 _) as [lsn|]; cbn [hole_post].
  - destruct Hw as (j & Hj & H1 & H2 & H3). exists (bm_segSize b), (bm_fromSeg b + j).
    split_and!; [done| |lia|lia| |].
    + rewrite H2. apply u64_id. nia.
    + rewrite <- Hm by lia. by rewrite H1.
    + intros m Hr. replace m with (bm_fromSeg b + (m - bm_fromSeg b)) by lia.
      apply Hm; [lia|]. apply H3. lia.
  - right. right. exists (bm_segSize b). split; [done|]. intros m Hr.
    replace m with (bm_fromSeg b + (m - bm_fromSeg b)) by lia. apply Hm; [lia|]. apply Hw. lia.
Qed.

Lemma FirstWALHole_wp D deployment timeline fromLSN toLSN s :
  valid_lsn fromLSN -> valid_lsn toLSN ->
  wp D (FirstWALHoleInRange deployment timeline fromLSN toLSN) (fun r s' =>
    s' = s /\ hole_post s (segment_prefix deployment timeline) fromLSN toLSN r) s.
Proof.
  intros Hf Ht. unfold FirstWALHoleInRange.
  destruct (String.eqb deployment ""); [done|].
  destruct (Z.ltb_spec toLSN fromLSN); [by split; [|left]|].
  set (prefix := segment_prefix deployment timeline).
  assert (forall l, wp D (for_ l scan0 (scan_step prefix fromLSN toLSN)) (fun r s' => s' = s /\
      match r with
      | inr v => exists e, v = Err e
      | inl st => scan_inv s prefix fromLSN toLSN l [] st s'
      end) s) as Hloop.
  { intros l. apply (wp_for D l _ (scan_inv s prefix fromLSN toLSN)).
    - split_and!; done.
    - intros pre x post st s' _ HI. assert (s' = s) as -> by apply HI.
      eapply wp_mono; [|by apply scan_step_wp]. intros [st'|v] s'; [done|].
      intros [-> Hv]. by split.
    - intros st s' HI. split; [apply HI|done]. }
  wp_step.
  - intros l Hl. wp_step. cbn [fst snd]. eapply wp_mono; [|by apply Hloop].
    intros [st|v] s' [-> HI]; [|by destruct HI as [e ->]].
    destruct HI as (_ & Hany & Hb).
    destruct (sc_anySeg st) eqn:Ea; cbn [negb].
    + destruct (sc_bitmap st) as [b|].
      * split; [done|]. by eapply walk_ok.
      * destruct Hb as [Hp Hz]. destruct (prepare _ fromLSN toLSN) as [b|] eqn:E; [|done].
        split; [done|]. eapply walk_ok; try done. rewrite Hp.
        eapply prepare_ok; [|exact E]. rewrite Hz. by left.
    + split; [done|]. right. left. intros key Hk Hpre.
      destruct (segment_like prefix key) eqn:E; [|done]. exfalso.
      assert (key_base prefix key ∈ bases prefix l) as Hin
        by (apply (elem_of_bases s prefix l); [done|by exists key]).
      assert (bases prefix l = []) as E0 by (destruct (decide (bases prefix l = [])); [done|];
        exfalso; assert (false = true) by (by apply Hany); done).
      rewrite E0 in Hin. by apply not_elem_of_nil in Hin.
  - intros d c l l' _ _ _. wp_step. cbn [fst snd].
    eapply wp_mono; [|by apply Hloop].
    intros [st|v] s' [-> HI]; [done|by destruct HI as [e ->]].
Qed.
End hole.



(** ** The frontier *)

Section frontier.
Context `{C : Codec string SegmentManifest} `{L : LSN}.
Implicit Types (s : gmap string (object string)).

(** [key] is a segment of a timeline's directory, of sort number [n]. *)
Definition segment_at s (prefix key : string) (n : Z) : Prop :=
  is_Some (s !! key) /\ HasPrefix key prefix = true /\ segment_like prefix key = true /\
  parseSegmentNumber (key_base prefix key) = Some n.

Definition no_segments s (prefix : string) : Prop := forall key n, ~ segment_at s prefix key n.

(** [lsn] is the end of the timeline's highest archived segment. *)
Definition is_frontier s (prefix : string) (lsn : Z) : Prop :=
  exists key o m n, s !! key = Some o /\ segment_at s prefix key n /\
    (forall key' n', segment_at s prefix key' n' -> n' <= n) /\
    ParseSegmentManifest (ob_body o) = Some m /\ ParseLSN (sm_EndLSN m) = Some lsn.

(** The sort number of a listed key, when it is named like a segment. *)
Definition key_num (prefix : string) (i : ObjectInfo) : option Z :=
  if segment_like prefix (Key i) then parseSegmentNumber (key_base prefix (Key i)) else None.

Lemma highest_step_eq prefix i st :
  highest_step prefix i st =
  match key_num prefix i with
  | None => st
  | Some n => match st with
              | Some (m, _) => if m <? n then Some (n, Key i) else st
              | None => Some (n, Key i)
              end
  end.
Proof.
  unfold highest_step, key_num, segment_like. destruct (manifest_like (Key i)); cbn [negb andb]; [|done].
  by destruct (_ =? _)%nat.
Qed.

(** The best of the keys seen. *)
Definition best_of (prefix : string) (l : list ObjectInfo) (st : option (Z * string)) : Prop :=
  match st with
  | None => forall i, i ∈ l -> key_num prefix i = None
  | Some (n, key) => (exists i, i ∈ l /\ Key i = key /\ key_num prefix i = Some n) /\
      forall i n', i ∈ l -> key_num prefix i = Some n' -> n' <= n
  end.

Lemma highest_fold prefix l st pre :
  best_of prefix pre st ->
  best_of prefix (pre ++ l) (fold_left (fun st i => highest_step prefix i st) l st).
Proof.
  revert st pre. induction l as [|i l IH]; intros st pre Hst; cbn [fold_left].
  - by rewrite app_nil_r.
  - replace (pre ++ i :: l) with ((pre ++ [i]) ++ l) by (by rewrite <- app_assoc).
    apply IH. rewrite highest_step_eq. unfold best_of in *.
    assert (forall j, j ∈ pre ++ [i] <-> j ∈ pre \/ j = i) as Hin
      by (intros j; rewrite elem_of_app, list_elem_of_singleton; done).
    destruct (key_num prefix i) as [n|] eqn:Ei.
    + destruct st as [[m k]|]; [destruct (Z.ltb_spec m n)|].
      * destruct Hst as [_ Hmax]. split; [exists i; rewrite Hin; auto|].
        intros j n' [Hj| ->]%Hin Hn; [specialize (Hmax j n' Hj Hn); lia|]. assert (n' = n) by congruence. lia.
      * destruct Hst as [(j & Hj & Hk & Hn) Hmax]. split; [exists j; rewrite Hin; auto|].
        intros j' n' [Hj'| ->]%Hin Hn'; [by apply (Hmax j')|]. assert (n' = n) by congruence. lia.
      * split; [exists i; rewrite Hin; auto|]. intros j n' [Hj| ->]%Hin Hn.
        -- by rewrite Hst in Hn.
        -- assert (n' = n) by congruence. lia.
    + destruct st as [[m k]|].
      * destruct Hst as [(j & Hj & Hk & Hn) Hmax]. split; [exists j; rewrite Hin; auto|].
        intros j' n' [Hj'| ->]%Hin Hn'; [by apply (Hmax j')|congruence].
      * intros j [Hj| ->]%Hin; [by apply Hst|done].
Qed.

(** What the scan gives of a complete listing. *)
Lemma highest_listing s prefix l : l ≡ₚ listing prefix s ->
  match fold_left (fun st i => highest_step prefix i st) l None with
  | None => no_segments s prefix
  | Some (n, key) => segment_at s prefix key n /\ forall key' n', segment_at s prefix key' n' -> n' <= n
  end.
Proof.
  intros Hl. pose proof (highest_fold prefix l None []) as H. cbn [app] in H.
  assert (best_of prefix [] None) as H0 by (intros i Hi; by apply not_elem_of_nil in Hi).
  specialize (H H0). unfold best_of in H.
  assert (forall key n, segment_at s prefix key n -> exists i, i ∈ l /\ Key i = key /\
    key_num prefix i = Some n) as Hin.
  { intros key n ([o Ho] & Hp & Hs & Hn). exists (info_of key o). split; [|split; [done|]].
    - rewrite Hl. apply elem_of_listing. by exists o.
    - unfold key_num. cbn [info_of Key]. by rewrite Hs. }
  destruct (fold_left _ l None) as [[n key]|].
  - destruct H as [(i & Hi & <- & Hn) Hmax]. split.
    + rewrite Hl in Hi. apply elem_of_listing in Hi as (o & Ho & _ & Hp).
      unfold key_num in Hn. destruct (segment_like prefix (Key i)) eqn:E; [|done]. split_and!; eauto.
    + intros key' n' Hs. destruct (Hin key' n' Hs) as (j & Hj & _ & Hn'). by apply (Hmax j).
  - intros key n Hs. destruct (Hin key n Hs) as (j & Hj & _ & Hn'). rewrite (H j Hj) in Hn'. done.
Qed.

Lemma HighestArchivedLSN_wp D deployment timeline s :
  let prefix := segment_prefix deployment timeline in
  wp D (HighestArchivedLSN deployment timeline) (fun r s' => s' = s /\
    match r with
    | Ok (Some lsn) => is_frontier s prefix lsn
    | Ok None => no_segments s prefix
    | Err _ => True
    end) s.
Proof.
  intros prefix. unfold HighestArchivedLSN. wp_step. unfold highestSegmentKey.
  destruct (String.eqb deployment ""); [done|]. fold prefix. wp_step; [|done].
  intros l Hl. pose proof (highest_listing s prefix l Hl) as H.
  destruct (fold_left _ l None) as [[n key]|]; cbn [option_map snd wp]; [|done].
  destruct H as [Hat Hmax]. wp_step. apply read_manifest_wp; [|by intros [e|]].
  intros o m Ho Hm. destruct (ParseLSN (sm_EndLSN m)) as [lsn|] eqn:E; [|done].
  split; [done|]. by exists key, o, m, n.
Qed.

Lemma highest_before_wp D deployment n s :
  wp D (highest_before deployment n) (fun r s' => s' = s /\
    match r with
    | Ok (Some (lsn, tli)) => 1 <= tli <= Z.of_nat n /\
        is_frontier s (segment_prefix deployment tli) lsn /\
        forall t, tli < t <= Z.of_nat n -> no_segments s (segment_prefix deployment t)
    | Ok None => forall t, 1 <= t <= Z.of_nat n -> no_segments s (segment_prefix deployment t)
    | Err _ => True
    end) s.
Proof.
  induction n as [|n IH]; cbn [highest_before].
  - split; [done|]. intros; lia.
  - wp_step. eapply wp_mono; [|apply HighestArchivedLSN_wp]. intros [[lsn|]|e] s' [-> H].
    + split; [done|]. split_and!; [lia|lia|done|]. intros; lia.
    + eapply wp_mono; [|exact IH]. intros [[[lsn tli]|]|e] s' [-> H']; (split; [done|]).
      * destruct H' as (H1 & H2 & H3). split_and!; [lia|lia|done|].
        intros t Ht. destruct (decide (t = Z.of_nat (S n))) as [->|]; [done|]. apply H3. lia.
      * intros t Ht. destruct (decide (t = Z.of_nat (S n))) as [->|]; [done|]. apply H'. lia.
      * done.
    + done.
Qed.
End frontier.

(** The frontier a promoted primary must resume from is the end of the highest
    segment of the newest older timeline that has any; none is reported only when no
    older timeline has a segment.  Whatever fails, the scan changes nothing. *)
Theorem HighestArchivedLSNBefore_newest `{C : Codec string SegmentManifest} `{L : LSN}
    (ds : nat -> decision) (deployment : string) (timeline : Z) (s : gmap string (object string)) :
  let '(r, s') := run ds 0 (HighestArchivedLSNBefore deployment timeline) s in
  s' = s /\
  match r with
  | Ok (Some (lsn, tli)) => 1 <= tli < timeline /\
      is_frontier s (segment_prefix deployment tli) lsn /\
      forall t, tli < t < timeline -> no_segments s (segment_prefix deployment t)
  | Ok None => forall t, 1 <= t < timeline -> no_segments s (segment_prefix deployment t)
  | Err _ => True
  end.
Proof.
  unfold HighestArchivedLSNBefore. destruct (Z.leb_spec timeline 1).
  - cbn. split; [done|]. intros; lia.
  - pose proof (wp_run (fun _ => True) _ _ s ds 0 (fun _ => I)
      (highest_before_wp (fun _ => True) deployment (Z.to_nat (timeline - 1)) s)) as Hr.
    destruct (run ds 0 _ s) as [r s']. cbn [fst snd] in Hr. destruct Hr as [-> Hr]. split; [done|].
    rewrite Z2Nat.id in Hr by lia. destruct r as [[[lsn tli]|]|e]; [|intros; apply Hr; lia|done].
    destruct Hr as (H1 & H2 & H3). split_and!; [lia|lia|done|]. intros; apply H3; lia.
Qed.

(** ** Where the archive resumes *)

Section resume.
Context `{C : Codec string SegmentManifest} `{L : LSN}.
Implicit Types (s : gmap string (object string)).

(** A readable manifest of the store starts at [x]. *)
Definition starts_at s (key : string) (x : Z) : Prop :=
  manifest_like key = true /\
  exists o b m, s !! key = Some o /\ ReadAllLimited (ob_body o) MaxMetadataBytes = Some b /\
    ParseSegmentManifest b = Some m /\ ParseLSN (sm_StartLSN m) = Some x.

(** The least start at or after [from] among some keys. *)
Definition least_start s (from : Z) (keys : list ObjectInfo) (best : option Z) : Prop :=
  match best with
  | Some b => from <= b /\ (exists i, i ∈ keys /\ starts_at s (Key i) b) /\
      forall i x, i ∈ keys -> starts_at s (Key i) x -> from <= x -> b <= x
  | None => forall i x, i ∈ keys -> starts_at s (Key i) x -> x < from
  end.

Lemma starts_at_fun s key x y : starts_at s key x -> starts_at s key y -> x = y.
Proof.
  intros (_ & o & b & m & H1 & H2 & H3 & H4) (_ & o' & b' & m' & K1 & K2 & K3 & K4). congruence.
Qed.

Lemma least_start_skip s from pre i best :
  (forall x, ~ starts_at s (Key i) x) -> least_start s from pre best ->
  least_start s from (pre ++ [i]) best.
Proof.
  intros Hi. unfold least_start.
  assert (forall j, j ∈ pre ++ [i] <-> j ∈ pre \/ j = i) as Hin
    by (intros j; rewrite elem_of_app, list_elem_of_singleton; done).
  destruct best as [b|].
  - intros (H1 & (j & Hj & Hs) & H3). split_and!; [done|by exists j; rewrite Hin; auto|].
    intros k x [Hk| ->]%Hin Hx; [by eapply H3|]. by destruct (Hi x).
  - intros H k x [Hk| ->]%Hin Hx; [by eapply H|]. by destruct (Hi x).
Qed.

Lemma least_start_step s from pre i best x :
  starts_at s (Key i) x -> least_start s from pre best ->
  least_start s from (pre ++ [i])
    (if (from <=? x) && match best with None => true | Some b => x <? b end then Some x else best).
Proof.
  intros Hx. unfold least_start.
  assert (forall j, j ∈ pre ++ [i] <-> j ∈ pre \/ j = i) as Hin
    by (intros j; rewrite elem_of_app, list_elem_of_singleton; done).
  destruct (Z.leb_spec from x); cbn [andb]; cycle 1.
  { destruct best as [b|].
    - intros (H1 & (j & Hj & Hs) & H3). split_and!; [done|by exists j; rewrite Hin; auto|].
      intros k y [Hk| ->]%Hin Hy; [by eapply H3|]. rewrite (starts_at_fun _ _ _ _ Hy Hx). lia.
    - intros Hn k y [Hk| ->]%Hin Hy; [by eapply Hn|]. by rewrite (starts_at_fun _ _ _ _ Hy Hx). }
  destruct best as [b|].
  - intros (H1 & (j & Hj & Hs) & H3). destruct (Z.ltb_spec x b).
    + split_and!; [done|by exists i; rewrite Hin; auto|]. intros k y [Hk| ->]%Hin Hy Hf.
      * specialize (H3 k y Hk Hy Hf). lia.
      * rewrite (starts_at_fun _ _ _ _ Hy Hx). lia.
    + split_and!; [done|by exists j; rewrite Hin; auto|]. intros k y [Hk| ->]%Hin Hy Hf; [by eapply H3|].
      rewrite (starts_at_fun _ _ _ _ Hy Hx). lia.
  - intros Hn. split_and!; [done|by exists i; rewrite Hin; auto|]. intros k y [Hk| ->]%Hin Hy Hf.
    + specialize (Hn k y Hk Hy). lia.
    + rewrite (starts_at_fun _ _ _ _ Hy Hx). lia.
Qed.

Lemma next_step_wp s from pre i best :
  is_Some (s !! Key i) -> least_start s from pre best ->
  wp healthy (next_step from i best) (fun r s' => s' = s /\
    match r with inl best' => least_start s from (pre ++ [i]) best' | inr v => False end) s.
Proof.
  intros [o Ho] Hb. unfold next_step.
  assert (forall Q : Prop, (forall x, ~ starts_at s (Key i) x) ->
    (least_start s from (pre ++ [i]) best)) as Hskip by (intros; by apply least_start_skip).
  destruct (manifest_like (Key i)) eqn:Em; cbn [negb].
  2: { split; [done|]. apply (Hskip True). intros x [E _]. congruence. }
  wp_step. unfold read_manifest. wp_step; [|congruence|by intros d c Hd Hf; destruct Hf].
  intros o' Ho'. assert (o' = o) as -> by congruence.
  destruct (ReadAllLimited (ob_body o) MaxMetadataBytes) as [b|] eqn:Er; cbn [wp].
  2: { split; [done|]. apply (Hskip True). intros x (_ & o2 & b & m & H1 & H2 & _). congruence. }
  destruct (ParseSegmentManifest b) as [m|] eqn:Ep; cbn [wp].
  2: { split; [done|]. apply (Hskip True). intros x (_ & o2 & b2 & m & H1 & H2 & H3 & _). congruence. }
  destruct (ParseLSN (sm_StartLSN m)) as [x|] eqn:Ex; cbn [wp].
  2: { split; [done|]. apply (Hskip True). intros x (_ & o2 & b2 & m2 & H1 & H2 & H3 & H4). congruence. }
  assert (starts_at s (Key i) x) as Hx by (split; [done|]; by exists o, b, m).
  pose proof (least_start_step s from pre i best x Hx Hb) as Hs.
  by destruct (_ && _).
Qed.

Lemma NextArchived_wp deployment timeline from s :
  wp healthy (NextArchivedLSNAtOrAfter deployment timeline from) (fun r s' => s' = s /\
    (deployment <> "" -> exists best l, r = Ok best /\
       l ≡ₚ listing (segment_prefix deployment timeline) s /\ least_start s from l best)) s.
Proof.
  unfold NextArchivedLSNAtOrAfter. destruct (String.eqb_spec deployment ""); [done|].
  wp_step; [|by intros d c l l' Hd Hf; destruct Hf]. intros l Hl. wp_step. cbn [fst snd].
  apply (wp_for healthy l _ (fun pre post best s' => s' = s /\ least_start s from pre best)).
  - split; [done|]. intros i x Hi. by apply not_elem_of_nil in Hi.
  - intros pre i post best s' El [-> Hb]. assert (is_Some (s !! Key i)) as Hi.
    { assert (i ∈ listing (segment_prefix deployment timeline) s) as Hin
        by (rewrite <- Hl, El; apply elem_of_app; right; left).
      apply elem_of_listing in Hin as (o & Ho & _). by exists o. }
    eapply wp_mono; [|by apply (next_step_wp s from pre i best)].
    intros [best'|v] s' [-> Hr]; [done|done].
  - intros best s' [-> Hb]. split; [done|]. intros _. by exists best, l.
Qed.
End resume.

(** On a backend that does not fail, the archive resumes at the least start, at or
    after the given position, of a readable segment manifest of the timeline; nothing is
    reported only when every one starts before it. *)
Theorem NextArchivedLSN_least `{C : Codec string SegmentManifest} `{L : LSN}
    (ds : nat -> decision) (deployment : string) (timeline from : Z) (s : gmap string (object string)) :
  (forall i, healthy (ds i)) -> deployment <> "" ->
  let prefix := segment_prefix deployment timeline in
  exists best, run ds 0 (NextArchivedLSNAtOrAfter deployment timeline from) s = (Ok best, s) /\
  match best with
  | Some b => from <= b /\ (exists key, HasPrefix key prefix = true /\ starts_at s key b) /\
      forall key x, HasPrefix key prefix = true -> starts_at s key x -> from <= x -> b <= x
  | None => forall key x, HasPrefix key prefix = true -> starts_at s key x -> x < from
  end.
Proof.
  intros Hds Hdep prefix.
  pose proof (wp_run healthy _ _ s ds 0 Hds (NextArchived_wp deployment timeline from s)) as H.
  destruct (run ds 0 _ s) as [r s']. cbn [fst snd] in H. destruct H as [-> H].
  destruct (H Hdep) as (best & l & -> & Hl & Hb). exists best. split; [done|].
  assert (forall key x, HasPrefix key prefix = true -> starts_at s key x -> exists i, i ∈ l /\ Key i = key) as Hin.
  { intros key x Hp (_ & o & _ & _ & Ho & _). exists (info_of key o). split; [|done].
    rewrite Hl. apply elem_of_listing. by exists o. }
  destruct best as [b|].
  - destruct Hb as (H1 & (i & Hi & Hs) & H3). split_and!; [done| |].
    + exists (Key i). split; [|done]. rewrite Hl in Hi. by apply elem_of_listing in Hi as (? & _ & _ & ?).
    + intros key x Hp Hx Hf. destruct (Hin key x Hp Hx) as (j & Hj & <-). by eapply H3.
  - intros key x Hp Hx. destruct (Hin key x Hp Hx) as (j & Hj & <-). by eapply Hb.
Qed.

Lemma NextArchivedLSN_least_witness :
  exists (C : Codec string SegmentManifest) best,
    run calm 0 (NextArchivedLSNAtOrAfter "db1" 1 0) ∅ = (Ok best, ∅).
Proof.
  exists countable_codec.
  assert ("db1" <> "") as Hd by discriminate.
  destruct (@NextArchivedLSN_least countable_codec hex_lsn calm "db1" 1 0 ∅ (fun _ => eq_refl) Hd)
    as (best & H & _).
  exists best. exact H.
Defined.
