(* ===== verification/Json.v ===== *)
(** Streaming reads of JSON documents (internal/repo/manifeststream.go and the
    frontier reader of internal/repo/walprune.go).

    A decoder is the list of tokens still to come; the end of the list is the
    end of the input or a syntax error, on which every read fails.  [tokens]
    lays a document out as the tokens of [encoding/json]. *)
From S2P Require Import Prelude GoString.
From Stdlib Require Import Ascii.

Local Open Scope string_scope.
Local Open Scope list_scope.
Local Open Scope Z_scope.

(** ** Documents and tokens *)

Inductive json :=
| JNull
| JBool (b : bool)
| JNum (text : string)
| JStr (s : string)
| JArr (l : list json)
| JObj (l : list (string * json)).

Inductive token :=
| TOpenObj | TCloseObj | TOpenArr | TCloseArr
| TNull | TBool (b : bool) | TNum (text : string) | TStr (s : string).

#[export] Instance token_eq_dec : EqDecision token.
Proof. solve_decision. Defined.

Fixpoint tokens (j : json) : list token :=
  match j with
  | JNull => [TNull]
  | JBool b => [TBool b]
  | JNum t => [TNum t]
  | JStr s => [TStr s]
  | JArr l => TOpenArr :: (fix go l := match l with [] => [] | x :: l => tokens x ++ go l end) l
                ++ [TCloseArr]
  | JObj l => TOpenObj :: (fix go l := match l with
                                       | [] => []
                                       | (k, x) :: l => TStr k :: tokens x ++ go l
                                       end) l ++ [TCloseObj]
  end.

Definition elems (l : list json) : list token :=
  (fix go l := match l with [] => [] | x :: l => tokens x ++ go l end) l.

Definition fields (l : list (string * json)) : list token :=
  (fix go l := match l with [] => [] | (k, x) :: l => TStr k :: tokens x ++ go l end) l.

(** ** The decoder *)

(** [dec.More()] *)
Definition More (d : list token) : bool :=
  match d with
  | [] | TCloseObj :: _ | TCloseArr :: _ => false
  | _ => true
  end.

(** [dec.Decode] into a value: the tree of the next value, its elements read by [rd]. *)
Definition arr_loop (rd : list token -> option (json * list token)) :=
  fix arr (n : nat) (acc : list json) (d : list token) : option (json * list token) :=
    match n with
    | O => None
    | S n =>
        match d with
        | TCloseArr :: d => Some (JArr (rev acc), d)
        | _ => match rd d with Some (x, d) => arr n (x :: acc) d | None => None end
        end
    end.

Definition obj_loop (rd : list token -> option (json * list token)) :=
  fix obj (n : nat) (acc : list (string * json)) (d : list token) : option (json * list token) :=
    match n with
    | O => None
    | S n =>
        match d with
        | TCloseObj :: d => Some (JObj (rev acc), d)
        | TStr k :: d => match rd d with Some (x, d) => obj n ((k, x) :: acc) d | None => None end
        | _ => None
        end
    end.

Fixpoint read_value (fuel : nat) (d : list token) : option (json * list token) :=
  match fuel with
  | O => None
  | S fuel =>
      match d with
      | TNull :: d => Some (JNull, d)
      | TBool b :: d => Some (JBool b, d)
      | TNum t :: d => Some (JNum t, d)
      | TStr s :: d => Some (JStr s, d)
      | TOpenArr :: d => arr_loop (read_value fuel) (S (length d)) [] d
      | TOpenObj :: d => obj_loop (read_value fuel) (S (length d)) [] d
      | _ => None
      end
  end.

Definition Decode (d : list token) : option (json * list token) := read_value (length d) d.

(** [strings.EqualFold] against an ASCII word: ASCII case, the long s (C5 BF) and
    the Kelvin sign (E2 84 AA) are the only foldings into ASCII. *)
Definition fold_ascii (c : ascii) : ascii :=
  if (65 <=? byte_of c) && (byte_of c <=? 90)
  then Ascii.ascii_of_N (Ascii.N_of_ascii c + 32) else c.

Fixpoint fold_case (s : string) : string :=
  match s with
  | EmptyString => EmptyString
  | String a s1 =>
      let plain := String (fold_ascii a) (fold_case s1) in
      match s1 with
      | EmptyString => plain
      | String b s2 =>
          if (byte_of a =? 197) && (byte_of b =? 191) then String "s"%char (fold_case s2)
          else match s2 with
               | EmptyString => plain
               | String c s3 =>
                   if (byte_of a =? 226) && (byte_of b =? 132) && (byte_of c =? 170)
                   then String "k"%char (fold_case s3) else plain
               end
      end
  end.

Definition EqualFold (s word : string) : bool := String.eqb (fold_case s) (fold_case word).

(** ** manifeststream.go *)

Definition msExpectDelim (want : token) (d : list token) : option (list token) :=
  match d with
  | t :: d => if decide (t = want) then Some d else None
  | [] => None
  end.

Definition msReadKey (d : list token) : option (string * list token) :=
  match d with TStr k :: d => Some (k, d) | _ => None end.

Definition msSkipValue (d : list token) : option (list token) := option_map snd (Decode d).

(** The [chunkRef] a value decodes to: its last [hash] field, [""] without one. *)
Fixpoint hash_field (h : string) (l : list (string * json)) : option string :=
  match l with
  | [] => Some h
  | (k, v) :: l =>
      if EqualFold k "hash" then
        match v with
        | JStr s => hash_field s l
        | JNull => hash_field h l
        | _ => None
        end
      else hash_field h l
  end.

Definition decode_chunkRef (j : json) : option string :=
  match j with
  | JObj l => hash_field "" l
  | JNull => Some ""
  | _ => None
  end.

Section streaming.
Context {S : Type} (visit : S -> string -> option S).

(** The loop of [streamChunksArray]. *)
Fixpoint chunks_loop (fuel : nat) (st : S) (d : list token) : option (S * list token) :=
  match fuel with
  | O => None
  | Datatypes.S fuel =>
      if More d then
        match Decode d with
        | None => None
        | Some (j, d) =>
            match decode_chunkRef j with
            | None => None
            | Some h => match visit st h with
                        | None => None
                        | Some st => chunks_loop fuel st d
                        end
            end
        end
      else match msExpectDelim TCloseArr d with Some d => Some (st, d) | None => None end
  end.

Definition streamChunksArray (st : S) (d : list token) : option (S * list token) :=
  match d with
  | TNull :: d => Some (st, d)
  | TOpenArr :: d => chunks_loop (length d) st d
  | _ => None
  end.

(** An object's fields: [on] reads the value of the field named [word], every other
    value is skipped. *)
Fixpoint fields_loop (word : string) (on : S -> list token -> option (S * list token))
    (fuel : nat) (st : S) (d : list token) : option (S * list token) :=
  match fuel with
  | O => None
  | Datatypes.S fuel =>
      if More d then
        match msReadKey d with
        | None => None
        | Some (key, d) =>
            if negb (EqualFold key word) then
              match msSkipValue d with Some d => fields_loop word on fuel st d | None => None end
            else
              match on st d with Some (st, d) => fields_loop word on fuel st d | None => None end
        end
      else match msExpectDelim TCloseObj d with Some d => Some (st, d) | None => None end
  end.

(** The loop of [streamFilesArray]. *)
Fixpoint files_loop (fuel : nat) (st : S) (d : list token) : option (S * list token) :=
  match fuel with
  | O => None
  | Datatypes.S fuel =>
      if More d then
        match msExpectDelim TOpenObj d with
        | None => None
        | Some d =>
            match fields_loop "chunks" streamChunksArray (length d) st d with
            | None => None
            | Some (st, d) => files_loop fuel st d
            end
        end
      else match msExpectDelim TCloseArr d with Some d => Some (st, d) | None => None end
  end.

Definition streamFilesArray (st : S) (d : list token) : option (S * list token) :=
  match d with
  | TNull :: d => Some (st, d)
  | TOpenArr :: d => files_loop (length d) st d
  | _ => None
  end.

Definition streamBackupChunkRefs (st : S) (d : list token) : option S :=
  match msExpectDelim TOpenObj d with
  | None => None
  | Some d => option_map fst (fields_loop "files" streamFilesArray (length d) st d)
  end.

Definition streamSegmentChunkRefs (st : S) (d : list token) : option S :=
  match msExpectDelim TOpenObj d with
  | None => None
  | Some d => option_map fst (fields_loop "chunks" streamChunksArray (length d) st d)
  end.
End streaming.

(** ** walprune.go's frontier reader *)

(** The loop of [skipJSONValue]. *)
Fixpoint skip_loop (fuel : nat) (depth : Z) (d : list token) : option (list token) :=
  match fuel, d with
  | O, _ | _, [] => None
  | Datatypes.S fuel, t :: d =>
      let depth := match t with
                   | TOpenObj | TOpenArr => depth + 1
                   | TCloseObj | TCloseArr => depth - 1
                   | _ => depth
                   end in
      if depth =? 0 then Some d else skip_loop fuel depth d
  end.

Definition skipJSONValue (d : list token) : option (list token) := skip_loop (length d) 0 d.

Record backupManifestDecode := { bd_BackupID : string; bd_StartLSN : string }.

(** [dec.Decode] into a string field: [null] leaves it as it is. *)
Definition decode_string (old : string) (d : list token) : option (string * list token) :=
  match Decode d with
  | Some (JStr s, d) => Some (s, d)
  | Some (JNull, d) => Some (old, d)
  | _ => None
  end.

Fixpoint frontier_loop (fuel : nat) (m : backupManifestDecode) (gotID gotLSN : bool)
    (d : list token) : option backupManifestDecode :=
  match fuel with
  | O => None
  | Datatypes.S fuel =>
      if More d && negb (gotID && gotLSN) then
        match d with
        | [] => None
        | t :: d =>
            let name := match t with TStr s => s | _ => "" end in
            if String.eqb name "backup_id" then
              match decode_string (bd_BackupID m) d with
              | None => None
              | Some (s, d) => frontier_loop fuel
                  {| bd_BackupID := s; bd_StartLSN := bd_StartLSN m |} true gotLSN d
              end
            else if String.eqb name "start_lsn" then
              match decode_string (bd_StartLSN m) d with
              | None => None
              | Some (s, d) => frontier_loop fuel
                  {| bd_BackupID := bd_BackupID m; bd_StartLSN := s |} gotID true d
              end
            else
              match skipJSONValue d with
              | None => None
              | Some d => frontier_loop fuel m gotID gotLSN d
              end
        end
      else Some m
  end.

Definition readFrontier (d : list token) : option backupManifestDecode :=
  match d with
  | TOpenObj :: d => frontier_loop (Datatypes.S (length d)) {| bd_BackupID := ""; bd_StartLSN := "" |}
                       false false d
  | _ => None
  end.

(** ** Reading back a document *)

Lemma tokens_arr l : tokens (JArr l) = TOpenArr :: elems l ++ [TCloseArr].
Proof. done. Qed.

Lemma tokens_obj l : tokens (JObj l) = TOpenObj :: fields l ++ [TCloseObj].
Proof. done. Qed.

Lemma elems_cons x l : elems (x :: l) = tokens x ++ elems l.
Proof. done. Qed.

Lemma fields_cons k x l : fields ((k, x) :: l) = TStr k :: tokens x ++ fields l.
Proof. done. Qed.

(** A value starts with a token that closes nothing. *)
Lemma tokens_head j : exists t ts, tokens j = t :: ts /\ t <> TCloseArr /\ t <> TCloseObj.
Proof. destruct j; eexists _, _; split_and!; try done. Qed.

Lemma tokens_More j rest : More (tokens j ++ rest) = true.
Proof. destruct j; reflexivity. Qed.

Lemma arr_loop_elems rd l rest :
  (forall x rest, x ∈ l -> rd (tokens x ++ rest) = Some (x, rest)) ->
  forall n acc, (length l < n)%nat ->
  arr_loop rd n acc (elems l ++ TCloseArr :: rest) = Some (JArr (rev acc ++ l), rest).
Proof.
  induction l as [|x l IH]; intros Hrd n acc Hn; (destruct n as [|n]; [lia|]).
  - cbn. by rewrite app_nil_r.
  - rewrite elems_cons, <- app_assoc. cbn [arr_loop].
    destruct (tokens_head x) as (t & ts & Et & Ha & _).
    pose proof (Hrd x (elems l ++ TCloseArr :: rest) ltac:(left)) as Hx. rewrite Et in *.
    cbn [app] in *. rewrite Hx. cbn [length] in Hn.
    rewrite IH; [|intros; apply Hrd; by right|lia]. cbn [rev]. rewrite <- app_assoc.
    by destruct t.
Qed.

Lemma obj_loop_fields rd l rest :
  (forall k x rest, (k, x) ∈ l -> rd (tokens x ++ rest) = Some (x, rest)) ->
  forall n acc, (length l < n)%nat ->
  obj_loop rd n acc (fields l ++ TCloseObj :: rest) = Some (JObj (rev acc ++ l), rest).
Proof.
  induction l as [|[k x] l IH]; intros Hrd n acc Hn; (destruct n as [|n]; [lia|]).
  - cbn. by rewrite app_nil_r.
  - rewrite fields_cons. cbn [app obj_loop]. rewrite <- app_assoc.
    rewrite (Hrd k) by left. cbn [length] in Hn.
    rewrite IH; [|intros; eapply Hrd; by right|lia]. cbn [rev]. by rewrite <- app_assoc.
Qed.

Lemma elem_tokens_le x l : x ∈ l -> (length (tokens x) <= length (elems l))%nat.
Proof.
  induction l as [|y l IH]; [by intros ?%not_elem_of_nil|].
  rewrite elems_cons, length_app. intros [->|H]%elem_of_cons; [lia|]. specialize (IH H). lia.
Qed.

Lemma field_tokens_le k x l : (k, x) ∈ l -> (length (tokens x) <= length (fields l))%nat.
Proof.
  induction l as [|[k' y] l IH]; [by intros ?%not_elem_of_nil|].
  rewrite fields_cons. cbn [length]. rewrite length_app.
  intros [[= -> ->]|H]%elem_of_cons; [lia|]. specialize (IH H). lia.
Qed.

Lemma elems_length l : (length l <= length (elems l))%nat.
Proof.
  induction l as [|x l IH]; [done|]. rewrite elems_cons, length_app.
  destruct (tokens_head x) as (t & ts & -> & _). cbn. lia.
Qed.

Lemma fields_length l : (length l <= length (fields l))%nat.
Proof. induction l as [|[k x] l IH]; [done|]. rewrite fields_cons. cbn. rewrite length_app. lia. Qed.

Lemma read_value_tokens fuel j rest :
  (length (tokens j) <= fuel)%nat -> read_value fuel (tokens j ++ rest) = Some (j, rest).
Proof.
  revert j rest. induction fuel as [|fuel IH]; intros j rest Hf.
  { destruct (tokens_head j) as (t & ts & E & _). rewrite E in Hf. cbn in Hf. lia. }
  destruct j as [|b|t|s|l|l]; try done.
  - rewrite tokens_arr in *. cbn [app length read_value] in *. rewrite length_app in Hf. cbn in Hf.
    rewrite <- app_assoc. cbn [app]. rewrite arr_loop_elems; [done| |].
    + intros x rest' Hx. apply IH. pose proof (elem_tokens_le x l Hx). lia.
    + rewrite length_app. pose proof (elems_length l). lia.
  - rewrite tokens_obj in *. cbn [app length read_value] in *. rewrite length_app in Hf. cbn in Hf.
    rewrite <- app_assoc. cbn [app]. rewrite obj_loop_fields; [done| |].
    + intros k x rest' Hx. apply IH. pose proof (field_tokens_le k x l Hx). lia.
    + rewrite length_app. pose proof (fields_length l). lia.
Qed.

Lemma Decode_tokens j rest : Decode (tokens j ++ rest) = Some (j, rest).
Proof. apply read_value_tokens. rewrite length_app. lia. Qed.

(** ** Streaming is a fold over the document *)

(** Related visitors give related results. *)
Section stream_simulation.
Context {S1 S2 : Type} (R : S1 -> S2 -> Prop)
  (v1 : S1 -> string -> option S1) (v2 : S2 -> string -> option S2).

Definition sim_opt {A1 A2} (P : A1 -> A2 -> Prop) (x : option A1) (y : option A2) : Prop :=
  match x, y with
  | Some a, Some b => P a b
  | None, None => True
  | _, _ => False
  end.

Definition sim_rest (p : S1 * list token) (q : S2 * list token) : Prop := R p.1 q.1 /\ p.2 = q.2.

Hypothesis visits : forall a b h, R a b -> sim_opt R (v1 a h) (v2 b h).

Lemma chunks_loop_sim fuel a b d : R a b ->
  sim_opt sim_rest (chunks_loop v1 fuel a d) (chunks_loop v2 fuel b d).
Proof.
  revert a b d. induction fuel as [|fuel IH]; intros a b d Hab; cbn [chunks_loop]; [done|].
  destruct (More d).
  - destruct (Decode d) as [[j d']|]; [|done]. destruct (decode_chunkRef j) as [h|]; [|done].
    specialize (visits a b h Hab). destruct (v1 a h), (v2 b h); try done. by apply IH.
  - by destruct (msExpectDelim TCloseArr d).
Qed.

Lemma streamChunksArray_sim a b d : R a b ->
  sim_opt sim_rest (streamChunksArray v1 a d) (streamChunksArray v2 b d).
Proof. intros Hab. destruct d as [|[] d]; try done. by apply chunks_loop_sim. Qed.

Lemma fields_loop_sim word on1 on2 fuel a b d :
  (forall a b d, R a b -> sim_opt sim_rest (on1 a d) (on2 b d)) -> R a b ->
  sim_opt sim_rest (fields_loop word on1 fuel a d) (fields_loop word on2 fuel b d).
Proof.
  intros Hon. revert a b d. induction fuel as [|fuel IH]; intros a b d Hab; cbn [fields_loop]; [done|].
  destruct (More d); [|by destruct (msExpectDelim TCloseObj d)].
  destruct (msReadKey d) as [[key d']|]; [|done]. destruct (negb (EqualFold key word)).
  - destruct (msSkipValue d'); [by apply IH|done].
  - specialize (Hon a b d' Hab). destruct (on1 a d') as [[a' e]|], (on2 b d') as [[b' e']|]; try done.
    destruct Hon as [H1 H2]; simpl in *; subst. by apply IH.
Qed.

Lemma files_loop_sim fuel a b d : R a b ->
  sim_opt sim_rest (files_loop v1 fuel a d) (files_loop v2 fuel b d).
Proof.
  revert a b d. induction fuel as [|fuel IH]; intros a b d Hab; cbn [files_loop]; [done|].
  destruct (More d); [|by destruct (msExpectDelim TCloseArr d)].
  destruct (msExpectDelim TOpenObj d) as [d'|]; [|done].
  pose proof (fields_loop_sim "chunks" _ _ (length d') a b d' streamChunksArray_sim Hab) as H.
  destruct (fields_loop _ (streamChunksArray v1) _ a d') as [[a' e]|],
    (fields_loop _ (streamChunksArray v2) _ b d') as [[b' e']|]; try done.
  destruct H as [H1 H2]; simpl in *; subst. by apply IH.
Qed.

Lemma streamBackupChunkRefs_sim a b d : R a b ->
  sim_opt R (streamBackupChunkRefs v1 a d) (streamBackupChunkRefs v2 b d).
Proof.
  intros Hab. unfold streamBackupChunkRefs. destruct (msExpectDelim TOpenObj d) as [d'|]; [|done].
  assert (forall a b d, R a b -> sim_opt sim_rest (streamFilesArray v1 a d) (streamFilesArray v2 b d)) as Hf.
  { intros a0 b0 d0 H0. destruct d0 as [|[] d0]; try done. by apply files_loop_sim. }
  pose proof (fields_loop_sim "files" _ _ (length d') a b d' Hf Hab) as H.
  destruct (fields_loop _ (streamFilesArray v1) _ a d') as [[a' e]|],
    (fields_loop _ (streamFilesArray v2) _ b d') as [[b' e']|]; try done.
  by destruct H.
Qed.

Lemma streamSegmentChunkRefs_sim a b d : R a b ->
  sim_opt R (streamSegmentChunkRefs v1 a d) (streamSegmentChunkRefs v2 b d).
Proof.
  intros Hab. unfold streamSegmentChunkRefs. destruct (msExpectDelim TOpenObj d) as [d'|]; [|done].
  pose proof (fields_loop_sim "chunks" _ _ (length d') a b d' streamChunksArray_sim Hab) as H.
  destruct (fields_loop _ (streamChunksArray v1) _ a d') as [[a' e]|],
    (fields_loop _ (streamChunksArray v2) _ b d') as [[b' e']|]; try done.
  by destruct H.
Qed.
End stream_simulation.

Section trees.
Context {S : Type} (visit : S -> string -> option S).

Fixpoint foldM {A} (f : S -> A -> option S) (st : S) (l : list A) : option S :=
  match l with
  | [] => Some st
  | x :: l => match f st x with Some st => foldM f st l | None => None end
  end.

Definition visit_chunk (st : S) (j : json) : option S :=
  match decode_chunkRef j with Some h => visit st h | None => None end.

(** The hashes of a [chunks] value. *)
Definition chunks_tree (st : S) (j : json) : option S :=
  match j with
  | JNull => Some st
  | JArr l => foldM visit_chunk st l
  | _ => None
  end.

(** The fields of an object that a word names, in their order. *)
Definition obj_tree (word : string) (on : S -> json -> option S) (st : S)
    (l : list (string * json)) : option S :=
  foldM (fun st kv => if EqualFold kv.1 word then on st kv.2 else Some st) st l.

Definition file_tree (st : S) (j : json) : option S :=
  match j with JObj l => obj_tree "chunks" chunks_tree st l | _ => None end.

Definition files_tree (st : S) (j : json) : option S :=
  match j with
  | JNull => Some st
  | JArr l => foldM file_tree st l
  | _ => None
  end.

Definition backup_tree (st : S) (j : json) : option S :=
  match j with JObj l => obj_tree "files" files_tree st l | _ => None end.

Definition segment_tree (st : S) (j : json) : option S :=
  match j with JObj l => obj_tree "chunks" chunks_tree st l | _ => None end.

(** A reader of values computes [tree]: from a value's tokens, its result and what
    follows them. *)
Definition reads (on : S -> list token -> option (S * list token)) (tree : S -> json -> option S) : Prop :=
  forall st j rest, on st (tokens j ++ rest) = option_map (fun st => (st, rest)) (tree st j).

Lemma chunks_loop_elems l st rest fuel : (length l < fuel)%nat ->
  chunks_loop visit fuel st (elems l ++ TCloseArr :: rest)
  = option_map (fun st => (st, rest)) (foldM visit_chunk st l).
Proof.
  revert st fuel. induction l as [|x l IH]; intros st fuel Hf; (destruct fuel as [|fuel]; [lia|]).
  - done.
  - rewrite elems_cons, <- app_assoc. cbn [chunks_loop]. rewrite tokens_More, Decode_tokens.
    cbn [foldM]. unfold visit_chunk at 1. destruct (decode_chunkRef x); [|done].
    destruct (visit st s); [|done]. apply IH. cbn in Hf. lia.
Qed.

Lemma streamChunksArray_reads : reads (streamChunksArray visit) chunks_tree.
Proof.
  intros st j rest. destruct j as [|b|t|s|l|l]; try done.
  rewrite tokens_arr. cbn [app streamChunksArray chunks_tree]. rewrite <- app_assoc. cbn [app].
  apply chunks_loop_elems. rewrite length_app. cbn. pose proof (elems_length l). lia.
Qed.

Lemma fields_loop_fields word on tree l st rest fuel : reads on tree -> (length l < fuel)%nat ->
  fields_loop word on fuel st (fields l ++ TCloseObj :: rest)
  = option_map (fun st => (st, rest)) (obj_tree word tree st l).
Proof.
  intros Hr. revert st fuel. induction l as [|[k x] l IH]; intros st fuel Hf;
    (destruct fuel as [|fuel]; [lia|]); [done|].
  rewrite fields_cons. cbn [app fields_loop More msReadKey]. rewrite <- app_assoc.
  unfold obj_tree. cbn [foldM fst snd]. cbn in Hf.
  destruct (EqualFold k word); cbn [negb].
  - rewrite Hr. destruct (tree st x); [|done]. cbn [option_map]. apply IH. lia.
  - unfold msSkipValue. rewrite Decode_tokens. cbn [option_map snd]. apply IH. lia.
Qed.

Lemma files_loop_elems l st rest fuel : (length l < fuel)%nat ->
  files_loop visit fuel st (elems l ++ TCloseArr :: rest)
  = option_map (fun st => (st, rest)) (foldM file_tree st l).
Proof.
  revert st fuel. induction l as [|x l IH]; intros st fuel Hf; (destruct fuel as [|fuel]; [lia|]).
  - done.
  - rewrite elems_cons, <- app_assoc. cbn [files_loop foldM]. rewrite tokens_More.
    destruct x as [|b|t|s|fs|fs]; try done.
    rewrite tokens_obj. cbn [app msExpectDelim file_tree]. rewrite decide_True by done.
    rewrite <- app_assoc. cbn [app].
    rewrite (fields_loop_fields _ _ chunks_tree) by
      (apply streamChunksArray_reads || (rewrite length_app; cbn; pose proof (fields_length fs); lia)).
    destruct (obj_tree _ _ st fs); [|done]. cbn [option_map]. apply IH. cbn in Hf. lia.
Qed.

Lemma streamFilesArray_reads : reads (streamFilesArray visit) files_tree.
Proof.
  intros st j rest. destruct j as [|b|t|s|l|l]; try done.
  rewrite tokens_arr. cbn [app streamFilesArray files_tree]. rewrite <- app_assoc. cbn [app].
  apply files_loop_elems. rewrite length_app. cbn. pose proof (elems_length l). lia.
Qed.

(** Reading an object's document through its fields. *)
Lemma stream_object word on tree l st rest : reads on tree ->
  option_map fst (fields_loop word on (length (fields l ++ TCloseObj :: rest)) st
    (fields l ++ TCloseObj :: rest)) = obj_tree word tree st l.
Proof.
  intros Hr. rewrite (fields_loop_fields _ _ tree) by
    (done || (rewrite length_app; cbn; pose proof (fields_length l); lia)).
  by destruct (obj_tree _ _ st l).
Qed.
End trees.

(** The streaming readers of backup and segment manifests visit exactly the chunk
    hashes a fold over the whole document visits, in order, and fail on exactly the
    documents it fails on, whatever follows the document and whatever the visitor does. *)
Theorem manifest_stream_is_fold {S : Type} (visit : S -> string -> option S) (st : S)
    (j : json) (rest : list token) :
  streamBackupChunkRefs visit st (tokens j ++ rest) = backup_tree visit st j /\
  streamSegmentChunkRefs visit st (tokens j ++ rest) = segment_tree visit st j.
Proof.
  unfold streamBackupChunkRefs, streamSegmentChunkRefs.
  destruct j as [|b|t|s|l|l]; try done.
  rewrite tokens_obj. cbn [app msExpectDelim]. rewrite decide_True by done.
  rewrite <- app_assoc. cbn [app]. split; apply stream_object.
  - apply streamFilesArray_reads.
  - apply streamChunksArray_reads.
Qed.

(** ** The frontier reader *)

Lemma skip_tokens_deep j : forall fuel depth rest, 0 < depth ->
  skip_loop (length (tokens j) + fuel) depth (tokens j ++ rest) = skip_loop fuel depth rest.
Proof.
  enough (H : forall n j, (length (tokens j) <= n)%nat -> forall fuel depth rest, 0 < depth ->
    skip_loop (length (tokens j) + fuel) depth (tokens j ++ rest) = skip_loop fuel depth rest)
    by (intros; by eapply H).
  induction n as [|n IH]; intros x Hn fuel depth rest Hd.
  { destruct (tokens_head x) as (t & ts & E & _). rewrite E in Hn. cbn in Hn. lia. }
  assert (forall l fuel depth rest, (length (elems l) <= n)%nat -> 0 < depth ->
    skip_loop (length (elems l) + fuel) depth (elems l ++ rest) = skip_loop fuel depth rest) as He.
  { induction l as [|y l IHl]; intros fuel' depth' rest' Hl Hd'; [done|].
    rewrite elems_cons in *. rewrite length_app in *. rewrite <- app_assoc, <- Nat.add_assoc.
    rewrite IH by lia. apply IHl; lia. }
  assert (forall l fuel depth rest, (length (fields l) <= n)%nat -> 0 < depth ->
    skip_loop (length (fields l) + fuel) depth (fields l ++ rest) = skip_loop fuel depth rest) as Hfs.
  { induction l as [|[k y] l IHl]; intros fuel' depth' rest' Hl Hd'; [done|].
    rewrite fields_cons in *. cbn [length app Nat.add skip_loop] in *. rewrite length_app in *.
    rewrite (proj2 (Z.eqb_neq _ _)) by lia. rewrite <- app_assoc, <- Nat.add_assoc.
    rewrite IH by lia. apply IHl; lia. }
  destruct x as [|b|t|s|l|l]; cbn [tokens length Nat.add app skip_loop];
    try (rewrite (proj2 (Z.eqb_neq _ _)) by lia; done).
  - change ((fix go l := match l with [] => [] | x :: l => tokens x ++ go l end) l) with (elems l).
    rewrite tokens_arr in Hn. cbn [length] in Hn. rewrite length_app in *. cbn [length] in *.
    rewrite (proj2 (Z.eqb_neq _ _)) by lia. rewrite <- app_assoc, <- Nat.add_assoc.
    rewrite He by lia. cbn [Nat.add app skip_loop]. rewrite (proj2 (Z.eqb_neq _ _)) by lia.
    f_equal. lia.
  - change ((fix go l := match l with [] => [] | (k, x) :: l => TStr k :: tokens x ++ go l end) l) with (fields l).
    rewrite tokens_obj in Hn. cbn [length] in Hn. rewrite length_app in *. cbn [length] in *.
    rewrite (proj2 (Z.eqb_neq _ _)) by lia. rewrite <- app_assoc, <- Nat.add_assoc.
    rewrite Hfs by lia. cbn [Nat.add app skip_loop]. rewrite (proj2 (Z.eqb_neq _ _)) by lia.
    f_equal. lia.
Qed.

Lemma skip_elems_deep l fuel depth rest : 0 < depth ->
  skip_loop (length (elems l) + fuel) depth (elems l ++ rest) = skip_loop fuel depth rest.
Proof.
  intros Hd. induction l as [|x l IH]; [done|]. rewrite elems_cons, length_app, <- app_assoc, <- Nat.add_assoc.
  by rewrite skip_tokens_deep.
Qed.

Lemma skip_fields_deep l fuel depth rest : 0 < depth ->
  skip_loop (length (fields l) + fuel) depth (fields l ++ rest) = skip_loop fuel depth rest.
Proof.
  intros Hd. induction l as [|[k x] l IH]; [done|].
  rewrite fields_cons. cbn [length app Nat.add skip_loop]. rewrite (proj2 (Z.eqb_neq _ _)) by lia.
  rewrite length_app, <- app_assoc, <- Nat.add_assoc. by rewrite skip_tokens_deep.
Qed.

(** Skipping a value leaves what follows it. *)
Lemma skipJSONValue_tokens j rest : skipJSONValue (tokens j ++ rest) = Some rest.
Proof.
  unfold skipJSONValue. rewrite length_app. destruct j as [|b|t|s|l|l]; try done.
  - rewrite tokens_arr. cbn [length app Nat.add skip_loop Z.add Z.eqb]. rewrite length_app, <- !app_assoc.
    rewrite <- Nat.add_assoc, skip_elems_deep by lia. done.
  - rewrite tokens_obj. cbn [length app Nat.add skip_loop Z.add Z.eqb]. rewrite length_app, <- !app_assoc.
    rewrite <- Nat.add_assoc, skip_fields_deep by lia. done.
Qed.

(** The value of a string field of a document: the first one, [""] without one. *)
Fixpoint string_field (name : string) (l : list (string * json)) : string :=
  match l with
  | [] => ""
  | (k, v) :: l => if String.eqb k name then match v with JStr s => s | _ => "" end
                   else string_field name l
  end.

(** The fields the frontier needs are strings, and named once. *)
Definition frontier_ready (l : list (string * json)) : Prop :=
  NoDup (map fst l) /\
  forall k v, (k, v) ∈ l -> k = "backup_id" \/ k = "start_lsn" -> exists s, v = JStr s.

Lemma string_field_absent name l : name ∉ map fst l -> string_field name l = "".
Proof.
  induction l as [|[k v] l IH]; [done|]. cbn. rewrite not_elem_of_cons. intros [Hk Hl].
  destruct (String.eqb_spec k name); [congruence|]. auto.
Qed.

Lemma frontier_loop_fields l : frontier_ready l -> forall fuel m gotID gotLSN rest,
  (length l < fuel)%nat ->
  (gotID = true -> "backup_id" ∉ map fst l) -> (gotLSN = true -> "start_lsn" ∉ map fst l) ->
  (gotID = false -> bd_BackupID m = "") -> (gotLSN = false -> bd_StartLSN m = "") ->
  frontier_loop fuel m gotID gotLSN (fields l ++ TCloseObj :: rest) =
  Some {| bd_BackupID := if gotID then bd_BackupID m else string_field "backup_id" l;
          bd_StartLSN := if gotLSN then bd_StartLSN m else string_field "start_lsn" l |}.
Proof.
  induction l as [|[k v] l IH]; intros [Hnd Hstr] fuel m gotID gotLSN rest Hf Hi Hl Hmi Hml;
    (destruct fuel as [|fuel]; [cbn in Hf; lia|]).
  - cbn. destruct m as [i s], gotID, gotLSN; cbn in *; rewrite ?Hmi, ?Hml by done; done.
  - rewrite fields_cons. cbn [app frontier_loop More]. cbn [length] in Hf.
    cbn [map fst] in *. apply NoDup_cons in Hnd as [Hk Hnd].
    assert (frontier_ready l) as Hr by (split; [done|]; intros; eapply Hstr; [by right|done]).
    assert (gotID = true -> "backup_id" ∉ map fst l) as Hi'
      by (intros Hg; specialize (Hi Hg); set_solver).
    assert (gotLSN = true -> "start_lsn" ∉ map fst l) as Hl'
      by (intros Hg; specialize (Hl Hg); set_solver).
    destruct (gotID && gotLSN) eqn:Eg; cbn [negb andb].
    { apply andb_true_iff in Eg as [-> ->]. by destruct m. }
    cbn [string_field]. rewrite <- app_assoc.
    destruct (String.eqb_spec k "backup_id") as [->|Hkb].
    { destruct (Hstr "backup_id" v ltac:(left) ltac:(by left)) as [s ->].
      destruct gotID; [destruct (Hi eq_refl); left|].
      unfold decode_string. rewrite Decode_tokens.
      rewrite IH; first [done | lia]. }
    destruct (String.eqb_spec k "start_lsn") as [->|Hks].
    { destruct (Hstr "start_lsn" v ltac:(left) ltac:(by right)) as [s ->].
      destruct gotLSN; [destruct (Hl eq_refl); left|].
      unfold decode_string. rewrite Decode_tokens.
      rewrite IH; first [done | lia]. }
    rewrite skipJSONValue_tokens. rewrite IH; first [done | lia].
Qed.

(** The early-stopping reader gives the two fields of the document. *)
Lemma readFrontier_fields l rest : frontier_ready l ->
  readFrontier (tokens (JObj l) ++ rest) =
  Some {| bd_BackupID := string_field "backup_id" l; bd_StartLSN := string_field "start_lsn" l |}.
Proof.
  intros Hl. rewrite tokens_obj. cbn [app readFrontier]. rewrite <- app_assoc. cbn [app].
  rewrite frontier_loop_fields; try done.
  rewrite length_app. cbn. pose proof (fields_length l). lia.
Qed.
