(* ===== verification/WalPrune.v ===== *)
(** WAL retention (internal/repo/walprune.go): which archived segments may go.

    The frontier is the least start position of the backups still kept; a
    segment manifest is deleted only when it ends before it.  [tokenize] is the
    scanner of [encoding/json] and [unmarshal_segment] its struct decoding: the
    JSON text of a stored document is theirs. *)
From S2P Require Import Prelude GoString Storage Commit Lsn Timeline WalSegment Json.
From Stdlib Require Import Ascii.

Local Open Scope string_scope.
Local Open Scope list_scope.
Local Open Scope Z_scope.

(** ** Keys *)

(** [isStaleTempKey] (stale_temp_key_guard.go): the staging marker in the base name. *)
Definition isStaleTempKey (key : string) : bool :=
  Contains (basename key) ".json.tmp." || Contains (basename key) ".history.tmp.".

Definition isHexString (s : string) : bool :=
  all_chars (fun c => match hexNibble c with Some _ => true | None => false end) s.

Definition isWALSegmentManifestRel (rel : string) : bool :=
  match CutByte rel slash with
  | None => false
  | Some (tli, file) =>
      if negb (String.length tli =? 8)%nat || negb (isHexString tli) then false
      else
        let '(seg, found) := CutSuffix file ".json" in
        found && negb (String.eqb seg "") && isHexString seg
  end.

Definition segmentNameFromKey (key : string) : string :=
  if negb (HasSuffix key ".json") then key else basename (TrimSuffix key ".json").

Definition tliOfKey (key : string) : string :=
  let parts := SplitByte key slash in
  if (4 <=? length parts)%nat then nth 2 parts "" else "".

(** ** Options and result *)

Definition DefaultTombstoneGracePeriod : duration := 24 * Time.Hour.

Record WALPruneOptions := {
  wo_Deployment : string;
  wo_DryRun : bool;
  wo_KeepFloorTime : time;
  wo_TombstoneGrace : duration;
  wo_Now : time
}.

Definition walPruneGrace (o : WALPruneOptions) : duration :=
  if wo_TombstoneGrace o =? 0 then DefaultTombstoneGracePeriod
  else if wo_TombstoneGrace o <? 0 then 0
  else wo_TombstoneGrace o.

Definition walPruneNow (o : WALPruneOptions) : prog string time :=
  if Time.IsZero (wo_Now o) then now else Ret (wo_Now o).

Inductive Outcome := kept | would_delete | deleted | failed.

(** The result's counters, the failures it lists and the progress events, newest last. *)
Record WALPruneResult := {
  FrontierLSN : string;
  FrontierBackupID : string;
  SegmentsConsidered : Z;
  SegmentsDeleted : Z;
  SegmentsKept : Z;
  SegmentsKeptByFloor : Z;
  SegmentsKeptByUnknownAge : Z;
  SegmentsFailed : Z;
  BytesDeleted : Z;
  Failures : list string;
  Progress : list (string * Outcome)
}.

Definition maxWALPruneFailures : nat := 50.

Definition result0 (frontier backup : string) : WALPruneResult :=
  {| FrontierLSN := frontier; FrontierBackupID := backup; SegmentsConsidered := 0;
     SegmentsDeleted := 0; SegmentsKept := 0; SegmentsKeptByFloor := 0;
     SegmentsKeptByUnknownAge := 0; SegmentsFailed := 0; BytesDeleted := 0;
     Failures := []; Progress := [] |}.

(** [recordWALPruneFailure]: the list is capped, the counters are not. *)
Definition recordWALPruneFailure (r : WALPruneResult) (key : string) : list string :=
  if (maxWALPruneFailures <=? length (Failures r))%nat then Failures r else Failures r ++ [key].

Definition considered (r : WALPruneResult) : WALPruneResult :=
  {| FrontierLSN := FrontierLSN r; FrontierBackupID := FrontierBackupID r;
     SegmentsConsidered := SegmentsConsidered r + 1; SegmentsDeleted := SegmentsDeleted r;
     SegmentsKept := SegmentsKept r; SegmentsKeptByFloor := SegmentsKeptByFloor r;
     SegmentsKeptByUnknownAge := SegmentsKeptByUnknownAge r; SegmentsFailed := SegmentsFailed r;
     BytesDeleted := BytesDeleted r; Failures := Failures r; Progress := Progress r |}.

Definition note_kept (r : WALPruneResult) (seg : string) (byFloor unknownAge : bool) : WALPruneResult :=
  {| FrontierLSN := FrontierLSN r; FrontierBackupID := FrontierBackupID r;
     SegmentsConsidered := SegmentsConsidered r; SegmentsDeleted := SegmentsDeleted r;
     SegmentsKept := SegmentsKept r + 1;
     SegmentsKeptByFloor := SegmentsKeptByFloor r + (if byFloor then 1 else 0);
     SegmentsKeptByUnknownAge := SegmentsKeptByUnknownAge r + (if unknownAge then 1 else 0);
     SegmentsFailed := SegmentsFailed r; BytesDeleted := BytesDeleted r;
     Failures := Failures r; Progress := Progress r ++ [(seg, kept)] |}.

Definition note_failed (r : WALPruneResult) (key seg : string) : WALPruneResult :=
  {| FrontierLSN := FrontierLSN r; FrontierBackupID := FrontierBackupID r;
     SegmentsConsidered := SegmentsConsidered r; SegmentsDeleted := SegmentsDeleted r;
     SegmentsKept := SegmentsKept r; SegmentsKeptByFloor := SegmentsKeptByFloor r;
     SegmentsKeptByUnknownAge := SegmentsKeptByUnknownAge r;
     SegmentsFailed := SegmentsFailed r + 1; BytesDeleted := BytesDeleted r;
     Failures := recordWALPruneFailure r key; Progress := Progress r ++ [(seg, failed)] |}.

Definition note_deleted (r : WALPruneResult) (seg : string) (bytes : Z) (how : Outcome) : WALPruneResult :=
  {| FrontierLSN := FrontierLSN r; FrontierBackupID := FrontierBackupID r;
     SegmentsConsidered := SegmentsConsidered r; SegmentsDeleted := SegmentsDeleted r + 1;
     SegmentsKept := SegmentsKept r; SegmentsKeptByFloor := SegmentsKeptByFloor r;
     SegmentsKeptByUnknownAge := SegmentsKeptByUnknownAge r; SegmentsFailed := SegmentsFailed r;
     BytesDeleted := i64 (BytesDeleted r + bytes); Failures := Failures r;
     Progress := Progress r ++ [(seg, how)] |}.

Inductive prune_err :=
| DeploymentRequired
| ListManifests (e : serr)
| ReadManifest (key : string)
| BadStartLSN (key : string)
| ListSegments (e : serr).

(** The fields of a segment manifest the pass reads. *)
Record walSegmentDecode := {
  sd_EndLSN : string;
  sd_CreatedAt : time;
  sd_Lens : list Z
}.

Definition sumChunkLengths (lens : list Z) : Z := fold_left (fun total l => i64 (total + l)) lens 0.

Section prune.
Context (tokenize : string -> list token) (unmarshal_segment : string -> option walSegmentDecode).
Context `{L : LSN}.

(** ** The frontier *)

Definition readManifestFrontier (key : string) : prog string (option backupManifestDecode) :=
  let* r := sGet key in
  match r with
  | Err _ => Ret None
  | Ok body => Ret (readFrontier (tokenize body))
  end.

Definition backups_prefix (deployment : string) : string := "manifests/" +:+ deployment +:+ "/backups/".

(** Whether a tombstone marker is old enough to exclude its backup. *)
Definition tombstone_old (cutoff : time) (graceActive : bool) (i : ObjectInfo) : bool :=
  if Time.IsZero (ModTime i) then negb graceActive else Time.Before (ModTime i) cutoff.

(** The listing loop: the dead backup ids and the manifest keys, in listing order. *)
Definition frontier_scan (prefix : string) (cutoff : time) (graceActive : bool)
    (st : gset string * list string) (i : ObjectInfo) : gset string * list string :=
  let key := Key i in
  if HasSuffix key "/manifest.json.tombstone" then
    if tombstone_old cutoff graceActive i then
      match SplitByte (TrimPrefix key prefix) slash with
      | id :: _ => ({[id]} ∪ st.1, st.2)
      | [] => st
      end
    else st
  else if HasSuffix key "/manifest.json" then
    if isStaleTempKey key then st else (st.1, st.2 ++ [key])
  else st.

(** The backup a manifest key belongs to, when it is of the layout and not dead. *)
Definition live_backup (prefix : string) (dead : gset string) (key : string) : bool :=
  match CutByte (TrimPrefix key prefix) slash with
  | Some (id, _) => negb (String.eqb id "") && negb (bool_decide (id ∈ dead))
  | None => false
  end.

(** The loop over the manifests: the least start position so far and its backup. *)
Definition frontier_step (prefix : string) (dead : gset string) (key : string)
    (best : option (Z * string)) : prog string (option (Z * string) + prune_err) :=
  if negb (live_backup prefix dead key) then Ret (inl best)
  else
    let* m := readManifestFrontier key in
    match m with
    | None => Ret (inr (ReadManifest key))
    | Some m =>
        match ParseLSN (bd_StartLSN m) with
        | None => Ret (inr (BadStartLSN key))
        | Some lsn =>
            match best with
            | Some (minLSN, _) => if lsn <? minLSN then Ret (inl (Some (lsn, bd_BackupID m)))
                                  else Ret (inl best)
            | None => Ret (inl (Some (lsn, bd_BackupID m)))
            end
        end
    end.

Definition oldestKeptBackupFrontier (deployment : string) (cutoff : time) (graceActive : bool)
    : prog string (result prune_err (option (Z * string))) :=
  let prefix := backups_prefix deployment in
  let* l := sList prefix in
  match l with
  | (_, Some e) => Ret (Err (ListManifests e))
  | (infos, None) =>
      let '(dead, keys) := fold_left (frontier_scan prefix cutoff graceActive) infos (∅, []) in
      let* r := for_ keys None (frontier_step prefix dead) in
      match r with
      | inr e => Ret (Err e)
      | inl best => Ret (Ok best)
      end
  end.

(** ** The pass *)

Definition readSegmentManifest (key : string) : prog string (option walSegmentDecode) :=
  let* r := sGet key in
  match r with
  | Err _ => Ret None
  | Ok body => match ReadAllLimited body MaxMetadataBytes with
               | None => Ret None
               | Some b => Ret (unmarshal_segment b)
               end
  end.

Record prune_state := {
  ps_curTLI : string;
  ps_pastBoundary : bool;
  ps_orderBroken : bool;
  ps_lastKey : string;
  ps_res : WALPruneResult
}.

(** The order bookkeeping at the top of the loop. *)
Definition note_order (st : prune_state) (key : string) : prune_state :=
  let st := if negb (String.eqb (tliOfKey key) (ps_curTLI st)) then
    {| ps_curTLI := tliOfKey key; ps_pastBoundary := false; ps_orderBroken := ps_orderBroken st;
       ps_lastKey := ""; ps_res := ps_res st |} else st in
  let st := if string_ltb key (ps_lastKey st) then
    {| ps_curTLI := ps_curTLI st; ps_pastBoundary := false; ps_orderBroken := true;
       ps_lastKey := ps_lastKey st; ps_res := ps_res st |} else st in
  {| ps_curTLI := ps_curTLI st; ps_pastBoundary := ps_pastBoundary st;
     ps_orderBroken := ps_orderBroken st; ps_lastKey := key; ps_res := considered (ps_res st) |}.

Definition with_res (st : prune_state) (r : WALPruneResult) : prune_state :=
  {| ps_curTLI := ps_curTLI st; ps_pastBoundary := ps_pastBoundary st;
     ps_orderBroken := ps_orderBroken st; ps_lastKey := ps_lastKey st; ps_res := r |}.

Definition past_boundary (st : prune_state) (r : WALPruneResult) : prune_state :=
  {| ps_curTLI := ps_curTLI st; ps_pastBoundary := true;
     ps_orderBroken := ps_orderBroken st; ps_lastKey := ps_lastKey st; ps_res := r |}.

(** The keep floor holds a segment whose age is unknown or not below it. *)
Definition kept_by_floor (o : WALPruneOptions) (m : walSegmentDecode) : bool :=
  negb (Time.IsZero (wo_KeepFloorTime o)) &&
  (Time.IsZero (sd_CreatedAt m) || negb (Time.Before (sd_CreatedAt m) (wo_KeepFloorTime o))).

Definition prune_step (o : WALPruneOptions) (prefix : string) (frontier : Z) (i : ObjectInfo)
    (st : prune_state) : prog string (prune_state + False) :=
  let key := Key i in
  if negb (isWALSegmentManifestRel (TrimPrefix key prefix)) then Ret (inl st)
  else
    let st := note_order st key in
    let seg := segmentNameFromKey key in
    if ps_pastBoundary st && negb (ps_orderBroken st) then
      Ret (inl (with_res st (note_kept (ps_res st) seg false false)))
    else
      let* m := readSegmentManifest key in
      match m with
      | None => Ret (inl (with_res st (note_failed (ps_res st) key seg)))
      | Some m =>
          match ParseLSN (sd_EndLSN m) with
          | None => Ret (inl (with_res st (note_failed (ps_res st) key seg)))
          | Some segEnd =>
              if frontier <=? segEnd then
                Ret (inl (past_boundary st (note_kept (ps_res st) seg false false)))
              else if kept_by_floor o m then
                Ret (inl (with_res st (note_kept (ps_res st) seg true (Time.IsZero (sd_CreatedAt m)))))
              else if wo_DryRun o then
                Ret (inl (with_res st (note_deleted (ps_res st) seg (sumChunkLengths (sd_Lens m)) would_delete)))
              else
                let* d := sDelete key in
                match d with
                | Err _ => Ret (inl (with_res st (note_failed (ps_res st) key seg)))
                | Ok _ => Ret (inl (with_res st (note_deleted (ps_res st) seg (sumChunkLengths (sd_Lens m)) deleted)))
                end
          end
      end.

Definition prune_state0 (frontier backup : string) : prune_state :=
  {| ps_curTLI := ""; ps_pastBoundary := false; ps_orderBroken := false; ps_lastKey := "";
     ps_res := result0 frontier backup |}.

Definition wal_prefix (deployment : string) : string := "wal/" +:+ deployment +:+ "/".

Definition WALPrune (o : WALPruneOptions) : prog string (WALPruneResult * option prune_err) :=
  if String.eqb (wo_Deployment o) "" then Ret (result0 "" "", Some DeploymentRequired)
  else
    let grace := walPruneGrace o in
    let* t := walPruneNow o in
    let* f := oldestKeptBackupFrontier (wo_Deployment o) (Time.Add t (- grace)) (0 <? grace) in
    match f with
    | Err e => Ret (result0 "" "", Some e)
    | Ok None => Ret (result0 "" "", None)
    | Ok (Some (frontier, backup)) =>
        if (frontier =? 0) && String.eqb backup "" then Ret (result0 "" "", None)
        else
          let prefix := wal_prefix (wo_Deployment o) in
          let* l := sList prefix in
          let* r := for_ l.1 (prune_state0 (LSN_String frontier) backup) (prune_step o prefix frontier) in
          match r with
          | inr bot => match bot : False with end
          | inl st =>
              match l.2 with
              | Some e => Ret (ps_res st, Some (ListSegments e))
              | None => Ret (ps_res st, None)
              end
          end
    end.
End prune.

(** ** The frontier is below every kept backup *)

(** What the listing loop collects. *)
Lemma frontier_scan_spec (prefix : string) cutoff ga l st :
  let '(dead, keys) := fold_left (frontier_scan prefix cutoff ga) l st in
  (forall id, id ∈ dead <-> id ∈ st.1 \/ exists i rest, i ∈ l /\
     HasSuffix (Key i) "/manifest.json.tombstone" = true /\ tombstone_old cutoff ga i = true /\
     SplitByte (TrimPrefix (Key i) prefix) slash = id :: rest) /\
  (forall key, key ∈ keys <-> key ∈ st.2 \/ exists i, i ∈ l /\ Key i = key /\
     HasSuffix key "/manifest.json.tombstone" = false /\ HasSuffix key "/manifest.json" = true /\
     isStaleTempKey key = false).
Proof.
  revert st. induction l as [|i l IH]; intros [dead keys]; cbn [fold_left].
  - split; intros x; (split; [by left|]).
    + intros HH. destruct HH as [HH|HH]; [done|]. destruct HH as (i & rest & Hi & _).
      by apply not_elem_of_nil in Hi.
    + intros HH. destruct HH as [HH|HH]; [done|]. destruct HH as (i & Hi & _).
      by apply not_elem_of_nil in Hi.
  - specialize (IH (frontier_scan prefix cutoff ga (dead, keys) i)).
    destruct (fold_left _ l _) as [dead' keys']. destruct IH as [IH1 IH2]. split.
    + intros id. rewrite IH1. clear IH1 IH2. unfold frontier_scan.
      destruct (HasSuffix (Key i) "/manifest.json.tombstone") eqn:E1;
        [destruct (tombstone_old cutoff ga i) eqn:E2;
          [destruct (SplitByte (TrimPrefix (Key i) prefix) slash) as [|x r] eqn:E3|]|
         destruct (HasSuffix (Key i) "/manifest.json"); [destruct (isStaleTempKey (Key i))|]];
        cbn [fst snd]; rewrite ?elem_of_union, ?elem_of_singleton;
        setoid_rewrite elem_of_cons; naive_solver congruence.
    + intros key. rewrite IH2. clear IH1 IH2. unfold frontier_scan.
      destruct (HasSuffix (Key i) "/manifest.json.tombstone") eqn:E1;
        [destruct (tombstone_old cutoff ga i) eqn:E2;
          [destruct (SplitByte (TrimPrefix (Key i) prefix) slash) as [|x r] eqn:E3|]|
         destruct (HasSuffix (Key i) "/manifest.json") eqn:E4; [destruct (isStaleTempKey (Key i)) eqn:E5|]];
        cbn [fst snd]; rewrite ?elem_of_app, ?list_elem_of_singleton;
        setoid_rewrite elem_of_cons; naive_solver congruence.
Qed.

Section frontier_facts.
Context (tokenize : string -> list token) `{L : LSN}.
Implicit Types (s : gmap string (object string)) (prefix key : string).

(** A backup id excluded by an old tombstone. *)
Definition dead_backup s prefix (cutoff : time) (graceActive : bool) (id : string) : Prop :=
  exists key ob, s !! key = Some ob /\ HasPrefix key prefix = true /\
    HasSuffix key "/manifest.json.tombstone" = true /\
    tombstone_old cutoff graceActive (info_of key ob) = true /\
    exists rest, SplitByte (TrimPrefix key prefix) slash = id :: rest.

(** A committed manifest of a backup that is still kept. *)
Definition kept_backup s prefix (cutoff : time) (graceActive : bool) key : Prop :=
  is_Some (s !! key) /\ HasPrefix key prefix = true /\
  HasSuffix key "/manifest.json.tombstone" = false /\
  HasSuffix key "/manifest.json" = true /\ isStaleTempKey key = false /\
  exists id rest, CutByte (TrimPrefix key prefix) slash = Some (id, rest) /\ id <> "" /\
    ~ dead_backup s prefix cutoff graceActive id.

(** The start position a manifest records. *)
Definition starts s key (l : Z) : Prop :=
  exists ob m, s !! key = Some ob /\ readFrontier (tokenize (ob_body ob)) = Some m /\
    ParseLSN (bd_StartLSN m) = Some l.

(** The best so far is the least start of the kept backups seen, and one of them. *)
Definition least_kept s prefix (dead : gset string) (seen : list string) (best : option (Z * string)) : Prop :=
  match best with
  | None => forall key, key ∈ seen -> live_backup prefix dead key = false
  | Some (lsn, _) =>
      (exists key, key ∈ seen /\ live_backup prefix dead key = true /\ starts s key lsn) /\
      forall key, key ∈ seen -> live_backup prefix dead key = true ->
        exists l, starts s key l /\ lsn <= l
  end.

Lemma frontier_step_wp D prefix dead key seen best s :
  least_kept s prefix dead seen best ->
  wp D (frontier_step tokenize prefix dead key best) (fun r s' => s' = s /\
    match r with
    | inl best => least_kept s prefix dead (seen ++ [key]) best
    | inr _ => True
    end) s.
Proof.
  intros Hb. unfold frontier_step.
  assert (forall x, x ∈ seen ++ [key] <-> x ∈ seen \/ x = key) as Hin
    by (intros x; rewrite elem_of_app, list_elem_of_singleton; done).
  destruct (live_backup prefix dead key) eqn:El; cbn [negb].
  2: { split; [done|]. destruct best as [[lsn id]|]; cbn in *.
       - destruct Hb as [(k & Hk & Hl & Hs) Hmin]. split; [exists k; rewrite Hin; auto|].
         intros k' [Hk'| ->]%Hin Hl'; [by apply Hmin|congruence].
       - by intros k' [Hk'| ->]%Hin; [apply Hb|]. }
  wp_step. unfold readManifestFrontier. wp_step; [|done|done].
  intros ob Hob. cbn [wp]. destruct (readFrontier (tokenize (ob_body ob))) as [m|] eqn:Er; [|done].
  destruct (ParseLSN (bd_StartLSN m)) as [lsn|] eqn:Ep; [|done].
  assert (starts s key lsn) as Hs by (by exists ob, m).
  destruct best as [[minLSN id]|]; [destruct (Z.ltb_spec lsn minLSN)|]; cbn in *; (split; [done|]).
  - destruct Hb as [_ Hmin]. split; [exists key; rewrite Hin; auto|].
    intros k' [Hk'| ->]%Hin Hl'; [|by exists lsn].
    destruct (Hmin k' Hk' Hl') as (l & Hl & ?). exists l. split; [done|lia].
  - destruct Hb as [(k & Hk & Hl & Hks) Hmin]. split; [exists k; rewrite Hin; auto|].
    intros k' [Hk'| ->]%Hin Hl'; [by apply Hmin|by exists lsn].
  - split; [exists key; rewrite Hin; auto|].
    intros k' [Hk'| ->]%Hin Hl'; [|by exists lsn]. rewrite Hb in Hl' by done. done.
Qed.

(** What the frontier guarantees of a store. *)
Definition frontier_of s prefix cutoff ga (best : option (Z * string)) : Prop :=
  match best with
  | None => forall key, ~ kept_backup s prefix cutoff ga key
  | Some (lsn, _) =>
      (exists key, kept_backup s prefix cutoff ga key /\ starts s key lsn) /\
      forall key, kept_backup s prefix cutoff ga key -> exists l, starts s key l /\ lsn <= l
  end.

Lemma frontier_wp D deployment cutoff ga s :
  let prefix := backups_prefix deployment in
  wp D (oldestKeptBackupFrontier tokenize deployment cutoff ga) (fun r s' => s' = s /\
    match r with Ok best => frontier_of s prefix cutoff ga best | Err _ => True end) s.
Proof.
  intros prefix. unfold oldestKeptBackupFrontier. fold prefix. wp_step; [|done].
  intros l Hl. cbn [wp]. pose proof (frontier_scan_spec prefix cutoff ga l (∅, [])) as Hscan.
  destruct (fold_left _ l _) as [dead keys]. destruct Hscan as [Hdead Hkeys]. cbn [fst snd] in *.
  assert (forall id, id ∈ dead <-> dead_backup s prefix cutoff ga id) as Hd.
  { intros id. rewrite Hdead. split.
    - intros [?|(i & rest & Hi & H1 & H2 & H3)]; [set_solver|]. rewrite Hl in Hi.
      apply elem_of_listing in Hi as (ob & Hob & Ei & Hp). exists (Key i), ob.
      split_and!; try done; [by rewrite <- Ei|by exists rest].
    - intros (key & ob & Hob & Hp & H1 & H2 & rest & H3). right. exists (info_of key ob), rest.
      split_and!; try done. rewrite Hl. apply elem_of_listing. by exists ob. }
  assert (forall key, key ∈ keys /\ live_backup prefix dead key = true <->
    kept_backup s prefix cutoff ga key) as Hk.
  { intros key. rewrite Hkeys. unfold live_backup, kept_backup. split.
    - intros [[?|(i & Hi & <- & H1 & H2 & H3)] Hlive]; [by apply not_elem_of_nil in H|].
      rewrite Hl in Hi. apply elem_of_listing in Hi as (ob & Hob & _ & Hp).
      split_and!; try done.
      destruct (CutByte _ slash) as [[id rest]|]; [|done]. exists id, rest.
      apply andb_true_iff in Hlive as [Hne Hnd]. split_and!; [done| |].
      + intros ->. done.
      + rewrite <- Hd. intros Hin. by rewrite bool_decide_eq_true_2 in Hnd.
    - intros ([ob Hob] & Hp & H1 & H2 & H3 & id & rest & Hc & Hne & Hnd). split.
      + right. exists (info_of key ob). split_and!; try done. rewrite Hl. apply elem_of_listing. by exists ob.
      + rewrite Hc. rewrite <- Hd in Hnd. rewrite bool_decide_eq_false_2 by done.
        by destruct (String.eqb_spec id ""). }
  wp_step. apply (wp_for D keys _ (fun pre post best s' => s' = s /\ least_kept s prefix dead pre best)).
  - split; [done|]. intros key Hin. by apply not_elem_of_nil in Hin.
  - intros pre key post best s' _ [-> Hb]. eapply wp_mono; [|by apply frontier_step_wp].
    intros [best'|e] s' [-> Hr]; done.
  - intros best s' [-> Hb]. split; [done|]. destruct best as [[lsn id]|]; cbn in *.
    + destruct Hb as [(key & Hin & Hlive & Hs) Hmin]. split.
      * exists key. split; [by apply Hk|done].
      * intros k [Hk1 Hk2]%Hk. by apply Hmin.
    + intros k [Hk1 Hk2]%Hk. rewrite Hb in Hk2 by done. done.
Qed.
End frontier_facts.

(** ** What a pass may delete *)

Section pass.
Context (tokenize : string -> list token) (unmarshal_segment : string -> option walSegmentDecode).
Context `{L : LSN}.
Implicit Types (s : gmap string (object string)) (o : WALPruneOptions) (key : string).

(** A segment manifest of the deployment that ends at [e]. *)
Definition segment_ends s (prefix key : string) (e : Z) (m : walSegmentDecode) : Prop :=
  HasPrefix key prefix = true /\ isWALSegmentManifestRel (TrimPrefix key prefix) = true /\
  exists ob b, s !! key = Some ob /\ ReadAllLimited (ob_body ob) MaxMetadataBytes = Some b /\
    unmarshal_segment b = Some m /\ ParseLSN (sd_EndLSN m) = Some e.

(** A segment the policy lets go. *)
Definition prunable s o (frontier : Z) (key : string) : Prop :=
  exists e m, segment_ends s (wal_prefix (wo_Deployment o)) key e m /\ e < frontier /\
    kept_by_floor o m = false.

(** A store in which only prunable segments are gone. *)
Definition pruned s o (frontier : Z) (s' : gmap string (object string)) : Prop :=
  forall k, s' !! k = s !! k \/
    (s' !! k = None /\ wo_DryRun o = false /\ prunable s o frontier k).

Lemma pruned_refl s o frontier : pruned s o frontier s.
Proof. intros k. by left. Qed.

Lemma segment_ends_fun s prefix key e m e' m' :
  segment_ends s prefix key e m -> segment_ends s prefix key e' m' -> e = e' /\ m = m'.
Proof.
  intros (_ & _ & ob & b & H1 & H2 & H3 & H4) (_ & _ & ob' & b' & K1 & K2 & K3 & K4).
  assert (ob' = ob) as -> by congruence. assert (b' = b) as -> by congruence.
  assert (m' = m) as -> by congruence. split; congruence.
Qed.

(** Reading a manifest out of a partly pruned store. *)
Lemma readSegment_wp D s s' o frontier key
    (Q : option walSegmentDecode -> gmap string (object string) -> Prop) :
  pruned s o frontier s' -> HasPrefix key (wal_prefix (wo_Deployment o)) = true ->
  isWALSegmentManifestRel (TrimPrefix key (wal_prefix (wo_Deployment o))) = true ->
  Q None s' ->
  (forall m, (forall e, ParseLSN (sd_EndLSN m) = Some e ->
     segment_ends s (wal_prefix (wo_Deployment o)) key e m) -> Q (Some m) s') ->
  wp D (readSegmentManifest unmarshal_segment key) Q s'.
Proof.
  intros Hp Hpre Hrel HN HS. unfold readSegmentManifest. wp_step; [|done..].
  intros ob Hob. assert (s !! key = Some ob) as Hs.
  { destruct (Hp key) as [E|[E _]]; [by rewrite <- E|congruence]. }
  destruct (ReadAllLimited (ob_body ob) MaxMetadataBytes) as [b|] eqn:Er; [|done]. cbn [wp].
  destruct (unmarshal_segment b) as [m|] eqn:Em; [|done]. apply HS.
  intros e He. split_and!; try done. by exists ob, b.
Qed.

Lemma pruned_delete s o frontier s' key :
  pruned s o frontier s' -> wo_DryRun o = false -> prunable s o frontier key ->
  pruned s o frontier (delete key s').
Proof.
  intros Hp Hd Hk k. destruct (decide (k = key)) as [->|Hne].
  - right. by rewrite lookup_delete_eq.
  - rewrite lookup_delete_ne by done. apply Hp.
Qed.

Lemma prune_step_wp D s s' o frontier i st :
  pruned s o frontier s' -> HasPrefix (Key i) (wal_prefix (wo_Deployment o)) = true ->
  wp D (prune_step unmarshal_segment o (wal_prefix (wo_Deployment o)) frontier i st)
    (fun _ s2 => pruned s o frontier s2) s'.
Proof.
  intros Hp Hpre. unfold prune_step.
  destruct (isWALSegmentManifestRel _) eqn:Hrel; cbn [negb]; [|done].
  cbv zeta. destruct (ps_pastBoundary _ && _); [done|]. wp_step.
  eapply readSegment_wp; try done. intros m Hm. cbn beta iota.
  destruct (ParseLSN (sd_EndLSN m)) as [e|] eqn:He; [|done]. specialize (Hm e eq_refl).
  destruct (Z.leb_spec frontier e); [done|]. destruct (kept_by_floor o m) eqn:Hk; [done|].
  destruct (wo_DryRun o) eqn:Hd; [done|].
  assert (prunable s o frontier (Key i)) as Hpr by (exists e, m; done).
  wp_step; intros; cbn [wp]; try done; by apply pruned_delete.
Qed.

(** What a whole pass does, on any backend. *)
Lemma WALPrune_wp D o s :
  wp D (WALPrune tokenize unmarshal_segment o) (fun r s' =>
    s' = s \/
    exists frontier backup t, frontier_of tokenize s (backups_prefix (wo_Deployment o))
        (Time.Add t (- walPruneGrace o)) (0 <? walPruneGrace o) (Some (frontier, backup)) /\
      (wo_Now o <> 0 -> t = wo_Now o) /\ pruned s o frontier s') s.
Proof.
  unfold WALPrune. destruct (String.eqb (wo_Deployment o) ""); [by left|]. cbv zeta.
  assert (forall t, (wo_Now o <> 0 -> t = wo_Now o) -> wp D
    (let* f := oldestKeptBackupFrontier tokenize (wo_Deployment o) (Time.Add t (- walPruneGrace o)) (0 <? walPruneGrace o) in
     match f with
     | Err e => Ret (result0 "" "", Some e)
     | Ok None => Ret (result0 "" "", None)
     | Ok (Some (frontier, backup)) =>
         if (frontier =? 0) && String.eqb backup "" then Ret (result0 "" "", None)
         else
           let prefix := wal_prefix (wo_Deployment o) in
           let* l := sList prefix in
           let* r := for_ l.1 (prune_state0 (LSN_String frontier) backup)
                       (prune_step unmarshal_segment o prefix frontier) in
           match r with
           | inr bot => match bot : False with end
           | inl st => match l.2 with
                       | Some e => Ret (ps_res st, Some (ListSegments e))
                       | None => Ret (ps_res st, None)
                       end
           end
     end) (fun r s' => s' = s \/
      exists frontier backup t, frontier_of tokenize s (backups_prefix (wo_Deployment o))
        (Time.Add t (- walPruneGrace o)) (0 <? walPruneGrace o) (Some (frontier, backup)) /\
      (wo_Now o <> 0 -> t = wo_Now o) /\ pruned s o frontier s') s) as Hgo.
  { intros t Ht. wp_step. eapply wp_mono; [|apply frontier_wp].
    intros [[[frontier backup]|]|e] s' [-> Hf]; [|by left|by left].
    destruct ((frontier =? 0) && String.eqb backup ""); [by left|]. cbv zeta.
    assert (forall l l', l ++ l' ≡ₚ listing (wal_prefix (wo_Deployment o)) s -> wp D
      (for_ l (prune_state0 (LSN_String frontier) backup)
         (prune_step unmarshal_segment o (wal_prefix (wo_Deployment o)) frontier))
      (fun r s2 => pruned s o frontier s2) s) as Hloop.
    { intros l l' Hl. apply (wp_for D l _ (fun _ _ _ s2 => pruned s o frontier s2)).
      - apply pruned_refl.
      - intros pre i post st s2 El Hp. eapply wp_mono; [|apply prune_step_wp; [done|]].
        + by intros [st'|[]] s3.
        + assert (i ∈ listing (wal_prefix (wo_Deployment o)) s) as Hi.
          { rewrite <- Hl, El. apply elem_of_app. left. apply elem_of_app. right. left. }
          by apply elem_of_listing in Hi as (? & _ & _ & ?).
      - done. }
    wp_step.
    - intros l Hl. wp_step. cbn [fst snd]. eapply wp_mono; [|apply (Hloop l []); by rewrite app_nil_r].
      intros [st|[]] s2 Hp. right. by exists frontier, backup, t.
    - intros d c l l' _ _ Hl. wp_step. cbn [fst snd]. eapply wp_mono; [|by apply (Hloop l l')].
      intros [st|[]] s2 Hp. right. by exists frontier, backup, t. }
  wp_step. unfold walPruneNow, Time.IsZero. destruct (Z.eqb_spec (wo_Now o) 0) as [E|E].
  - apply wp_now. intros d _. apply Hgo. intros; congruence.
  - apply Hgo. done.
Qed.
End pass.

(** C23: whatever fails and in whatever order the archive is listed, a retention pass
    deletes nothing but segment manifests that end before the start of every kept backup
    and that the keep floor does not hold, and nothing at all on a dry run. *)
Theorem WALPrune_safe `{L : LSN} (tokenize : string -> list token)
    (unmarshal_segment : string -> option walSegmentDecode) (ds : nat -> decision)
    (o : WALPruneOptions) (s : gmap string (object string)) :
  let s' := (run ds 0 (WALPrune tokenize unmarshal_segment o) s).2 in
  exists t, (wo_Now o <> 0 -> t = wo_Now o) /\
  forall key, s' !! key <> s !! key ->
    s' !! key = None /\ wo_DryRun o = false /\
    exists e m, segment_ends unmarshal_segment s (wal_prefix (wo_Deployment o)) key e m /\
      kept_by_floor o m = false /\
      forall backup, kept_backup s (backups_prefix (wo_Deployment o))
          (Time.Add t (- walPruneGrace o)) (0 <? walPruneGrace o) backup ->
        exists start, starts tokenize s backup start /\ e < start.
Proof.
  intros s'. pose proof (wp_run (fun _ => True) _ _ s ds 0 (fun _ => I)
    (WALPrune_wp tokenize unmarshal_segment (fun _ => True) o s)) as H.
  fold s' in H. destruct H as [->|(frontier & backup & t & [_ Hf] & Ht & Hp)].
  - exists (wo_Now o). split; [done|]. done.
  - exists t. split; [done|]. intros key Hne. destruct (Hp key) as [?|(H1 & H2 & e & m & H3 & H4 & H5)]; [done|].
    split_and!; try done. exists e, m. split_and!; try done.
    intros b Hb. destruct (Hf b Hb) as (start & Hs & ?). exists start. split; [done|lia].
Qed.

(** ** A healthy pass deletes everything it may *)

Section complete.
Context (tokenize : string -> list token) (unmarshal_segment : string -> option walSegmentDecode).
Context `{L : LSN}.
Implicit Types (s : gmap string (object string)) (o : WALPruneOptions) (key : string).

(** Within a timeline, later names end later. *)
Definition archive_ordered s (prefix : string) : Prop :=
  forall k1 k2 e1 e2 m1 m2,
    segment_ends unmarshal_segment s prefix k1 e1 m1 ->
    segment_ends unmarshal_segment s prefix k2 e2 m2 ->
    tliOfKey k1 = tliOfKey k2 -> string_ltb k2 k1 = false -> e1 <= e2.

(** What the boundary flag stands for. *)
Definition boundary_ok s (prefix : string) (frontier : Z) (st : prune_state) : Prop :=
  ps_pastBoundary st = true -> ps_orderBroken st = false ->
  exists k0 e0 m0, segment_ends unmarshal_segment s prefix k0 e0 m0 /\ frontier <= e0 /\
    tliOfKey k0 = ps_curTLI st /\ string_ltb (ps_lastKey st) k0 = false.

Lemma note_order_ok s prefix frontier st key :
  boundary_ok s prefix frontier st -> boundary_ok s prefix frontier (note_order st key).
Proof.
  unfold boundary_ok, note_order.
  destruct (String.eqb_spec (tliOfKey key) (ps_curTLI st)) as [Et|Et]; cbn [negb ps_lastKey].
  - destruct (string_ltb key (ps_lastKey st)) eqn:El; cbn; [done|]. intros H Hp Hb.
    destruct (H Hp Hb) as (k0 & e0 & m0 & H1 & H2 & H3 & H4). exists k0, e0, m0.
    split_and!; try done. destruct (string_ltb key k0) eqn:Ek; [|done].
    destruct (string_ltb_total (ps_lastKey st) key) as [Hlt|[Heq|Hlt]]; [|congruence|congruence].
    by rewrite (string_ltb_trans _ _ _ Hlt Ek) in H4.
  - destruct (string_ltb key ""); cbn; done.
Qed.

Lemma note_order_fields st key :
  ps_curTLI (note_order st key) = tliOfKey key /\ ps_lastKey (note_order st key) = key.
Proof.
  unfold note_order. destruct (String.eqb_spec (tliOfKey key) (ps_curTLI st)) as [E|E]; cbn [negb].
  - by destruct (string_ltb _ _).
  - by destruct (string_ltb _ _).
Qed.

Lemma readSegment_healthy s s' o frontier key :
  pruned unmarshal_segment s o frontier s' ->
  HasPrefix key (wal_prefix (wo_Deployment o)) = true ->
  isWALSegmentManifestRel (TrimPrefix key (wal_prefix (wo_Deployment o))) = true ->
  wp healthy (readSegmentManifest unmarshal_segment key) (fun r s2 => s2 = s' /\
    (forall m e, r = Some m -> ParseLSN (sd_EndLSN m) = Some e ->
       segment_ends unmarshal_segment s (wal_prefix (wo_Deployment o)) key e m) /\
    (forall e m, segment_ends unmarshal_segment s (wal_prefix (wo_Deployment o)) key e m ->
       s' !! key = None \/ r = Some m)) s'.
Proof.
  intros Hp Hpre Hrel. unfold readSegmentManifest. wp_step.
  - intros ob Hob. assert (s !! key = Some ob) as Hs.
    { destruct (Hp key) as [E|[E _]]; [by rewrite <- E|congruence]. }
    destruct (ReadAllLimited (ob_body ob) MaxMetadataBytes) as [b|] eqn:Er; cbn [wp].
    + split_and!; [done| |].
      * intros m e Hm He. split_and!; try done. by exists ob, b.
      * intros e m (_ & _ & ob' & b' & H1 & H2 & H3 & _). right. congruence.
    + split_and!; [done|done|]. intros e m (_ & _ & ob' & b' & H1 & H2 & H3 & _). congruence.
  - intros Hn. split_and!; [done|done|]. by left.
  - intros d c Hd Hf. by destruct Hf.
Qed.

Lemma prune_step_healthy s s' o frontier i st :
  archive_ordered s (wal_prefix (wo_Deployment o)) -> wo_DryRun o = false ->
  pruned unmarshal_segment s o frontier s' -> HasPrefix (Key i) (wal_prefix (wo_Deployment o)) = true ->
  boundary_ok s (wal_prefix (wo_Deployment o)) frontier st ->
  wp healthy (prune_step unmarshal_segment o (wal_prefix (wo_Deployment o)) frontier i st)
    (fun r s2 => pruned unmarshal_segment s o frontier s2 /\
       (forall k, s' !! k = None -> s2 !! k = None) /\
       (prunable unmarshal_segment s o frontier (Key i) -> s2 !! Key i = None) /\
       match r with
       | inl st' => boundary_ok s (wal_prefix (wo_Deployment o)) frontier st'
       | inr _ => True
       end) s'.
Proof.
  intros Hord Hdry Hp Hpre Hb. unfold prune_step.
  destruct (isWALSegmentManifestRel _) eqn:Hrel; cbn [negb].
  2: { split_and!; try done. intros (e & m & (_ & H & _) & _). congruence. }
  cbv zeta. apply (note_order_ok _ _ _ _ (Key i)) in Hb.
  destruct (note_order_fields st (Key i)) as [Htli Hlast].
  set (st2 := note_order st (Key i)) in *.
  destruct (ps_pastBoundary st2 && negb (ps_orderBroken st2)) eqn:Hpast.
  { apply andb_true_iff in Hpast as [Hpast Hbrk]. apply negb_true_iff in Hbrk.
    split_and!; try done. intros (e & m & Hends & Hlt & _). exfalso.
    destruct (Hb Hpast Hbrk) as (k0 & e0 & m0 & H1 & H2 & H3 & H4).
    rewrite Htli in H3. rewrite Hlast in H4.
    pose proof (Hord k0 (Key i) e0 e m0 m H1 Hends H3 H4). lia. }
  wp_step. eapply wp_mono; [|by apply (readSegment_healthy s s' o frontier)].
  intros r s2 (-> & Hr1 & Hr2).
  assert (forall m e, r = Some m -> ParseLSN (sd_EndLSN m) = Some e ->
    frontier <= e \/ kept_by_floor o m = true ->
    prunable unmarshal_segment s o frontier (Key i) -> s' !! Key i = None) as Hkeep.
  { intros m e -> He Hk (e' & m' & Hends & Hlt & Hfl).
    destruct (segment_ends_fun _ _ _ _ _ _ _ _ (Hr1 m e eq_refl He) Hends) as [-> ->].
    destruct Hk; [lia|congruence]. }
  destruct r as [m|]; cbn beta iota.
  2: { split_and!; try done. intros (e & m & Hends & _). by destruct (Hr2 e m Hends). }
  destruct (ParseLSN (sd_EndLSN m)) as [e|] eqn:He; cbn beta iota.
  2: { split_and!; try done. intros (e & m' & Hends & _). destruct (Hr2 e m' Hends) as [?|[= ->]]; [done|].
       destruct Hends as (_ & _ & ob & b & _ & _ & _ & H). congruence. }
  pose proof (Hr1 m e eq_refl He) as Hends.
  destruct (Z.leb_spec frontier e).
  { split_and!; try done; [by eapply Hkeep; [| |left]|]. intros _ _. exists (Key i), e, m.
    cbn [past_boundary ps_curTLI ps_lastKey]. rewrite Htli, Hlast. split_and!; try done. apply string_ltb_irrefl. }
  destruct (kept_by_floor o m) eqn:Hk.
  { split_and!; try done. by eapply Hkeep; [| |right]. }
  rewrite Hdry. assert (prunable unmarshal_segment s o frontier (Key i)) as Hpr by (by exists e, m).
  wp_step; [|by intros d c Hd Hf; destruct Hf..]. cbn [wp]. split_and!.
  - by apply pruned_delete.
  - intros k Hn. destruct (decide (k = Key i)) as [->|]; [by rewrite lookup_delete_eq|by rewrite lookup_delete_ne].
  - intros _. by rewrite lookup_delete_eq.
  - done.
Qed.
End complete.

Section complete_pass.
Context (tokenize : string -> list token) (unmarshal_segment : string -> option walSegmentDecode).
Context `{L : LSN}.
Implicit Types (s : gmap string (object string)) (o : WALPruneOptions) (key : string).

(** With every kept manifest readable, a backend that does not fail gives a frontier. *)
Lemma frontier_healthy deployment cutoff ga s :
  let prefix := backups_prefix deployment in
  (forall b, kept_backup s prefix cutoff ga b -> exists l, starts tokenize s b l) ->
  wp healthy (oldestKeptBackupFrontier tokenize deployment cutoff ga)
    (fun r s' => s' = s /\ exists best, r = Ok best) s.
Proof.
  intros prefix Hread. unfold oldestKeptBackupFrontier. fold prefix. wp_step; [|by intros d c l l' Hd Hf; destruct Hf].
  intros l Hl. cbn [wp]. pose proof (frontier_scan_spec prefix cutoff ga l (∅, [])) as Hscan.
  destruct (fold_left _ l _) as [dead keys]. destruct Hscan as [Hdead Hkeys]. cbn [fst snd] in *.
  wp_step. apply (wp_for healthy keys _ (fun pre post best s' => s' = s)); [done| |intros best s' ->; split; [done|by exists best]].
  intros pre key post best s' Ek ->. unfold frontier_step.
  destruct (live_backup prefix dead key) eqn:El; cbn [negb]; [|done].
  assert (kept_backup s prefix cutoff ga key) as Hk.
  { assert (key ∈ keys) as Hin by (rewrite Ek; apply elem_of_app; right; left).
    rewrite Hkeys in Hin. destruct Hin as [Hin|(i & Hi & <- & H1 & H2 & H3)]; [by apply not_elem_of_nil in Hin|].
    rewrite Hl in Hi. apply elem_of_listing in Hi as (ob & Hob & _ & Hp). split_and!; try done.
    unfold live_backup in El. destruct (CutByte _ slash) as [[id rest]|]; [|done]. exists id, rest.
    apply andb_true_iff in El as [Hne Hnd]. split_and!; [done|by intros ->|].
    intros (k2 & ob2 & Hob2 & Hp2 & Ht & Hold & rest2 & Hs2).
    rewrite bool_decide_eq_true_2 in Hnd; [done|]. apply Hdead. right. exists (info_of k2 ob2), rest2.
    split_and!; try done. rewrite Hl. apply elem_of_listing. by exists ob2. }
  destruct (Hread key Hk) as (lsn & ob & m & Hob & Hm & Hlsn).
  wp_step. unfold readManifestFrontier. wp_step; [|congruence|by intros d c Hd Hf; destruct Hf].
  intros ob' Hob'. assert (ob' = ob) as -> by congruence. cbn [wp]. rewrite Hm, Hlsn.
  destruct best as [[minLSN id]|]; [by destruct (lsn <? minLSN)|done].
Qed.

Lemma WALPrune_healthy_wp o s :
  wo_Now o <> 0 -> wo_DryRun o = false -> wo_Deployment o <> "" ->
  let cutoff := Time.Add (wo_Now o) (- walPruneGrace o) in
  let ga := 0 <? walPruneGrace o in
  let backups := backups_prefix (wo_Deployment o) in
  (forall b, kept_backup s backups cutoff ga b -> exists l, starts tokenize s b l) ->
  (exists b, kept_backup s backups cutoff ga b) ->
  archive_ordered unmarshal_segment s (wal_prefix (wo_Deployment o)) ->
  wp healthy (WALPrune tokenize unmarshal_segment o) (fun r s' => r.2 = None /\
    exists frontier backup, frontier_of tokenize s backups cutoff ga (Some (frontier, backup)) /\
      forall k, prunable unmarshal_segment s o frontier k -> s' !! k = None) s.
Proof.
  intros Hnow Hdry Hdep cutoff ga backups Hread [b Hb] Hord. unfold WALPrune.
  destruct (String.eqb_spec (wo_Deployment o) ""); [done|]. cbv zeta.
  wp_step. unfold walPruneNow, Time.IsZero. rewrite (proj2 (Z.eqb_neq _ _)) by done. cbn [wp].
  wp_step. fold cutoff ga. eapply wp_mono; [|apply wp_and; [apply frontier_wp|by apply frontier_healthy]].
  intros r s' [[-> Hf] [_ [best ->]]]. fold backups in Hf.
  destruct best as [[frontier backup]|]; [|by destruct (Hf b)].
  assert (forall P : Prop, P -> frontier_of tokenize s backups cutoff ga (Some (frontier, backup)) /\ P) as Hfr
    by (intros; split; [exact Hf|done]).
  destruct ((frontier =? 0) && String.eqb backup "") eqn:Ez.
  { apply andb_true_iff in Ez as [Ez _]. apply Z.eqb_eq in Ez. split; [done|].
    exists frontier, backup. apply Hfr. intros k (e & m & (_ & _ & ob & b' & _ & _ & _ & He) & Hlt & _).
    apply ParseLSN_range in He. unfold valid_lsn in He. lia. }
  wp_step; [|by intros d c l l' Hd Hfa; destruct Hfa]. intros l Hl. wp_step. cbn [fst snd].
  apply (wp_for healthy l _ (fun pre _ st s2 => pruned unmarshal_segment s o frontier s2 /\
    boundary_ok unmarshal_segment s (wal_prefix (wo_Deployment o)) frontier st /\
    forall i, i ∈ pre -> prunable unmarshal_segment s o frontier (Key i) -> s2 !! Key i = None)).
  - split_and!; [apply pruned_refl|done|]. intros i Hi. by apply not_elem_of_nil in Hi.
  - intros pre i post st s2 El (Hp & Hbo & Hpre). eapply wp_mono; [|apply (prune_step_healthy _ s s2 o frontier i st); try done].
    + intros [st'|[]] s3 (H1 & H2 & H3 & H4). split_and!; try done.
      intros j [Hj|Hj]%elem_of_app Hpr; [by apply H2, Hpre|].
      apply list_elem_of_singleton in Hj as ->. by apply H3.
    + assert (i ∈ listing (wal_prefix (wo_Deployment o)) s) as Hi
        by (rewrite <- Hl, El; apply elem_of_app; right; left).
      by apply elem_of_listing in Hi as (? & _ & _ & ?).
  - intros st s2 (Hp & Hbo & Hpre). split; [done|]. exists frontier, backup. apply Hfr.
    intros k Hk. pose proof Hk as (e & m & (Hkp & _ & ob & _ & Hob & _) & _).
    assert (info_of k ob ∈ l) as Hin by (rewrite Hl; apply elem_of_listing; by exists ob).
    apply (Hpre _ Hin Hk).
Qed.
End complete_pass.

(** C37: on a backend that does not fail, with the kept backups' manifests readable and the
    archive's names in the order of its positions, a pass deletes every segment that ends
    before all kept backups start and that the keep floor does not hold, whatever order
    the archive is listed in. *)
Theorem WALPrune_complete `{L : LSN} (tokenize : string -> list token)
    (unmarshal_segment : string -> option walSegmentDecode) (ds : nat -> decision)
    (o : WALPruneOptions) (s : gmap string (object string)) :
  let cutoff := Time.Add (wo_Now o) (- walPruneGrace o) in
  let ga := 0 <? walPruneGrace o in
  let backups := backups_prefix (wo_Deployment o) in
  (forall i, healthy (ds i)) -> wo_Now o <> 0 -> wo_DryRun o = false -> wo_Deployment o <> "" ->
  (forall b, kept_backup s backups cutoff ga b -> exists l, starts tokenize s b l) ->
  (exists b, kept_backup s backups cutoff ga b) ->
  archive_ordered unmarshal_segment s (wal_prefix (wo_Deployment o)) ->
  let '(r, s') := run ds 0 (WALPrune tokenize unmarshal_segment o) s in
  r.2 = None /\
  forall key e m, segment_ends unmarshal_segment s (wal_prefix (wo_Deployment o)) key e m ->
    kept_by_floor o m = false ->
    (forall b l, kept_backup s backups cutoff ga b -> starts tokenize s b l -> e < l) ->
    s' !! key = None.
Proof.
  intros cutoff ga backups Hds Hnow Hdry Hdep Hread Hex Hord.
  pose proof (wp_run healthy _ _ s ds 0 Hds
    (WALPrune_healthy_wp tokenize unmarshal_segment o s Hnow Hdry Hdep Hread Hex Hord)) as H.
  destruct (run ds 0 _ s) as [r s']. cbn [fst snd] in H.
  destruct H as (Hr & frontier & backup & [(b & Hb & Hs) _] & Hall). split; [done|].
  intros key e m Hends Hfl Hlt. apply Hall. exists e, m. split_and!; [done| |done].
  by eapply Hlt.
Qed.

(** A repository of one backup and one older segment. *)
Definition sample_tokens : string -> list token := fun _ =>
  [TOpenObj; TStr "backup_id"; TStr "b1"; TStr "start_lsn"; TStr "0/5000000"; TCloseObj].

Definition sample_segment : walSegmentDecode :=
  {| sd_EndLSN := "0/4000000"; sd_CreatedAt := 7; sd_Lens := [10] |}.

Definition sample_backup_key : string := "manifests/db1/backups/b1/manifest.json".
Definition sample_segment_key : string := "wal/db1/00000001/000000010000000000000003.json".

Definition sample_store : gmap string (object string) :=
  <[sample_backup_key := Object "" 0 5 0 WORMNone]>
    (<[sample_segment_key := Object "" 0 5 0 WORMNone]> ∅).

Definition sample_options : WALPruneOptions :=
  {| wo_Deployment := "db1"; wo_DryRun := false; wo_KeepFloorTime := 0;
     wo_TombstoneGrace := 0; wo_Now := 100 |}.

Lemma sample_lookup key ob : sample_store !! key = Some ob ->
  key = sample_backup_key \/ key = sample_segment_key.
Proof.
  unfold sample_store. intros [[<- _]|[_ H]]%lookup_insert_Some; [by left|].
  apply lookup_insert_Some in H as [[<- _]|[_ H]]; [by right|]. by rewrite lookup_empty in H.
Qed.

Lemma sample_kept cutoff ga b : kept_backup sample_store (backups_prefix "db1") cutoff ga b ->
  b = sample_backup_key.
Proof.
  intros ([ob Hob] & Hp & _). apply sample_lookup in Hob as [->| ->]; [done|]. by vm_compute in Hp.
Qed.

Lemma sample_is_kept cutoff ga :
  kept_backup sample_store (backups_prefix "db1") cutoff ga sample_backup_key.
Proof.
  split_and!; try (vm_compute; reflexivity); [by eexists; vm_compute|].
  exists "b1", "manifest.json". split_and!; [by vm_compute|done|].
  intros (k & ob & Hob & Hp & Ht & _).
  apply sample_lookup in Hob as [->| ->]; by vm_compute in Ht.
Qed.

Lemma sample_ends key e m :
  segment_ends (fun _ => Some sample_segment) sample_store (wal_prefix "db1") key e m ->
  e = 0x4000000.
Proof.
  intros (_ & _ & ob & b & _ & _ & [= <-] & He). vm_compute in He. congruence.
Qed.

Lemma sample_starts l : starts sample_tokens sample_store sample_backup_key l -> l = 0x5000000.
Proof. intros (ob & m & _ & Hm & Hl). vm_compute in Hm. injection Hm as <-. vm_compute in Hl. congruence. Qed.

Lemma WALPrune_complete_witness :
  exists r s', run calm 0 (WALPrune sample_tokens (fun _ => Some sample_segment) sample_options)
      sample_store = (r, s') /\ s' !! sample_segment_key = None.
Proof.
  pose proof (WALPrune_complete sample_tokens (fun _ => Some sample_segment) calm sample_options
    sample_store (fun _ => eq_refl)) as H.
  destruct (run calm 0 _ sample_store) as [r s']. exists r, s'. split; [reflexivity|].
  refine (proj2 (H _ _ _ _ _ _) sample_segment_key 0x4000000 sample_segment _ _ _).
  - discriminate.
  - reflexivity.
  - discriminate.
  - intros b ->%sample_kept. exists 0x5000000.
    exists (Object "" 0 5 0 WORMNone), {| bd_BackupID := "b1"; bd_StartLSN := "0/5000000" |}.
    split_and!; vm_compute; reflexivity.
  - exists sample_backup_key. apply sample_is_kept.
  - intros k1 k2 e1 e2 m1 m2 ->%sample_ends ->%sample_ends _ _. lia.
  - split_and!; try (vm_compute; reflexivity). exists (Object "" 0 5 0 WORMNone), "".
    split_and!; vm_compute; reflexivity.
  - vm_compute. reflexivity.
  - intros b l ->%sample_kept ->%sample_starts. lia.
Defined.
