(* ===== verification/Concur.v ===== *)
(** Programs that share the store with other processes.

    Between two of a program's own calls the environment may change the store in
    any way that keeps an invariant [I] (the rely).  [wpi] is the weakest
    precondition of a program whose own steps keep [I] and relate the store
    before and after by [G] (the guarantee), whatever the environment does in
    between; [runc] is the interleaved execution it is sound for. *)
From S2P Require Import Prelude GoString Storage.

Section rely.
Context {B : Type}.
Local Abbreviation store := (gmap string (object B)).

(** A program's run against an environment: its answer, the final store and its
    own steps, each as the store before and after. *)
Fixpoint runc {A} (env : nat -> store -> store) (ds : nat -> decision) (i : nat)
    (p : prog B A) (s : store) : A * store * list (store * store) :=
  match p with
  | Ret a => (a, s, [])
  | Vis o k =>
      let s1 := env i s in
      let '(r, s2) := exec (ds i) o s1 in
      let '(a, s3, steps) := runc env ds (S i) (k r) s2 in
      (a, s3, (s1, s2) :: steps)
  end.

Section logic.
Context (D : decision -> Prop) (I : store -> Prop) (G : store -> store -> Prop).

Fixpoint wpi {A} (p : prog B A) (Q : A -> Prop) : Prop :=
  match p with
  | Ret a => Q a
  | Vis o k => forall s d, I s -> D d ->
      let '(r, s') := exec d o s in I s' /\ G s s' /\ wpi (k r) Q
  end.

Lemma wpi_runc {A} (p : prog B A) Q env ds i s :
  (forall j, D (ds j)) -> (forall j s, I s -> I (env j s)) -> I s -> wpi p Q ->
  let '(a, s', steps) := runc env ds i p s in
  Q a /\ I s' /\ Forall (fun st => G st.1 st.2) steps.
Proof.
  intros HD Henv. revert i s. induction p as [a|R o k IH]; intros i s HI Hp; simpl; [done|].
  specialize (Hp (env i s) (ds i) (Henv i s HI) (HD i)).
  destruct (exec (ds i) o (env i s)) as [r s2]. destruct Hp as (HI2 & HG & Hk).
  specialize (IH r (S i) s2 HI2 Hk). destruct (runc env ds (S i) (k r) s2) as [[a s3] steps].
  destruct IH as (HQ & HI3 & Hs). split_and!; [done|done|]. by constructor.
Qed.

(** Without interference. *)
Lemma wpi_wp {A} (p : prog B A) Q s : I s -> wpi p Q -> wp D p (fun a s' => Q a /\ I s') s.
Proof.
  revert s. induction p as [a|R o k IH]; intros s HI; simpl; [done|].
  intros H d HD. specialize (H s d HI HD). destruct (exec d o s). naive_solver.
Qed.

Lemma wpi_mono {A} (p : prog B A) (Q Q' : A -> Prop) :
  (forall a, Q a -> Q' a) -> wpi p Q -> wpi p Q'.
Proof.
  intros HQ. induction p as [a|R o k IH]; simpl; [auto|].
  intros H s d HI HD. specialize (H s d HI HD). destruct (exec d o s). naive_solver.
Qed.

Lemma wpi_bind {A C} (p : prog B A) (f : A -> prog B C) Q :
  wpi p (fun a => wpi (f a) Q) -> wpi (pbind p f) Q.
Proof.
  induction p as [a|R o k IH]; simpl; [done|].
  intros H s d HI HD. specialize (H s d HI HD). destruct (exec d o s). naive_solver.
Qed.

Lemma wpi_for {X S R} (l : list X) (body : X -> S -> prog B (S + R))
    (Inv : list X -> S -> Prop) (Q : S + R -> Prop) st :
  Inv [] st ->
  (forall pre x post st, l = pre ++ x :: post -> Inv pre st ->
     wpi (body x st) (fun r => match r with
                               | inl st' => Inv (pre ++ [x]) st'
                               | inr v => Q (inr v)
                               end)) ->
  (forall st, Inv l st -> Q (inl st)) ->
  wpi (for_ l st body) Q.
Proof.
  intros H0 Hbody Hend.
  enough (H : forall post pre st, l = pre ++ post -> Inv pre st -> wpi (for_ post st body) Q)
    by exact (H l [] st eq_refl H0).
  clear st H0. intros post. induction post as [|x post IH]; intros pre st Hl HI; simpl.
  - rewrite app_nil_r in Hl. subst pre. by apply Hend.
  - apply wpi_bind. eapply wpi_mono; [|by apply (Hbody pre x post)].
    intros [st'|v]; simpl; [|done]. intros HI'. apply (IH (pre ++ [x])); [by rewrite <- app_assoc|done].
Qed.

(** A call's rule, from its rule without interference. *)
Lemma wpi_call {R} (o : op B R) (Q : R -> Prop) :
  (forall s, I s -> wp D (call o) (fun r s' => I s' /\ G s s' /\ Q r) s) -> wpi (call o) Q.
Proof. intros H s d HI HD. specialize (H s HI d HD). by destruct (exec d o s). Qed.

Hypothesis G_refl : forall s, G s s.

Lemma wpi_get k (Q : result serr B -> Prop) :
  (forall s o, I s -> s !! k = Some o -> Q (Ok (ob_body o))) ->
  (forall s, I s -> s !! k = None -> Q (Err ErrNotFound)) ->
  (forall c, Q (Err (ErrBackend c))) ->
  wpi (sGet k) Q.
Proof. intros H1 H2 H3. apply wpi_call. intros s HI. apply wp_get; naive_solver. Qed.

Lemma wpi_stat k (Q : result serr ObjectInfo -> Prop) :
  (forall s o, I s -> s !! k = Some o -> Q (Ok (info_of k o))) ->
  (forall s, I s -> s !! k = None -> Q (Err ErrNotFound)) ->
  (forall c, Q (Err (ErrBackend c))) ->
  wpi (sStat k) Q.
Proof. intros H1 H2 H3. apply wpi_call. intros s HI. apply wp_stat; naive_solver. Qed.

Lemma wpi_list prefix (Q : list ObjectInfo * option serr -> Prop) :
  (forall s l, I s -> l ≡ₚ listing prefix s -> Q (l, None)) ->
  (forall s c l l', I s -> l ++ l' ≡ₚ listing prefix s -> Q (l, Some (ErrBackend c))) ->
  wpi (sList prefix) Q.
Proof. intros H1 H2. apply wpi_call. intros s HI. apply wp_list; naive_solver. Qed.

Lemma wpi_now (Q : time -> Prop) : (forall d, D d -> Q (d_time d)) -> wpi now Q.
Proof. intros H. apply wpi_call. intros s HI. apply wp_now. auto. Qed.

(** The same on a backend that does not fail. *)
Lemma wpi_get_ok k (Q : result serr B -> Prop) :
  (forall d, D d -> healthy d) ->
  (forall s o, I s -> s !! k = Some o -> Q (Ok (ob_body o))) ->
  (forall s, I s -> s !! k = None -> Q (Err ErrNotFound)) ->
  wpi (sGet k) Q.
Proof.
  intros HD H1 H2. apply wpi_call. intros s HI. apply wp_get; [naive_solver..|].
  intros d c Hd Hf. by destruct Hf; apply HD.
Qed.

Lemma wpi_list_ok prefix (Q : list ObjectInfo * option serr -> Prop) :
  (forall d, D d -> healthy d) ->
  (forall s l, I s -> l ≡ₚ listing prefix s -> Q (l, None)) ->
  wpi (sList prefix) Q.
Proof.
  intros HD H1. apply wpi_call. intros s HI. apply wp_list; [naive_solver|].
  intros d c l l' Hd Hf. by destruct Hf; apply HD.
Qed.

(** A put or a delete whose effect, if it has one, keeps [I] and is allowed by [G]. *)
Lemma wpi_put k b o (Q : result serr unit -> Prop) :
  (forall s t, I s -> (IfNotExists o = true -> s !! k = None) ->
     I (<[k := put_object t b o]> s) /\ G s (<[k := put_object t b o]> s)) ->
  (forall r, Q r) ->
  wpi (sPut k b o) Q.
Proof.
  intros H1 H2. apply wpi_call. intros s HI. apply wp_put; intros; split_and!; auto;
    by apply H1.
Qed.

Lemma wpi_delete k (Q : result serr unit -> Prop) :
  (forall s, I s -> I (delete k s) /\ G s (delete k s)) ->
  (forall r, Q r) ->
  wpi (sDelete k) Q.
Proof.
  intros H1 H2. apply wpi_call. intros s HI. destruct (H1 s HI). apply wp_delete; intros; split_and!; auto.
Qed.
End logic.
End rely.

(** Programs that only read, whatever they are told. *)
Definition is_read {B R} (o : op B R) : bool :=
  match o with
  | OGet _ | OStat _ | OList _ | ONow => true
  | OPut _ _ _ | ODelete _ | ORename _ _ | OSetRetention _ _ _ => false
  end.

Fixpoint reads_only {B A} (p : prog B A) : Prop :=
  match p with
  | Ret _ => True
  | Vis o k => is_read o = true /\ forall r, reads_only (k r)
  end.

Lemma exec_read {B R} d (o : op B R) (s : gmap string (object B)) : is_read o = true -> (exec d o s).2 = s.
Proof. unfold exec, with_fault. destruct o; try done; intros _; by destruct (d_fault d). Qed.

Lemma reads_only_wpi {B A} D (I : gmap string (object B) -> Prop) G (p : prog B A) :
  (forall s, G s s) -> reads_only p -> wpi D I G p (fun _ => True).
Proof.
  intros HG. induction p as [a|R o k IH]; cbn [reads_only wpi]; [done|].
  intros [Ho Hk] s d HI HD. pose proof (exec_read d o s Ho) as Hs.
  destruct (exec d o s) as [r s']. cbn in Hs. subst s'. auto.
Qed.

(** A program that only reads leaves the store alone. *)
Lemma reads_only_wp {B A} D (p : prog B A) (s : gmap string (object B)) : reads_only p -> wp D p (fun _ s' => s' = s) s.
Proof.
  induction p as [a|R o k IH]; cbn [reads_only wp]; [done|]. intros [Ho Hk] d HD. pose proof (exec_read d o s Ho) as Hs.
  destruct (exec d o s) as [r s']. cbn in Hs. subst s'. auto.
Qed.

Lemma reads_only_bind {B A C} (p : prog B A) (f : A -> prog B C) :
  reads_only p -> (forall a, reads_only (f a)) -> reads_only (pbind p f).
Proof. intros Hp Hf. induction p as [a|R o k IH]; cbn in *; [done|]. naive_solver. Qed.

Lemma reads_only_for {B X S R} (l : list X) (body : X -> S -> prog B (S + R)) st :
  (forall x st, reads_only (body x st)) -> reads_only (for_ l st body).
Proof.
  intros Hb. revert st. induction l as [|x l IH]; intros st; cbn [for_]; [done|].
  apply reads_only_bind; [done|]. by intros [st'|v].
Qed.

(** ** Which keys a program may write *)

Definition writes {B R} (o : op B R) : list string :=
  match o with
  | OPut k _ _ | ODelete k | OSetRetention k _ _ => [k]
  | ORename src dst => [src; dst]
  | OGet _ | OStat _ | OList _ | ONow => []
  end.

Fixpoint touches {B A} (K : string -> Prop) (p : prog B A) : Prop :=
  match p with
  | Ret _ => True
  | Vis o k => Forall K (writes o) /\ forall r, touches K (k r)
  end.

(** The stores agree outside [K]. *)
Definition frame {B} (K : string -> Prop) (s s' : gmap string (object B)) : Prop :=
  forall k, ~ K k -> s' !! k = s !! k.

Lemma frame_trans {B} K (s1 s2 s3 : gmap string (object B)) : frame K s1 s2 -> frame K s2 s3 -> frame K s1 s3.
Proof. intros H1 H2 k Hk. by rewrite H2, H1. Qed.

Lemma frame_mono {B} (K K' : string -> Prop) (s s' : gmap string (object B)) :
  (forall k, K k -> K' k) -> frame K s s' -> frame K' s s'.
Proof. intros HK H k Hk. apply H. auto. Qed.

Lemma exec_frame {B R} d (o : op B R) K (s : gmap string (object B)) : Forall K (writes o) -> frame K s (exec d o s).2.
Proof.
  intros Hw k Hk. assert (k ∉ writes o) as Hn by (intros H; apply Hk; by eapply Forall_forall in Hw).
  destruct o; cbn [writes] in Hn; unfold exec, with_fault; try (destruct (d_fault d));
    repeat case_match; cbn [snd]; try done;
    rewrite ?lookup_insert_ne, ?lookup_delete_ne by set_solver; done.
Qed.

Lemma touches_wp {B A} D K (p : prog B A) s : touches K p -> wp D p (fun _ s' => frame K s s') s.
Proof.
  revert s. induction p as [a|R o k IH]; intros s; cbn [touches wp]; [done|].
  intros [Hw Hk] d _. pose proof (exec_frame d o K s Hw) as Hf. destruct (exec d o s) as [r s1]. cbn in Hf.
  eapply wp_mono; [|apply (IH r s1 (Hk r))]. intros a s' H. by eapply frame_trans.
Qed.

Lemma touches_mono {B A} (K K' : string -> Prop) (p : prog B A) : (forall k, K k -> K' k) -> touches K p -> touches K' p.
Proof.
  intros HK. induction p as [a|R o k IH]; cbn [touches]; [done|]. intros [Hw Hk]. split; [|auto].
  by eapply Forall_impl.
Qed.

Lemma touches_bind {B A C} K (p : prog B A) (f : A -> prog B C) :
  touches K p -> (forall a, touches K (f a)) -> touches K (pbind p f).
Proof. intros Hp Hf. induction p as [a|R o k IH]; cbn in *; [done|]. naive_solver. Qed.

Lemma touches_for {B X S R} K (l : list X) (body : X -> S -> prog B (S + R)) st :
  (forall x st, touches K (body x st)) -> touches K (for_ l st body).
Proof.
  intros Hb. revert st. induction l as [|x l IH]; intros st; cbn [for_]; [done|].
  apply touches_bind; [done|]. by intros [st'|v].
Qed.

Lemma reads_only_touches {B A} K (p : prog B A) : reads_only p -> touches K p.
Proof.
  induction p as [a|R o k IH]; cbn [reads_only touches]; [done|]. intros [Ho Hk]. split; [|auto].
  by destruct o.
Qed.

(** One step of a program under interference. *)
Ltac wpi_step :=
  lazymatch goal with
  | |- wpi _ _ _ (pbind (sGet _) _) _ => apply wpi_bind, wpi_get
  | |- wpi _ _ _ (pbind (sStat _) _) _ => apply wpi_bind, wpi_stat
  | |- wpi _ _ _ (pbind (sPut _ _ _) _) _ => apply wpi_bind, wpi_put
  | |- wpi _ _ _ (pbind (sDelete _) _) _ => apply wpi_bind, wpi_delete
  | |- wpi _ _ _ (pbind (sList _) _) _ => apply wpi_bind, wpi_list
  | |- wpi _ _ _ (pbind now _) _ => apply wpi_bind, wpi_now
  | |- wpi _ _ _ (pbind _ _) _ => apply wpi_bind
  end.
