(* ===== verification/Lease.v ===== *)
(** The backup lease of a deployment (internal/backup/lease.go, lease_wedge.go, and the
    listing of live leases in internal/cli/repo_gc.go).

    A lease is a JSON record; the owner and the time it was acquired are the grant.  The
    sleep before a verification only lets time pass, so it is no step here.  Contexts are
    never cancelled.  [sha256] and the decoder of one JSON value are parameters. *)
From S2P Require Import Prelude GoString Storage Concur Hash.
From stdpp Require Import pretty.
From Stdlib Require Import Ascii.

Local Open Scope string_scope.
Local Open Scope list_scope.
Local Open Scope Z_scope.
#[local] Arguments String.append : simpl nomatch.

Definition LeaseSchema : string := "pg_hardstorage.backup.lease.v1".
Definition DefaultLeaseTTL : duration := 15 * Time.Minute.
Definition maxLeaseBodyBytes : nat := Z.to_nat (Z.shiftl 64 10).
Definition defaultLeaseSettle : duration := 400 * Time.Millisecond.
Definition reclaimEchoRetries : nat := 3.
Definition maxClaimGenerations : nat := 8.
Definition wedgeGrace : duration := Time.Hour.

Record leaseBody := {
  lb_Schema : string;
  lb_Deployment : string;
  lb_Owner : string;
  lb_AcquiredAt : time;
  lb_ExpiresAt : time;
  lb_Released : bool;
  lb_ReleasedAt : time
}.

Record breakClaim := {
  bc_Schema : string;
  bc_Deployment : string;
  bc_BrokenOwner : string;
  bc_BrokenAt : time;
  bc_Breaker : string;
  bc_ClaimedAt : time
}.

#[export] Instance leaseBody_eq_dec : EqDecision leaseBody.
Proof. solve_decision. Defined.

#[export] Instance leaseBody_countable : Countable leaseBody.
Proof.
  apply (inj_countable'
    (fun b => (lb_Schema b, lb_Deployment b, lb_Owner b, lb_AcquiredAt b, lb_ExpiresAt b, lb_Released b, lb_ReleasedAt b))
    (fun '(s, d, o, a, e, r, t) => {| lb_Schema := s; lb_Deployment := d; lb_Owner := o; lb_AcquiredAt := a;
       lb_ExpiresAt := e; lb_Released := r; lb_ReleasedAt := t |})).
  by intros [].
Defined.

#[export] Instance breakClaim_eq_dec : EqDecision breakClaim.
Proof. solve_decision. Defined.

#[export] Instance breakClaim_countable : Countable breakClaim.
Proof.
  apply (inj_countable'
    (fun b => (bc_Schema b, bc_Deployment b, bc_BrokenOwner b, bc_BrokenAt b, bc_Breaker b, bc_ClaimedAt b))
    (fun '(s, d, o, a, b, c) => {| bc_Schema := s; bc_Deployment := d; bc_BrokenOwner := o; bc_BrokenAt := a;
       bc_Breaker := b; bc_ClaimedAt := c |})).
  by intros [].
Defined.

Record LeaseOptions := {
  lo_Owner : string;
  lo_TTL : duration;
  lo_settle : duration;
  lo_AllowUnenforceable : bool
}.

Record Lease := { l_deployment : string; l_ttl : duration; l_settle : duration; l_body : leaseBody }.

Inductive read_err := ReadStore (e : serr) | Undecodable.

Definition read_is_not_found (e : read_err) : bool :=
  match e with ReadStore ErrNotFound => true | _ => false end.

Inductive lease_err :=
| EmptyDeployment
| ErrLeaseNotEnforceable
| ErrBackupInProgress
| ErrLeaseLost
| LeaseWrite (e : serr)
| LeaseRead (e : read_err)
| ClaimWrite (e : serr).

(** The record is stale: released, or past its expiry. *)
Definition stale (b : leaseBody) (now : time) : bool :=
  negb (negb (lb_Released b) && Time.Before now (lb_ExpiresAt b)).

Definition same_grant (a b : leaseBody) : bool :=
  String.eqb (lb_Owner a) (lb_Owner b) && Time.Equal (lb_AcquiredAt a) (lb_AcquiredAt b).

Definition backupLeaseKey (deployment : string) : string := "leases/" +:+ deployment +:+ "/backup.json".

#[global] Arguments backupLeaseKey : simpl never.

(** [time.RFC3339Nano] in UTC: the fraction without its trailing zeros. *)
Fixpoint trim_zeros (s : string) : string :=
  match s with
  | EmptyString => EmptyString
  | String c r => match trim_zeros r with
                  | EmptyString => if Ascii.eqb c "0"%char then EmptyString else String c EmptyString
                  | t => String c t
                  end
  end.

Definition RFC3339Nano (t : time) : string :=
  let '(y, m, d) := civil (day_of t) in
  let s := t / Time.Second in
  let frac := trim_zeros (fmt_dec 9 (t mod Time.Second)) in
  fmt_dec 4 y +:+ "-" +:+ fmt_dec 2 m +:+ "-" +:+ fmt_dec 2 d +:+ "T" +:+
  fmt_dec 2 (s / 3600 mod 24) +:+ ":" +:+ fmt_dec 2 (s / 60 mod 60) +:+ ":" +:+ fmt_dec 2 (s mod 60) +:+
  (if String.eqb frac "" then "" else "." +:+ frac) +:+ "Z".

Definition with_body (l : Lease) (b : leaseBody) : Lease :=
  {| l_deployment := l_deployment l; l_ttl := l_ttl l; l_settle := l_settle l; l_body := b |}.

Section lease.
Context (sha256 : string -> Hash) (defaultLeaseOwner : string).
Context `{CL : Codec string leaseBody} `{CB : Codec string breakClaim}.

Definition breakClaimKey (deployment : string) (victim : leaseBody) : string :=
  let h := sha256 (lb_Owner victim +:+ String Ascii.zero (RFC3339Nano (lb_AcquiredAt victim))) in
  "leases/" +:+ deployment +:+ "/breaks/" +:+ stake 16 (Hash_String h) +:+ ".json".

(** ** The record *)

Definition lease_opts (body : string) (ifNotExists : bool) : PutOptions :=
  {| IfNotExists := ifNotExists; ContentLength := Z.of_nat (String.length body); RetainUntil := Time.zero; RetentionMode := WORMNone |}.

Definition put (deployment : string) (b : leaseBody) (ifNotExists : bool) : prog string (result serr unit) :=
  sPut (backupLeaseKey deployment) (encode b) (lease_opts (encode b) ifNotExists).

Definition read_limited {T} `{C : Codec string T} (key : string) : prog string (result read_err T) :=
  let* r := sGet key in
  match r with
  | Err e => Ret (Err (ReadStore e))
  | Ok body => match decode (stake maxLeaseBodyBytes body) with
               | Some b => Ret (Ok b)
               | None => Ret (Err Undecodable)
               end
  end.

Definition read (deployment : string) : prog string (result read_err leaseBody) :=
  read_limited (backupLeaseKey deployment).

Definition fresh_body (deployment owner : string) (ttl : duration) (t : time) : leaseBody :=
  {| lb_Schema := LeaseSchema; lb_Deployment := deployment; lb_Owner := owner; lb_AcquiredAt := t;
     lb_ExpiresAt := Time.Add t ttl; lb_Released := false; lb_ReleasedAt := Time.zero |}.

Definition freshBody (l : Lease) (owner : string) : prog string leaseBody :=
  let* t := now in Ret (fresh_body (l_deployment l) owner (l_ttl l) t).

(** A fresh record, put where there is none. *)
Definition create (l : Lease) (owner : string) : prog string (result serr Lease) :=
  let* body := freshBody l owner in
  let* r := put (l_deployment l) body true in
  match r with Ok _ => Ret (Ok (with_body l body)) | Err e => Ret (Err e) end.

(** The same after the record vanished: another creator means a backup in progress. *)
Definition create_vanished (l : Lease) (owner : string) : prog string (result lease_err Lease) :=
  let* r := create l owner in
  match r with
  | Ok l => Ret (Ok l)
  | Err ErrAlreadyExists => Ret (Err ErrBackupInProgress)
  | Err e => Ret (Err (LeaseWrite e))
  end.

(** ** Break claims *)

Definition putClaim (l : Lease) (key : string) (victim : leaseBody) (owner : string)
    : prog string (result lease_err unit) :=
  let* t := now in
  let c := {| bc_Schema := LeaseSchema; bc_Deployment := l_deployment l; bc_BrokenOwner := lb_Owner victim;
              bc_BrokenAt := lb_AcquiredAt victim; bc_Breaker := owner; bc_ClaimedAt := t |} in
  let* r := sPut key (encode c) (lease_opts (encode c) true) in
  match r with
  | Ok _ => Ret (Ok ())
  | Err ErrAlreadyExists => Ret (Err ErrBackupInProgress)
  | Err e => Ret (Err (ClaimWrite e))
  end.

Definition readClaim (key : string) : prog string (result read_err breakClaim) := read_limited key.

Definition claim_gen_key (deployment : string) (victim : leaseBody) (gen : nat) : string :=
  let key := breakClaimKey deployment victim in
  match gen with
  | O => key
  | _ => TrimSuffix key ".json" +:+ "." +:+ pretty (Z.of_nat gen) +:+ ".json"
  end.

(** The generations from [gen] on, [n] of them left. *)
Fixpoint claim_loop (l : Lease) (victim : leaseBody) (owner : string) (n gen : nat)
    : prog string (result lease_err string) :=
  match n with
  | O => Ret (Err ErrBackupInProgress)
  | S n =>
      let key := claim_gen_key (l_deployment l) victim gen in
      let* r := putClaim l key victim owner in
      match r with
      | Ok _ => Ret (Ok key)
      | Err ErrBackupInProgress =>
          let* prev := readClaim key in
          match prev with
          | Err _ => Ret (Err ErrBackupInProgress)
          | Ok prev =>
              let* t := now in
              if Time.Sub t (bc_ClaimedAt prev) <? wedgeGrace then Ret (Err ErrBackupInProgress)
              else claim_loop l victim owner n (S gen)
          end
      | Err e => Ret (Err e)
      end
  end.

Definition claimBreakKey (l : Lease) (victim : leaseBody) (owner : string) : prog string (result lease_err string) :=
  claim_loop l victim owner maxClaimGenerations 0.

(** ** Release and verification *)

Definition Release (l : Lease) : prog string (option lease_err) :=
  let mine := l_body l in
  let* cur := read (l_deployment l) in
  match cur with
  | Err e => Ret (if read_is_not_found e then None else Some (LeaseRead e))
  | Ok cur =>
      if negb (same_grant cur mine) then Ret None
      else
        let* t := now in
        let tomb := {| lb_Schema := lb_Schema mine; lb_Deployment := lb_Deployment mine; lb_Owner := lb_Owner mine;
                       lb_AcquiredAt := lb_AcquiredAt mine; lb_ExpiresAt := t; lb_Released := true;
                       lb_ReleasedAt := t |} in
        let* r := put (l_deployment l) tomb false in
        match r with Ok _ => Ret None | Err e => Ret (Some (LeaseWrite e)) end
  end.

(** What the record says after a write: ours, another's, or unreadable. *)
Inductive observed := Mine | Other (cur : leaseBody) | Unverified (e : read_err).

Definition settleVerifyObserved (deployment : string) (mine : leaseBody) : prog string observed :=
  let* cur := read deployment in
  match cur with
  | Err e => Ret (Unverified e)
  | Ok cur => Ret (if same_grant cur mine then Mine else Other cur)
  end.

(** The verification after a reclaim, [n] re-assertions left. *)
Fixpoint verify_loop (l : Lease) (victim : leaseBody) (n : nat) : prog string (result lease_err Lease) :=
  let* obs := settleVerifyObserved (l_deployment l) (l_body l) in
  match obs with
  | Mine => Ret (Ok l)
  | Unverified e => let* _ := Release l in Ret (Err (LeaseRead e))
  | Other cur =>
      match n with
      | S n =>
          if same_grant cur victim then
            let* r := put (l_deployment l) (l_body l) false in
            match r with
            | Err e => let* _ := Release l in Ret (Err (LeaseWrite e))
            | Ok _ => verify_loop l victim n
            end
          else Ret (Err ErrBackupInProgress)
      | O => Ret (Err ErrBackupInProgress)
      end
  end.

(** Breaking the stale record [victim] with the claim in hand. *)
Definition reclaim (l : Lease) (victim : leaseBody) (owner claimKey : string) : prog string (result lease_err Lease) :=
  let* cur := read (l_deployment l) in
  match cur with
  | Err e =>
      if read_is_not_found e then Ret (Err ErrBackupInProgress)
      else let* _ := sDelete claimKey in Ret (Err (LeaseRead e))
  | Ok cur =>
      if negb (same_grant cur victim) then Ret (Err ErrBackupInProgress)
      else
        let* body := freshBody l owner in
        let* r := put (l_deployment l) body false in
        match r with
        | Err e => let* _ := sDelete claimKey in Ret (Err (LeaseWrite e))
        | Ok _ => verify_loop (with_body l body) victim reclaimEchoRetries
        end
  end.

(** The second look at a record that was stale, and the claim. *)
Definition break_stale (l : Lease) (existing : leaseBody) (owner : string) : prog string (result lease_err Lease) :=
  let* recheck := read (l_deployment l) in
  match recheck with
  | Err e => if read_is_not_found e then create_vanished l owner else Ret (Err (LeaseRead e))
  | Ok recheck =>
      if negb (same_grant recheck existing) then Ret (Err ErrBackupInProgress)
      else
        let* t := (if lb_Released recheck then Ret 0 else now) in
        if negb (stale recheck t) then Ret (Err ErrBackupInProgress)
        else
          let* c := claimBreakKey l recheck owner in
          match c with
          | Err e => Ret (Err e)
          | Ok claimKey => reclaim l recheck owner claimKey
          end
  end.

Definition new_lease (deployment : string) (o : LeaseOptions) : Lease :=
  {| l_deployment := deployment;
     l_ttl := if lo_TTL o <=? 0 then DefaultLeaseTTL else lo_TTL o;
     l_settle := if lo_settle o <=? 0 then defaultLeaseSettle else lo_settle o;
     l_body := fresh_body deployment "" 0 0 |}.

Definition lease_owner (o : LeaseOptions) : string :=
  if String.eqb (lo_Owner o) "" then defaultLeaseOwner else lo_Owner o.

Definition AcquireBackupLease (caps : Capabilities) (deployment : string) (o : LeaseOptions)
    : prog string (result lease_err Lease) :=
  if String.eqb deployment "" then Ret (Err EmptyDeployment)
  else if negb (lo_AllowUnenforceable o) && negb (ConditionalPut caps) then Ret (Err ErrLeaseNotEnforceable)
  else
    let l := new_lease deployment o in
    let owner := lease_owner o in
    let* r := create l owner in
    match r with
    | Ok l => Ret (Ok l)
    | Err ErrAlreadyExists =>
        let* existing := read deployment in
        match existing with
        | Err e => if read_is_not_found e then create_vanished l owner else Ret (Err (LeaseRead e))
        | Ok existing =>
            let* t := (if lb_Released existing then Ret 0 else now) in
            if negb (stale existing t) then Ret (Err ErrBackupInProgress)
            else break_stale l existing owner
        end
    | Err e => Ret (Err (LeaseWrite e))
    end.

(** ** Renewal *)

Definition renewed (b : leaseBody) (expires : time) : leaseBody :=
  {| lb_Schema := lb_Schema b; lb_Deployment := lb_Deployment b; lb_Owner := lb_Owner b;
     lb_AcquiredAt := lb_AcquiredAt b; lb_ExpiresAt := expires; lb_Released := lb_Released b;
     lb_ReleasedAt := lb_ReleasedAt b |}.

Definition Renew (l : Lease) : prog string (result lease_err Lease) :=
  let mine := l_body l in
  let* cur := read (l_deployment l) in
  match cur with
  | Err e => Ret (Err (LeaseRead e))
  | Ok cur =>
      if negb (same_grant cur mine) then Ret (Err ErrLeaseLost)
      else
        let* t := now in
        if negb (Time.Before t (lb_ExpiresAt cur)) then Ret (Err ErrLeaseLost)
        else
          let* t := now in
          if negb (Time.Before (Time.Add t (2 * l_settle l)) (lb_ExpiresAt cur)) then Ret (Err ErrLeaseLost)
          else
            let* t := now in
            let next := renewed mine (Time.Add t (l_ttl l)) in
            if negb (Time.After (lb_ExpiresAt next) (lb_ExpiresAt cur)) then Ret (Ok l)
            else
              let* r := put (l_deployment l) next false in
              match r with
              | Err e => Ret (Err (LeaseWrite e))
              | Ok _ =>
                  let* obs := settleVerifyObserved (l_deployment l) next in
                  match obs with
                  | Mine => Ret (Ok (with_body l next))
                  | Other _ => Ret (Err ErrLeaseLost)
                  | Unverified e => Ret (Err (LeaseRead e))
                  end
              end
  end.

(** [Maintain] through [ticks] ticks: the lease at the end and the errors reported. *)
Fixpoint Maintain (l : Lease) (ticks : nat) : prog string (Lease * list lease_err) :=
  match ticks with
  | O => Ret (l, [])
  | S ticks =>
      let* r := Renew l in
      match r with
      | Ok l => Maintain l ticks
      | Err ErrLeaseLost => Ret (l, [ErrLeaseLost])
      | Err e => let* m := Maintain l ticks in Ret (m.1, e :: m.2)
      end
  end.

(** ** Readers of the record *)

Context (decode_first_lease : string -> option leaseBody) (decode_first_claim : string -> option breakClaim).

Record LeaseWedge := {
  lw_Deployment : string;
  lw_LeaseKey : string;
  lw_ClaimKey : string;
  lw_Breaker : string;
  lw_ClaimedAt : time;
  lw_LeaseOwner : string;
  lw_LeaseAcquiredAt : time
}.

Definition inspectLimit : nat := Z.to_nat (Z.shiftl 1 20).

Definition InspectLeaseSuccession (deployment : string) (now : time)
    : prog string (result read_err (option LeaseWedge)) :=
  let* r := sGet (backupLeaseKey deployment) in
  match r with
  | Err ErrNotFound => Ret (Ok None)
  | Err e => Ret (Err (ReadStore e))
  | Ok raw =>
      match decode_first_lease (stake inspectLimit raw) with
      | None => Ret (Err Undecodable)
      | Some body =>
          if negb (stale body now) then Ret (Ok None)
          else
            let claimKey := breakClaimKey deployment body in
            let* r := sGet claimKey in
            match r with
            | Err ErrNotFound => Ret (Ok None)
            | Err e => Ret (Err (ReadStore e))
            | Ok raw =>
                match decode_first_claim (stake inspectLimit raw) with
                | None => Ret (Err Undecodable)
                | Some claim =>
                    if Time.Sub now (bc_ClaimedAt claim) <? wedgeGrace then Ret (Ok None)
                    else Ret (Ok (Some {| lw_Deployment := deployment; lw_LeaseKey := backupLeaseKey deployment;
                           lw_ClaimKey := claimKey; lw_Breaker := bc_Breaker claim; lw_ClaimedAt := bc_ClaimedAt claim;
                           lw_LeaseOwner := lb_Owner body; lw_LeaseAcquiredAt := lb_AcquiredAt body |}))
                end
            end
      end
  end.

(** One record of the listing of live leases. *)
Definition live_step (now : time) (i : ObjectInfo) (live : list string)
    : prog string (list string + read_err) :=
  if negb (HasSuffix (Key i) "/backup.json") then Ret (inl live)
  else
    let* r := sGet (Key i) in
    match r with
    | Err ErrNotFound => Ret (inl live)
    | Err e => Ret (inr (ReadStore e))
    | Ok raw =>
        match decode_first_lease (stake inspectLimit raw) with
        | None => Ret (inr Undecodable)
        | Some lease =>
            if negb (lb_Released lease) && Time.Before now (lb_ExpiresAt lease) then
              let name := if String.eqb (lb_Deployment lease) ""
                          then TrimSuffix (TrimPrefix (Key i) "leases/") "/backup.json"
                          else lb_Deployment lease in
              Ret (inl (live ++ [name]))
            else Ret (inl live)
        end
    end.

Definition findLiveBackupLeases (now : time) : prog string (result read_err (list string)) :=
  let* l := sList "leases/" in
  let* r := for_ l.1 [] (live_step now) in
  match r, l.2 with
  | inr e, _ => Ret (Err e)
  | inl _, Some e => Ret (Err (ReadStore e))
  | inl live, None => Ret (Ok (stable_sort string_ltb live))
  end.

(** ** Facts *)

Definition holds (deployment : string) (s : gmap string (object string)) (b : leaseBody) : Prop :=
  exists ob, s !! backupLeaseKey deployment = Some ob /\ decode (stake maxLeaseBodyBytes (ob_body ob)) = Some b.

Lemma stale_mono b t u : t <= u -> stale b t = true -> stale b u = true.
Proof. unfold stale, Time.Before. destruct (lb_Released b); [done|]. cbn. rewrite !negb_true_iff, !Z.ltb_ge. lia. Qed.

Lemma same_grant_refl b : same_grant b b = true.
Proof. unfold same_grant, Time.Equal. by rewrite String.eqb_refl, Z.eqb_refl. Qed.

Lemma same_grant_spec a b : same_grant a b = true <-> lb_Owner a = lb_Owner b /\ lb_AcquiredAt a = lb_AcquiredAt b.
Proof. unfold same_grant, Time.Equal. by rewrite andb_true_iff, String.eqb_eq, Z.eqb_eq. Qed.

Lemma lease_key_not_claim d v g : backupLeaseKey d <> claim_gen_key d v g.
Proof.
  unfold backupLeaseKey, claim_gen_key, breakClaimKey.
  set (h := stake 16 _).
  assert (exists r, match g with
    | O => "leases/" +:+ d +:+ "/breaks/" +:+ h +:+ ".json"
    | _ => TrimSuffix ("leases/" +:+ d +:+ "/breaks/" +:+ h +:+ ".json") ".json" +:+ "." +:+ pretty (Z.of_nat g) +:+ ".json"
    end = "leases/" +:+ d +:+ ("/breaks/" +:+ r)) as [r ->].
  { destruct g; [by exists (h +:+ ".json")|].
    exists (h +:+ "." +:+ pretty (Z.of_nat (S g)) +:+ ".json").
    replace ("leases/" +:+ d +:+ "/breaks/" +:+ h +:+ ".json")%string
      with (("leases/" +:+ d +:+ "/breaks/" +:+ h) +:+ ".json")%string
      by (by rewrite !string_app_assoc).
    rewrite TrimSuffix_app. by rewrite !string_app_assoc. }
  intros H. apply (inj (String.append "leases/")), (inj (String.append d)) in H. done.
Qed.

(** *** A live record is never taken *)

Section held.
Context (latest : time) (deployment : string).

Definition held (s : gmap string (object string)) : Prop :=
  exists b, holds deployment s b /\ lb_Released b = false /\ latest < lb_ExpiresAt b.

Local Abbreviation W := (wpi (fun d => d_time d <= latest) held (fun s s' => s' = s)).

Lemma read_held : W (read deployment) (fun r => match r with
  | Ok b => lb_Released b = false /\ latest < lb_ExpiresAt b
  | Err e => read_is_not_found e = false end).
Proof.
  unfold read, read_limited. wpi_step; [done| | |done].
  - intros s ob (b & (ob' & Ho' & Hd) & Hb) Ho. assert (ob = ob') as -> by congruence. cbn. by rewrite Hd.
  - intros s (b & (ob & Ho & _) & _) Hn. congruence.
Qed.

Lemma create_held l owner : l_deployment l = deployment ->
  W (create l owner) (fun r => is_ok r = false).
Proof.
  intros Hl. unfold create, freshBody. wpi_step. wpi_step; [done|]. intros d _. cbn [wpi].
  unfold put. rewrite Hl. apply wpi_bind, wpi_call. intros s Hs. pose proof Hs as (b & (ob & Ho & _) & _).
  apply wp_put.
  - intros d2 _ Hn. specialize (Hn eq_refl). congruence.
  - intros _ _. done.
  - intros d2 c _ _. done.
  - intros d2 c _ _ Hn. specialize (Hn eq_refl). congruence.
Qed.

Lemma Acquire_held caps o : W (AcquireBackupLease caps deployment o) (fun r => is_ok r = false).
Proof.
  unfold AcquireBackupLease. destruct (String.eqb _ _); [done|]. destruct (_ && _); [done|].
  wpi_step. eapply wpi_mono; [|by apply create_held]. intros [l|[]]; try done. intros _.
  wpi_step. eapply wpi_mono; [|apply read_held]. intros [b|e].
  - intros [Hr He]. rewrite Hr. wpi_step; [done|]. intros d Hd. unfold stale, Time.Before. rewrite Hr.
    rewrite (proj2 (Z.ltb_lt _ _)) by lia. done.
  - by intros ->.
Qed.
End held.
End lease.

(** C22: a lease somebody holds is safe: while a readable record that is neither released nor
    expired by the acquirer's clock is in the store, renewals included, an acquisition fails
    and changes nothing, whatever fails and whatever others do. *)
Theorem Acquire_respects_holder (sha256 : string -> Hash) (defaultLeaseOwner : string)
    `{CL : Codec string leaseBody} `{CB : Codec string breakClaim} (caps : Capabilities) (deployment : string)
    (o : LeaseOptions) (latest : time)
    (env : nat -> gmap string (object string) -> gmap string (object string)) (ds : nat -> decision)
    (s : gmap string (object string)) :
  held latest deployment s -> (forall j s, held latest deployment s -> held latest deployment (env j s)) ->
  (forall j, d_time (ds j) <= latest) ->
  let '(r, _, steps) := runc env ds 0 (AcquireBackupLease sha256 defaultLeaseOwner caps deployment o) s in
  is_ok r = false /\ Forall (fun st => st.2 = st.1) steps.
Proof.
  intros Hs Henv Hds.
  pose proof (wpi_runc _ _ _ _ _ env ds 0 s Hds Henv Hs
    (Acquire_held sha256 defaultLeaseOwner latest deployment caps o)) as H.
  destruct (runc env ds 0 _ s) as [[r s'] steps]. by destruct H as (H1 & _ & H2).
Qed.

Section more.
Context (sha256 : string -> Hash) (defaultLeaseOwner : string).
Context `{CL : Codec string leaseBody} `{CB : Codec string breakClaim}.

Lemma holds_put deployment s b t o : (String.length (encode b) <= maxLeaseBodyBytes)%nat ->
  holds deployment (<[backupLeaseKey deployment := put_object t (encode b) o]> s) b.
Proof.
  intros Hl. eexists. split; [apply lookup_insert_eq|]. cbn [ob_body put_object].
  by rewrite stake_all, decode_encode.
Qed.

Lemma holds_functional deployment s b b' : holds deployment s b -> holds deployment s b' -> b = b'.
Proof. intros (ob & H1 & H2) (ob' & H3 & H4). congruence. Qed.

(** A read of the record on a backend without failures. *)
Lemma lease_read_wp (D : decision -> Prop) deployment (Q : result read_err leaseBody -> gmap string (object string) -> Prop) s b :
  (forall d, D d -> healthy d) -> holds deployment s b -> Q (Ok b) s -> wp D (read deployment) Q s.
Proof.
  intros HD (ob & Ho & Hd) HQ. unfold read, read_limited. wp_step.
  - intros ob' Ho'. assert (ob' = ob) as -> by congruence. by rewrite Hd.
  - congruence.
  - intros d c Hd' Hf. by destruct Hf; apply HD.
Qed.

(** *** A stale record is taken over *)

Section takeover.
Context (first latest : time) (deployment owner : string) (l : Lease).
Hypothesis l_dep : l_deployment l = deployment.
Hypothesis fits : forall t, first <= t <= latest ->
  (String.length (encode (fresh_body deployment owner (l_ttl l) t)) <= maxLeaseBodyBytes)%nat.

Definition good (d : decision) : Prop := healthy d /\ first <= d_time d <= latest.

Lemma lease_good_healthy d : good d -> healthy d.
Proof. by intros []. Qed.

(** The lease is taken: the fresh record is stored and returned. *)
Definition taken (r : result lease_err Lease) (s : gmap string (object string)) : Prop :=
  exists l' t, r = Ok l' /\ first <= t <= latest /\ l_deployment l' = deployment /\
    l_body l' = fresh_body deployment owner (l_ttl l) t /\ holds deployment s (l_body l').

(** Every claim before generation [g] is an hour old, and [g] is free. *)
Definition claimable (s : gmap string (object string)) (victim : leaseBody) (from g : nat) : Prop :=
  s !! claim_gen_key sha256 deployment victim g = None /\
  forall i, (from <= i < g)%nat -> exists ob c, s !! claim_gen_key sha256 deployment victim i = Some ob /\
    decode (stake maxLeaseBodyBytes (ob_body ob)) = Some c /\ bc_ClaimedAt c + wedgeGrace <= first.

Lemma claim_wp victim g n from s : claimable s victim from g -> (from <= g < from + n)%nat ->
  wp good (claim_loop sha256 l victim owner n from) (fun r s' => exists ob,
    r = Ok (claim_gen_key sha256 deployment victim g) /\
    s' = <[claim_gen_key sha256 deployment victim g := ob]> s) s.
Proof.
  revert from. induction n as [|n IH]; intros from [Hfree Hold] Hg; [lia|]. cbn [claim_loop].
  rewrite l_dep. unfold putClaim. wp_step. wp_step. intros d [_ Hd].
  assert (forall d, good d -> d_fault d <> Normal -> False) as Hno by (intros ? [Hh _] Hf; by destruct Hf).
  apply wp_bind. destruct (decide (from = g)) as [->|Hne].
  - apply wp_put.
    + intros d2 _ _. cbn [pbind wp]. by eexists.
    + rewrite Hfree. by intros [? ?].
    + intros d2 c Hd2 Hf. destruct (Hno d2 Hd2 Hf).
    + intros d2 c Hd2 Hf. destruct (Hno d2 Hd2 Hf).
  - destruct (Hold from) as (ob & c & Ho & Hc & Ht); [lia|]. apply wp_put.
    + intros d2 _ Hn. specialize (Hn eq_refl). congruence.
    + intros _ _. cbn [pbind wp]. unfold readClaim, read_limited. wp_step. wp_step.
      * intros ob' Ho'. assert (ob' = ob) as -> by congruence. rewrite Hc. cbn [wp]. wp_step. intros d2 [_ Hd2].
        rewrite (proj2 (Z.ltb_ge _ _)).
        -- apply IH; [|lia]. split; [done|]. intros i Hi. apply Hold. lia.
        -- destruct (Z_lt_le_dec (Time.Sub (d_time d2) (bc_ClaimedAt c)) wedgeGrace) as [H|H]; [|done].
           apply Time.Sub_lt in H; [lia|done].
      * congruence.
      * intros d2 e Hd2 Hf. destruct (Hno d2 Hd2 Hf).
    + intros d2 e Hd2 Hf. destruct (Hno d2 Hd2 Hf).
    + intros d2 e Hd2 Hf. destruct (Hno d2 Hd2 Hf).
Qed.

Lemma create_wp s : s !! backupLeaseKey deployment = None ->
  wp good (create l owner) (fun r s' => exists l', r = Ok l' /\ taken (Ok l') s') s.
Proof.
  intros Hn. unfold create, freshBody. wp_step. wp_step. intros d [_ Hd]. cbn [wp]. rewrite l_dep.
  unfold put. wp_step.
  - intros d2 _ _. cbn [wp]. eexists. split; [done|]. exists (with_body l (fresh_body deployment owner (l_ttl l) (d_time d))), (d_time d).
    split; [done|]. split; [exact Hd|]. split_and!; [done|done|]. apply holds_put. by apply fits.
  - rewrite Hn. by intros [? ?].
  - intros d2 c [Hh _] Hf. by destruct Hf.
  - intros d2 c [Hh _] Hf. by destruct Hf.
Qed.

Lemma reclaim_wp victim key s : holds deployment s victim -> wp good (reclaim l victim owner key) taken s.
Proof.
  intros Hv. unfold reclaim. rewrite l_dep. wp_step. eapply lease_read_wp; [apply lease_good_healthy|done|].
  rewrite same_grant_refl. cbn [negb]. unfold freshBody. wp_step. wp_step. intros d [_ Hd]. cbn [wp]. rewrite l_dep.
  pose proof (fits _ Hd) as Hf. unfold put at 1. wp_step.
  - intros d2 _ _. unfold reclaimEchoRetries. cbn [verify_loop]. unfold settleVerifyObserved. cbn [l_deployment l_body with_body].
    rewrite l_dep. wp_step. wp_step. eapply lease_read_wp; [apply lease_good_healthy|by apply holds_put|].
    rewrite same_grant_refl. cbn [wp]. exists (with_body l (fresh_body deployment owner (l_ttl l) (d_time d))), (d_time d).
    split; [done|]. split; [exact Hd|]. split_and!; [done|done|by apply holds_put].
  - intros _ Hx. discriminate Hx.
  - intros d2 c [Hh _] Hx. by destruct Hx.
  - intros d2 c [Hh _] Hx. by destruct Hx.
Qed.

Lemma clock_wp victim (Q : time -> gmap string (object string) -> Prop) s : stale victim first = true ->
  (forall t, stale victim t = true -> Q t s) -> wp good (if lb_Released victim then Ret 0 else now) Q s.
Proof.
  intros Hst HQ. destruct (lb_Released victim) eqn:Er.
  - apply HQ. unfold stale. by rewrite Er.
  - apply wp_now. intros d [_ Hd]. apply HQ. eapply stale_mono; [|exact Hst]. lia.
Qed.

Lemma break_stale_wp victim g s : holds deployment s victim -> stale victim first = true ->
  (g < maxClaimGenerations)%nat -> claimable s victim 0 g ->
  wp good (break_stale sha256 l victim owner) taken s.
Proof.
  intros Hv Hst Hg Hc. unfold break_stale. rewrite l_dep. wp_step. eapply lease_read_wp; [apply lease_good_healthy|done|].
  rewrite same_grant_refl. cbn [negb]. wp_step. apply clock_wp; [done|]. intros t Ht. rewrite Ht. cbn [negb].
  wp_step. eapply wp_mono; [|apply (claim_wp victim g); [done|lia]].
  intros r s' (ob & -> & ->). apply reclaim_wp. destruct Hv as (ob' & Ho & Hd). exists ob'.
  rewrite lookup_insert_ne; [done|]. intros H. by eapply lease_key_not_claim.
Qed.

Lemma Acquire_wp caps o s : l = new_lease deployment o -> owner = lease_owner defaultLeaseOwner o ->
  deployment <> "" -> lo_AllowUnenforceable o || ConditionalPut caps = true ->
  s !! backupLeaseKey deployment = None \/
  (exists victim g, holds deployment s victim /\ stale victim first = true /\
     (g < maxClaimGenerations)%nat /\ claimable s victim 0 g) ->
  wp good (AcquireBackupLease sha256 defaultLeaseOwner caps deployment o) taken s.
Proof.
  intros Hl Ho Hdep Hcap Hs. unfold AcquireBackupLease. rewrite (proj2 (String.eqb_neq _ _) Hdep).
  rewrite <- negb_orb, Hcap. cbn [negb]. rewrite <- Hl, <- Ho. wp_step.
  destruct Hs as [Hn|(victim & g & Hv & Hst & Hg & Hc)].
  - eapply wp_mono; [|by apply create_wp]. by intros r s' (l' & -> & H).
  - eapply (wp_mono _ _ (fun r s' => r = Err ErrAlreadyExists /\ s' = s)).
    + intros r s' [-> ->]. wp_step. eapply lease_read_wp; [apply lease_good_healthy|done|]. wp_step.
      apply clock_wp; [done|]. intros t Ht. rewrite Ht. cbn [negb]. by eapply break_stale_wp.
    + destruct Hv as (ob & Hob & _). unfold create, freshBody. wp_step. wp_step. intros d _. cbn [wp].
      rewrite l_dep. unfold put. wp_step.
      * intros d2 _ Hn. specialize (Hn eq_refl). congruence.
      * done.
      * intros d2 c [Hh _] Hx. by destruct Hx.
      * intros d2 c [Hh _] Hx. by destruct Hx.
Qed.
End takeover.
End more.

(** A deployment is never locked for good: on a healthy backend, with nobody else around,
    an acquisition succeeds when there is no lease or when the one there is released or
    expired, even if earlier successions died half-way (claims an hour old); the repository
    then holds the new holder's fresh record. *)
Theorem Acquire_takes_over (sha256 : string -> Hash) (defaultLeaseOwner : string)
    `{CL : Codec string leaseBody} `{CB : Codec string breakClaim} (caps : Capabilities) (deployment : string)
    (o : LeaseOptions) (first latest : time) (ds : nat -> decision) (s : gmap string (object string)) :
  let owner := lease_owner defaultLeaseOwner o in
  let ttl := l_ttl (new_lease deployment o) in
  deployment <> "" -> lo_AllowUnenforceable o || ConditionalPut caps = true ->
  (forall j, healthy (ds j) /\ first <= d_time (ds j) <= latest) ->
  (forall t, first <= t <= latest ->
     (String.length (encode (fresh_body deployment owner ttl t)) <= maxLeaseBodyBytes)%nat) ->
  s !! backupLeaseKey deployment = None \/
  (exists victim g, holds deployment s victim /\ stale victim first = true /\
     (g < maxClaimGenerations)%nat /\ claimable sha256 first deployment s victim 0 g) ->
  let '(r, s') := run ds 0 (AcquireBackupLease sha256 defaultLeaseOwner caps deployment o) s in
  exists l t, r = Ok l /\ first <= t <= latest /\ l_body l = fresh_body deployment owner ttl t /\
    holds deployment s' (l_body l).
Proof.
  intros owner ttl Hdep Hcap Hds Hfit Hs.
  pose proof (wp_run _ _ _ s ds 0 Hds (Acquire_wp sha256 defaultLeaseOwner first latest deployment owner
    (new_lease deployment o) eq_refl Hfit caps o s eq_refl eq_refl Hdep Hcap Hs)) as H.
  destruct (run ds 0 _ s) as [r s']. destruct H as (l & t & H1 & H2 & _ & H3 & H4). by exists l, t.
Qed.

(** *** A holder touches only its own record *)

(** What a holder of the grant [mine] may do to the store. *)
Definition fenced `{CL : Codec string leaseBody} (deployment : string) (mine : leaseBody)
    (s s' : gmap string (object string)) : Prop :=
  (forall k, k <> backupLeaseKey deployment -> s' !! k = s !! k) /\
  (s' !! backupLeaseKey deployment = s !! backupLeaseKey deployment \/
   (exists cur, holds deployment s cur /\ same_grant cur mine = true) /\
   exists ob b, s' !! backupLeaseKey deployment = Some ob /\ ob_body ob = encode b /\ same_grant b mine = true).

Inductive holder_op := ORenew | ORelease | OMaintain (ticks : nat).

(** One operation of a holder: the lease afterwards. *)
Definition do_holder `{CL : Codec string leaseBody} (op : holder_op) (l : Lease) : prog string Lease :=
  match op with
  | ORenew => let* r := Renew l in Ret (match r with Ok l' => l' | Err _ => l end)
  | ORelease => let* _ := Release l in Ret l
  | OMaintain ticks => let* r := Maintain l ticks in Ret r.1
  end.

Fixpoint holder_session `{CL : Codec string leaseBody} (ops : list holder_op) (l : Lease) : prog string Lease :=
  match ops with
  | [] => Ret l
  | op :: ops => let* l := do_holder op l in holder_session ops l
  end.

Section holder.
Context `{CL : Codec string leaseBody} (D : decision -> Prop).

Lemma fenced_refl deployment mine s : fenced deployment mine s s.
Proof. split; [done|by left]. Qed.

Lemma same_grant_trans a b c : same_grant a b = true -> same_grant b c = true -> same_grant a c = true.
Proof. rewrite !same_grant_spec. intuition congruence. Qed.

Lemma fenced_trans deployment mine s1 s2 s3 : fenced deployment mine s1 s2 -> fenced deployment mine s2 s3 ->
  fenced deployment mine s1 s3.
Proof.
  intros [H1 H2] [H3 H4]. split; [intros k Hk; by rewrite H3, H1|].
  destruct H4 as [H4|[(cur & (ob & Ho & Hd) & Hg) Hn]].
  - rewrite H4. exact H2.
  - right. split; [|exact Hn]. destruct H2 as [H2|[Hc _]]; [|exact Hc].
    exists cur. split; [|done]. exists ob. by rewrite <- H2.
Qed.

Lemma fenced_put deployment mine s cur t b o : holds deployment s cur -> same_grant cur mine = true ->
  same_grant b mine = true ->
  fenced deployment mine s (<[backupLeaseKey deployment := put_object t (encode b) o]> s).
Proof.
  intros Hc Hg Hb. split; [intros k Hk; by rewrite lookup_insert_ne|]. right. split; [by exists cur|].
  do 2 eexists. split; [apply lookup_insert_eq|]. done.
Qed.

Lemma fenced_grant deployment m m' s s' : same_grant m m' = true -> fenced deployment m s s' ->
  fenced deployment m' s s'.
Proof.
  intros Hm [H1 H2]. split; [done|]. destruct H2 as [H2|[(cur & Hc & Hg) (ob & b & Ho & Hb & Hs)]]; [by left|right].
  split; [exists cur; split; [done|by eapply same_grant_trans]|]. exists ob, b. split_and!; [done..|by eapply same_grant_trans].
Qed.

Lemma read_any_wp deployment (Q : result read_err leaseBody -> gmap string (object string) -> Prop) s :
  (forall b, holds deployment s b -> Q (Ok b) s) -> (forall e, Q (Err e) s) -> wp D (read deployment) Q s.
Proof.
  intros H1 H2. unfold read, read_limited. wp_step.
  - intros ob Ho. destruct (decode _) as [b|] eqn:E; [|apply H2]. apply H1. by exists ob.
  - intros _. apply H2.
  - intros d c _ _. apply H2.
Qed.

(** What a renewal does, with the record it read and the instant it was found live. *)
Definition renew_post (l : Lease) (s : gmap string (object string)) (r : result lease_err Lease)
    (s' : gmap string (object string)) : Prop :=
  fenced (l_deployment l) (l_body l) s s' /\
  forall l', r = Ok l' ->
    same_grant (l_body l') (l_body l) = true /\ l_deployment l' = l_deployment l /\
    exists cur t b, holds (l_deployment l) s cur /\ same_grant cur (l_body l) = true /\ t < lb_ExpiresAt cur /\
      holds (l_deployment l) s' b /\ same_grant b (l_body l) = true /\
      (s' = s \/ lb_ExpiresAt cur < lb_ExpiresAt (l_body l')).

Lemma Renew_wp l s : wp D (Renew l) (renew_post l s) s.
Proof.
  assert (forall e, renew_post l s (Err e) s) as Hfail by (intros e; split; [apply fenced_refl|done]).
  unfold Renew. wp_step. apply read_any_wp; [|intros e; apply Hfail]. intros cur Hc.
  destruct (same_grant cur (l_body l)) eqn:Eg; [cbn [negb]|apply Hfail]. wp_step. intros d _.
  destruct (Time.Before (d_time d) (lb_ExpiresAt cur)) eqn:El; [cbn [negb]|apply Hfail]. wp_step. intros d2 _.
  destruct (Time.Before (Time.Add _ _) _) eqn:El2; [cbn [negb]|apply Hfail]. wp_step. intros d3 _. cbn zeta.
  apply Z.ltb_lt in El.
  destruct (Time.After _ _) eqn:Ea; cbn [negb].
  2:{ split; [apply fenced_refl|]. intros l' [= <-]. split; [apply same_grant_refl|]. split; [done|].
      exists cur, (d_time d), cur. split_and!; try done. by left. }
  apply Z.ltb_lt in Ea. unfold put at 1. wp_step.
  - intros d4 _ _. cbn [wp]. unfold settleVerifyObserved. wp_step. wp_step.
    apply read_any_wp; [|intros e]; cbn [wp].
    + intros b Hb. destruct (same_grant b _) eqn:Eb; cbn [wp].
      * split; [eapply fenced_put; [done|done|exact (same_grant_refl (l_body l))]|]. intros l' [= <-].
        split; [exact (same_grant_refl (l_body l))|]. split; [done|]. change (same_grant b (l_body l) = true) in Eb.
        exists cur, (d_time d), b. split_and!; try done. by right.
      * split; [eapply fenced_put; [done|done|exact (same_grant_refl (l_body l))]|done].
    + split; [eapply fenced_put; [done|done|exact (same_grant_refl (l_body l))]|done].
  - intros _ Hx. discriminate Hx.
  - intros d4 c _ _. apply Hfail.
  - intros d4 c _ _ _. split; [eapply fenced_put; [done|done|exact (same_grant_refl (l_body l))]|done].
Qed.

Lemma Release_wp l s : wp D (Release l) (fun _ s' => fenced (l_deployment l) (l_body l) s s') s.
Proof.
  unfold Release. wp_step. apply read_any_wp; [|intros e; apply fenced_refl]. intros cur Hc.
  destruct (same_grant cur (l_body l)) eqn:Eg; [cbn [negb]|apply fenced_refl]. wp_step. intros d _. unfold put. wp_step.
  - intros d2 _ _. eapply fenced_put; [done|done|exact (same_grant_refl (l_body l))].
  - intros _ Hx. discriminate Hx.
  - intros d2 c _ _. apply fenced_refl.
  - intros d2 c _ _ _. eapply fenced_put; [done|done|exact (same_grant_refl (l_body l))].
Qed.

(** A holder's progress: the same grant, the store changed within its fence. *)
Definition holder_post (l : Lease) (s : gmap string (object string)) (l' : Lease) (s' : gmap string (object string)) : Prop :=
  fenced (l_deployment l) (l_body l) s s' /\ same_grant (l_body l') (l_body l) = true /\
  l_deployment l' = l_deployment l.

Lemma holder_refl l s : holder_post l s l s.
Proof. split_and!; [apply fenced_refl|apply same_grant_refl|done]. Qed.

Lemma holder_trans l1 s1 l2 s2 l3 s3 : holder_post l1 s1 l2 s2 -> holder_post l2 s2 l3 s3 -> holder_post l1 s1 l3 s3.
Proof.
  intros (F1 & G1 & E1) (F2 & G2 & E2). rewrite E1 in *. split_and!; [|by eapply same_grant_trans|congruence].
  eapply fenced_trans; [exact F1|]. by eapply fenced_grant.
Qed.

Lemma Renew_holder l s : wp D (Renew l) (fun r s' => match r with
  | Ok l' => holder_post l s l' s' | Err _ => holder_post l s l s' end) s.
Proof.
  eapply wp_mono; [|apply Renew_wp]. intros [l'|e] s' [Hf Hok].
  - destruct (Hok l' eq_refl) as (Hg & Hd & _). split_and!; done.
  - split_and!; [done|apply same_grant_refl|done].
Qed.

Lemma Maintain_wp ticks l s : wp D (Maintain l ticks) (fun r s' => holder_post l s r.1 s') s.
Proof.
  revert l s. induction ticks as [|n IH]; intros l s; cbn [Maintain]; [apply holder_refl|].
  wp_step. eapply wp_mono; [|apply Renew_holder].
  assert (forall e s', holder_post l s l s' -> wp D (let* m := Maintain l n in Ret (m.1, e :: m.2))
    (fun r s' => holder_post l s r.1 s') s') as Herr.
  { intros e s' H. wp_step. eapply wp_mono; [|apply IH]. intros r s2 H2. cbn. by eapply holder_trans. }
  intros [l'|e] s' H.
  - eapply wp_mono; [|apply IH]. intros r s2 H2. by eapply holder_trans.
  - destruct e; try by apply Herr. exact H.
Qed.

Lemma do_holder_wp op l s : wp D (do_holder op l) (holder_post l s) s.
Proof.
  destruct op as [| |ticks]; cbn [do_holder]; wp_step.
  - eapply wp_mono; [|apply Renew_holder]. by intros [l'|e].
  - eapply wp_mono; [|apply Release_wp]. intros r s' H. cbn. split_and!; [done|apply same_grant_refl|done].
  - eapply wp_mono; [|apply Maintain_wp]. done.
Qed.

Lemma holder_session_wp ops l s : wp D (holder_session ops l) (holder_post l s) s.
Proof.
  revert l s. induction ops as [|op ops IH]; intros l s; cbn [holder_session]; [apply holder_refl|].
  wp_step. eapply wp_mono; [|apply do_holder_wp]. intros l' s' H. eapply wp_mono; [|apply IH].
  intros l2 s2 H2. by eapply holder_trans.
Qed.
End holder.

(** Through any renewals and releases, under any storage failures, a holder changes
    nothing but the lease record, and that only when it finds its own grant there; what it
    writes carries its grant.  So a holder that was superseded never touches its successor's
    record as long as nothing comes between its look and its write. *)
Theorem holder_fenced `{CL : Codec string leaseBody} (ops : list holder_op) (l : Lease) (ds : nat -> decision)
    (s : gmap string (object string)) :
  let '(l', s') := run ds 0 (holder_session ops l) s in
  same_grant (l_body l') (l_body l) = true /\ fenced (l_deployment l) (l_body l) s s'.
Proof.
  pose proof (wp_run (fun _ => True) _ _ s ds 0 (fun _ => I) (holder_session_wp (fun _ => True) ops l s)) as H.
  destruct (run ds 0 _ s) as [l' s']. by destruct H as (H1 & H2 & _).
Qed.

(** A renewal succeeds only on a lease that is still its own and was live when it looked;
    the record afterwards is its own, and either unchanged or with a later expiry. *)
Theorem Renew_extends `{CL : Codec string leaseBody} (l l' : Lease) (ds : nat -> decision)
    (s s' : gmap string (object string)) :
  run ds 0 (Renew l) s = (Ok l', s') ->
  exists cur t b, holds (l_deployment l) s cur /\ same_grant cur (l_body l) = true /\ t < lb_ExpiresAt cur /\
    holds (l_deployment l) s' b /\ same_grant b (l_body l') = true /\
    (s' = s \/ lb_ExpiresAt cur < lb_ExpiresAt (l_body l')).
Proof.
  intros Hr. pose proof (wp_run (fun _ => True) _ _ s ds 0 (fun _ => I) (Renew_wp (fun _ => True) l s)) as H.
  rewrite Hr in H. destruct H as [_ H]. destruct (H l' eq_refl) as (Hg & _ & cur & t & b & H1 & H2 & H3 & H4 & H5 & H6).
  exists cur, t, b. split_and!; try done. rewrite same_grant_spec in *. intuition congruence.
Qed.

(** ** Concrete leases *)

Definition lease_codec : Codec string leaseBody := countable_codec.
Definition claim_codec : Codec string breakClaim := countable_codec.

Definition hash0 (_ : string) : Hash := 0.

Definition first_holder : leaseBody := fresh_body "db" "host-a" DefaultLeaseTTL (1 * Time.Hour).

Definition lease_object (b : leaseBody) : object string :=
  Object (encode (Codec := lease_codec) b) 100 (1 * Time.Hour) 0 WORMNone.

Definition leased (b : leaseBody) : gmap string (object string) := {[backupLeaseKey "db" := lease_object b]}.

Definition lease_clock (t : time) : nat -> decision := fun _ =>
  {| d_fault := Normal; d_time := t; d_order := fun l => l; d_order_perm := fun l => Permutation_refl l; d_listed := 0 |}.

Definition second_owner : LeaseOptions :=
  {| lo_Owner := "host-b"; lo_TTL := 0; lo_settle := 0; lo_AllowUnenforceable := false |}.

Definition conditional : Capabilities := {| WORM := false; ConditionalPut := true |}.

Definition second_acquire : prog string (result lease_err Lease) :=
  AcquireBackupLease hash0 "host-b/pid-1" (CL := lease_codec) (CB := claim_codec) conditional "db" second_owner.

Lemma leased_holds b : (String.length (encode (Codec := lease_codec) b) <=? maxLeaseBodyBytes)%nat = true ->
  holds (CL := lease_codec) "db" (leased b) b.
Proof.
  intros Hl%Nat.leb_le. exists (lease_object b). split; [apply lookup_insert_eq|]. cbn [ob_body lease_object].
  rewrite stake_all by done. apply (decode_encode (Codec := lease_codec)).
Qed.

Lemma Acquire_respects_holder_witness :
  is_ok (runc (fun _ s => s) (lease_clock (1 * Time.Hour + 1)) 0 second_acquire (leased first_holder)).1.1 = false.
Proof.
  assert (held (CL := lease_codec) (1 * Time.Hour + 1) "db" (leased first_holder)) as Hh.
  { exists first_holder. split; [apply leased_holds; vm_compute; reflexivity|]. split; [reflexivity|].
    vm_compute. reflexivity. }
  pose proof (Acquire_respects_holder hash0 "host-b/pid-1" (CL := lease_codec) (CB := claim_codec) conditional "db"
    second_owner (1 * Time.Hour + 1) (fun _ s => s) (lease_clock (1 * Time.Hour + 1)) (leased first_holder) Hh) as H.
  change (AcquireBackupLease _ _ _ _ _) with second_acquire in H.
  destruct (runc _ _ _ second_acquire _) as [[r s'] steps]. apply (proj1 (H (fun _ s Hs => Hs) (fun j => Z.le_refl _))).
Defined.

(** The holder crashed; a first successor died with its claim, an hour before. *)
Definition wedged : gmap string (object string) :=
  <[claim_gen_key hash0 "db" first_holder 0 := Object (encode (Codec := claim_codec)
      {| bc_Schema := LeaseSchema; bc_Deployment := "db"; bc_BrokenOwner := "host-a"; bc_BrokenAt := 1 * Time.Hour;
         bc_Breaker := "host-c"; bc_ClaimedAt := 2 * Time.Hour |}) 100 0 0 WORMNone]> (leased first_holder).

Lemma Acquire_takes_over_witness : exists l s',
  run (lease_clock (3 * Time.Hour)) 0 second_acquire wedged = (Ok l, s') /\
  l_body l = fresh_body "db" "host-b" DefaultLeaseTTL (3 * Time.Hour).
Proof.
  pose proof (Acquire_takes_over hash0 "host-b/pid-1" (CL := lease_codec) (CB := claim_codec) conditional "db"
    second_owner (3 * Time.Hour) (3 * Time.Hour) (lease_clock (3 * Time.Hour)) wedged) as H.
  cbv zeta in H. change (AcquireBackupLease _ _ _ _ _) with second_acquire in H.
  destruct (run _ _ second_acquire wedged) as [r s'].
  destruct H as (l & t & H1 & H2 & H3 & _); [| | | | |].
  - discriminate.
  - reflexivity.
  - intros j. split; [reflexivity|]. cbn. lia.
  - intros t Ht. assert (t = 3 * Time.Hour) as -> by lia. apply Nat.leb_le. vm_compute. reflexivity.
  - right. exists first_holder, 1%nat. split.
    { destruct (leased_holds first_holder) as (ob & Ho & Hd); [vm_compute; reflexivity|]. exists ob. split; [|exact Hd].
      unfold wedged. rewrite lookup_insert_ne; [exact Ho|]. intros E. by eapply lease_key_not_claim. }
    split; [vm_compute; reflexivity|]. split; [vm_compute; lia|]. split; [vm_compute; reflexivity|].
    intros [|i] Hi; [|lia]. do 2 eexists. split; [apply lookup_insert_eq|]. cbn [ob_body].
    rewrite stake_all by (apply Nat.leb_le; vm_compute; reflexivity).
    split; [apply (decode_encode (Codec := claim_codec))|]. cbn. vm_compute. discriminate.
  - exists l, s'. split; [by rewrite H1|]. rewrite H3. assert (t = 3 * Time.Hour) as -> by lia. reflexivity.
Defined.

Definition first_lease : Lease :=
  {| l_deployment := "db"; l_ttl := DefaultLeaseTTL; l_settle := defaultLeaseSettle; l_body := first_holder |}.

Lemma Renew_extends_witness : exists l' s' cur,
  run (lease_clock (1 * Time.Hour + 5 * Time.Minute)) 0 (Renew (CL := lease_codec) first_lease) (leased first_holder) = (Ok l', s') /\
  holds (CL := lease_codec) "db" (leased first_holder) cur /\ same_grant cur first_holder = true.
Proof.
  destruct (run (lease_clock (1 * Time.Hour + 5 * Time.Minute)) 0 (Renew (CL := lease_codec) first_lease)
    (leased first_holder)) as [r s'] eqn:E.
  assert (exists l', r = Ok l') as [l' ->].
  { assert (is_ok (run (lease_clock (1 * Time.Hour + 5 * Time.Minute)) 0 (Renew (CL := lease_codec) first_lease)
      (leased first_holder)).1 = true) as Hok by (vm_compute; reflexivity).
    rewrite E in Hok. destruct r as [l'|e]; [by exists l'|done]. }
  destruct (Renew_extends (CL := lease_codec) _ _ _ _ _ E) as (cur & t & b & H1 & H2 & _).
  exists l', s', cur. split; [reflexivity|]. by split.
Defined.

(** ** The renewal between the second look and the claim *)

(** The holder found a second left and renewed; its write lands two seconds after the old expiry. *)
Definition renewed_holder : leaseBody := renewed first_holder (1 * Time.Hour + 30 * Time.Minute - Time.Second).

Definition moment : time := 1 * Time.Hour + 15 * Time.Minute + 2 * Time.Second.

(** The holder's delayed renewal lands right before the acquirer writes its claim. *)
Definition late_renewal (i : nat) (s : gmap string (object string)) : gmap string (object string) :=
  if (i =? 7)%nat then <[backupLeaseKey "db" := lease_object renewed_holder]> s else s.

Definition lease_at (s : gmap string (object string)) : option leaseBody :=
  match s !! backupLeaseKey "db" with
  | Some ob => decode (Codec := lease_codec) (stake maxLeaseBodyBytes (ob_body ob))
  | None => None
  end.

(** The claim does not protect a renewal that lands after the second look at the record:
    the look after the claim compares the grant only, so the acquirer overwrites a record that
    is live by its own clock and reports the lease as its own. *)
Theorem reclaim_overwrites_renewed :
  let '(r, s', steps) := runc late_renewal (lease_clock moment) 0 second_acquire (leased first_holder) in
  is_ok r = true /\
  (exists st, st ∈ steps /\ lease_at st.1 = Some renewed_holder /\ stale renewed_holder moment = false /\
     option_map lb_Owner (lease_at st.2) = Some "host-b") /\
  option_map lb_Owner (lease_at s') = Some "host-b".
Proof.
  assert (let '(r, s', steps) := runc late_renewal (lease_clock moment) 0 second_acquire (leased first_holder) in
    (is_ok r && existsb (fun st => bool_decide (lease_at st.1 = Some renewed_holder) &&
       bool_decide (option_map lb_Owner (lease_at st.2) = Some "host-b")) steps &&
     bool_decide (option_map lb_Owner (lease_at s') = Some "host-b")) = true) as H by (vm_compute; reflexivity).
  destruct (runc _ _ _ _ _) as [[r s'] steps]. apply andb_true_iff in H as [[H1 H2]%andb_true_iff H3%bool_decide_eq_true].
  split; [done|]. split; [|done]. apply existsb_exists in H2 as (st & Hin & [Ha Hb]%andb_true_iff).
  apply bool_decide_eq_true in Ha, Hb. exists st. split_and!; [by apply list_elem_of_In|done|vm_compute; reflexivity|done].
Qed.
