(* ===== verification/GapState.v ===== *)
(** The recorded gaps of a deployment's WAL (internal/wal/gapstate/gapstate.go and
    slot_key_guard.go): one JSON object per gap, listed newest first. *)
From S2P Require Import Prelude GoString Storage Commit Timeline Hash.
From stdpp Require Import pretty.

Local Open Scope string_scope.
Local Open Scope list_scope.
Local Open Scope Z_scope.
#[local] Arguments String.append : simpl nomatch.

Definition gapSchema : string := "pg_hardstorage.wal.gap.v1".

Record gapRecord := {
  gap_Schema : string;
  gap_Deployment : string;
  gap_SlotName : string;
  gap_SlotRole : string;
  gap_Timeline : Z;
  gap_StartLSN : string;
  gap_EndLSN : string;
  gap_Bytes : Z;
  gap_DetectedAt : time
}.

#[export] Instance gapRecord_eq_dec : EqDecision gapRecord.
Proof. solve_decision. Defined.

#[export] Instance gapRecord_countable : Countable gapRecord.
Proof.
  apply (inj_countable'
    (fun g => (gap_Schema g, gap_Deployment g, gap_SlotName g, gap_SlotRole g, gap_Timeline g, gap_StartLSN g,
               gap_EndLSN g, gap_Bytes g, gap_DetectedAt g))
    (fun '(s, d, n, r, t, a, e, b, w) => {| gap_Schema := s; gap_Deployment := d; gap_SlotName := n; gap_SlotRole := r;
       gap_Timeline := t; gap_StartLSN := a; gap_EndLSN := e; gap_Bytes := b; gap_DetectedAt := w |})).
  by intros [].
Defined.

Inductive gap_err :=
| GapEmptyDeployment
| GapTimelineZero
| GapEmptySlot
| GapZeroBytes
| GapNoLiveTimelines
| GapStorage (e : serr).

Definition gap_prefix (deployment : string) : string := "wal/" +:+ deployment +:+ "/gaps/".

Section gapstate.
Context (sha256 : string -> Hash) `{CG : Codec string gapRecord}.

Definition slotKeyToken (slotName : string) : string := stake 16 (Hash_String (sha256 slotName)).

(** [UnixNano] is an [int64]. *)
Definition gap_key (deployment slotName : string) (tli : Z) (detectedAt : time) : string :=
  gap_prefix deployment +:+ pretty tli +:+ "-" +:+ pretty (i64 (detectedAt - Time.unix_epoch)) +:+ "-" +:+
  slotKeyToken slotName +:+ ".json".

(** The record as it is stored. *)
Definition stored_gap (r : gapRecord) (at_ : time) : gapRecord :=
  {| gap_Schema := if String.eqb (gap_Schema r) "" then gapSchema else gap_Schema r;
     gap_Deployment := gap_Deployment r; gap_SlotName := gap_SlotName r; gap_SlotRole := gap_SlotRole r;
     gap_Timeline := gap_Timeline r; gap_StartLSN := gap_StartLSN r; gap_EndLSN := gap_EndLSN r;
     gap_Bytes := gap_Bytes r; gap_DetectedAt := at_ |}.

Definition gap_Put (r : gapRecord) : prog string (result gap_err string) :=
  if String.eqb (gap_Deployment r) "" then Ret (Err GapEmptyDeployment)
  else if gap_Timeline r =? 0 then Ret (Err GapTimelineZero)
  else if String.eqb (gap_SlotName r) "" then Ret (Err GapEmptySlot)
  else if gap_Bytes r =? 0 then Ret (Err GapZeroBytes)
  else
    let* t := (if Time.IsZero (gap_DetectedAt r) then now else Ret (gap_DetectedAt r)) in
    let key := gap_key (gap_Deployment r) (gap_SlotName r) (gap_Timeline r) t in
    let body := encode (stored_gap r t) in
    let* p := sPut key body {| IfNotExists := true; ContentLength := size_of body;
                               RetainUntil := Time.zero; RetentionMode := WORMNone |} in
    match p with Ok _ => Ret (Ok key) | Err e => Ret (Err (GapStorage e)) end.

(** A stored object as a gap record. *)
Definition gap_of (body : string) : option gapRecord :=
  match ReadAllLimited body MaxMetadataBytes with
  | None => None
  | Some b => match decode b with
              | Some r => if String.eqb (gap_Schema r) gapSchema then Some r else None
              | None => None
              end
  end.

Definition gap_read (key : string) : prog string (option gapRecord) :=
  let* r := sGet key in
  match r with Ok body => Ret (gap_of body) | Err _ => Ret None end.

(** ** Listing *)

Definition keyed_step (i : ObjectInfo) (st : list (string * gapRecord) * Z)
    : prog string (list (string * gapRecord) * Z + False) :=
  if negb (HasSuffix (Key i) ".json") then Ret (inl st)
  else
    let* r := gap_read (Key i) in
    match r with
    | Some r => Ret (inl (st.1 ++ [(Key i, r)], st.2))
    | None => Ret (inl (st.1, st.2 + 1))
    end.

Definition newer_gap (a b : gapRecord) : bool := Time.After (gap_DetectedAt a) (gap_DetectedAt b).

Definition listKeyed (deployment : string) : prog string (result gap_err (list (string * gapRecord) * Z)) :=
  let* l := sList (gap_prefix deployment) in
  let* r := for_ l.1 ([], 0) keyed_step in
  match r, l.2 with
  | inr bot, _ => match bot : False with end
  | inl _, Some e => Ret (Err (GapStorage e))
  | inl (out, unreadable), None => Ret (Ok (stable_sort (fun a b => newer_gap a.2 b.2) out, unreadable))
  end.

Definition listRawKeys (deployment : string) : prog string (result gap_err (list string)) :=
  let* l := sList (gap_prefix deployment) in
  match l.2 with
  | Some e => Ret (Err (GapStorage e))
  | None => Ret (Ok (filter (fun k => HasSuffix k ".json" = true) (map Key l.1)))
  end.

Definition ListUnreadable (deployment : string) : prog string (result gap_err (list gapRecord * Z)) :=
  if String.eqb deployment "" then Ret (Err GapEmptyDeployment)
  else
    let* r := listKeyed deployment in
    match r with
    | Err e => Ret (Err e)
    | Ok (keyed, unreadable) => Ret (Ok (map snd keyed, unreadable))
    end.

Definition gap_List (deployment : string) : prog string (result gap_err (list gapRecord)) :=
  let* r := ListUnreadable deployment in
  match r with Ok (l, _) => Ret (Ok l) | Err e => Ret (Err e) end.

Definition Latest (deployment : string) (tli : Z) : prog string (result gap_err (option gapRecord)) :=
  let* r := gap_List deployment in
  match r with
  | Err e => Ret (Err e)
  | Ok l => Ret (Ok (first_some (fun r => if gap_Timeline r =? tli then Some r else None) l))
  end.

Definition LatestAny (deployment : string) : prog string (result gap_err (option gapRecord)) :=
  let* r := gap_List deployment in
  match r with Err e => Ret (Err e) | Ok l => Ret (Ok (head l)) end.

(** ** Purging

    The records removed, and the error that stopped the purge. *)

Definition purge_step (minLive : Z) (dryRun : bool) (kr : string * gapRecord) (removed : list gapRecord)
    : prog string (list gapRecord + list gapRecord * gap_err) :=
  if minLive <=? gap_Timeline kr.2 then Ret (inl removed)
  else if dryRun then Ret (inl (removed ++ [kr.2]))
  else
    let* d := sDelete kr.1 in
    match d with
    | Err e => Ret (inr (removed, GapStorage e))
    | Ok _ => Ret (inl (removed ++ [kr.2]))
    end.

Definition PurgeOrphans (deployment : string) (liveTimelines : gset Z) (dryRun : bool)
    : prog string (list gapRecord * option gap_err) :=
  if String.eqb deployment "" then Ret ([], Some GapEmptyDeployment)
  else
    match elements liveTimelines with
    | [] => Ret ([], Some GapNoLiveTimelines)
    | t :: ts =>
        let minLive := foldr Z.min t ts in
        let* r := listKeyed deployment in
        match r with
        | Err e => Ret ([], Some e)
        | Ok (all, _) =>
            let* r := for_ all [] (purge_step minLive dryRun) in
            match r with
            | inl removed => Ret (removed, None)
            | inr (removed, e) => Ret (removed, Some e)
            end
        end
    end.

Definition purge_all_step (key : string) (removed : list gapRecord)
    : prog string (list gapRecord + list gapRecord * gap_err) :=
  let* r := gap_read key in
  let removed := match r with Some r => removed ++ [r] | None => removed end in
  let* d := sDelete key in
  match d with
  | Err e => Ret (inr (removed, GapStorage e))
  | Ok _ => Ret (inl removed)
  end.

Definition PurgeAll (deployment : string) (dryRun : bool) : prog string (list gapRecord * option gap_err) :=
  if String.eqb deployment "" then Ret ([], Some GapEmptyDeployment)
  else
    let* r := listRawKeys deployment in
    match r with
    | Err e => Ret ([], Some e)
    | Ok keys =>
        if dryRun then
          let* r := gap_List deployment in
          match r with Ok l => Ret (l, None) | Err e => Ret ([], Some e) end
        else
          let* r := for_ keys [] purge_all_step in
          match r with
          | inl removed => Ret (stable_sort newer_gap removed, None)
          | inr (removed, e) => Ret (removed, Some e)
          end
    end.

(** ** What a listing says *)

(** The object at [key] is a readable record of the deployment. *)
Definition recorded (s : gmap string (object string)) (deployment key : string) (r : gapRecord) : Prop :=
  exists ob, s !! key = Some ob /\ HasPrefix key (gap_prefix deployment) = true /\ HasSuffix key ".json" = true /\
    gap_of (ob_body ob) = Some r.

Definition gap_object (s : gmap string (object string)) (deployment key : string) : Prop :=
  is_Some (s !! key) /\ HasPrefix key (gap_prefix deployment) = true /\ HasSuffix key ".json" = true.

Definition no_faults (D : decision -> Prop) : Prop := forall d, D d -> healthy d.

Lemma not_no_faults (D : decision -> Prop) d : D d -> d_fault d <> Normal -> ~ no_faults D.
Proof. intros Hd Hf Hn. apply Hf. by apply Hn. Qed.

Lemma gap_read_wp D key (Q : option gapRecord -> gmap string (object string) -> Prop) s :
  (forall ob, s !! key = Some ob -> Q (gap_of (ob_body ob)) s) ->
  (s !! key = None \/ ~ no_faults D -> Q None s) ->
  wp D (gap_read key) Q s.
Proof.
  intros H1 H2. unfold gap_read. wp_step; [done| |].
  - intros Hn. apply H2. by left.
  - intros d c Hd Hf. apply H2. right. by eapply not_no_faults.
Qed.

(** The loop's state after the objects [pre]. *)
Record keyed_inv (D : decision -> Prop) (s : gmap string (object string)) (deployment : string)
    (pre : list ObjectInfo) (out : list (string * gapRecord)) (n : Z) : Prop := {
  ki_sound : forall k r, (k, r) ∈ out -> recorded s deployment k r;
  ki_count : 0 <= n;
  ki_all : n = 0 -> forall k, k ∈ map Key pre -> HasSuffix k ".json" = true -> exists r, (k, r) ∈ out;
  ki_found : no_faults D -> forall k r, k ∈ map Key pre -> recorded s deployment k r -> (k, r) ∈ out
}.

Lemma recorded_functional s deployment k r r' : recorded s deployment k r -> recorded s deployment k r' -> r = r'.
Proof. intros (ob & H1 & _ & _ & H2) (ob' & H3 & _ & _ & H4). congruence. Qed.

Lemma keyed_wp D s deployment l l' : l ++ l' ≡ₚ listing (gap_prefix deployment) s ->
  wp D (for_ l ([], 0) keyed_step) (fun r s' => s' = s /\ match r with
    | inl (out, n) => keyed_inv D s deployment l out n
    | inr bot => False end) s.
Proof.
  intros Hl. apply (wp_for _ _ _ (fun pre _ st s' => s' = s /\ keyed_inv D s deployment pre st.1 st.2)).
  - split; [done|]. split; cbn; [by intros k r ?%not_elem_of_nil|done|by intros _ k ?%not_elem_of_nil|by intros _ k r ?%not_elem_of_nil].
  - intros pre i post [out n] s' El [-> [H1 H2 H3 H4]]. cbn [fst snd] in *.
    assert (i ∈ listing (gap_prefix deployment) s) as Hi.
    { rewrite <- Hl. apply elem_of_app. left. rewrite El. apply elem_of_app. right; left. }
    apply elem_of_listing in Hi as (ob & Ho & _ & Hp). unfold keyed_step.
    assert (forall k, k ∈ map Key (pre ++ [i]) <-> k ∈ map Key pre \/ k = Key i) as Hpre.
    { intros k. rewrite map_app, elem_of_app. cbn [map]. by rewrite list_elem_of_singleton. }
    destruct (HasSuffix (Key i) ".json") eqn:Es; cbn [negb].
    2:{ split; [done|]. split; cbn; [done|done| |].
        - intros Hn k [Hk| ->]%Hpre Hj; [by apply H3|congruence].
        - intros Hh k r [Hk| ->]%Hpre Hr; [by apply H4|]. destruct Hr as (? & _ & _ & ? & _). congruence. }
    wp_step. apply gap_read_wp.
    + intros ob' Ho'. assert (ob' = ob) as -> by congruence. destruct (gap_of (ob_body ob)) as [r|] eqn:Er.
      * assert (recorded s deployment (Key i) r) as Hr by (by exists ob).
        split; [done|]. split; cbn; [|done| |].
        -- intros k r' [Hin|Hin%list_elem_of_singleton]%elem_of_app; [by apply H1|]. by injection Hin as -> ->.
        -- intros Hn k [Hk| ->]%Hpre Hj; [destruct (H3 Hn k Hk Hj) as [r' ?]; exists r'|exists r]; apply elem_of_app;
             [by left|right; by left].
        -- intros Hh k r' [Hk| ->]%Hpre Hr'; apply elem_of_app; [left; by apply H4|right].
           rewrite (recorded_functional _ _ _ _ _ Hr' Hr). by left.
      * split; [done|]. split; cbn; [done|lia|lia|].
        intros Hh k r [Hk| ->]%Hpre Hr; [by apply H4|]. destruct Hr as (ob' & ? & _ & _ & ?). congruence.
    + intros [Hn|Hn]; [congruence|]. split; [done|]. split; cbn; [done|lia|lia|done].
  - by intros [out n] s' [-> H].
Qed.

(** What [listKeyed] answers: only records; all of them when nothing was unreadable or nothing
    fails; with a count of zero every object was a record. *)
Definition listed_post (D : decision -> Prop) (s : gmap string (object string)) (deployment : string)
    (out : list (string * gapRecord)) (n : Z) : Prop :=
  (forall k r, (k, r) ∈ out -> recorded s deployment k r) /\ 0 <= n /\
  (n = 0 -> forall k, gap_object s deployment k -> exists r, (k, r) ∈ out) /\
  (no_faults D -> forall k r, recorded s deployment k r -> (k, r) ∈ out).

Lemma listKeyed_wp D deployment s :
  wp D (listKeyed deployment) (fun r s' => s' = s /\ match r with
    | Ok (out, n) => listed_post D s deployment out n
    | Err _ => ~ no_faults D end) s.
Proof.
  unfold listKeyed. wp_step.
  - intros l Hl. cbn [fst snd]. wp_step. eapply wp_mono; [|apply (keyed_wp D s deployment l []); by rewrite app_nil_r].
    intros [[out n]|[]] s' [-> H]. split; [done|]. destruct H as [H1 H2 H3 H4]. split_and!; [|done| |].
    + intros k r Hin. rewrite elem_of_stable_sort in Hin. by apply H1.
    + intros Hn k ([ob Ho] & Hp & Hs). destruct (H3 Hn k) as [r Hr]; [|done|exists r; by rewrite elem_of_stable_sort].
      apply list_elem_of_fmap. exists (info_of k ob). split; [done|]. rewrite Hl. apply elem_of_listing. by exists ob.
    + intros Hh k r Hr. rewrite elem_of_stable_sort. apply H4; [done| |done]. destruct Hr as (ob & Ho & Hp & _).
      apply list_elem_of_fmap. exists (info_of k ob). split; [done|]. rewrite Hl. apply elem_of_listing. by exists ob.
  - intros d c l l' Hd Hf Hl. cbn [fst snd]. wp_step. eapply wp_mono; [|by apply (keyed_wp D s deployment l l')].
    intros [[out n]|[]] s' [-> _]. split; [done|]. by eapply not_no_faults.
Qed.

(** The same of the records alone. *)
Lemma ListUnreadable_wp D deployment s : deployment <> "" ->
  wp D (ListUnreadable deployment) (fun r s' => s' = s /\ match r with
    | Ok (recs, n) => (forall r, r ∈ recs -> exists k, recorded s deployment k r) /\ 0 <= n /\
        (n = 0 -> forall k, gap_object s deployment k -> exists r, recorded s deployment k r) /\
        (no_faults D \/ n = 0 -> forall k r, recorded s deployment k r -> r ∈ recs)
    | Err _ => ~ no_faults D end) s.
Proof.
  intros Hd. unfold ListUnreadable. rewrite (proj2 (String.eqb_neq _ _) Hd). wp_step.
  eapply wp_mono; [|apply listKeyed_wp]. intros [[out n]|e] s' [-> H]; [|done]. split; [done|].
  destruct H as (H1 & Hn0 & H2 & H3). split_and!; [|done|..].
  - intros r ([k r'] & -> & Hin)%list_elem_of_fmap. exists k. by apply H1.
  - intros Hn k Hk. destruct (H2 Hn k Hk) as [r Hr]. exists r. by apply H1.
  - intros Hor k r Hr. apply list_elem_of_fmap. exists (k, r). split; [done|]. destruct Hor as [Hh|Hn]; [by apply H3|].
    destruct (H2 Hn k) as [r' Hr'].
    + destruct Hr as (ob & ? & ? & ? & _). split_and!; [by exists ob|done|done].
    + by rewrite (recorded_functional _ _ _ _ _ Hr (H1 _ _ Hr')).
Qed.

Lemma wp_any {A} D (p : prog string A) s : wp D p (fun _ _ => True) s.
Proof.
  revert s. induction p as [a|R o k IH]; intros s; [done|]. intros d _. destruct (exec d o s). apply IH.
Qed.

Lemma gap_of_encode r : gap_Schema r = gapSchema -> size_of (encode r) <= MaxMetadataBytes ->
  gap_of (encode r) = Some r.
Proof.
  intros Hs Hl. unfold gap_of, ReadAllLimited. unfold size_of in Hl. rewrite (proj2 (Z.ltb_ge _ _)) by done.
  by rewrite decode_encode, Hs.
Qed.

Lemma gap_key_shape d n t at_ : HasPrefix (gap_key d n t at_) (gap_prefix d) = true /\ HasSuffix (gap_key d n t at_) ".json" = true.
Proof.
  unfold gap_key. split; [apply HasPrefix_app|]. rewrite <- !string_app_assoc. apply HasSuffix_app.
Qed.

(** Recording a gap and listing the gaps. *)
Lemma put_list_wp D r key s :
  no_faults D -> gap_Schema r = "" \/ gap_Schema r = gapSchema ->
  (forall t, gap_DetectedAt r = t \/ (exists d, D d /\ t = d_time d) -> size_of (encode (stored_gap r t)) <= MaxMetadataBytes) ->
  wp D (let* p := gap_Put r in let* l := ListUnreadable (gap_Deployment r) in Ret (p, l))
    (fun res _ => res.1 = Ok key -> exists recs n t, res.2 = Ok (recs, n) /\ stored_gap r t ∈ recs /\
       (gap_DetectedAt r <> 0 -> t = gap_DetectedAt r)) s.
Proof.
  intros HnD Hsch Hsz.
  assert (forall e s', wp D (let* l := ListUnreadable (gap_Deployment r) in Ret (@Err gap_err string e, l))
    (fun res _ => res.1 = Ok key -> exists recs n t, res.2 = Ok (recs, n) /\ stored_gap r t ∈ recs /\
       (gap_DetectedAt r <> 0 -> t = gap_DetectedAt r)) s') as Hfail.
  { intros e s'. wp_step. eapply wp_mono; [|apply wp_any]. done. }
  wp_step. unfold gap_Put. destruct (String.eqb_spec (gap_Deployment r) "") as [_|Hdep]; [apply Hfail|].
  destruct (_ =? 0); [apply Hfail|]. destruct (String.eqb _ _); [apply Hfail|]. destruct (_ =? 0); [apply Hfail|].
  wp_step. apply (wp_mono _ _ (fun t s' => s' = s /\ (gap_DetectedAt r = t \/ exists d, D d /\ t = d_time d) /\
    (gap_DetectedAt r <> 0 -> t = gap_DetectedAt r))).
  2:{ unfold Time.IsZero. destruct (Z.eqb_spec (gap_DetectedAt r) 0) as [Hz|Hz].
      - apply wp_now. intros d Hd. split_and!; [done|right; by exists d|done].
      - split_and!; [done|by left|done]. }
  intros t s' (-> & Ht & Heq). set (k := gap_key _ _ _ _). wp_step.
  - intros d Hd _. cbn [wp]. wp_step. eapply wp_mono; [|by apply ListUnreadable_wp].
    intros [[recs n]|e] s2 [_ H]; [|by destruct H]. cbn [wp fst snd]. intros _.
    exists recs, n, t. split_and!; [done| |done]. destruct H as (_ & _ & _ & H). apply (H (or_introl HnD) k).
    eexists. split; [apply lookup_insert_eq|]. destruct (gap_key_shape (gap_Deployment r) (gap_SlotName r) (gap_Timeline r) t).
    split_and!; [done|done|]. cbn [ob_body put_object]. apply gap_of_encode; [|by apply Hsz].
    cbn. destruct Hsch as [->| ->]; [done|]. by destruct (String.eqb _ _) eqn:E; [|].
  - intros _ _. apply Hfail.
  - intros d c _ _. apply Hfail.
  - intros d c Hd Hf. by destruct Hf; apply HnD.
Qed.
End gapstate.

(** A gap that was recorded is found: on a healthy backend, right after a successful
    [Put] the listing holds the record as given, with its schema and time filled in. *)
Theorem recorded_gap_listed (sha256 : string -> Hash) `{CG : Codec string gapRecord} (r : gapRecord)
    (ds : nat -> decision) (s : gmap string (object string)) (key : string) :
  (forall j, healthy (ds j)) -> gap_Schema r = "" \/ gap_Schema r = gapSchema ->
  (forall t, gap_DetectedAt r = t \/ (exists j, t = d_time (ds j)) -> size_of (encode (stored_gap r t)) <= MaxMetadataBytes) ->
  let '(res, s') := run ds 0 (let* p := gap_Put sha256 r in let* l := ListUnreadable (gap_Deployment r) in Ret (p, l)) s in
  res.1 = Ok key -> exists recs n t, res.2 = Ok (recs, n) /\ stored_gap r t ∈ recs /\
    (gap_DetectedAt r <> 0 -> t = gap_DetectedAt r).
Proof.
  intros Hds Hsch Hsz.
  set (D := fun d => healthy d /\ exists j, d_time d = d_time (ds j)).
  pose proof (wp_run D _ (fun res _ => res.1 = Ok key -> exists recs n t, res.2 = Ok (recs, n) /\ stored_gap r t ∈ recs /\
       (gap_DetectedAt r <> 0 -> t = gap_DetectedAt r)) s ds 0
    (fun j => conj (Hds j) (ex_intro _ j eq_refl)) (put_list_wp sha256 D r key s (fun d Hd => proj1 Hd) Hsch
      (fun t Ht => Hsz t (match Ht with or_introl H => or_introl H | or_intror (ex_intro _ d (conj (conj _ (ex_intro _ j Hj)) Ht)) =>
         or_intror (ex_intro _ j (eq_trans Ht Hj)) end)))) as H.
  destruct (run ds 0 _ s) as [res s']. apply H.
Qed.

(** ** Purging *)

Section purge.
Context (sha256 : string -> Hash) `{CG : Codec string gapRecord}.

(** A record of a timeline below every live one. *)
Definition orphan_gap (live : gset Z) (r : gapRecord) : Prop := forall t, t ∈ live -> gap_Timeline r < t.

Lemma min_live (t : Z) (ts : list Z) x : foldr Z.min t ts <= x <-> exists u, u ∈ t :: ts /\ u <= x.
Proof.
  induction ts as [|v ts IH]; cbn.
  - split; [intros H; exists t; split; [by left|done]|]. by intros (u & ->%list_elem_of_singleton & H).
  - rewrite Z.min_le_iff, IH. split.
    + intros [H|(u & Hu & H)]; [exists v; split; [right; by left|done]|]. exists u. split; [|done].
      apply elem_of_cons in Hu as [->|Hu]; [by left|right; by right].
    + intros (u & Hu & H). apply elem_of_cons in Hu as [->|[->|Hu]%elem_of_cons]; [right; exists t; split; [by left|done]|by left|].
      right. exists u. split; [by right|done].
Qed.

Lemma orphan_min live t ts r : elements live = t :: ts ->
  (foldr Z.min t ts <=? gap_Timeline r) = false <-> orphan_gap live r.
Proof.
  intros He. rewrite Z.leb_gt. unfold orphan_gap. split.
  - intros H u Hu. apply elem_of_elements in Hu. rewrite He in Hu.
    destruct (Z_lt_le_dec (gap_Timeline r) u) as [|Hle]; [done|].
    assert (foldr Z.min t ts <= gap_Timeline r) by (apply min_live; by exists u). lia.
  - intros H. destruct (Z_lt_le_dec (gap_Timeline r) (foldr Z.min t ts)) as [|Hle]; [done|].
    apply min_live in Hle as (u & Hu & Hx). rewrite <- He in Hu. apply elem_of_elements, H in Hu. lia.
Qed.

(** What a purge has done after the records [pre]. *)
Record purged (D : decision -> Prop) (live : gset Z) (dryRun : bool) (s : gmap string (object string))
    (deployment : string) (pre : list (string * gapRecord)) (removed : list gapRecord)
    (s' : gmap string (object string)) : Prop := {
  pu_only : forall k, s' !! k <> s !! k -> dryRun = false /\ s' !! k = None /\
    exists r, recorded s deployment k r /\ orphan_gap live r;
  pu_all : no_faults D -> forall k r, (k, r) ∈ pre -> orphan_gap live r -> r ∈ removed /\ (dryRun = false -> s' !! k = None)
}.

Lemma purge_step_wp D live t ts dryRun s deployment pre kr removed s' :
  elements live = t :: ts -> recorded s deployment kr.1 kr.2 -> purged D live dryRun s deployment pre removed s' ->
  wp D (purge_step (foldr Z.min t ts) dryRun kr removed) (fun r s2 => match r with
    | inl removed' => purged D live dryRun s deployment (pre ++ [kr]) removed' s2
    | inr _ => ~ no_faults D /\ purged D live dryRun s deployment [] [] s2 end) s'.
Proof.
  intros He Hrec [H1 H2]. unfold purge_step. destruct kr as [k r]; cbn [fst snd] in *.
  destruct (_ <=? _) eqn:E.
  { cbn. split; [done|]. intros Hh k' r' [Hin|Hin%list_elem_of_singleton]%elem_of_app Ho; [by apply H2|].
    injection Hin as -> ->. apply (orphan_min _ _ _ _ He) in Ho. congruence. }
  apply (orphan_min _ _ _ _ He) in E. destruct dryRun eqn:Edry.
  { cbn. split; [done|]. intros Hh k' r' [Hin|Hin%list_elem_of_singleton]%elem_of_app Ho.
    - destruct (H2 Hh k' r' Hin Ho). split; [apply elem_of_app; by left|done].
    - injection Hin as -> ->. split; [apply elem_of_app; right; by left|done]. }
  assert (forall k', delete k s' !! k' <> s !! k' ->
    false = false /\ delete k s' !! k' = None /\ exists r, recorded s deployment k' r /\ orphan_gap live r) as Hdel.
  { intros k' Hk. destruct (decide (k' = k)) as [->|Hne].
    - split_and!; [done|by rewrite lookup_delete_eq|by exists r].
    - rewrite lookup_delete_ne in * by congruence. by apply H1. }
  wp_step.
  - cbn. split; [done|]. intros Hh k' r' [Hin|Hin%list_elem_of_singleton]%elem_of_app Ho.
    + destruct (H2 Hh k' r' Hin Ho) as [Hr Hk]. split; [apply elem_of_app; by left|]. intros _.
      destruct (decide (k' = k)) as [->|Hne]; [apply lookup_delete_eq|]. rewrite lookup_delete_ne; [by apply Hk|congruence].
    + injection Hin as -> ->. split; [apply elem_of_app; right; by left|]. intros _. apply lookup_delete_eq.
  - intros d c Hd Hf. cbn. split; [by eapply not_no_faults|]. split; [done|]. by intros _ k' r' ?%not_elem_of_nil.
  - intros d c Hd Hf. cbn. split; [by eapply not_no_faults|]. split; [done|]. by intros _ k' r' ?%not_elem_of_nil.
Qed.

Lemma PurgeOrphans_wp D deployment live dryRun s :
  wp D (PurgeOrphans deployment live dryRun) (fun r s' =>
    (forall k, s' !! k <> s !! k -> dryRun = false /\ s' !! k = None /\
       exists r, recorded s deployment k r /\ orphan_gap live r) /\
    (no_faults D -> deployment <> "" -> live <> ∅ -> r.2 = None /\
       forall k g, recorded s deployment k g -> orphan_gap live g -> g ∈ r.1 /\ (dryRun = false -> s' !! k = None))) s.
Proof.
  unfold PurgeOrphans. destruct (String.eqb_spec deployment "") as [->|Hdep]; [done|].
  destruct (elements live) as [|t ts] eqn:He.
  { cbn. split; [done|]. intros _ _ Hl. by apply elements_empty_iff, leibniz_equiv in He. }
  wp_step. eapply wp_mono; [|apply listKeyed_wp]. intros [[all n]|e] s' [-> H]; [|by cbn; split].
  destruct H as (Hs & _ & _ & Hall). wp_step.
  apply (wp_for _ _ _ (fun pre _ removed s' => purged D live dryRun s deployment pre removed s')).
  - split; [done|]. by intros _ k r ?%not_elem_of_nil.
  - intros pre kr post removed s' El Hp. eapply wp_mono; [|apply (purge_step_wp D live t ts dryRun s deployment pre kr removed s' He); [|done]].
    + intros [removed'|[removed' e]] s2; [done|]. intros [Hn [H _]]. cbn. by split.
    + destruct kr as [k r]. apply Hs. rewrite El. apply elem_of_app. right; left.
  - intros removed s' [H1 H2]. cbn. split; [done|]. intros Hh _ _. split; [done|].
    intros k g Hg Ho. apply H2; [done| |done]. by apply Hall.
Qed.
End purge.

(** A purge removes exactly the orphans: whatever fails, it deletes nothing but readable
    gap records of timelines below every live one, and nothing on a dry run; on a healthy
    backend it reports and deletes all of them. *)
Theorem PurgeOrphans_exact `{CG : Codec string gapRecord} (deployment : string) (live : gset Z) (dryRun : bool)
    (ds : nat -> decision) (s : gmap string (object string)) :
  let '(res, s') := run ds 0 (PurgeOrphans deployment live dryRun) s in
  (forall k, s' !! k <> s !! k -> dryRun = false /\ s' !! k = None /\
     exists r, recorded s deployment k r /\ orphan_gap live r) /\
  ((forall j, healthy (ds j)) -> deployment <> "" -> live <> ∅ -> res.2 = None /\
     forall k g, recorded s deployment k g -> orphan_gap live g -> g ∈ res.1 /\ (dryRun = false -> s' !! k = None)).
Proof.
  pose proof (wp_run (fun d => exists j, d = ds j) _ _ s ds 0 (fun j => ex_intro _ j eq_refl)
    (PurgeOrphans_wp (fun d => exists j, d = ds j) deployment live dryRun s)) as H.
  destruct (run ds 0 _ s) as [res s']. destruct H as [H1 H2]. split; [done|].
  intros Hh. apply H2. by intros d [j ->].
Qed.

(** ** A recorded gap *)

Definition gap_codec : Codec string gapRecord := countable_codec.

Definition demo_gap : gapRecord :=
  {| gap_Schema := ""; gap_Deployment := "db"; gap_SlotName := "slot1"; gap_SlotRole := "physical"; gap_Timeline := 2;
     gap_StartLSN := "0/3000000"; gap_EndLSN := "0/5000000"; gap_Bytes := 33554432; gap_DetectedAt := 7 |}.

Definition gap_clock : nat -> decision := fun _ =>
  {| d_fault := Normal; d_time := 9; d_order := fun l => l; d_order_perm := fun l => Permutation_refl l; d_listed := 0 |}.

Lemma recorded_gap_listed_witness : exists recs n,
  (run gap_clock 0 (let* p := gap_Put (fun _ => 0) (CG := gap_codec) demo_gap in
    let* l := ListUnreadable (CG := gap_codec) "db" in Ret (p, l)) ∅).1.2 = Ok (recs, n) /\ stored_gap demo_gap 7 ∈ recs.
Proof.
  pose proof (recorded_gap_listed (fun _ => 0) (CG := gap_codec) demo_gap gap_clock ∅
    (gap_key (fun _ => 0) "db" "slot1" 2 7) (fun _ => eq_refl) (or_introl eq_refl)) as H.
  change (gap_Deployment demo_gap) with "db" in H.
  assert (forall t, gap_DetectedAt demo_gap = t \/ (exists j, t = d_time (gap_clock j)) ->
    size_of (encode (Codec := gap_codec) (stored_gap demo_gap t)) <= MaxMetadataBytes) as Hsz.
  { intros t [<-|[j ->]]; apply Z.leb_le; vm_compute; reflexivity. }
  specialize (H Hsz).
  assert ((run gap_clock 0 (let* p := gap_Put (fun _ => 0) (CG := gap_codec) demo_gap in
    let* l := ListUnreadable (CG := gap_codec) "db" in Ret (p, l)) ∅).1.1 = Ok (gap_key (fun _ => 0) "db" "slot1" 2 7)) as Hp
    by (vm_compute; reflexivity).
  destruct (run _ _ _ _) as [res s']. destruct (H Hp) as (recs & n & t & H1 & H2 & H3).
  exists recs, n. pose proof (H3 ltac:(discriminate)) as ->. by split.
Defined.
