(* ===== verification/RestorePreflight.v ===== *)
(** The checks before a restore (internal/restore: gapcheck.go, gap_reach.go,
    backupwal_preflight.go, target_frontier_preflight.go, history_preflight.go,
    reachable_shape.go, CheckTargetReachable of plan.go, and their order in restore.go).

    A check answers with the events it emits and a refusal, if any; the caller's
    emitter is present.  The manifest is what the checks use of it. *)
From S2P Require Import Prelude GoString Storage Commit Lsn Timeline Hash WalSegment Inventory GapState.

Local Open Scope string_scope.
Local Open Scope list_scope.
Local Open Scope Z_scope.
#[local] Arguments String.append : simpl nomatch.

Record Recovery := {
  rc_Enable : bool;
  rc_TargetLSN : string;
  rc_TargetTime : time;
  rc_TargetName : string;
  rc_Inclusive : bool;
  rc_Action : string;
  rc_Timeline : string;
  rc_RestoreCommand : string;
  rc_StandbyMode : bool;
  rc_SkipGapCheck : bool
}.

Definition IsTargetSet (r : Recovery) : bool :=
  negb (String.eqb (rc_TargetLSN r) "") || negb (Time.IsZero (rc_TargetTime r)) || negb (String.eqb (rc_TargetName r) "").

Record WALGap := {
  wg_SlotName : string;
  wg_SlotRole : string;
  wg_Timeline : Z;
  wg_StartLSN : string;
  wg_EndLSN : string;
  wg_Bytes : Z;
  wg_DetectedAt : time
}.

(** The manifest; [sd_EachFile] walks its paths and says whether the walk failed. *)
Record seed := {
  sd_Timeline : Z;
  sd_StopLSN : string;
  sd_WALGaps : list WALGap;
  sd_EachFile : prog string (list string * bool)
}.

Inductive event :=
| wal_gap_check_skipped
| gap_state_unreadable (records : option Z)
| gap_record_malformed (records : Z)
| wal_gap_advisory (manifest live : Z)
| wal_archive_hole (lsn : Z)
| timeline_scan_failed.

Inductive refusal :=
| BadTargetLSN
| TargetInWALGap
| BackupWALMissing
| TargetUnreachable
| BadTimeline
| HistoryUnreachable (missing : list Z)
| ManifestInvalid.

Definition checked : Type := list event * option refusal.

(** The bounds of a gap, from either source. *)
Definition bounds : Type := string * string.

Definition manifest_bounds (g : WALGap) : bounds := (wg_StartLSN g, wg_EndLSN g).
Definition live_bounds (g : gapRecord) : bounds := (gap_StartLSN g, gap_EndLSN g).

Section checks.
Context `{L : LSN} `{CS : Codec string SegmentManifest} `{CG : Codec string gapRecord}.

(** ** Recorded gaps *)

Definition refuseUnboundedOverGap (backupStop : Z) (g : bounds) : bool :=
  match ParseLSN g.1, ParseLSN g.2 with
  | Some _, Some ge => negb (ge <=? backupStop)
  | _, _ => false
  end.

Definition gapReachableBySeed (backupStopLSN gapEndLSN : string) : bool :=
  match ParseLSN backupStopLSN with
  | None => true
  | Some stop =>
      if stop =? 0 then true
      else match ParseLSN gapEndLSN with None => true | Some ge => stop <? ge end
  end.

Inductive gap_verdict := Clear | Malformed | Refuse.

(** [stop] is known or not. *)
Definition checkOneGap (target : Z) (stop : option Z) (g : bounds) : gap_verdict :=
  match ParseLSN g.1 with
  | None => Malformed
  | Some start =>
      match ParseLSN g.2 with
      | None => Malformed
      | Some end_ =>
          let inGap := (start <=? target) && (target <? end_) in
          let crossed := negb inGap && match stop with
                                       | Some stop => (stop <? end_) && (end_ <=? target)
                                       | None => false
                                       end in
          if negb inGap && negb crossed then Clear else Refuse
      end
  end.

(** The loop over one source: a refusal, or how many records were malformed. *)
Fixpoint check_gaps (target : Z) (stop : option Z) (gs : list bounds) : option Z :=
  match gs with
  | [] => Some 0
  | g :: gs =>
      match checkOneGap target stop g with
      | Refuse => None
      | Clear => check_gaps target stop gs
      | Malformed => match check_gaps target stop gs with Some n => Some (n + 1) | None => None end
      end
  end.

Definition reachable_count (backupStopLSN : string) (gs : list bounds) : Z :=
  Z.of_nat (length (filter (fun g => gapReachableBySeed backupStopLSN g.2 = true) gs)).

Definition preflightTimeTargetGap (deployment backupStopLSN : string) (manifestGaps : list bounds)
    : prog string checked :=
  let* live := gap_List deployment in
  let ev := match live with Err _ => [gap_state_unreadable None] | Ok _ => [] end in
  let liveGaps := match live with Ok l => map live_bounds l | Err _ => [] end in
  let total := reachable_count backupStopLSN manifestGaps + reachable_count backupStopLSN liveGaps in
  Ret (ev, if total =? 0 then None else Some TargetInWALGap).

Definition emitTimeTargetGapWarning (deployment backupStopLSN : string) (manifestGaps : list bounds)
    : prog string (list event) :=
  let* live := gap_List deployment in
  let liveGaps := match live with Ok l => map live_bounds l | Err _ => [] end in
  let mg := reachable_count backupStopLSN manifestGaps in
  let lg := reachable_count backupStopLSN liveGaps in
  Ret (if mg + lg =? 0 then [] else [wal_gap_advisory mg lg]).

(** The unbounded recovery: no target, a standby. *)
Definition preflight_unbounded (deployment backupStopLSN : string) (manifestGaps : list bounds)
    : prog string checked :=
  match ParseLSN backupStopLSN with
  | None => Ret ([], None)
  | Some stop =>
      if stop =? 0 then Ret ([], None)
      else
        let* live := gap_List deployment in
        let ev := match live with Err _ => [gap_state_unreadable None] | Ok _ => [] end in
        let liveGaps := match live with Ok l => map live_bounds l | Err _ => [] end in
        if existsb (refuseUnboundedOverGap stop) manifestGaps || existsb (refuseUnboundedOverGap stop) liveGaps
        then Ret (ev, Some TargetInWALGap) else Ret (ev, None)
  end.

Definition preflight_to_lsn (deployment backupStopLSN : string) (target : Z) (manifestGaps : list bounds)
    : prog string checked :=
  let stop := if String.eqb backupStopLSN "" then None else ParseLSN backupStopLSN in
  match check_gaps target stop manifestGaps with
  | None => Ret ([], Some TargetInWALGap)
  | Some bad =>
      let* live := ListUnreadable deployment in
      match live with
      | Err _ => Ret ([gap_state_unreadable None], None)
      | Ok (gaps, unreadable) =>
          let ev := if 0 <? unreadable then [gap_state_unreadable (Some unreadable)] else [] in
          match check_gaps target stop (map live_bounds gaps) with
          | None => Ret (ev, Some TargetInWALGap)
          | Some bad' =>
              let bad := bad + bad' in
              Ret (ev ++ (if 0 <? bad then [gap_record_malformed bad] else []), None)
          end
      end
  end.

Definition preflightWALGap (deployment backupStopLSN : string) (recovery : option Recovery)
    (manifestGaps : list bounds) : prog string checked :=
  match recovery with
  | None => Ret ([], None)
  | Some r =>
      if negb (rc_Enable r) then Ret ([], None)
      else if rc_SkipGapCheck r then Ret ([wal_gap_check_skipped], None)
      else if String.eqb (rc_TargetLSN r) "" && negb (IsTargetSet r) then
        preflight_unbounded deployment backupStopLSN manifestGaps
      else if String.eqb (rc_TargetLSN r) "" then
        let* c := preflightTimeTargetGap deployment backupStopLSN manifestGaps in
        match c with
        | (ev, Some e) => Ret (ev, Some e)
        | (ev, None) =>
            let* adv := emitTimeTargetGapWarning deployment backupStopLSN manifestGaps in
            Ret (ev ++ adv, None)
        end
      else
        match ParseLSN (rc_TargetLSN r) with
        | None => Ret ([], Some BadTargetLSN)
        | Some target => preflight_to_lsn deployment backupStopLSN target manifestGaps
        end
  end.

(** ** Holes in the archive: a warning only *)

Definition contiguity_target (deployment : string) (m : seed) (r : Recovery) : prog string (option Z) :=
  if negb (String.eqb (rc_TargetLSN r) "") then Ret (ParseLSN (rc_TargetLSN r))
  else if negb (Time.IsZero (rc_TargetTime r)) || negb (String.eqb (rc_TargetName r) "") then Ret None
  else
    let* f := HighestArchivedLSN deployment (sd_Timeline m) in
    match f with
    | Ok (Some frontier) => Ret (if frontier =? 0 then None else Some (frontier - 1))
    | _ => Ret None
    end.

Definition preflightWALContiguity (deployment : string) (m : seed) (recovery : option Recovery)
    : prog string (list event) :=
  match recovery with
  | None => Ret []
  | Some r =>
      if negb (rc_Enable r) || rc_SkipGapCheck r then Ret []
      else
        let* target := contiguity_target deployment m r in
        match target, ParseLSN (sd_StopLSN m) with
        | Some target, Some stop =>
            if target <? stop then Ret []
            else
              let* h := FirstWALHoleInRange deployment (sd_Timeline m) stop target in
              match h with
              | Ok (Some hole) => Ret [wal_archive_hole hole]
              | _ => Ret []
              end
        | _, _ => Ret []
        end
  end.

(** ** The backup's own WAL *)

Definition embedsWAL (m : seed) : prog string bool :=
  let* w := sd_EachFile m in
  Ret (existsb (fun p => HasPrefix p "pg_wal/" && (String.length (basename p) =? 24)%nat) w.1 || w.2).

Definition skips (recovery : option Recovery) : bool :=
  match recovery with Some r => rc_SkipGapCheck r | None => false end.

Definition preflightBackupWALAvailable (deployment : string) (m : seed) (recovery : option Recovery)
    (skipGapCheck : bool) : prog string (option refusal) :=
  if skipGapCheck || skips recovery then Ret None
  else
    let* embedded := embedsWAL m in
    if embedded then Ret None
    else
      let* f := HighestArchivedLSN deployment (sd_Timeline m) in
      match f with
      | Ok None => Ret (Some BackupWALMissing)
      | _ => Ret None
      end.

(** ** The end of the archive *)

Definition preflightTargetBeyondArchive (deployment : string) (m : seed) (recovery : option Recovery) (skip : bool)
    : prog string (option refusal) :=
  match recovery with
  | None => Ret None
  | Some r =>
      if negb (rc_Enable r) || String.eqb (rc_TargetLSN r) "" || skip || rc_SkipGapCheck r then Ret None
      else
        match ParseLSN (rc_TargetLSN r), ParseLSN (sd_StopLSN m) with
        | Some target, Some stop =>
            if target <=? stop then Ret None
            else
              let* later := HighestArchivedLSN deployment (u32 (sd_Timeline m + 1)) in
              match later with
              | Ok None =>
                  let* f := HighestArchivedLSN deployment (sd_Timeline m) in
                  match f with
                  | Err _ => Ret None
                  | Ok (Some frontier) => Ret (if target <? frontier then None else Some TargetUnreachable)
                  | Ok None => Ret (Some TargetUnreachable)
                  end
              | _ => Ret None
              end
        | _, _ => Ret None
        end
  end.

(** ** Timeline histories *)

(** [highestArchivedTimeline]: one key of the listing. *)
Definition archived_tli (prefix key : string) : option Z :=
  match CutByte (TrimPrefix key prefix) slash with
  | None => None
  | Some (dir, file) =>
      if negb (String.length dir =? 8)%nat then None
      else if negb (HasSuffix file ".json") || Contains file ".json.tmp." || Contains file "/" then None
      else if negb (String.length (TrimSuffix file ".json") =? 24)%nat then None
      else parse_hex8 dir
  end.

Definition highestArchivedTimeline (deployment : string) : prog string (result serr Z) :=
  let prefix := "wal/" +:+ deployment +:+ "/" in
  let* l := sList prefix in
  match l.2 with
  | Some e => Ret (Err e)
  | None => Ret (Ok (fold_left (fun m i => match archived_tli prefix (Key i) with
                                           | Some t => Z.max m t
                                           | None => m
                                           end) l.1 0))
  end.

Definition timelineHistoryReachable (deployment : string) (tli : Z) : prog string (result unit bool) :=
  let name := hex8 tli +:+ ".history" in
  let* st := sStat (AuxiliaryFilePath deployment name AuxiliaryHistory) in
  match st with
  | Ok _ => Ret (Ok true)
  | Err ErrNotFound =>
      let* g := Timeline.Get deployment tli in
      match g with
      | Ok _ => Ret (Ok true)
      | Err (TL_Storage ErrNotFound) => Ret (Ok false)
      | Err _ => Ret (Err tt)
      end
  | Err _ => Ret (Err tt)
  end.

(** [for tli := seedTLI + 1; tli <= maxTLI; tli++] on [uint32]; [None] is a loop still running. *)
Fixpoint required_timelines (fuel : nat) (tli maxTLI : Z) : option (list Z) :=
  match fuel with
  | O => None
  | S fuel =>
      if tli <=? maxTLI then
        match required_timelines fuel (u32 (tli + 1)) maxTLI with
        | Some l => Some (tli :: l)
        | None => None
        end
      else Some []
  end.

Definition history_step (deployment : string) (tli : Z) (st : list event * list Z)
    : prog string (list event * list Z + False) :=
  let* r := timelineHistoryReachable deployment tli in
  match r with
  | Err _ => Ret (inl (st.1 ++ [timeline_scan_failed], st.2))
  | Ok true => Ret (inl st)
  | Ok false => Ret (inl (st.1, st.2 ++ [tli]))
  end.

Definition probe_histories (deployment : string) (required : list Z) : prog string checked :=
  let* r := for_ required ([], []) (history_step deployment) in
  match r with
  | inr bot => match bot : False with end
  | inl (ev, []) => Ret (ev, None)
  | inl (ev, missing) => Ret (ev, Some (HistoryUnreachable missing))
  end.

(** [None] is a loop over timelines that does not end. *)
Definition preflightTimelineHistory (fuel : nat) (deployment : string) (seedTLI : Z) (recovery : option Recovery)
    : prog string (option checked) :=
  let some (p : prog string checked) := let* c := p in Ret (Some c) in
  match recovery with
  | None => Ret (Some ([], None))
  | Some r =>
      if negb (rc_Enable r) || rc_SkipGapCheck r then Ret (Some ([], None))
      else if String.eqb (rc_Timeline r) "" || String.eqb (rc_Timeline r) "latest" then
        let* maxTLI := highestArchivedTimeline deployment in
        match maxTLI with
        | Err _ => Ret (Some ([timeline_scan_failed], None))
        | Ok maxTLI =>
            match required_timelines fuel (u32 (seedTLI + 1)) maxTLI with
            | None => Ret None
            | Some required => some (probe_histories deployment required)
            end
        end
      else
        match ParseUint (rc_Timeline r) 32 with
        | None => Ret (Some ([], Some BadTimeline))
        | Some t => some (probe_histories deployment (if seedTLI <? t then [t] else []))
        end
  end.

(** ** A target before the backup *)

Definition targetReachable (target stop : Z) (inclusive : bool) : bool :=
  if inclusive then stop <=? target else stop <? target.

Definition CheckTargetReachable (stopLSN : string) (recovery : option Recovery) : option refusal :=
  match recovery with
  | None => None
  | Some r =>
      if negb (IsTargetSet r) || String.eqb (rc_TargetLSN r) "" then None
      else
        match ParseLSN (rc_TargetLSN r) with
        | None => Some BadTargetLSN
        | Some target =>
            match ParseLSN stopLSN with
            | None => Some ManifestInvalid
            | Some stop => if targetReachable target stop (rc_Inclusive r) then None else Some TargetUnreachable
            end
        end
  end.

(** ** In the order of [Restore] *)

Definition restore_preflight (fuel : nat) (deployment : string) (m : seed) (recovery : option Recovery)
    (skipGapCheck : bool) : prog string (option checked) :=
  let* c := preflightWALGap deployment (sd_StopLSN m) recovery (map manifest_bounds (sd_WALGaps m)) in
  let '(ev, r) := c in
  match r with
  | Some e => Ret (Some (ev, Some e))
  | None =>
      let* ev' := preflightWALContiguity deployment m recovery in
      let ev := ev ++ ev' in
      let* r := preflightBackupWALAvailable deployment m recovery skipGapCheck in
      match r with
      | Some e => Ret (Some (ev, Some e))
      | None =>
          let* r := preflightTargetBeyondArchive deployment m recovery skipGapCheck in
          match r with
          | Some e => Ret (Some (ev, Some e))
          | None =>
              let* c := preflightTimelineHistory fuel deployment (sd_Timeline m) recovery in
              match c with
              | None => Ret None
              | Some (ev', Some e) => Ret (Some (ev ++ ev', Some e))
              | Some (ev', None) => Ret (Some (ev ++ ev', CheckTargetReachable (sd_StopLSN m) recovery))
              end
          end
      end
  end.

(** ** One record *)

(** Replay to [target] would have to enter the gap, or to cross it from a known stop. *)
Definition crosses (target : Z) (stop : option Z) (g : bounds) : Prop :=
  exists gs ge, ParseLSN g.1 = Some gs /\ ParseLSN g.2 = Some ge /\
    (gs <= target < ge \/ exists st, stop = Some st /\ st < ge <= target).

Definition well_formed (g : bounds) : Prop := is_Some (ParseLSN g.1) /\ is_Some (ParseLSN g.2).

Lemma checkOneGap_spec target stop g : match checkOneGap target stop g with
  | Refuse => crosses target stop g
  | Clear => well_formed g /\ ~ crosses target stop g
  | Malformed => ~ well_formed g
  end.
Proof.
  unfold checkOneGap, well_formed, crosses.
  destruct (ParseLSN g.1) as [gs|] eqn:E1; [|by intros [[? [=]] _]].
  destruct (ParseLSN g.2) as [ge|] eqn:E2; [|by intros [_ [? [=]]]].
  assert ((gs <=? target) && (target <? ge) = true <-> gs <= target < ge) as Hin
    by (rewrite andb_true_iff, Z.leb_le, Z.ltb_lt; done).
  destruct ((gs <=? target) && (target <? ge)) eqn:Ein; cbn [negb andb].
  { exists gs, ge. split_and!; [done..|]. left. by apply Hin. }
  assert (~ (gs <= target < ge)) as Hnot by (by intros H; apply Hin in H).
  destruct stop as [st|]; cbn [andb negb].
  - destruct ((st <? ge) && (ge <=? target)) eqn:Ec; cbn [negb].
    + exists gs, ge. split_and!; [done..|]. right. exists st. split; [done|].
      rewrite andb_true_iff, Z.ltb_lt, Z.leb_le in Ec. done.
    + split; [by split; eexists|]. intros (gs' & ge' & [= <-] & [= <-] & [H|(st' & [= <-] & H)]); [done|].
      rewrite andb_false_iff, Z.ltb_ge, Z.leb_gt in Ec. lia.
  - split; [by split; eexists|]. intros (gs' & ge' & [= <-] & [= <-] & [H|(st' & [=] & _)]). done.
Qed.

Lemma crosses_well_formed target stop g : crosses target stop g -> well_formed g.
Proof. intros (gs & ge & H1 & H2 & _). by split; eexists. Qed.

Lemma check_gaps_spec target stop gs : match check_gaps target stop gs with
  | None => exists g, g ∈ gs /\ crosses target stop g
  | Some n => 0 <= n /\ (forall g, g ∈ gs -> ~ crosses target stop g) /\ (n = 0 -> forall g, g ∈ gs -> well_formed g)
  end.
Proof.
  induction gs as [|g gs IH]; cbn [check_gaps].
  { split; [done|]. split; [|intros _]; by intros g ?%not_elem_of_nil. }
  pose proof (checkOneGap_spec target stop g) as Hg. destruct (checkOneGap target stop g).
  - destruct (check_gaps target stop gs) as [n|].
    + destruct IH as (H1 & H2 & H3). split; [done|]. split.
      * intros g' [->|Hin]%elem_of_cons; [apply Hg|by apply H2].
      * intros Hn g' [->|Hin]%elem_of_cons; [apply Hg|by apply H3].
    + destruct IH as (g' & Hin & H). exists g'. split; [by right|done].
  - destruct (check_gaps target stop gs) as [n|].
    + destruct IH as (H1 & H2 & H3). split; [lia|]. split; [|lia].
      intros g' [->|Hin]%elem_of_cons; [|by apply H2]. intros Hc. by apply Hg, (crosses_well_formed target stop).
    + destruct IH as (g' & Hin & H). exists g'. split; [by right|done].
  - exists g. split; [by left|done].
Qed.

Lemma refuseUnbounded_spec stop g : refuseUnboundedOverGap stop g = true <->
  exists gs ge, ParseLSN g.1 = Some gs /\ ParseLSN g.2 = Some ge /\ stop < ge.
Proof.
  unfold refuseUnboundedOverGap. destruct (ParseLSN g.1) as [gs|]; [|naive_solver].
  destruct (ParseLSN g.2) as [ge|]; [|naive_solver]. rewrite negb_true_iff, Z.leb_gt. split.
  - intros H. by exists gs, ge.
  - intros (? & ? & [= <-] & [= <-] & H). done.
Qed.

(** ** What makes a recorded gap block a recovery *)

Definition known_stop (backupStopLSN : string) : option Z :=
  if String.eqb backupStopLSN "" then None else ParseLSN backupStopLSN.

Definition blocks (r : Recovery) (backupStopLSN : string) (g : bounds) : Prop :=
  if String.eqb (rc_TargetLSN r) "" then
    if IsTargetSet r then gapReachableBySeed backupStopLSN g.2 = true
    else exists stop, ParseLSN backupStopLSN = Some stop /\ stop <> 0 /\ refuseUnboundedOverGap stop g = true
  else exists target, ParseLSN (rc_TargetLSN r) = Some target /\ crosses target (known_stop backupStopLSN) g.

(** A gap of the manifest or of a readable record. *)
Definition known_gap (s : gmap string (object string)) (deployment : string) (manifestGaps : list bounds) (g : bounds) : Prop :=
  g ∈ manifestGaps \/ exists key r, recorded s deployment key r /\ g = live_bounds r.

Lemma gap_List_wp D deployment s : deployment <> "" -> no_faults D ->
  wp D (gap_List deployment) (fun r s' => s' = s /\ exists l, r = Ok l /\
    forall g, g ∈ map live_bounds l <-> exists key r, recorded s deployment key r /\ g = live_bounds r) s.
Proof.
  intros Hd HD. unfold gap_List. wp_step. eapply wp_mono; [|by apply ListUnreadable_wp].
  intros [[recs n]|e] s' [-> H]; [|by destruct H]. destruct H as (H1 & _ & _ & H2). cbn. split; [done|].
  exists recs. split; [done|]. intros g. rewrite list_elem_of_fmap. split.
  - intros (r & -> & Hr). destruct (H1 r Hr) as [k Hk]. by exists k, r.
  - intros (k & r & Hk & ->). exists r. split; [done|]. by apply (H2 (or_introl HD) k).
Qed.

Lemma reachable_count_pos stop gs : (reachable_count stop gs =? 0) = false <->
  exists g, g ∈ gs /\ gapReachableBySeed stop g.2 = true.
Proof.
  unfold reachable_count. rewrite Z.eqb_neq. split.
  - intros H. destruct (filter _ gs) as [|g l] eqn:E; [done|]. exists g.
    assert (g ∈ filter (fun g => gapReachableBySeed stop g.2 = true) gs) as [? ?]%list_elem_of_filter by (rewrite E; by left).
    done.
  - intros (g & Hin & Hg) H. assert (g ∈ filter (fun g => gapReachableBySeed stop g.2 = true) gs) as Hf
      by (by apply list_elem_of_filter). destruct (filter _ gs); [by apply not_elem_of_nil in Hf|]. cbn in H. lia.
Qed.

Lemma reachable_count_nonneg stop gs : 0 <= reachable_count stop gs.
Proof. unfold reachable_count. lia. Qed.

Lemma existsb_elem {A} (f : A -> bool) l : existsb f l = true <-> exists x, x ∈ l /\ f x = true.
Proof. rewrite existsb_exists. split; intros (x & H1 & H2); exists x; by rewrite list_elem_of_In in *. Qed.

(** *** Refusals, on a healthy backend *)

Lemma time_gap_wp D deployment stop gaps s : deployment <> "" -> no_faults D ->
  wp D (preflightTimeTargetGap deployment stop gaps) (fun c s' => s' = s /\ c.1 = [] /\
    (c.2 = None \/ c.2 = Some TargetInWALGap) /\
    (c.2 = Some TargetInWALGap <-> exists g, known_gap s deployment gaps g /\ gapReachableBySeed stop g.2 = true)) s.
Proof.
  intros Hd HD. unfold preflightTimeTargetGap. wp_step. eapply wp_mono; [|by apply gap_List_wp].
  intros r s' (-> & l & -> & Hl). cbn. split; [done|]. split; [done|].
  pose proof (reachable_count_nonneg stop gaps). pose proof (reachable_count_nonneg stop (map live_bounds l)).
  assert ((reachable_count stop gaps + reachable_count stop (map live_bounds l) =? 0) = false <->
    exists g, known_gap s deployment gaps g /\ gapReachableBySeed stop g.2 = true) as Hiff.
  { rewrite Z.eqb_neq. split.
    - intros Hne. destruct (Z.eqb_spec (reachable_count stop gaps) 0) as [Hz|Hz].
      + assert ((reachable_count stop (map live_bounds l) =? 0) = false) as (g & Hin & Hg)%reachable_count_pos
          by (apply Z.eqb_neq; lia). exists g. split; [|done]. right. by apply Hl.
      + apply Z.eqb_neq, reachable_count_pos in Hz as (g & Hin & Hg). exists g. split; [by left|done].
    - intros (g & [Hin|Hin] & Hg).
      + assert ((reachable_count stop gaps =? 0) = false) as Hz by (apply reachable_count_pos; by exists g).
        apply Z.eqb_neq in Hz. lia.
      + apply Hl in Hin. assert ((reachable_count stop (map live_bounds l) =? 0) = false) as Hz
          by (apply reachable_count_pos; by exists g). apply Z.eqb_neq in Hz. lia. }
  destruct (_ =? 0); (split; [by auto|]).
  - split; [done|]. intros H'. by apply Hiff in H'.
  - split; [|done]. intros _. by apply Hiff.
Qed.

Lemma unbounded_gap_wp D deployment stopLSN gaps s : deployment <> "" -> no_faults D ->
  wp D (preflight_unbounded deployment stopLSN gaps) (fun c s' => s' = s /\ c.1 = [] /\
    (c.2 = Some TargetInWALGap <-> exists g, known_gap s deployment gaps g /\
       exists stop, ParseLSN stopLSN = Some stop /\ stop <> 0 /\ refuseUnboundedOverGap stop g = true)) s.
Proof.
  intros Hd HD. unfold preflight_unbounded. destruct (ParseLSN stopLSN) as [stop|]; [|cbn; naive_solver].
  destruct (Z.eqb_spec stop 0) as [->|Hz]; [cbn; naive_solver|]. wp_step. eapply wp_mono; [|by apply gap_List_wp].
  intros r s' (-> & l & -> & Hl). cbn [fst snd].
  assert (existsb (refuseUnboundedOverGap stop) gaps || existsb (refuseUnboundedOverGap stop) (map live_bounds l) = true <->
    exists g, known_gap s deployment gaps g /\ refuseUnboundedOverGap stop g = true) as Hiff.
  { rewrite orb_true_iff, !existsb_elem. split.
    - intros [(g & Hin & Hg)|(g & Hin & Hg)]; exists g; (split; [|done]); [by left|right; by apply Hl].
    - intros (g & [Hin|Hin] & Hg); [left; by exists g|right; exists g; split; [by apply Hl|done]]. }
  assert ((exists g, known_gap s deployment gaps g /\ refuseUnboundedOverGap stop g = true) <->
    exists g, known_gap s deployment gaps g /\ exists st, Some stop = Some st /\ st <> 0 /\ refuseUnboundedOverGap st g = true) as Hiff2.
  { split; intros (g & Hg & H); exists g; (split; [done|]); [by exists stop|]. by destruct H as (st & [= <-] & _ & H). }
  destruct (_ || _); cbn; (split_and!; [done|done|]); rewrite <- Hiff2, <- Hiff; [|naive_solver].
  tauto.
Qed.

Lemma lsn_gap_wp D deployment stopLSN target gaps s : deployment <> "" -> no_faults D ->
  wp D (preflight_to_lsn deployment stopLSN target gaps) (fun c s' => s' = s /\
    (c.2 = Some TargetInWALGap <-> exists g, known_gap s deployment gaps g /\ crosses target (known_stop stopLSN) g)) s.
Proof.
  intros Hd HD. unfold preflight_to_lsn. fold (known_stop stopLSN).
  pose proof (check_gaps_spec target (known_stop stopLSN) gaps) as Hm.
  destruct (check_gaps _ _ gaps) as [bad|].
  2:{ cbn. split; [done|]. split; [|done]. intros _. destruct Hm as (g & Hin & Hg). exists g. split; [by left|done]. }
  wp_step. eapply wp_mono; [|by apply ListUnreadable_wp].
  intros [[recs n]|e] s' [-> H]; [|by destruct H]. destruct H as (H1 & _ & _ & H2).
  pose proof (check_gaps_spec target (known_stop stopLSN) (map live_bounds recs)) as Hl.
  destruct (check_gaps _ _ (map live_bounds recs)) as [bad'|]; cbn.
  - split; [done|]. split; [done|]. intros (g & [Hin|(k & r & Hr & ->)] & Hg); [by apply Hm in Hg|].
    apply Hl in Hg; [done|]. apply list_elem_of_fmap. exists r. split; [done|]. by apply (H2 (or_introl HD) k).
  - split; [done|]. split; [|done]. intros _. destruct Hl as (g & (r & -> & Hr)%list_elem_of_fmap & Hg).
    destruct (H1 r Hr) as [k Hk]. exists (live_bounds r). split; [right; by exists k, r|done].
Qed.

Lemma WALGap_exact_wp D deployment stopLSN r gaps s : deployment <> "" -> no_faults D ->
  rc_Enable r = true -> rc_SkipGapCheck r = false ->
  wp D (preflightWALGap deployment stopLSN (Some r) gaps) (fun c s' => s' = s /\
    (c.2 = Some TargetInWALGap <-> exists g, known_gap s deployment gaps g /\ blocks r stopLSN g)) s.
Proof.
  intros Hd HD He Hs. unfold preflightWALGap, blocks. rewrite He, Hs. cbn [negb].
  destruct (String.eqb (rc_TargetLSN r) "") eqn:El; cbn [andb].
  - destruct (IsTargetSet r); cbn [negb].
    + wp_step. eapply wp_mono; [|by apply time_gap_wp]. intros [ev [e|]] s' (-> & _ & _ & H); cbn in *; [by split|].
      wp_step. unfold emitTimeTargetGapWarning. wp_step. eapply wp_mono; [|by apply gap_List_wp].
      intros r' s' (-> & _). cbn. by split.
    + eapply wp_mono; [|by apply unbounded_gap_wp]. intros c s' (-> & _ & H). by split.
  - destruct (ParseLSN (rc_TargetLSN r)) as [target|].
    + eapply wp_mono; [|by apply lsn_gap_wp]. intros c s' (-> & H). split; [done|]. rewrite H.
      split; intros (g & Hg & Hb); exists g; (split; [done|]); [by exists target|by destruct Hb as (? & [= <-] & ?)].
    + cbn. split; [done|]. split; [done|]. by intros (g & _ & ? & [=] & _).
Qed.

(** *** A silent acceptance, whatever fails *)

Lemma quiet_lsn_wp D deployment stopLSN target gaps s : deployment <> "" ->
  wp D (preflight_to_lsn deployment stopLSN target gaps) (fun c s' => s' = s /\ (c = ([], None) ->
    (forall g, g ∈ gaps -> well_formed g /\ ~ crosses target (known_stop stopLSN) g) /\
    forall key, gap_object s deployment key -> exists r, recorded s deployment key r /\
      well_formed (live_bounds r) /\ ~ crosses target (known_stop stopLSN) (live_bounds r))) s.
Proof.
  intros Hd. unfold preflight_to_lsn. fold (known_stop stopLSN).
  pose proof (check_gaps_spec target (known_stop stopLSN) gaps) as Hm.
  destruct (check_gaps _ _ gaps) as [bad|]; [|done].
  wp_step. eapply wp_mono; [|by apply ListUnreadable_wp].
  intros [[recs n]|e] s' [-> H]; [|done]. destruct H as (H1 & Hn & H2 & H3).
  pose proof (check_gaps_spec target (known_stop stopLSN) (map live_bounds recs)) as Hl.
  destruct (check_gaps _ _ (map live_bounds recs)) as [bad'|]; cbn; [|done]. split; [done|].
  destruct (0 <? n) eqn:En; [done|]. destruct (0 <? bad + bad') eqn:Eb; [done|]. intros _.
  apply Z.ltb_ge in En, Eb. destruct Hm as (Hm0 & Hm1 & Hm2), Hl as (Hl0 & Hl1 & Hl2).
  assert (n = 0) as Hn0 by lia. split.
  - intros g Hg. split; [apply Hm2; [lia|done]|by apply Hm1].
  - intros key Hk. destruct (H2 Hn0 key Hk) as [r Hr]. exists r. split; [done|].
    assert (live_bounds r ∈ map live_bounds recs) as Hin.
    { apply list_elem_of_fmap. exists r. split; [done|]. by apply (H3 (or_intror Hn0) key). }
    split; [apply Hl2; [lia|done]|by apply Hl1].
Qed.

(** ** The loop over timelines *)

Lemma required_timelines_ends fuel tli maxTLI : 0 <= tli -> maxTLI < 2 ^ 32 - 1 ->
  (Z.to_nat (maxTLI + 1 - tli) < fuel)%nat ->
  required_timelines fuel tli maxTLI = Some (seqZ tli (maxTLI + 1 - tli)).
Proof.
  revert tli. induction fuel as [|fuel IH]; intros tli Ht Hm Hf; [lia|]. cbn [required_timelines].
  destruct (Z.leb_spec tli maxTLI) as [Hle|Hgt].
  - assert (u32 (tli + 1) = tli + 1) as -> by (unfold u32; apply Z.mod_small; lia).
    rewrite IH by lia. rewrite (seqZ_cons tli) by lia. do 3 f_equal; lia.
  - by rewrite seqZ_nil by lia.
Qed.

Lemma required_timelines_wraps fuel tli : 0 <= tli < 2 ^ 32 -> required_timelines fuel tli (2 ^ 32 - 1) = None.
Proof.
  revert tli. induction fuel as [|fuel IH]; intros tli Ht; [done|]. cbn [required_timelines].
  rewrite (proj2 (Z.leb_le _ _)) by lia. rewrite IH; [done|]. unfold u32. apply Z.mod_pos_bound. lia.
Qed.
End checks.


(** C28: a quiet acceptance of an LSN target can be trusted, whatever the storage did: when the
    check neither refuses nor warns, every gap object of the deployment was readable, every gap
    there and in the manifest has LSNs, and none of them lies in the way of the replay. *)
Theorem quiet_acceptance `{L : LSN} `{CG : Codec string gapRecord}
    (deployment stopLSN : string) (r : Recovery) (gaps : list bounds) (ds : nat -> decision)
    (s s' : gmap string (object string)) :
  deployment <> "" -> rc_Enable r = true -> rc_SkipGapCheck r = false -> rc_TargetLSN r <> "" ->
  run ds 0 (preflightWALGap deployment stopLSN (Some r) gaps) s = (([], None), s') ->
  exists target, ParseLSN (rc_TargetLSN r) = Some target /\
    (forall g, g ∈ gaps -> well_formed g /\ ~ crosses target (known_stop stopLSN) g) /\
    forall key, gap_object s deployment key -> exists rec, recorded s deployment key rec /\
      well_formed (live_bounds rec) /\ ~ crosses target (known_stop stopLSN) (live_bounds rec).
Proof.
  intros Hd He Hs Ht Hr. revert Hr. unfold preflightWALGap. rewrite He, Hs, (proj2 (String.eqb_neq _ _) Ht). cbn [negb andb].
  destruct (ParseLSN (rc_TargetLSN r)) as [target|]; [|done]. intros Hr. exists target. split; [done|].
  pose proof (wp_run (fun _ => True) _ _ s ds 0 (fun _ => I) (quiet_lsn_wp (fun _ => True) deployment stopLSN target gaps s Hd)) as H.
  rewrite Hr in H. by apply H.
Qed.

(** The loop over the timelines between the backup's and the archive's highest ends with all
    of them, except that it never ends when the archive's highest is the last [uint32]: the
    counter wraps to zero. *)
Theorem required_timelines_end (fuel : nat) (tli maxTLI : Z) : 0 <= tli < 2 ^ 32 -> maxTLI < 2 ^ 32 ->
  (Z.to_nat (maxTLI + 1 - tli) < fuel)%nat ->
  required_timelines fuel tli maxTLI =
    if maxTLI =? 2 ^ 32 - 1 then None else Some (seqZ tli (maxTLI + 1 - tli)).
Proof.
  intros Ht Hm Hf. destruct (Z.eqb_spec maxTLI (2 ^ 32 - 1)) as [->|Hne]; [by apply required_timelines_wraps|].
  apply required_timelines_ends; lia.
Qed.

(** ** Concrete restores *)

Definition gap_store (body : string) : gmap string (object string) :=
  {["wal/db/gaps/2-7-x.json" := Object body 100 9 0 WORMNone]}.

Definition recovery_to (lsn : string) : Recovery :=
  {| rc_Enable := true; rc_TargetLSN := lsn; rc_TargetTime := 0; rc_TargetName := ""; rc_Inclusive := true;
     rc_Action := ""; rc_Timeline := ""; rc_RestoreCommand := ""; rc_StandbyMode := false; rc_SkipGapCheck := false |}.

Definition gap_check (lsn : string) (s : gmap string (object string)) : checked :=
  (run gap_clock 0 (preflightWALGap (CG := gap_codec) "db" "0/2000000" (Some (recovery_to lsn)) []) s).1.

Definition demo_gap_store : gmap string (object string) :=
  gap_store (encode (Codec := gap_codec) (stored_gap demo_gap 7)).


Lemma quiet_acceptance_witness : gap_check "0/2800000" demo_gap_store = ([], None) /\
  exists rec, recorded (CG := gap_codec) demo_gap_store "db" "wal/db/gaps/2-7-x.json" rec /\
    ~ crosses 0x2800000 (Some 0x2000000) (live_bounds rec).
Proof.
  assert (gap_check "0/2800000" demo_gap_store = ([], None)) as Hc by (vm_compute; reflexivity).
  split; [exact Hc|]. unfold gap_check in Hc.
  destruct (run gap_clock 0 (preflightWALGap (CG := gap_codec) "db" "0/2000000" (Some (recovery_to "0/2800000")) []) demo_gap_store)
    as [c s'] eqn:E. cbn [fst] in Hc. subst c.
  destruct (quiet_acceptance (CG := gap_codec) "db" "0/2000000" (recovery_to "0/2800000") [] gap_clock demo_gap_store s')
    as (target & Ht & _ & H); [discriminate|reflexivity|reflexivity|discriminate|exact E|].
  destruct (H "wal/db/gaps/2-7-x.json") as (rec & H1 & _ & H2); [by split_and!; [eexists|..]|].
  exists rec. split; [exact H1|]. vm_compute in Ht. injection Ht as <-. exact H2.
Defined.

Lemma required_timelines_end_witness : required_timelines 5 2 4 = Some [2; 3; 4].
Proof. rewrite (required_timelines_end 5 2 4) by (lia || (vm_compute; lia)). vm_compute. reflexivity. Defined.

(** An unbounded recovery (a standby, or to the latest state) is accepted without a word over
    a gap record that cannot be read or has no LSNs, where a recovery to an LSN is warned. *)
Theorem unbounded_recovery_is_silent :
  let unreadable := gap_store "?" in
  let malformed := gap_store (encode (Codec := gap_codec)
    {| gap_Schema := gapSchema; gap_Deployment := "db"; gap_SlotName := "slot1"; gap_SlotRole := ""; gap_Timeline := 2;
       gap_StartLSN := "not-an-lsn"; gap_EndLSN := "0/5000000"; gap_Bytes := 1; gap_DetectedAt := 7 |}) in
  gap_check "" unreadable = ([], None) /\ gap_check "0/6000000" unreadable = ([gap_state_unreadable (Some 1)], None) /\
  gap_check "" malformed = ([], None) /\ gap_check "0/6000000" malformed = ([gap_record_malformed 1], None).
Proof. vm_compute. done. Qed.
