(* ===== verification/Gc.v ===== *)
(** Which chunks the repository's manifests reference, which chunks no manifest
    references and which references dangle (internal/repo/gc.go, and the manifest
    snapshot and hash sample of internal/repo/gcsweep.go).

    [tokenize] is the scanner of [encoding/json], [sha256] the digest of the harvest
    memo.  A [spill.HashSet] is the set it holds; its temporary files are not
    modelled.  The harvest workers run in the order the jobs are sent. *)
From S2P Require Import Prelude GoString Storage Concur Hash Json WalPrune.
From Stdlib Require Import Ascii.

Local Open Scope string_scope.
Local Open Scope list_scope.
Local Open Scope Z_scope.
#[local] Arguments String.append : simpl nomatch.

(** ** Options *)

Record CollectReferencesOptions := { co_TombstoneGrace : duration; co_Now : time }.

Definition effectiveGrace (o : CollectReferencesOptions) : duration :=
  if co_TombstoneGrace o =? 0 then DefaultTombstoneGracePeriod
  else if co_TombstoneGrace o <? 0 then 0
  else co_TombstoneGrace o.

Definition DefaultOrphanMinAge : duration := 24 * Time.Hour.

Record FindOrphansOptions := { fo_MinAge : duration; fo_Now : time }.

Definition effectiveMinAge (o : FindOrphansOptions) : duration :=
  if fo_MinAge o =? 0 then DefaultOrphanMinAge
  else if fo_MinAge o <? 0 then 0
  else fo_MinAge o.

(** [effectiveNow] of both: the caller's time, or the clock's. *)
Definition effectiveNow (t : time) : prog string time :=
  if Time.IsZero t then now else Ret t.

(** ** The harvest memo *)

Fixpoint leBytes (n : nat) (z : Z) : string :=
  match n with
  | O => ""
  | S n => String (Ascii.ascii_of_N (Z.to_N (z mod 256))) (leBytes n (z / 256))
  end.

Definition Nanosecond (t : time) : Z := (t - Time.unix_epoch) mod Time.Second.
Definition Unix (t : time) : Z := (t - Time.unix_epoch) / Time.Second.

Definition digest_input (i : ObjectInfo) : string :=
  Key i +:+ String Ascii.zero (leBytes 8 (u64 (Size i)) +:+ leBytes 4 (u32 (Nanosecond (ModTime i)))
    +:+ leBytes 8 (u64 (Unix (ModTime i)))).

(** ** Bounded samples *)

Record hashSample := { hs_limit : Z; hs_buf : list Hash }.

Definition trim (s : hashSample) : hashSample :=
  let buf := sortHashes (hs_buf s) in
  {| hs_limit := hs_limit s;
     hs_buf := if hs_limit s <? Z.of_nat (length buf) then take (Z.to_nat (hs_limit s)) buf else buf |}.

Definition offer (s : hashSample) (h : Hash) : hashSample :=
  let s := {| hs_limit := hs_limit s; hs_buf := hs_buf s ++ [h] |} in
  if 2 * hs_limit s <=? Z.of_nat (length (hs_buf s)) then trim s else s.

Definition sorted (s : hashSample) : list Hash := hs_buf (trim s).

(** ** Manifests *)

Inductive harvestKind := harvestBackup | harvestWAL.

Inductive gc_err :=
| ListFailed (e : serr)
| GetFailed (key : string) (e : serr)
| BadManifest (key : string).

(** A backup key's [<deployment>/<id>], as the tombstones are recorded. *)
Definition backup_of (key : string) : string :=
  let parts := SplitByte key slash in nth 1 parts "" +:+ "/" +:+ nth 3 parts "".

Definition parts_of (key : string) : nat := length (SplitByte key slash).

(** What one pass keeps of the manifests: the references and the memo. *)
Record snapshot := { sn_refs : gset Hash; sn_harvested : gset Hash; sn_stale : list string }.

Definition snapshot0 : snapshot := {| sn_refs := ∅; sn_harvested := ∅; sn_stale := [] |}.

(** A snapshot's options; [mo_minAge] is zero when only references are collected. *)
Record snapshotOptions := {
  mo_opts : CollectReferencesOptions;
  mo_minAge : duration;
  mo_ageCutoff : time
}.

Definition isStaleAged (o : snapshotOptions) (i : ObjectInfo) : bool :=
  if mo_minAge o <=? 0 then true
  else negb (Time.IsZero (ModTime i)) && negb (Time.After (ModTime i) (mo_ageCutoff o)).

(** A zero or too recent modification time. *)
Definition young (cutoff : time) (i : ObjectInfo) : bool :=
  Time.IsZero (ModTime i) || Time.After (ModTime i) cutoff.

Section gc.
Context (tokenize : string -> list token) (sha256 : string -> Hash).

Definition harvestDigest (i : ObjectInfo) : Hash := sha256 (digest_input i).

(** The visitor of [harvestManifest]. *)
Definition visit (refs : gset Hash) (hash : string) : option (gset Hash) :=
  match parseHexHash hash with Some h => Some ({[h]} ∪ refs) | None => None end.

Definition stream_refs (kind : harvestKind) (refs : gset Hash) (body : string) : option (gset Hash) :=
  match kind with
  | harvestBackup => streamBackupChunkRefs visit refs (tokenize body)
  | harvestWAL => streamSegmentChunkRefs visit refs (tokenize body)
  end.

Definition harvestManifest (key : string) (refs : gset Hash) (kind : harvestKind)
    : prog string (result gc_err (gset Hash)) :=
  let* r := sGet key in
  match r with
  | Err ErrNotFound => Ret (Ok refs)
  | Err e => Ret (Err (GetFailed key e))
  | Ok body => match stream_refs kind refs body with
               | Some refs => Ret (Ok refs)
               | None => Ret (Err (BadManifest key))
               end
  end.

Definition fresh (s : snapshot) (i : ObjectInfo) : bool :=
  bool_decide (harvestDigest i ∈ sn_harvested s).

(** One job of the harvest workers. *)
Definition harvest_job (kind : harvestKind) (i : ObjectInfo) (s : snapshot)
    : prog string (snapshot + gc_err) :=
  let* r := harvestManifest (Key i) (sn_refs s) kind in
  match r with
  | Err e => Ret (inr e)
  | Ok refs => Ret (inl {| sn_refs := refs; sn_harvested := {[harvestDigest i]} ∪ sn_harvested s;
                           sn_stale := sn_stale s |})
  end.

(** The switch of the loop over [manifests/]: tombstoned backups, backup manifests and
    stale staging files. *)
Definition manifests_scan (o : snapshotOptions) (collectStale : bool) (cutoff : time)
    (st : gset string * list ObjectInfo * list string) (i : ObjectInfo)
    : gset string * list ObjectInfo * list string :=
  let '(tombstoned, keys, stale) := st in
  let key := Key i in
  if HasSuffix key "/manifest.json.tombstone" then
    if (0 <? effectiveGrace (mo_opts o)) && young cutoff i then st
    else if (4 <=? parts_of key)%nat then ({[backup_of key]} ∪ tombstoned, keys, stale)
    else st
  else if HasSuffix key "/manifest.json" then (tombstoned, keys ++ [i], stale)
  else if collectStale && isStaleTempKey key then
    if isStaleAged o i then (tombstoned, keys, stale ++ [key]) else st
  else st.

Definition dead_backup (tombstoned : gset string) (key : string) : bool :=
  (5 <=? parts_of key)%nat && bool_decide (backup_of key ∈ tombstoned).

Definition backup_step (tombstoned : gset string) (i : ObjectInfo) (s : snapshot)
    : prog string (snapshot + gc_err) :=
  if dead_backup tombstoned (Key i) then Ret (inl s)
  else if fresh s i then Ret (inl s)
  else harvest_job harvestBackup i s.

Definition wal_step (o : snapshotOptions) (collectStale : bool) (prefix : string) (i : ObjectInfo)
    (st : snapshot * list string) : prog string (snapshot * list string + gc_err) :=
  let '(s, stale) := st in
  if isStaleTempKey (Key i) then
    if collectStale && String.eqb prefix "wal/" && isStaleAged o i
    then Ret (inl (s, stale ++ [Key i])) else Ret (inl st)
  else if negb (HasSuffix (Key i) ".json") || fresh s i then Ret (inl st)
  else
    let* r := harvest_job harvestWAL i s in
    match r with
    | inl s => Ret (inl (s, stale))
    | inr e => Ret (inr e)
    end.

Definition prefix_step (o : snapshotOptions) (collectStale : bool) (prefix : string)
    (st : snapshot * list string) : prog string (snapshot * list string + gc_err) :=
  let* l := sList prefix in
  let* r := for_ l.1 st (wal_step o collectStale prefix) in
  match r, l.2 with
  | inr e, _ => Ret (inr e)
  | inl st, Some e => Ret (inr (ListFailed e))
  | inl st, None => Ret (inl st)
  end.

(** [scan] with [listAndDispatch]. *)
Definition scan (o : snapshotOptions) (collectStale : bool) (s : snapshot)
    : prog string (result gc_err snapshot) :=
  let* t := effectiveNow (co_Now (mo_opts o)) in
  let cutoff := Time.Add t (- effectiveGrace (mo_opts o)) in
  let* l := sList "manifests/" in
  match l with
  | (_, Some e) => Ret (Err (ListFailed e))
  | (infos, None) =>
      let '(tombstoned, keys, stale) := fold_left (manifests_scan o collectStale cutoff) infos (∅, [], []) in
      let* r := for_ keys s (backup_step tombstoned) in
      match r with
      | inr e => Ret (Err e)
      | inl s =>
          let* r := for_ ["wal/"; "logical/"] (s, stale) (prefix_step o collectStale) in
          match r with
          | inr e => Ret (Err e)
          | inl (s, stale) =>
              Ret (Ok (if collectStale
                       then {| sn_refs := sn_refs s; sn_harvested := sn_harvested s;
                               sn_stale := stable_sort string_ltb stale |}
                       else s))
          end
      end
  end.

Definition CollectReferencesWithOptions (opts : CollectReferencesOptions)
    : prog string (result gc_err (gset Hash)) :=
  let* r := scan {| mo_opts := opts; mo_minAge := 0; mo_ageCutoff := 0 |} false snapshot0 in
  match r with
  | Err e => Ret (Err e)
  | Ok s => Ret (Ok (sn_refs s))
  end.

(** ** Orphans and missing chunks *)

(** The chunk a listed object holds, when no manifest references it and it is old enough. *)
Definition orphan_of (refs : gset Hash) (minAge : duration) (cutoff : time) (i : ObjectInfo) : option Hash :=
  match ParseChunkKey (Key i) with
  | None => None
  | Some h => if bool_decide (h ∈ refs) then None
              else if (0 <? minAge) && young cutoff i then None
              else Some h
  end.

Definition orphan_scan (refs : gset Hash) (minAge : duration) (cutoff : time) (limit : Z)
    (st : list Hash * hashSample * Z) (i : ObjectInfo) : list Hash * hashSample * Z :=
  match orphan_of refs minAge cutoff i with
  | None => st
  | Some h =>
      let '(orphans, sample, total) := st in
      (if limit <? 0 then orphans ++ [h] else orphans,
       if 0 <? limit then offer sample h else sample,
       total + 1)
  end.

Definition FindOrphansLimit (refs : gset Hash) (opts : FindOrphansOptions) (limit : Z)
    : prog string (result serr (list Hash * Z)) :=
  let minAge := effectiveMinAge opts in
  let* cutoff := (if 0 <? minAge then let* t := effectiveNow (fo_Now opts) in Ret (Time.Add t (- minAge))
                  else Ret 0) in
  let* l := sList "chunks/sha256/" in
  match l with
  | (_, Some e) => Ret (Err e)
  | (infos, None) =>
      let '(orphans, sample, total) :=
        fold_left (orphan_scan refs minAge cutoff limit) infos ([], {| hs_limit := limit; hs_buf := [] |}, 0) in
      Ret (Ok (sortHashes (if 0 <=? limit then sorted sample else orphans), total))
  end.

Definition FindOrphansWithOptions (refs : gset Hash) (opts : FindOrphansOptions)
    : prog string (result serr (list Hash)) :=
  let* r := FindOrphansLimit refs opts (-1) in
  match r with Err e => Ret (Err e) | Ok (orphans, _) => Ret (Ok orphans) end.

Definition FindOrphans (refs : gset Hash) : prog string (result serr (list Hash)) :=
  FindOrphansWithOptions refs {| fo_MinAge := -1; fo_Now := 0 |}.

Definition stale_step (minAge : duration) (cutoff : time) (prefix : string) (stale : list string)
    : prog string (list string + serr) :=
  let* l := sList prefix in
  match l with
  | (_, Some e) => Ret (inr e)
  | (infos, None) =>
      Ret (inl (stale ++ map Key (filter (fun i => isStaleTempKey (Key i) &&
        negb ((0 <? minAge) && young cutoff i) = true) infos)))
  end.

Definition FindStaleTempManifests (opts : FindOrphansOptions) : prog string (result serr (list string)) :=
  let minAge := effectiveMinAge opts in
  let* cutoff := (if 0 <? minAge then let* t := effectiveNow (fo_Now opts) in Ret (Time.Add t (- minAge))
                  else Ret 0) in
  let* r := for_ ["manifests/"; "wal/"] [] (stale_step minAge cutoff) in
  match r with
  | inr e => Ret (Err e)
  | inl stale => Ret (Ok (stable_sort string_ltb stale))
  end.

(** The callback over the reference set. *)
Definition missing_step (limit : Z) (h : Hash) (st : list Hash * Z)
    : prog string (list Hash * Z + serr * (list Hash * Z)) :=
  let '(missing, total) := st in
  let* r := sStat (ChunkKey h) in
  match r with
  | Ok _ => Ret (inl st)
  | Err ErrNotFound =>
      Ret (inl (if (limit <? 0) || (Z.of_nat (length missing) <? limit) then missing ++ [h] else missing,
                total + 1))
  | Err e => Ret (inr (e, st))
  end.

(** [refs.ForEach] visits the set in an order of its own. *)
Definition FindMissingLimit (order : gset Hash -> list Hash) (refs : gset Hash) (limit : Z)
    : prog string (list Hash * Z * option serr) :=
  let* r := for_ (order refs) ([], 0) (missing_step limit) in
  match r with
  | inl st => Ret (st, None)
  | inr (e, st) => Ret (st, Some e)
  end.
End gc.

(** ** The sample is the least hashes *)

Lemma hash_less_asym x y : hash_less x y = true -> hash_less y x = false.
Proof. unfold hash_less. rewrite Z.ltb_lt, Z.ltb_ge. lia. Qed.

Lemma hash_less_neg_trans x y z :
  hash_less y x = false -> hash_less z y = false -> hash_less z x = false.
Proof. unfold hash_less. rewrite !Z.ltb_ge. lia. Qed.

Lemma sortHashes_ordered l : StronglySorted Z.le (sortHashes l).
Proof.
  pose proof (stable_sort_ordered hash_less hash_less_asym hash_less_neg_trans l) as H.
  unfold sortHashes. induction H as [|x l' _ IH Hx]; constructor; [done|].
  eapply Forall_impl; [exact Hx|]. intros y. unfold hash_less. by rewrite Z.ltb_ge.
Qed.

Lemma sortHashes_eq l l' : l ≡ₚ l' -> sortHashes l = sortHashes l'.
Proof.
  intros H. apply (StronglySorted_unique Z.le); [apply sortHashes_ordered..|].
  by rewrite !sortHashes_perm.
Qed.

Lemma sortHashes_snoc l h : sortHashes (l ++ [h]) = insert_by hash_less h (sortHashes l).
Proof.
  change (insert_by hash_less h (sortHashes l)) with (sortHashes (h :: l)).
  apply sortHashes_eq. by rewrite Permutation_app_comm.
Qed.

Lemma take_insert_by n h l :
  take n (insert_by hash_less h (take n l)) = take n (insert_by hash_less h l).
Proof.
  revert n. induction l as [|y l IH]; intros [|n]; try done. cbn [take insert_by firstn].
  destruct (hash_less y h); cbn [take firstn]; [f_equal; apply IH|]. f_equal.
  destruct n; [done|]. cbn [firstn]. f_equal. rewrite take_take. f_equal. lia.
Qed.

Lemma sortHashes_sorted l : sortHashes (sortHashes l) = sortHashes l.
Proof. apply sortHashes_eq, sortHashes_perm. Qed.

Lemma sortHashes_take n l : sortHashes (take n (sortHashes l)) = take n (sortHashes l).
Proof.
  apply (StronglySorted_unique Z.le); [apply sortHashes_ordered| |apply sortHashes_perm].
  apply (StronglySorted_app_1_l _ _ (drop n (sortHashes l))). rewrite take_drop. apply sortHashes_ordered.
Qed.

Lemma trim_buf s : 0 < hs_limit s ->
  hs_buf (trim s) = take (Z.to_nat (hs_limit s)) (sortHashes (hs_buf s)).
Proof.
  intros Hl. unfold trim. cbn [hs_buf]. destruct (hs_limit s <? _) eqn:E; [done|].
  apply Z.ltb_ge in E. rewrite take_ge; [done|]. lia.
Qed.

(** What a sample holds of the hashes offered so far. *)
Definition samples (limit : Z) (seen : list Hash) (s : hashSample) : Prop :=
  hs_limit s = limit /\ Z.of_nat (length (hs_buf s)) < 2 * limit /\
  take (Z.to_nat limit) (sortHashes (hs_buf s)) = take (Z.to_nat limit) (sortHashes seen).

Lemma offer_samples limit seen s h : 0 < limit -> samples limit seen s ->
  samples limit (seen ++ [h]) (offer s h).
Proof.
  intros Hl (Hlim & Hlen & Hs). unfold offer. cbn [hs_limit hs_buf]. rewrite Hlim.
  assert (take (Z.to_nat limit) (sortHashes (hs_buf s ++ [h]))
          = take (Z.to_nat limit) (sortHashes (seen ++ [h]))) as E.
  { rewrite !sortHashes_snoc, <- take_insert_by, Hs. apply take_insert_by. }
  rewrite length_app. cbn [length]. destruct (_ <=? _) eqn:F; [|split_and!; [done| |done]].
  - split_and!; [done| |].
    + rewrite trim_buf by done. cbn [hs_limit hs_buf]. rewrite length_take. lia.
    + rewrite trim_buf by done. cbn [hs_limit hs_buf]. rewrite sortHashes_take, take_take.
      by rewrite Nat.min_id.
  - cbn [hs_buf]. rewrite length_app. cbn [length]. apply Z.leb_gt in F. lia.
Qed.

Lemma sample_fold limit hs seen s : 0 < limit -> samples limit seen s ->
  samples limit (seen ++ hs) (fold_left offer hs s).
Proof.
  intros Hl. revert seen s. induction hs as [|h hs IH]; intros seen s Hs; cbn [fold_left].
  - by rewrite app_nil_r.
  - rewrite cons_middle, app_assoc. apply IH. by apply offer_samples.
Qed.

Lemma samples_sorted limit seen s : 0 < limit -> samples limit seen s ->
  sorted s = take (Z.to_nat limit) (sortHashes seen).
Proof.
  intros Hl (Hlim & _ & Hs). unfold sorted. rewrite trim_buf, Hlim by lia. done.
Qed.

(** A sample of positive limit is the [limit] least of the hashes offered, in order, and
    its buffer never reaches twice the limit. *)
Lemma hashSample_least (limit : Z) (hs : list Hash) :
  0 < limit ->
  let s := fold_left offer hs {| hs_limit := limit; hs_buf := [] |} in
  sorted s = take (Z.to_nat limit) (sortHashes hs) /\ Z.of_nat (length (hs_buf s)) < 2 * limit.
Proof.
  intros Hl s. assert (samples limit hs s) as Hs
    by (apply (sample_fold limit hs []); [done|]; split_and!; [done|simpl; lia|done]).
  split; [by apply samples_sorted|apply Hs].
Qed.

(** ** What a manifest references *)

Lemma leBytes_length n z : String.length (leBytes n z) = n.
Proof. revert z. induction n as [|n IH]; intros z; cbn; [done|by rewrite IH]. Qed.

Lemma digest_input_key i j : digest_input i = digest_input j -> Key i = Key j.
Proof.
  unfold digest_input. intros E. apply string_app_inj_length in E; [by destruct E|].
  reflexivity.
Qed.

Section refs.
Context (tokenize : string -> list token).
Local Abbreviation stream_refs := (stream_refs tokenize).

Lemma stream_refs_union kind refs body :
  stream_refs kind refs body = option_map (fun R => R ∪ refs) (stream_refs kind ∅ body).
Proof.
  assert (forall a b h, a = b ∪ refs -> sim_opt (fun a b => a = b ∪ refs) (visit a h) (visit b h)) as Hv.
  { intros a b h ->. unfold visit. destruct (parseHexHash h); [|done]. cbn. by rewrite assoc_L by apply _. }
  assert (sim_opt (fun a b => a = b ∪ refs) (stream_refs kind refs body) (stream_refs kind ∅ body)) as H.
  { destruct kind; [apply streamBackupChunkRefs_sim|apply streamSegmentChunkRefs_sim]; try done;
      by rewrite left_id_L by apply _. }
  destruct (stream_refs kind refs body), (stream_refs kind ∅ body); try done. cbn in *. congruence.
Qed.

(** The hashes of a manifest's body are among [refs]. *)
Definition collected (kind : harvestKind) (body : string) (refs : gset Hash) : Prop :=
  exists R, stream_refs kind ∅ body = Some R /\ R ⊆ refs.

Lemma collected_mono kind body refs refs' : refs ⊆ refs' ->
  collected kind body refs -> collected kind body refs'.
Proof. intros H (R & HR & Hs). exists R. split; [done|]. by etransitivity. Qed.

Lemma stream_refs_Some kind refs body refs' : stream_refs kind refs body = Some refs' ->
  refs ⊆ refs' /\ collected kind body refs'.
Proof.
  rewrite stream_refs_union. destruct (stream_refs kind ∅ body) as [R|] eqn:E; [|done].
  intros [= <-]. split; [set_solver|]. exists R. split; [done|]. set_solver.
Qed.
End refs.

(** ** The scan *)

(** What one entry adds to the loop's three collections. *)
Definition adds_tombstone (o : snapshotOptions) (cutoff : time) (i : ObjectInfo) : bool :=
  HasSuffix (Key i) "/manifest.json.tombstone" &&
  negb ((0 <? effectiveGrace (mo_opts o)) && young cutoff i) && (4 <=? parts_of (Key i))%nat.

Definition adds_key (i : ObjectInfo) : bool := HasSuffix (Key i) "/manifest.json".

Definition adds_stale (o : snapshotOptions) (collectStale : bool) (i : ObjectInfo) : bool :=
  negb (HasSuffix (Key i) "/manifest.json.tombstone") && negb (HasSuffix (Key i) "/manifest.json") &&
  (collectStale && isStaleTempKey (Key i)) && isStaleAged o i.

Lemma manifests_scan_step o cs cutoff T K Z i :
  manifests_scan o cs cutoff (T, K, Z) i =
  (if adds_tombstone o cutoff i then {[backup_of (Key i)]} ∪ T else T,
   if adds_key i then K ++ [i] else K,
   if adds_stale o cs i then Z ++ [Key i] else Z).
Proof.
  unfold manifests_scan, adds_tombstone, adds_key, adds_stale.
  pose proof (manifest_not_tombstone (Key i)) as Hex.
  destruct (HasSuffix (Key i) "/manifest.json.tombstone"); cbn [andb negb].
  - destruct (HasSuffix (Key i) "/manifest.json"); [by discriminate Hex|].
    destruct (_ && young cutoff i); cbn [andb negb]; [done|]. by destruct (_ <=? _)%nat.
  - destruct (HasSuffix (Key i) "/manifest.json"); cbn [andb negb]; [done|].
    destruct (cs && _); cbn [andb]; [|done]. by destruct (isStaleAged o i).
Qed.

Lemma elem_of_if_snoc {A} (b : bool) (x y : A) l : x ∈ (if b then l ++ [y] else l) <-> x ∈ l \/ b = true /\ x = y.
Proof. destruct b; [rewrite elem_of_app, list_elem_of_singleton|]; naive_solver. Qed.

Lemma elem_of_if_add `{Countable A} (b : bool) (x y : A) (X : gset A) :
  x ∈ (if b then {[y]} ∪ X else X) <-> x ∈ X \/ b = true /\ x = y.
Proof. destruct b; [rewrite elem_of_union, elem_of_singleton|]; naive_solver. Qed.

Lemma or_exists_cons {A} (P : A -> Prop) (Q : Prop) x l :
  ((Q \/ P x) \/ exists i, i ∈ l /\ P i) <-> Q \/ exists i, i ∈ x :: l /\ P i.
Proof. setoid_rewrite elem_of_cons. naive_solver. Qed.

(** What the loop over [manifests/] collects. *)
Lemma manifests_scan_spec o cs cutoff l st :
  let '(T, K, Z) := fold_left (manifests_scan o cs cutoff) l st in
  (forall id, id ∈ T <-> id ∈ st.1.1 \/ exists i, i ∈ l /\ adds_tombstone o cutoff i = true /\ id = backup_of (Key i)) /\
  (forall j, j ∈ K <-> j ∈ st.1.2 \/ exists i, i ∈ l /\ adds_key i = true /\ j = i) /\
  (forall key, key ∈ Z <-> key ∈ st.2 \/ exists i, i ∈ l /\ adds_stale o cs i = true /\ key = Key i).
Proof.
  revert st. induction l as [|i l IH]; intros [[T0 K0] Z0]; cbn [fold_left].
  { assert (forall A (P : A -> Prop) (Q : Prop), Q <-> Q \/ exists i, i ∈ [] /\ P i) as H.
    { intros A P Q. split; [by left|]. intros [HQ|(i & Hi & _)]; [done|]. by apply not_elem_of_nil in Hi. }
    split_and!; intros x; apply H. }
  specialize (IH (manifests_scan o cs cutoff (T0, K0, Z0) i)). revert IH.
  rewrite manifests_scan_step. destruct (fold_left _ l _) as [[T K] Z].
  cbn [fst snd]. intros (IH1 & IH2 & IH3).
  split_and!; intros x; [rewrite IH1, elem_of_if_add|rewrite IH2, elem_of_if_snoc|rewrite IH3, elem_of_if_snoc].
  - apply (or_exists_cons (fun i => adds_tombstone o cutoff i = true /\ x = backup_of (Key i))).
  - apply (or_exists_cons (fun i => adds_key i = true /\ x = i)).
  - apply (or_exists_cons (fun i => adds_stale o cs i = true /\ x = Key i)).
Qed.

Lemma manifests_scan_collects o cs cutoff l :
  let '(T, K, Z) := fold_left (manifests_scan o cs cutoff) l (∅, [], []) in
  (forall id, id ∈ T <-> exists i, i ∈ l /\ adds_tombstone o cutoff i = true /\ id = backup_of (Key i)) /\
  (forall i, i ∈ K <-> i ∈ l /\ adds_key i = true) /\
  (forall key, key ∈ Z -> isStaleTempKey key = true /\ exists i, i ∈ l /\ key = Key i).
Proof.
  pose proof (manifests_scan_spec o cs cutoff l (∅, [], [])) as H.
  destruct (fold_left _ l _) as [[T K] Z]. destruct H as (H1 & H2 & H3). split_and!.
  - intros id. rewrite H1. cbn [fst]. rewrite elem_of_empty. naive_solver.
  - intros i. rewrite H2. cbn [fst snd]. rewrite elem_of_nil. naive_solver.
  - intros key Hk%H3. destruct Hk as [Hk|(i & Hi & Ha & ->)]; [by apply not_elem_of_nil in Hk|].
    split; [unfold adds_stale in Ha; zbool; by zbool|by exists i].
Qed.

(** The keys a manifest of each kind has. *)
Definition manifest_key (kind : harvestKind) (k : string) : Prop :=
  match kind with
  | harvestBackup => HasPrefix k "manifests/" = true /\ HasSuffix k "/manifest.json" = true
  | harvestWAL => (HasPrefix k "wal/" = true \/ HasPrefix k "logical/" = true) /\
                  HasSuffix k ".json" = true /\ isStaleTempKey k = false
  end.

Definition job_key (kind : harvestKind) (k : string) : Prop :=
  match kind with
  | harvestBackup => HasPrefix k "manifests/" = true
  | harvestWAL => HasPrefix k "wal/" = true \/ HasPrefix k "logical/" = true
  end.

Lemma job_key_kind kind kind' k : job_key kind k -> job_key kind' k -> kind = kind'.
Proof. destruct kind, kind'; cbn; try done; destruct k as [|[[] [] [] [] [] [] [] []] k]; naive_solver. Qed.

(** The tombstone markers of a backup's manifest. *)
Definition tombstone_of (s : gmap string (object string)) (k key : string) (t : object string) : Prop :=
  s !! key = Some t /\ HasPrefix key "manifests/" = true /\
  HasSuffix key "/manifest.json.tombstone" = true /\ (4 <= parts_of key)%nat /\ backup_of key = backup_of k.

(** A manifest is live up to the time [latest]: it is stored, and every tombstone of its
    backup is within the grace period even then. *)
Definition live (grace : duration) (latest : time) (kind : harvestKind) (k : string) (ob : object string)
    (s : gmap string (object string)) : Prop :=
  manifest_key kind k /\ s !! k = Some ob /\
  (kind = harvestBackup -> (5 <= parts_of k)%nat -> forall key t, tombstone_of s k key t ->
     0 < grace /\ young (Time.Add latest (- grace)) (info_of key t) = true).

Definition clock_until (latest : time) (d : decision) : Prop := d_time d <= latest.

Lemma listing_prefix {B} prefix i (s : gmap string (object B)) : i ∈ listing prefix s -> HasPrefix (Key i) prefix = true.
Proof. intros Hi. apply elem_of_listing in Hi. naive_solver. Qed.

Section scan_safe.
Context (tokenize : string -> list token) (sha256 : string -> Hash).
Context (G : gmap string (object string) -> gmap string (object string) -> Prop) (G_refl : forall s, G s s).
Context (D : decision -> Prop) (grace : duration) (latest : time) (kind : harvestKind) (k : string)
  (ob : object string).
Local Abbreviation W := (wpi D (live grace latest kind k ob) G).
Local Abbreviation held := (collected tokenize kind (ob_body ob)).
Local Abbreviation i0 := (info_of k ob).

(** The memo's digest of the manifest is not another entry's. *)
Hypothesis no_collision : forall i, sha256 (digest_input i) = sha256 (digest_input i0) ->
  digest_input i = digest_input i0.

(** The memo holds the manifest's digest only when its references are collected. *)
Definition memo_ok (s : snapshot) : Prop := harvestDigest sha256 i0 ∈ sn_harvested s -> held (sn_refs s).

(** A step of the scan: the references grow and the memo stays right. *)
Definition grows (s s' : snapshot) : Prop :=
  sn_refs s ⊆ sn_refs s' /\ sn_stale s' = sn_stale s /\ memo_ok s'.

Lemma grows_refl s : memo_ok s -> grows s s.
Proof. done. Qed.

Lemma harvestManifest_wpi key refs kind' : job_key kind' key -> job_key kind k ->
  W (harvestManifest tokenize key refs kind') (fun r =>
    match r with
    | Ok refs' => refs ⊆ refs' /\ (key = k -> held refs')
    | Err _ => True
    end).
Proof.
  intros Hj Hk. unfold harvestManifest. wpi_step; [done|..].
  - intros s o (_ & Hs & _) Ho. cbn [wpi]. destruct (stream_refs tokenize kind' refs (ob_body o)) eqn:E; [|done].
    apply stream_refs_Some in E as [Hsub Hc]. split; [done|]. intros ->.
    assert (o = ob) as -> by congruence. by rewrite (job_key_kind kind kind' k Hk Hj).
  - intros s (_ & Hs & _) Hn. cbn [wpi]. split; [done|]. congruence.
  - done.
Qed.

Lemma harvest_job_wpi kind' i s : job_key kind' (Key i) -> job_key kind k -> memo_ok s ->
  W (harvest_job tokenize sha256 kind' i s) (fun r =>
    match r with
    | inl s' => grows s s' /\ (i = i0 -> held (sn_refs s'))
    | inr _ => True
    end).
Proof.
  intros Hj Hk Hm. unfold harvest_job. wpi_step. eapply wpi_mono; [|by apply harvestManifest_wpi].
  intros [refs|e]; cbn [wpi]; [|done]. intros [Hsub Hheld]. split.
  - split_and!; [done|done|]. intros [Hd|Hd]%elem_of_union; cbn [sn_refs].
    + apply elem_of_singleton in Hd. apply Hheld. symmetry in Hd.
      exact (digest_input_key _ _ (no_collision _ Hd)).
    + eapply collected_mono; [exact Hsub|by apply Hm].
  - intros ->. by apply Hheld.
Qed.

Lemma fresh_held s : memo_ok s -> fresh sha256 s i0 = true -> held (sn_refs s).
Proof. intros Hm Hf%bool_decide_eq_true. by apply Hm. Qed.

Lemma backup_step_wpi T i s : job_key harvestBackup (Key i) -> job_key kind k -> memo_ok s ->
  W (backup_step tokenize sha256 T i s) (fun r =>
    match r with
    | inl s' => grows s s' /\ (i = i0 -> dead_backup T k = false -> held (sn_refs s'))
    | inr _ => True
    end).
Proof.
  intros Hj Hk Hm. unfold backup_step. destruct (dead_backup T (Key i)) eqn:Ed.
  { cbn [wpi]. split; [by apply grows_refl|]. intros ->. cbn in Ed. congruence. }
  destruct (fresh sha256 s i) eqn:Ef.
  { cbn [wpi]. split; [by apply grows_refl|]. intros -> _. by apply fresh_held. }
  eapply wpi_mono; [|by apply harvest_job_wpi]. intros [s'|e]; naive_solver.
Qed.

(** The staging files a scan lists. *)
Definition staged (stale : list string) : Prop :=
  Forall (fun key => isStaleTempKey key = true /\ exists kind, job_key kind key) stale.

Lemma wal_step_wpi o cs prefix i s stale : job_key harvestWAL (Key i) -> job_key kind k ->
  memo_ok s -> staged stale ->
  W (wal_step tokenize sha256 o cs prefix i (s, stale)) (fun r =>
    match r with
    | inl (s', stale') => grows s s' /\ staged stale' /\
        (i = i0 -> manifest_key harvestWAL k -> held (sn_refs s'))
    | inr _ => True
    end).
Proof.
  intros Hj Hk Hm Hst. unfold wal_step. destruct (isStaleTempKey (Key i)) eqn:Es.
  { destruct (cs && _ && _); cbn [wpi]; (split_and!; [by apply grows_refl| |]).
    1: { apply Forall_app_2; [done|]. apply Forall_singleton. eauto. } 2: done.
    all: intros -> (_ & _ & Hx); cbn in Es; congruence. }
  destruct (HasSuffix (Key i) ".json") eqn:Ej; cbn [negb orb].
  2:{ cbn [wpi]. split_and!; [by apply grows_refl|done|]. intros -> (_ & Hx & _). cbn in Ej. congruence. }
  destruct (fresh sha256 s i) eqn:Ef.
  { cbn [wpi]. split_and!; [by apply grows_refl|done|]. intros -> _. by apply fresh_held. }
  wpi_step. eapply wpi_mono; [|by apply harvest_job_wpi]. intros [s'|e]; [|done]. cbn [wpi]. naive_solver.
Qed.

Lemma prefix_step_wpi o cs prefix s stale : prefix = "wal/" \/ prefix = "logical/" ->
  job_key kind k -> memo_ok s -> staged stale ->
  W (prefix_step tokenize sha256 o cs prefix (s, stale)) (fun r =>
    match r with
    | inl (s', stale') => grows s s' /\ staged stale' /\
        (HasPrefix k prefix = true -> manifest_key harvestWAL k -> held (sn_refs s'))
    | inr _ => True
    end).
Proof.
  intros Hpre Hk Hm Hst. unfold prefix_step.
  assert (forall l, (forall i, i ∈ l -> HasPrefix (Key i) prefix = true) ->
    W (for_ l (s, stale) (wal_step tokenize sha256 o cs prefix)) (fun r =>
      match r with
      | inl (s', stale') => grows s s' /\ staged stale' /\
          (i0 ∈ l -> manifest_key harvestWAL k -> held (sn_refs s'))
      | inr _ => True
      end)) as Hloop.
  { intros l Hl. apply (wpi_for _ _ _ l _ (fun pre st => grows s st.1 /\ staged st.2 /\
      (i0 ∈ pre -> manifest_key harvestWAL k -> held (sn_refs st.1)))).
    - split_and!; [by apply grows_refl|done|]. intros Hi. by apply not_elem_of_nil in Hi.
    - intros pre i post [s1 st1] El (H1 & H2 & H3). cbn [fst snd] in *.
      eapply wpi_mono; [|apply wal_step_wpi; try done].
      + intros [[s2 st2]|e]; [|done]. intros ((Ha & Hb & Hc) & H5 & H6). cbn [fst snd].
        destruct H1 as (H1a & H1b & H1c). split_and!; [|done|].
        * split_and!; [by etransitivity|congruence|done].
        * intros [Hi|Hi%list_elem_of_singleton]%elem_of_app Hmk; [|by apply H6].
          eapply collected_mono; [exact Ha|by apply H3].
      + assert (HasPrefix (Key i) prefix = true) by (apply Hl; rewrite El; apply elem_of_app; right; left).
        destruct Hpre as [->| ->]; [by left|by right].
      + apply H1.
    - by intros [s1 st1]. }
  wpi_step; [done|..].
  - intros st l (Hmk & Hs & _) Hl. cbn [fst snd]. wpi_step. eapply wpi_mono; [|apply Hloop].
    + intros [[s' st']|e]; [|done]. cbn [wpi]. intros (H1 & H2 & H3). split_and!; [done|done|].
      intros Hp Hmk'. apply H3; [|done]. rewrite Hl. apply elem_of_listing. by exists ob.
    + intros i Hi. eapply listing_prefix. by rewrite <- Hl.
  - intros st c l l' _ Hl. cbn [fst snd]. wpi_step. eapply wpi_mono; [|apply Hloop].
    + by intros [[s' st']|e].
    + intros i Hi. eapply listing_prefix. rewrite <- Hl. apply elem_of_app. by left.
Qed.

(** The clock is read only for a zero time. *)
Definition clock_ok (t : time) : Prop := t <> 0 \/ forall d, D d -> clock_until latest d.

Lemma effectiveNow_wpi t (Q : time -> Prop) : t <= latest -> clock_ok t ->
  (forall u, u <= latest -> Q u) -> W (effectiveNow t) Q.
Proof.
  intros Ht Hc HQ. unfold effectiveNow, Time.IsZero. destruct (Z.eqb_spec t 0) as [->|]; [|by apply HQ].
  destruct Hc as [Hc|Hc]; [done|]. apply wpi_now; [done|]. intros d Hd. by apply HQ, Hc.
Qed.

(** A tombstone the scan honours is not the manifest's. *)
Lemma live_not_dead o cutoff s l (T : gset string) : live grace latest kind k ob s -> l ≡ₚ listing "manifests/" s ->
  effectiveGrace (mo_opts o) = grace -> cutoff <= Time.Add latest (- grace) -> kind = harvestBackup ->
  (forall id, id ∈ T <-> exists i, i ∈ l /\ adds_tombstone o cutoff i = true /\ id = backup_of (Key i)) ->
  dead_backup T k = false.
Proof.
  intros (_ & _ & Hlive) Hl Hg Hcut Hkind HT. unfold dead_backup.
  destruct (5 <=? parts_of k)%nat eqn:E5; [|done]. apply Nat.leb_le in E5. cbn [andb].
  apply bool_decide_eq_false. rewrite HT. intros (i & Hi & Ha & Hb).
  rewrite Hl in Hi. apply elem_of_listing in Hi as (t & Ht & Hinfo & Hp).
  unfold adds_tombstone in Ha. apply andb_true_iff in Ha as [[Hsuf Hny]%andb_true_iff Hparts].
  destruct (Hlive Hkind E5 (Key i) t) as [Hpos Hy].
  { split_and!; try done. by apply Nat.leb_le. }
  rewrite Hg, (proj2 (Z.ltb_lt 0 grace)) in Hny by done. apply negb_true_iff in Hny. cbn [andb] in Hny.
  rewrite <- Hinfo in Hy. unfold young in *. apply orb_true_iff in Hy. apply orb_false_iff in Hny as [Hz Hz'].
  destruct Hy as [Hy|Hy]; [by rewrite Hz in Hy|]. unfold Time.After in *. apply Z.ltb_lt in Hy. apply Z.ltb_ge in Hz'. lia.
Qed.

Lemma manifest_job : manifest_key kind k -> job_key kind k.
Proof. destruct kind; cbn; naive_solver. Qed.

(** A scan that succeeds has the references of every manifest live throughout. *)
Lemma scan_wpi o cs s : memo_ok s -> job_key kind k -> co_Now (mo_opts o) <= latest ->
  clock_ok (co_Now (mo_opts o)) -> effectiveGrace (mo_opts o) = grace ->
  W (scan tokenize sha256 o cs s) (fun r =>
    match r with
    | Ok s' => held (sn_refs s') /\ memo_ok s' /\
               (if cs then staged (sn_stale s') else sn_stale s' = sn_stale s)
    | Err _ => True
    end).
Proof.
  intros Hm Hk Hnow Hclock Hg. unfold scan. wpi_step. apply effectiveNow_wpi; [done..|]. intros t Ht.
  rewrite Hg. set (cutoff := Time.Add t (- grace)).
  assert (cutoff <= Time.Add latest (- grace)) as Hcut by (unfold cutoff, Time.Add; lia).
  wpi_step; [done| |done]. intros st infos Hlive Hl.
  pose proof (manifests_scan_collects o cs cutoff infos) as Hspec.
  destruct (fold_left _ infos _) as [[T K] Z]. destruct Hspec as (HT & HK & HZ).
  wpi_step. apply (wpi_for _ _ _ K _ (fun pre s1 => grows s s1 /\ (i0 ∈ pre -> kind = harvestBackup -> held (sn_refs s1)))).
  - split; [by apply grows_refl|]. intros Hi. by apply not_elem_of_nil in Hi.
  - intros pre i post s1 El [(H1 & H2 & H3) Hpre]. eapply wpi_mono; [|apply backup_step_wpi; try done].
    + intros [s2|e]; [|done]. intros [(H4 & H5 & H6) H7].
      split; [split_and!; [by etransitivity|congruence|done]|].
      intros [Hi|Hi%list_elem_of_singleton]%elem_of_app Hkd.
      * eapply collected_mono; [exact H4|by apply Hpre].
      * apply H7; [done|]. by eapply live_not_dead.
    + assert (i ∈ K) as Hi by (rewrite El; apply elem_of_app; right; left).
      apply HK in Hi as [Hi _]. rewrite Hl in Hi. by eapply listing_prefix.
  - intros s1 [(H1 & H2 & H3) Hkeys]. wpi_step.
    apply (wpi_for _ _ _ ["wal/"; "logical/"] _ (fun pre st1 => grows s st1.1 /\ staged st1.2 /\
      (kind = harvestBackup -> held (sn_refs st1.1)) /\
      (forall p, p ∈ pre -> HasPrefix k p = true -> kind = harvestWAL -> held (sn_refs st1.1)))).
    + cbn [fst snd]. split_and!; [done| | |].
      * apply Forall_forall. intros key Hkey%HZ. destruct Hkey as [Hst (i & Hi & ->)]. split; [done|].
        exists harvestBackup. rewrite Hl in Hi. by eapply listing_prefix.
      * intros Hkd. apply Hkeys; [|done]. apply HK. destruct Hlive as (Hmk & Hs & _). rewrite Hkd in Hmk.
        destruct Hmk as [Hp Hsuf]. split; [|done]. rewrite Hl. apply elem_of_listing. by exists ob.
      * intros p Hp. by apply not_elem_of_nil in Hp.
    + intros pre p post [s2 st2] El ((G1 & G2 & G3) & Hst & Hb & Hw). cbn [fst snd] in *.
      eapply wpi_mono; [|apply prefix_step_wpi; try done].
      * intros [[s3 st3]|e]; [|done]. cbn [fst snd]. intros ((J1 & J2 & J3) & J4 & J5).
        split_and!; [split_and!; [by etransitivity|congruence|done]|done| |].
        { intros Hkd. eapply collected_mono; [exact J1|by apply Hb]. }
        intros q [Hq| ->%list_elem_of_singleton]%elem_of_app Hp Hkd.
        { eapply collected_mono; [exact J1|by eapply Hw]. }
        apply J5; [done|]. destruct Hlive as (Hmk & _). by rewrite Hkd in Hmk.
      * assert (p ∈ ["wal/"; "logical/"]) as Hp by (rewrite El; apply elem_of_app; right; left).
        rewrite !elem_of_cons in Hp. destruct Hp as [->|[->|Hp]]; [by left|by right|by apply not_elem_of_nil in Hp].
    + intros [s2 st2] ((G1 & G2 & G3) & Hst & Hb & Hw). cbn [fst snd wpi] in *.
      assert (held (sn_refs s2)) as Hheld.
      { destruct Hlive as (Hmk & _). destruct kind eqn:Ek; [by apply Hb|].
        destruct Hmk as [[Hp|Hp] _]; [apply (Hw "wal/")|apply (Hw "logical/")]; try done; rewrite !elem_of_cons; naive_solver. }
      destruct cs; split_and!; try done; [].
      unfold staged. cbn [sn_stale]. by rewrite stable_sort_perm.
Qed.
End scan_safe.

(** ** What is collected comes from a live manifest *)

Section collect_sound.
Context (tokenize : string -> list token) (sha256 : string -> Hash).
Context (D : decision -> Prop) (s0 : gmap string (object string)) (grace : duration) (latest : time).
Local Abbreviation W := (wpi D (fun s => s = s0) (fun s s' => s' = s)).

(** A manifest that is live at [latest] and lists the hash. *)
Definition references (h : Hash) : Prop :=
  exists kind k ob R, live grace latest kind k ob s0 /\
    stream_refs tokenize kind ∅ (ob_body ob) = Some R /\ h ∈ R.

Definition sourced (refs : gset Hash) : Prop := forall h, h ∈ refs -> references h.

Lemma harvest_job_sound kind i s : (forall ob, s0 !! Key i = Some ob -> live grace latest kind (Key i) ob s0) ->
  sourced (sn_refs s) ->
  W (harvest_job tokenize sha256 kind i s) (fun r =>
    match r with inl s' => sourced (sn_refs s') | inr _ => True end).
Proof.
  intros Hlive Hs. unfold harvest_job. wpi_step.
  apply (wpi_mono _ _ _ _ (fun r => match r with Ok refs => sourced refs | Err _ => True end));
    [by intros [refs|e]|].
  unfold harvestManifest. wpi_step; [done| |done|done].
  intros s1 ob -> Hob. cbn [wpi]. rewrite stream_refs_union.
  destruct (stream_refs tokenize kind ∅ (ob_body ob)) as [R|] eqn:E; [|done]. cbn [option_map wpi].
  intros h [Hh|Hh]%elem_of_union; [|by apply Hs]. exists kind, (Key i), ob, R. split_and!; auto.
Qed.

Lemma backup_step_sound cutoff o infos T i s :
  effectiveGrace (mo_opts o) = grace -> cutoff = Time.Add latest (- grace) ->
  infos ≡ₚ listing "manifests/" s0 ->
  (forall id, id ∈ T <-> exists i, i ∈ infos /\ adds_tombstone o cutoff i = true /\ id = backup_of (Key i)) ->
  i ∈ infos -> adds_key i = true -> sourced (sn_refs s) ->
  W (backup_step tokenize sha256 T i s) (fun r =>
    match r with inl s' => sourced (sn_refs s') | inr _ => True end).
Proof.
  intros Hg Hcut Hinfos HT Hi Hk Hs. unfold backup_step.
  destruct (dead_backup T (Key i)) eqn:Ed; [done|]. destruct (fresh sha256 s i); [done|].
  apply harvest_job_sound; [|done]. intros ob Hob. rewrite Hinfos in Hi. apply elem_of_listing in Hi as (_ & _ & _ & Hp).
  split_and!; [done|done|]. intros _ H5 key t (Ht & Hkp & Hsuf & Hparts & Hb).
  unfold dead_backup in Ed. rewrite (proj2 (Nat.leb_le _ _) H5) in Ed. apply bool_decide_eq_false in Ed.
  destruct (adds_tombstone o cutoff (info_of key t)) eqn:Ea.
  - destruct Ed. apply HT. exists (info_of key t). split_and!; [|done|by symmetry].
    rewrite Hinfos. apply elem_of_listing. by exists t.
  - unfold adds_tombstone in Ea. cbn [Key info_of] in Ea. rewrite Hsuf, (proj2 (Nat.leb_le _ _) Hparts) in Ea.
    cbn [andb] in Ea. rewrite andb_true_r in Ea. apply negb_false_iff in Ea.
    rewrite Hg, Hcut in Ea. apply andb_true_iff in Ea as [Hpos Hy]. by apply Z.ltb_lt in Hpos.
Qed.

Lemma wal_step_sound o cs prefix i s stale : prefix = "wal/" \/ prefix = "logical/" ->
  HasPrefix (Key i) prefix = true -> sourced (sn_refs s) ->
  W (wal_step tokenize sha256 o cs prefix i (s, stale)) (fun r =>
    match r with inl (s', _) => sourced (sn_refs s') | inr _ => True end).
Proof.
  intros Hpre Hp Hs. unfold wal_step. destruct (isStaleTempKey (Key i)) eqn:Es; [by destruct (_ && _)|].
  destruct (HasSuffix (Key i) ".json") eqn:Ej; cbn [negb orb]; [|done].
  destruct (fresh sha256 s i); [done|]. wpi_step. eapply wpi_mono; [|apply harvest_job_sound; [|exact Hs]].
  - by intros [s'|e].
  - intros ob Hob. split_and!; [|done|done]. split_and!; [|done|done]. destruct Hpre as [->| ->]; [by left|by right].
Qed.

Lemma prefix_step_sound o cs prefix s stale : prefix = "wal/" \/ prefix = "logical/" -> sourced (sn_refs s) ->
  W (prefix_step tokenize sha256 o cs prefix (s, stale)) (fun r =>
    match r with inl (s', _) => sourced (sn_refs s') | inr _ => True end).
Proof.
  intros Hpre Hs. unfold prefix_step.
  assert (forall l, (forall i, i ∈ l -> HasPrefix (Key i) prefix = true) ->
    W (for_ l (s, stale) (wal_step tokenize sha256 o cs prefix)) (fun r =>
      match r with inl st => sourced (sn_refs st.1) | inr _ => True end)) as Hloop.
  { intros l Hl. apply (wpi_for _ _ _ l _ (fun _ st => sourced (sn_refs st.1))); [done| |done].
    intros pre i post [s1 st1] El H1. eapply wpi_mono; [|apply wal_step_sound; [done| |exact H1]].
    - by intros [[s2 st2]|e'].
    - apply Hl. rewrite El. apply elem_of_app. right; left. }
  wpi_step; [done|..].
  - intros s1 l -> Hl. cbn [fst snd]. wpi_step. eapply wpi_mono; [|apply Hloop].
    + by intros [[s2 st2]|e].
    + intros i Hi. eapply listing_prefix. by rewrite <- Hl.
  - intros s1 c l l' -> Hl. cbn [fst snd]. wpi_step. eapply wpi_mono; [|apply Hloop].
    + by intros [[s2 st2]|e].
    + intros i Hi. eapply listing_prefix. rewrite <- Hl. apply elem_of_app. by left.
Qed.

Lemma collect_sound o cs s : co_Now (mo_opts o) = latest -> latest <> 0 -> effectiveGrace (mo_opts o) = grace ->
  sourced (sn_refs s) ->
  W (scan tokenize sha256 o cs s) (fun r => match r with Ok s' => sourced (sn_refs s') | Err _ => True end).
Proof.
  intros Hnow Hz Hg Hs. unfold scan, effectiveNow, Time.IsZero. rewrite Hnow.
  rewrite (proj2 (Z.eqb_neq latest 0) Hz). cbn [pbind]. wpi_step; [done| |done].
  intros s1 infos -> Hl. rewrite Hg. set (cutoff := Time.Add latest (- grace)).
  pose proof (manifests_scan_collects o cs cutoff infos) as Hspec.
  destruct (fold_left _ infos _) as [[T K] Z]. destruct Hspec as (HT & HK & _).
  wpi_step. apply (wpi_for _ _ _ K _ (fun _ s1 => sourced (sn_refs s1))); [done| |].
  - intros pre i post s1 El H1. assert (i ∈ K) as [Hi Ha]%HK by (rewrite El; apply elem_of_app; right; left).
    eapply wpi_mono; [|by eapply (backup_step_sound cutoff o infos)]. by intros [s2|e].
  - intros s1 H1. wpi_step. apply (wpi_for _ _ _ _ _ (fun _ st => sourced (sn_refs st.1))); [done| |].
    + intros pre p post [s2 st2] El H2. eapply wpi_mono; [|apply prefix_step_sound; [|exact H2]].
      * by intros [[s3 st3]|e].
      * assert (p ∈ ["wal/"; "logical/"]) as Hp by (rewrite El; apply elem_of_app; right; left).
        rewrite !elem_of_cons in Hp. destruct Hp as [->|[->|Hp]]; [by left|by right|by apply not_elem_of_nil in Hp].
    + intros [s2 st2] H2. cbn. by destruct cs.
Qed.
End collect_sound.

Lemma effectiveNow_reads t : reads_only (effectiveNow t).
Proof. unfold effectiveNow. by destruct (Time.IsZero t). Qed.

(** C29: the reference set is exactly what the live manifests list: whatever fails, a set is
    returned only when every live backup, WAL and logical manifest was read whole, it holds
    every hash one of them lists and no other, and the repository is left as it was. *)
Theorem CollectReferences_exact (tokenize : string -> list token) (sha256 : string -> Hash)
    (opts : CollectReferencesOptions) (ds : nat -> decision) (s : gmap string (object string)) :
  co_Now opts <> 0 ->
  (forall k ob i, s !! k = Some ob -> sha256 (digest_input i) = sha256 (digest_input (info_of k ob)) ->
     digest_input i = digest_input (info_of k ob)) ->
  let '(r, s') := run ds 0 (CollectReferencesWithOptions tokenize sha256 opts) s in
  s' = s /\ forall refs, r = Ok refs ->
    (forall kind k ob, live (effectiveGrace opts) (co_Now opts) kind k ob s ->
       exists R, stream_refs tokenize kind ∅ (ob_body ob) = Some R) /\
    forall h, h ∈ refs <-> references tokenize s (effectiveGrace opts) (co_Now opts) h.
Proof.
  intros Hnow Hsha. set (p := CollectReferencesWithOptions tokenize sha256 opts).
  set (D := fun _ : decision => True).
  assert (wp D p (fun r s' => (match r with Ok refs => sourced tokenize s (effectiveGrace opts) (co_Now opts) refs
                               | Err _ => True end) /\ s' = s) s) as Hsound.
  { apply (wpi_wp D (fun s' => s' = s) (fun s s' => s' = s)); [done|]. unfold p, CollectReferencesWithOptions.
    wpi_step. eapply wpi_mono; [|eapply collect_sound; [done|done|done|]].
    - by intros [sn|e].
    - intros h Hh. by apply not_elem_of_empty in Hh. }
  assert (forall kind k ob, live (effectiveGrace opts) (co_Now opts) kind k ob s ->
    wp D p (fun r _ => match r with Ok refs => collected tokenize kind (ob_body ob) refs | Err _ => True end) s) as Hall.
  { intros kind k ob Hl. eapply wp_mono; [|apply (wpi_wp D (live (effectiveGrace opts) (co_Now opts) kind k ob)
      (fun s s' => True) p (fun r => match r with Ok refs => collected tokenize kind (ob_body ob) refs | Err _ => True end)); [done|]].
    { by intros r s' [H _]. }
    unfold p, CollectReferencesWithOptions. wpi_step. eapply wpi_mono; [|eapply scan_wpi].
    - intros [sn|e]; [|done]. intros [H _]. exact H.
    - done.
    - intros i. apply Hsha. apply Hl.
    - intros Hin. by apply not_elem_of_empty in Hin.
    - apply manifest_job, Hl.
    - done.
    - by left.
    - done. }
  assert (forall j, D (ds j)) as HD by done.
  pose proof (wp_run D p _ s ds 0 HD Hsound) as Hrun.
  assert (forall kind k ob, live (effectiveGrace opts) (co_Now opts) kind k ob s ->
    match (run ds 0 p s).1 with Ok refs => collected tokenize kind (ob_body ob) refs | Err _ => True end) as Hcol
    by (intros kind k ob Hl; exact (wp_run D p _ s ds 0 HD (Hall kind k ob Hl))).
  destruct (run ds 0 p s) as [r s']. cbn [fst snd] in *. destruct Hrun as [Hr ->]. split; [done|].
  intros refs ->. split.
  - intros kind k ob Hl. destruct (Hcol kind k ob Hl) as (R & HR & _). by exists R.
  - intros h. split; [apply Hr|]. intros (kind & k & ob & R & Hl & HR & Hh).
    destruct (Hcol kind k ob Hl) as (R' & HR' & Hsub). apply Hsub. congruence.
Qed.

(** ** Orphans *)

(** The orphans of a listing, in its order. *)
Definition orphans_of (refs : gset Hash) (minAge : duration) (cutoff : time) (l : list ObjectInfo) : list Hash :=
  omap (orphan_of refs minAge cutoff) l.

Lemma orphan_scan_spec refs minAge cutoff limit l st :
  let all := orphans_of refs minAge cutoff l in
  fold_left (orphan_scan refs minAge cutoff limit) l st =
  (if limit <? 0 then st.1.1 ++ all else st.1.1,
   if 0 <? limit then fold_left offer all st.1.2 else st.1.2,
   st.2 + Z.of_nat (length all)).
Proof.
  revert st. unfold orphans_of. induction l as [|i l IH]; intros [[os sm] n]; cbn [fold_left omap list_omap fst snd].
  { rewrite app_nil_r, Z.add_0_r. by destruct (limit <? 0), (0 <? limit). }
  rewrite IH. unfold orphan_scan. destruct (orphan_of refs minAge cutoff i) as [h|]; [|done].
  cbn [fst snd fold_left length]. f_equal; [|lia].
  destruct (limit <? 0), (0 <? limit); try rewrite <- app_assoc; reflexivity.
Qed.

(** The cutoff matters only with a minimum age. *)
Lemma orphans_of_cutoff refs minAge c c' l : ((0 <? minAge) = true -> c = c') ->
  orphans_of refs minAge c l = orphans_of refs minAge c' l.
Proof.
  intros Hc. unfold orphans_of. induction l as [|i l IH]; cbn [omap list_omap]; [done|].
  rewrite IH. unfold orphan_of. destruct (0 <? minAge); [by rewrite Hc|done].
Qed.

(** What a caller with a limit gets of all the orphans. *)
Definition limited (limit : Z) (all : list Hash) : list Hash :=
  if limit <? 0 then sortHashes all else take (Z.to_nat limit) (sortHashes all).

#[export] Instance sortHashes_proper : Proper (Permutation ==> eq) sortHashes.
Proof. intros l l'. apply sortHashes_eq. Qed.

#[export] Instance limited_proper limit : Proper (Permutation ==> eq) (limited limit).
Proof. intros l l' H. unfold limited. by rewrite (sortHashes_eq _ _ H). Qed.

(** The orphans reported are exactly the stored chunks no manifest references and old
    enough to go, sorted, or the least [limit] of them, with the count of them all; a listing
    that fails reports nothing, and the search changes nothing. *)
Theorem FindOrphansLimit_exact (refs : gset Hash) (opts : FindOrphansOptions) (limit : Z)
    (ds : nat -> decision) (s : gmap string (object string)) :
  fo_Now opts <> 0 ->
  let cutoff := Time.Add (fo_Now opts) (- effectiveMinAge opts) in
  let all := orphans_of refs (effectiveMinAge opts) cutoff (listing "chunks/sha256/" s) in
  let '(r, s') := run ds 0 (FindOrphansLimit refs opts limit) s in
  s' = s /\
  match r with
  | Ok (orphans, total) => orphans = limited limit all /\ total = Z.of_nat (length all)
  | Err _ => d_fault (ds 0%nat) <> Normal
  end.
Proof.
  intros Hnow cutoff all.
  assert (forall l, l ≡ₚ listing "chunks/sha256/" s ->
    forall c, ((0 <? effectiveMinAge opts) = true -> c = cutoff) ->
    orphans_of refs (effectiveMinAge opts) c l ≡ₚ all) as Hperm.
  { intros l Hl c Hc. rewrite (orphans_of_cutoff _ _ c cutoff) by done. unfold all, orphans_of. by rewrite Hl. }
  assert (forall l c, orphans_of refs (effectiveMinAge opts) c l ≡ₚ all ->
    let '(orphans, sample, total) := fold_left (orphan_scan refs (effectiveMinAge opts) c limit) l
      ([], {| hs_limit := limit; hs_buf := [] |}, 0) in
    sortHashes (if 0 <=? limit then sorted sample else orphans) = limited limit all /\
    total = Z.of_nat (length all)) as Hres.
  { intros l c Hall. rewrite orphan_scan_spec. cbn [fst snd]. rewrite <- Hall. split; [|done].
    unfold limited. destruct (limit <? 0) eqn:En; zbool.
    - by rewrite (proj2 (Z.leb_gt 0 limit)) by lia.
    - rewrite (proj2 (Z.leb_le 0 limit)) by lia. destruct (0 <? limit) eqn:Ep; zbool.
      + rewrite (proj1 (hashSample_least limit _ Ep)). apply sortHashes_take.
      + assert (limit = 0) as -> by lia. done. }
  assert (forall c i, ((0 <? effectiveMinAge opts) = true -> c = cutoff) ->
    let '(r, s') := run ds i (let* l := sList "chunks/sha256/" in
      match l with
      | (_, Some e) => Ret (Err e)
      | (infos, None) =>
          let '(orphans, sample, total) := fold_left (orphan_scan refs (effectiveMinAge opts) c limit) infos
            ([], {| hs_limit := limit; hs_buf := [] |}, 0) in
          Ret (Ok (sortHashes (if 0 <=? limit then sorted sample else orphans), total))
      end) s in
    s' = s /\ match r with
              | Ok (orphans, total) => orphans = limited limit all /\ total = Z.of_nat (length all)
              | Err _ => d_fault (ds i) <> Normal
              end) as Hlist.
  { intros c i Hc. cbn [pbind sList call run]. unfold exec. destruct (d_fault (ds i)) eqn:F; [|by cbn..].
    pose proof (Hres _ c (Hperm _ (d_order_perm (ds i) _) c Hc)) as H. cbn [run].
    destruct (fold_left _ _ _) as [[os sm] n]. by cbn. }
  unfold FindOrphansLimit, effectiveNow, Time.IsZero. rewrite (proj2 (Z.eqb_neq _ _) Hnow).
  destruct (0 <? effectiveMinAge opts) eqn:E; cbn [pbind]; by apply Hlist.
Qed.

(** ** A small repository

    One WAL manifest, which lists the chunk of hash 1, and the chunks of hashes 1 and 2. *)

Definition healthy_now (t : time) : nat -> decision := fun _ =>
  {| d_fault := Normal; d_time := t; d_order := fun l => l; d_order_perm := fun l => Permutation_refl l;
     d_listed := 0 |}.

Definition demo_hash : string := Hash_String 1.

Definition demo_tokenize (body : string) : list token :=
  [TOpenObj; TStr "chunks"; TOpenArr; TOpenObj; TStr "hash"; TStr demo_hash; TCloseObj; TCloseArr; TCloseObj].

(** A digest without collisions. *)
Definition demo_sha256 (s : string) : Hash := Z.pos (countable.encode s).

Lemma demo_sha256_inj a b : demo_sha256 a = demo_sha256 b -> a = b.
Proof. intros [= H]. by apply countable.encode_inj in H. Qed.

Definition demo_manifest_key : string := "wal/db1/00000001/000000010000000000000003.json".
Definition demo_object : object string := Object "" 0 5 0 WORMNone.

Definition demo_repo : gmap string (object string) :=
  <[demo_manifest_key := demo_object]> (<[ChunkKey 1 := demo_object]> (<[ChunkKey 2 := demo_object]> ∅)).

Lemma demo_live grace latest : live grace latest harvestWAL demo_manifest_key demo_object demo_repo.
Proof. split_and!; [split_and!; [by left|done|done]|apply lookup_insert_eq|done]. Qed.

Lemma demo_refs : exists R, stream_refs demo_tokenize harvestWAL ∅ (ob_body demo_object) = Some R /\ 1 ∈ R.
Proof. eexists. split; [reflexivity|]. by apply (bool_decide_eq_true_1 (1 ∈ _)). Qed.

Lemma demo_refs_all R : stream_refs demo_tokenize harvestWAL ∅ (ob_body demo_object) = Some R -> 1 ∈ R.
Proof. destruct demo_refs as (R' & -> & HR'). by intros [= <-]. Qed.

Definition demo_collect : CollectReferencesOptions := {| co_TombstoneGrace := 0; co_Now := 100 |}.

Lemma CollectReferences_exact_witness : exists refs,
  (run (healthy_now 100) 0 (CollectReferencesWithOptions demo_tokenize demo_sha256 demo_collect) demo_repo).1
    = Ok refs /\ 1 ∈ refs.
Proof.
  pose proof (CollectReferences_exact demo_tokenize demo_sha256 demo_collect (healthy_now 100) demo_repo) as H.
  destruct (run _ _ _ demo_repo) as [r s'] eqn:E. assert (exists refs, r = Ok refs) as [refs ->].
  { change r with (r, s').1. rewrite <- E. eexists. vm_compute. reflexivity. }
  exists refs. split; [reflexivity|]. refine (proj2 (proj2 (proj2 (H _ _) refs eq_refl) 1) _).
  - discriminate.
  - intros k ob i _ Hi. by apply demo_sha256_inj.
  - destruct demo_refs as (R & HR & H1). exists harvestWAL, demo_manifest_key, demo_object, R.
    split_and!; [apply demo_live|exact HR|exact H1].
Defined.

Lemma FindOrphansLimit_exact_witness :
  (run (healthy_now 100) 0 (FindOrphansLimit {[1]} {| fo_MinAge := -1; fo_Now := 100 |} 10) demo_repo).1
    = Ok ([2], 1).
Proof.
  pose proof (FindOrphansLimit_exact {[1]} {| fo_MinAge := -1; fo_Now := 100 |} 10 (healthy_now 100)
    demo_repo ltac:(discriminate)) as H.
  destruct (run _ _ _ demo_repo) as [r s']. destruct H as [_ H]. destruct r as [[os n]|e]; cbn [fst].
  - destruct H as [-> ->]. vm_compute. reflexivity.
  - by destruct H.
Defined.
