(* ===== verification/GcFence.v ===== *)
(** The fence between garbage collection and committing writers
    (internal/repo/gcfence.go, and the run record of internal/repo/gcsweep.go).

    A collection publishes a run record before it reads anything; a writer that
    deduplicates against stored chunks reads the records, pins what it adopted
    while a run is live, and waits until every live run has started another batch.
    The heartbeat of a run is another process of its store; a sleep ends no
    earlier than asked, so the clock read after one is at least that much later. *)
From S2P Require Import Prelude GoString Storage Concur Hash Commit Timeline.

Local Open Scope string_scope.
Local Open Scope list_scope.
Local Open Scope Z_scope.
#[local] Arguments String.append : simpl nomatch.

Definition gcRunsPrefix : string := "gc/runs/".
Definition gcPinsPrefix : string := "gc/pins/".

Definition GCFenceSettle : duration := 60 * Time.Second.
Definition GCFenceWriterBudget : duration := 30 * Time.Second.
Definition GCRunTTL : duration := 2 * Time.Minute.
Definition GCPinTTL : duration := 6 * Time.Hour.
Definition GCFenceMaxWait : duration := 5 * Time.Minute.
Definition gcFencePoll : duration := 250 * Time.Millisecond.
Definition gcRunRecordRetention : duration := 24 * Time.Hour.

(** ** Records *)

Record gcRunRecord := {
  rr_Schema : string;
  rr_RunID : string;
  rr_State : string;
  rr_Seq : Z;
  rr_StartedAt : time;
  rr_HeartbeatAt : time;
  rr_ExpiresAt : time
}.

Definition gcRunSchema : string := "pg_hardstorage.gc_run.v1".

Definition liveAt (r : gcRunRecord) (now : time) : bool :=
  String.eqb (rr_State r) "running" && Time.Before now (rr_ExpiresAt r).

Record gcPin := {
  pin_Schema : string;
  pin_Owner : string;
  pin_CreatedAt : time;
  pin_Hashes : list Hash
}.

Definition gcPinSchema : string := "pg_hardstorage.gc_pin.v1".

Definition run_tuple (r : gcRunRecord) : string * string * string * Z * time * time * time :=
  (rr_Schema r, rr_RunID r, rr_State r, rr_Seq r, rr_StartedAt r, rr_HeartbeatAt r, rr_ExpiresAt r).

Definition run_untuple (t : string * string * string * Z * time * time * time) : gcRunRecord :=
  let '(s, id, st, n, a, b, c) := t in
  {| rr_Schema := s; rr_RunID := id; rr_State := st; rr_Seq := n; rr_StartedAt := a;
     rr_HeartbeatAt := b; rr_ExpiresAt := c |}.

#[export] Instance gcRunRecord_eq_dec : EqDecision gcRunRecord.
Proof. solve_decision. Defined.

#[export] Instance gcRunRecord_countable : Countable gcRunRecord.
Proof. apply (inj_countable' run_tuple run_untuple). by intros []. Defined.

#[export] Instance gcPin_eq_dec : EqDecision gcPin.
Proof. solve_decision. Defined.

#[export] Instance gcPin_countable : Countable gcPin.
Proof.
  apply (inj_countable' (fun p => (pin_Schema p, pin_Owner p, pin_CreatedAt p, pin_Hashes p))
    (fun '(s, o, c, h) => {| pin_Schema := s; pin_Owner := o; pin_CreatedAt := c; pin_Hashes := h |})).
  by intros [].
Defined.

(** [getJSON]: the backend's refusal, or a body that is too large or malformed. *)
Inductive get_err := GetStore (e : serr) | GetBad.

Definition get_is_not_found (e : get_err) : bool :=
  match e with GetStore ErrNotFound => true | _ => false end.

Section json.
Context {T : Type} `{C : Codec string T}.

Definition putJSON (key : string) (v : T) : prog string (result serr unit) :=
  let body := encode v in
  sPut key body {| IfNotExists := false; ContentLength := size_of body;
                   RetainUntil := Time.zero; RetentionMode := WORMNone |}.

Definition getJSON (key : string) : prog string (result get_err T) :=
  let* r := sGet key in
  match r with
  | Err e => Ret (Err (GetStore e))
  | Ok body => match ReadAllLimited body MaxMetadataBytes with
               | None => Ret (Err GetBad)
               | Some b => match decode b with
                           | Some v => Ret (Ok v)
                           | None => Ret (Err GetBad)
                           end
               end
  end.
End json.

Section fence.
Context `{CR : Codec string gcRunRecord} `{CP : Codec string gcPin}.

(** ** Reading the run records *)

Definition set_RunID (r : gcRunRecord) (id : string) : gcRunRecord :=
  {| rr_Schema := rr_Schema r; rr_RunID := id; rr_State := rr_State r; rr_Seq := rr_Seq r;
     rr_StartedAt := rr_StartedAt r; rr_HeartbeatAt := rr_HeartbeatAt r; rr_ExpiresAt := rr_ExpiresAt r |}.

(** A record nobody can read counts as a run, live for a TTL from its last write. *)
Definition unreadable_run (key : string) (expires : time) : gcRunRecord :=
  {| rr_Schema := ""; rr_RunID := key; rr_State := "running"; rr_Seq := 0; rr_StartedAt := 0;
     rr_HeartbeatAt := 0; rr_ExpiresAt := expires |}.

Definition run_step (i : ObjectInfo) (out : gmap string gcRunRecord)
    : prog string (gmap string gcRunRecord + False) :=
  if negb (HasSuffix (Key i) ".json") then Ret (inl out)
  else
    let put r := <[Key i := if String.eqb (rr_RunID r) "" then set_RunID r (Key i) else r]> out in
    let* r := getJSON (T := gcRunRecord) (Key i) in
    match r with
    | Ok r => Ret (inl (put r))
    | Err e =>
        if get_is_not_found e then Ret (inl out)
        else if Time.IsZero (ModTime i) then
          let* t := now in
          Ret (inl (put (unreadable_run (Key i) (Time.Add t GCRunTTL))))
        else Ret (inl (put (unreadable_run (Key i) (Time.Add (ModTime i) GCRunTTL))))
    end.

Definition listGCRuns : prog string (result serr (gmap string gcRunRecord)) :=
  let* l := sList gcRunsPrefix in
  let* r := for_ l.1 ∅ run_step in
  match r, l.2 with
  | inr bot, _ => match bot : False with end
  | inl _, Some e => Ret (Err e)
  | inl out, None => Ret (Ok out)
  end.

(** ** The writer's side *)

Record CommitFence := {
  cf_src : list Hash;
  cf_owner : string;
  cf_start : time;
  cf_seenRuns : gset string;
  cf_pinned : bool;
  cf_pinnedAt : time
}.

Inductive fence_err :=
| ReadRuns (e : serr)
| WritePin (e : serr)
| WaitTimeout
| AdoptedChunkSwept (nMissing : Z)
| VerifyFailed
| CommitFailed
| OutOfFuel.

Definition pinPartHashes : Z := Z.shiftl 1 20.

Definition pin_key (id : string) (parts : Z) : string :=
  if 0 <? parts then gcPinsPrefix +:+ id +:+ "-p" +:+ fmt_dec 6 parts +:+ ".json"
  else gcPinsPrefix +:+ id +:+ ".json".

(** [flush]: one pin object with the hashes gathered so far. *)
Definition flush_pin (id owner : string) (created : time) (part : list Hash) (parts : Z)
    : prog string (list Hash * Z + fence_err) :=
  match part with
  | [] => Ret (inl (part, parts))
  | _ =>
      let* r := putJSON (pin_key id parts)
        {| pin_Schema := gcPinSchema; pin_Owner := owner; pin_CreatedAt := created; pin_Hashes := part |} in
      match r with
      | Err e => Ret (inr (WritePin e))
      | Ok _ => Ret (inl ([], parts + 1))
      end
  end.

Definition pin_step (id owner : string) (created : time) (h : Hash) (st : list Hash * Z)
    : prog string (list Hash * Z + fence_err) :=
  let '(part, parts) := st in
  let part := part ++ [h] in
  if pinPartHashes <=? Z.of_nat (length part) then flush_pin id owner created part parts
  else Ret (inl (part, parts)).

Definition write_pins (id owner : string) (hashes : list Hash) : prog string (option fence_err) :=
  let* created := now in
  let* r := for_ hashes ([], 0) (pin_step id owner created) in
  match r with
  | inr e => Ret (Some e)
  | inl (part, parts) =>
      let* r := flush_pin id owner created part parts in
      match r with
      | inr e => Ret (Some e)
      | inl _ => Ret None
      end
  end.

(** One look at the runs waited for: those that ended, expired or advanced are dropped. *)
Definition poll_step (now : time) (e : string * Z) (waitFor : gmap string Z)
    : prog string (gmap string Z + False) :=
  let '(k, seq) := e in
  let* r := getJSON (T := gcRunRecord) k in
  match r with
  | Err e => Ret (inl (if get_is_not_found e then delete k waitFor else waitFor))
  | Ok r => Ret (inl (if negb (liveAt r now) || (seq <? rr_Seq r) then delete k waitFor else waitFor))
  end.

(** The polling loop; [prev] is the last clock reading. *)
Fixpoint wait_loop (fuel : nat) (deadline prev : time) (waitFor : gmap string Z)
    : prog string (option fence_err) :=
  if bool_decide (waitFor = ∅) then Ret None
  else
    match fuel with
    | O => Ret (Some OutOfFuel)
    | S fuel =>
        let* t := now in
        let t := Z.max t prev in
        if Time.After t deadline then Ret (Some WaitTimeout)
        else
          let* t' := now in
          let t' := Z.max t' (t + gcFencePoll) in
          let* r := for_ (map_to_list waitFor) waitFor (poll_step t') in
          match r with
          | inr bot => match bot : False with end
          | inl waitFor => wait_loop fuel deadline t' waitFor
          end
    end.

Definition wait_fuel : nat := Z.to_nat (GCFenceMaxWait / gcFencePoll + 2).

Definition with_pin (f : CommitFence) (at_ : time) : CommitFence :=
  {| cf_src := cf_src f; cf_owner := cf_owner f; cf_start := cf_start f; cf_seenRuns := cf_seenRuns f;
     cf_pinned := true; cf_pinnedAt := at_ |}.

Definition with_seen (f : CommitFence) (runs : gmap string gcRunRecord) : CommitFence :=
  {| cf_src := cf_src f; cf_owner := cf_owner f; cf_start := cf_start f;
     cf_seenRuns := dom runs ∪ cf_seenRuns f; cf_pinned := cf_pinned f; cf_pinnedAt := cf_pinnedAt f |}.

Definition live_runs (now : time) (runs : gmap string gcRunRecord) : gmap string Z :=
  rr_Seq <$> filter (fun kr => liveAt kr.2 now = true) runs.

Definition pinAndWait (id : string) (f : CommitFence) : prog string (result fence_err CommitFence) :=
  let* pinned := (if cf_pinned f then Ret (Ok f)
                  else
                    let* e := write_pins id (cf_owner f) (cf_src f) in
                    match e with
                    | Some e => Ret (Err e)
                    | None => let* t := now in Ret (Ok (with_pin f t))
                    end) in
  match pinned with
  | Err e => Ret (Err e)
  | Ok f =>
      let* runs := listGCRuns in
      match runs with
      | Err e => Ret (Err (ReadRuns e))
      | Ok runs =>
          let* t := now in
          let f := with_seen f runs in
          let* t' := now in
          let t' := Z.max t' t in
          let* e := wait_loop wait_fuel (Time.Add t' GCFenceMaxWait) t' (live_runs t runs) in
          match e with
          | Some e => Ret (Err e)
          | None => Ret (Ok f)
          end
      end
  end.

Definition BeginCommitFenceSource (id owner : string) (src : list Hash)
    : prog string (result fence_err CommitFence) :=
  let* start := now in
  let f := {| cf_src := src; cf_owner := owner; cf_start := start; cf_seenRuns := ∅;
              cf_pinned := false; cf_pinnedAt := 0 |} in
  match src with
  | [] => Ret (Ok f)
  | _ =>
      let* runs := listGCRuns in
      match runs with
      | Err e => Ret (Err (ReadRuns e))
      | Ok runs =>
          let* t := now in
          let f := with_seen f runs in
          if bool_decide (live_runs t runs = ∅) then Ret (Ok f) else pinAndWait id f
      end
  end.

Definition BeginCommitFence (id owner : string) (adopted : list Hash) := BeginCommitFenceSource id owner adopted.

(** [Confirm]'s look at the adopted chunks: how many are gone. *)
Definition confirm_step (h : Hash) (nMissing : Z) : prog string (Z + False) :=
  let* r := sStat (B := string) (ChunkKey h) in
  match r with
  | Err ErrNotFound => Ret (inl (nMissing + 1))
  | _ => Ret (inl nMissing)
  end.

Definition count_missing (hashes : list Hash) : prog string Z :=
  let* r := for_ hashes 0 confirm_step in
  match r with
  | inl n => Ret n
  | inr bot => match bot : False with end
  end.

(** A run this fence has not seen, or one that is live. *)
Definition run_started (f : CommitFence) (now : time) (runs : gmap string gcRunRecord) : bool :=
  negb (bool_decide (dom runs ⊆ cf_seenRuns f)) || negb (bool_decide (live_runs now runs = ∅)).

Definition recheck (id : string) (f : CommitFence) : prog string (option fence_err) :=
  let* r := pinAndWait id f in
  match r with
  | Err e => Ret (Some e)
  | Ok f =>
      let* nMissing := count_missing (cf_src f) in
      Ret (if 0 <? nMissing then Some (AdoptedChunkSwept nMissing) else None)
  end.

Definition Confirm (id : string) (f : CommitFence) : prog string (option fence_err) :=
  match cf_src f with
  | [] => Ret None
  | _ =>
      let* t := now in
      let elapsed := Time.Sub t (cf_start f) in
      let* covered := (if cf_pinned f
                       then let* t := now in Ret (Time.Sub t (cf_pinnedAt f) <? GCPinTTL / 2)
                       else Ret (elapsed <=? GCFenceWriterBudget)) in
      if covered then Ret None
      else
        let* runs := listGCRuns in
        match runs with
        | Err e => Ret (Some (ReadRuns e))
        | Ok runs =>
            let* t := now in
            if negb (run_started f t runs) && (elapsed <? gcRunRecordRetention / 2) then Ret None
            else recheck id f
        end
  end.

(** ** The collection's side *)

(** [gcPinSet]: the pin objects read and the hashes they hold. *)
Record gcPinSet := { ps_read : gset string; ps_hashes : gset Hash }.

Definition pinSet0 : gcPinSet := {| ps_read := ∅; ps_hashes := ∅ |}.

Definition refresh_step (now : time) (i : ObjectInfo) (p : gcPinSet)
    : prog string (gcPinSet + get_err) :=
  if bool_decide (Key i ∈ ps_read p) || negb (HasSuffix (Key i) ".json") then Ret (inl p)
  else
    let* r := getJSON (T := gcPin) (Key i) in
    match r with
    | Err e => if get_is_not_found e then Ret (inl p) else Ret (inr e)
    | Ok pin =>
        Ret (inl {| ps_read := {[Key i]} ∪ ps_read p;
                    ps_hashes := if Time.Sub now (pin_CreatedAt pin) <? GCPinTTL
                                 then list_to_set (pin_Hashes pin) ∪ ps_hashes p else ps_hashes p |})
    end.

Definition refresh (now : time) (p : gcPinSet) : prog string (result get_err gcPinSet) :=
  let* l := sList gcPinsPrefix in
  let* r := for_ l.1 p (refresh_step now) in
  match r, l.2 with
  | inr e, _ => Ret (Err e)
  | inl _, Some e => Ret (Err (GetStore e))
  | inl p, None => Ret (Ok p)
  end.

(** [gcRun]: the run record of this collection and its last refresh. *)
Record gcRun := { gr_key : string; gr_rec : gcRunRecord; gr_publishedAt : time; gr_lastBeat : time }.

Definition with_rec (r : gcRun) (rec : gcRunRecord) : gcRun :=
  {| gr_key := gr_key r; gr_rec := rec; gr_publishedAt := gr_publishedAt r; gr_lastBeat := gr_lastBeat r |}.

Definition stamped (rec : gcRunRecord) (t : time) : gcRunRecord :=
  {| rr_Schema := rr_Schema rec; rr_RunID := rr_RunID rec; rr_State := rr_State rec; rr_Seq := rr_Seq rec;
     rr_StartedAt := rr_StartedAt rec; rr_HeartbeatAt := t; rr_ExpiresAt := Time.Add t GCRunTTL |}.

(** [write]: the record with a fresh heartbeat; its memory keeps the stamps of a failed write. *)
Definition gc_write (r : gcRun) : prog string (gcRun * option serr) :=
  let* t := now in
  let r := with_rec r (stamped (gr_rec r) t) in
  let* w := putJSON (gr_key r) (gr_rec r) in
  match w with
  | Err e => Ret (r, Some e)
  | Ok _ =>
      let* t := now in
      Ret ({| gr_key := gr_key r; gr_rec := gr_rec r; gr_publishedAt := gr_publishedAt r; gr_lastBeat := t |}, None)
  end.

Definition run_record (id state : string) (start : time) : gcRunRecord :=
  {| rr_Schema := gcRunSchema; rr_RunID := id; rr_State := state; rr_Seq := 0; rr_StartedAt := start;
     rr_HeartbeatAt := 0; rr_ExpiresAt := 0 |}.

Definition startGCRun (id : string) (start : time) : prog string (result serr gcRun) :=
  let* w := gc_write {| gr_key := gcRunsPrefix +:+ id +:+ ".json"; gr_rec := run_record id "running" start;
                        gr_publishedAt := 0; gr_lastBeat := 0 |} in
  match w with
  | (_, Some e) => Ret (Err e)
  | (r, None) =>
      let* t := now in
      Ret (Ok {| gr_key := gr_key r; gr_rec := gr_rec r; gr_publishedAt := t; gr_lastBeat := gr_lastBeat r |})
  end.

(** One tick of the heartbeat; a failed write is left to [checkFresh]. *)
Definition heartbeat (r : gcRun) : prog string gcRun :=
  let* w := gc_write r in Ret w.1.

Definition bump_seq (rec : gcRunRecord) : gcRunRecord :=
  {| rr_Schema := rr_Schema rec; rr_RunID := rr_RunID rec; rr_State := rr_State rec;
     rr_Seq := i64 (rr_Seq rec + 1); rr_StartedAt := rr_StartedAt rec;
     rr_HeartbeatAt := rr_HeartbeatAt rec; rr_ExpiresAt := rr_ExpiresAt rec |}.

Definition advance (r : gcRun) : prog string (gcRun * option serr) := gc_write (with_rec r (bump_seq (gr_rec r))).

Definition checkFresh (r : gcRun) : prog string bool :=
  let* t := now in Ret (negb (GCRunTTL / 2 <? Time.Sub t (gr_lastBeat r))).

Definition finished (rec : gcRunRecord) : gcRunRecord :=
  {| rr_Schema := rr_Schema rec; rr_RunID := rr_RunID rec; rr_State := "finished"; rr_Seq := rr_Seq rec;
     rr_StartedAt := rr_StartedAt rec; rr_HeartbeatAt := rr_HeartbeatAt rec; rr_ExpiresAt := rr_ExpiresAt rec |}.

Definition reap_pin (now : time) (i : ObjectInfo) (_ : unit) : prog string (unit + False) :=
  let* r := getJSON (T := gcPin) (Key i) in
  match r with
  | Err _ => Ret (inl ())
  | Ok pin => if GCPinTTL <? Time.Sub now (pin_CreatedAt pin)
              then let* _ := sDelete (Key i) in Ret (inl ()) else Ret (inl ())
  end.

Definition reap_run (now : time) (own : string) (i : ObjectInfo) (_ : unit) : prog string (unit + False) :=
  if String.eqb (Key i) own then Ret (inl ())
  else
    let* r := getJSON (T := gcRunRecord) (Key i) in
    match r with
    | Err _ => Ret (inl ())
    | Ok rec => if negb (liveAt rec now) && (gcRunRecordRetention <? Time.Sub now (rr_HeartbeatAt rec))
                then let* _ := sDelete (Key i) in Ret (inl ()) else Ret (inl ())
    end.

(** [finish]: the record is closed, expired pins and old records are reaped. *)
Definition finish (r : gcRun) : prog string unit :=
  let* _ := gc_write (with_rec r (finished (gr_rec r))) in
  let* t := now in
  let* pins := sList gcPinsPrefix in
  let* _ := for_ pins.1 () (reap_pin t) in
  let* runs := sList gcRunsPrefix in
  let* _ := for_ runs.1 () (reap_run t (gr_key r)) in
  Ret ().
End fence.

(** ** Reading a record writes nothing *)

Lemma getJSON_reads {T} `{C : Codec string T} key : reads_only (getJSON (T := T) key).
Proof.
  unfold getJSON. cbn. split; [done|]. intros [body|e]; [|done].
  destruct (ReadAllLimited _ _); [|done]. by destruct (decode _).
Qed.
