(* ===== verification/GcSweep.v ===== *)
(** The apply phase of garbage collection (internal/repo/gcsweep.go): the orphan log,
    the fenced delete batches and the pass over stale staging files.

    The hooks tests install, the local spill files and the optional interfaces of the
    filesystem backend (lazy deletes, empty directories, staging leftovers) are not
    modelled; deletions of one batch run in its order.  [beats] says before which batches
    the heartbeat's ticker fires. *)
From S2P Require Import Prelude GoString Storage Concur Hash Commit Timeline Json WalPrune Gc GcFence.

Local Open Scope string_scope.
Local Open Scope list_scope.
Local Open Scope Z_scope.

(** ** The orphan log *)

Record orphanInfo := { oi_hash : Hash; oi_size : Z }.

(** The orphans in memory and, once that many were spilled, those in the file. *)
Record orphanLog := { ol_file : option (list orphanInfo); ol_mem : list orphanInfo }.

Definition orphanLog0 : orphanLog := {| ol_file := None; ol_mem := [] |}.

Definition sweepOrphanMemRecords : Z := Z.shiftl 1 20.

Definition log_add (l : orphanLog) (o : orphanInfo) : orphanLog :=
  let mem := ol_mem l ++ [o] in
  if Z.of_nat (length mem) <? sweepOrphanMemRecords then {| ol_file := ol_file l; ol_mem := mem |}
  else {| ol_file := Some (default [] (ol_file l) ++ mem); ol_mem := [] |}.

(** A list in runs of [n], the last one shorter. *)
Fixpoint runs_of {A} (fuel : nat) (n : nat) (l : list A) : list (list A) :=
  match fuel, l with
  | O, _ | _, [] => []
  | S fuel, _ => take n l :: runs_of fuel n (drop n l)
  end.

Definition oi_less (a b : orphanInfo) : bool := hash_less (oi_hash a) (oi_hash b).

(** The batches [batches] hands out: those of the file in the order they were logged, then
    the ones in memory, sorted when nothing was spilled. *)
Definition log_batches (n : nat) (l : orphanLog) : list (list orphanInfo) :=
  match ol_file l with
  | None => let mem := stable_sort oi_less (ol_mem l) in runs_of (length mem) n mem
  | Some f => runs_of (length f) n f ++ runs_of (length (ol_mem l)) n (ol_mem l)
  end.

(** ** Options and result *)

Record SweepOptions := {
  so_TombstoneGrace : duration;
  so_MinChunkAge : duration;
  so_Apply : bool;
  so_LiveLeases : option (prog string (result serr (list string)));
  so_BatchSize : Z;
  so_BatchDuration : duration
}.

Definition SweepOrphanSampleLimit : Z := 1024.
Definition maxSweepFailures : nat := 1024.

Record SweepResult := {
  sw_RefCount : Z;
  sw_OrphanCount : Z;
  sw_Orphans : list Hash;
  sw_OrphanBytes : Z;
  sw_StaleTemps : list string;
  sw_Deleted : Z;
  sw_DeletedBytes : Z;
  sw_StaleTempDeleted : Z;
  sw_Failures : list string;
  sw_FailureCount : Z;
  sw_SkippedReferenced : Z;
  sw_StoppedEarly : list string;
  sw_RunID : string
}.

Inductive sweep_err :=
| PublishRun (e : serr)
| ScanLeases (e : serr)
| BackupInFlight (live : list string)
| Collect (e : gc_err)
| ListChunks (e : serr)
| PublishCheckpoint (e : serr)
| ReadPins (e : get_err)
| RunNotFresh.

Definition result_of (id : string) : SweepResult :=
  {| sw_RefCount := 0; sw_OrphanCount := 0; sw_Orphans := []; sw_OrphanBytes := 0; sw_StaleTemps := [];
     sw_Deleted := 0; sw_DeletedBytes := 0; sw_StaleTempDeleted := 0; sw_Failures := [];
     sw_FailureCount := 0; sw_SkippedReferenced := 0; sw_StoppedEarly := []; sw_RunID := id |}.

(** What the deletions change of the result. *)
Record tally := {
  ta_Deleted : Z;
  ta_DeletedBytes : Z;
  ta_StaleTempDeleted : Z;
  ta_Failures : list string;
  ta_FailureCount : Z;
  ta_SkippedReferenced : Z;
  ta_StoppedEarly : list string
}.

Definition tally0 : tally :=
  {| ta_Deleted := 0; ta_DeletedBytes := 0; ta_StaleTempDeleted := 0; ta_Failures := [];
     ta_FailureCount := 0; ta_SkippedReferenced := 0; ta_StoppedEarly := [] |}.

Definition noteFailure (t : tally) (what : string) : tally :=
  {| ta_Deleted := ta_Deleted t; ta_DeletedBytes := ta_DeletedBytes t;
     ta_StaleTempDeleted := ta_StaleTempDeleted t;
     ta_Failures := if (length (ta_Failures t) <? maxSweepFailures)%nat then ta_Failures t ++ [what]
                    else ta_Failures t;
     ta_FailureCount := ta_FailureCount t + 1; ta_SkippedReferenced := ta_SkippedReferenced t;
     ta_StoppedEarly := ta_StoppedEarly t |}.

Definition note_skipped (t : tally) : tally :=
  {| ta_Deleted := ta_Deleted t; ta_DeletedBytes := ta_DeletedBytes t;
     ta_StaleTempDeleted := ta_StaleTempDeleted t; ta_Failures := ta_Failures t;
     ta_FailureCount := ta_FailureCount t; ta_SkippedReferenced := ta_SkippedReferenced t + 1;
     ta_StoppedEarly := ta_StoppedEarly t |}.

Definition note_deleted (t : tally) (size : Z) : tally :=
  {| ta_Deleted := ta_Deleted t + 1; ta_DeletedBytes := i64 (ta_DeletedBytes t + size);
     ta_StaleTempDeleted := ta_StaleTempDeleted t; ta_Failures := ta_Failures t;
     ta_FailureCount := ta_FailureCount t; ta_SkippedReferenced := ta_SkippedReferenced t;
     ta_StoppedEarly := ta_StoppedEarly t |}.

Definition note_stale_deleted (t : tally) : tally :=
  {| ta_Deleted := ta_Deleted t; ta_DeletedBytes := ta_DeletedBytes t;
     ta_StaleTempDeleted := ta_StaleTempDeleted t + 1; ta_Failures := ta_Failures t;
     ta_FailureCount := ta_FailureCount t; ta_SkippedReferenced := ta_SkippedReferenced t;
     ta_StoppedEarly := ta_StoppedEarly t |}.

Definition note_stopped (t : tally) (live : list string) : tally :=
  {| ta_Deleted := ta_Deleted t; ta_DeletedBytes := ta_DeletedBytes t;
     ta_StaleTempDeleted := ta_StaleTempDeleted t; ta_Failures := ta_Failures t;
     ta_FailureCount := ta_FailureCount t; ta_SkippedReferenced := ta_SkippedReferenced t;
     ta_StoppedEarly := live |}.

(** The part of the result known before the deletions. *)
Record findings := {
  fi_OrphanCount : Z;
  fi_sample : hashSample;
  fi_OrphanBytes : Z;
  fi_log : orphanLog
}.

Definition findings0 : findings :=
  {| fi_OrphanCount := 0; fi_sample := {| hs_limit := SweepOrphanSampleLimit; hs_buf := [] |};
     fi_OrphanBytes := 0; fi_log := orphanLog0 |}.

Definition sweep_result (id : string) (refs : gset Hash) (stale : list string) (f : findings) (t : tally)
    (failures : list string) : SweepResult :=
  {| sw_RefCount := Z.of_nat (size refs); sw_OrphanCount := fi_OrphanCount f; sw_Orphans := sorted (fi_sample f);
     sw_OrphanBytes := fi_OrphanBytes f; sw_StaleTemps := stale; sw_Deleted := ta_Deleted t;
     sw_DeletedBytes := ta_DeletedBytes t; sw_StaleTempDeleted := ta_StaleTempDeleted t;
     sw_Failures := failures; sw_FailureCount := ta_FailureCount t;
     sw_SkippedReferenced := ta_SkippedReferenced t; sw_StoppedEarly := ta_StoppedEarly t; sw_RunID := id |}.

Section sweep.
Context (tokenize : string -> list token) (sha256 : string -> Hash).
Context `{CR : Codec string gcRunRecord} `{CP : Codec string gcPin}.
Context (beats : nat -> bool).

(** ** The chunk listing *)

(** The chunks that are candidates: [orphan_of], and none younger than the run itself. *)
Definition candidate (refs : gset Hash) (minAge : duration) (cutoff start : time) (i : ObjectInfo) : option Hash :=
  match orphan_of refs minAge cutoff i with
  | None => None
  | Some h => if negb (Time.IsZero (ModTime i)) && Time.After (ModTime i) start then None else Some h
  end.

Definition chunk_scan (refs : gset Hash) (minAge : duration) (cutoff start : time) (apply : bool)
    (f : findings) (i : ObjectInfo) : findings :=
  match candidate refs minAge cutoff start i with
  | None => f
  | Some h =>
      {| fi_OrphanCount := fi_OrphanCount f + 1;
         fi_sample := offer (fi_sample f) h; fi_OrphanBytes := i64 (fi_OrphanBytes f + Size i);
         fi_log := if apply then log_add (fi_log f) {| oi_hash := h; oi_size := Size i |} else fi_log f |}
  end.

(** ** The checkpoints *)

Record sweep_state := {
  st_run : gcRun;
  st_pins : gcPinSet;
  st_snap : snapshot;
  st_tally : tally;
  st_deadline : time;
  st_batch : nat
}.

Definition maxCheckpoint : duration := GCFenceMaxWait * 3 / 5.

Definition with_run (s : sweep_state) (r : gcRun) : sweep_state :=
  {| st_run := r; st_pins := st_pins s; st_snap := st_snap s; st_tally := st_tally s;
     st_deadline := st_deadline s; st_batch := st_batch s |}.

Definition with_tally (s : sweep_state) (t : tally) : sweep_state :=
  {| st_run := st_run s; st_pins := st_pins s; st_snap := st_snap s; st_tally := t;
     st_deadline := st_deadline s; st_batch := st_batch s |}.

(** The live leases, when the caller passed a way to list them. *)
Definition leases (o : SweepOptions) : prog string (result serr (list string)) :=
  match so_LiveLeases o with Some p => p | None => Ret (Ok []) end.

Definition snap_options (o : SweepOptions) (start : time) : snapshotOptions :=
  let minAge := effectiveMinAge {| fo_MinAge := so_MinChunkAge o; fo_Now := start |} in
  {| mo_opts := {| co_TombstoneGrace := so_TombstoneGrace o; co_Now := start |};
     mo_minAge := minAge; mo_ageCutoff := Time.Add start (- minAge) |}.

(** How long the deletes after a checkpoint may go on. *)
Definition window (slice spent : duration) : duration :=
  let w := Z.max slice 0 in
  let left := maxCheckpoint - spent in
  if left <? w then Z.max left 0 else w.

Definition checkpoint (o : SweepOptions) (start : time) (slice : duration) (s : sweep_state)
    : prog string (sweep_state + sweep_state * sweep_err) :=
  let* began := now in
  let* a := advance (st_run s) in
  let s := with_run s a.1 in
  match a.2 with
  | Some e => Ret (inr (s, PublishCheckpoint e))
  | None =>
      let* t := now in
      let* pins := refresh t (st_pins s) in
      match pins with
      | Err e => Ret (inr (s, ReadPins e))
      | Ok pins =>
          let* live := leases o in
          match live with
          | Err e => Ret (inr (s, ScanLeases e))
          | Ok (_ :: _ as l) => Ret (inr (with_tally s (note_stopped (st_tally s) l), BackupInFlight l))
          | Ok [] =>
              let* snap := scan tokenize sha256 (snap_options o start) false (st_snap s) in
              match snap with
              | Err e => Ret (inr (s, Collect e))
              | Ok snap =>
                  let* t := now in
                  let spent := Time.Sub t began in
                  let* t' := now in
                  Ret (inl {| st_run := st_run s; st_pins := pins; st_snap := snap; st_tally := st_tally s;
                              st_deadline := Time.Add t' (window slice spent); st_batch := S (st_batch s) |})
              end
          end
      end
  end.

(** One orphan of a batch: skipped when referenced or pinned by now. *)
Definition delete_step (s : sweep_state) (o : orphanInfo) (t : tally) : prog string (tally + False) :=
  if bool_decide (oi_hash o ∈ sn_refs (st_snap s)) || bool_decide (oi_hash o ∈ ps_hashes (st_pins s))
  then Ret (inl (note_skipped t))
  else
    let* d := sDelete (ChunkKey (oi_hash o)) in
    match d with
    | Err _ => Ret (inl (noteFailure t (Hash_String (oi_hash o))))
    | Ok _ => Ret (inl (note_deleted t (oi_size o)))
    end.

(** One batch: a checkpoint when the window is over, the freshness of the run record, the deletes. *)
Definition batch_step (o : SweepOptions) (start : time) (slice : duration) (batch : list orphanInfo)
    (s : sweep_state) : prog string (sweep_state + sweep_state * sweep_err) :=
  let* r := (if beats (st_batch s) then heartbeat (st_run s) else Ret (st_run s)) in
  let s := with_run s r in
  let* t := now in
  let* c := (if negb (Time.Before t (st_deadline s)) then checkpoint o start slice s else Ret (inl s)) in
  match c with
  | inr e => Ret (inr e)
  | inl s =>
      let* fresh := checkFresh (st_run s) in
      if negb fresh then Ret (inr (s, RunNotFresh))
      else
        let* d := for_ batch (st_tally s) (delete_step s) in
        match d with
        | inl t => Ret (inl (with_tally s t))
        | inr bot => match bot : False with end
        end
  end.

Definition stale_delete (key : string) (t : tally) : prog string (tally + False) :=
  let* d := sDelete key in
  match d with
  | Err _ => Ret (inl (noteFailure t key))
  | Ok _ => Ret (inl (note_stale_deleted t))
  end.

Definition batch_size (o : SweepOptions) : Z := if so_BatchSize o <=? 0 then 4096 else so_BatchSize o.

Definition batch_slice (o : SweepOptions) : duration :=
  if (so_BatchDuration o =? 0) && (so_BatchSize o <=? 0) then GCFenceMaxWait / 5 else so_BatchDuration o.

(** Deleting the orphans and the stale staging files. *)
Definition apply_phase (o : SweepOptions) (start : time) (run : gcRun) (snap : snapshot) (f : findings)
    : prog string (sweep_state * option sweep_err) :=
  let s := {| st_run := run; st_pins := pinSet0; st_snap := snap; st_tally := tally0;
              st_deadline := Time.zero; st_batch := 0 |} in
  let* r := for_ (log_batches (Z.to_nat (batch_size o)) (fi_log f)) s (batch_step o start (batch_slice o)) in
  match r with
  | inr (s, e) => Ret (s, Some e)
  | inl s =>
      let* d := for_ (sn_stale (st_snap s)) (st_tally s) stale_delete in
      match d with
      | inl t => Ret (with_tally s t, None)
      | inr bot => match bot : False with end
      end
  end.

(** The snapshot and the candidates. *)
Definition find_phase (o : SweepOptions) (start : time)
    : prog string (result sweep_err (snapshot * findings)) :=
  let so := snap_options o start in
  let* snap := scan tokenize sha256 so true snapshot0 in
  match snap with
  | Err e => Ret (Err (Collect e))
  | Ok snap =>
      let* l := sList "chunks/sha256/" in
      match l.2 with
      | Some e => Ret (Err (ListChunks e))
      | None => Ret (Ok (snap, fold_left (chunk_scan (sn_refs snap) (mo_minAge so) (mo_ageCutoff so) start (so_Apply o))
                                 l.1 findings0))
      end
  end.

(** The body of [Sweep] once the run record is out: the result, and the run to finish. *)
Definition sweep_run (o : SweepOptions) (start : time) (id : string) (run : gcRun)
    : prog string (gcRun * result sweep_err (SweepResult * option sweep_err)) :=
  let* live := leases o in
  match live with
  | Err e => Ret (run, Err (ScanLeases e))
  | Ok (_ :: _ as l) => Ret (run, Err (BackupInFlight l))
  | Ok [] =>
      let* fp := find_phase o start in
      match fp with
      | Err e => Ret (run, Err e)
      | Ok (snap, f) =>
          let* t := now in
          let* r := apply_phase o start run snap f in
          let '(s, e) := r in
          let failures := ta_Failures (st_tally s) in
          Ret (st_run s, Ok (sweep_result id (sn_refs snap) (sn_stale snap) f (st_tally s)
                               (if bool_decide (is_Some e) then failures else stable_sort string_ltb failures), e))
      end
  end.

Definition Sweep (id : string) (o : SweepOptions)
    : prog string (result sweep_err (SweepResult * option sweep_err)) :=
  let* start := now in
  if so_Apply o then
    let* run := startGCRun id start in
    match run with
    | Err e => Ret (Err (PublishRun e))
    | Ok run =>
        let* r := sweep_run o start id run in
        let* _ := finish r.1 in
        Ret r.2
    end
  else
    let* fp := find_phase o start in
    match fp with
    | Err e => Ret (Err e)
    | Ok (snap, f) => Ret (Ok (sweep_result "" (sn_refs snap) (sn_stale snap) f tally0 [], None))
    end.
End sweep.

(** ** The orphan log hands out what was logged *)

Lemma runs_of_concat {A} fuel n (l : list A) : (0 < n)%nat -> (length l <= fuel)%nat ->
  concat (runs_of fuel n l) = l.
Proof.
  intros Hn. revert l. induction fuel as [|fuel IH]; intros [|x l] Hl; try done; [cbn in Hl; lia|].
  cbn [runs_of concat]. rewrite IH; [apply take_drop|].
  rewrite length_drop. cbn [length] in *. lia.
Qed.

Lemma runs_of_length {A} fuel n (l : list A) b : b ∈ runs_of fuel n l -> (length b <= n)%nat.
Proof.
  revert l. induction fuel as [|fuel IH]; intros [|x l]; cbn [runs_of]; intros H;
    try (by apply not_elem_of_nil in H).
  apply elem_of_cons in H as [->|H]; [rewrite length_take; lia|by eapply IH].
Qed.

(** All the orphans of a log, in the order they were added. *)
Definition logged (l : orphanLog) : list orphanInfo := default [] (ol_file l) ++ ol_mem l.

Lemma logged_add l o : logged (log_add l o) = logged l ++ [o].
Proof.
  unfold logged, log_add. destruct (_ <? _); cbn [ol_file ol_mem default from_option id];
    by rewrite ?app_nil_r, app_assoc.
Qed.

Lemma log_batches_perm n l : (0 < n)%nat -> concat (log_batches n l) ≡ₚ logged l.
Proof.
  intros Hn. unfold log_batches, logged. destruct (ol_file l) as [f|]; cbn [default from_option id].
  - by rewrite concat_app, !runs_of_concat by (done || lia).
  - rewrite runs_of_concat by (done || lia). apply stable_sort_perm.
Qed.

Section found.
Context (refs : gset Hash) (minAge : duration) (cutoff start : time).

(** The orphans a listing shows. *)
Definition candidates (l : list ObjectInfo) : list orphanInfo :=
  omap (fun i => option_map (fun h => {| oi_hash := h; oi_size := Size i |})
                   (candidate refs minAge cutoff start i)) l.

Lemma chunk_scan_spec apply l f :
  let f' := fold_left (chunk_scan refs minAge cutoff start apply) l f in
  logged (fi_log f') = logged (fi_log f) ++ (if apply then candidates l else []) /\
  fi_OrphanCount f' = fi_OrphanCount f + Z.of_nat (length (candidates l)) /\
  fi_sample f' = fold_left offer (map oi_hash (candidates l)) (fi_sample f).
Proof.
  revert f. induction l as [|i l IH]; intros f; cbn [fold_left].
  { cbn. destruct apply; by rewrite app_nil_r, Z.add_0_r. }
  destruct (IH (chunk_scan refs minAge cutoff start apply f i)) as (H1 & H2 & H3).
  unfold candidates in *. cbn [omap list_omap]. unfold chunk_scan in *.
  destruct (candidate refs minAge cutoff start i) as [h|]; cbn [option_map];
    [|by rewrite H1, H2, H3].
  cbn [fi_log fi_OrphanCount fi_sample map fold_left length] in *. rewrite H1, H2, H3.
  split_and!; [|lia|done]. destruct apply; [|done]. by rewrite logged_add, <- app_assoc.
Qed.

Lemma candidates_hash l o : o ∈ candidates l -> is_hash (oi_hash o).
Proof.
  unfold candidates. intros (i & _ & Ho)%list_elem_of_omap.
  destruct (candidate refs minAge cutoff start i) as [h|] eqn:E; [|done]. injection Ho as <-.
  unfold candidate, orphan_of in E. destruct (ParseChunkKey (Key i)) eqn:Ep; [|done].
  apply ParseChunkKey_hash in Ep. cbn. crunch_match.
Qed.
End found.

Lemma batch_size_pos o : (0 < Z.to_nat (batch_size o))%nat.
Proof. unfold batch_size. destruct (_ <=? 0) eqn:E; [lia|]. apply Z.leb_gt in E. lia. Qed.

(** ** What the steps of a sweep leave alone *)

Lemma backup_manifest_not_staged k : HasSuffix k "/manifest.json" = true -> isStaleTempKey k = false.
Proof.
  intros [t ->]%HasSuffix_inv. unfold isStaleTempKey.
  change "/manifest.json" with (String slash "manifest.json"). by rewrite basename_app.
Qed.

Lemma manifest_not_staged kind k : manifest_key kind k -> isStaleTempKey k = false.
Proof. destruct kind; [intros [_ H]; by apply backup_manifest_not_staged|by intros (_ & _ & H)]. Qed.

Definition gc_key (k : string) : Prop := HasPrefix k "gc/" = true.

Lemma job_key_not_gc kind k : job_key kind k -> ~ gc_key k.
Proof. unfold gc_key. destruct kind; cbn; destruct k as [|[[] [] [] [] [] [] [] []] k]; naive_solver. Qed.

Lemma job_key_not_chunk kind k h : job_key kind k -> k <> ChunkKey h.
Proof.
  intros Hk ->. pose proof (ChunkKey_prefix h) as Hp. unfold chunk_prefix in Hp.
  destruct kind; cbn in Hk; destruct (ChunkKey h) as [|[[] [] [] [] [] [] [] []] k]; naive_solver.
Qed.

Lemma gc_key_not_chunk k h : gc_key k -> k <> ChunkKey h.
Proof.
  intros Hk ->. pose proof (ChunkKey_prefix h) as Hp. unfold chunk_prefix, gc_key in *.
  destruct (ChunkKey h) as [|[[] [] [] [] [] [] [] []] k]; naive_solver.
Qed.

Lemma gc_key_not_manifest k : gc_key k -> HasPrefix k "manifests/" = false.
Proof. unfold gc_key. destruct k as [|[[] [] [] [] [] [] [] []] k]; naive_solver. Qed.

Lemma live_delete grace latest kind k ob s key : key <> k ->
  live grace latest kind k ob s -> live grace latest kind k ob (delete key s).
Proof.
  intros Hne (Hmk & Hs & Ht). split_and!; [done|by rewrite lookup_delete_ne|].
  intros Hk H5 key' t (H1 & H2). apply lookup_delete_Some in H1 as [_ H1]. by apply Ht.
Qed.

Lemma live_insert grace latest kind k ob s key o : key <> k -> HasPrefix key "manifests/" = false ->
  live grace latest kind k ob s -> live grace latest kind k ob (<[key := o]> s).
Proof.
  intros Hne Hp (Hmk & Hs & Ht). split_and!; [done|by rewrite lookup_insert_ne|].
  intros Hk H5 key' t (H1 & H2 & H3). apply lookup_insert_Some in H1 as [[<- _]|[_ H1]]; [congruence|].
  by apply Ht.
Qed.

(** ** The run record and the pins under interference *)

Section gc_records.
Context `{CR : Codec string gcRunRecord} `{CP : Codec string gcPin}.
Context (D : decision -> Prop) (I : gmap string (object string) -> Prop)
  (G : gmap string (object string) -> gmap string (object string) -> Prop).
Local Abbreviation W := (wpi D I G).
Hypothesis G_refl : forall s, G s s.
Hypothesis gc_insert : forall s key o, gc_key key -> I s -> I (<[key := o]> s) /\ G s (<[key := o]> s).
Hypothesis gc_delete : forall s key, gc_key key -> I s -> I (delete key s) /\ G s (delete key s).

Lemma any_now A (f : time -> prog string A) Q : (forall t, W (f t) Q) -> W (let* t := now in f t) Q.
Proof. intros H. wpi_step; [done|]. intros d _. apply H. Qed.

Lemma gc_write_wpi r : gc_key (gr_key r) -> W (gc_write r) (fun p => gr_key p.1 = gr_key r).
Proof.
  intros Hk. unfold gc_write. apply any_now. intros t. unfold putJSON. wpi_step; [done| |].
  - intros s t' HI _. by apply gc_insert.
  - intros [[]|e]; [|done]. by apply any_now.
Qed.

Lemma startGCRun_wpi id start : W (startGCRun id start) (fun r =>
  match r with Ok run => gc_key (gr_key run) | Err _ => True end).
Proof.
  assert (gc_key (gcRunsPrefix +:+ id +:+ ".json")) as Hk
    by (unfold gc_key, gcRunsPrefix; apply (HasPrefix_app "gc/" ("runs/" +:+ id +:+ ".json"))).
  unfold startGCRun. wpi_step. eapply wpi_mono; [|by apply gc_write_wpi].
  intros [r [e|]]; cbn [fst]; [done|]. intros Hr. apply any_now. intros t. cbn [wpi gr_key]. by rewrite Hr.
Qed.

Lemma heartbeat_wpi r : gc_key (gr_key r) -> W (heartbeat r) (fun r' => gr_key r' = gr_key r).
Proof. intros Hk. unfold heartbeat. wpi_step. by apply gc_write_wpi. Qed.

Lemma advance_wpi r : gc_key (gr_key r) -> W (advance r) (fun p => gr_key p.1 = gr_key r).
Proof. intros Hk. by apply (gc_write_wpi (with_rec r _)). Qed.

Lemma refresh_reads t p : reads_only (refresh t p).
Proof.
  unfold refresh. apply reads_only_bind; [done|]. intros l. apply reads_only_bind.
  - apply reads_only_for. intros i q. unfold refresh_step. destruct (_ || _); [done|].
    apply reads_only_bind; [apply getJSON_reads|]. intros [pin|e]; [done|]. by destruct (get_is_not_found e).
  - intros [q|e]; [|done]. by destruct l.2.
Qed.

Lemma checkFresh_reads r : reads_only (checkFresh r).
Proof. done. Qed.

(** Reaping under a [gc/] prefix, then going on. *)
Lemma reap_wpi prefix (step : ObjectInfo -> unit -> prog string (unit + False)) (q : prog string unit) :
  HasPrefix prefix "gc/" = true ->
  (forall i, gc_key (Key i) -> W (step i ()) (fun _ => True)) -> W q (fun _ => True) ->
  W (let* l := sList prefix in let* _ := for_ l.1 () step in q) (fun _ => True).
Proof.
  intros Hp Hstep Hq.
  assert (forall l, (forall i, i ∈ l -> HasPrefix (Key i) prefix = true) ->
    W (let* _ := for_ l () step in q) (fun _ => True)) as Hloop.
  { intros l Hl. wpi_step. apply (wpi_for _ _ _ l step (fun _ _ => True)); [done| |done].
    intros pre i post [] -> _. eapply wpi_mono; [|apply Hstep]; [by intros [[]|[]]|].
    assert (HasPrefix (Key i) prefix = true) as Hi by (apply Hl; apply elem_of_app; right; left).
    unfold gc_key. apply HasPrefix_inv in Hp as [x ->]. apply HasPrefix_inv in Hi as [y ->].
    rewrite string_app_assoc. apply HasPrefix_app. }
  wpi_step; [done|..].
  - intros s l HI Hl. apply Hloop. intros i Hi. eapply listing_prefix. by rewrite <- Hl.
  - intros s c l l' HI Hl. apply Hloop. intros i Hi. eapply listing_prefix. rewrite <- Hl. apply elem_of_app. by left.
Qed.

Lemma reap_delete key : gc_key key ->
  W (let* _ := sDelete key in Ret (inl () : unit + False)) (fun _ => True).
Proof. intros Hk. wpi_step; [done| |done]. intros s HI. by apply gc_delete. Qed.

Lemma finish_wpi r : gc_key (gr_key r) -> W (finish r) (fun _ => True).
Proof.
  intros Hk. unfold finish. wpi_step. eapply wpi_mono; [|by apply (gc_write_wpi (with_rec r _))].
  intros w _. apply any_now. intros t.
  apply reap_wpi; [done| |apply reap_wpi; [done| |done]].
  - intros i Hi. unfold reap_pin. wpi_step. eapply wpi_mono; [|apply reads_only_wpi; [done|apply getJSON_reads]].
    intros [pin|e] _; [|done]. destruct (_ <? _); [by apply reap_delete|done].
  - intros i Hi. unfold reap_run. destruct (String.eqb _ _); [done|].
    wpi_step. eapply wpi_mono; [|apply reads_only_wpi; [done|apply getJSON_reads]].
    intros [rec|e] _; [|done]. destruct (_ && _); [by apply reap_delete|done].
Qed.
End gc_records.

(** ** A sweep under interference *)

(** Every hash a manifest lists is one. *)
Lemma stream_refs_hash tokenize kind body R h :
  stream_refs tokenize kind ∅ body = Some R -> h ∈ R -> is_hash h.
Proof.
  set (P := fun a b : gset Hash => a = b /\ forall h, h ∈ a -> is_hash h).
  assert (forall a b x, P a b -> sim_opt P (visit a x) (visit b x)) as Hv.
  { intros a b x [-> Ha]. unfold visit. destruct (parseHexHash x) as [y|] eqn:E; [|done].
    split; [done|]. intros z [->%elem_of_singleton|Hz]%elem_of_union; [by apply parseHexHash_range in E|by apply Ha]. }
  assert (sim_opt P (stream_refs tokenize kind ∅ body) (stream_refs tokenize kind ∅ body)) as H.
  { destruct kind; [apply streamBackupChunkRefs_sim|apply streamSegmentChunkRefs_sim]; try done;
      split; try done; intros z Hz; by apply not_elem_of_empty in Hz. }
  intros E. rewrite E in H. destruct H as [_ H]. apply H.
Qed.

Section sweep_safe.
Context (tokenize : string -> list token) (sha256 : string -> Hash).
Context `{CR : Codec string gcRunRecord} `{CP : Codec string gcPin}.
Context (beats : nat -> bool) (o : SweepOptions).
Context (latest : time) (kind : harvestKind) (k : string) (ob : object string) (h : Hash).

Definition sweep_grace : duration := effectiveGrace {| co_TombstoneGrace := so_TombstoneGrace o; co_Now := 0 |}.

Local Abbreviation I := (live sweep_grace latest kind k ob).
Local Abbreviation G := (fun s s' : gmap string (object string) => s' !! ChunkKey h = s !! ChunkKey h).
Local Abbreviation W := (wpi (clock_until latest) I G).
Local Abbreviation i0 := (info_of k ob).
Local Abbreviation held := (collected tokenize kind (ob_body ob)).
Local Abbreviation memo := (memo_ok tokenize sha256 kind k ob).

Hypothesis no_collision : forall i, sha256 (digest_input i) = sha256 (digest_input i0) ->
  digest_input i = digest_input i0.
Hypothesis a_manifest : manifest_key kind k.
Hypothesis a_hash : is_hash h.
Hypothesis referenced : forall R, stream_refs tokenize kind ∅ (ob_body ob) = Some R -> h ∈ R.
Hypothesis leases_read : reads_only (leases o).

Lemma G_refl s : G s s.
Proof. done. Qed.

Lemma job : job_key kind k.
Proof. by apply manifest_job. Qed.

Lemma gc_insert_ok s key o' : gc_key key -> I s -> I (<[key := o']> s) /\ G s (<[key := o']> s).
Proof.
  intros Hg HI. split.
  - apply live_insert; [|by apply gc_key_not_manifest|done].
    intros ->. by eapply job_key_not_gc; [apply job|].
  - by rewrite lookup_insert_ne by (by apply gc_key_not_chunk).
Qed.

Lemma delete_ok s key : key <> k -> key <> ChunkKey h -> I s -> I (delete key s) /\ G s (delete key s).
Proof. intros H1 H2 HI. split; [by apply live_delete|by rewrite lookup_delete_ne]. Qed.

Lemma gc_delete_ok s key : gc_key key -> I s -> I (delete key s) /\ G s (delete key s).
Proof.
  intros Hg HI. apply delete_ok; [|by apply gc_key_not_chunk|done].
  intros ->. by eapply job_key_not_gc; [apply job|].
Qed.

#[local] Hint Resolve G_refl gc_insert_ok gc_delete_ok job : core.

Lemma held_references refs : held refs -> h ∈ refs.
Proof. intros (R & HR & Hs). by apply Hs, referenced. Qed.

Lemma scan_ok start cs s : memo s -> start <= latest ->
  W (scan tokenize sha256 (snap_options o start) cs s) (fun r =>
    match r with
    | Ok s' => held (sn_refs s') /\ memo s' /\ (if cs then staged (sn_stale s') else sn_stale s' = sn_stale s)
    | Err _ => True
    end).
Proof. intros Hm Hs. apply scan_wpi; try done. by right. Qed.

(** What the batches keep. *)
Definition run_ok (s : sweep_state) : Prop :=
  gc_key (gr_key (st_run s)) /\ memo (st_snap s) /\ held (sn_refs (st_snap s)) /\ staged (sn_stale (st_snap s)).

Definition step_ok (r : sweep_state + sweep_state * sweep_err) : Prop :=
  match r with inl s => run_ok s | inr (s, _) => gc_key (gr_key (st_run s)) end.

Lemma checkpoint_wpi start slice s : start <= latest -> run_ok s ->
  W (checkpoint tokenize sha256 o start slice s) step_ok.
Proof.
  intros Hst (Hk & Hm & Hh & Hs). unfold checkpoint. apply any_now; [done|]. intros began.
  wpi_step. eapply wpi_mono; [|apply advance_wpi; auto]. intros [r e] Hr. cbn [fst snd] in *.
  destruct e as [e|]; [by cbn; rewrite Hr|]. apply any_now; [done|]. intros t.
  wpi_step. eapply wpi_mono; [|apply reads_only_wpi; [done|apply refresh_reads]].
  intros [pins|e] _; [|by cbn; rewrite Hr].
  wpi_step. eapply wpi_mono; [|by apply reads_only_wpi].
  intros [[|l ls]|e] _; [|by cbn; rewrite Hr..].
  wpi_step. eapply wpi_mono; [|by apply scan_ok]. intros [snap|e]; [|by cbn; rewrite Hr].
  intros (H1 & H2 & H3). apply any_now; [done|]. intros t1. apply any_now; [done|]. intros t2.
  cbn. split_and!; cbn; [by rewrite Hr|done|done|by rewrite H3].
Qed.

Lemma delete_step_wpi s oi t : held (sn_refs (st_snap s)) -> is_hash (oi_hash oi) ->
  W (delete_step s oi t) (fun _ => True).
Proof.
  intros Hh Hoi. unfold delete_step. destruct (_ || _) eqn:E; [done|].
  apply orb_false_iff in E as [E%bool_decide_eq_false _].
  wpi_step; [done| |by intros []]. intros st HI. apply delete_ok; [| |done].
  - intros Hk. symmetry in Hk. by eapply job_key_not_chunk; [apply job|].
  - intros Hc%ChunkKey_inj; [|done..]. rewrite Hc in E. by apply E, held_references.
Qed.

Lemma batch_step_wpi start slice batch s : start <= latest -> run_ok s ->
  Forall (fun oi => is_hash (oi_hash oi)) batch ->
  W (batch_step tokenize sha256 beats o start slice batch s) step_ok.
Proof.
  intros Hst Hok Hb. unfold batch_step. wpi_step.
  eapply (wpi_mono _ _ _ _ (fun r => gr_key r = gr_key (st_run s))).
  2:{ destruct (beats _); [|done]. apply heartbeat_wpi; auto. apply Hok. }
  intros r Hr. assert (run_ok (with_run s r)) as Hok'.
  { destruct Hok as (H1 & H2). split; [cbn; by rewrite Hr|done]. }
  apply any_now; [done|]. intros t. wpi_step.
  eapply (wpi_mono _ _ _ _ step_ok); [|destruct (negb _); [by apply checkpoint_wpi|done]].
  intros [s'|[s' e]] Hs'; [|done]. wpi_step.
  eapply wpi_mono; [|apply reads_only_wpi; [done|apply checkFresh_reads]].
  intros fresh _. destruct fresh; cbn [negb]; [|apply Hs'].
  wpi_step. apply (wpi_for _ _ _ batch _ (fun _ _ => True)); [done| |].
  - intros pre oi post t' -> _. eapply wpi_mono; [|apply delete_step_wpi].
    + by intros [t''|[]].
    + apply Hs'.
    + rewrite Forall_forall in Hb. apply Hb, elem_of_app. right; left.
  - intros t' _. exact Hs'.
Qed.

Lemma find_phase_wpi start : start <= latest ->
  W (find_phase tokenize sha256 o start) (fun r =>
    match r with
    | Ok (snap, f) => memo snap /\ held (sn_refs snap) /\ staged (sn_stale snap) /\
                      Forall (fun oi => is_hash (oi_hash oi)) (logged (fi_log f))
    | Err _ => True
    end).
Proof.
  intros Hst. unfold find_phase. wpi_step. eapply wpi_mono; [|apply scan_ok; [|done]].
  2:{ intros Hin. by apply not_elem_of_empty in Hin. }
  intros [snap|e]; [|done]. intros (H1 & H2 & H3). cbn [pbind].
  wpi_step; [done| |done]. intros s l _ _. cbn [fst snd wpi]. split_and!; [done..|].
  destruct (chunk_scan_spec (sn_refs snap) (mo_minAge (snap_options o start))
    (mo_ageCutoff (snap_options o start)) start (so_Apply o) l findings0) as (-> & _ & _).
  apply Forall_forall. intros oi. destruct (so_Apply o); cbn; [apply candidates_hash|by intros ?%not_elem_of_nil].
Qed.

Lemma apply_phase_wpi start run snap f : start <= latest -> gc_key (gr_key run) ->
  memo snap -> held (sn_refs snap) -> staged (sn_stale snap) ->
  Forall (fun oi => is_hash (oi_hash oi)) (logged (fi_log f)) ->
  W (apply_phase tokenize sha256 beats o start run snap f) (fun r => gc_key (gr_key (st_run r.1))).
Proof.
  intros Hst Hk Hm Hh Hs Hl. unfold apply_phase. wpi_step.
  rewrite <- (log_batches_perm _ (fi_log f) (batch_size_pos o)) in Hl.
  apply (wpi_for _ _ _ _ _ (fun _ s => run_ok s)); [done| |].
  - intros pre batch post s El Hok. eapply wpi_mono; [|apply batch_step_wpi; try done].
    + by intros [s'|[s' e]].
    + rewrite El, concat_app in Hl. cbn [concat] in Hl. by apply Forall_app in Hl as [_ [Hl _]%Forall_app].
  - intros s (Hk' & _ & _ & Hst'). wpi_step. apply (wpi_for _ _ _ _ _ (fun _ _ => True)); [done| |done].
    intros pre key' post t El _. unfold stale_delete.
    assert (isStaleTempKey key' = true /\ exists kd, job_key kd key') as [H1 [kd H2]].
    { unfold staged in Hst'. rewrite Forall_forall in Hst'. apply Hst'. rewrite El. apply elem_of_app. right; left. }
    wpi_step; [done| |by intros []]. intros s' HI. apply delete_ok; [| |done].
    + intros ->. by rewrite (manifest_not_staged kind k a_manifest) in H1.
    + by eapply job_key_not_chunk.
Qed.

Lemma Sweep_wpi id : W (Sweep tokenize sha256 beats id o) (fun _ => True).
Proof.
  unfold Sweep. wpi_step; [done|]. intros d Hd. set (start := d_time d). fold start.
  assert (start <= latest) as Hst by exact Hd.
  destruct (so_Apply o) eqn:Ha.
  2:{ wpi_step. eapply wpi_mono; [|by apply find_phase_wpi]. by intros [[snap f]|e]. }
  wpi_step. eapply wpi_mono; [|apply startGCRun_wpi; auto]. intros [run|e] Hrun; [|done].
  wpi_step. eapply (wpi_mono _ _ _ _ (fun r => gc_key (gr_key r.1))).
  { intros r Hr. wpi_step. eapply wpi_mono; [|apply finish_wpi; auto]. done. }
  unfold sweep_run. wpi_step. eapply wpi_mono; [|by apply reads_only_wpi].
  intros [[|l ls]|e] _; [|done..]. wpi_step. eapply wpi_mono; [|by apply find_phase_wpi].
  intros [[snap f]|e]; [|done]. intros (H1 & H2 & H3 & H4). apply any_now; [done|]. intros t.
  wpi_step. eapply wpi_mono; [|by apply apply_phase_wpi]. by intros [s e].
Qed.
End sweep_safe.

(** C2: a sweep never deletes a chunk a live manifest references.  Whatever fails and whatever
    other processes do to the store between its calls, as long as they leave the manifest
    itself alone and tombstone its backup only within the grace period: every step of the
    sweep keeps every chunk the manifest lists, and the manifest too.  A live manifest that
    cannot be read as one keeps every chunk. *)
Theorem Sweep_keeps_live_chunks (tokenize : string -> list token) (sha256 : string -> Hash)
    `{CR : Codec string gcRunRecord} `{CP : Codec string gcPin} (beats : nat -> bool) (id : string)
    (o : SweepOptions) (latest : time) (kind : harvestKind) (k : string) (ob : object string) (h : Hash)
    (env : nat -> gmap string (object string) -> gmap string (object string)) (ds : nat -> decision)
    (s : gmap string (object string)) :
  let is_live := live (sweep_grace o) latest kind k ob in
  (forall i, sha256 (digest_input i) = sha256 (digest_input (info_of k ob)) ->
     digest_input i = digest_input (info_of k ob)) ->
  is_hash h -> (forall R, stream_refs tokenize kind ∅ (ob_body ob) = Some R -> h ∈ R) ->
  reads_only (leases o) -> (forall j, d_time (ds j) <= latest) ->
  is_live s -> (forall j s, is_live s -> is_live (env j s)) ->
  let '(_, s', steps) := runc env ds 0 (Sweep tokenize sha256 beats id o) s in
  is_live s' /\ Forall (fun st => st.2 !! ChunkKey h = st.1 !! ChunkKey h) steps.
Proof.
  intros is_live Hsha Hh Href Hl Hds Hs Henv.
  pose proof (wpi_runc _ _ _ _ _ env ds 0 s Hds Henv Hs
    (Sweep_wpi tokenize sha256 beats o latest kind k ob h Hsha (proj1 Hs) Hh Href Hl id)) as H.
  destruct (runc env ds 0 _ s) as [[r s'] steps]. by destruct H as (_ & H1 & H2).
Qed.

Definition demo_sweep : SweepOptions :=
  {| so_TombstoneGrace := 0; so_MinChunkAge := -1; so_Apply := true; so_LiveLeases := None;
     so_BatchSize := 0; so_BatchDuration := 0 |}.

(** Another process drops an unrelated backup at every call. *)
Definition demo_env (_ : nat) (s : gmap string (object string)) : gmap string (object string) :=
  delete "manifests/db2/backups/b1/manifest.json" s.

Lemma Sweep_keeps_live_chunks_witness :
  let '(_, _, steps) := runc (B := string) demo_env (healthy_now 100) 0
    (Sweep demo_tokenize demo_sha256 (CR := countable_codec) (CP := countable_codec) (fun _ => true) "r1" demo_sweep)
    demo_repo in
  Forall (fun st => st.2 !! ChunkKey 1 = st.1 !! ChunkKey 1) steps.
Proof.
  pose proof (Sweep_keeps_live_chunks demo_tokenize demo_sha256 (CR := countable_codec) (CP := countable_codec)
    (fun _ => true) "r1" demo_sweep 100 harvestWAL demo_manifest_key demo_object 1 demo_env (healthy_now 100)
    demo_repo) as H.
  destruct (runc demo_env _ _ _ demo_repo) as [[r s'] steps]. refine (proj2 (H _ _ _ _ _ _ _)).
  - intros i Hi. by apply demo_sha256_inj.
  - unfold is_hash. lia.
  - apply demo_refs_all.
  - exact I.
  - intros j. cbn. lia.
  - apply demo_live.
  - intros j s Hs. by apply live_delete.
Defined.

(** ** Pins *)

Section pinned.
Context (tokenize : string -> list token) (sha256 : string -> Hash).
Context `{CR : Codec string gcRunRecord} `{CP : Codec string gcPin}.
Context (beats : nat -> bool) (o : SweepOptions) (start : time) (slice : duration).
Context (latest : time) (pk : string) (h : Hash).

(** A pin of the chunk, readable and within its time up to [latest]. *)
Definition pin_holds (s : gmap string (object string)) : Prop :=
  exists ob p, s !! pk = Some ob /\ size_of (ob_body ob) <= MaxMetadataBytes /\ decode (ob_body ob) = Some p /\
    h ∈ pin_Hashes p /\ latest - pin_CreatedAt p < GCPinTTL.

Definition clock_between (first : time) (d : decision) : Prop := first <= d_time d <= latest.

Context (first : time).
Local Abbreviation G := (fun s s' : gmap string (object string) => s' !! ChunkKey h = s !! ChunkKey h).
Local Abbreviation W := (wpi (clock_between first) pin_holds G).

Hypothesis pin_key_ok : HasPrefix pk gcPinsPrefix = true /\ HasSuffix pk ".json" = true.
Hypothesis a_hash : is_hash h.
Hypothesis leases_read : reads_only (leases o).

(** The pin set has read the pin only together with its hashes. *)
Definition pins_ok (p : gcPinSet) : Prop := pk ∈ ps_read p -> h ∈ ps_hashes p.

Definition pin_state_ok (s : sweep_state) : Prop :=
  HasPrefix (gr_key (st_run s)) gcRunsPrefix = true /\ pins_ok (st_pins s).

Lemma pin_G_refl s : G s s.
Proof. done. Qed.

Lemma getJSON_pin : W (getJSON (T := gcPin) pk) (fun r => match r with
  | Ok p => h ∈ pin_Hashes p /\ latest - pin_CreatedAt p < GCPinTTL
  | Err e => get_is_not_found e = false end).
Proof.
  unfold getJSON. wpi_step; [done| | |done].
  - intros s ob (ob' & p & Ho' & Hsz & Hdec & Hh & Ht) Ho. assert (ob = ob') as -> by congruence.
    cbn [wpi]. unfold ReadAllLimited. unfold size_of in Hsz. rewrite (proj2 (Z.ltb_ge _ _)) by done.
    by rewrite Hdec.
  - intros s (ob & p & Ho & _) Hn. congruence.
Qed.

Lemma refresh_step_wpi t i p : t <= latest -> pins_ok p -> W (refresh_step t i p) (fun r => match r with
  | inl p' => pins_ok p' /\ (h ∈ ps_hashes p \/ Key i = pk -> h ∈ ps_hashes p')
  | inr _ => True end).
Proof.
  intros Ht Hp. unfold refresh_step.
  destruct (bool_decide (Key i ∈ ps_read p) || _) eqn:E.
  { cbn. split; [done|]. intros [Hh|Hk]; [done|]. apply orb_true_iff in E as [E|E].
    - apply bool_decide_eq_true in E. apply Hp. congruence.
    - rewrite Hk, (proj2 pin_key_ok) in E. done. }
  destruct (decide (Key i = pk)) as [Hk|Hne].
  - rewrite Hk. wpi_step. eapply wpi_mono; [|apply getJSON_pin]. intros [pin|e]; cbn.
    + intros [Hh Hc]. rewrite (proj2 (Z.ltb_lt _ _)).
      * assert (h ∈ list_to_set (C := gset Hash) (pin_Hashes pin) ∪ ps_hashes p) as Hin
          by (apply elem_of_union; left; by apply elem_of_list_to_set).
        split; [intros _; exact Hin|intros _; exact Hin].
      * apply Time.Sub_lt; [done|]. lia.
    + by intros ->.
  - wpi_step. eapply wpi_mono; [|apply reads_only_wpi; [done|apply getJSON_reads]].
    intros [pin|e] _; cbn.
    + split.
      * intros [Hin|Hin]%elem_of_union; [by apply elem_of_singleton in Hin|]. cbn.
        destruct (_ <? _); [apply elem_of_union; right|]; by apply Hp.
      * intros [Hh|Hk]; [|done]. destruct (_ <? _); [by apply elem_of_union; right|done].
    + destruct (get_is_not_found e); [|done]. split; [done|]. by intros [Hh|Hk].
Qed.

Lemma refresh_wpi t p : t <= latest -> pins_ok p -> W (refresh t p) (fun r => match r with
  | Ok p' => pins_ok p' /\ h ∈ ps_hashes p'
  | Err _ => True end).
Proof.
  intros Ht Hp. unfold refresh. wpi_step; [done|..].
  - intros s l (ob & pin & Ho & _) Hl. cbn [fst snd]. wpi_step.
    assert (info_of pk ob ∈ l) as Hin
      by (rewrite Hl; apply elem_of_listing; exists ob; split_and!; [done|done|apply pin_key_ok]).
    apply (wpi_for _ _ _ l _ (fun pre p' => pins_ok p' /\ (info_of pk ob ∈ pre -> h ∈ ps_hashes p'))).
    + split; [done|]. intros Hi. by apply not_elem_of_nil in Hi.
    + intros pre i post p' El [H1 H2]. eapply wpi_mono; [|by apply refresh_step_wpi].
      intros [p2|e]; [|done]. intros [H3 H4]. split; [done|].
      intros [Hi|Hi%list_elem_of_singleton]%elem_of_app; apply H4; [left; by apply H2|right; by subst i].
    + intros p' [H1 H2]. cbn. split; [done|]. by apply H2.
  - intros s c l l' _ _. cbn [fst snd]. wpi_step.
    apply (wpi_for _ _ _ l _ (fun _ p' => pins_ok p')); [done| |done].
    intros pre i post p' El H1. eapply wpi_mono; [|by apply refresh_step_wpi]. intros [p2|e]; naive_solver.
Qed.

Lemma record_write r : HasPrefix (gr_key r) gcRunsPrefix = true -> W (gc_write r) (fun p => gr_key p.1 = gr_key r).
Proof.
  intros Hk. unfold gc_write. apply any_now; [done|]. intros t. unfold putJSON. wpi_step; [done| |].
  - intros s t' (ob & p & Ho & H) _. split.
    + exists ob, p. rewrite lookup_insert_ne; [done|]. cbn. intros E. destruct pin_key_ok as [Hp _].
      rewrite <- E in Hp. apply HasPrefix_inv in Hk as [x Hx]. rewrite Hx in Hp. done.
    + apply lookup_insert_ne. apply gc_key_not_chunk. unfold gc_key. cbn.
      apply HasPrefix_inv in Hk as [x ->]. apply (HasPrefix_app "gc/" ("runs/" +:+ x)).
  - intros [[]|e]; [|done]. by apply any_now.
Qed.

Lemma scan_reads so cs s : reads_only (scan tokenize sha256 so cs s).
Proof.
  assert (forall kind i s, reads_only (harvest_job tokenize sha256 kind i s)) as Hjob.
  { intros kind i s1. unfold harvest_job, harvestManifest. cbn. split; [done|].
    intros [body|[]]; cbn; try done. by destruct (stream_refs _ _ _ _). }
  unfold scan. apply reads_only_bind; [apply effectiveNow_reads|]. intros t.
  apply reads_only_bind; [done|]. intros [l [e|]]; [done|].
  destruct (fold_left _ l _) as [[T K] Z]. apply reads_only_bind.
  { apply reads_only_for. intros i s1. unfold backup_step. by repeat case_match. }
  intros [s1|e]; [|done]. apply reads_only_bind.
  { apply reads_only_for. intros p st. unfold prefix_step. apply reads_only_bind; [done|]. intros l2.
    apply reads_only_bind.
    - apply reads_only_for. intros i [s2 st2]. unfold wal_step. repeat case_match; try done.
      apply reads_only_bind; [done|]. by intros [s3|e].
    - intros [st2|e]; [|done]. by destruct l2.2. }
  by intros [[s2 st2]|e].
Qed.

Lemma checkpoint_pins s : pin_state_ok s -> W (checkpoint tokenize sha256 o start slice s) (fun r =>
  match r with inl s' => pin_state_ok s' /\ h ∈ ps_hashes (st_pins s') | inr _ => True end).
Proof.
  intros [Hk Hp]. unfold checkpoint. apply any_now; [done|]. intros began.
  wpi_step. eapply wpi_mono; [|by apply (record_write (with_rec (st_run s) _))].
  intros [r [e|]] Hr; cbn [fst snd]; [done|]. wpi_step; [done|]. intros d [_ Hd].
  wpi_step. eapply wpi_mono; [|by apply refresh_wpi]. intros [pins|e]; [|done]. intros [H1 H2].
  wpi_step. eapply wpi_mono; [|by apply reads_only_wpi]. intros r2 _.
  destruct r2 as [[|l ls]|e]; [|done|done]. wpi_step. eapply wpi_mono; [|apply reads_only_wpi; [|apply scan_reads]]; [|done]. intros [snap|e] _; [|done].
  apply any_now; [done|]. intros t1. apply any_now; [done|]. intros t2. cbn.
  split; [|done]. split; [|done]. cbn. cbn in Hr. by rewrite Hr.
Qed.

Lemma delete_step_pins s oi t : pin_state_ok s -> h ∈ ps_hashes (st_pins s) -> is_hash (oi_hash oi) ->
  W (delete_step s oi t) (fun _ => True).
Proof.
  intros Hs Hh Hoi. unfold delete_step. destruct (_ || _) eqn:E; [done|].
  apply orb_false_iff in E as [_ E%bool_decide_eq_false].
  wpi_step; [done| |by intros []]. intros st (ob & p & Ho & H). split.
  - exists ob, p. rewrite lookup_delete_ne; [done|]. intros Hk. symmetry in Hk. revert Hk.
    apply gc_key_not_chunk. unfold gc_key. destruct pin_key_ok as [Hp _]. apply HasPrefix_inv in Hp as [x ->].
    apply (HasPrefix_app "gc/" ("pins/" +:+ x)).
  - apply lookup_delete_ne. intros Hc%ChunkKey_inj; [|done..]. by rewrite Hc in E.
Qed.

Lemma batches_pins batches s : pin_state_ok s -> (st_deadline s <= first \/ h ∈ ps_hashes (st_pins s)) ->
  Forall (Forall (fun oi => is_hash (oi_hash oi))) batches ->
  W (for_ batches s (batch_step tokenize sha256 beats o start slice)) (fun _ => True).
Proof.
  intros Hs0 Hcov Hb.
  apply (wpi_for _ _ _ batches _ (fun _ s => pin_state_ok s /\ (st_deadline s <= first \/ h ∈ ps_hashes (st_pins s))));
    [done| |done].
  clear s Hs0 Hcov. intros pre batch post s El [Hs Hcov]. unfold batch_step. wpi_step.
  eapply (wpi_mono _ _ _ _ (fun r => gr_key r = gr_key (st_run s))).
  2:{ destruct (beats _); [|done]. unfold heartbeat. wpi_step. apply record_write, Hs. }
  intros r Hr. assert (pin_state_ok (with_run s r)) as Hs' by (split; [cbn; rewrite Hr; apply Hs|apply Hs]).
  wpi_step; [done|]. intros d [Hd _]. wpi_step.
  eapply (wpi_mono _ _ _ _ (fun c => match c with inl s' => pin_state_ok s' /\ h ∈ ps_hashes (st_pins s') | inr _ => True end)).
  2:{ unfold Time.Before. cbn [st_deadline with_run]. destruct (d_time d <? st_deadline s) eqn:E; cbn [negb].
      - apply Z.ltb_lt in E. split; [done|]. destruct Hcov; [lia|done].
      - by apply checkpoint_pins. }
  intros [s'|e]; [|done]. intros [H1 H2]. wpi_step.
  eapply wpi_mono; [|apply reads_only_wpi; [done|apply checkFresh_reads]].
  intros fresh _. destruct fresh; cbn [negb]; [|done]. wpi_step.
  apply (wpi_for _ _ _ batch _ (fun _ _ => True)); [done| |].
  - intros pre' oi post' t' -> _. eapply wpi_mono; [|apply delete_step_pins; try done].
    + by intros [t''|[]].
    + rewrite Forall_forall in Hb. assert (pre' ++ oi :: post' ∈ batches) as Hin by (rewrite El; apply elem_of_app; right; left).
      specialize (Hb _ Hin). rewrite Forall_forall in Hb. apply Hb, elem_of_app. right; left.
  - intros t' _. cbn. split; [exact H1|by right].
Qed.
End pinned.

(** C30: a batch that starts after a pin is written spares what it names: from a state whose
    delete window is over, with a readable unexpired pin of the chunk in the store from now
    on, no step of any number of batches deletes the chunk, whatever fails and whatever other
    processes do. *)
Theorem batches_respect_pins (tokenize : string -> list token) (sha256 : string -> Hash)
    `{CR : Codec string gcRunRecord} `{CP : Codec string gcPin} (beats : nat -> bool) (o : SweepOptions)
    (start : time) (slice : duration) (first latest : time) (pk : string) (h : Hash)
    (batches : list (list orphanInfo)) (s : sweep_state)
    (env : nat -> gmap string (object string) -> gmap string (object string)) (ds : nat -> decision)
    (st : gmap string (object string)) :
  HasPrefix pk gcPinsPrefix = true -> HasSuffix pk ".json" = true -> is_hash h -> reads_only (leases o) ->
  HasPrefix (gr_key (st_run s)) gcRunsPrefix = true -> pk ∉ ps_read (st_pins s) ->
  Forall (Forall (fun oi => is_hash (oi_hash oi))) batches ->
  st_deadline s <= first -> (forall j, first <= d_time (ds j) <= latest) ->
  pin_holds latest pk h st -> (forall j st, pin_holds latest pk h st -> pin_holds latest pk h (env j st)) ->
  let '(_, _, steps) := runc env ds 0 (for_ batches s (batch_step tokenize sha256 beats o start slice)) st in
  Forall (fun st => st.2 !! ChunkKey h = st.1 !! ChunkKey h) steps.
Proof.
  intros Hp Hsuf Hh Hl Hk Hr Hb Hdl Hds H0 Henv.
  pose proof (wpi_runc _ _ _ _ _ env ds 0 st Hds Henv H0
    (batches_pins tokenize sha256 beats o start slice latest pk h first (conj Hp Hsuf) Hh Hl batches s
       (conj Hk (fun Hin => match Hr Hin with end)) (or_introl Hdl) Hb)) as H.
  destruct (runc env ds 0 _ st) as [[r s'] steps]. by destruct H as (_ & _ & H).
Qed.

(** A pin of chunk 1, written at time 50, and a sweep about to delete it as an orphan. *)
Definition demo_pin : gcPin :=
  {| pin_Schema := gcPinSchema; pin_Owner := "w1"; pin_CreatedAt := 50; pin_Hashes := [1] |}.

Definition demo_pin_object : object string :=
  Object (encode (Codec := countable_codec) demo_pin) 1 50 0 WORMNone.

Definition demo_pinned : gmap string (object string) :=
  <["gc/pins/w1.json" := demo_pin_object]> demo_repo.

Definition demo_sweeping : sweep_state :=
  {| st_run := {| gr_key := "gc/runs/r1.json";
                  gr_rec := {| rr_Schema := gcRunSchema; rr_RunID := "r1"; rr_State := "sweeping"; rr_Seq := 0;
                               rr_StartedAt := 0; rr_HeartbeatAt := 0; rr_ExpiresAt := GCRunTTL |};
                  gr_publishedAt := 0; gr_lastBeat := 0 |};
     st_pins := pinSet0; st_snap := snapshot0; st_tally := tally0; st_deadline := 0; st_batch := 0 |}.

Lemma demo_pin_holds : pin_holds (CP := countable_codec) 100 "gc/pins/w1.json" 1 demo_pinned.
Proof.
  exists demo_pin_object, demo_pin. split_and!.
  - apply lookup_insert_eq.
  - vm_compute. discriminate.
  - apply (decode_encode (Codec := countable_codec)).
  - by left.
  - vm_compute. reflexivity.
Qed.

Lemma batches_respect_pins_witness :
  let '(_, _, steps) := runc (B := string) demo_env (healthy_now 100) 0
    (for_ [[{| oi_hash := 1; oi_size := 1 |}]] demo_sweeping
       (batch_step demo_tokenize demo_sha256 (CR := countable_codec) (CP := countable_codec) (fun _ => true) demo_sweep 0 60))
    demo_pinned in
  Forall (fun st => st.2 !! ChunkKey 1 = st.1 !! ChunkKey 1) steps.
Proof.
  apply (batches_respect_pins demo_tokenize demo_sha256 (CR := countable_codec) (CP := countable_codec)
    (fun _ => true) demo_sweep 0 60 100 100 "gc/pins/w1.json" 1).
  - reflexivity.
  - reflexivity.
  - unfold is_hash. lia.
  - exact I.
  - reflexivity.
  - apply not_elem_of_empty.
  - constructor; [constructor; [unfold is_hash; cbn; lia|constructor]|constructor].
  - cbn. lia.
  - intros j. cbn. lia.
  - exact demo_pin_holds.
  - intros j s (ob & p & Ho & H). exists ob, p. split; [|exact H]. unfold demo_env. by rewrite lookup_delete_ne.
Defined.
