(* ===== verification/Envelope.v ===== *)
(** The stored form of a chunk (internal/plugin/compression/compression.go) and the
    codecs that produce and read its payload: compressors (compression/none,
    compression/zstd) and encryptors (plugin/encryption).

    The zstd encoder and AES-GCM are parameters: a codec is the record of its
    operations, and what is relied on of it is a law about them. *)
From S2P Require Import Prelude GoString.
From Stdlib Require Import Ascii.

Local Open Scope string_scope.
Local Open Scope Z_scope.
#[local] Arguments String.append : simpl nomatch.

Definition byte : Type := ascii.

Definition EnvelopeVersionV1 : byte := Ascii.ascii_of_N 1.
Definition EnvelopeVersion : byte := Ascii.ascii_of_N 2.

Definition AlgoNone : byte := Ascii.ascii_of_N 0.
Definition AlgoZstd : byte := Ascii.ascii_of_N 1.

Definition nonceLen : nat := 12.
Definition v1HeaderLen : nat := 2.
Definition v2HeaderLen : nat := 1 + 1 + 1 + nonceLen.

Record EncryptionFields := { ef_Algo : byte; ef_Nonce : string }.

Definition zero_nonce : string := String.concat "" (repeat (String Ascii.zero "") nonceLen).

Definition no_encryption : EncryptionFields := {| ef_Algo := Ascii.zero; ef_Nonce := zero_nonce |}.

Definition IsEncrypted (e : EncryptionFields) : bool := negb (Ascii.eqb (ef_Algo e) Ascii.zero).

Definition WriteEnvelope (algo : byte) (e : EncryptionFields) (payload : string) : string :=
  String EnvelopeVersion (String algo (String (ef_Algo e) (ef_Nonce e ++ payload))).

Definition WriteEnvelopeV1 (algo : byte) (payload : string) : string :=
  String EnvelopeVersionV1 (String algo payload).

Definition ReadEnvelope (b : string) : option (byte * EncryptionFields * string) :=
  match b with
  | EmptyString => None
  | String version rest =>
      if Ascii.eqb version EnvelopeVersionV1 then
        if (String.length b <? v1HeaderLen)%nat then None
        else match rest with
             | String algo payload => Some (algo, no_encryption, payload)
             | EmptyString => None
             end
      else if Ascii.eqb version EnvelopeVersion then
        if (String.length b <? v2HeaderLen)%nat then None
        else match rest with
             | String algo (String enc tail) =>
                 Some (algo, {| ef_Algo := enc; ef_Nonce := stake nonceLen tail |}, sdrop nonceLen tail)
             | _ => None
             end
      else None
  end.

(** ** Codecs *)

Record Compressor := {
  c_Algorithm : byte;
  Compress : string -> option (string * byte);
  Decompress : string -> option string
}.

Inductive decrypt_err := AuthenticationFailed | DecryptFailed.

(** An encryptor; the random nonce of [Encrypt] is an argument. *)
Record Encryptor := {
  e_Algorithm : byte;
  Encrypt : string -> string -> option string;
  Decrypt : string -> string -> string + decrypt_err
}.

(** Registries: by algorithm byte. *)
Definition CodecRegistry (C : Type) : Type := gmap byte C.

Definition Has {C} (r : CodecRegistry C) (algo : byte) : bool := bool_decide (is_Some (r !! algo)).

(** [Register] panics on an algorithm that is taken. *)
Definition Register {C} (r : CodecRegistry C) (algo : byte) (c : C) : option (CodecRegistry C) :=
  match r !! algo with Some _ => None | None => Some (<[algo := c]> r) end.

(** compression/none *)
Definition none_Compressor : Compressor :=
  {| c_Algorithm := AlgoNone; Compress := fun p => Some (p, AlgoNone); Decompress := Some |}.

(** compression/zstd: inputs under 64 bytes are stored as they are. *)
Definition zstd_Compressor (EncodeAll : string -> string) (DecodeAll : string -> option string) : Compressor :=
  {| c_Algorithm := AlgoZstd;
     Compress := fun p => if (String.length p <? 64)%nat then Some (p, AlgoNone) else Some (EncodeAll p, AlgoZstd);
     Decompress := DecodeAll |}.

Definition AlgoAESGCM : byte := Ascii.ascii_of_N 1.

(** encryption/aesgcm over an AEAD. *)
Definition aesgcm_Encryptor (Seal : string -> string -> string) (Open : string -> string -> option string) : Encryptor :=
  {| e_Algorithm := AlgoAESGCM; Encrypt := fun nonce p => Some (Seal nonce p);
     Decrypt := fun nonce ct => match Open nonce ct with Some p => inl p | None => inr AuthenticationFailed end |}.

(** What is relied on: reading back what a codec wrote, under the algorithm it named. *)
Definition reads_back (reg : CodecRegistry Compressor) (c : Compressor) : Prop :=
  forall p payload algo, Compress c p = Some (payload, algo) ->
    exists d, reg !! algo = Some d /\ Decompress d payload = Some p.

Definition opens (e : Encryptor) : Prop :=
  forall nonce p ct, Encrypt e nonce p = Some ct -> Decrypt e nonce ct = inl p.

(** ** Facts *)

Lemma ReadEnvelope_WriteEnvelope algo e payload : String.length (ef_Nonce e) = nonceLen ->
  ReadEnvelope (WriteEnvelope algo e payload) = Some (algo, e, payload).
Proof.
  intros Hn. unfold ReadEnvelope, WriteEnvelope.
  change (Ascii.eqb EnvelopeVersion EnvelopeVersionV1) with false.
  change (Ascii.eqb EnvelopeVersion EnvelopeVersion) with true. cbn [String.length].
  rewrite string_app_length, Hn. cbn [Nat.add nonceLen v2HeaderLen Nat.ltb Nat.leb].
  rewrite <- Hn, stake_app, sdrop_app. by destruct e.
Qed.

Lemma ReadEnvelope_WriteEnvelopeV1 algo payload :
  ReadEnvelope (WriteEnvelopeV1 algo payload) = Some (algo, no_encryption, payload).
Proof. done. Qed.

(** An envelope that reads is one of the two forms, byte for byte. *)
Lemma ReadEnvelope_Some b algo e payload : ReadEnvelope b = Some (algo, e, payload) ->
  b = WriteEnvelopeV1 algo payload /\ e = no_encryption \/
  b = WriteEnvelope algo e payload /\ String.length (ef_Nonce e) = nonceLen.
Proof.
  unfold ReadEnvelope. destruct b as [|v rest]; [done|].
  destruct (Ascii.eqb_spec v EnvelopeVersionV1) as [->|_].
  { destruct (_ <? _)%nat; [done|]. destruct rest as [|a r]; [done|]. intros [= -> <- ->]. by left. }
  destruct (Ascii.eqb_spec v EnvelopeVersion) as [->|_]; [|done].
  destruct (_ <? _)%nat eqn:El; [done|]. apply Nat.ltb_ge in El.
  destruct rest as [|a [|x tail]]; [done..|].
  pose proof (stake_sdrop nonceLen tail) as Hs. pose proof (stake_length nonceLen tail) as Hn.
  cbn [String.length v2HeaderLen Nat.add] in El.
  remember (stake nonceLen tail) as nonce. remember (sdrop nonceLen tail) as pl. clear Heqnonce Heqpl.
  intros [= -> <- <-]. right. split; [by rewrite Hs|]. cbn [ef_Nonce]. rewrite Hn. unfold nonceLen in *. lia.
Qed.

Lemma none_reads_back reg : reg !! AlgoNone = Some none_Compressor -> reads_back reg none_Compressor.
Proof. intros H p payload algo [= <- <-]. by exists none_Compressor. Qed.

Lemma zstd_reads_back reg enc dec : (forall p, dec (enc p) = Some p) ->
  reg !! AlgoNone = Some none_Compressor -> reg !! AlgoZstd = Some (zstd_Compressor enc dec) ->
  reads_back reg (zstd_Compressor enc dec).
Proof.
  intros Hd Hn Hz p payload algo. cbn [Compress zstd_Compressor].
  destruct (_ <? _)%nat; intros [= <- <-].
  - by exists none_Compressor.
  - exists (zstd_Compressor enc dec). split; [done|]. apply Hd.
Qed.

Lemma aesgcm_opens seal open : (forall n p, open n (seal n p) = Some p) -> opens (aesgcm_Encryptor seal open).
Proof. intros H nonce p ct [= <-]. cbn. by rewrite H. Qed.
