(* ===== verification/Cas.v ===== *)
(** The content-addressed store (internal/repo/cas.go, adopted_mark.go).

    A CAS is its configuration and a mutable state: the chunks it has seen, the chunks it
    adopted without writing them, and the guard against foreign data keys.  [sha256] is the
    digest; a nonce is drawn by the caller.  One operation runs at a time; the durability
    classes, the content digest of the upload and the spill files are not modelled. *)
From S2P Require Import Prelude GoString Storage Concur Hash Commit Envelope.
From Stdlib Require Import Ascii.

Local Open Scope string_scope.
Local Open Scope list_scope.
Local Open Scope Z_scope.
#[local] Arguments String.append : simpl nomatch.

(** ** Configuration *)

(** [RetainUntilFunc] is the closure that computes the deadline anew. *)
Record CASRetention := {
  cr_RetainUntil : time;
  cr_RetainUntilFunc : option (prog string time);
  cr_Mode : WORMMode
}.

Definition CASRetention_IsZero (r : CASRetention) : bool :=
  bool_decide (cr_Mode r = WORMNone) ||
  (Time.IsZero (cr_RetainUntil r) && match cr_RetainUntilFunc r with None => true | Some _ => false end).

Definition retainUntil (r : CASRetention) : prog string time :=
  match cr_RetainUntilFunc r with Some f => f | None => Ret (cr_RetainUntil r) end.

Definition no_retention : CASRetention :=
  {| cr_RetainUntil := 0; cr_RetainUntilFunc := None; cr_Mode := WORMNone |}.

Record seenEntry := { writtenAt : time; retainedUntil : time }.

(** The adopted chunks: in memory, or spilled with the ones forgotten since. *)
Inductive adoption :=
| InMemory (adopted : gset Hash)
| Spilled (all gone : gset Hash).

Record config := {
  cas_writer : Compressor;
  cas_registry : CodecRegistry Compressor;
  cas_encWriter : option Encryptor;
  cas_encRegistry : CodecRegistry Encryptor;
  cas_retention : CASRetention;
  cas_retentionUnenforceable : bool;
  cas_hints : option (gset Hash);
  cas_hintFilter : option (Hash -> bool);
  cas_seenCap : Z
}.

Record CAS := {
  seen : gmap Hash seenEntry;
  seenCount : Z;
  adopted : adoption;
  adopt_resolved : bool;
  adopt_err : bool;
  adopt_multiKEK : option bool;
  dedupMiss : Z;
  dedupInMem : Z;
  dedupStorage : Z
}.

Definition seenWriteTrust : duration := 5 * Time.Minute.
Definition defaultSeenCacheLimit : Z := Z.shiftl 1 20.
Definition sharedDEKPrefix : string := "keys/shared-dek/".
Definition MaxChunkEnvelopeBytes : Z := Z.shiftl 256 20.
Definition retentionExtendHeadroom : duration := Time.Hour.

Inductive cas_err :=
| ErrRetentionUnenforceable
| CompressFailed
| EncryptFailed
| PutFailed (e : serr)
| GetFailed (e : serr)
| Oversized
| CorruptEnvelope
| UnknownEncryption
| DecryptError (e : decrypt_err)
| UnknownCodec
| DecompressFailed
| ErrChecksumMismatch (got : Hash)
| RetentionNotExtended (e : serr)
| NotAdoptable
| StatFailed (e : serr)
| DeleteFailed (e : serr).

Record ChunkInfo := { ci_Hash : Hash; ci_Size : Z; ci_Deduped : bool }.

(** ** Options *)

Inductive CASOption :=
| WithCompressor (c : Compressor)
| WithRegistry (r : CodecRegistry Compressor)
| WithEncryptor (e : Encryptor)
| WithEncryptionRegistry (r : CodecRegistry Encryptor)
| WithRetention (r : CASRetention)
| WithRetentionAllowUnenforced
| WithSeenCacheLimit (n : Z)
| WithDedupHints (h : gset Hash)
| WithDedupHintFilter (f : Hash -> bool)
| WithSpilledAdoption.

(** A CAS under construction; the writer and the encryption registry may be missing. *)
Record building := {
  b_writer : option Compressor;
  b_registry : CodecRegistry Compressor;
  b_encWriter : option Encryptor;
  b_encRegistry : option (CodecRegistry Encryptor);
  b_retention : CASRetention;
  b_allowUnenforced : bool;
  b_hints : option (gset Hash);
  b_hintFilter : option (Hash -> bool);
  b_seenCap : Z;
  b_adopted : adoption
}.

Definition building0 : building :=
  {| b_writer := None; b_registry := {[AlgoNone := none_Compressor]}; b_encWriter := None;
     b_encRegistry := None; b_retention := no_retention; b_allowUnenforced := false; b_hints := None;
     b_hintFilter := None; b_seenCap := defaultSeenCacheLimit; b_adopted := InMemory ∅ |}.

(** One option; [None] is the registry's panic. *)
Definition apply_option (b : building) (opt : CASOption) : option building :=
  let '(Build_building w r ew er rt au h hf cap ad) := b in
  match opt with
  | WithCompressor c => Some (Build_building (Some c) r ew er rt au h hf cap ad)
  | WithRegistry r => Some (Build_building w r ew er rt au h hf cap ad)
  | WithEncryptor e =>
      match Register (default ∅ er) (e_Algorithm e) e with
      | Some er => Some (Build_building w r (Some e) (Some er) rt au h hf cap ad)
      | None => None
      end
  | WithEncryptionRegistry er => Some (Build_building w r ew (Some er) rt au h hf cap ad)
  | WithRetention rt => Some (Build_building w r ew er rt au h hf cap ad)
  | WithRetentionAllowUnenforced => Some (Build_building w r ew er rt true h hf cap ad)
  | WithSeenCacheLimit n => Some (Build_building w r ew er rt au h hf (Z.max n 0) ad)
  | WithDedupHints hs =>
      Some (Build_building w r ew er rt au (if bool_decide (hs = ∅) then h else Some hs) hf cap ad)
  | WithDedupHintFilter f => Some (Build_building w r ew er rt au h (Some f) cap ad)
  | WithSpilledAdoption => Some (Build_building w r ew er rt au h hf cap (Spilled ∅ ∅))
  end.

Fixpoint apply_options (b : building) (opts : list CASOption) : option building :=
  match opts with
  | [] => Some b
  | opt :: opts => match apply_option b opt with Some b => apply_options b opts | None => None end
  end.

Definition CAS0 (ad : adoption) : CAS :=
  {| seen := ∅; seenCount := 0; adopted := ad; adopt_resolved := false; adopt_err := false;
     adopt_multiKEK := None; dedupMiss := 0; dedupInMem := 0; dedupStorage := 0 |}.

(** [NewCAS] on a backend with the given capabilities. *)
Definition NewCAS (caps : Capabilities) (opts : list CASOption) : option (config * CAS) :=
  match apply_options building0 opts with
  | None => None
  | Some b =>
      let writer := default none_Compressor (b_writer b) in
      let registry := if Has (b_registry b) (c_Algorithm writer) then b_registry b
                      else <[c_Algorithm writer := writer]> (b_registry b) in
      Some ({| cas_writer := writer; cas_registry := registry; cas_encWriter := b_encWriter b;
               cas_encRegistry := default ∅ (b_encRegistry b); cas_retention := b_retention b;
               cas_retentionUnenforceable :=
                 negb (CASRetention_IsZero (b_retention b)) && negb (b_allowUnenforced b) && negb (WORM caps);
               cas_hints := b_hints b; cas_hintFilter := b_hintFilter b; cas_seenCap := b_seenCap b |},
            CAS0 (b_adopted b))
  end.

(** ** The adopted set *)

Definition with_adopted (c : CAS) (a : adoption) : CAS :=
  {| seen := seen c; seenCount := seenCount c; adopted := a; adopt_resolved := adopt_resolved c;
     adopt_err := adopt_err c; adopt_multiKEK := adopt_multiKEK c; dedupMiss := dedupMiss c;
     dedupInMem := dedupInMem c; dedupStorage := dedupStorage c |}.

Definition WasAdopted (c : CAS) (h : Hash) : bool :=
  match adopted c with
  | InMemory a => bool_decide (h ∈ a)
  | Spilled all gone => negb (bool_decide (h ∈ gone)) && bool_decide (h ∈ all)
  end.

(** [ForEachAdopted], [AdoptedHashes]: the hashes visited. *)
Definition AdoptedHashes (c : CAS) : list Hash :=
  match adopted c with
  | InMemory a => elements a
  | Spilled all gone => filter (fun h => h ∉ gone) (elements all)
  end.

Definition AdoptedLen (c : CAS) : Z :=
  match adopted c with
  | InMemory a => Z.of_nat (size a)
  | Spilled all gone => Z.of_nat (size all) - Z.of_nat (size gone)
  end.

Definition markAdopted (h : Hash) (c : CAS) : CAS :=
  with_adopted c (match adopted c with
                  | InMemory a => InMemory ({[h]} ∪ a)
                  | Spilled all gone => Spilled ({[h]} ∪ all) (gone ∖ {[h]})
                  end).

Definition forgetAdoption (h : Hash) (c : CAS) : CAS :=
  with_adopted c (match adopted c with
                  | InMemory a => InMemory (a ∖ {[h]})
                  | Spilled all gone => Spilled all ({[h]} ∪ gone)
                  end).

Definition ForgetAdopted (hashes : list Hash) (c : CAS) : CAS := fold_left (fun c h => forgetAdoption h c) hashes c.

(** ** The seen cache *)

Definition with_seen (c : CAS) (s : gmap Hash seenEntry) (n : Z) : CAS :=
  {| seen := s; seenCount := n; adopted := adopted c; adopt_resolved := adopt_resolved c;
     adopt_err := adopt_err c; adopt_multiKEK := adopt_multiKEK c; dedupMiss := dedupMiss c;
     dedupInMem := dedupInMem c; dedupStorage := dedupStorage c |}.

Definition evictSeen (cfg : config) (c : CAS) : CAS :=
  if seenCount c <=? cas_seenCap cfg then c else with_seen c ∅ 0.

Definition markSeen (cfg : config) (h : Hash) (e : seenEntry) (c : CAS) : CAS :=
  let loaded := bool_decide (is_Some (seen c !! h)) in
  let c := with_seen c (<[h := e]> (seen c)) (seenCount c) in
  if loaded then c
  else if cas_seenCap cfg <=? 0 then c
  else
    let c := with_seen c (seen c) (seenCount c + 1) in
    if cas_seenCap cfg <? seenCount c then evictSeen cfg c else c.

Definition unmarkSeen (cfg : config) (h : Hash) (c : CAS) : CAS :=
  if bool_decide (is_Some (seen c !! h)) && (0 <? cas_seenCap cfg)
  then with_seen c (delete h (seen c)) (seenCount c - 1)
  else with_seen c (delete h (seen c)) (seenCount c).

Definition ForgetChunk (cfg : config) (hashes : list Hash) (c : CAS) : CAS :=
  fold_left (fun c h => forgetAdoption h (unmarkSeen cfg h c)) hashes c.

(** ** Statistics and the guard *)

Definition with_stats (c : CAS) (miss mem stored : Z) : CAS :=
  {| seen := seen c; seenCount := seenCount c; adopted := adopted c; adopt_resolved := adopt_resolved c;
     adopt_err := adopt_err c; adopt_multiKEK := adopt_multiKEK c; dedupMiss := dedupMiss c + miss;
     dedupInMem := dedupInMem c + mem; dedupStorage := dedupStorage c + stored |}.

Definition with_guard (c : CAS) (resolved err : bool) (multiKEK : option bool) : CAS :=
  {| seen := seen c; seenCount := seenCount c; adopted := adopted c; adopt_resolved := resolved;
     adopt_err := err; adopt_multiKEK := multiKEK; dedupMiss := dedupMiss c;
     dedupInMem := dedupInMem c; dedupStorage := dedupStorage c |}.

Definition DedupTotal (c : CAS) : Z := dedupMiss c + dedupInMem c + dedupStorage c.

(** More than one shared data key; an unreadable listing says no more than what it showed. *)
Definition repoIsMultiKEK : prog string bool :=
  let* l := sList sharedDEKPrefix in Ret (1 <? Z.of_nat (length l.1)).

Section cas.
Context (sha256 : string -> Hash) (cfg : config).

(** ** Reading *)

Definition readEnvelopeLimited (body : string) (max : Z) : option string := ReadAllLimited body max.

(** What an envelope decodes to under the registries. *)
Definition open_envelope (hash : Hash) (envelope : string) : result cas_err string :=
  match ReadEnvelope envelope with
  | None => Err CorruptEnvelope
  | Some (algo, enc, payload) =>
      let opened :=
        if IsEncrypted enc then
          match cas_encRegistry cfg !! ef_Algo enc with
          | None => Err UnknownEncryption
          | Some d => match Decrypt d (ef_Nonce enc) payload with
                      | inl p => Ok p
                      | inr e => Err (DecryptError e)
                      end
          end
        else Ok payload in
      match opened with
      | Err e => Err e
      | Ok payload =>
          match cas_registry cfg !! algo with
          | None => Err UnknownCodec
          | Some codec =>
              match Decompress codec payload with
              | None => Err DecompressFailed
              | Some body => if sha256 body =? hash then Ok body else Err (ErrChecksumMismatch (sha256 body))
              end
          end
      end
  end.

Definition GetChunk (hash : Hash) : prog string (result cas_err string) :=
  let* r := sGet (ChunkKey hash) in
  match r with Ok body => Ret (Ok body) | Err e => Ret (Err (GetFailed e)) end.

Definition GetChunkBytes (hash : Hash) (c : CAS) : prog string (result cas_err string * CAS) :=
  let* r := GetChunk hash in
  match r with
  | Err e => Ret (Err e, c)
  | Ok body =>
      match readEnvelopeLimited body MaxChunkEnvelopeBytes with
      | None => Ret (Err Oversized, c)
      | Some envelope =>
          match open_envelope hash envelope with
          | Err e => Ret (Err e, c)
          | Ok body => Ret (Ok body, markSeen cfg hash {| writtenAt := 0; retainedUntil := 0 |} c)
          end
      end
  end.

(** ** The checks before a chunk is adopted *)

Definition ensureRetention (hash : Hash) (have : time) : prog string (result cas_err time) :=
  if CASRetention_IsZero (cas_retention cfg) then Ret (Ok 0)
  else
    let* need := retainUntil (cas_retention cfg) in
    if negb (Time.IsZero have) && negb (Time.Before have need) then Ret (Ok have)
    else
      let until := match cr_RetainUntilFunc (cas_retention cfg) with
                   | Some _ => Time.Add need retentionExtendHeadroom
                   | None => need
                   end in
      let* r := sSetRetention (ChunkKey hash) until (cr_Mode (cas_retention cfg)) in
      match r with
      | Err ErrUnsupported => Ret (Ok have)
      | Err e => Ret (Err (RetentionNotExtended e))
      | Ok _ => Ret (Ok until)
      end.

(** An error that says the chunk is not readable with this backup's data key. *)
Definition foreign (e : cas_err) : bool :=
  match e with
  | DecryptError AuthenticationFailed | ErrChecksumMismatch _ => true
  | _ => false
  end.

Definition ensureAdoptable (hash : Hash) (c : CAS) : prog string (result cas_err unit * CAS) :=
  match cas_encWriter cfg with
  | None => Ret (Ok (), c)
  | Some _ =>
      if adopt_resolved c && adopt_err c then Ret (Err NotAdoptable, c)
      else
        let* k := (match adopt_multiKEK c with Some b => Ret b | None => repoIsMultiKEK end) in
        let c := with_guard c (adopt_resolved c) (adopt_err c) (Some k) in
        if adopt_resolved c && negb k then Ret (Ok (), c)
        else
          let* r := GetChunkBytes hash c in
          match r with
          | (Ok _, c) => Ret (Ok (), with_guard c true (adopt_err c) (adopt_multiKEK c))
          | (Err e, c) => if foreign e then Ret (Err NotAdoptable, with_guard c true true (adopt_multiKEK c))
                          else Ret (Ok (), c)
          end
  end.

(** ** Writing *)

Definition hinted (h : Hash) : bool :=
  match cas_hints cfg with Some hs => bool_decide (h ∈ hs) | None => false end ||
  match cas_hintFilter cfg with Some f => f h | None => false end.

(** A chunk found in the repository: checked, its lock extended, and adopted. *)
Definition adopt_stored (info : ChunkInfo) (c : CAS) : prog string (result cas_err ChunkInfo * CAS) :=
  let h := ci_Hash info in
  let* a := ensureAdoptable h c in
  match a with
  | (Err e, c) => Ret (Err e, c)
  | (Ok _, c) =>
      let* r := ensureRetention h 0 in
      match r with
      | Err e => Ret (Err e, c)
      | Ok until =>
          let c := markAdopted h (markSeen cfg h {| writtenAt := 0; retainedUntil := until |} c) in
          Ret (Ok {| ci_Hash := h; ci_Size := ci_Size info; ci_Deduped := true |}, with_stats c 0 0 1)
      end
  end.

(** The payload of a new envelope. *)
Definition seal (nonce body : string) : result cas_err string :=
  match Compress (cas_writer cfg) body with
  | None => Err CompressFailed
  | Some (payload, algo) =>
      match cas_encWriter cfg with
      | None => Ok (WriteEnvelope algo no_encryption payload)
      | Some e => match Encrypt e nonce payload with
                  | None => Err EncryptFailed
                  | Some ct => Ok (WriteEnvelope algo {| ef_Algo := e_Algorithm e; ef_Nonce := nonce |} ct)
                  end
      end
  end.

(** Writing a chunk the repository may or may not hold. *)
Definition write_chunk (nonce body : string) (info : ChunkInfo) (c : CAS)
    : prog string (result cas_err ChunkInfo * CAS) :=
  match seal nonce body with
  | Err e => Ret (Err e, c)
  | Ok envelope =>
      let zero := CASRetention_IsZero (cas_retention cfg) in
      let* until := (if zero then Ret 0 else retainUntil (cas_retention cfg)) in
      let* r := sPut (ChunkKey (ci_Hash info)) envelope
        {| IfNotExists := true; ContentLength := Z.of_nat (String.length envelope); RetainUntil := until;
           RetentionMode := if zero then WORMNone else cr_Mode (cas_retention cfg) |} in
      match r with
      | Ok _ =>
          let* t := now in
          Ret (Ok info, with_stats (markSeen cfg (ci_Hash info) {| writtenAt := t; retainedUntil := until |} c) 1 0 0)
      | Err ErrAlreadyExists => adopt_stored info c
      | Err e => Ret (Err (PutFailed e), c)
      end
  end.

(** A chunk this session has seen already. *)
Definition put_seen (info : ChunkInfo) (e : seenEntry) (c : CAS) : prog string (result cas_err ChunkInfo * CAS) :=
  let h := ci_Hash info in
  let* stale := (if Time.IsZero (writtenAt e) then Ret true
                 else let* t := now in Ret (seenWriteTrust <=? Time.Sub t (writtenAt e))) in
  let c := if stale then markAdopted h c else c in
  let* r := ensureRetention h (retainedUntil e) in
  match r with
  | Err e => Ret (Err e, c)
  | Ok until =>
      let c := if Time.Equal until (retainedUntil e) then c
               else markSeen cfg h {| writtenAt := writtenAt e; retainedUntil := until |} c in
      Ret (Ok {| ci_Hash := h; ci_Size := ci_Size info; ci_Deduped := true |}, with_stats c 0 1 0)
  end.

Definition PutChunk (nonce body : string) (c : CAS) : prog string (result cas_err ChunkInfo * CAS) :=
  if cas_retentionUnenforceable cfg then Ret (Err ErrRetentionUnenforceable, c)
  else
    let h := sha256 body in
    let info := {| ci_Hash := h; ci_Size := Z.of_nat (String.length body); ci_Deduped := false |} in
    match seen c !! h with
    | Some e => put_seen info e c
    | None =>
        if hinted h then
          let* st := sStat (ChunkKey h) in
          match st with
          | Ok _ => adopt_stored info c
          | Err _ => write_chunk nonce body info c
          end
        else write_chunk nonce body info c
    end.

(** ** The other operations *)

Definition HasChunk (hash : Hash) (c : CAS) : prog string (result cas_err bool) :=
  match seen c !! hash with
  | Some _ => Ret (Ok true)
  | None =>
      let* r := sStat (ChunkKey hash) in
      match r with
      | Ok _ => Ret (Ok true)
      | Err ErrNotFound => Ret (Ok false)
      | Err e => Ret (Err (StatFailed e))
      end
  end.

Definition DeleteChunk (hash : Hash) (c : CAS) : prog string (result cas_err unit * CAS) :=
  let* r := sDelete (ChunkKey hash) in
  match r with
  | Err e => Ret (Err (DeleteFailed e), c)
  | Ok _ => Ret (Ok (), unmarkSeen cfg hash c)
  end.

(** One adopted chunk of [VerifyAdopted]: missing, unchecked, or there. *)
Definition verify_step (h : Hash) (st : list Hash * Z) : prog string (list Hash * Z + False) :=
  let '(missing, unchecked) := st in
  let* r := sStat (ChunkKey h) in
  match r with
  | Ok _ => Ret (inl st)
  | Err ErrNotFound => Ret (inl (missing ++ [h], unchecked))
  | Err _ => Ret (inl (missing, unchecked + 1))
  end.

Definition VerifyAdopted (hashes : list Hash) (c : CAS) : prog string (list Hash * Z * CAS) :=
  let* r := for_ hashes ([], 0) verify_step in
  match r with
  | inr bot => match bot : False with end
  | inl (missing, unchecked) => Ret (sortHashes missing, unchecked, ForgetChunk cfg missing c)
  end.
End cas.

(** ** The invariant of a session *)

Section cas_facts.
Context (sha256 : string -> Hash) (cfg : config).
Hypothesis deadline_reads : reads_only (retainUntil (cas_retention cfg)).
Local Abbreviation store := (gmap string (object string)).

Definition stored (s : store) (h : Hash) : Prop := is_Some (s !! ChunkKey h).

(** Every chunk the cache has seen is in the repository, and the cache keeps its bound. *)
Record cas_ok (c : CAS) (s : store) : Prop := {
  ok_seen : forall h e, seen c !! h = Some e -> stored s h;
  ok_count : 0 < cas_seenCap cfg -> seenCount c = Z.of_nat (size (seen c)) /\ seenCount c <= cas_seenCap cfg
}.

(** Nothing stored is lost or changed but for its lock. *)
Definition stays (s s' : store) : Prop :=
  forall k o, s !! k = Some o -> exists o', s' !! k = Some o' /\ ob_body o' = ob_body o.

Lemma stays_refl s : stays s s.
Proof. intros k o H. by exists o. Qed.

Lemma stays_trans s1 s2 s3 : stays s1 s2 -> stays s2 s3 -> stays s1 s3.
Proof.
  intros H1 H2 k o Hk. destruct (H1 k o Hk) as (o1 & Hk1 & E1).
  destruct (H2 k o1 Hk1) as (o2 & Hk2 & E2). exists o2. split; [done|congruence].
Qed.

Lemma stays_stored s s' h : stays s s' -> stored s h -> stored s' h.
Proof. intros H [o Ho]. destruct (H _ o Ho) as (o' & Ho' & _). by exists o'. Qed.

Lemma stays_insert_new s k o : s !! k = None -> stays s (<[k := o]> s).
Proof. intros Hn k' o' Hk. exists o'. split; [|done]. rewrite lookup_insert_ne; [done|congruence]. Qed.

Lemma stays_lock s k o until mode : s !! k = Some o ->
  stays s (<[k := Object (ob_body o) (ob_size o) (ob_mod o) until mode]> s).
Proof.
  intros Hk k' o' Hk'. destruct (decide (k = k')) as [<-|Hne].
  - rewrite lookup_insert_eq. eexists. split; [done|]. cbn. congruence.
  - rewrite lookup_insert_ne by done. by exists o'.
Qed.

Lemma cas_ok_stays c s s' : stays s s' -> cas_ok c s -> cas_ok c s'.
Proof. intros H [H1 H2]. split; [|done]. intros h e He. by eapply stays_stored, H1. Qed.

(** Same cache, same invariant. *)
Lemma cas_ok_same c c' s : seen c' = seen c -> seenCount c' = seenCount c -> cas_ok c s -> cas_ok c' s.
Proof. intros E1 E2 [H1 H2]. split; rewrite ?E1, ?E2; auto. Qed.

Lemma with_stats_ok c s a b d : cas_ok c s -> cas_ok (with_stats c a b d) s.
Proof. by apply cas_ok_same. Qed.

Lemma cas_ok_empty c s : seen c = ∅ -> seenCount c = 0 -> cas_ok c s.
Proof.
  intros E1 E2. split; rewrite ?E1, ?E2.
  - intros h e He. by rewrite lookup_empty in He.
  - intros Hc. rewrite map_size_empty. lia.
Qed.

Lemma markSeen_ok c s h e : cas_ok c s -> stored s h -> cas_ok (markSeen cfg h e c) s.
Proof.
  intros [H1 H2] Hs.
  assert (forall h' e', <[h := e]> (seen c) !! h' = Some e' -> stored s h') as Hseen.
  { intros h' e' [[<- _]|[_ He']]%lookup_insert_Some; [done|by eapply H1]. }
  unfold markSeen. cbn [seen seenCount with_seen]. destruct (bool_decide (is_Some (seen c !! h))) eqn:El.
  - apply bool_decide_eq_true in El. split; cbn [seen seenCount with_seen]; [done|].
    rewrite map_size_insert_Some by done. apply H2.
  - apply bool_decide_eq_false, eq_None_not_Some in El. destruct (cas_seenCap cfg <=? 0) eqn:Ec.
    { split; cbn [seen seenCount with_seen]; [done|]. zbool. lia. }
    assert (Z.of_nat (size (<[h := e]> (seen c))) = seenCount c + 1) as Hsz.
    { rewrite map_size_insert_None by done. zbool. destruct H2; lia. }
    destruct (_ <? _) eqn:Eo.
    + unfold evictSeen. cbn [seenCount with_seen]. rewrite (proj2 (Z.leb_gt _ _)) by (zbool; lia).
      by apply cas_ok_empty.
    + split; cbn [seen seenCount with_seen]; [done|]. zbool. lia.
Qed.

Lemma unmarkSeen_ok c s h : cas_ok c s -> cas_ok (unmarkSeen cfg h c) s.
Proof.
  intros [H1 H2]. assert (forall h' e', delete h (seen c) !! h' = Some e' -> stored s h') as Hseen.
  { intros h' e' [_ He']%lookup_delete_Some. by eapply H1. }
  unfold unmarkSeen. destruct (bool_decide (is_Some (seen c !! h))) eqn:El; cbn [andb].
  - apply bool_decide_eq_true in El. pose proof El as [e He]. destruct (0 <? cas_seenCap cfg) eqn:Ec.
    + split; cbn [seen seenCount with_seen]; [done|]. intros Hc. destruct (H2 Hc).
      rewrite map_size_delete_Some by done.
      assert (size (seen c) <> 0%nat) by (intros Hz%map_size_empty_iff; rewrite Hz, lookup_empty in He; done). lia.
    + split; cbn [seen seenCount with_seen]; [done|]. zbool. lia.
  - apply bool_decide_eq_false, eq_None_not_Some in El. split; cbn [seen seenCount with_seen]; [done|].
    by rewrite delete_id.
Qed.

Lemma ForgetChunk_ok hs c s : cas_ok c s -> cas_ok (ForgetChunk cfg hs c) s.
Proof.
  revert c. induction hs as [|h hs IH]; intros c Hc; [done|]. apply IH.
  eapply cas_ok_same; [| |apply (unmarkSeen_ok c s h Hc)]; done.
Qed.

Lemma ForgetAdopted_ok hs c s : cas_ok c s -> cas_ok (ForgetAdopted hs c) s.
Proof.
  revert c. induction hs as [|h hs IH]; intros c Hc; [done|]. apply IH. by eapply cas_ok_same; [..|exact Hc].
Qed.

(** ** The operations *)

Lemma deadline_wp D (Q : time -> store -> Prop) s : (forall t, Q t s) -> wp D (retainUntil (cas_retention cfg)) Q s.
Proof. intros HQ. eapply wp_mono; [|by apply reads_only_wp]. intros t s' ->. apply HQ. Qed.

Lemma GetChunkBytes_wp D h c s : wp D (GetChunkBytes sha256 cfg h c) (fun r s' =>
  s' = s /\ match r with
            | (Ok body, c') => sha256 body = h /\ c' = markSeen cfg h {| writtenAt := 0; retainedUntil := 0 |} c /\
                exists o, s !! ChunkKey h = Some o /\ open_envelope sha256 cfg h (ob_body o) = Ok body
            | (Err _, c') => c' = c
            end) s.
Proof.
  unfold GetChunkBytes, GetChunk. wp_step. wp_step; [|by intros|by intros]. intros o Ho. cbn [wp].
  unfold readEnvelopeLimited, ReadAllLimited. destruct (_ <? _); cbn [wp]; [done|].
  destruct (open_envelope sha256 cfg h (ob_body o)) as [body|e] eqn:E; cbn [wp]; [|done].
  split_and!; [done| |done|by exists o]. unfold open_envelope in E. crunch_match; by apply Z.eqb_eq.
Qed.

(** What a checked or written chunk leaves behind. *)
Definition kept (c : CAS) (s : store) (c' : CAS) (s' : store) : Prop := stays s s' /\ cas_ok c' s'.

Lemma ensureRetention_wp D h have s : stored s h ->
  wp D (ensureRetention cfg h have) (fun _ s' => stays s s') s.
Proof.
  intros [o Ho]. unfold ensureRetention. destruct (CASRetention_IsZero _); [apply stays_refl|].
  wp_step. apply deadline_wp. intros need. destruct (_ && _); [apply stays_refl|].
  wp_step.
  - intros o' Ho'. by apply stays_lock.
  - intros _. apply stays_refl.
  - intros d c Hd Hf. apply stays_refl.
  - intros d c o' Hd Hf Ho'. by apply stays_lock.
Qed.

Lemma repoIsMultiKEK_reads : reads_only repoIsMultiKEK.
Proof. done. Qed.

Lemma ensureAdoptable_wp D h c s : stored s h -> cas_ok c s ->
  wp D (ensureAdoptable sha256 cfg h c) (fun r s' => s' = s /\ cas_ok r.2 s /\ adopted r.2 = adopted c) s.
Proof.
  intros Hs Hc. unfold ensureAdoptable. destruct (cas_encWriter cfg) as [w|]; [|done].
  destruct (adopt_resolved c && adopt_err c); [done|]. wp_step.
  eapply (wp_mono _ _ (fun _ s' => s' = s)).
  2:{ destruct (adopt_multiKEK c); [done|]. apply reads_only_wp, repoIsMultiKEK_reads. }
  intros k s' ->. destruct (adopt_resolved _ && _).
  { split_and!; [done|by eapply cas_ok_same; [..|exact Hc]|done]. }
  wp_step. eapply wp_mono; [|apply GetChunkBytes_wp]. intros [[body|e] c'] s' [-> H].
  - destruct H as (_ & -> & _). split_and!; [done| |].
    + eapply cas_ok_same; [| |eapply (markSeen_ok (with_guard c _ _ _) s h); [|exact Hs]]; [reflexivity..|].
      by eapply cas_ok_same; [..|exact Hc].
    + cbn. unfold markSeen, evictSeen. cbn. by repeat case_match.
  - subst c'. destruct (foreign e); (split_and!; [done|by eapply cas_ok_same; [..|exact Hc]|done]).
Qed.

Lemma markSeen_adopted h e c : adopted (markSeen cfg h e c) = adopted c.
Proof. unfold markSeen, evictSeen. by repeat case_match. Qed.

Lemma WasAdopted_mark h c : WasAdopted (markAdopted h c) h = true.
Proof.
  unfold WasAdopted, markAdopted. cbn. destruct (adopted c) as [a|a g].
  - apply bool_decide_eq_true. set_solver.
  - apply andb_true_iff. split; [apply negb_true_iff, bool_decide_eq_false|apply bool_decide_eq_true]; set_solver.
Qed.

Lemma WasAdopted_same h c c' : adopted c' = adopted c -> WasAdopted c' h = WasAdopted c h.
Proof. unfold WasAdopted. by intros ->. Qed.

(** How an acknowledged chunk is accounted for: adopted, written by this call, or written by
    this session no longer ago than the trust. *)
Definition accounted (nonce body : string) (c : CAS) (s : store) (info : ChunkInfo) (c' : CAS) (s' : store) : Prop :=
  ci_Deduped info = true /\ WasAdopted c' (ci_Hash info) = true \/
  (ci_Deduped info = false /\ s !! ChunkKey (ci_Hash info) = None /\
   exists o, s' !! ChunkKey (ci_Hash info) = Some o /\ seal cfg nonce body = Ok (ob_body o)) \/
  (ci_Deduped info = true /\ exists e t, seen c !! ci_Hash info = Some e /\ writtenAt e <> 0 /\
     Time.Sub t (writtenAt e) < seenWriteTrust).

(** What [PutChunk] guarantees. *)
Definition put_post (nonce body : string) (h : Hash) (c : CAS) (s : store)
    (r : result cas_err ChunkInfo * CAS) (s' : store) : Prop :=
  kept c s r.2 s' /\
  match r.1 with
  | Ok info => ci_Hash info = h /\ ci_Size info = Z.of_nat (String.length body) /\ stored s' h /\
               accounted nonce body c s info r.2 s'
  | Err _ => True
  end.

Definition new_info (h : Hash) (body : string) : ChunkInfo :=
  {| ci_Hash := h; ci_Size := Z.of_nat (String.length body); ci_Deduped := false |}.

Lemma adopt_stored_wp D nonce body h c s : stored s h -> cas_ok c s ->
  wp D (adopt_stored sha256 cfg (new_info h body) c) (put_post nonce body h c s) s.
Proof.
  intros Hs Hc. unfold adopt_stored. wp_step. eapply wp_mono; [|by apply ensureAdoptable_wp].
  intros [[[]|e] c1] s1 (-> & Hc1 & Ha); cbn [snd] in *; [|split; [split; [apply stays_refl|done]|done]].
  wp_step. eapply wp_mono; [|by apply ensureRetention_wp].
  intros [until|e] s1 Hst; cbn [wp]; [|split; [split; [done|by eapply cas_ok_stays]|done]].
  assert (stored s1 h) as Hs1 by by eapply stays_stored.
  split; [split; [done|]|].
  - eapply cas_ok_same; [| |apply (markSeen_ok c1 s1 h {| writtenAt := 0; retainedUntil := until |})]; try done.
    by eapply cas_ok_stays.
  - cbn [fst]. split_and!; [done|done|done|]. left. split; [done|]. cbn [ci_Hash snd].
    rewrite (WasAdopted_same _ (markAdopted h (markSeen cfg h {| writtenAt := 0; retainedUntil := until |} c1)))
      by done. apply WasAdopted_mark.
Qed.

Lemma write_chunk_wp D nonce body h c s : cas_ok c s ->
  wp D (write_chunk sha256 cfg nonce body (new_info h body) c) (put_post nonce body h c s) s.
Proof.
  intros Hc. unfold write_chunk. destruct (seal cfg nonce body) as [env|e] eqn:Es;
    [|split; [split; [apply stays_refl|done]|done]].
  wp_step. eapply (wp_mono _ _ (fun _ s' => s' = s)).
  2:{ destruct (CASRetention_IsZero _); [done|]. by apply deadline_wp. }
  intros dl s' ->. wp_step; cbn [IfNotExists].
  - intros d Hd Hn. specialize (Hn eq_refl). apply wp_bind, wp_now. intros d' Hd'. cbn [wp].
    assert (stays s (<[ChunkKey (ci_Hash (new_info h body)) := put_object (d_time d) env
      {| IfNotExists := true; ContentLength := Z.of_nat (String.length env); RetainUntil := dl;
         RetentionMode := if CASRetention_IsZero (cas_retention cfg) then WORMNone
                          else cr_Mode (cas_retention cfg) |}]> s)) as Hst by by apply stays_insert_new.
    split; [split; [exact Hst|]|].
    + apply with_stats_ok, markSeen_ok; [by eapply cas_ok_stays|].
      unfold stored. cbn [ci_Hash new_info]. by rewrite lookup_insert_eq.
    + cbn [fst ci_Hash ci_Size ci_Deduped new_info]. split_and!; [done|done|unfold stored; by rewrite lookup_insert_eq|].
      right; left. split_and!; [done|done|]. rewrite lookup_insert_eq. by eexists.
  - intros Hs _. by apply adopt_stored_wp.
  - intros d c' Hd Hf. split; [split; [apply stays_refl|done]|done].
  - intros d c' Hd Hf Hn. assert (stays s (<[ChunkKey (ci_Hash (new_info h body)) := put_object (d_time d) env
      {| IfNotExists := true; ContentLength := Z.of_nat (String.length env); RetainUntil := dl;
         RetentionMode := if CASRetention_IsZero (cas_retention cfg) then WORMNone
                          else cr_Mode (cas_retention cfg) |}]> s)) as Hst by by apply stays_insert_new, Hn.
    split; [split; [exact Hst|by eapply cas_ok_stays]|done].
Qed.

Lemma put_seen_wp D nonce body h e c s : seen c !! h = Some e -> cas_ok c s ->
  wp D (put_seen cfg (new_info h body) e c) (put_post nonce body h c s) s.
Proof.
  intros He Hc. pose proof (ok_seen _ _ Hc h e He) as Hs. unfold put_seen. wp_step.
  eapply (wp_mono _ _ (fun b s' => s' = s /\ (b = false -> exists t, writtenAt e <> 0 /\
    Time.Sub t (writtenAt e) < seenWriteTrust))).
  2:{ unfold Time.IsZero. destruct (Z.eqb_spec (writtenAt e) 0); [done|]. apply wp_bind, wp_now.
      intros d Hd. split; [done|]. intros Hlt%Z.leb_gt. by exists (d_time d). }
  intros stale s' [-> Hacc]. cbn [ci_Hash new_info].
  set (c1 := if stale then markAdopted h c else c).
  assert (cas_ok c1 s) as Hc1 by (unfold c1; destruct stale; [by eapply cas_ok_same; [..|exact Hc]|done]).
  wp_step. eapply wp_mono; [|by apply ensureRetention_wp].
  intros [until|er] s' Hst; cbn [wp]; [|split; [split; [done|by eapply cas_ok_stays]|done]].
  set (c2 := if Time.Equal until (retainedUntil e) then c1 else
    markSeen cfg h {| writtenAt := writtenAt e; retainedUntil := until |} c1).
  assert (stored s' h) as Hs' by by eapply stays_stored.
  split; [split; [done|]|].
  - apply with_stats_ok. unfold c2.
    destruct (Time.Equal _ _); [by eapply cas_ok_stays|]. apply markSeen_ok; [by eapply cas_ok_stays|done].
  - cbn [fst ci_Hash ci_Size]. split_and!; [done|done|done|]. destruct stale.
    + left. split; [done|]. cbn [snd ci_Hash]. rewrite (WasAdopted_same _ (markAdopted h c)); [apply WasAdopted_mark|].
      unfold c2. destruct (Time.Equal _ _); [done|]. cbn. by rewrite markSeen_adopted.
    + right; right. split; [done|]. destruct (Hacc eq_refl) as (t & H1 & H2). exists e, t. done.
Qed.

Lemma PutChunk_wp D nonce body c s : cas_ok c s ->
  wp D (PutChunk sha256 cfg nonce body c) (put_post nonce body (sha256 body) c s) s.
Proof.
  intros Hc. unfold PutChunk. destruct (cas_retentionUnenforceable cfg);
    [split; [split; [apply stays_refl|done]|done]|].
  destruct (seen c !! sha256 body) as [e|] eqn:He; [by apply put_seen_wp|].
  destruct (hinted cfg (sha256 body)); [|by apply write_chunk_wp]. wp_step.
  - intros o Ho. apply adopt_stored_wp; [by exists o|done].
  - intros _. by apply write_chunk_wp.
  - intros d e Hd Hf. by apply write_chunk_wp.
Qed.

Lemma verify_reads hs : reads_only (for_ hs ([], 0) verify_step).
Proof.
  apply reads_only_for. intros h [ms u]. unfold verify_step. cbn. split; [done|]. intros [i|[]]; done.
Qed.

Lemma VerifyAdopted_wp D hs c s : cas_ok c s ->
  wp D (VerifyAdopted cfg hs c) (fun r s' => s' = s /\ cas_ok r.2 s) s.
Proof.
  intros Hc. unfold VerifyAdopted. wp_step. eapply wp_mono; [|apply reads_only_wp, verify_reads].
  intros [[ms u]|[]] s' ->. split; [done|]. by apply ForgetChunk_ok.
Qed.
End cas_facts.

(** ** Sessions *)

(** What a writer or a reader asks of its CAS. *)
Inductive cas_op :=
| DoPut (nonce body : string)
| DoGet (h : Hash)
| DoVerify (hs : list Hash)
| DoForgetChunk (hs : list Hash)
| DoForgetAdopted (hs : list Hash).

(** An operation: the new state and the chunk it acknowledged. *)
Definition do_op (sha256 : string -> Hash) (cfg : config) (op : cas_op) (c : CAS)
    : prog string (CAS * option ChunkInfo) :=
  match op with
  | DoPut nonce body =>
      let* r := PutChunk sha256 cfg nonce body c in
      Ret (r.2, match r.1 with Ok info => Some info | Err _ => None end)
  | DoGet h => let* r := GetChunkBytes sha256 cfg h c in Ret (r.2, None)
  | DoVerify hs => let* r := VerifyAdopted cfg hs c in Ret (r.2, None)
  | DoForgetChunk hs => Ret (ForgetChunk cfg hs c, None)
  | DoForgetAdopted hs => Ret (ForgetAdopted hs c, None)
  end.

Fixpoint session (sha256 : string -> Hash) (cfg : config) (ops : list cas_op) (c : CAS) (acks : list ChunkInfo)
    : prog string (CAS * list ChunkInfo) :=
  match ops with
  | [] => Ret (c, acks)
  | op :: ops =>
      let* r := do_op sha256 cfg op c in
      session sha256 cfg ops r.1 (acks ++ option_list r.2)
  end.

Section session_facts.
Context (sha256 : string -> Hash) (cfg : config).
Hypothesis deadline_reads : reads_only (retainUntil (cas_retention cfg)).

(** The state of a session: the invariant, and every acknowledged chunk stored. *)
Definition session_ok (s0 : gmap string (object string)) (r : CAS * list ChunkInfo)
    (s : gmap string (object string)) : Prop :=
  stays s0 s /\ cas_ok cfg r.1 s /\ Forall (fun i => stored s (ci_Hash i)) r.2.

Lemma do_op_wp D op c s : cas_ok cfg c s ->
  wp D (do_op sha256 cfg op c) (fun r s' => session_ok s (r.1, option_list r.2) s') s.
Proof.
  intros Hc. destruct op as [nonce body|h|hs|hs|hs]; cbn [do_op]; try wp_step.
  - eapply wp_mono; [|by apply PutChunk_wp]. intros [[info|e] c'] s' [[H1 H2] H3]; cbn in *.
    + destruct H3 as (H3 & _ & H4 & _). split_and!; [done|done|]. constructor; [by rewrite H3|done].
    + by split_and!.
  - eapply wp_mono; [|apply GetChunkBytes_wp]. intros [[body|e] c'] s' [-> H]; cbn in *.
    + destruct H as (_ & -> & o & Ho & _). split_and!; [apply stays_refl| |done].
      apply markSeen_ok; [done|]. by exists o.
    + subst c'. split_and!; [apply stays_refl|done|done].
  - eapply wp_mono; [|by apply VerifyAdopted_wp]. intros [[ms u] c'] s' [-> H].
    split_and!; [apply stays_refl|done|done].
  - split_and!; [apply stays_refl|by apply ForgetChunk_ok|done].
  - split_and!; [apply stays_refl|by apply ForgetAdopted_ok|done].
Qed.

Lemma session_wp D ops c acks s0 s : session_ok s0 (c, acks) s ->
  wp D (session sha256 cfg ops c acks) (session_ok s0) s.
Proof.
  revert c acks s. induction ops as [|op ops IH]; intros c acks s Hs; cbn [session]; [done|].
  destruct Hs as (H1 & H2 & H3). wp_step. eapply wp_mono; [|by apply do_op_wp].
  intros [c' ack] s' (G1 & G2 & G3). cbn [fst snd] in *. apply IH. split_and!; [by eapply stays_trans|done|].
  apply Forall_app_2; [|done]. eapply Forall_impl; [exact H3|]. intros i. by apply stays_stored.
Qed.
End session_facts.

(** ** Reading back *)

(** The codecs a CAS reads with open what it writes. *)
Record codecs_ok (cfg : config) : Prop := {
  ok_compressor : reads_back (cas_registry cfg) (cas_writer cfg);
  ok_encryptor : forall e, cas_encWriter cfg = Some e ->
    opens e /\ cas_encRegistry cfg !! e_Algorithm e = Some e /\ e_Algorithm e <> Ascii.zero
}.

Lemma open_seal sha256 cfg nonce body envelope : codecs_ok cfg -> String.length nonce = nonceLen ->
  seal cfg nonce body = Ok envelope -> open_envelope sha256 cfg (sha256 body) envelope = Ok body.
Proof.
  intros [Hc He] Hn. unfold seal. destruct (Compress _ body) as [[payload algo]|] eqn:Ec; [|done].
  destruct (Hc _ _ _ Ec) as (d & Hd & Hde).
  assert (forall enc p, String.length (ef_Nonce enc) = nonceLen ->
    (if IsEncrypted enc then
       match cas_encRegistry cfg !! ef_Algo enc with
       | None => Err UnknownEncryption
       | Some d => match Decrypt d (ef_Nonce enc) p with inl p => Ok p | inr e => Err (DecryptError e) end
       end else Ok p) = Ok payload ->
    open_envelope sha256 cfg (sha256 body) (WriteEnvelope algo enc p) = Ok body) as Hopen.
  { intros enc p Hl Hp. unfold open_envelope. rewrite ReadEnvelope_WriteEnvelope by done. cbn zeta.
    rewrite Hp, Hd, Hde, Z.eqb_refl. done. }
  destruct (cas_encWriter cfg) as [e|] eqn:Ew.
  - destruct (He e eq_refl) as (Ho & Hr & Hz). destruct (Encrypt e nonce payload) as [ct|] eqn:En; [|done].
    intros [= <-]. apply Hopen; [done|]. unfold IsEncrypted. cbn [ef_Algo ef_Nonce].
    destruct (Ascii.eqb_spec (e_Algorithm e) Ascii.zero); [done|]. cbn [negb]. by rewrite Hr, (Ho _ _ _ En).
  - intros [= <-]. by apply Hopen.
Qed.

Lemma NewCAS_ok caps opts cfg c s : NewCAS caps opts = Some (cfg, c) -> cas_ok cfg c s.
Proof. unfold NewCAS. destruct (apply_options _ _); [|done]. intros [= <- <-]. by apply cas_ok_empty. Qed.



(** C21: a chunk written is read back: when [PutChunk] wrote the body, and the codecs open what
    they seal, any later [GetChunkBytes] of its hash, by any CAS of the configuration on a
    backend that does not fail, returns exactly the body. *)
Theorem PutChunk_reads_back (sha256 : string -> Hash) (cfg : config) (c c' : CAS) (nonce body : string)
    (info : ChunkInfo) (ds ds' : nat -> decision) (s s' : gmap string (object string)) (i : nat) :
  reads_only (retainUntil (cas_retention cfg)) -> cas_ok cfg c s -> codecs_ok cfg ->
  String.length nonce = nonceLen ->
  (forall envelope, seal cfg nonce body = Ok envelope -> Z.of_nat (String.length envelope) <= MaxChunkEnvelopeBytes) ->
  run ds 0 (PutChunk sha256 cfg nonce body c) s = ((Ok info, c'), s') -> ci_Deduped info = false ->
  (forall j, healthy (ds' j)) ->
  forall c2, (run ds' i (GetChunkBytes sha256 cfg (ci_Hash info) c2) s').1.1 = Ok body.
Proof.
  intros Hdl Hc Hcodec Hn Hmax Hrun Hnew Hh c2.
  pose proof (wp_run (fun _ => True) _ _ s ds 0 (fun _ => I) (PutChunk_wp sha256 cfg Hdl _ nonce body c s Hc)) as H.
  rewrite Hrun in H. cbn [fst snd] in H. destruct H as [_ (Hhash & _ & _ & Hacc)]. cbn [fst snd] in Hacc.
  destruct Hacc as [[Hd _]|[(_ & _ & o & Ho & Hs)|[Hd _]]]; [congruence| |congruence].
  unfold GetChunkBytes, GetChunk. cbn [pbind sGet call run]. unfold exec, with_fault. rewrite (Hh i), Ho.
  cbn [pbind]. unfold readEnvelopeLimited, ReadAllLimited. rewrite (proj2 (Z.ltb_ge _ _)) by by apply Hmax.
  by rewrite Hhash, (open_seal sha256 cfg nonce body _ Hcodec Hn Hs).
Qed.

(** Forgetting a chunk that was never adopted makes the spilled set count one too few. *)
Example AdoptedLen_after_forget :
  let c := markAdopted 7 (CAS0 (Spilled ∅ ∅)) in
  AdoptedHashes (forgetAdoption 8 c) = [7] /\ AdoptedLen (forgetAdoption 8 c) = 0.
Proof. vm_compute. done. Qed.

(** A CAS that compresses and encrypts, its codecs tagging what they write. *)
Definition demo_zstd : Compressor :=
  zstd_Compressor (fun p => String "z"%char p) (fun s => match s with String _ p => Some p | _ => None end).
Definition demo_aes : Encryptor :=
  aesgcm_Encryptor (fun n p => n +:+ p) (fun n ct => if HasPrefix ct n then Some (sdrop (String.length n) ct) else None).

Definition demo_options : list CASOption := [WithCompressor demo_zstd; WithEncryptor demo_aes; WithSeenCacheLimit 2].

Definition demo_config : config :=
  {| cas_writer := demo_zstd;
     cas_registry := <[AlgoZstd := demo_zstd]> {[AlgoNone := none_Compressor]};
     cas_encWriter := Some demo_aes; cas_encRegistry := <[AlgoAESGCM := demo_aes]> ∅;
     cas_retention := no_retention; cas_retentionUnenforceable := false; cas_hints := None;
     cas_hintFilter := None; cas_seenCap := 2 |}.

Lemma demo_NewCAS : NewCAS {| WORM := false; ConditionalPut := true |} demo_options
  = Some (demo_config, CAS0 (InMemory ∅)).
Proof. reflexivity. Qed.

Lemma demo_codecs_ok : codecs_ok demo_config.
Proof.
  split.
  - by apply zstd_reads_back.
  - intros e [= <-]. split_and!; [|done|done]. apply aesgcm_opens. intros n p. by rewrite HasPrefix_app, sdrop_app.
Qed.

Definition demo_digest (s : string) : Hash := Z.of_nat (String.length s).

Definition demo_clock : nat -> decision := fun i =>
  {| d_fault := Normal; d_time := Z.of_nat i + 1; d_order := fun l => l; d_order_perm := fun l => Permutation_refl l;
     d_listed := 0 |}.

Definition demo_session : list cas_op :=
  [DoPut zero_nonce "one"; DoPut zero_nonce "three"; DoPut zero_nonce "one"; DoPut zero_nonce "seventeen"; DoGet 5].



Lemma PutChunk_reads_back_witness : exists info c' s',
  run demo_clock 0 (PutChunk demo_digest demo_config zero_nonce "one" (CAS0 (InMemory ∅))) ∅ = ((Ok info, c'), s') /\
  (run demo_clock 0 (GetChunkBytes demo_digest demo_config (ci_Hash info) c') s').1.1 = Ok "one".
Proof.
  destruct (run demo_clock 0 (PutChunk demo_digest demo_config zero_nonce "one" (CAS0 (InMemory ∅))) ∅)
    as [[r c'] s'] eqn:E.
  assert (r = Ok (new_info 3 "one")) as ->
    by (change r with ((r, c'), s').1.1; rewrite <- E; vm_compute; reflexivity).
  exists (new_info 3 "one"), c', s'. split; [reflexivity|].
  refine (PutChunk_reads_back demo_digest demo_config (CAS0 (InMemory ∅)) c' zero_nonce "one" _ demo_clock demo_clock
    ∅ s' 0 I (cas_ok_empty demo_config (CAS0 (InMemory ∅)) ∅ eq_refl eq_refl) demo_codecs_ok eq_refl _ E eq_refl _ c').
  - intros envelope [= <-]. vm_compute. discriminate.
  - reflexivity.
Defined.
