(* ===== verification/FencedCommit.v ===== *)
(** Committing behind the fence (the end of internal/repo/gcfence.go), and what the writer's
    side of the fence guarantees: that it ends, that it does not pass a batch in flight, and
    that it commits nothing over a chunk that is gone. *)
From S2P Require Import Prelude GoString Storage Concur Hash Commit Timeline Gc GcFence Cas.

Local Open Scope string_scope.
Local Open Scope list_scope.
Local Open Scope Z_scope.
#[local] Arguments String.append : simpl nomatch.

Section fenced.
Context `{CR : Codec string gcRunRecord} `{CP : Codec string gcPin}.

(** [FencedCommit]: [commit] answers whether the manifest is committed; the first component of
    the result counts the adopted chunks nobody could check. *)
Definition FencedCommit (id1 id2 owner : string) (cas : option (config * CAS)) (adopted : list Hash)
    (commit : prog string bool) : prog string (Z * option fence_err) :=
  let* f := BeginCommitFence id1 owner adopted in
  match f with
  | Err e => Ret (0, Some e)
  | Ok f =>
      let* v := (match cas with
                 | Some (cfg, c) => let* r := VerifyAdopted cfg adopted c in Ret (r.1.1, r.1.2)
                 | None => Ret ([], 0)
                 end) in
      let '(missing, unchecked) := v in
      match missing with
      | _ :: _ => Ret (unchecked, Some (AdoptedChunkSwept (Z.of_nat (length missing))))
      | [] =>
          let* ok := commit in
          if negb ok then Ret (unchecked, Some CommitFailed)
          else let* e := Confirm id2 f in Ret (unchecked, e)
      end
  end.
End fenced.

(** ** What the fence writes: pins only *)

Definition is_pin (k : string) : Prop := HasPrefix k gcPinsPrefix = true.

Section writes.
Context `{CR : Codec string gcRunRecord} `{CP : Codec string gcPin}.

Lemma listGCRuns_reads : reads_only listGCRuns.
Proof.
  unfold listGCRuns. apply reads_only_bind; [by cbn|]. intros l. apply reads_only_bind.
  - apply reads_only_for. intros i out. unfold run_step. destruct (negb _); [done|].
    apply reads_only_bind; [apply getJSON_reads|]. intros [r|e]; [done|]. destruct (get_is_not_found e); [done|].
    destruct (Time.IsZero _); [|done]. apply reads_only_bind; [by cbn|done].
  - intros [out|[]]. by destruct l.2.
Qed.

Lemma wait_loop_reads fuel deadline prev waitFor : reads_only (wait_loop fuel deadline prev waitFor).
Proof.
  revert prev waitFor. induction fuel as [|fuel IH]; intros prev waitFor; cbn [wait_loop];
    (destruct (bool_decide (waitFor = ∅)); [done|]); [done|].
  apply reads_only_bind; [by cbn|]. intros t. destruct (Time.After _ _); [done|].
  apply reads_only_bind; [by cbn|]. intros t'. apply reads_only_bind; [|by intros [w|[]]].
  apply reads_only_for. intros [k q] w. unfold poll_step. apply reads_only_bind; [apply getJSON_reads|]. by intros [r|e].
Qed.

Lemma flush_pin_touches id owner created part parts : touches is_pin (flush_pin id owner created part parts).
Proof.
  unfold flush_pin. destruct part as [|h part]; [done|]. cbn. split; [|by intros [x|e]].
  constructor; [|constructor]. unfold is_pin, pin_key. destruct (0 <? parts); apply HasPrefix_app.
Qed.

Lemma write_pins_touches id owner src : touches is_pin (write_pins id owner src).
Proof.
  unfold write_pins. apply touches_bind; [by cbn|]. intros t. apply touches_bind.
  - apply touches_for. intros h [part parts]. unfold pin_step. destruct (_ <=? _); [apply flush_pin_touches|done].
  - intros [[part parts]|e]; [|done]. apply touches_bind; [apply flush_pin_touches|by intros [x|e]].
Qed.

Lemma pinAndWait_touches id f : touches is_pin (pinAndWait id f).
Proof.
  unfold pinAndWait. apply touches_bind.
  - destruct (cf_pinned f); [done|]. apply touches_bind; [apply write_pins_touches|by intros [e|]; cbn].
  - intros [f'|e]; [|done]. apply touches_bind; [apply reads_only_touches, listGCRuns_reads|].
    intros [runs|e]; [|done]. apply touches_bind; [by cbn|]. intros t. apply touches_bind; [by cbn|]. intros t'.
    apply touches_bind; [apply reads_only_touches, wait_loop_reads|by intros [e|]].
Qed.

Lemma Begin_touches id owner src : touches is_pin (BeginCommitFenceSource id owner src).
Proof.
  unfold BeginCommitFenceSource. apply touches_bind; [by cbn|]. intros t. destruct src as [|h src]; [done|].
  apply touches_bind; [apply reads_only_touches, listGCRuns_reads|]. intros [runs|e]; [|done].
  apply touches_bind; [by cbn|]. intros t'. destruct (bool_decide _); [done|apply pinAndWait_touches].
Qed.

Lemma Confirm_touches id f : touches is_pin (Confirm id f).
Proof.
  unfold Confirm. destruct (cf_src f) as [|h src]; [done|]. apply touches_bind; [by cbn|]. intros t.
  apply touches_bind; [by destruct (cf_pinned f); cbn|]. intros covered. destruct covered; [done|].
  apply touches_bind; [apply reads_only_touches, listGCRuns_reads|]. intros [runs|e]; [|done].
  apply touches_bind; [by cbn|]. intros t'. destruct (_ && _); [done|]. unfold recheck.
  apply touches_bind; [apply pinAndWait_touches|]. intros [f'|e]; [|done].
  apply touches_bind; [|done]. unfold count_missing. apply touches_bind; [|by intros [n|[]]].
  apply touches_for. intros h' n. unfold confirm_step. cbn. split; [done|]. by intros [i|[]].
Qed.
End writes.

(** ** The wait ends *)

Section ends.
Context `{CR : Codec string gcRunRecord} `{CP : Codec string gcPin}.
Local Abbreviation W := (wpi (B := string) (fun _ => True) (fun _ => True) (fun _ _ => True)).
Local Abbreviation ends := (fun e : option fence_err => e <> Some OutOfFuel).

(** A program that never fails this way, whatever it reads and whoever interferes. *)
Lemma any_wpi {A} (p : prog string A) : W p (fun _ => True).
Proof. induction p as [a|R o k IH]; cbn; [done|]. intros s d _ _. destruct (exec d o s). auto. Qed.

Lemma wait_loop_ends fuel deadline prev waitFor : (0 < fuel)%nat ->
  deadline < prev + (Z.of_nat fuel - 1) * gcFencePoll ->
  W (wait_loop fuel deadline prev waitFor) ends.
Proof.
  revert prev waitFor. induction fuel as [|fuel IH]; intros prev waitFor Hpos Hd; [lia|].
  cbn [wait_loop]. destruct (bool_decide (waitFor = ∅)); [done|].
  wpi_step; [done|]. intros d _. set (t := Z.max (d_time d) prev). assert (prev <= t) by lia.
  destruct (Time.After t deadline) eqn:Ea; [done|]. unfold Time.After in Ea. apply Z.ltb_ge in Ea.
  wpi_step; [done|]. intros d' _. set (t' := Z.max (d_time d') (t + gcFencePoll)).
  assert (t + gcFencePoll <= t') by lia. assert (0 < gcFencePoll) by done.
  wpi_step. eapply wpi_mono; [|apply any_wpi]. intros [w|[]] _. apply IH; nia.
Qed.

Lemma wait_fuel_enough t : t + GCFenceMaxWait < t + (Z.of_nat wait_fuel - 1) * gcFencePoll.
Proof. assert (GCFenceMaxWait < (Z.of_nat wait_fuel - 1) * gcFencePoll) by (vm_compute; reflexivity). lia. Qed.

Lemma write_pins_ends id owner hs : W (write_pins id owner hs) ends.
Proof.
  unfold write_pins. wpi_step; [done|]. intros d _. wpi_step.
  assert (forall part parts, W (flush_pin id owner (d_time d) part parts)
    (fun r => match r with inl _ => True | inr e => e <> OutOfFuel end)) as Hflush.
  { intros [|h part] parts; [done|]. unfold flush_pin. wpi_step. eapply wpi_mono; [|apply any_wpi]. by intros [x|x]. }
  apply (wpi_for _ _ _ hs _ (fun _ _ => True)); [done| |].
  - intros pre h post [part parts] _ _. unfold pin_step. destruct (_ <=? _); [|done].
    eapply wpi_mono; [|apply Hflush]. intros [st|e] He; [done|]. cbn. congruence.
  - intros [part parts] _. wpi_step. eapply wpi_mono; [|apply Hflush]. intros [st|e] He; [done|]. cbn. congruence.
Qed.

Definition returns (r : result fence_err CommitFence) : Prop := r <> Err OutOfFuel.

Lemma pinAndWait_ends id f : W (pinAndWait id f) returns.
Proof.
  unfold pinAndWait. wpi_step. apply (wpi_mono _ _ _ _ returns).
  2:{ destruct (cf_pinned f); [done|]. wpi_step. eapply wpi_mono; [|apply write_pins_ends].
      intros [e|] He; [unfold returns; cbn; congruence|]. wpi_step; [done|]. done. }
  intros [f'|e] Hr; [|exact Hr]. wpi_step. eapply wpi_mono; [|apply any_wpi]. intros [runs|e] _; [|done].
  wpi_step; [done|]. intros d _. wpi_step; [done|]. intros d' _. wpi_step.
  eapply wpi_mono; [|apply wait_loop_ends].
  - intros [e|] He; [|done]. unfold returns. cbn. congruence.
  - by apply Nat.ltb_lt.
  - apply wait_fuel_enough.
Qed.

Lemma Begin_ends id owner src : W (BeginCommitFenceSource id owner src) returns.
Proof.
  unfold BeginCommitFenceSource. wpi_step; [done|]. intros d _. destruct src as [|h src]; [done|].
  wpi_step. eapply wpi_mono; [|apply any_wpi]. intros [runs|e] _; [|done].
  wpi_step; [done|]. intros d' _. destruct (bool_decide _); [done|apply pinAndWait_ends].
Qed.

Lemma Confirm_ends id f : W (Confirm id f) ends.
Proof.
  unfold Confirm. destruct (cf_src f) as [|h src]; [done|]. wpi_step; [done|]. intros d _.
  wpi_step. eapply wpi_mono; [|apply any_wpi]. intros covered _. destruct covered; [done|].
  wpi_step. eapply wpi_mono; [|apply any_wpi]. intros [runs|e] _; [|done]. wpi_step; [done|]. intros d' _.
  destruct (negb _ && _); [done|]. unfold recheck. wpi_step. eapply wpi_mono; [|apply pinAndWait_ends].
  intros [f'|e] He; [|unfold returns in He; cbn; congruence].
  wpi_step. eapply wpi_mono; [|apply any_wpi]. intros n _. cbn. by destruct (0 <? n).
Qed.
End ends.

(** C38: the fence ends: whatever the records say, whatever fails and whoever interferes,
    beginning a fence and confirming it return with an answer within the polls that fit in the
    longest wait; the model's fuel is never what stops them. *)
Theorem fence_returns `{CR : Codec string gcRunRecord} `{CP : Codec string gcPin}
    (id owner : string) (src : list Hash) (f : CommitFence)
    (env : nat -> gmap string (object string) -> gmap string (object string)) (ds : nat -> decision)
    (s : gmap string (object string)) :
  (runc env ds 0 (BeginCommitFenceSource id owner src) s).1.1 <> Err OutOfFuel /\
  (runc env ds 0 (Confirm id f) s).1.1 <> Some OutOfFuel.
Proof.
  split.
  - pose proof (wpi_runc _ _ _ _ _ env ds 0 s (fun _ => I) (fun _ _ _ => I) I (Begin_ends id owner src)) as H.
    destruct (runc env ds 0 _ s) as [[r s'] st]. apply H.
  - pose proof (wpi_runc _ _ _ _ _ env ds 0 s (fun _ => I) (fun _ _ _ => I) I (Confirm_ends id f)) as H.
    destruct (runc env ds 0 _ s) as [[r s'] st]. apply H.
Qed.

(** ** The wait does not pass a batch in flight *)

Section blocks.
Context `{CR : Codec string gcRunRecord} `{CP : Codec string gcPin}.
Context (latest : time) (k : string) (q : Z).

(** A record of a live run, its sequence number standing still. *)
Definition frozen (r : gcRunRecord) : Prop :=
  rr_State r = "running" /\ rr_Seq r = q /\ latest + GCFenceMaxWait + gcFencePoll < rr_ExpiresAt r.

(** Such a record is at [k], readable, whatever else is in the store. *)
Definition in_flight (s : gmap string (object string)) : Prop :=
  exists o r, s !! k = Some o /\ size_of (ob_body o) <= MaxMetadataBytes /\ decode (ob_body o) = Some r /\ frozen r.

Definition good_clock (d : decision) : Prop := healthy d /\ d_time d <= latest.

Local Abbreviation W := (wpi (B := string) good_clock in_flight (fun _ _ => True)).

Hypothesis run_key : HasPrefix k gcRunsPrefix = true /\ HasSuffix k ".json" = true.

Lemma good_healthy d : good_clock d -> healthy d.
Proof. by intros []. Qed.

Lemma getJSON_frozen : W (getJSON (T := gcRunRecord) k) (fun r => exists rec, r = Ok rec /\ frozen rec).
Proof.
  unfold getJSON. apply wpi_bind, wpi_get_ok; [done|apply good_healthy| |].
  - intros s o (o' & r & Ho' & Hsz & Hdec & Hf) Ho. assert (o = o') as -> by congruence.
    cbn [wpi]. unfold ReadAllLimited. unfold size_of in Hsz. rewrite (proj2 (Z.ltb_ge _ _)) by done.
    rewrite Hdec. cbn. by eauto.
  - intros s (o & r & Ho & _) Hn. congruence.
Qed.

Definition holds_run (runs : gmap string gcRunRecord) : Prop := exists rec, runs !! k = Some rec /\ frozen rec.

Lemma any_good {A} (p : prog string A) : reads_only p -> W p (fun _ => True).
Proof. by apply reads_only_wpi. Qed.

Lemma run_step_holds i out : (Key i <> k -> holds_run out) -> W (run_step i out) (fun r =>
  match r with inl out' => holds_run out' | inr _ => True end).
Proof.
  intros Hout. unfold run_step. destruct (decide (Key i = k)) as [->|Hne].
  - rewrite (proj2 run_key). cbn [negb]. wpi_step. eapply wpi_mono; [|apply getJSON_frozen].
    intros r (rec & -> & Hf). cbn. eexists. rewrite lookup_insert_eq. split; [done|].
    by destruct (String.eqb _ _).
  - destruct (HasSuffix (Key i) _); [|by apply Hout]. cbn [negb]. wpi_step.
    assert (forall r, holds_run (<[Key i := r]> out)) as Hins.
    { intros r. destruct (Hout Hne) as (rec & Hr & Hf). exists rec. by rewrite lookup_insert_ne. }
    eapply wpi_mono; [|apply any_good, getJSON_reads]. intros [r|e] _; [apply Hins|].
    destruct (get_is_not_found e); [by apply Hout|]. destruct (Time.IsZero _); [|apply Hins].
    wpi_step; [done|]. intros d _. apply Hins.
Qed.

Lemma listGCRuns_holds : W listGCRuns (fun r => match r with Ok runs => holds_run runs | Err _ => True end).
Proof.
  unfold listGCRuns. apply wpi_bind, wpi_list_ok; [done|apply good_healthy|].
  intros s l (o & r & Ho & _) Hl. cbn [fst snd]. wpi_step.
  assert (info_of k o ∈ l) as Hin by (rewrite Hl; apply elem_of_listing; exists o; split_and!; [done|done|apply run_key]).
  apply (wpi_for _ _ _ l _ (fun pre out => info_of k o ∈ pre -> holds_run out)).
  - intros Hi. by apply not_elem_of_nil in Hi.
  - intros pre i post out El Hout. destruct (decide (i = info_of k o)) as [->|Hne].
    + eapply wpi_mono; [|by apply run_step_holds]. intros [out'|[]] Ho'. by intros _.
    + destruct (decide (info_of k o ∈ pre)) as [Hp|Hp].
      * eapply wpi_mono; [|apply run_step_holds; intros _; by apply Hout]. intros [out'|[]] Ho'. by intros _.
      * eapply wpi_mono; [|apply any_good]. { intros [out'|[]] _. intros [Hi|Hi%list_elem_of_singleton]%elem_of_app; [done|by destruct Hne]. }
        unfold run_step. destruct (negb _); [done|]. apply reads_only_bind; [apply getJSON_reads|].
        intros [rec|e]; [done|]. destruct (get_is_not_found e); [done|]. by destruct (Time.IsZero _).
  - intros out Hout. cbn. by apply Hout.
Qed.

Lemma poll_holds t l waitFor : t <= latest + GCFenceMaxWait + gcFencePoll ->
  (forall q', (k, q') ∈ l -> q' = q) -> waitFor !! k = Some q ->
  W (for_ l waitFor (poll_step t)) (fun r => match r with inl w => w !! k = Some q | inr _ => True end).
Proof.
  intros Ht Hl Hw. apply (wpi_for _ _ _ l _ (fun _ w => w !! k = Some q)); [done| |done].
  intros pre [k' q'] post w El Hk. unfold poll_step. destruct (decide (k' = k)) as [->|Hne].
  - assert (q' = q) as -> by (apply Hl; rewrite El; apply elem_of_app; right; left).
    wpi_step. eapply wpi_mono; [|apply getJSON_frozen]. intros r (rec & -> & Hst & Hseq & Hex). cbn.
    unfold liveAt, Time.Before. rewrite Hst, Hseq, Z.ltb_irrefl, orb_false_r.
    rewrite (proj2 (Z.ltb_lt _ _)) by lia. done.
  - wpi_step. eapply wpi_mono; [|apply any_good, getJSON_reads]. intros [rec|e] _; cbn.
    + destruct (_ || _); [by rewrite lookup_delete_ne|done].
    + destruct (get_is_not_found e); [by rewrite lookup_delete_ne|done].
Qed.

Lemma wait_loop_blocks fuel deadline prev waitFor : deadline <= latest + GCFenceMaxWait ->
  waitFor !! k = Some q -> W (wait_loop fuel deadline prev waitFor) (fun e => e <> None).
Proof.
  intros Hd. revert prev waitFor. induction fuel as [|fuel IH]; intros prev waitFor Hw; cbn [wait_loop];
    (destruct (bool_decide (waitFor = ∅)) eqn:E;
      [apply bool_decide_eq_true in E; subst; by rewrite lookup_empty in Hw|]); [done|].
  wpi_step; [done|]. intros d Hd1. set (t := Z.max (d_time d) prev).
  destruct (Time.After t deadline) eqn:Ea; [done|]. unfold Time.After in Ea. apply Z.ltb_ge in Ea.
  wpi_step; [done|]. intros d' [_ Hd2]. wpi_step. eapply wpi_mono; [|apply poll_holds].
  - intros [w|[]] Hw'. by apply IH.
  - assert (0 < gcFencePoll) by done. assert (0 < GCFenceMaxWait) by done. lia.
  - intros q' Hq'. apply elem_of_map_to_list in Hq'. congruence.
  - done.
Qed.

Lemma pins_keep_flight id owner hs : W (write_pins id owner hs) (fun _ => True).
Proof.
  unfold write_pins. wpi_step; [done|]. intros d _. wpi_step.
  assert (forall parts, k <> pin_key id parts) as Hk.
  { intros parts ->. destruct run_key as [Hp _]. unfold pin_key, gcPinsPrefix, gcRunsPrefix in Hp.
    destruct (0 <? parts); cbn in Hp; done. }
  assert (forall part parts, W (flush_pin id owner (d_time d) part parts) (fun _ => True)) as Hflush.
  { intros [|h part] parts; [done|]. unfold flush_pin, putJSON. wpi_step; [done| |by intros [[]|e]].
    intros s t (o & r & Ho & H) _. split; [|done]. exists o, r. split; [|done].
    rewrite lookup_insert_ne; [done|]. intros E. by destruct (Hk parts). }
  apply (wpi_for _ _ _ hs _ (fun _ _ => True)); [done| |].
  - intros pre h post [part parts] _ _. unfold pin_step. destruct (_ <=? _); [|done].
    eapply wpi_mono; [|apply Hflush]. by intros [st|e].
  - intros [part parts] _. wpi_step. eapply wpi_mono; [|apply Hflush]. by intros [st|e].
Qed.

Lemma live_runs_holds t runs : t <= latest -> holds_run runs -> live_runs t runs !! k = Some q.
Proof.
  intros Ht (rec & Hr & Hst & Hseq & Hex). unfold live_runs. rewrite lookup_fmap.
  rewrite (map_lookup_filter_Some_2 _ runs k rec Hr); [cbn; by rewrite Hseq|].
  cbn. unfold liveAt, Time.Before. rewrite Hst. assert (0 < gcFencePoll) by done. assert (0 < GCFenceMaxWait) by done.
  by rewrite (proj2 (Z.ltb_lt _ _)) by lia.
Qed.

Definition refused (r : result fence_err CommitFence) : Prop := is_ok r = false.

Lemma pinAndWait_blocks id f : W (pinAndWait id f) refused.
Proof.
  unfold pinAndWait. wpi_step. apply (wpi_mono _ _ _ _ (fun _ => True)).
  2:{ destruct (cf_pinned f); [done|]. wpi_step. eapply wpi_mono; [|apply pins_keep_flight].
      intros [e|] _; [done|]. wpi_step; [done|]. done. }
  intros [f'|e] _; [|done]. wpi_step. eapply wpi_mono; [|apply listGCRuns_holds]. intros [runs|e] Hr; [|done].
  wpi_step; [done|]. intros d [_ Hd]. wpi_step; [done|]. intros d' [_ Hd']. wpi_step.
  eapply wpi_mono; [|apply wait_loop_blocks].
  - by intros [e|] He.
  - unfold Time.Add. lia.
  - by apply live_runs_holds.
Qed.

Lemma Begin_blocks id owner src : src <> [] -> W (BeginCommitFenceSource id owner src) refused.
Proof.
  intros Hsrc. unfold BeginCommitFenceSource. wpi_step; [done|]. intros d _. destruct src as [|h src]; [done|].
  wpi_step. eapply wpi_mono; [|apply listGCRuns_holds]. intros [runs|e] Hr; [|done].
  wpi_step; [done|]. intros d' [_ Hd']. destruct (bool_decide _) eqn:E; [|apply pinAndWait_blocks].
  apply bool_decide_eq_true in E. pose proof (live_runs_holds _ _ Hd' Hr) as Hl. by rewrite E, lookup_empty in Hl.
Qed.
End blocks.


(** A repository with one run in its third batch. *)
Definition busy_key : string := "gc/runs/r1.json".

Definition busy_record : gcRunRecord :=
  {| rr_Schema := gcRunSchema; rr_RunID := "r1"; rr_State := "running"; rr_Seq := 3; rr_StartedAt := 1;
     rr_HeartbeatAt := 1; rr_ExpiresAt := 10 * Time.Hour |}.

Definition busy_codec : Codec string gcRunRecord := countable_codec.
Definition pin_codec : Codec string gcPin := countable_codec.

Definition busy_repo : gmap string (object string) :=
  {[busy_key := Object (encode (Codec := busy_codec) busy_record) 100 Time.Hour 0 WORMNone]}.

Definition at_time (f : nat -> fault) : nat -> decision := fun i =>
  {| d_fault := f i; d_time := Time.Hour; d_order := fun l => l; d_order_perm := fun l => Permutation_refl l;
     d_listed := 0 |}.

Lemma busy_decodes : decode (Codec := busy_codec) (encode (Codec := busy_codec) busy_record) = Some busy_record.
Proof. apply (decode_encode (Codec := busy_codec)). Qed.

Lemma busy_small : (size_of (encode (Codec := busy_codec) busy_record) <=? MaxMetadataBytes) = true.
Proof. vm_compute. reflexivity. Qed.


(** One read fails: the look at the record after the pin is written. *)
Definition one_failure : nat -> decision := at_time (fun i => if (i =? 8)%nat then Fails 1 else Normal).

Definition busy_begin : prog string (result fence_err CommitFence) :=
  BeginCommitFenceSource (CR := busy_codec) (CP := pin_codec) "w1" "backup" [7].

(** A record that fails to read once lets the writer pass: with the run's record the same
    throughout, running, not expired and at its third batch, and a single failed [Get], the
    fence is begun, because the unreadable record counts as batch zero and the next poll reads
    the third. *)
Theorem unreadable_record_passes :
  let '(r, s') := run one_failure 0 busy_begin busy_repo in
  is_ok r = true /\ s' !! busy_key = busy_repo !! busy_key /\ liveAt busy_record Time.Hour = true.
Proof. vm_compute. done. Qed.
