(* ===== verification/FenceProtocol.v ===== *)
(** The fence protocol as a transition system (internal/repo/gcfence.go, internal/repo/gcsweep.go).

    One writer, which adopted one chunk, against any number of collections that consider the
    chunk an orphan.  A step of the system is one of theirs, or time passing, or another
    process storing the chunk again; the steps of [Sweep], [BeginCommitFence], [VerifyAdopted]
    and [Confirm] that touch the protocol's objects are transitions of their own, so every
    interleaving is a path.  The expiry of run records and of pins is left out: it assumes
    that the hosts' clocks agree.  The files [GcFence] and [GcSweep] hold the code of the steps. *)
From S2P Require Import Prelude GcFence.

Local Open Scope Z_scope.

(** ** States *)

(** A collection: its record is out from [Settling] on; [Advanced], [PinsRead] and [Deleting]
    are the stages of a checkpoint. *)
Inductive run_phase := NoRun | Settling | Advanced | PinsRead | Deleting | Finished.

#[export] Instance run_phase_eq_dec : EqDecision run_phase.
Proof. solve_decision. Defined.

Record run := { r_phase : run_phase; r_published : time; r_seq : nat; r_pins : bool; r_refs : bool }.

(** The writer.  [post] says that the manifest is committed already; [start] is the time of
    its first reading of the records and [known] the runs it saw then. *)
Inductive writer :=
| Fresh
| Pinning (post : bool)
| Rereading (post : bool)
| Waiting (post : bool) (waitFor : nat -> option nat)
| Verifying (post pinned : bool) (start : time) (known : nat -> bool)
| Committing (pinned : bool) (start : time) (known : nat -> bool)
| Committed (pinned : bool) (start : time) (known : nat -> bool)
| Succeeded
| Refused
| Reported.

Record state := {
  clock : time;
  chunk : bool;
  pin : bool;
  manifest : bool;
  runs : nat -> run;
  the_writer : writer
}.

Definition live_run (r : run) : Prop := r_phase r <> NoRun /\ r_phase r <> Finished.

Definition set_run (s : state) (i : nat) (r : run) : state :=
  {| clock := clock s; chunk := chunk s; pin := pin s; manifest := manifest s;
     runs := fun j => if decide (j = i) then r else runs s j; the_writer := the_writer s |}.

Definition set_chunk (s : state) (b : bool) : state :=
  {| clock := clock s; chunk := b; pin := pin s; manifest := manifest s; runs := runs s; the_writer := the_writer s |}.

Definition set_clock (s : state) (t : time) : state :=
  {| clock := t; chunk := chunk s; pin := pin s; manifest := manifest s; runs := runs s; the_writer := the_writer s |}.

Definition set_writer (s : state) (w : writer) : state :=
  {| clock := clock s; chunk := chunk s; pin := pin s; manifest := manifest s; runs := runs s; the_writer := w |}.

Definition write_pin (s : state) (w : writer) : state :=
  {| clock := clock s; chunk := chunk s; pin := true; manifest := manifest s; runs := runs s; the_writer := w |}.

Definition write_manifest (s : state) (w : writer) : state :=
  {| clock := clock s; chunk := chunk s; pin := pin s; manifest := true; runs := runs s; the_writer := w |}.

Definition in_phase (r : run) (p : run_phase) : run :=
  {| r_phase := p; r_published := r_published r; r_seq := r_seq r; r_pins := r_pins r; r_refs := r_refs r |}.

(** ** The collections' steps ([Sweep]) *)

Inductive gc_step (s : state) (i : nat) : state -> Prop :=
| GC_publish : r_phase (runs s i) = NoRun ->
    gc_step s i (set_run s i {| r_phase := Settling; r_published := clock s; r_seq := 0;
                                r_pins := false; r_refs := false |})
| GC_advance : r_phase (runs s i) = Deleting \/
      r_phase (runs s i) = Settling /\ r_published (runs s i) + GCFenceSettle <= clock s ->
    gc_step s i (set_run s i {| r_phase := Advanced; r_published := r_published (runs s i);
                                r_seq := S (r_seq (runs s i)); r_pins := r_pins (runs s i);
                                r_refs := r_refs (runs s i) |})
| GC_pins : r_phase (runs s i) = Advanced ->
    gc_step s i (set_run s i {| r_phase := PinsRead; r_published := r_published (runs s i);
                                r_seq := r_seq (runs s i); r_pins := r_pins (runs s i) || pin s;
                                r_refs := r_refs (runs s i) |})
| GC_scan : r_phase (runs s i) = PinsRead ->
    gc_step s i (set_run s i {| r_phase := Deleting; r_published := r_published (runs s i);
                                r_seq := r_seq (runs s i); r_pins := r_pins (runs s i);
                                r_refs := r_refs (runs s i) || manifest s |})
| GC_delete : r_phase (runs s i) = Deleting -> r_pins (runs s i) = false -> r_refs (runs s i) = false ->
    gc_step s i (set_chunk s false)
| GC_finish : live_run (runs s i) -> gc_step s i (set_run s i (in_phase (runs s i) Finished)).

(** ** The writer's steps ([BeginCommitFence], [VerifyAdopted], the commit, [Confirm]) *)

Definition recorded (r : run) : bool := negb (bool_decide (r_phase r = NoRun)).

Inductive writer_step (s : state) : state -> Prop :=
| W_begin_idle : the_writer s = Fresh -> (forall i, ~ live_run (runs s i)) ->
    writer_step s (set_writer s (Verifying false false (clock s) (fun i => recorded (runs s i))))
| W_begin_live i : the_writer s = Fresh -> live_run (runs s i) -> writer_step s (set_writer s (Pinning false))
| W_pin post : the_writer s = Pinning post -> writer_step s (write_pin s (Rereading post))
| W_reread post : the_writer s = Rereading post ->
    writer_step s (set_writer s (Waiting post (fun i =>
      match r_phase (runs s i) with NoRun | Finished => None | _ => Some (r_seq (runs s i)) end)))
| W_cleared post waitFor i q : the_writer s = Waiting post waitFor -> waitFor i = Some q ->
    r_phase (runs s i) = Finished \/ (q < r_seq (runs s i))%nat ->
    writer_step s (set_writer s (Waiting post (fun j => if decide (j = i) then None else waitFor j)))
| W_waited post waitFor : the_writer s = Waiting post waitFor -> (forall i, waitFor i = None) ->
    writer_step s (set_writer s (Verifying post true (clock s) (fun _ => true)))
| W_present pinned start known : the_writer s = Verifying false pinned start known -> chunk s = true ->
    writer_step s (set_writer s (Committing pinned start known))
| W_missing pinned start known : the_writer s = Verifying false pinned start known -> chunk s = false ->
    writer_step s (set_writer s Refused)
| W_commit pinned start known : the_writer s = Committing pinned start known ->
    writer_step s (write_manifest s (Committed pinned start known))
| W_confirm_pinned start known : the_writer s = Committed true start known ->
    writer_step s (set_writer s Succeeded)
| W_confirm_fast start known : the_writer s = Committed false start known ->
    clock s - start <= GCFenceWriterBudget -> writer_step s (set_writer s Succeeded)
| W_confirm_quiet start known : the_writer s = Committed false start known ->
    (forall i, ~ live_run (runs s i)) -> (forall i, recorded (runs s i) = true -> known i = true) ->
    writer_step s (set_writer s Succeeded)
| W_confirm_again start known i : the_writer s = Committed false start known ->
    live_run (runs s i) \/ recorded (runs s i) = true /\ known i = false ->
    writer_step s (set_writer s (Pinning true))
| W_recheck_present start known : the_writer s = Verifying true true start known -> chunk s = true ->
    writer_step s (set_writer s Succeeded)
| W_recheck_missing start known : the_writer s = Verifying true true start known -> chunk s = false ->
    writer_step s (set_writer s Reported).

Inductive step (s : state) : state -> Prop :=
| By_gc i s' : gc_step s i s' -> step s s'
| By_writer s' : writer_step s s' -> step s s'
| By_time t : clock s <= t -> step s (set_clock s t)
| By_other : step s (set_chunk s true).

Definition no_run : run :=
  {| r_phase := NoRun; r_published := 0; r_seq := 0; r_pins := false; r_refs := false |}.

(** A run that has started a checkpoint. *)
Definition has_advanced (r : run) : Prop :=
  r_phase r = Advanced \/ r_phase r = PinsRead \/ r_phase r = Deleting.

(** Initially no pin and no manifest of the writer; the collections may be anywhere. *)
Record initial (s : state) : Prop := {
  init_writer : the_writer s = Fresh;
  init_pin : pin s = false;
  init_manifest : manifest s = false;
  init_settled : forall i, has_advanced (runs s i) -> r_published (runs s i) + GCFenceSettle <= clock s
}.

Inductive reachable (s0 : state) : state -> Prop :=
| reach_refl : reachable s0 s0
| reach_step s s' : reachable s0 s -> step s s' -> reachable s0 s'.

(** ** The invariant *)

(** A run that may delete the chunk now. *)
Definition armed (r : run) : Prop := r_phase r = Deleting /\ r_pins r = false /\ r_refs r = false.

(** A run past its reading of the pins has seen the writer's. *)
Definition saw_pin (r : run) : Prop := r_phase r = PinsRead \/ r_phase r = Deleting -> r_pins r = true.

(** What a reading of the records that showed no live run leaves: the runs it saw have
    finished, any other was published since. *)
Definition since (start : time) (known : nat -> bool) (i : nat) (r : run) : Prop :=
  if known i then r_phase r = Finished else r_phase r = NoRun \/ start <= r_published r.

(** The chunk is there, or a run nobody saw at [start] has settled and deleted it. *)
Definition there_since (start : time) (known : nat -> bool) (s : state) : Prop :=
  chunk s = true \/
  start + GCFenceSettle <= clock s /\ exists i, recorded (runs s i) = true /\ known i = false.

Definition writer_inv (s : state) : Prop :=
  match the_writer s with
  | Fresh => manifest s = false
  | Pinning post => manifest s = post
  | Rereading post => pin s = true /\ manifest s = post
  | Waiting post waitFor => pin s = true /\ manifest s = post /\
      forall i, match waitFor i with
                | Some q => r_phase (runs s i) <> NoRun /\ (q <= r_seq (runs s i))%nat /\ ((q < r_seq (runs s i))%nat -> saw_pin (runs s i))
                | None => saw_pin (runs s i)
                end
  | Verifying post true start known => pin s = true /\ manifest s = post /\ forall i, saw_pin (runs s i)
  | Verifying post false start known =>
      manifest s = post /\ post = false /\ start <= clock s /\ forall i, since start known i (runs s i)
  | Committing true start known =>
      pin s = true /\ manifest s = false /\ chunk s = true /\ forall i, saw_pin (runs s i)
  | Committed true start known =>
      pin s = true /\ manifest s = true /\ chunk s = true /\ forall i, saw_pin (runs s i)
  | Committing false start known =>
      manifest s = false /\ start <= clock s /\ (forall i, since start known i (runs s i)) /\ there_since start known s
  | Committed false start known =>
      manifest s = true /\ start <= clock s /\ (forall i, since start known i (runs s i)) /\ there_since start known s
  | Succeeded => manifest s = true /\ chunk s = true /\ forall i, ~ armed (runs s i)
  | Refused => manifest s = false
  | Reported => manifest s = true
  end.

Record inv (s : state) : Prop := {
  inv_settled : forall i, has_advanced (runs s i) -> r_published (runs s i) + GCFenceSettle <= clock s;
  inv_writer : writer_inv s
}.

Lemma settle_budget : GCFenceWriterBudget < GCFenceSettle.
Proof. done. Qed.

Lemma initial_inv s : initial s -> inv s.
Proof. intros [Hw _ Hm Hs]. split; [done|]. unfold writer_inv. by rewrite Hw. Qed.

(** ** One run changes

    What the invariant needs of a step that changes one run and nothing else. *)

Record run_change (s : state) (r r' : run) : Prop := {
  rc_settled : has_advanced r' -> r_published r' + GCFenceSettle <= clock s;
  rc_seq : (r_seq r <= r_seq r')%nat \/ r_phase r = NoRun;
  rc_saw : (r_seq r < r_seq r')%nat -> pin s = true -> saw_pin r';
  rc_keeps_saw : pin s = true -> saw_pin r -> saw_pin r';
  rc_since : forall start known i, start <= clock s -> since start known i r -> since start known i r';
  rc_recorded : r_phase r <> NoRun -> r_phase r' <> NoRun;
  rc_armed : manifest s = true -> ~ armed r -> ~ armed r'
}.

Lemma recorded_true r : recorded r = true <-> r_phase r <> NoRun.
Proof. unfold recorded. by rewrite negb_true_iff, bool_decide_eq_false. Qed.

Lemma run_change_same s r : (has_advanced r -> r_published r + GCFenceSettle <= clock s) -> run_change s r r.
Proof. intros H. split; auto; lia. Qed.

(** Changing one run, the others as they are. *)
Lemma run_change_all s i r' j : inv s -> run_change s (runs s i) r' ->
  run_change s (runs s j) (runs (set_run s i r') j).
Proof.
  intros Hi Hr. cbn. destruct (decide (j = i)) as [->|_]; [done|]. apply run_change_same, Hi.
Qed.

Lemma there_since_change s i r' start known : (forall j, run_change s (runs s j) (runs (set_run s i r') j)) ->
  there_since start known s -> there_since start known (set_run s i r').
Proof.
  intros Hall [Hc|(Hst & j & Hrec & Hk)]; [by left|]. right. split; [done|]. exists j. split; [|done].
  apply recorded_true, (rc_recorded _ _ _ (Hall j)). by apply recorded_true.
Qed.

Lemma inv_set_run s i r' : inv s -> run_change s (runs s i) r' -> inv (set_run s i r').
Proof.
  intros Hi Hr. pose proof (fun j => run_change_all s i r' j Hi Hr) as Hall.
  split; [intros j; apply (rc_settled _ _ _ (Hall j))|].
  pose proof (inv_writer s Hi) as H. revert H. unfold writer_inv.
  change (the_writer (set_run s i r')) with (the_writer s). change (pin (set_run s i r')) with (pin s).
  change (manifest (set_run s i r')) with (manifest s). change (chunk (set_run s i r')) with (chunk s).
  change (clock (set_run s i r')) with (clock s).
  destruct (the_writer s) as [|post|post|post waitFor|post [|] start known|[|] start known|[|] start known| | |];
    try done.
  - intros (Hp & Hm & Hw). split_and!; [done|done|]. intros j. specialize (Hw j).
    destruct (waitFor j) as [q|].
    + destruct Hw as (H1 & H2 & H3). destruct (rc_seq _ _ _ (Hall j)) as [Hs|Hs]; [|done].
      split_and!; [by apply (rc_recorded _ _ _ (Hall j))|lia|]. intros Hlt.
      destruct (decide (r_seq (runs s j) < r_seq (runs (set_run s i r') j))%nat) as [Hd|Hd].
      * by apply (rc_saw _ _ _ (Hall j)).
      * apply (rc_keeps_saw _ _ _ (Hall j)); [done|]. apply H3. lia.
    + by apply (rc_keeps_saw _ _ _ (Hall j)).
  - intros (Hp & Hm & Hw). split_and!; [done|done|]. intros j. by apply (rc_keeps_saw _ _ _ (Hall j)).
  - intros (Hm & Hpost & Hst & Hw). split_and!; [done..|]. intros j. by apply (rc_since _ _ _ (Hall j)).
  - intros (Hp & Hm & Hc & Hw). split_and!; [done..|]. intros j. by apply (rc_keeps_saw _ _ _ (Hall j)).
  - intros (Hm & Hst & Hw & Ht). split_and!; [done..| |by apply there_since_change].
    intros j. by apply (rc_since _ _ _ (Hall j)).
  - intros (Hp & Hm & Hc & Hw). split_and!; [done..|]. intros j. by apply (rc_keeps_saw _ _ _ (Hall j)).
  - intros (Hm & Hst & Hw & Ht). split_and!; [done..| |by apply there_since_change].
    intros j. by apply (rc_since _ _ _ (Hall j)).
  - intros (Hm & Hc & Ha). split_and!; [done..|]. intros j. by apply (rc_armed _ _ _ (Hall j)).
Qed.

(** ** The steps keep the invariant *)

Lemma delete_inv s i : inv s -> armed (runs s i) -> inv (set_chunk s false).
Proof.
  intros Hi (Hd & Hp & Hr). split; [apply Hi|]. pose proof (inv_settled s Hi i) as Hset.
  pose proof (inv_writer s Hi) as H. revert H. unfold writer_inv.
  assert (forall start known, start <= clock s -> since start known i (runs s i) ->
    there_since start known (set_chunk s false)) as Hthere.
  { intros start known Hst Hsi. right. unfold since in Hsi. destruct (known i) eqn:Ek; [congruence|].
    destruct Hsi as [Hsi|Hsi]; [congruence|]. assert (r_published (runs s i) + GCFenceSettle <= clock s)
      by (apply Hset; right; by right).
    split; [cbn; lia|]. exists i. split; [|done]. apply recorded_true. cbn. congruence. }
  change (the_writer (set_chunk s false)) with (the_writer s).
  destruct (the_writer s) as [|post|post|post waitFor|post [|] start known|[|] start known|[|] start known| | |];
    try done.
  - intros (_ & _ & _ & Hw). specialize (Hw i (or_intror Hd)). congruence.
  - intros (Hm & Hst & Hw & _). split_and!; [done..|]. by apply Hthere.
  - intros (_ & _ & _ & Hw). specialize (Hw i (or_intror Hd)). congruence.
  - intros (Hm & Hst & Hw & _). split_and!; [done..|]. by apply Hthere.
  - intros (_ & _ & Ha). by destruct (Ha i).
Qed.

Lemma gc_step_inv s i s' : gc_step s i s' -> inv s -> inv s'.
Proof.
  intros Hs Hi. pose proof (inv_settled s Hi i) as Hset. destruct Hs as [Hp|Hp|Hp|Hp|Hp H1 H2|[Hl1 Hl2]];
    try apply inv_set_run; try done; try by apply (delete_inv s i).
  all: split; unfold has_advanced, saw_pin, since, armed; cbn.
  all: try solve [naive_solver lia].
  all: try solve [intros start known j Hst; destruct (known j); naive_solver (congruence || lia)].
  all: try solve [intros ->; rewrite orb_true_r; naive_solver].
  all: intros _; unfold has_advanced in Hset; naive_solver.
Qed.

Lemma writer_step_settled s s' : writer_step s s' -> inv s -> runs s' = runs s /\ clock s' = clock s.
Proof. by intros []. Qed.

Lemma live_since s start known i : r_phase (runs s i) <> NoRun -> r_phase (runs s i) <> Finished ->
  since start known i (runs s i) -> start <= r_published (runs s i).
Proof. intros H1 H2. unfold since. destruct (known i); naive_solver. Qed.

Lemma since_fast s start known : inv s -> (forall i, since start known i (runs s i)) ->
  there_since start known s -> clock s - start <= GCFenceWriterBudget ->
  chunk s = true /\ forall i, ~ armed (runs s i).
Proof.
  intros Hi Hs Ht Hb. pose proof settle_budget as Hsb. split.
  - destruct Ht as [Hc|[Ht _]]; [done|lia].
  - intros i (Hd & _). assert (start <= r_published (runs s i)) by (apply (live_since s start known i); congruence || done).
    assert (r_published (runs s i) + GCFenceSettle <= clock s) by (apply Hi; right; by right). lia.
Qed.

Lemma writer_step_inv s s' : writer_step s s' -> inv s -> inv s'.
Proof.
  intros Hs Hi. destruct (writer_step_settled s s' Hs Hi) as [Er Ec].
  split; [rewrite Er, Ec; apply Hi|]. pose proof (inv_writer s Hi) as H. unfold writer_inv in *.
  destruct Hs as [Hw Hidle|i Hw Hl|post Hw|post Hw|post wf i q Hw Hq Hc|post wf Hw Hn|p st kn Hw Hc|p st kn Hw Hc
    |p st kn Hw|st kn Hw|st kn Hw Hb|st kn Hw Hidle Hrec|st kn i Hw Hl|st kn Hw Hc|st kn Hw Hc];
    rewrite Hw in H; cbn in *.
  - split_and!; [done..|]. intros i. unfold since. destruct (recorded (runs s i)) eqn:E.
    + apply recorded_true in E. specialize (Hidle i). unfold live_run in Hidle.
      destruct (decide (r_phase (runs s i) = Finished)); [done|naive_solver].
    + left. unfold recorded in E. by apply negb_false_iff, bool_decide_eq_true in E.
  - done.
  - done.
  - destruct H as [Hp Hm]. split_and!; [done..|]. intros i.
    destruct (r_phase (runs s i)) eqn:E; unfold saw_pin; rewrite ?E; try (split_and!; [done|lia|lia]); naive_solver.
  - destruct H as (Hp & Hm & Hall). split_and!; [done..|]. intros j. destruct (decide (j = i)) as [->|_]; [|by apply Hall].
    specialize (Hall i). rewrite Hq in Hall. destruct Hall as (_ & _ & Hsaw).
    destruct Hc as [Hf|Hlt]; [unfold saw_pin; rewrite Hf; naive_solver|by apply Hsaw].
  - destruct H as (Hp & Hm & Hall). split_and!; [done..|]. intros i. specialize (Hall i). by rewrite Hn in Hall.
  - destruct p; [by destruct H as (H1 & H2 & H3)|]. destruct H as (H1 & _ & H2 & H3).
    split_and!; [done..|by left].
  - destruct p; [by destruct H as (_ & H & _)|by destruct H as (H & _)].
  - destruct p; [by destruct H as (H1 & _ & H2 & H3)|]. by destruct H as (_ & H1 & H2 & H3).
  - destruct H as (Hp & Hm & Hc & Hs). split_and!; [done..|]. intros i (Hd & H1 & _).
    specialize (Hs i (or_intror Hd)). congruence.
  - destruct H as (Hm & Hst & Hsi & Ht). split; [done|]. by apply (since_fast s st kn).
  - destruct H as (Hm & Hst & Hsi & Ht). split_and!; [done| |].
    + destruct Ht as [Hc|(_ & i & H1 & H2)]; [done|]. apply Hrec in H1. congruence.
    + intros i (Hd & _). apply (Hidle i). unfold live_run. rewrite Hd. done.
  - by destruct H.
  - destruct H as (Hp & Hm & Hs). split_and!; [done..|]. intros i (Hd & H1 & _).
    specialize (Hs i (or_intror Hd)). congruence.
  - by destruct H as (Hp & Hm & Hs).
Qed.

Lemma clock_inv s t : clock s <= t -> inv s -> inv (set_clock s t).
Proof.
  intros Ht [Hs Hw]. split; [intros i Ha; specialize (Hs i Ha); cbn; lia|].
  revert Hw. unfold writer_inv, there_since. cbn [the_writer set_clock clock pin manifest chunk runs].
  destruct (the_writer s) as [|post|post|post waitFor|post [|] start known|[|] start known|[|] start known| | |];
    try done.
  - intros (H1 & H2 & H3 & H4). split_and!; [done|done|lia|done].
  - intros (H1 & H2 & H3 & [H4|[H4 H5]]); (split_and!; [done|lia|done|]); [by left|right; split; [lia|done]].
  - intros (H1 & H2 & H3 & [H4|[H4 H5]]); (split_and!; [done|lia|done|]); [by left|right; split; [lia|done]].
Qed.

Lemma rewrite_inv s : inv s -> inv (set_chunk s true).
Proof.
  intros [Hs Hw]. split; [done|]. revert Hw. unfold writer_inv, there_since.
  cbn [the_writer set_chunk clock pin manifest chunk runs].
  destruct (the_writer s) as [|post|post|post waitFor|post [|] start known|[|] start known|[|] start known| | |];
    try done.
  - by intros (H1 & H2 & _ & H3).
  - intros (H1 & H2 & H3 & _). split_and!; [done..|by left].
  - by intros (H1 & H2 & _ & H3).
  - intros (H1 & H2 & H3 & _). split_and!; [done..|by left].
  - by intros (H1 & _ & H3).
Qed.

Lemma reachable_inv s0 s : initial s0 -> reachable s0 s -> inv s.
Proof.
  intros H0. induction 1 as [|s s' _ IH Hst]; [by apply initial_inv|].
  destruct Hst as [i s' Hg|s' Hw|t Ht|]; [by eapply gc_step_inv|by eapply writer_step_inv|by apply clock_inv|by apply rewrite_inv].
Qed.

Lemma reachable_trans s0 s s' : reachable s0 s -> reachable s s' -> reachable s0 s'.
Proof. intros H. induction 1 as [|s1 s2 _ IH Hst]; [done|by eapply reach_step]. Qed.

Lemma succeeded_stays s s' : reachable s s' -> the_writer s = Succeeded -> the_writer s' = Succeeded.
Proof.
  induction 1 as [|s1 s2 _ IH Hst]; [done|]. intros Hw. specialize (IH Hw).
  destruct Hst as [i s2 Hg|s2 Hg|t _|]; [by destruct Hg|destruct Hg; congruence|done|done].
Qed.


(** A collection is deleting while the writer begins: it pins, waits for the next checkpoint. *)
Definition demo_start : state :=
  {| clock := GCFenceSettle; chunk := true; pin := false; manifest := false;
     runs := fun i => match i with
                      | O => {| r_phase := Deleting; r_published := 0; r_seq := 1; r_pins := false; r_refs := false |}
                      | S _ => no_run end;
     the_writer := Fresh |}.

Lemma demo_start_initial : initial demo_start.
Proof. split; [done..|]. intros [|i]; cbn; [done|]. by intros [|[|]]. Qed.

Lemma demo_path : exists s, reachable demo_start s /\ the_writer s = Succeeded.
Proof.
  assert (live_run (runs demo_start 0)) as Hl by done.
  pose proof (reach_refl demo_start) as H.
  eapply reach_step in H; [|by apply By_writer, (W_begin_live _ 0)].
  eapply reach_step in H; [|by apply By_writer, (W_pin _ false)].
  eapply reach_step in H; [|by apply By_writer, (W_reread _ false)].
  eapply reach_step in H; [|apply (By_gc _ 0), GC_advance; by left].
  eapply reach_step in H; [|by apply (By_gc _ 0), GC_pins].
  eapply reach_step in H; [|eapply By_writer, (W_cleared _ false _ 0 1); [done|done|by right; constructor]].
  eapply reach_step in H; [|eapply By_writer, (W_waited _ false); [done|by intros [|i]]].
  eapply reach_step in H; [|by eapply By_writer, W_present].
  eapply reach_step in H; [|by eapply By_writer, W_commit].
  eapply reach_step in H; [|by eapply By_writer, W_confirm_pinned].
  by eexists.
Qed.

