(* ===== verification/WalReceive.v ===== *)
(** The receiving half of the WAL sink (internal/pg/walsink/walsink.go, opening_check.go).

    Records of the replication stream are copied into a segment buffer; a full buffer is handed
    to the processor ([WalSink]) and its position in the stream must be exactly the next byte.
    The channels that bound the buffers only make the receiver wait: the queue of full segments
    is a list, and no context is cancelled. *)
From S2P Require Import Prelude Chunker WalSegment.
From Stdlib Require Import Strings.Byte.

Local Open Scope list_scope.
Local Open Scope Z_scope.

(** A record as the sink uses it; the server positions and times it carries are not used. *)
Record XLogRecord := { WALStart : Z; Data : list byte }.

(** A full segment on its way to the processor. *)
Record segJob := { sj_buf : list byte; sj_n : Z; sj_segNum : Z; sj_startLSN : Z }.

(** The receiver's fields of [Sink]; [curBuf] is the part of the buffer written so far. *)
Record Sink := {
  segSize : Z;
  curBuf : list byte;
  curFilled : Z;
  curSegNum : Z;
  curStartLSN : Z;
  haveSeg : bool;
  expectedNext : Z;
  expectedFirst : Z;
  firstChecked : bool;
  bufferedLSN : Z;
  pending : list segJob
}.

Inductive recv_err :=
| ProcErr
| OpeningGap (expected got : Z)
| StreamGap (expected got : Z)
| SegmentGap (filling target : Z)
| OutOfOrder (expected got : Z)
| AssertFailed
| LoopFuel.

Record SinkOptions := { so_SegmentSize : Z; so_ExpectedFirstLSN : Z }.

(** [New], once its arguments are there: [None] is the refusal of the segment size. *)
Definition NewSink (o : SinkOptions) : option Sink :=
  let size := NormSegmentSize (so_SegmentSize o) in
  if negb (ValidSegmentSize size) then None
  else Some {| segSize := size; curBuf := []; curFilled := 0; curSegNum := 0; curStartLSN := 0;
               haveSeg := false; expectedNext := 0; expectedFirst := so_ExpectedFirstLSN o;
               firstChecked := false; bufferedLSN := 0; pending := [] |}.

Definition checkOpeningRecord (s : Sink) (pos : Z) : Sink * option recv_err :=
  if firstChecked s then (s, None)
  else
    let s := {| segSize := segSize s; curBuf := curBuf s; curFilled := curFilled s; curSegNum := curSegNum s;
                curStartLSN := curStartLSN s; haveSeg := haveSeg s; expectedNext := expectedNext s;
                expectedFirst := expectedFirst s; firstChecked := true; bufferedLSN := bufferedLSN s;
                pending := pending s |} in
    (s, if negb (expectedFirst s =? 0) && (expectedFirst s <? pos)
        then Some (OpeningGap (expectedFirst s) pos) else None).

Definition startSegment (s : Sink) (segNum startLSN : Z) : Sink :=
  {| segSize := segSize s; curBuf := []; curFilled := 0; curSegNum := segNum; curStartLSN := startLSN;
     haveSeg := true; expectedNext := expectedNext s; expectedFirst := expectedFirst s;
     firstChecked := firstChecked s; bufferedLSN := bufferedLSN s; pending := pending s |}.

(** The copy of some bytes into the buffer; [next] is the position after them. *)
Definition fill (s : Sink) (bytes : list byte) (next : Z) : Sink :=
  {| segSize := segSize s; curBuf := takeZ (curFilled s) (curBuf s) ++ bytes;
     curFilled := curFilled s + len bytes; curSegNum := curSegNum s; curStartLSN := curStartLSN s;
     haveSeg := haveSeg s; expectedNext := next; expectedFirst := expectedFirst s;
     firstChecked := firstChecked s; bufferedLSN := next; pending := pending s |}.

(** [None] is a failed assertion. *)
Definition handOff (s : Sink) : option Sink :=
  if negb (curFilled s =? segSize s) then None
  else if negb (curStartLSN s =? u64 (curSegNum s * segSize s)) then None
  else
    let job := {| sj_buf := curBuf s; sj_n := curFilled s; sj_segNum := curSegNum s; sj_startLSN := curStartLSN s |} in
    Some {| segSize := segSize s; curBuf := []; curFilled := 0; curSegNum := curSegNum s;
            curStartLSN := curStartLSN s; haveSeg := false; expectedNext := expectedNext s;
            expectedFirst := expectedFirst s; firstChecked := firstChecked s; bufferedLSN := bufferedLSN s;
            pending := pending s ++ [job] |}.

(** The copying loop of [OnRecord]; every round consumes a byte. *)
Fixpoint copy_loop (fuel : nat) (s : Sink) (pos : Z) (data : list byte) : Sink * option recv_err :=
  match fuel, data with
  | _, [] => (s, None)
  | O, _ => (s, Some LoopFuel)
  | S fuel, _ =>
      let segNum := pos / segSize s in
      let offsetInSeg := pos mod segSize s in
      let s := if haveSeg s then s else startSegment s segNum (u64 (segNum * segSize s)) in
      if negb (segNum =? curSegNum s) then (s, Some (SegmentGap (curSegNum s) segNum))
      else if negb (offsetInSeg =? curFilled s) then (s, Some (OutOfOrder (curFilled s) offsetInSeg))
      else
        let room := segSize s - curFilled s in
        let n := if room <? len data then room else len data in
        let pos := u64 (pos + n) in
        let s := fill s (takeZ n data) pos in
        if curFilled s =? segSize s then
          match handOff s with
          | None => (s, Some AssertFailed)
          | Some s => copy_loop fuel s pos (dropZ n data)
          end
        else copy_loop fuel s pos (dropZ n data)
  end.

(** [procErr]: the processor has failed. *)
Definition OnRecord (procErr : bool) (s : Sink) (rec : XLogRecord) : Sink * option recv_err :=
  if procErr then (s, Some ProcErr)
  else if len (Data rec) =? 0 then (s, None)
  else
    let pos := WALStart rec in
    let '(s, e) := checkOpeningRecord s pos in
    match e with
    | Some e => (s, Some e)
    | None =>
        if negb (expectedNext s =? 0) && negb (pos =? expectedNext s)
        then (s, Some (StreamGap (expectedNext s) pos))
        else copy_loop (length (Data rec)) s pos (Data rec)
    end.

(** The replication loop ends at the first record the sink refuses. *)
Fixpoint feed (s : Sink) (recs : list XLogRecord) : Sink * option recv_err :=
  match recs with
  | [] => (s, None)
  | r :: recs =>
      match OnRecord false s r with
      | (s, None) => feed s recs
      | (s, Some e) => (s, Some e)
      end
  end.

(** ** What a stream of records is *)

(** The bytes of some records, and where the first non-empty one starts. *)
Definition stream (recs : list XLogRecord) : list byte := concat (map Data recs).

Fixpoint start_of (recs : list XLogRecord) : Z :=
  match recs with
  | [] => 0
  | r :: recs => if len (Data r) =? 0 then start_of recs else WALStart r
  end.

(** Each non-empty record starts where the one before it ended. *)
Fixpoint contiguous (p : Z) (recs : list XLogRecord) : Prop :=
  match recs with
  | [] => True
  | r :: recs => (Data r <> [] -> WALStart r = p) /\ contiguous (p + len (Data r)) recs
  end.

(** A stream the sink can archive: gapless, from a segment boundary, and not past the
    position it was asked to resume at. *)
Definition well_placed (size expected : Z) (recs : list XLogRecord) : Prop :=
  start_of recs mod size = 0 /\ (expected <> 0 -> start_of recs <= expected) /\ contiguous (start_of recs) recs.

Definition in_range (r : XLogRecord) : Prop := 0 <= WALStart r /\ WALStart r + len (Data r) < 2 ^ 64.

(** Full segments [k], [k+1], ... in a row. *)
Definition jobs_from (size k : Z) (jobs : list segJob) : Prop :=
  forall i j, jobs !! i = Some j ->
    sj_segNum j = k + Z.of_nat i /\ sj_startLSN j = sj_segNum j * size /\ sj_n j = size /\ len (sj_buf j) = size.

Definition partial (s : Sink) : list byte := if haveSeg s then curBuf s else [].

(** ** Facts *)

Lemma stream_snoc recs r : stream (recs ++ [r]) = stream recs ++ Data r.
Proof. unfold stream. by rewrite map_app, concat_app; simpl; rewrite app_nil_r. Qed.

Lemma start_of_snoc recs r :
  start_of (recs ++ [r]) = if len (stream recs) =? 0 then (if len (Data r) =? 0 then 0 else WALStart r) else start_of recs.
Proof.
  induction recs as [|r0 recs IH]; simpl; [done|]. rewrite IH. unfold stream. simpl. rewrite len_app.
  pose proof (len_nonneg (Data r0)). pose proof (len_nonneg (concat (map Data recs))).
  fold (stream recs) in *. destruct (Z.eqb_spec (len (Data r0)) 0) as [->|]; [done|].
  by rewrite (proj2 (Z.eqb_neq (len (Data r0) + _) 0)) by lia.
Qed.

Lemma contiguous_snoc p recs r :
  contiguous p (recs ++ [r]) <-> contiguous p recs /\ (Data r <> [] -> WALStart r = p + len (stream recs)).
Proof.
  revert p. induction recs as [|r0 recs IH]; intros p; simpl.
  - change (len (stream [])) with 0. rewrite Z.add_0_r. tauto.
  - rewrite IH. unfold stream. simpl. rewrite len_app, Z.add_assoc. tauto.
Qed.

Lemma contiguous_start p recs : contiguous p recs -> stream recs <> [] -> start_of recs = p.
Proof.
  revert p. induction recs as [|r recs IH]; intros p; simpl; [done|]. intros [H1 H2].
  destruct (Z.eqb_spec (len (Data r)) 0) as [E|E].
  - apply len_nil in E. unfold stream. simpl. rewrite E in *. simpl. intros Hs. rewrite (IH (p + len (@nil byte))); [|done..].
    change (len []) with 0. lia.
  - intros _. apply H1. intros E'. apply E, len_nil, E'.
Qed.

Lemma contiguous_empty p recs : stream recs = [] -> contiguous p recs.
Proof.
  revert p. induction recs as [|r recs IH]; intros p; simpl; [done|]. unfold stream. simpl.
  intros [E1 E2]%app_nil. split; [done|]. by apply IH.
Qed.

Lemma jobs_from_snoc size k jobs j :
  jobs_from size k jobs -> sj_segNum j = k + len jobs -> sj_startLSN j = sj_segNum j * size ->
  sj_n j = size -> len (sj_buf j) = size -> jobs_from size k (jobs ++ [j]).
Proof.
  intros H H1 H2 H3 H4 i x Hx. destruct (decide (i < length jobs)%nat) as [Hi|Hi].
  - rewrite lookup_app_l in Hx by done. by apply H.
  - rewrite lookup_app_r in Hx by lia. destruct (i - length jobs)%nat eqn:E; [|done].
    injection Hx as <-. unfold len in H1. replace i with (length jobs) by lia. done.
Qed.

Lemma jobs_bytes size k jobs : jobs_from size k jobs -> len (concat (map sj_buf jobs)) = len jobs * size.
Proof.
  revert k. induction jobs as [|j jobs IH]; intros k H; [done|]. simpl. rewrite len_app, (IH (k + 1)).
  - destruct (H 0%nat j eq_refl) as (_ & _ & _ & ->). unfold len. simpl length. lia.
  - intros i x Hx. destruct (H (S i) x Hx) as (H1 & H2). split; [lia|done].
Qed.

Section receive.
Context (p : Z).

(** The state after the bytes [w] from the aligned position [p]. *)
Record received (w : list byte) (s : Sink) : Prop := {
  rc_size : 0 < segSize s;
  rc_start : 0 <= p /\ p mod segSize s = 0;
  rc_range : p + len w < 2 ^ 64;
  rc_jobs : jobs_from (segSize s) (p / segSize s) (pending s);
  rc_bytes : concat (map sj_buf (pending s)) ++ partial s = w;
  rc_cur : haveSeg s = true -> 0 < len (curBuf s) < segSize s /\ curFilled s = len (curBuf s) /\
    curSegNum s = p / segSize s + len (pending s) /\ curStartLSN s = curSegNum s * segSize s
}.

(** What the copying loop leaves alone. *)
Definition same_params (s s' : Sink) : Prop :=
  segSize s' = segSize s /\ expectedFirst s' = expectedFirst s /\ firstChecked s' = firstChecked s.

(** A round that begins at the right position copies. *)
Lemma copy_round w s s1 n (pos := p + len w) :
  received w s -> 0 < n -> pos + n < 2 ^ 64 ->
  s1 = (if haveSeg s then s else startSegment s (pos / segSize s) (u64 (pos / segSize s * segSize s))) ->
  pos / segSize s = curSegNum s1 /\ pos mod segSize s = curFilled s1 /\ curFilled s1 = len (curBuf s1) /\
  0 <= curFilled s1 < segSize s /\ curStartLSN s1 = curSegNum s1 * segSize s /\
  curSegNum s1 = p / segSize s + len (pending s) /\ partial s = curBuf s1 /\
  segSize s1 = segSize s /\ pending s1 = pending s /\ same_params s s1.
Proof.
  intros [H1 [H2 H3] H4 H5 H6 H7] Hn Hr ->.
  assert (len w = len (pending s) * segSize s + len (partial s)) as Hw.
  { rewrite <- H6, len_app. f_equal. by eapply jobs_bytes. }
  pose proof (Z.div_mod p (segSize s) ltac:(lia)) as Hdm. rewrite H3 in Hdm.
  pose proof (len_nonneg (pending s)). unfold partial in *. destruct (haveSeg s) eqn:Eh.
  - destruct (H7 eq_refl) as (? & ? & ? & ?).
    assert (pos = (p / segSize s + len (pending s)) * segSize s + curFilled s) as Hp by (unfold pos; lia).
    assert (pos / segSize s = p / segSize s + len (pending s)) as Hd by (symmetry; apply (Z.div_unique pos _ _ (curFilled s)); lia).
    assert (pos mod segSize s = curFilled s) as Hm by (symmetry; apply (Z.mod_unique pos _ (p / segSize s + len (pending s))); lia).
    split_and!; try done; lia.
  - change (len []) with 0 in Hw.
    assert (pos = (p / segSize s + len (pending s)) * segSize s + 0) as Hp by (unfold pos; lia).
    assert (pos / segSize s = p / segSize s + len (pending s)) as Hd by (symmetry; apply (Z.div_unique pos _ _ 0); lia).
    assert (pos mod segSize s = 0) as Hm by (symmetry; apply (Z.mod_unique pos _ (p / segSize s + len (pending s))); lia).
    cbn. rewrite u64_id by lia. split_and!; try done; lia.
Qed.

(** One round of the loop on the right position: the buffer grows, and a full one is queued. *)
Lemma copy_fill w s s1 bytes (pos := p + len w) :
  received w s -> 0 < len bytes <= segSize s - curFilled s1 -> pos + len bytes < 2 ^ 64 ->
  s1 = (if haveSeg s then s else startSegment s (pos / segSize s) (u64 (pos / segSize s * segSize s))) ->
  let s2 := fill s1 bytes (pos + len bytes) in
  exists s3, (if curFilled s2 =? segSize s2 then handOff s2 = Some s3 else s3 = s2) /\
    received (w ++ bytes) s3 /\ same_params s s3 /\
    expectedNext s3 = p + len (w ++ bytes) /\ bufferedLSN s3 = p + len (w ++ bytes).
Proof.
  intros H Hb Hr Hs1 s2. destruct (copy_round w s s1 (len bytes) H ltac:(lia) Hr Hs1)
    as (R1 & R2 & R3 & R4 & R5 & R6 & R7 & R8 & R9 & (R10 & R11 & R12)).
  destruct H as [H1 [H2 H3] H4 H5 H6 H7]. fold pos in R1, R2.
  assert (haveSeg s1 = true) as Hhave by (subst s1; by destruct (haveSeg s) eqn:E).
  assert (curBuf s2 = curBuf s1 ++ bytes) as Hbuf by (unfold s2, fill; cbn; by rewrite R3, takeZ_all by lia).
  assert (curFilled s2 = len (curBuf s2)) as Hfill 
    by (rewrite Hbuf, len_app; change (curFilled s2) with (curFilled s1 + len bytes); lia).
  assert (len (curBuf s2) = curFilled s1 + len bytes) as Hlen by (rewrite Hbuf, len_app; lia).
  assert (pos + len bytes = p + len (w ++ bytes)) as Hpos by (rewrite len_app; unfold pos; lia).
  assert (concat (map sj_buf (pending s)) ++ curBuf s2 = w ++ bytes) as Hcat
    by (rewrite <- H6, R7, Hbuf; by rewrite <- app_assoc).
  pose proof (len_nonneg (pending s)). pose proof (len_nonneg w).
  assert (0 <= curSegNum s1 * segSize s < 2 ^ 64) as Hu.
  { pose proof (Z.div_mod pos (segSize s) ltac:(lia)) as Hd. rewrite R1, R2 in Hd.
    pose proof (Z.div_pos p (segSize s) H2 H1). split; [apply Z.mul_nonneg_nonneg|]; lia. }
  destruct (Z.eqb_spec (curFilled s2) (segSize s2)) as [Efull|Enot].
  - unfold handOff. rewrite (proj2 (Z.eqb_eq _ _)) by done. cbn [negb].
    change (curStartLSN s2) with (curStartLSN s1). change (curSegNum s2) with (curSegNum s1).
    change (segSize s2) with (segSize s1) in *. rewrite R8 in *. rewrite u64_id by done.
    rewrite R5, Z.eqb_refl. cbn [negb]. eexists. split; [reflexivity|]. cbn. split; [|split; [|done]].
    + split; cbn; rewrite ?R8; try done; try lia.
      * rewrite R9. apply jobs_from_snoc; [done|exact R6|reflexivity|exact Efull|].
        change (len (curBuf s2) = segSize s). congruence.
      * unfold partial. cbn. rewrite R9, map_app, concat_app, app_nil_r. simpl. by rewrite app_nil_r.
    + split_and!; cbn; try done; congruence.
  - exists s2. split; [done|]. change (segSize s2) with (segSize s1) in *.
    split; [|split; [split_and!; cbn; try done; congruence|done]].
    split; cbn [segSize pending haveSeg fill s2]; rewrite ?R8, ?R9; try done; try lia.
    + unfold partial. cbn [haveSeg s2 fill]. by rewrite Hhave.
    + intros _. fold s2. change (curSegNum s2) with (curSegNum s1). change (curStartLSN s2) with (curStartLSN s1).
      split_and!; try done; lia.
Qed.

Lemma copy_loop_ok data : forall fuel w s, received w s -> (length data <= fuel)%nat ->
  p + len w + len data < 2 ^ 64 ->
  exists s', copy_loop fuel s (p + len w) data = (s', None) /\ received (w ++ data) s' /\ same_params s s' /\
    (data <> [] -> expectedNext s' = p + len (w ++ data) /\ bufferedLSN s' = p + len (w ++ data)).
Proof.
  induction data as [data IH] using (well_founded_induction (well_founded_ltof _ (@length byte))).
  intros fuel w s H Hfuel Hr. destruct data as [|b data].
  { exists s. rewrite app_nil_r. destruct fuel; split_and!; done. }
  destruct fuel as [|fuel]; [simpl in Hfuel; lia|]. set (bytes := b :: data) in *.
  assert (0 < len bytes) by (unfold bytes, len; simpl length; lia).
  cbn [copy_loop]. fold bytes.
  set (s1 := if haveSeg s then s else _).
  destruct (copy_round w s s1 (len bytes) H ltac:(lia) ltac:(lia) eq_refl)
    as (R1 & R2 & R3 & R4 & R5 & R6 & R7 & R8 & R9 & R10).
  rewrite R1, R2, !Z.eqb_refl. cbn [negb]. rewrite R8.
  set (n := if segSize s - curFilled s1 <? len bytes then segSize s - curFilled s1 else len bytes).
  assert (0 < n <= segSize s - curFilled s1 /\ n <= len bytes) as [Hn Hn']
    by (unfold n; destruct (Z.ltb_spec (segSize s - curFilled s1) (len bytes)); lia).
  assert (len (takeZ n bytes) = n) as Ht by (rewrite len_takeZ; lia).
  rewrite (u64_id (p + len w + n)) by (destruct H; pose proof (len_nonneg w); lia).
  destruct (copy_fill w s s1 (takeZ n bytes) H) as (s3 & E3 & G1 & G2 & G3 & G4); [lia|lia|done|].
  rewrite Ht in E3.
  assert (exists s', copy_loop fuel s3 (p + len w + n) (dropZ n bytes) = (s', None) /\
    received (w ++ bytes) s' /\ same_params s s' /\
    (bytes <> [] -> expectedNext s' = p + len (w ++ bytes) /\ bufferedLSN s' = p + len (w ++ bytes))) as Hrest.
  { assert (length (dropZ n bytes) < length bytes)%nat as Hlt.
    { unfold dropZ. rewrite length_drop. unfold bytes in *. simpl length in *. lia. }
    replace (p + len w + n) with (p + len (w ++ takeZ n bytes)) by (rewrite len_app; lia).
    destruct (IH (dropZ n bytes) Hlt fuel (w ++ takeZ n bytes) s3 G1) as (s' & E & Q1 & Q2 & Q3).
    - simpl in Hfuel. unfold bytes in *. simpl length in Hlt. lia.
    - rewrite len_app, Ht, len_dropZ by lia. lia.
    - rewrite <- app_assoc, takeZ_dropZ in Q1, Q3. exists s'. split_and!; [done|done| |].
      + destruct G2 as (? & ? & ?), Q2 as (? & ? & ?). split_and!; congruence.
      + intros _. destruct (dropZ n bytes) as [|b' rest] eqn:Ed; [|by apply Q3].
        destruct fuel; injection E as <-; rewrite <- (takeZ_dropZ n bytes), Ed, app_nil_r; done. }
  destruct (curFilled _ =? segSize _); [by rewrite E3|by subst s3].
Qed.
End receive.

(** ** Feeding a sink *)

(** The state after some records, and what they were. *)
Record fed (size expected : Z) (recs : list XLogRecord) (s : Sink) : Prop := {
  fd_placed : well_placed size expected recs;
  fd_received : received (start_of recs) (stream recs) s;
  fd_params : segSize s = size /\ expectedFirst s = expected;
  fd_first : firstChecked s = negb (len (stream recs) =? 0);
  fd_next : expectedNext s = (if len (stream recs) =? 0 then 0 else start_of recs + len (stream recs)) /\
            bufferedLSN s = expectedNext s
}.

Lemma len_pos_cons {A} (l : list A) : l <> [] -> 0 < len l.
Proof. destruct l; [done|]. unfold len. simpl length. lia. Qed.

Lemma start_of_empty recs : stream recs = [] -> start_of recs = 0.
Proof.
  induction recs as [|r recs IH]; [done|]. unfold stream. simpl. intros [E1 E2]%app_nil. rewrite E1. by apply IH.
Qed.

(** A sink that has received nothing is ready for any aligned position. *)
Lemma received_nothing p q s : received p [] s -> 0 <= q < 2 ^ 64 -> q mod segSize s = 0 ->
  haveSeg s = false /\ pending s = [] /\ received q [] s.
Proof.
  intros [H1 [H2 H3] H4 H5 H6 H7] Hq Hm. apply app_nil in H6 as [H6 H8].
  assert (haveSeg s = false) as Hh.
  { unfold partial in H8. destruct (haveSeg s); [|done]. rewrite H8 in H7. by destruct (H7 eq_refl) as [[H _] _]. }
  assert (pending s = []) as Hp.
  { pose proof (jobs_bytes _ _ _ H5) as Hl. rewrite H6 in Hl. change (len []) with 0 in Hl.
    destruct (pending s) as [|j l]; [done|]. pose proof (len_pos_cons (j :: l) ltac:(done)). nia. }
  split_and!; [done|done|]. split; [done|lia|change (len []) with 0; lia| |by rewrite Hp, H8|by rewrite Hh].
  rewrite Hp. by intros i j Hj.
Qed.

(** What a record may do: it is taken when the stream stays well placed, and refused otherwise. *)
Definition taken_or_refused (size expected : Z) (recs : list XLogRecord) (s : Sink) (r : XLogRecord)
    (out : Sink * option recv_err) : Prop :=
  match out with
  | (s', None) => fed size expected (recs ++ [r]) s'
  | (s', Some e) => pending s' = pending s /\ ~ well_placed size expected (recs ++ [r]) /\
                    e <> AssertFailed /\ e <> LoopFuel /\ e <> ProcErr
  end.

Lemma empty_record size expected recs s r : Data r = [] -> fed size expected recs s ->
  fed size expected (recs ++ [r]) s.
Proof.
  intros Er [F1 F2 F3 F5 F6]. assert (stream (recs ++ [r]) = stream recs) as Es by by rewrite stream_snoc, Er, app_nil_r.
  assert (start_of (recs ++ [r]) = start_of recs) as Et.
  { rewrite start_of_snoc, Er. change (len []) with 0. cbn. destruct (Z.eqb_spec (len (stream recs)) 0) as [E|]; [|done].
    symmetry. by apply start_of_empty, len_nil. }
  split; rewrite ?Es, ?Et; try done. destruct F1 as (G1 & G2 & G3). split_and!; rewrite ?Et; try done.
  apply contiguous_snoc. by rewrite Er.
Qed.

(** The first record with bytes. *)
Lemma first_record size expected recs s r : 0 <= expected -> Data r <> [] -> stream recs = [] ->
  fed size expected recs s -> in_range r -> taken_or_refused size expected recs s r (OnRecord false s r).
Proof.
  intros He Hr Hs [F1 F2 [F3 F4] F5 [F6 F7]] [R1 R2]. pose proof (len_pos_cons _ Hr) as Hl.
  rewrite Hs in *. change (len []) with 0 in *. cbn in F5, F6.
  assert (start_of (recs ++ [r]) = WALStart r) as Et.
  { rewrite start_of_snoc, Hs. change (len []) with 0. cbn. by rewrite (proj2 (Z.eqb_neq _ _)) by lia. }
  assert (well_placed size expected (recs ++ [r]) <->
    WALStart r mod size = 0 /\ (expected <> 0 -> WALStart r <= expected)) as Hwp.
  { unfold well_placed. rewrite Et, contiguous_snoc, Hs. change (len []) with 0. rewrite Z.add_0_r.
    pose proof (contiguous_empty (WALStart r) recs Hs). tauto. }
  assert (0 < segSize s) as Hsz by apply F2.
  unfold OnRecord. rewrite (proj2 (Z.eqb_neq _ _)) by lia. unfold checkOpeningRecord. rewrite F5. cbn [expectedFirst].
  set (s1 := {| segSize := segSize s |}).
  destruct (negb (expectedFirst s =? 0) && (expectedFirst s <? WALStart r)) eqn:Eo.
  { zbool. rewrite F4 in *. split_and!; try done. rewrite Hwp. lia. }
  change (expectedNext s1) with (expectedNext s). rewrite F6. cbn [Z.eqb negb andb].
  assert (received 0 [] s1) as Hrc by (rewrite (start_of_empty _ Hs) in F2; by destruct F2; split).
  destruct (decide (WALStart r mod size = 0)) as [Hm|Hm].
  - destruct (received_nothing 0 (WALStart r) s1 Hrc) as (_ & _ & Hrc'); [lia|cbn; congruence|].
    destruct (copy_loop_ok (WALStart r) (Data r) (length (Data r)) [] s1 Hrc') as (s' & E & Q1 & (Q2 & Q3 & Q4) & Q5);
      [lia|change (len []) with 0; lia|]. change (len []) with 0 in E. rewrite Z.add_0_r in E.
    rewrite E. destruct (Q5 Hr) as [Q6 Q7]. cbn [app] in *.
    unfold taken_or_refused. split; rewrite ?stream_snoc, ?Hs, ?Et; cbn [app].
    + apply Hwp. split; [done|]. rewrite andb_false_iff, negb_false_iff, Z.eqb_eq, Z.ltb_ge, F4 in Eo. lia.
    + done.
    + rewrite Q2, Q3. done.
    + rewrite Q4. symmetry. apply negb_true_iff, Z.eqb_neq. lia.
    + rewrite (proj2 (Z.eqb_neq _ _)) by lia. rewrite Q7. done.
  - destruct (received_nothing 0 0 s1 Hrc) as (Hh & _); [lia|apply Z.mod_0_l; cbn; lia|].
    destruct (Data r) as [|b bytes] eqn:Ed; [done|]. cbn [length copy_loop]. rewrite Hh.
    cbn [startSegment curSegNum curFilled segSize s1]. rewrite Z.eqb_refl. cbn [negb].
    rewrite F3, (proj2 (Z.eqb_neq _ _) Hm). cbn [negb]. split_and!; try done. rewrite Hwp. by intros [].
Qed.

(** A record after others. *)
Lemma next_record size expected recs s r : Data r <> [] -> stream recs <> [] ->
  fed size expected recs s -> in_range r -> taken_or_refused size expected recs s r (OnRecord false s r).
Proof.
  intros Hr Hs [F1 F2 [F3 F4] F5 [F6 F7]] [R1 R2]. pose proof (len_pos_cons _ Hr) as Hl. pose proof (len_pos_cons _ Hs) as Hls.
  rewrite (proj2 (Z.eqb_neq _ _)) in F5, F6 by lia.
  assert (start_of (recs ++ [r]) = start_of recs) as Et.
  { rewrite start_of_snoc. by rewrite (proj2 (Z.eqb_neq (len (stream recs)) 0)) by lia. }
  unfold OnRecord. rewrite (proj2 (Z.eqb_neq _ _)) by lia. unfold checkOpeningRecord. rewrite F5. cbn [negb].
  rewrite F6, (proj2 (Z.eqb_neq (start_of recs + _) 0)) by (destruct F2; lia). cbn [negb andb].
  destruct F1 as (G1 & G2 & G3).
  destruct (Z.eqb_spec (WALStart r) (start_of recs + len (stream recs))) as [Ep|Ep]; cbn [negb].
  - destruct (copy_loop_ok _ (Data r) (length (Data r)) _ s F2) as (s' & E & Q1 & (Q2 & Q3 & Q4) & Q5); [lia|lia|].
    rewrite Ep, E. destruct (Q5 Hr) as [Q6 Q7]. rewrite <- stream_snoc in *.
    unfold taken_or_refused. split; rewrite ?Et.
    + split_and!; rewrite ?Et; try done. apply contiguous_snoc. done.
    + done.
    + split; congruence.
    + rewrite Q4, F5, stream_snoc, len_app, (proj2 (Z.eqb_neq (_ + _) 0)) by lia. done.
    + rewrite stream_snoc in *. rewrite len_app in *. rewrite (proj2 (Z.eqb_neq (len _ + _) 0)) by lia.
      rewrite Q7. done.
  - split_and!; try done. intros (_ & _ & H). rewrite Et, contiguous_snoc in H. by destruct H as [_ H%(fun f => f Hr)].
Qed.

Lemma OnRecord_fed size expected recs s r :
  0 <= expected -> fed size expected recs s -> in_range r ->
  taken_or_refused size expected recs s r (OnRecord false s r).
Proof.
  intros He Hf Hr. destruct (decide (Data r = [])) as [Er|Er].
  - unfold OnRecord. rewrite Er. by apply empty_record.
  - destruct (decide (stream recs = [])); [by apply first_record|by apply next_record].
Qed.

Lemma feed_fed size expected rest : forall recs s,
  0 <= expected -> fed size expected recs s -> Forall in_range rest ->
  let '(s', e) := feed s rest in
  exists ok left, rest = ok ++ left /\
    (exists s2, fed size expected (recs ++ ok) s2 /\ pending s' = pending s2 /\ (e = None -> s' = s2)) /\
    match e, left with
    | None, [] => True
    | Some e, r :: _ => ~ well_placed size expected (recs ++ ok ++ [r]) /\
                        e <> AssertFailed /\ e <> LoopFuel /\ e <> ProcErr
    | _, _ => False
    end.
Proof.
  induction rest as [|r rest IH]; intros recs s He Hf Hr; cbn [feed].
  { exists [], []. split; [done|]. split; [|done]. exists s. by rewrite app_nil_r. }
  apply Forall_cons in Hr as [Hr Hrest]. pose proof (OnRecord_fed size expected recs s r He Hf Hr) as H.
  destruct (OnRecord false s r) as [s1 [e|]].
  - destruct H as (H1 & H2 & H3). exists [], (r :: rest). split; [done|]. split; [|by split]. exists s. by rewrite app_nil_r.
  - specialize (IH (recs ++ [r]) s1 He H Hrest). destruct (feed s1 rest) as [s' e].
    destruct IH as (ok & left & -> & Hs & Hm). exists (r :: ok), left. rewrite <- app_assoc in Hs. cbn [app] in *.
    split; [done|]. split; [done|]. destruct e, left; try done. by rewrite <- app_assoc in Hm.
Qed.

Lemma NewSink_fed o s : 0 <= so_ExpectedFirstLSN o -> NewSink o = Some s ->
  fed (NormSegmentSize (so_SegmentSize o)) (so_ExpectedFirstLSN o) [] s.
Proof.
  intros He. unfold NewSink. destruct (ValidSegmentSize _) eqn:Ev; cbn [negb]; [|done]. intros [= <-].
  pose proof (NormSegmentSize_pos (so_SegmentSize o)).
  by split.
Qed.

(** C12: a new sink fed a stream of records queues, as consecutive full segments and with nothing
    lost, added or moved, exactly the bytes of its longest well-placed prefix (gapless, from a
    segment boundary at or before the position it asked for), keeping back less than a segment;
    it stops with an error at the first record that breaks the stream, never on its own
    assertions. *)
Theorem receiver_exact (o : SinkOptions) (s : Sink) (recs : list XLogRecord) :
  NewSink o = Some s -> 0 <= so_ExpectedFirstLSN o -> Forall in_range recs ->
  let placed := well_placed (segSize s) (so_ExpectedFirstLSN o) in
  let '(s', e) := feed s recs in
  exists ok left tail, recs = ok ++ left /\ placed ok /\
    concat (map sj_buf (pending s')) ++ tail = stream ok /\ len tail < segSize s /\
    jobs_from (segSize s) (start_of ok / segSize s) (pending s') /\
    match e, left with
    | None, [] => stream ok <> [] -> bufferedLSN s' = start_of ok + len (stream ok)
    | Some e, r :: _ => ~ placed (ok ++ [r]) /\ e <> AssertFailed /\ e <> LoopFuel
    | _, _ => False
    end.
Proof.
  intros Hn He Hr placed. pose proof (NewSink_fed o s He Hn) as Hf. pose proof (proj1 (fd_params _ _ _ _ Hf)) as Hsz.
  pose proof (feed_fed _ _ recs [] s He Hf Hr) as H. destruct (feed s recs) as [s' e].
  destruct H as (ok & left & -> & (s2 & [F1 F2 [F3 F4] F5 F6] & Hp & Heq) & Hm). rewrite <- Hsz in *. cbn [app] in *.
  destruct F2 as [G1 G2 G3 G4 G5 G6]. rewrite F3 in *. exists ok, left, (partial s2).
  split_and!; [done|done|by rewrite Hp| |by rewrite Hp|].
  - unfold partial. destruct (haveSeg s2); [|done]. by destruct (G6 eq_refl) as [[_ ?] _].
  - destruct e, left; [done| |intros Hs|done].
    + tauto.
    + rewrite (Heq eq_refl), (proj2 F6), (proj1 F6), (proj2 (Z.eqb_neq _ _)); [done|]. apply len_pos_cons in Hs. lia.
Qed.

(** ** Small runs *)

Definition rec_at (p : Z) (bytes : list byte) : XLogRecord := {| WALStart := p; Data := bytes |}.

(** With segments of four bytes, to see several of them. *)
Definition tiny_sink (expected : Z) : Sink :=
  {| segSize := 4; curBuf := []; curFilled := 0; curSegNum := 0; curStartLSN := 0; haveSeg := false;
     expectedNext := 0; expectedFirst := expected; firstChecked := false; bufferedLSN := 0; pending := [] |}.

Example feed_tiny :
  let '(s, e) := feed (tiny_sink 8) [rec_at 8 [x01; x02; x03]; rec_at 11 []; rec_at 11 [x04; x05; x06; x07; x08; x09]] in
  e = None /\ map sj_segNum (pending s) = [2; 3] /\ map sj_startLSN (pending s) = [8; 12] /\
  map sj_buf (pending s) = [[x01; x02; x03; x04]; [x05; x06; x07; x08]] /\ curBuf s = [x09] /\ bufferedLSN s = 17.
Proof. vm_compute. done. Qed.

Example feed_tiny_late : (feed (tiny_sink 4) [rec_at 8 [x01]]).2 = Some (OpeningGap 4 8).
Proof. reflexivity. Qed.

Example feed_tiny_unaligned : (feed (tiny_sink 0) [rec_at 9 [x01]]).2 = Some (OutOfOrder 0 1).
Proof. reflexivity. Qed.

Definition demo_sink_options : SinkOptions := {| so_SegmentSize := MinSegmentSize; so_ExpectedFirstLSN := 3 * MinSegmentSize |}.
Definition demo_records : list XLogRecord :=
  [rec_at (3 * MinSegmentSize) [x01; x02]; rec_at (3 * MinSegmentSize + 2) [x03]; rec_at (3 * MinSegmentSize + 9) [x04]].

Lemma receiver_exact_witness : exists s s' ok left,
  NewSink demo_sink_options = Some s /\ feed s demo_records = (s', Some (StreamGap (3 * MinSegmentSize + 3) (3 * MinSegmentSize + 9))) /\
  demo_records = ok ++ left /\ well_placed (segSize s) (3 * MinSegmentSize) ok.
Proof.
  destruct (NewSink demo_sink_options) as [s|] eqn:Es; [|discriminate].
  assert (Forall in_range demo_records) as Hr by (repeat constructor; vm_compute; discriminate).
  pose proof (receiver_exact demo_sink_options s demo_records Es ltac:(vm_compute; discriminate) Hr) as H.
  destruct (feed s demo_records) as [s' e] eqn:Ef.
  assert (e = Some (StreamGap (3 * MinSegmentSize + 3) (3 * MinSegmentSize + 9))) as ->.
  { change e with (s', e).2. rewrite <- Ef. injection Es as <-. vm_compute. reflexivity. }
  destruct H as (ok & left & tail & Hs & Hp & _). exists s, s', ok, left. split; [done|]. split; [done|]. split; [done|exact Hp].
Defined.
