(* ===== verification/WalSink.v ===== *)
(** The archiving half of the WAL sink (internal/pg/walsink/walsink.go) and the push of a segment
    file (push.go).

    The processor takes full segments from the queue, cuts them into chunks, stores the chunks
    and commits one manifest per segment, a batch at a time; the position it reports moves only
    past committed segments.  Chunks of one segment are stored one after another (the code stores
    up to eight at once); the durability barrier, the fault hooks and cancelled contexts are left
    out.  What the code draws at random while it archives segment [n] is [draw n]. *)
From S2P Require Import Prelude GoString Storage Concur Worm Commit Lsn Timeline Hash Chunker WalSegment.
From S2P Require Import GcFence Envelope Cas FencedCommit WalReceive.
From Stdlib Require Import Strings.Byte.

Local Open Scope string_scope.
Local Open Scope list_scope.
Local Open Scope Z_scope.
#[local] Arguments String.append : simpl nomatch.

(** A segment whose chunks are stored. *)
Record chunkedSeg := { cg_segNum : Z; cg_startLSN : Z; cg_refs : list ChunkRef }.

Inductive sink_err :=
| SinkChunker
| SinkChunkerPanic
| SinkPut (e : cas_err)
| SinkFence (e : fence_err)
| SinkSwept (h : Hash)
| SinkCommit (e : seg_err)
| SinkConfirm (e : fence_err) (removal : option serr).

Record Options := {
  o_Deployment : string;
  o_Timeline : Z;
  o_SystemIdentifier : string;
  o_SegmentSize : Z;
  o_WORM : option WORMPolicy;
  o_Encryption : option EncryptionInfo
}.

(** The random parts of one segment's names, and the nonce of each of its chunks. *)
Record draws := { dr_staging : string; dr_fence : string; dr_confirm : string; dr_nonce : Z -> string }.

Section sink.
Context `{CS : Codec string SegmentManifest} `{CR : Codec string gcRunRecord} `{CP : Codec string gcPin}.
Context `{L : LSN}.
Context (sha256 : string -> Hash) (cfg : config) (gear : byte -> Z) (ch : Chunker) (caps : Capabilities)
  (draw : Z -> draws).

(** ** Chunks of a segment *)

Definition is_chunk (i : item) : bool := match i with IChunk _ _ => true | IErr _ => false end.

(** Storing the chunks one by one, up to the first failure. *)
Fixpoint put_items (nonce : Z -> string) (items : list item) (c : CAS)
    : prog string (result sink_err (list ChunkRef) * CAS) :=
  match items with
  | [] => Ret (Ok [], c)
  | IErr _ :: _ => Ret (Err SinkChunker, c)
  | IChunk data off :: items =>
      let* r := PutChunk sha256 cfg (nonce off) (String.string_of_list_byte data) c in
      match r with
      | (Err e, c) => Ret (Err (SinkPut e), c)
      | (Ok info, c) =>
          let* r := put_items nonce items c in
          match r with
          | (Err e, c) => Ret (Err e, c)
          | (Ok refs, c) =>
              Ret (Ok ({| ref_Hash := ci_Hash info; ref_Offset := off; ref_Len := ci_Size info |} :: refs), c)
          end
      end
  end.

Definition chunkSegment (job : segJob) (c : CAS) : prog string (result sink_err chunkedSeg * CAS) :=
  match chunks_of gear ch (takeZ (sj_n job) (sj_buf job)) with
  | Returned items =>
      if negb (forallb is_chunk items) then Ret (Err SinkChunker, c)
      else
        let* r := put_items (dr_nonce (draw (sj_segNum job))) items c in
        match r with
        | (Err e, c) => Ret (Err e, c)
        | (Ok refs, c) =>
            Ret (Ok {| cg_segNum := sj_segNum job; cg_startLSN := sj_startLSN job; cg_refs := refs |}, c)
        end
  | _ => Ret (Err SinkChunkerPanic, c)
  end.

(** ** Committing a segment's manifest *)

Definition ref_hashes (refs : list ChunkRef) : list Hash := map ref_Hash refs.

(** The adopted chunks of a manifest that are gone are forgotten, and refuse the commit. *)
Fixpoint verifyAdoptedSegmentRefs (refs : list ChunkRef) (c : CAS) : prog string (option Hash * CAS) :=
  match refs with
  | [] => Ret (None, c)
  | ref :: refs =>
      if negb (WasAdopted c (ref_Hash ref)) then verifyAdoptedSegmentRefs refs c
      else
        let* r := sStat (ChunkKey (ref_Hash ref)) in
        match r with
        | Err ErrNotFound => Ret (Some (ref_Hash ref), ForgetChunk cfg [ref_Hash ref] c)
        | _ => verifyAdoptedSegmentRefs refs c
        end
  end.

Definition segment_manifest (o : Options) (created : time) (segNum startLSN : Z) (name : string)
    (timeline : Z) (refs : list ChunkRef) : SegmentManifest :=
  {| sm_Schema := seg_schema; sm_Deployment := o_Deployment o; sm_SystemIdentifier := o_SystemIdentifier o;
     sm_Timeline := timeline; sm_SegmentNumber := segNum; sm_SegmentName := name;
     sm_StartLSN := LSN_String startLSN; sm_EndLSN := LSN_String (u64 (startLSN + o_SegmentSize o));
     sm_SegmentSize := o_SegmentSize o; sm_Chunks := refs; sm_CreatedAt := created;
     sm_Encryption := o_Encryption o |}.

(** The commit is [commitManifestStandalone]'s, inside the fence. *)
Definition commitManifest (o : Options) (d : draws) (m : SegmentManifest) (c : CAS)
    : prog string (option sink_err * CAS) :=
  let adopted := filter (fun h => WasAdopted c h = true) (ref_hashes (sm_Chunks m)) in
  let* f := BeginCommitFence (dr_fence d) ("wal " +:+ sm_Deployment m +:+ "/" +:+ sm_SegmentName m) adopted in
  match f with
  | Err e => Ret (Some (SinkFence e), c)
  | Ok f =>
      let* v := verifyAdoptedSegmentRefs (sm_Chunks m) c in
      match v with
      | (Some h, c) => Ret (Some (SinkSwept h), c)
      | (None, c) =>
          let* r := commitManifestStandalone caps (o_WORM o) (dr_staging d) m in
          match r with
          | Err e => Ret (Some (SinkCommit e), c)
          | Ok _ =>
              let* e := Confirm (dr_confirm d) f in
              match e with
              | None => Ret (None, c)
              | Some e =>
                  let c := ForgetChunk cfg adopted c in
                  let* r := sDelete (manifest_key m) in
                  Ret (Some (SinkConfirm e (match r with
                                            | Ok _ | Err ErrNotFound => None
                                            | Err derr => Some derr
                                            end)), c)
              end
          end
      end
  end.

Definition releaseAdoptedRefs (committed : chunkedSeg) (rest : list chunkedSeg) (c : CAS) : CAS :=
  let stillNeeded := concat (map (fun cs => ref_hashes (cg_refs cs)) rest) in
  fold_left (fun c h => if bool_decide (h ∈ stillNeeded) then c else ForgetAdopted [h] c)
    (ref_hashes (cg_refs committed)) c.

(** The batch, in order, up to the first failure; [synced] is [syncedLSN]. *)
Fixpoint flushBatch (o : Options) (batch : list chunkedSeg) (c : CAS) (synced : Z)
    : prog string (option sink_err * CAS * Z) :=
  match batch with
  | [] => Ret (None, c, synced)
  | cs :: batch =>
      let endLSN := u64 (cg_startLSN cs + o_SegmentSize o) in
      let* t := now in
      let m := segment_manifest o t (cg_segNum cs) (cg_startLSN cs)
                 (SegmentFileName (o_Timeline o) (cg_segNum cs) (o_SegmentSize o)) (o_Timeline o) (cg_refs cs) in
      let* r := commitManifest o (draw (cg_segNum cs)) m c in
      match r with
      | (Some e, c) => Ret (Some e, c, synced)
      | (None, c) => flushBatch o batch (releaseAdoptedRefs cs batch c) endLSN
      end
  end.

(** ** The processor *)

Record processor := {
  pr_cas : CAS;
  pr_batch : list chunkedSeg;
  pr_synced : Z;
  pr_err : option sink_err
}.

(** What the queue holds: a segment, with whether the queue is empty once it is chunked, or a
    request to flush. *)
Inductive sink_job :=
| Segment (job : segJob) (idle : bool)
| FlushRequest.

Definition flush (o : Options) (st : processor) : prog string processor :=
  let* r := flushBatch o (pr_batch st) (pr_cas st) (pr_synced st) in
  let '(e, c, synced) := r in
  Ret {| pr_cas := c; pr_batch := []; pr_synced := synced; pr_err := e |}.

(** One round of the processor's loop; after a failure the queue is only drained. *)
Definition process (o : Options) (st : processor) (job : sink_job) : prog string processor :=
  match pr_err st with
  | Some _ => Ret st
  | None =>
      match job with
      | FlushRequest => flush o st
      | Segment job idle =>
          let* r := chunkSegment job (pr_cas st) in
          match r with
          | (Err e, c) => Ret {| pr_cas := c; pr_batch := pr_batch st; pr_synced := pr_synced st; pr_err := Some e |}
          | (Ok cs, c) =>
              let st := {| pr_cas := c; pr_batch := pr_batch st ++ [cs]; pr_synced := pr_synced st; pr_err := None |} in
              if (batchCap <=? len (pr_batch st)) || idle then flush o st else Ret st
          end
      end
  end.

Fixpoint process_all (o : Options) (st : processor) (jobs : list sink_job) : prog string processor :=
  match jobs with
  | [] => Ret st
  | job :: jobs => let* st := process o st job in process_all o st jobs
  end.

(** [run]: the queue until it is closed, and what is left of the batch. *)
Definition run_processor (o : Options) (st : processor) (jobs : list sink_job) : prog string processor :=
  let* st := process_all o st jobs in
  match pr_err st with Some _ => Ret st | None => flush o st end.

Definition idle_processor (c : CAS) : processor :=
  {| pr_cas := c; pr_batch := []; pr_synced := 0; pr_err := None |}.

(** ** Pushing a segment file *)

Inductive push_err :=
| PushEmptyDeployment
| PushEmptySystemIdentifier
| PushSegmentSize
| PushName
| PushFileSize
| PushSink (e : sink_err).

(** [base] is the file's base name, [contents] its bytes. *)
Definition PushSegmentFile (o : Options) (d : draws) (base contents : string) (c : CAS)
    : prog string (result push_err SegmentManifest * CAS) :=
  if String.eqb (o_Deployment o) "" then Ret (Err PushEmptyDeployment, c)
  else if String.eqb (o_SystemIdentifier o) "" then Ret (Err PushEmptySystemIdentifier, c)
  else
    let size := NormSegmentSize (o_SegmentSize o) in
    if negb (ValidSegmentSize size) then Ret (Err PushSegmentSize, c)
    else
      match ParseSegmentName base size with
      | None => Ret (Err PushName, c)
      | Some (tli, segNum) =>
          match readSegmentFile contents size with
          | None => Ret (Err PushFileSize, c)
          | Some body =>
              match chunks_of gear ch (String.list_byte_of_string body) with
              | Returned items =>
                  let* r := put_items (dr_nonce d) items c in
                  match r with
                  | (Err e, c) => Ret (Err (PushSink e), c)
                  | (Ok refs, c) =>
                      let o := {| o_Deployment := o_Deployment o; o_Timeline := tli;
                                  o_SystemIdentifier := o_SystemIdentifier o; o_SegmentSize := size;
                                  o_WORM := o_WORM o; o_Encryption := o_Encryption o |} in
                      let* t := now in
                      let m := segment_manifest o t segNum (u64 (segNum * size)) base tli refs in
                      let* v := verifyAdoptedSegmentRefs (sm_Chunks m) c in
                      match v with
                      | (Some h, c) => Ret (Err (PushSink (SinkSwept h)), c)
                      | (None, c) =>
                          let* r := commitManifestStandalone caps (o_WORM o) (dr_staging d) m in
                          match r with
                          | Err e => Ret (Err (PushSink (SinkCommit e)), c)
                          | Ok _ => Ret (Ok m, c)
                          end
                      end
                  end
              | _ => Ret (Err (PushSink SinkChunkerPanic), c)
              end
          end
      end.
End sink.

(** ** What is archived *)

(** The references of some bytes cut into chunks, from an offset on. *)
Fixpoint describes (sha256 : string -> Hash) (off : Z) (refs : list ChunkRef) (bytes : list byte) : Prop :=
  match refs with
  | [] => bytes = []
  | r :: refs => exists d rest, bytes = d ++ rest /\ ref_Hash r = sha256 (String.string_of_list_byte d) /\
      ref_Offset r = off /\ ref_Len r = len d /\ describes sha256 (off + len d) refs rest
  end.

(** The repository holds a manifest of this cluster at a key, and every chunk it lists, and the
    chunks are those of the given bytes. *)
Definition archived_at (sha256 : string -> Hash) (key sysid : string) (bytes : list byte)
    `{Codec string SegmentManifest} (s : gmap string (object string)) : Prop :=
  exists o m, s !! key = Some o /\ ParseSegmentManifest (ob_body o) = Some m /\
    sm_SystemIdentifier m = sysid /\ describes sha256 0 (sm_Chunks m) bytes /\
    Forall (stored s) (ref_hashes (sm_Chunks m)).

Lemma CommitExclusive_touches (caps : Capabilities) suffix key (body : string) size opts :
  touches (fun k => k = key \/ k = staging_key key suffix) (CommitExclusive caps suffix key body size opts).
Proof.
  assert (forall l, Forall (fun k => k = key \/ k = staging_key key suffix) l <->
    (forall k, k ∈ l -> k = key \/ k = staging_key key suffix)) as HF by (intros l; apply Forall_forall).
  unfold CommitExclusive. destruct (ConditionalPut caps); cbn; (split; [apply HF; set_solver|]);
    (intros [x|e]; [|done]); [done|]. cbn. split; [apply HF; set_solver|]. intros [y|e].
  - unfold lock_committed. destruct (_ && _); [|done]. cbn. split; [apply HF; set_solver|].
    intros [z|e]; [done|]. cbn. split; [apply HF; set_solver|by intros [z|e']].
  - cbn. split; [apply HF; set_solver|done].
Qed.

Section facts.
Context `{CS : Codec string SegmentManifest} `{CR : Codec string gcRunRecord} `{CP : Codec string gcPin}.
Context `{L : LSN}.
Context (sha256 : string -> Hash) (cfg : config) (gear : byte -> Z) (ch : Chunker) (caps : Capabilities)
  (draw : Z -> draws).
Hypothesis deadline_reads : reads_only (retainUntil (cas_retention cfg)).
Hypothesis chunker_ok : valid ch /\ 2 <= cmax ch.
Local Abbreviation store := (gmap string (object string)).

Lemma length_string_of_bytes d : Z.of_nat (String.length (String.string_of_list_byte d)) = len d.
Proof.
  unfold len, String.string_of_list_byte. f_equal. induction d as [|b d IH]; [done|]. simpl in *. by rewrite IH.
Qed.

Lemma put_items_wp D nonce items : forall off bytes c s,
  cuts ch None off bytes items -> cas_ok cfg c s ->
  wp D (put_items sha256 cfg nonce items c) (fun r s' => stays s s' /\ cas_ok cfg r.2 s' /\
    match r.1 with
    | Ok refs => describes sha256 off refs bytes /\ Forall (stored s') (ref_hashes refs)
    | Err _ => True
    end) s.
Proof.
  induction items as [|it items IH]; intros off bytes c s Hcut Hc; cbn [put_items].
  - inversion Hcut. split_and!; try done. apply stays_refl.
  - inversion Hcut as [| |? d rest ? Hd Hm Hrest]; [done|subst]. wp_step.
    eapply wp_mono; [|by apply PutChunk_wp]. intros [[info|e] c1] s1 [[Hst Hok] Hinfo]; cbn [fst snd] in *; [|done].
    destruct Hinfo as (Hh & Hl & Hs & _). wp_step. eapply wp_mono; [|by eapply IH].
    intros [[refs|e] c2] s2 (Hst2 & Hok2 & Hrefs); cbn [fst snd wp] in *;
      (split; [by eapply stays_trans|]; split; [done|]); [|done]. destruct Hrefs as [Hrefs Hall]. split.
    + exists d, rest. rewrite Hl, length_string_of_bytes. done.
    + constructor; [cbn; rewrite Hh; by eapply stays_stored|done].
Qed.

Lemma chunks_of_cuts bytes : exists items, chunks_of gear ch bytes = Returned items /\ cuts ch None 0 bytes items.
Proof.
  destruct chunker_ok as [Hv Hm]. eexists. split; [by apply chunks_of_items|].
  apply items_from_cuts; [done|]. simpl. lia.
Qed.

(** What a chunked segment is to its job. *)
Definition chunked (s : store) (cs : chunkedSeg) (j : segJob) : Prop :=
  cg_segNum cs = sj_segNum j /\ cg_startLSN cs = sj_startLSN j /\
  describes sha256 0 (cg_refs cs) (sj_buf j) /\ Forall (stored s) (ref_hashes (cg_refs cs)).

Lemma chunkSegment_wp D j c s : sj_n j = len (sj_buf j) -> cas_ok cfg c s ->
  wp D (chunkSegment sha256 cfg gear ch draw j c) (fun r s' => stays s s' /\ cas_ok cfg r.2 s' /\
    match r.1 with Ok cs => chunked s' cs j | Err _ => True end) s.
Proof.
  intros Hn Hc. unfold chunkSegment. rewrite Hn, takeZ_all by lia.
  destruct (chunks_of_cuts (sj_buf j)) as (items & -> & Hcut).
  destruct (negb _); [split_and!; [apply stays_refl|done|done]|]. wp_step.
  eapply wp_mono; [|by eapply put_items_wp]. intros [[refs|e] c1] s1 (H1 & H2 & H3); cbn [fst snd wp] in *; [|done].
  split_and!; [done|done|]. split_and!; try done; apply H3.
Qed.

Lemma verifyRefs_wp D refs c s0 s : cas_ok cfg c s0 ->
  wp D (verifyAdoptedSegmentRefs cfg refs c) (fun r s' => s' = s /\ cas_ok cfg r.2 s0) s.
Proof.
  intros Hc. induction refs as [|r refs IH]; cbn [verifyAdoptedSegmentRefs]; [done|].
  destruct (negb _); [done|]. wp_step.
  - by intros o Ho.
  - intros _. split; [done|]. by apply ForgetChunk_ok.
  - by intros d e Hd Hf.
Qed.

Lemma cas_ok_chunks c s s' : (forall h, stored s h -> stored s' h) -> cas_ok cfg c s -> cas_ok cfg c s'.
Proof. intros H [H1 H2]. split; [|done]. intros h e He. by eapply H, H1. Qed.

Lemma releaseAdoptedRefs_ok cs rest c s : cas_ok cfg c s -> cas_ok cfg (releaseAdoptedRefs cs rest c) s.
Proof.
  unfold releaseAdoptedRefs. generalize (ref_hashes (cg_refs cs)). intros hs. revert c.
  induction hs as [|h hs IH]; intros c Hc; [done|]. cbn [fold_left]. apply IH. case_bool_decide; [done|].
  by apply ForgetAdopted_ok.
Qed.

(** ** What a commit writes *)

Definition commit_writes (d : draws) (m : SegmentManifest) (k : string) : Prop :=
  k = manifest_key m \/ k = staging_key (manifest_key m) (dr_staging d) \/ is_pin k.

Lemma manifest_key_not_pin m : ~ is_pin (manifest_key m).
Proof. done. Qed.

Lemma commit_writes_no_chunk d m h : ~ commit_writes d m (ChunkKey h).
Proof. by intros [H|[H|H]]. Qed.

Lemma commitStandalone_touches worm suffix m :
  touches (fun k => k = manifest_key m \/ k = staging_key (manifest_key m) suffix)
    (commitManifestStandalone caps worm suffix m).
Proof.
  unfold commitManifestStandalone. apply touches_bind.
  - unfold put_options. by destruct (negb _); cbn.
  - intros opts. apply touches_bind; [apply CommitExclusive_touches|]. intros [x|e]; [done|].
    destruct (commit_is e _); [|done]. unfold verifyExistingManifest. cbn. split; [done|]. intros [b|e']; [|done].
    destruct (ReadAllLimited _ _); [|done]. destruct (ParseSegmentManifest _); [|done]. by repeat case_match.
Qed.

Lemma verifyRefs_touches K refs c : touches K (verifyAdoptedSegmentRefs cfg refs c).
Proof.
  induction refs as [|r refs IH]; cbn [verifyAdoptedSegmentRefs]; [done|]. destruct (negb _); [done|].
  cbn. split; [done|]. by intros [i|[]].
Qed.

Lemma commitManifest_touches o d m c : touches (commit_writes d m) (commitManifest cfg caps o d m c).
Proof.
  unfold commitManifest. apply touches_bind.
  { eapply touches_mono; [|apply Begin_touches]. intros k Hk. by right; right. }
  intros [f|e]; [|done]. apply touches_bind; [apply verifyRefs_touches|]. intros [[h|] c1]; [done|].
  apply touches_bind. { eapply touches_mono; [|apply commitStandalone_touches]. intros k [->| ->]; [by left|by right; left]. }
  intros [x|e]; [|done]. apply touches_bind.
  { eapply touches_mono; [|apply Confirm_touches]. intros k Hk. by right; right. }
  intros [e|]; [|done]. cbn. split; [repeat constructor|by intros [y|e']].
Qed.

Lemma commitManifest_post D o d m c s0 s : sm_Schema m = seg_schema -> cas_ok cfg c s0 ->
  wp D (commitManifest cfg caps o d m c) (fun r s' => cas_ok cfg r.2 s0 /\
    (r.1 = None -> exists ob, s' !! manifest_key m = Some ob /\ archived_as m ob)) s.
Proof.
  intros Hm Hc. unfold commitManifest. wp_step.
  eapply wp_mono; [|apply touches_wp, Begin_touches]. intros [f|e] s1 _; [|done].
  wp_step. eapply wp_mono; [|by eapply verifyRefs_wp]. intros [[h|] c1] s2 [_ Hc1]; [done|].
  wp_step. eapply wp_mono; [|by apply commitManifestStandalone_wp]. intros [[]|e] s3 (_ & _ & H3); [|done].
  destruct (H3 eq_refl) as (ob & Hob & Ha).
  wp_step. eapply wp_mono; [|apply touches_wp, Confirm_touches]. intros [e|] s4 Hf; cbn in Hc1.
  - wp_step; intros; cbn [wp fst snd]; (split; [by apply ForgetChunk_ok|done]).
  - split; [done|]. intros _. exists ob. split; [|done]. rewrite Hf; [done|]. apply manifest_key_not_pin.
Qed.

Lemma commitManifest_wp D o d m c s : sm_Schema m = seg_schema -> cas_ok cfg c s ->
  wp D (commitManifest cfg caps o d m c) (fun r s' => frame (commit_writes d m) s s' /\ cas_ok cfg r.2 s' /\
    (r.1 = None -> exists ob, s' !! manifest_key m = Some ob /\ archived_as m ob)) s.
Proof.
  intros Hm Hc. eapply wp_mono; [|apply wp_and; [apply touches_wp, commitManifest_touches|by apply (commitManifest_post D o d m c s)]].
  intros r s' (Hf & Hc' & Hn). split_and!; [done| |done]. eapply cas_ok_chunks; [|done].
  intros h [ob Hob]. exists ob. rewrite Hf; [done|apply commit_writes_no_chunk].
Qed.

(** ** Segment keys *)

Lemma SegmentFileName_parts t n size :
  String.length (SegmentFileName t n size) = 24%nat /\
  hexParse 0 (SegmentFileName t n size) <> None /\
  parse_hex8 (stake 8 (sdrop 8 (SegmentFileName t n size))) = parse_hex8 (hex8 (u32 (n / SegmentsPerLog size))) /\
  parse_hex8 (sdrop 16 (SegmentFileName t n size)) = parse_hex8 (hex8 (u32 (n mod SegmentsPerLog size))).
Proof.
  unfold SegmentFileName. split_and!.
  - by rewrite !string_app_length, !hex8_length.
  - unfold hex8. do 2 rewrite hexParse_app, hexParse_hexFixed. by rewrite hexParse_hexFixed.
  - by rewrite sdrop_hex8, stake_hex8.
  - change (sdrop 16 ?x) with (sdrop (8 + 8) x). by rewrite <- (sdrop_sdrop 8 8), !sdrop_hex8.
Qed.

Lemma SegmentFileName_inj t n n' size : size <= max_int64 ->
  0 <= n < 2 ^ 32 * SegmentsPerLog size -> 0 <= n' < 2 ^ 32 * SegmentsPerLog size ->
  SegmentFileName t n size = SegmentFileName t n' size -> n = n'.
Proof.
  intros Hs Hn Hn' E. pose proof (SegmentsPerLog_range size Hs) as Hp.
  destruct (split_segment n _ Hp Hn) as (H1 & H2 & H3 & _). destruct (split_segment n' _ Hp Hn') as (G1 & G2 & G3 & _).
  destruct (SegmentFileName_parts t n size) as (_ & _ & A & B).
  destruct (SegmentFileName_parts t n' size) as (_ & _ & A' & B'). rewrite E in A, B. rewrite A in A'. rewrite B in B'.
  rewrite !u32_id in A', B' by lia. rewrite !parse_hex8_hex8 in A' by lia. rewrite !parse_hex8_hex8 in B' by lia.
  injection A' as A'. injection B' as B'. rewrite <- H3, <- G3. congruence.
Qed.

Definition seg_key (o : Options) (n : Z) : string :=
  SegmentPath (o_Deployment o) (o_Timeline o) (SegmentFileName (o_Timeline o) n (o_SegmentSize o)).

Definition archived (o : Options) (s : store) (j : segJob) : Prop :=
  archived_at sha256 (seg_key o (sj_segNum j)) (o_SystemIdentifier o) (sj_buf j) s.

Lemma TrimSuffix_segment t n size : TrimSuffix (SegmentFileName t n size) ".json" = SegmentFileName t n size.
Proof.
  unfold TrimSuffix. destruct (HasSuffix _ _) eqn:E; [|done]. apply HasSuffix_inv in E as [x Hx].
  destruct (SegmentFileName_parts t n size) as (_ & Hp & _). exfalso. apply Hp. rewrite Hx, hexParse_app.
  by destruct (hexParse 0 x).
Qed.

Lemma seg_key_shape o : exists p, forall n,
  seg_key o n = p +:+ SegmentFileName (o_Timeline o) n (o_SegmentSize o) +:+ ".json".
Proof.
  exists ("wal/" +:+ o_Deployment o +:+ "/" +:+ hex8 (o_Timeline o) +:+ "/"). intros n'.
  unfold seg_key, SegmentPath. rewrite TrimSuffix_segment. by rewrite !string_app_assoc.
Qed.

Lemma seg_key_length o n n' : String.length (seg_key o n) = String.length (seg_key o n').
Proof.
  destruct (seg_key_shape o) as [p Hp]. rewrite !Hp, !string_app_length.
  by rewrite !(proj1 (SegmentFileName_parts _ _ _)).
Qed.

Definition seg_ok (o : Options) (n : Z) : Prop := 0 <= n < 2 ^ 32 * SegmentsPerLog (o_SegmentSize o).

Lemma seg_key_inj o n n' : o_SegmentSize o <= max_int64 -> seg_ok o n -> seg_ok o n' ->
  seg_key o n = seg_key o n' -> n = n'.
Proof.
  intros Hs Hn Hn'. destruct (seg_key_shape o) as [p Hp]. rewrite !Hp. intros E.
  apply (f_equal (sdrop (String.length p))) in E. rewrite !sdrop_app in E. apply (f_equal (stake 24)) in E.
  rewrite <- (proj1 (SegmentFileName_parts (o_Timeline o) n (o_SegmentSize o))) in E at 1.
  rewrite <- (proj1 (SegmentFileName_parts (o_Timeline o) n' (o_SegmentSize o))) in E.
  rewrite !stake_app in E. by apply SegmentFileName_inj in E.
Qed.

Lemma seg_key_not_written o n n' d m : o_SegmentSize o <= max_int64 -> seg_ok o n -> seg_ok o n' ->
  manifest_key m = seg_key o n -> n <> n' -> ~ commit_writes d m (seg_key o n').
Proof.
  intros Hs Hn Hn' Hm Hne [H|[H|H]].
  - rewrite Hm in H. by apply Hne, (seg_key_inj o).
  - rewrite Hm in H. apply (f_equal String.length) in H. unfold staging_key in H.
    rewrite string_app_length, (seg_key_length o n' n) in H. cbn in H. lia.
  - unfold is_pin, seg_key, SegmentPath in H. done.
Qed.

Lemma archived_frame o s s' j n d m : o_SegmentSize o <= max_int64 -> seg_ok o n -> seg_ok o (sj_segNum j) ->
  manifest_key m = seg_key o n -> n <> sj_segNum j -> frame (commit_writes d m) s s' ->
  archived o s j -> archived o s' j.
Proof.
  intros Hs Hn Hn' Hm Hne Hf (ob & m' & H1 & H2 & H3 & H4 & H5). exists ob, m'. split_and!; try done.
  - rewrite Hf; [done|]. by apply (seg_key_not_written o n).
  - eapply Forall_impl; [exact H5|]. intros h [x Hx]. exists x. rewrite Hf; [done|apply commit_writes_no_chunk].
Qed.

Lemma archived_stays o s s' j : stays s s' -> archived o s j -> archived o s' j.
Proof.
  intros Hst (ob & m' & H1 & H2 & H3 & H4 & H5). destruct (Hst _ _ H1) as (ob' & H1' & E).
  exists ob', m'. rewrite E. split_and!; try done. eapply Forall_impl; [exact H5|]. intros h. by apply stays_stored.
Qed.

Lemma chunked_mono s s' cs j : (forall h, stored s h -> stored s' h) -> chunked s cs j -> chunked s' cs j.
Proof. intros H (H1 & H2 & H3 & H4). split_and!; try done. by eapply Forall_impl; [exact H4|]. Qed.

Lemma archived_others o s s' done j pend d m : o_SegmentSize o <= max_int64 ->
  NoDup (map sj_segNum (done ++ j :: pend)) -> Forall (fun j => seg_ok o (sj_segNum j)) (done ++ j :: pend) ->
  manifest_key m = seg_key o (sj_segNum j) -> frame (commit_writes d m) s s' ->
  Forall (archived o s) done -> Forall (archived o s') done.
Proof.
  intros Hs Hnd Hok Hkey Hf Hd. rewrite Forall_app, Forall_cons in Hok. destruct Hok as (Hok & Hj & _).
  apply Forall_forall. intros j' Hin. eapply archived_frame; [done|exact Hj| |exact Hkey| |exact Hf|].
  - by eapply Forall_forall in Hin; [|exact Hok].
  - rewrite map_app, NoDup_app in Hnd. intros E. destruct Hnd as (_ & Hnd & _).
    apply (Hnd (sj_segNum j')); [by apply list_elem_of_fmap_2|]. rewrite <- E. by left.
  - by eapply Forall_forall in Hin; [|exact Hd].
Qed.

(** ** A batch *)

(** Where the sink is when the segments [done] are archived. *)
Definition end_of (o : Options) (done : list segJob) : Z :=
  match last done with Some j => u64 (sj_startLSN j + o_SegmentSize o) | None => 0 end.

Lemma flushBatch_wp D o : o_SegmentSize o <= max_int64 -> forall batch pend done c synced s,
  cas_ok cfg c s -> Forall (archived o s) done -> Forall2 (chunked s) batch pend ->
  NoDup (map sj_segNum (done ++ pend)) -> Forall (fun j => seg_ok o (sj_segNum j)) (done ++ pend) ->
  synced = end_of o done ->
  wp D (flushBatch cfg caps draw o batch c synced) (fun r s' => cas_ok cfg r.1.2 s' /\
    exists done' rest, done ++ pend = done' ++ rest /\ Forall (archived o s') done' /\ r.2 = end_of o done' /\
      (r.1.1 = None -> rest = [])) s.
Proof.
  intros Hs. induction batch as [|cs batch IH]; intros pend done c synced s Hc Hd Hp Hnd Hok ->; cbn [flushBatch].
  { apply Forall2_nil_inv_l in Hp as ->. split; [done|]. exists done, []. done. }
  apply Forall2_cons_inv_l in Hp as (j & pend' & (H1 & H2 & H3 & H4) & Hp & ->).
  apply wp_bind, wp_now. intros d _. set (m := segment_manifest _ _ _ _ _ _ _).
  assert (manifest_key m = seg_key o (sj_segNum j)) as Hkey by (unfold m; rewrite H1; done).
  wp_step. eapply wp_mono; [|by apply commitManifest_wp].
  intros [[e|] c1] s1 (Hf & Hc1 & Hm); cbn [fst snd wp] in *.
  - split; [done|]. exists done, (j :: pend'). split_and!; try done.
    by eapply archived_others.
  - destruct (Hm eq_refl) as (ob & Hob & m' & Hm1 & Hm2 & Hm3).
    assert (forall h, stored s h -> stored s1 h) as Hst.
    { intros h [x Hx]. exists x. rewrite Hf; [done|apply commit_writes_no_chunk]. }
    replace (done ++ j :: pend') with ((done ++ [j]) ++ pend') in * by (by rewrite <- app_assoc).
    apply IH; [by apply releaseAdoptedRefs_ok| | |done|done|].
    + apply Forall_app. split.
      * eapply (archived_others o s s1 done j pend'); try done; by rewrite <- app_assoc in *.
      * constructor; [|constructor]. exists ob, m'. rewrite <- Hkey. split_and!; [done|done|done| |]; rewrite Hm3; [done|].
        eapply Forall_impl; [exact H4|]. done.
    + eapply Forall2_impl; [exact Hp|]. intros cs' j'. by apply chunked_mono.
    + unfold end_of. by rewrite last_snoc, H2.
Qed.

(** ** The processor *)

Definition job_segment (job : sink_job) : list segJob := match job with Segment j _ => [j] | FlushRequest => [] end.
Definition segments (jobs : list sink_job) : list segJob := concat (map job_segment jobs).

(** After the segments [sofar]: a prefix of them is archived and the position is its end; without
    a failure the batch is the rest, its chunks stored. *)
Record sink_inv (o : Options) (sofar : list segJob) (st : processor) (s : store) : Prop := {
  si_cas : cas_ok cfg (pr_cas st) s;
  si_archived : exists done rest, sofar = done ++ rest /\ Forall (archived o s) done /\
    pr_synced st = end_of o done /\ (pr_err st = None -> Forall2 (chunked s) (pr_batch st) rest)
}.

Definition jobs_ok (o : Options) (jobs : list segJob) : Prop :=
  NoDup (map sj_segNum jobs) /\ Forall (fun j => seg_ok o (sj_segNum j) /\ sj_n j = len (sj_buf j)) jobs.

Lemma jobs_ok_app o l k : jobs_ok o (l ++ k) -> jobs_ok o l.
Proof. intros [H1 H2]. rewrite map_app, NoDup_app in H1. rewrite Forall_app in H2. split; [apply H1|apply H2]. Qed.

Lemma flush_wp D o sofar st s : o_SegmentSize o <= max_int64 -> jobs_ok o sofar -> pr_err st = None ->
  sink_inv o sofar st s ->
  wp D (flush cfg caps draw o st) (fun st' s' => sink_inv o sofar st' s' /\
    (pr_err st' = None -> Forall (archived o s') sofar /\ pr_synced st' = end_of o sofar)) s.
Proof.
  intros Hs [Hnd Hok] He [Hc (done & rest & -> & Hd & Hsy & Hb)]. unfold flush. wp_step.
  eapply wp_mono; [|eapply (flushBatch_wp D o Hs (pr_batch st) rest done); try done].
  - intros [[e c] y] s' [Hc' (done' & rest' & E & Hd' & Hy & Hr)]; cbn [fst snd wp] in *. split; [split; cbn; [done|]|].
    + exists done', rest'. split_and!; try done. intros ->. by rewrite Hr.
    + cbn. intros ->. rewrite Hr, app_nil_r in E by done. rewrite E. done.
  - by apply Hb.
  - eapply Forall_impl; [exact Hok|]. by intros j [].
Qed.

Lemma process_wp D o sofar st job s : o_SegmentSize o <= max_int64 -> jobs_ok o (sofar ++ job_segment job) ->
  sink_inv o sofar st s ->
  wp D (process sha256 cfg gear ch caps draw o st job) (sink_inv o (sofar ++ job_segment job)) s.
Proof.
  intros Hs Hok [Hc (done & rest & -> & Hd & Hsy & Hb)]. unfold process.
  destruct (pr_err st) as [e|] eqn:Ee.
  { cbn. split; [done|]. exists done, (rest ++ job_segment job). rewrite <- app_assoc. by rewrite Ee. }
  destruct job as [j idle|]; cbn [job_segment] in *.
  - wp_step. eapply wp_mono; [|apply chunkSegment_wp; [|exact Hc]].
    2:{ destruct Hok as [_ Hok]. rewrite !Forall_app, Forall_cons in Hok. tauto. }
    intros [[cs|e] c1] s1 (Hst & Hc1 & Hcs); cbn [fst snd] in *.
    + set (st1 := {| pr_cas := c1; pr_batch := _ |}).
      assert (sink_inv o ((done ++ rest) ++ [j]) st1 s1) as Hinv.
      { split; cbn; [done|]. exists done, (rest ++ [j]). rewrite <- app_assoc. split_and!; [done| |done|].
        - eapply Forall_impl; [exact Hd|]. intros j'. by apply archived_stays.
        - intros _. apply Forall2_app; [|by apply Forall2_cons_2]. eapply Forall2_impl; [by apply Hb|].
          intros cs' j'. apply chunked_mono. intros h. by apply stays_stored. }
      destruct (_ || _); [|done]. eapply wp_mono; [|by apply flush_wp]. by intros st' s' [H _].
    + split; cbn; [done|]. exists done, (rest ++ [j]). rewrite <- app_assoc. split_and!; try done.
      eapply Forall_impl; [exact Hd|]. intros j'. by apply archived_stays.
  - rewrite app_nil_r in *. eapply wp_mono; [|apply flush_wp]; try done; [by intros st' s' [H _]|].
    split; [done|]. exists done, rest. by rewrite Ee.
Qed.

Lemma process_all_wp D o jobs : o_SegmentSize o <= max_int64 -> forall sofar st s,
  jobs_ok o (sofar ++ segments jobs) -> sink_inv o sofar st s ->
  wp D (process_all sha256 cfg gear ch caps draw o st jobs) (sink_inv o (sofar ++ segments jobs)) s.
Proof.
  intros Hs. induction jobs as [|job jobs IH]; intros sofar st s Hok Hi; cbn [process_all].
  { unfold segments. cbn. by rewrite app_nil_r. }
  change (segments (job :: jobs)) with (job_segment job ++ segments jobs) in *. rewrite app_assoc in *.
  wp_step. eapply wp_mono; [|apply process_wp; [done|by eapply jobs_ok_app|done]]. intros st1 s1 H1. by apply IH.
Qed.

Lemma run_processor_wp D o jobs c s : o_SegmentSize o <= max_int64 -> jobs_ok o (segments jobs) -> cas_ok cfg c s ->
  wp D (run_processor sha256 cfg gear ch caps draw o (idle_processor c) jobs) (fun st s' =>
    exists done rest, segments jobs = done ++ rest /\ Forall (archived o s') done /\ pr_synced st = end_of o done /\
      (pr_err st = None -> rest = [])) s.
Proof.
  intros Hs Hok Hc. unfold run_processor. wp_step. eapply wp_mono; [|apply (process_all_wp D o jobs Hs []); [done|]].
  - cbn [app]. intros st s1 Hi. destruct (pr_err st) as [e|] eqn:Ee.
    + destruct Hi as [_ (done & rest & H1 & H2 & H3 & _)]. cbn. exists done, rest. by rewrite Ee.
    + eapply wp_mono; [|by apply flush_wp]. intros st' s' [[_ (done & rest & H1 & H2 & H3 & _)] Hn].
      destruct (pr_err st') as [e|]; [by exists done, rest|]. destruct (Hn eq_refl) as [G1 G2].
      exists (segments jobs), []. by rewrite app_nil_r.
  - split; cbn; [done|]. exists [], []. by split_and!.
Qed.
End facts.

(** ** Receiver and processor together *)

Lemma stream_app ok left : stream (ok ++ left) = stream ok ++ stream left.
Proof. unfold stream. by rewrite map_app, concat_app. Qed.

Lemma start_of_prefix ok left : stream ok <> [] -> start_of (ok ++ left) = start_of ok.
Proof.
  induction ok as [|r ok IH]; [done|]. unfold stream. simpl. destruct (Z.eqb_spec (len (Data r)) 0) as [E|]; [|done].
  apply len_nil in E. rewrite E. exact IH.
Qed.

Lemma jobs_from_prefix size k l l' : jobs_from size k (l ++ l') -> jobs_from size k l.
Proof. intros H i j Hj. apply H. by apply lookup_app_l_Some. Qed.

Lemma jobs_from_NoDup size k l : jobs_from size k l -> NoDup (map sj_segNum l).
Proof.
  intros H. apply NoDup_alt. intros i i' n. rewrite !list_lookup_fmap.
  intros (j & Hj & E)%fmap_Some (j' & Hj' & E')%fmap_Some. apply H in Hj as [Hj _]. apply H in Hj' as [Hj' _]. lia.
Qed.

Lemma ValidSegmentSize_bounds s : ValidSegmentSize s = true -> 0 < s <= max_int64.
Proof.
  intros (k & Hk & ->)%ValidSegmentSize_iff. split; [apply Z.pow_pos_nonneg; lia|].
  pose proof (Z.pow_le_mono_r 2 k 30 ltac:(lia) ltac:(lia)). unfold max_int64. lia.
Qed.

(** Full segments of a stream below the end of the address space. *)
Lemma jobs_from_ok o k l : ValidSegmentSize (o_SegmentSize o) = true -> 0 <= k ->
  (k + len l) * o_SegmentSize o < 2 ^ 64 -> jobs_from (o_SegmentSize o) k l -> jobs_ok o l.
Proof.
  intros Hv Hk Hb H. pose proof (proj1 (proj2 (segment_sizes _ Hv))) as Hper.
  pose proof (ValidSegmentSize_bounds _ Hv) as [Hpos _].
  split; [by eapply jobs_from_NoDup|]. apply Forall_forall. intros j [i Hi]%list_elem_of_lookup_1.
  pose proof (lookup_lt_Some _ _ _ Hi) as Hlt. destruct (H i j Hi) as (H1 & H2 & H3 & H4). split; [|lia].
  unfold seg_ok. unfold len in Hb. split; [lia|]. apply (Z.mul_lt_mono_pos_r (o_SegmentSize o)); nia.
Qed.

Lemma end_of_jobs o k l : 0 <= k -> 0 < o_SegmentSize o -> (k + len l) * o_SegmentSize o < 2 ^ 64 ->
  jobs_from (o_SegmentSize o) k l -> l <> [] -> end_of o l = k * o_SegmentSize o + len (concat (map sj_buf l)).
Proof.
  intros Hk Hpos Hb H Hl. rewrite (jobs_bytes _ _ _ H). unfold end_of. rewrite last_lookup.
  destruct l as [|j0 l']; [done|]. set (l := j0 :: l') in *.
  assert (is_Some (l !! pred (length l))) as [j Hj] by (apply lookup_lt_is_Some; unfold l; simpl; lia).
  rewrite Hj. destruct (H _ _ Hj) as (H1 & H2 & _). unfold len in *.
  assert (Z.of_nat (length l) = Z.of_nat (pred (length l)) + 1) as E by (unfold l; simpl; lia).
  rewrite u64_id; nia.
Qed.

(** What a prefix of the queue is, for the streams of a new sink. *)
Definition queued (o : Options) (recs : list XLogRecord) (done : list segJob) : Prop :=
  end_of o done = (if bool_decide (done = []) then 0 else start_of recs + len (concat (map sj_buf done))) /\
  concat (map sj_buf done) `prefix_of` stream recs /\
  jobs_from (o_SegmentSize o) (start_of recs / o_SegmentSize o) done.

Lemma received_queued o p w s ok left done rest : received p w s -> o_SegmentSize o = segSize s ->
  ValidSegmentSize (o_SegmentSize o) = true -> p = start_of ok -> w = stream ok -> pending s = done ++ rest ->
  jobs_ok o done /\ queued o (ok ++ left) done.
Proof.
  intros [G1 [G2 G2'] G3 G4 G5 _] Hsize Hv -> -> Hq. rewrite <- Hsize, Hq in *. set (p := start_of ok) in *.
  assert (p / o_SegmentSize o * o_SegmentSize o = p) as Hdiv
    by (pose proof (Z.div_mod p (o_SegmentSize o) ltac:(lia)); lia).
  pose proof (jobs_bytes _ _ _ G4) as Hl. rewrite <- G5, len_app in G3. pose proof (len_nonneg (partial s)).
  apply jobs_from_prefix in G4. assert (0 <= p / o_SegmentSize o) as Hk by (apply Z.div_pos; lia).
  assert ((p / o_SegmentSize o + len done) * o_SegmentSize o < 2 ^ 64) as Hb
    by (rewrite len_app in Hl; pose proof (len_nonneg rest); nia).
  split; [by eapply jobs_from_ok|]. rewrite map_app, concat_app, <- app_assoc in G5. unfold queued.
  destruct (decide (done = [])) as [->|Hne]; [split_and!; [done|by apply prefix_nil|by intros i j Hj]|].
  rewrite start_of_prefix.
  - fold p. rewrite bool_decide_false by done. split_and!; [|by rewrite stream_app, <- G5, <- app_assoc; eexists|done].
    rewrite (end_of_jobs o (p / o_SegmentSize o)) by done. by rewrite Hdiv.
  - rewrite <- G5. pose proof (jobs_bytes _ _ _ G4) as Hl'. apply len_pos_cons in Hne.
    destruct (concat (map sj_buf done)) as [|b bs]; [|done]. change (len []) with 0 in Hl'. nia.
Qed.

Lemma feed_queued so o sink recs sink' e done rest :
  NewSink so = Some sink -> 0 <= so_ExpectedFirstLSN so -> o_SegmentSize o = segSize sink ->
  Forall in_range recs -> feed sink recs = (sink', e) -> pending sink' = done ++ rest ->
  ValidSegmentSize (o_SegmentSize o) = true /\ jobs_ok o done /\ queued o recs done.
Proof.
  intros Hsink He Hsize Hr Hfeed Hq. pose proof (NewSink_fed so sink He Hsink) as Hf.
  assert (ValidSegmentSize (o_SegmentSize o) = true) as Hv.
  { rewrite Hsize. unfold NewSink in Hsink. destruct (ValidSegmentSize _) eqn:Ev; [|done]. by injection Hsink as <-. }
  split; [done|]. pose proof (feed_fed _ _ recs [] sink He Hf Hr) as H. rewrite Hfeed in H.
  destruct H as (ok & left & -> & (s2 & [F1 F2 [F3 _] _ _] & Hp & _) & _). cbn [app] in *.
  eapply received_queued; [exact F2| |done..|by rewrite <- Hp]. rewrite F3, Hsize. apply Hf.
Qed.

(** C1: WAL the sink acknowledges is archived.  Whatever fails, wherever flushes fall, and however
    far the processor has come: the position it reports is the end of some full segments that
    are, in order and without a gap, the stream's bytes from its start, and for each of them the
    repository holds a manifest of this cluster under the segment's name whose chunks are stored
    and cut exactly the segment's bytes; without a failure these are all the segments taken off
    the queue. *)
Theorem acknowledged_wal_is_archived `{CS : Codec string SegmentManifest} `{CR : Codec string gcRunRecord}
    `{CP : Codec string gcPin} `{L : LSN} (sha256 : string -> Hash) (caps : Capabilities) (copts : list CASOption)
    (cfg : config) (c : CAS) (gear : byte -> Z) (min avg max : Z) (ch : Chunker) (draw : Z -> draws)
    (so : SinkOptions) (o : Options) (sink sink' : Sink) (recs : list XLogRecord) (e : option recv_err)
    (jobs : list sink_job) (later : list segJob) (ds : nat -> decision) (s : gmap string (object string)) :
  NewCAS caps copts = Some (cfg, c) -> reads_only (retainUntil (cas_retention cfg)) ->
  NewWithParams min avg max = Some ch -> 2 <= max ->
  NewSink so = Some sink -> 0 <= so_ExpectedFirstLSN so -> o_SegmentSize o = segSize sink ->
  Forall in_range recs -> feed sink recs = (sink', e) -> pending sink' = segments jobs ++ later ->
  let '(st, s') := run ds 0 (run_processor sha256 cfg gear ch caps draw o (idle_processor c) jobs) s in
  exists done,
    pr_synced st = (if bool_decide (done = []) then 0 else start_of recs + len (concat (map sj_buf done))) /\
    concat (map sj_buf done) `prefix_of` stream recs /\
    jobs_from (o_SegmentSize o) (start_of recs / o_SegmentSize o) done /\
    Forall (archived sha256 o s') done /\
    (pr_err st = None -> done = segments jobs).
Proof.
  intros Hcas Hdl Hch Hmax Hsink He Hsize Hr Hfeed Hq.
  destruct (feed_queued so o sink recs sink' e _ _ Hsink He Hsize Hr Hfeed Hq) as (Hv & Hjobs & _).
  assert (cas_ok cfg c s) as Hc by by eapply NewCAS_ok.
  apply NewWithParams_valid in Hch as (Hvalid & _ & _ & Hmx). rewrite <- Hmx in Hmax.
  pose proof (wp_run (fun _ => True) _ _ s ds 0 (fun _ => I) (run_processor_wp sha256 cfg gear ch caps draw Hdl
    (conj Hvalid Hmax) _ o jobs c s (proj2 (ValidSegmentSize_bounds _ Hv)) Hjobs Hc)) as H.
  destruct (run ds 0 _ s) as [st s']. destruct H as (done & rest & Hseg & Ha & Hsy & Hn). cbn [fst snd] in *.
  rewrite Hseg, <- app_assoc in Hq.
  destruct (feed_queued so o sink recs sink' e _ _ Hsink He Hsize Hr Hfeed Hq) as (_ & _ & Hq1 & Hq2 & Hq3).
  exists done. rewrite Hsy. split_and!; try done. intros Hnone. by rewrite Hseg, (Hn Hnone), app_nil_r.
Qed.

(** ** Pushing a file *)

Lemma list_byte_of_length s : len (String.list_byte_of_string s) = Z.of_nat (String.length s).
Proof.
  unfold len, String.list_byte_of_string. rewrite length_map. f_equal. induction s as [|a s IH]; [done|].
  simpl. by rewrite IH.
Qed.

(** What a push leaves behind: everything but a staging object keeps its bytes, and on success the
    file is archived under its name. *)
Definition push_post `{CS : Codec string SegmentManifest} (sha256 : string -> Hash) (o : Options) (d : draws)
    (base contents : string) (s : gmap string (object string)) (r : result push_err SegmentManifest)
    (s' : gmap string (object string)) : Prop :=
  (forall k ob, s !! k = Some ob -> (forall k', k <> staging_key k' (dr_staging d)) ->
     exists ob', s' !! k = Some ob' /\ ob_body ob' = ob_body ob) /\
  (forall m, r = Ok m -> exists tli segNum,
     ParseSegmentName base (NormSegmentSize (o_SegmentSize o)) = Some (tli, segNum) /\
     size_of contents = NormSegmentSize (o_SegmentSize o) /\
     archived_at sha256 (SegmentPath (o_Deployment o) tli base) (o_SystemIdentifier o)
       (String.list_byte_of_string contents) s').

Section push.
Context `{CS : Codec string SegmentManifest} `{L : LSN}.
Context (sha256 : string -> Hash) (cfg : config) (gear : byte -> Z) (ch : Chunker) (caps : Capabilities).
Hypothesis deadline_reads : reads_only (retainUntil (cas_retention cfg)).
Hypothesis chunker_ok : valid ch /\ 2 <= cmax ch.

Lemma push_refused o d base contents s s' e : stays s s' -> push_post sha256 o d base contents s (Err e) s'.
Proof. intros H. split; [|done]. intros k ob Hk _. by apply H. Qed.

(** A commit over stored chunks that describe the bytes. *)
Lemma push_commit_wp D o d base contents tli segNum m s0 s :
  ParseSegmentName base (NormSegmentSize (o_SegmentSize o)) = Some (tli, segNum) ->
  size_of contents = NormSegmentSize (o_SegmentSize o) -> sm_Schema m = seg_schema ->
  manifest_key m = SegmentPath (o_Deployment o) tli base -> sm_SystemIdentifier m = o_SystemIdentifier o ->
  describes sha256 0 (sm_Chunks m) (String.list_byte_of_string contents) ->
  Forall (stored s) (ref_hashes (sm_Chunks m)) -> stays s0 s ->
  wp D (commitManifestStandalone caps (o_WORM o) (dr_staging d) m)
    (fun r => push_post sha256 o d base contents s0 (match r with Ok _ => Ok m | Err e => Err (PushSink (SinkCommit e)) end)) s.
Proof.
  intros Hname Hsize Hschema Hkey Hsys Hdesc Hst Hstay. eapply wp_mono; [|by apply commitManifestStandalone_wp].
  intros r s' (H1 & H2 & H3). split.
  - intros k ob Hk Hns. destruct (Hstay k ob Hk) as (ob1 & Hk1 & E). exists ob1. split; [|done].
    destruct (decide (k = manifest_key m)) as [->|Hne]; [by apply H2|by rewrite H1].
  - intros m' Hm. destruct r as [[]|]; [|done]. destruct (H3 eq_refl) as (ob & Hob & m2 & Hp & E1 & E2).
    exists tli, segNum. split_and!; [done|done|]. exists ob, m2. rewrite <- Hkey, E1, E2. split_and!; try done.
    eapply Forall_impl; [exact Hst|]. intros h [x Hx]. exists x. by rewrite H1.
Qed.

Lemma PushSegmentFile_wp D o d base contents c s : cas_ok cfg c s ->
  wp D (PushSegmentFile sha256 cfg gear ch caps o d base contents c)
    (fun r => push_post sha256 o d base contents s r.1) s.
Proof.
  intros Hc. assert (forall e, push_post sha256 o d base contents s (Err e) s) as Hrefused
    by (intros e; apply push_refused, stays_refl).
  unfold PushSegmentFile. destruct (String.eqb _ _); [apply Hrefused|]. destruct (String.eqb _ _); [apply Hrefused|].
  destruct (negb _); [apply Hrefused|]. destruct (ParseSegmentName base _) as [[tli segNum]|] eqn:En; [|apply Hrefused].
  unfold readSegmentFile. destruct (Z.eqb_spec (size_of contents) (NormSegmentSize (o_SegmentSize o))) as [Es|];
    cbn [negb]; [|apply Hrefused].
  destruct (chunks_of_cuts gear ch chunker_ok (String.list_byte_of_string contents)) as (items & -> & Hcut).
  wp_step. eapply wp_mono; [|by eapply (put_items_wp sha256 cfg ch)].
  intros [[refs|e] c1] s1 (Hst & Hc1 & Hrefs); cbn [fst snd] in *; [|by apply push_refused].
  destruct Hrefs as [Hdesc Hall]. apply wp_bind, wp_now. intros dd _. set (m := segment_manifest _ _ _ _ _ _ _).
  wp_step. eapply wp_mono; [|by apply (verifyRefs_wp cfg D _ c1 s1)].
  intros [[h|] c2] s2 [-> _]; [by apply push_refused|]. wp_step.
  eapply wp_mono; [|by apply (push_commit_wp D o d base contents tli segNum m s s1)]. by intros [[]|e] s'.
Qed.
End push.

(** Archiving a segment file: whatever fails, nothing in the repository is lost or changed but
    a leftover of the commit's own staging object; on success the repository holds under the
    file's name a manifest of this cluster whose chunks are stored and cut exactly the file. *)
Theorem push_archives `{CS : Codec string SegmentManifest} `{L : LSN} (sha256 : string -> Hash) (caps : Capabilities)
    (copts : list CASOption) (cfg : config) (c : CAS) (gear : byte -> Z) (min avg max : Z) (ch : Chunker) (o : Options)
    (d : draws) (base contents : string) (ds : nat -> decision) (s : gmap string (object string)) :
  NewCAS caps copts = Some (cfg, c) -> reads_only (retainUntil (cas_retention cfg)) ->
  NewWithParams min avg max = Some ch -> 2 <= max ->
  let '((r, _), s') := run ds 0 (PushSegmentFile sha256 cfg gear ch caps o d base contents c) s in
  (forall k ob, s !! k = Some ob -> (forall k', k <> staging_key k' (dr_staging d)) ->
     exists ob', s' !! k = Some ob' /\ ob_body ob' = ob_body ob) /\
  (forall m, r = Ok m -> exists tli segNum,
     ParseSegmentName base (NormSegmentSize (o_SegmentSize o)) = Some (tli, segNum) /\
     size_of contents = NormSegmentSize (o_SegmentSize o) /\
     archived_at sha256 (SegmentPath (o_Deployment o) tli base) (o_SystemIdentifier o)
       (String.list_byte_of_string contents) s').
Proof.
  intros Hcas Hdl (Hv & _ & _ & <-)%NewWithParams_valid Hmax.
  pose proof (wp_run (fun _ => True) _ _ s ds 0 (fun _ => I) (PushSegmentFile_wp sha256 cfg gear ch caps Hdl
    (conj Hv Hmax) _ o d base contents c s (NewCAS_ok _ _ _ _ s Hcas))) as H.
  by destruct (run ds 0 _ s) as [[r c'] s'].
Qed.

(** ** A commit again *)

Definition demo_segment_codec : Codec string SegmentManifest := countable_codec.
Definition demo_run_codec : Codec string gcRunRecord := countable_codec.
Definition demo_pin_codec : Codec string gcPin := countable_codec.

Definition demo_stream_options : Options :=
  {| o_Deployment := "db1"; o_Timeline := 1; o_SystemIdentifier := "7000"; o_SegmentSize := DefaultSegmentSize;
     o_WORM := None; o_Encryption := None |}.

Definition demo_draws : draws :=
  {| dr_staging := "r"; dr_fence := "f"; dr_confirm := "g"; dr_nonce := fun _ => zero_nonce |}.

(** The sample segment, archived by another run, and its chunk. *)
Definition demo_archive : gmap string (object string) :=
  <[ChunkKey 5 := Object "chunk" 5 100 0 WORMNone]>
    {[manifest_key sample_manifest := Object (encode (Codec := demo_segment_codec) sample_manifest) 100 100 0 WORMNone]}.

(** The commit takes a minute, and then one listing fails. *)
Definition slow_commit : nat -> decision := fun i =>
  {| d_fault := if (i =? 7)%nat then Fails 1 else Normal; d_time := if (i <? 5)%nat then 1 else Time.Minute;
     d_order := fun l => l; d_order_perm := fun l => Permutation_refl l; d_listed := 0 |}.

(** [commitManifest] removes the manifest of a segment that another run archived: the commit
    finds it, accepts it as this segment's, and deletes it when the fence cannot be confirmed,
    here because one listing of the run records failed, although no chunk is missing and no
    collection has run. *)
Theorem recommit_removes_archived :
  let commit := commitManifest (CS := demo_segment_codec) (CR := demo_run_codec) (CP := demo_pin_codec) demo_config
                  plain_caps demo_stream_options demo_draws sample_manifest (markAdopted 5 (CAS0 (InMemory ∅))) in
  let '((e, _), s') := run slow_commit 0 commit demo_archive in
  (exists ob, demo_archive !! manifest_key sample_manifest = Some ob /\
     archived_as (C := demo_segment_codec) sample_manifest ob) /\
  Forall (stored s') (ref_hashes (sm_Chunks sample_manifest)) /\
  e = Some (SinkConfirm (ReadRuns (ErrBackend 1)) None) /\
  s' !! manifest_key sample_manifest = None.
Proof.
  intros commit.
  assert ((fun r => (r.1.1, bool_decide (stored r.2 5), r.2 !! manifest_key sample_manifest))
    (run slow_commit 0 commit demo_archive) = (Some (SinkConfirm (ReadRuns (ErrBackend 1)) None), true, None)) as H
    by (vm_compute; reflexivity).
  destruct (run slow_commit 0 commit demo_archive) as [[e c] s']. cbn [fst snd] in H.
  injection H as -> Hs ->. apply bool_decide_eq_true in Hs. split_and!; [|by apply Forall_singleton|done|done].
  eexists. split; [unfold demo_archive; rewrite lookup_insert_ne by done; apply lookup_singleton_eq|].
  exists sample_manifest. split; [|done]. unfold ParseSegmentManifest. cbn [ob_body].
  by rewrite (decode_encode (Codec := demo_segment_codec)).
Qed.
