(* ===== verification/WalSinkLive.v ===== *)
(** Archiving on a backend that does not fail: the sink and the push get every segment through.

    The configuration is one whose own steps cannot refuse (no encryption, no retention, a
    compressor that always answers), no collection has left a run record, and no other run has
    taken the segments' names. *)
From S2P Require Import Prelude GoString Storage Concur Worm Commit Lsn Timeline Hash Chunker WalSegment.
From S2P Require Import GcFence Envelope Cas FencedCommit WalReceive WalSink.
From Stdlib Require Import Strings.Byte.

Local Open Scope string_scope.
Local Open Scope list_scope.
Local Open Scope Z_scope.
#[local] Arguments String.append : simpl nomatch.

(** A store whose own steps cannot refuse. *)
Record plain (cfg : config) : Prop := {
  pl_enc : cas_encWriter cfg = None;
  pl_retention : CASRetention_IsZero (cas_retention cfg) = true;
  pl_enforceable : cas_retentionUnenforceable cfg = false;
  pl_compress : forall body, is_Some (Compress (cas_writer cfg) body)
}.

Definition no_runs (s : gmap string (object string)) : Prop :=
  forall k, HasPrefix k gcRunsPrefix = true -> s !! k = None.

Definition is_chunk_key (k : string) : Prop := exists h, k = ChunkKey h.

Section live.
Context `{CS : Codec string SegmentManifest} `{CR : Codec string gcRunRecord} `{CP : Codec string gcPin}.
Context `{L : LSN}.
Context (sha256 : string -> Hash) (cfg : config) (gear : byte -> Z) (ch : Chunker) (caps : Capabilities)
  (draw : Z -> draws).
Hypothesis cfg_plain : plain cfg.
Hypothesis deadline_reads : reads_only (retainUntil (cas_retention cfg)).
Hypothesis chunker_ok : valid ch /\ 2 <= cmax ch.
Local Abbreviation store := (gmap string (object string)).
Local Abbreviation W := (wp (B := string) healthy).

Lemma never_faulty (d : decision) : healthy d -> d_fault d <> Normal -> False.
Proof. unfold healthy. congruence. Qed.
#[local] Hint Extern 1 => (exfalso; eapply never_faulty; eassumption) : core.

(** ** Chunks *)

Lemma ensureRetention_plain h have s Q : Q (Ok 0) s -> W (ensureRetention cfg h have) Q s.
Proof. unfold ensureRetention. by rewrite (pl_retention _ cfg_plain). Qed.

Lemma adopt_stored_plain info c s : W (adopt_stored sha256 cfg info c) (fun r _ => is_ok r.1 = true) s.
Proof.
  unfold adopt_stored, ensureAdoptable. rewrite (pl_enc _ cfg_plain). cbn [pbind]. apply wp_bind.
  by apply ensureRetention_plain.
Qed.

Lemma write_chunk_plain nonce body info c s : W (write_chunk sha256 cfg nonce body info c) (fun r _ => is_ok r.1 = true) s.
Proof.
  unfold write_chunk, seal. rewrite (pl_enc _ cfg_plain), (pl_retention _ cfg_plain).
  destruct (pl_compress _ cfg_plain body) as [[payload algo] ->]. cbn [pbind].
  wp_step.
  - intros d _ _. by apply wp_bind, wp_now.
  - intros _ _. apply adopt_stored_plain.
  - intros d e Hd Hf. by destruct (never_faulty d Hd Hf).
  - intros d e Hd Hf. by destruct (never_faulty d Hd Hf).
Qed.

Lemma PutChunk_plain nonce body c s : W (PutChunk sha256 cfg nonce body c) (fun r _ => is_ok r.1 = true) s.
Proof.
  unfold PutChunk. rewrite (pl_enforceable _ cfg_plain). destruct (seen c !! sha256 body) as [e|].
  - unfold put_seen. apply wp_bind.
    destruct (Time.IsZero _); [|apply wp_bind, wp_now; intros d Hd];
      cbn [wp]; apply wp_bind; by apply ensureRetention_plain.
  - destruct (hinted _ _); [|apply write_chunk_plain]. wp_step.
    + intros o Ho. apply adopt_stored_plain.
    + intros _. apply write_chunk_plain.
    + intros d e Hd Hf. by destruct (never_faulty d Hd Hf).
Qed.

(** A put writes chunk keys only. *)
Lemma PutChunk_touches nonce body c : touches is_chunk_key (PutChunk sha256 cfg nonce body c).
Proof.
  assert (forall h, Forall is_chunk_key [ChunkKey h]) as HK by (intros h; constructor; [by exists h|constructor]).
  assert (forall h have, touches is_chunk_key (ensureRetention cfg h have)) as Hret.
  { intros h have. unfold ensureRetention. by rewrite (pl_retention _ cfg_plain). }
  assert (forall info c, touches is_chunk_key (adopt_stored sha256 cfg info c)) as Hadopt.
  { intros info c'. unfold adopt_stored, ensureAdoptable. rewrite (pl_enc _ cfg_plain). cbn [pbind].
    apply touches_bind; [apply Hret|]. by intros [u|e]. }
  assert (forall info c, touches is_chunk_key (write_chunk sha256 cfg nonce body info c)) as Hwrite.
  { intros info c'. unfold write_chunk. destruct (seal _ _ _); [|done]. rewrite (pl_retention _ cfg_plain). cbn.
    split; [apply HK|]. intros [u|[]]; [by cbn|try done..]. }
  unfold PutChunk. destruct (cas_retentionUnenforceable cfg); [done|]. destruct (seen c !! sha256 body) as [e|].
  - unfold put_seen. apply touches_bind; [by destruct (Time.IsZero _)|]. intros b.
    apply touches_bind; [apply Hret|by intros [u|e']].
  - destruct (hinted _ _); [|apply Hwrite]. cbn. split; [constructor|]. intros [i|e]; [apply Hadopt|apply Hwrite].
Qed.

Lemma put_items_touches nonce items c : touches is_chunk_key (put_items sha256 cfg nonce items c).
Proof.
  revert c. induction items as [|[d off|e] items IH]; intros c; cbn [put_items]; [done| |done].
  apply touches_bind; [apply PutChunk_touches|]. intros [[info|e] c1]; [|done].
  apply touches_bind; [apply IH|]. by intros [[refs|e] c2].
Qed.

Lemma put_items_plain nonce items c s : forallb is_chunk items = true ->
  W (put_items sha256 cfg nonce items c) (fun r _ => is_ok r.1 = true) s.
Proof.
  revert c s. induction items as [|[d off|e] items IH]; intros c s Hi; cbn [put_items]; [done| |done].
  wp_step. eapply wp_mono; [|apply PutChunk_plain]. intros [[info|e] c1] s1 Hok; [|done].
  wp_step. eapply wp_mono; [|by apply IH]. by intros [[refs|e] c2] s2 Hok2.
Qed.

Lemma cuts_are_chunks off bytes items : cuts ch None off bytes items -> forallb is_chunk items = true.
Proof. induction 1; by simpl. Qed.

Lemma chunkSegment_touches j c : touches is_chunk_key (chunkSegment sha256 cfg gear ch draw j c).
Proof.
  unfold chunkSegment. destruct (chunks_of _ _ _); try done. destruct (negb _); [done|].
  apply touches_bind; [apply put_items_touches|]. by intros [[refs|e] c1].
Qed.

Lemma chunkSegment_plain j c s : W (chunkSegment sha256 cfg gear ch draw j c) (fun r _ => is_ok r.1 = true) s.
Proof.
  unfold chunkSegment. destruct (chunks_of_cuts gear ch chunker_ok (takeZ (sj_n j) (sj_buf j))) as (items & -> & Hcut).
  rewrite (cuts_are_chunks _ _ _ Hcut). cbn [negb]. wp_step.
  eapply wp_mono; [|by apply put_items_plain; eapply cuts_are_chunks]. by intros [[refs|e] c1] s1 Hok.
Qed.

(** ** The fence, with no collection in sight *)

Lemma no_runs_listing s : no_runs s -> listing gcRunsPrefix s = [].
Proof.
  intros H. destruct (listing gcRunsPrefix s) as [|i l] eqn:E; [done|].
  assert (i ∈ listing gcRunsPrefix s) as Hi by (rewrite E; by left).
  apply elem_of_listing in Hi as (o & Ho & _ & Hp). by rewrite H in Ho.
Qed.

Lemma frame_no_runs K (s s' : store) : (forall k, K k -> HasPrefix k gcRunsPrefix = false) -> frame K s s' ->
  no_runs s -> no_runs s'.
Proof. intros HK Hf H k Hk. rewrite Hf; [by apply H|]. intros HKk%HK. congruence. Qed.

Lemma listGCRuns_none s : no_runs s -> W listGCRuns (fun r s' => s' = s /\ r = Ok ∅) s.
Proof.
  intros H. unfold listGCRuns. wp_step.
  - intros l Hl. rewrite no_runs_listing in Hl by done. apply Permutation_nil_r in Hl as ->. done.
  - intros d c l l' Hd Hf. by destruct (never_faulty d Hd Hf).
Qed.

Lemma live_runs_none t : live_runs t ∅ = ∅.
Proof. unfold live_runs. by rewrite map_filter_empty, fmap_empty. Qed.

Definition fresh_fence (src : list Hash) (f : CommitFence) : Prop :=
  cf_src f = src /\ cf_seenRuns f = ∅ /\ cf_pinned f = false.

Lemma Begin_quiet id owner src s : no_runs s ->
  W (BeginCommitFence id owner src) (fun r s' => s' = s /\ exists f, r = Ok f /\ fresh_fence src f) s.
Proof.
  intros H. unfold BeginCommitFence, BeginCommitFenceSource. apply wp_bind, wp_now. intros d _.
  destruct src as [|h src]; [split; [done|]; by eexists|]. wp_step.
  eapply wp_mono; [|by apply listGCRuns_none]. intros r s1 [-> ->]. apply wp_bind, wp_now. intros d' _.
  rewrite live_runs_none, bool_decide_true by done. split; [done|]. eexists. split; [done|].
  unfold fresh_fence. cbn. by rewrite dom_empty_L, (left_id_L ∅ (∪)).
Qed.

Lemma flush_pin_quiet id owner created part parts s :
  W (flush_pin id owner created part parts) (fun r _ => exists x, r = inl x) s.
Proof.
  unfold flush_pin. destruct part as [|h part]; [by eexists|]. unfold putJSON. wp_step; cbn [IfNotExists]; try done.
  intros d _ _. by eexists.
Qed.

Lemma write_pins_quiet id owner src s : W (write_pins id owner src) (fun r _ => r = None) s.
Proof.
  unfold write_pins. apply wp_bind, wp_now. intros d _. wp_step.
  apply (wp_for _ _ _ (fun _ _ _ _ => True)); [done| |].
  - intros pre h post [part parts] s1 _ _. unfold pin_step. destruct (_ <=? _); [|done].
    eapply wp_mono; [|apply flush_pin_quiet]. by intros r s2 [x ->].
  - intros [part parts] s1 _. wp_step. eapply wp_mono; [|apply flush_pin_quiet]. by intros r s2 [x ->].
Qed.

Lemma pin_not_run k : is_pin k -> HasPrefix k gcRunsPrefix = false.
Proof. by intros [t ->]%HasPrefix_inv. Qed.

Lemma wait_loop_nothing fuel deadline prev : wait_loop fuel deadline prev ∅ = Ret None.
Proof. by destruct fuel; cbn [wait_loop]; rewrite bool_decide_true. Qed.

Lemma pinAndWait_quiet id f s : no_runs s ->
  W (pinAndWait id f) (fun r _ => exists f', r = Ok f' /\ cf_src f' = cf_src f) s.
Proof.
  intros H. unfold pinAndWait. wp_step.
  apply (wp_mono _ _ (fun r s' => no_runs s' /\ exists f', r = Ok f' /\ cf_src f' = cf_src f)).
  - intros r s1 (H1 & f1 & -> & E). wp_step. eapply wp_mono; [|by apply listGCRuns_none].
    intros r s2 [-> ->]. apply wp_bind, wp_now. intros d _. apply wp_bind, wp_now. intros d' _.
    rewrite live_runs_none, wait_loop_nothing. cbn [pbind wp]. by eexists.
  - destruct (cf_pinned f); [split; [done|by exists f]|]. wp_step.
    eapply wp_mono; [|apply wp_and; [apply touches_wp, (write_pins_touches id (cf_owner f) (cf_src f))|apply write_pins_quiet]].
    intros r s1 [Hf ->]. apply wp_bind, wp_now. intros d _. split; [|by eexists].
    eapply frame_no_runs; [|exact Hf|done]. apply pin_not_run.
Qed.

Lemma count_missing_none src s : Forall (stored s) src -> W (count_missing src) (fun r s' => s' = s /\ r = 0) s.
Proof.
  intros H. unfold count_missing. wp_step. apply (wp_for _ _ _ (fun _ _ n s' => s' = s /\ n = 0)); [done| |].
  - intros pre h post n s1 -> [-> ->]. apply Forall_app in H as [_ [[o Ho] _]%Forall_cons].
    unfold confirm_step. wp_step; [done| |].
    + intros Hn. unfold stored in Ho. congruence.
    + intros d e Hd Hf. by destruct (never_faulty d Hd Hf).
  - intros n s1 [-> ->]. done.
Qed.

Lemma Confirm_quiet id f src s : fresh_fence src f -> no_runs s -> Forall (stored s) src ->
  W (Confirm id f) (fun r _ => r = None) s.
Proof.
  intros (F1 & F2 & F3) Hr Hs. unfold Confirm. rewrite F1, F3. destruct src as [|h src]; [done|].
  apply wp_bind, wp_now. intros d _. cbn [pbind]. destruct (_ <=? _); [done|]. wp_step.
  eapply wp_mono; [|by apply listGCRuns_none]. intros r s1 [-> ->]. apply wp_bind, wp_now. intros d' _.
  unfold run_started. rewrite live_runs_none, F2, dom_empty_L, !bool_decide_true by done. cbn [negb orb andb].
  destruct (_ <? _); [done|]. unfold recheck. wp_step.
  eapply wp_mono; [|apply wp_and; [apply touches_wp, (pinAndWait_touches id f)|by apply pinAndWait_quiet]].
  intros r s1 (Hf & f' & -> & E). rewrite E, F1. wp_step. eapply wp_mono; [|apply count_missing_none].
  - by intros n s2 [-> ->].
  - eapply Forall_impl; [exact Hs|]. intros h' [o Ho]. exists o. rewrite Hf; [done|]. by intros Hp.
Qed.

(** ** A segment's commit *)

Lemma verifyRefs_quiet refs c s : Forall (stored s) (ref_hashes refs) ->
  W (verifyAdoptedSegmentRefs cfg refs c) (fun r s' => s' = s /\ r = (None, c)) s.
Proof.
  induction refs as [|r refs IH]; intros H; cbn [verifyAdoptedSegmentRefs]; [done|].
  apply Forall_cons in H as [[o Ho] H]. destruct (negb _); [by apply IH|]. wp_step.
  - intros o' _. by apply IH.
  - intros Hn. unfold stored in Ho. congruence.
  - intros d e Hd Hf. by destruct (never_faulty d Hd Hf).
Qed.

Lemma commitStandalone_quiet worm suffix m s :
  s !! manifest_key m = None -> s !! staging_key (manifest_key m) suffix = None ->
  W (commitManifestStandalone caps worm suffix m) (fun r _ => r = Ok ()) s.
Proof.
  intros Hk Ht. unfold commitManifestStandalone. wp_step. apply put_options_wp. intros opts. wp_step.
  eapply wp_mono; [|by apply CommitExclusive_healthy_wp]. rewrite Hk. by intros r s' [-> _].
Qed.

Lemma runs_not_committed d m k : commit_writes d m k -> HasPrefix k gcRunsPrefix = false.
Proof. intros [->|[->|Hk]]; [done|done|by apply pin_not_run]. Qed.

Lemma commitManifest_quiet o d m c s : Forall (stored s) (ref_hashes (sm_Chunks m)) -> no_runs s ->
  s !! manifest_key m = None -> s !! staging_key (manifest_key m) (dr_staging d) = None ->
  W (commitManifest cfg caps o d m c) (fun r _ => r.1 = None) s.
Proof.
  intros Hs Hr Hk Ht. unfold commitManifest. set (adopted := filter _ _).
  assert (Forall (stored s) adopted) as Ha.
  { apply Forall_forall. intros h [_ Hin]%list_elem_of_filter. by eapply Forall_forall in Hs. }
  wp_step. eapply wp_mono; [|by apply Begin_quiet]. intros r s1 (-> & f & -> & Hf).
  wp_step. eapply wp_mono; [|by apply verifyRefs_quiet]. intros r s1 [-> ->].
  wp_step. eapply wp_mono; [|apply wp_and; [apply touches_wp, (commitStandalone_touches caps (o_WORM o) (dr_staging d) m)|
    by apply commitStandalone_quiet]].
  intros r s1 [Hfr ->]. assert (frame (commit_writes d m) s s1) as Hfr'.
  { eapply frame_mono; [|exact Hfr]. intros k [->| ->]; [by left|by right; left]. }
  wp_step. eapply wp_mono; [|apply (Confirm_quiet _ f adopted)]; try done.
  - by intros r s2 ->.
  - eapply frame_no_runs; [|exact Hfr'|done]. apply runs_not_committed.
  - eapply Forall_impl; [exact Ha|]. intros h [x Hx]. exists x. rewrite Hfr'; [done|apply commit_writes_no_chunk].
Qed.

(** ** A batch *)

(** Nobody has taken the name of segment [n]. *)
Definition free (o : Options) (s : store) (n : Z) : Prop :=
  s !! seg_key o n = None /\ s !! staging_key (seg_key o n) (dr_staging (draw n)) = None.

Definition refs_stored (s : store) (cs : chunkedSeg) : Prop := Forall (stored s) (ref_hashes (cg_refs cs)).

Lemma refs_stored_mono s s' batch : (forall h, stored s h -> stored s' h) ->
  Forall (refs_stored s) batch -> Forall (refs_stored s') batch.
Proof. intros H Hb. eapply Forall_impl; [exact Hb|]. intros cs Hc. eapply Forall_impl; [exact Hc|exact H]. Qed.

(** What a batch may write. *)
Definition batch_writes (o : Options) (nums : list Z) (k : string) : Prop :=
  is_pin k \/ exists n, n ∈ nums /\ (k = seg_key o n \/ k = staging_key (seg_key o n) (dr_staging (draw n))).

Lemma segment_manifest_key o t n start refs :
  manifest_key (segment_manifest o t n start (SegmentFileName (o_Timeline o) n (o_SegmentSize o)) (o_Timeline o) refs)
  = seg_key o n.
Proof. done. Qed.

Lemma flushBatch_touches o batch c synced :
  touches (batch_writes o (map cg_segNum batch)) (flushBatch cfg caps draw o batch c synced).
Proof.
  revert c synced. induction batch as [|cs batch IH]; intros c synced; cbn [flushBatch]; [done|].
  apply touches_bind; [by cbn|]. intros t. apply touches_bind.
  - eapply touches_mono; [|apply commitManifest_touches]. intros k [->|[->|Hk]]; [right|right|by left];
      exists (cg_segNum cs); (split; [by left|]); rewrite segment_manifest_key; auto.
  - intros [[e|] c1]; [done|]. eapply touches_mono; [|apply IH].
    intros k [Hk|(n & Hn & Hk)]; [by left|right]. exists n. split; [by right|done].
Qed.

Lemma staging_key_inj o n n' x x' : o_SegmentSize o <= max_int64 -> seg_ok o n -> seg_ok o n' ->
  staging_key (seg_key o n) x = staging_key (seg_key o n') x' -> n = n'.
Proof.
  intros Hs Hn Hn' E. unfold staging_key in E. apply (seg_key_inj o); [done..|].
  apply (f_equal (stake (String.length (seg_key o n)))) in E. rewrite stake_app in E.
  by rewrite (seg_key_length o n n'), stake_app in E.
Qed.

Lemma free_frame o s s' nums n : o_SegmentSize o <= max_int64 -> Forall (seg_ok o) nums -> seg_ok o n -> n ∉ nums ->
  frame (batch_writes o nums) s s' -> free o s n -> free o s' n.
Proof.
  intros Hs Hok Hn Hnot Hf [H1 H2].
  assert (forall n', n' ∈ nums -> n' <> n /\ seg_ok o n') as Hdiff.
  { intros n' Hin. split; [by intros ->|]. by eapply Forall_forall in Hok. }
  split; rewrite Hf; try done; intros [Hp|(n' & Hin & [E|E])]; try done; destruct (Hdiff n' Hin) as [Hne Hn'].
  - by apply Hne, (seg_key_inj o).
  - apply (f_equal String.length) in E. unfold staging_key in E. rewrite string_app_length, (seg_key_length o n n') in E.
    cbn in E. lia.
  - apply (f_equal String.length) in E. unfold staging_key in E. rewrite string_app_length, (seg_key_length o n n') in E.
    cbn in E. lia.
  - by eapply Hne, eq_sym, (staging_key_inj o).
Qed.

Lemma batch_writes_no_run o nums k : batch_writes o nums k -> HasPrefix k gcRunsPrefix = false.
Proof. intros [Hk|(n & _ & [->| ->])]; [by apply pin_not_run|done|done]. Qed.

Lemma batch_writes_no_chunk o nums h : ~ batch_writes o nums (ChunkKey h).
Proof. by intros [Hk|(n & _ & [E|E])]. Qed.

Lemma flushBatch_quiet o batch : o_SegmentSize o <= max_int64 -> forall c synced s,
  Forall (refs_stored s) batch -> no_runs s -> NoDup (map cg_segNum batch) ->
  Forall (seg_ok o) (map cg_segNum batch) -> Forall (free o s) (map cg_segNum batch) ->
  W (flushBatch cfg caps draw o batch c synced) (fun r _ => r.1.1 = None) s.
Proof.
  intros Hs. induction batch as [|cs batch IH]; intros c synced s Hst Hr Hnd Hok Hfree; cbn [flushBatch]; [done|].
  cbn [map] in *. apply Forall_cons in Hst as [Hst0 Hst], Hok as [Hok0 Hok], Hfree as [Hfree0 Hfree].
  apply NoDup_cons in Hnd as [Hnot Hnd]. apply wp_bind, wp_now. intros d _. set (m := segment_manifest _ _ _ _ _ _ _).
  wp_step. eapply wp_mono; [|apply wp_and; [apply touches_wp, (commitManifest_touches cfg caps o (draw (cg_segNum cs)) m c)|
    apply commitManifest_quiet; try done; apply Hfree0]].
  intros [e c1] s1 [Hf He]. cbn in He. subst e.
  assert (frame (batch_writes o [cg_segNum cs]) s s1) as Hf'.
  { eapply frame_mono; [|exact Hf]. intros k [->|[->|Hk]]; [right|right|by left];
      exists (cg_segNum cs); (split; [by left|]); auto. }
  apply IH; [| |done|done|].
  - eapply refs_stored_mono; [|done]. intros h [x Hx]. exists x. rewrite Hf'; [done|apply batch_writes_no_chunk].
  - eapply frame_no_runs; [|exact Hf'|done]. apply batch_writes_no_run.
  - apply Forall_forall. intros n Hn. eapply free_frame; [done| | | |exact Hf'|]; [by apply Forall_singleton|..].
    + by eapply Forall_forall in Hok.
    + intros ->%list_elem_of_singleton. done.
    + by eapply Forall_forall in Hfree.
Qed.

(** ** The processor *)

(** Nothing has failed, the chunks of the batch are stored, and the names of the segments of the
    batch and of those to come are free. *)
Record live_inv (o : Options) (future : list segJob) (st : processor) (s : store) : Prop := {
  lv_err : pr_err st = None;
  lv_cas : cas_ok cfg (pr_cas st) s;
  lv_runs : no_runs s;
  lv_stored : Forall (refs_stored s) (pr_batch st);
  lv_nums : let nums := map cg_segNum (pr_batch st) ++ map sj_segNum future in
            NoDup nums /\ Forall (seg_ok o) nums /\ Forall (free o s) nums
}.

Lemma flushBatch_cas D o batch c synced s : cas_ok cfg c s ->
  wp D (flushBatch cfg caps draw o batch c synced) (fun r s' => cas_ok cfg r.1.2 s') s.
Proof.
  revert c synced s. induction batch as [|cs batch IH]; intros c synced s Hc; cbn [flushBatch]; [done|].
  apply wp_bind, wp_now. intros d _. wp_step. eapply wp_mono; [|by apply commitManifest_wp].
  intros [[e|] c1] s1 (_ & Hc1 & _); [done|]. by apply IH, releaseAdoptedRefs_ok.
Qed.

Lemma flush_quiet o future st s : o_SegmentSize o <= max_int64 -> live_inv o future st s ->
  W (flush cfg caps draw o st) (live_inv o future) s.
Proof.
  intros Hs [H1 H2 H3 H4 (Hnd & Hok & Hfree)]. apply NoDup_app in Hnd as (Hnd1 & Hdiff & Hnd2).
  apply Forall_app in Hok as [Hok1 Hok2], Hfree as [Hfree1 Hfree2].
  unfold flush. wp_step.
  eapply wp_mono; [|apply wp_and; [apply wp_and; [apply touches_wp, flushBatch_touches|by apply flushBatch_cas]|
    by apply flushBatch_quiet]].
  intros [[e c1] y] s1 [[Hf Hc] He]. cbn [fst snd] in *. subst e. split; cbn; try done.
  - eapply frame_no_runs; [|exact Hf|done]. apply batch_writes_no_run.
  - split_and!; [done|done|]. apply Forall_forall. intros n Hn. eapply free_frame; [done|exact Hok1| | |exact Hf|].
    + by eapply Forall_forall in Hok2.
    + intros Hin. by eapply Hdiff.
    + by eapply Forall_forall in Hfree2.
Qed.

(** A segment's chunks get in nobody's way. *)
Lemma chunked_live o j future st s cs c s1 : live_inv o (j :: future) st s ->
  frame is_chunk_key s s1 -> stays s s1 -> cas_ok cfg c s1 -> chunked sha256 s1 cs j ->
  live_inv o future {| pr_cas := c; pr_batch := pr_batch st ++ [cs]; pr_synced := pr_synced st; pr_err := None |} s1.
Proof.
  intros [H1 H2 H3 H4 H5] Hf Hst Hc (E1 & _ & _ & Hall). split; cbn; try done.
  - eapply frame_no_runs; [|exact Hf|done]. by intros k [h ->].
  - apply Forall_app. split; [|by apply Forall_singleton]. eapply refs_stored_mono; [|done]. intros h. by apply stays_stored.
  - cbn [map] in H5. rewrite map_app, <- app_assoc. cbn [map app]. rewrite E1.
    destruct H5 as (Hnd & Hok & Hfree). split_and!; [done|done|]. eapply Forall_impl; [exact Hfree|].
    intros n [G1 G2]. split; rewrite Hf; try done; by intros [h E].
Qed.

Lemma process_quiet o job future st s : o_SegmentSize o <= max_int64 -> live_inv o (job_segment job ++ future) st s ->
  Forall (fun j => sj_n j = len (sj_buf j)) (job_segment job) ->
  W (process sha256 cfg gear ch caps draw o st job) (live_inv o future) s.
Proof.
  intros Hs Hl Hn. unfold process. rewrite (lv_err _ _ _ _ Hl). destruct job as [j idle|]; cbn [job_segment app] in *.
  - rewrite Forall_singleton in Hn. wp_step.
    eapply wp_mono; [|apply wp_and; [apply wp_and; [apply touches_wp, chunkSegment_touches|apply chunkSegment_plain]|
      apply chunkSegment_wp; [done|done|exact Hn|apply Hl]]].
    intros [[cs|e] c1] s1 [[Hf Hok] (Hst & Hc & Hcs)]; [|done]. cbn [fst snd] in *.
    pose proof (chunked_live _ _ _ _ _ _ _ _ Hl Hf Hst Hc Hcs) as Hl1. destruct (_ || _); [|done]. by apply flush_quiet.
  - by apply flush_quiet.
Qed.

Lemma run_processor_quiet o jobs : o_SegmentSize o <= max_int64 -> forall st s,
  live_inv o (segments jobs) st s -> Forall (fun j => sj_n j = len (sj_buf j)) (segments jobs) ->
  W (run_processor sha256 cfg gear ch caps draw o st jobs) (fun st' _ => pr_err st' = None) s.
Proof.
  intros Hs st s Hl Hn. unfold run_processor. wp_step. apply (wp_mono _ _ (live_inv o [])).
  - intros st1 s1 Hl1. rewrite (lv_err _ _ _ _ Hl1). eapply wp_mono; [|by apply flush_quiet]. by intros st2 s2 Hl2; apply Hl2.
  - revert st s Hl Hn. induction jobs as [|job jobs IH]; intros st s Hl Hn; cbn [process_all]; [done|].
    change (segments (job :: jobs)) with (job_segment job ++ segments jobs) in *. apply Forall_app in Hn as [Hn1 Hn2].
    wp_step. eapply wp_mono; [|by apply process_quiet]. intros st1 s1 Hl1. by apply IH.
Qed.
End live.


(** ** Pushing a file gets through *)

Section push_live.
Context `{CS : Codec string SegmentManifest} `{L : LSN}.
Context (sha256 : string -> Hash) (cfg : config) (gear : byte -> Z) (ch : Chunker) (caps : Capabilities).
Hypothesis cfg_plain : plain cfg.
Hypothesis deadline_reads : reads_only (retainUntil (cas_retention cfg)).
Hypothesis chunker_ok : valid ch /\ 2 <= cmax ch.

(** A whole segment under its name, and the name free: the push succeeds. *)
Lemma PushSegmentFile_quiet o d base contents c tli segNum (s : gmap string (object string)) :
  let key := SegmentPath (o_Deployment o) tli base in
  let size := NormSegmentSize (o_SegmentSize o) in
  o_Deployment o <> "" -> o_SystemIdentifier o <> "" -> ValidSegmentSize size = true ->
  ParseSegmentName base size = Some (tli, segNum) -> size_of contents = size -> cas_ok cfg c s ->
  s !! key = None -> s !! staging_key key (dr_staging d) = None ->
  wp healthy (PushSegmentFile sha256 cfg gear ch caps o d base contents c) (fun r _ => is_ok r.1 = true) s.
Proof.
  intros key size H1 H2 H3 H4 H5 Hc Hk Ht. unfold PushSegmentFile. fold size.
  rewrite (proj2 (String.eqb_neq _ _) H1), (proj2 (String.eqb_neq _ _) H2), H3, H4. cbn [negb].
  unfold readSegmentFile. rewrite H5, Z.eqb_refl. cbn [negb].
  destruct (chunks_of_cuts gear ch chunker_ok (String.list_byte_of_string contents)) as (items & -> & Hcut).
  wp_step. eapply wp_mono; [|apply wp_and; [apply wp_and; [apply touches_wp, put_items_touches; exact cfg_plain|
    apply put_items_plain; [exact cfg_plain|by eapply cuts_are_chunks]]|by eapply (put_items_wp sha256 cfg ch)]].
  intros [[refs|e] c1] s1 [[Hf Hok] (_ & _ & Hrefs)]; [|done]. cbn [fst snd] in *. destruct Hrefs as [_ Hall].
  apply wp_bind, wp_now. intros t _. set (m := segment_manifest _ _ _ _ _ _ _).
  wp_step. eapply wp_mono; [|by apply (verifyRefs_quiet cfg (sm_Chunks m) c1 s1)]. intros r s2 [-> ->].
  wp_step. eapply wp_mono; [|apply (commitStandalone_quiet caps)].
  - by intros r s2 ->.
  - rewrite Hf; [exact Hk|]. by intros [h E].
  - rewrite Hf; [exact Ht|]. by intros [h E].
Qed.
End push_live.

(** ** One megabyte of WAL *)

Definition plain_config : config :=
  {| cas_writer := none_Compressor; cas_registry := {[AlgoNone := none_Compressor]}; cas_encWriter := None;
     cas_encRegistry := ∅; cas_retention := no_retention; cas_retentionUnenforceable := false; cas_hints := None;
     cas_hintFilter := None; cas_seenCap := defaultSeenCacheLimit |}.

Lemma plain_config_new : NewCAS plain_caps [] = Some (plain_config, CAS0 (InMemory ∅)).
Proof. reflexivity. Qed.

Lemma plain_config_plain : plain plain_config.
Proof. by split. Qed.

Definition demo_chunker : Chunker :=
  {| cmin := DefaultMinSize; cavg := DefaultAvgSize; cmax := DefaultMaxSize; maskTight := 2 ^ 18 - 1; maskLoose := 2 ^ 14 - 1 |}.

Lemma demo_chunker_new : NewWithParams DefaultMinSize DefaultAvgSize DefaultMaxSize = Some demo_chunker.
Proof. reflexivity. Qed.

Definition mib_options : Options :=
  {| o_Deployment := "db1"; o_Timeline := 1; o_SystemIdentifier := "7000"; o_SegmentSize := MinSegmentSize;
     o_WORM := None; o_Encryption := None |}.

Section one_segment.
Context (data : list byte) (Hlen : len data = MinSegmentSize).
Definition demo_stream : list XLogRecord := [rec_at (3 * MinSegmentSize) data].

Lemma demo_stream_len : len (stream demo_stream) = MinSegmentSize.
Proof. unfold stream. simpl. by rewrite app_nil_r. Qed.

Lemma demo_stream_range : Forall in_range demo_stream.
Proof. apply Forall_singleton. unfold in_range. cbn [WALStart Data rec_at]. by rewrite Hlen. Qed.

Lemma demo_stream_start : start_of demo_stream = 3 * MinSegmentSize.
Proof. unfold demo_stream. cbn [start_of WALStart Data rec_at]. by rewrite Hlen. Qed.

Lemma demo_stream_placed : well_placed MinSegmentSize (3 * MinSegmentSize) demo_stream.
Proof.
  unfold well_placed. rewrite demo_stream_start. split; [done|]. split; [done|]. by split.
Qed.

(** The megabyte is one segment in the queue. *)
Lemma demo_stream_queue : exists sink sink' j, NewSink demo_sink_options = Some sink /\
  segSize sink = MinSegmentSize /\ feed sink demo_stream = (sink', None) /\ pending sink' = [j].
Proof.
  destruct (NewSink demo_sink_options) as [sink|] eqn:Es; [|discriminate].
  pose proof (NewSink_fed demo_sink_options sink ltac:(vm_compute; discriminate) Es) as Hf.
  pose proof (feed_fed MinSegmentSize (3 * MinSegmentSize) demo_stream [] sink ltac:(vm_compute; discriminate) Hf demo_stream_range) as H.
  destruct (feed sink demo_stream) as [sink' e] eqn:Ef. cbn [app] in H.
  destruct H as (ok & left & Hs & (s2 & [F1 F2 [F3 _] _ _] & Hp & _) & Hm).
  destruct ok as [|r ok], left as [|r' left]; try done.
  - destruct e; [|done]. destruct Hm as [Hm _]. injection Hs as <- _. exfalso. apply Hm, demo_stream_placed.
  - rewrite app_nil_r in Hs. rewrite <- Hs in *. destruct e; [done|].
    exists sink, sink'. destruct F2 as [G1 G2 G3 G4 G5 G6]. rewrite <- Hp in *.
    pose proof (jobs_bytes _ _ _ G4) as Hl. apply (f_equal len) in G5. rewrite len_app, demo_stream_len, Hl, F3 in G5.
    change (NormSegmentSize (so_SegmentSize demo_sink_options)) with MinSegmentSize in *.
    assert (0 <= len (partial s2) < MinSegmentSize) as Hpart.
    { unfold partial. split; [apply len_nonneg|]. rewrite F3 in G6. destruct (haveSeg s2); [|done]. by apply G6. }
    pose proof (len_nonneg (pending sink')). assert (0 < MinSegmentSize) by done.
    assert (len (pending sink') = 1) as H1 by nia. unfold len in H1.
    destruct (pending sink') as [|j [|j' l]]; simpl in H1; try lia. exists j. split_and!; try done. apply Hf.
  - exfalso. apply (f_equal length) in Hs. rewrite length_app in Hs. simpl in Hs. lia.
Qed.
End one_segment.

Definition calm_archive : nat -> decision := fun i =>
  {| d_fault := Normal; d_time := Z.of_nat i + 1; d_order := fun l => l; d_order_perm := fun l => Permutation_refl l;
     d_listed := 0 |}.


(** A storm: the third call fails after its effect. *)
Definition stormy_archive : nat -> decision := fun i =>
  {| d_fault := if (i =? 2)%nat then Lost 1 else Normal; d_time := Z.of_nat i + 1; d_order := fun l => l;
     d_order_perm := fun l => Permutation_refl l; d_listed := 0 |}.

Lemma acknowledged_wal_is_archived_witness : exists data sink sink' j,
  NewSink demo_sink_options = Some sink /\ feed sink (demo_stream data) = (sink', None) /\ pending sink' = [j] /\
  let '(st, s') := run stormy_archive 0 (run_processor (CS := demo_segment_codec) (CR := demo_run_codec)
      (CP := demo_pin_codec) demo_digest plain_config sample_gear demo_chunker plain_caps (fun _ => demo_draws)
      mib_options (idle_processor (CAS0 (InMemory ∅))) [Segment j true; FlushRequest]) ∅ in
  exists done, concat (map sj_buf done) `prefix_of` data /\
    Forall (archived (CS := demo_segment_codec) demo_digest mib_options s') done /\ (pr_err st = None -> done = [j]).
Proof.
  exists (repeat x41 (Z.to_nat MinSegmentSize)).
  assert (len (repeat x41 (Z.to_nat MinSegmentSize)) = MinSegmentSize) as Hlen
    by (unfold len; rewrite repeat_length; apply Z2Nat.id; discriminate).
  revert Hlen. generalize (repeat x41 (Z.to_nat MinSegmentSize)). intros data Hlen.
  destruct (demo_stream_queue data Hlen) as (sink & sink' & j & Hs & Hsize & Hf & Hq). exists sink, sink', j.
  split; [exact Hs|]. split; [exact Hf|]. split; [exact Hq|].
  pose proof (acknowledged_wal_is_archived (CS := demo_segment_codec) (CR := demo_run_codec) (CP := demo_pin_codec)
    demo_digest plain_caps [] plain_config (CAS0 (InMemory ∅)) sample_gear DefaultMinSize DefaultAvgSize DefaultMaxSize
    demo_chunker (fun _ => demo_draws) demo_sink_options mib_options sink sink' (demo_stream data) None
    [Segment j true; FlushRequest] [] stormy_archive ∅ plain_config_new I demo_chunker_new
    ltac:(vm_compute; discriminate) Hs ltac:(vm_compute; discriminate) (eq_sym Hsize) (demo_stream_range data Hlen) Hf Hq)
    as H.
  destruct (run stormy_archive 0 _ ∅) as [st s']. destruct H as (done & _ & H2 & _ & H4 & H5). exists done.
  unfold stream in H2. cbn [demo_stream map concat rec_at Data] in H2. rewrite app_nil_r in H2. by split_and!.
Defined.

Lemma push_archives_witness : exists contents m c s',
  run calm_archive 0 (PushSegmentFile (CS := demo_segment_codec) demo_digest plain_config sample_gear demo_chunker
    plain_caps mib_options demo_draws "000000010000000000000003" contents (CAS0 (InMemory ∅))) ∅ = ((Ok m, c), s') /\
  archived_at (H := demo_segment_codec) demo_digest (SegmentPath "db1" 1 "000000010000000000000003") "7000"
    (String.list_byte_of_string contents) s'.
Proof.
  exists (filler (Z.to_nat MinSegmentSize)).
  assert (size_of (filler (Z.to_nat MinSegmentSize)) = MinSegmentSize) as Hsize
    by (rewrite filler_size; apply Z2Nat.id; discriminate).
  revert Hsize. generalize (filler (Z.to_nat MinSegmentSize)). intros contents Hsize.
  pose proof (wp_run healthy _ _ ∅ calm_archive 0 (fun _ => eq_refl) (PushSegmentFile_quiet (CS := demo_segment_codec)
    demo_digest plain_config sample_gear demo_chunker plain_caps plain_config_plain I
    ltac:(split; [by eapply NewWithParams_valid, demo_chunker_new|vm_compute; discriminate]) mib_options demo_draws
    "000000010000000000000003" contents (CAS0 (InMemory ∅)) 1 3 ∅ ltac:(discriminate) ltac:(discriminate) eq_refl eq_refl
    Hsize (NewCAS_ok _ _ _ _ ∅ plain_config_new) (lookup_empty _) (lookup_empty _))) as Hok.
  pose proof (push_archives (CS := demo_segment_codec) demo_digest plain_caps [] plain_config (CAS0 (InMemory ∅))
    sample_gear DefaultMinSize DefaultAvgSize DefaultMaxSize demo_chunker mib_options demo_draws
    "000000010000000000000003" contents calm_archive ∅ plain_config_new I demo_chunker_new
    ltac:(vm_compute; discriminate)) as H.
  destruct (run calm_archive 0 _ ∅) as [[r c] s']. destruct r as [m|e]; [|discriminate].
  exists m, c, s'. split; [reflexivity|]. destruct (proj2 H m eq_refl) as (tli & n & Hn & _ & Ha).
  assert (tli = 1) as -> by (change (Some (1, 3) = Some (tli, n)) in Hn; congruence). exact Ha.
Defined.
