(* ===== verification/BackupManifest.v ===== *)
(** The backup manifest (internal/backup/manifest.go): its data and what [Validate] accepts.

    Times, the LSN text and the hashes are those of the other files; a [json.RawMessage] and the
    stream a manifest may be read through belong to [ManifestRead].  Lengths and offsets are
    [int64] and their sums wrap around as the code's do. *)
From S2P Require Import Prelude GoString Lsn Hash.
From Stdlib Require Import Ascii.

Local Open Scope string_scope.
Local Open Scope list_scope.
Local Open Scope Z_scope.
#[local] Arguments String.append : simpl nomatch.

(** ** Data *)

Definition Schema : string := "pg_hardstorage.manifest.v1".

Definition BackupTypeFull : string := "full".
Definition BackupTypeIncremental : string := "incremental_lsn".
Definition BackupTypeSnapshot : string := "snapshot".

Record ChunkRef := { cr_Hash : Hash; cr_Offset : Z; cr_Len : Z }.

Record FileEntry := {
  fe_Path : string;
  fe_Size : Z;
  fe_Mode : Z;
  fe_ModTime : time;
  fe_TablespaceOID : Z;
  fe_Chunks : list ChunkRef
}.

Record DirEntry := { de_Path : string; de_Mode : Z; de_TablespaceOID : Z }.

Record EncryptionInfo := {
  ei_Scheme : string;
  ei_KEKRef : string;
  ei_WrappedDEK : string;
  ei_EnvelopeVersion : Z
}.

Record SourceTDEInfo := { tde_Engine : string; tde_KeyRef : string }.

Record Tablespace := { ts_OID : Z; ts_Location : string }.

Record WALGap := {
  mg_SlotName : string;
  mg_SlotRole : string;
  mg_Timeline : Z;
  mg_GapStartLSN : string;
  mg_GapEndLSN : string;
  mg_GapBytes : Z;
  mg_DetectedAt : time
}.

Record Attestation := { at_Scheme : string; at_PublicKey : string; at_Signature : string }.

Record Manifest := {
  m_Schema : string;
  m_BackupID : string;
  m_Deployment : string;
  m_Tenant : string;
  m_Type : string;
  m_ParentBackupID : string;
  m_PGVersion : Z;
  m_SystemIdentifier : string;
  m_StartLSN : string;
  m_StopLSN : string;
  m_Timeline : Z;
  m_StartedAt : time;
  m_StoppedAt : time;
  m_Compression : string;
  m_Encryption : option EncryptionInfo;
  m_SourceTDE : option SourceTDEInfo;
  m_Tablespaces : list Tablespace;
  m_Files : list FileEntry;
  m_Dirs : list DirEntry;
  m_WALRequired : list string;
  m_BackupLabel : string;
  m_TablespaceMap : string;
  m_PGBackupManifest : string;
  m_WALGaps : list WALGap;
  m_Attestation : option Attestation
}.

#[export] Instance ChunkRef_eq_dec : EqDecision ChunkRef.
Proof. solve_decision. Defined.
#[export] Instance FileEntry_eq_dec : EqDecision FileEntry.
Proof. solve_decision. Defined.
#[export] Instance DirEntry_eq_dec : EqDecision DirEntry.
Proof. solve_decision. Defined.
#[export] Instance EncryptionInfo_eq_dec : EqDecision EncryptionInfo.
Proof. solve_decision. Defined.
#[export] Instance SourceTDEInfo_eq_dec : EqDecision SourceTDEInfo.
Proof. solve_decision. Defined.
#[export] Instance Tablespace_eq_dec : EqDecision Tablespace.
Proof. solve_decision. Defined.
#[export] Instance WALGap_eq_dec : EqDecision WALGap.
Proof. solve_decision. Defined.
#[export] Instance Attestation_eq_dec : EqDecision Attestation.
Proof. solve_decision. Defined.
#[export] Instance Manifest_eq_dec : EqDecision Manifest.
Proof. solve_decision. Defined.

(** ** Paths *)

(** The stack of [path.Clean] on a path that is not absolute, innermost element first. *)
Definition clean_step (st : list string) (c : string) : list string :=
  if String.eqb c "" || String.eqb c "." then st
  else if String.eqb c ".." then
    match st with
    | [] => [".."]
    | d :: st' => if String.eqb d ".." then ".." :: st else st'
    end
  else c :: st.

Definition clean_stack (p : string) : list string := foldl clean_step [] (SplitByte p slash).

(** [path.Clean] on a path that is not absolute. *)
Definition path_Clean (p : string) : string :=
  match clean_stack p with
  | [] => "."
  | st => Join (rev st) "/"
  end.

Definition path_IsAbs (p : string) : bool := HasPrefix p "/".

Definition NUL : ascii := Ascii.ascii_of_N 0.
Definition backslash : ascii := Ascii.ascii_of_N 92.

Definition ContainsByte (s : string) (c : ascii) : bool :=
  match CutByte s c with Some _ => true | None => false end.

Inductive path_err := PathNUL | PathBackslash | PathAbsolute | PathEscapes.

Definition safeManifestPath (p : string) : option path_err :=
  if ContainsByte p NUL then Some PathNUL
  else if ContainsByte p backslash then Some PathBackslash
  else if path_IsAbs p then Some PathAbsolute
  else
    let clean := path_Clean p in
    if String.eqb clean ".." || HasPrefix clean "../" then Some PathEscapes else None.

(** ** Validation *)

Inductive invalid :=
| InvSchema | InvBackupID | InvDeployment | InvPGVersion | InvSystemIdentifier | InvLSNs
| InvStopBeforeStart | InvParentOnFull | InvNoParent | InvSelfParent | InvNoType | InvUnknownType
| InvTimeline | InvNoLabel | InvNoTablespaces
| InvEmptyPath | InvPath (e : path_err) | InvSize | InvZeroHash | InvChunkLen | InvChunkOffset
| InvChunkSum | InvDuplicateFile
| InvDirEmptyPath | InvDirPath (e : path_err) | InvDuplicateDir | InvDirIsFile
| InvEncScheme | InvEncKEK | InvEncDEK | InvEncBase64 | InvEncNoKey | InvEncVersion
| InvStream.

Definition fileIdentity (f : FileEntry) : string :=
  FormatUint (fe_TablespaceOID f) +:+ String NUL (fe_Path f).

Definition dirIdentity (d : DirEntry) : string :=
  FormatUint (de_TablespaceOID d) +:+ String NUL (de_Path d).

(** The chunk loop of [validateFileEntry]: the next offset and the sum of the lengths. *)
Fixpoint check_chunks (refs : list ChunkRef) (nextOff chunkSum : Z) : invalid + Z :=
  match refs with
  | [] => inr chunkSum
  | ref :: refs =>
      if Hash_IsZero (cr_Hash ref) then inl InvZeroHash
      else if cr_Len ref <=? 0 then inl InvChunkLen
      else if negb (cr_Offset ref =? nextOff) then inl InvChunkOffset
      else check_chunks refs (i64 (nextOff + cr_Len ref)) (i64 (chunkSum + cr_Len ref))
  end.

Definition validateFileEntry (f : FileEntry) : option invalid :=
  if String.eqb (fe_Path f) "" then Some InvEmptyPath
  else match safeManifestPath (fe_Path f) with
  | Some e => Some (InvPath e)
  | None =>
      if fe_Size f <? 0 then Some InvSize
      else match check_chunks (fe_Chunks f) 0 0 with
           | inl e => Some e
           | inr chunkSum => if negb (chunkSum =? fe_Size f) then Some InvChunkSum else None
           end
  end.

(** [base64.StdEncoding.DecodeString]: line breaks are skipped, the last group is padded. *)
Definition base64_digit (c : ascii) : option Z :=
  let b := byte_of c in
  if (65 <=? b) && (b <=? 90) then Some (b - 65)
  else if (97 <=? b) && (b <=? 122) then Some (b - 71)
  else if (48 <=? b) && (b <=? 57) then Some (b + 4)
  else if b =? 43 then Some 62
  else if b =? 47 then Some 63
  else None.

Definition chr (b : Z) : ascii := Ascii.ascii_of_N (Z.to_N (b mod 256)).

Fixpoint base64_groups (s : string) : option string :=
  match s with
  | EmptyString => Some ""
  | String a (String b (String c (String d s))) =>
      match base64_digit a, base64_digit b with
      | Some x, Some y =>
          let b1 := chr (x * 4 + y / 16) in
          match base64_digit c, base64_digit d with
          | Some z, Some w =>
              match base64_groups s with
              | Some r => Some (String b1 (String (chr (y * 16 + z / 4)) (String (chr (z * 64 + w)) r)))
              | None => None
              end
          | Some z, None =>
              if Ascii.eqb d "=" && String.eqb s "" then Some (String b1 (String (chr (y * 16 + z / 4)) ""))
              else None
          | None, _ =>
              if Ascii.eqb c "=" && Ascii.eqb d "=" && String.eqb s "" then Some (String b1 "") else None
          end
      | _, _ => None
      end
  | _ => None
  end.

Fixpoint drop_newlines (s : string) : string :=
  match s with
  | EmptyString => EmptyString
  | String c s =>
      if (byte_of c =? 10) || (byte_of c =? 13) then drop_newlines s else String c (drop_newlines s)
  end.

Definition base64_DecodeString (s : string) : option string := base64_groups (drop_newlines s).

(** The directory loop of [validateTail]. *)
Fixpoint check_dirs (hasFile : string -> bool) (seenDir : gset string) (dirs : list DirEntry) : option invalid :=
  match dirs with
  | [] => None
  | d :: dirs =>
      if String.eqb (de_Path d) "" then Some InvDirEmptyPath
      else if bool_decide (dirIdentity d ∈ seenDir) then Some InvDuplicateDir
      else match safeManifestPath (de_Path d) with
      | Some e => Some (InvDirPath e)
      | None =>
          if hasFile (dirIdentity d) then Some InvDirIsFile
          else check_dirs hasFile ({[dirIdentity d]} ∪ seenDir) dirs
      end
  end.

Definition check_encryption (e : EncryptionInfo) : option invalid :=
  if String.eqb (ei_Scheme e) "" then Some InvEncScheme
  else if String.eqb (ei_KEKRef e) "" then Some InvEncKEK
  else if String.eqb (ei_WrappedDEK e) "" then Some InvEncDEK
  else match base64_DecodeString (ei_WrappedDEK e) with
  | None => Some InvEncBase64
  | Some raw =>
      if (String.length raw =? 0)%nat then Some InvEncNoKey
      else if ei_EnvelopeVersion e <? 1 then Some InvEncVersion else None
  end.

Definition validateTail (m : Manifest) (hasFile : string -> bool) : option invalid :=
  match check_dirs hasFile ∅ (m_Dirs m) with
  | Some e => Some e
  | None => match m_Encryption m with Some e => check_encryption e | None => None end
  end.

Section validate.
Context `{L : LSN}.

Definition stop_before_start (m : Manifest) : bool :=
  match ParseLSN (m_StartLSN m), ParseLSN (m_StopLSN m) with
  | Some start, Some stop => stop <? start
  | _, _ => false
  end.

Definition validateHeader (m : Manifest) : option invalid :=
  if negb (String.eqb (m_Schema m) Schema) then Some InvSchema
  else if String.eqb (m_BackupID m) "" then Some InvBackupID
  else if String.eqb (m_Deployment m) "" then Some InvDeployment
  else if m_PGVersion m <=? 0 then Some InvPGVersion
  else if String.eqb (m_SystemIdentifier m) "" then Some InvSystemIdentifier
  else if String.eqb (m_StartLSN m) "" || String.eqb (m_StopLSN m) "" then Some InvLSNs
  else if stop_before_start m then Some InvStopBeforeStart
  else
    let kind :=
      if String.eqb (m_Type m) BackupTypeFull || String.eqb (m_Type m) BackupTypeSnapshot then
        if negb (String.eqb (m_ParentBackupID m) "") then Some InvParentOnFull else None
      else if String.eqb (m_Type m) BackupTypeIncremental then
        if String.eqb (m_ParentBackupID m) "" then Some InvNoParent
        else if String.eqb (m_ParentBackupID m) (m_BackupID m) then Some InvSelfParent else None
      else if String.eqb (m_Type m) "" then Some InvNoType
      else Some InvUnknownType in
    match kind with
    | Some e => Some e
    | None =>
        if m_Timeline m <? 1 then Some InvTimeline
        else if String.eqb (m_BackupLabel m) "" then Some InvNoLabel
        else match m_Tablespaces m with [] => Some InvNoTablespaces | _ => None end
    end.

(** The file loop of [Validate]: the identities seen. *)
Fixpoint check_files (seenFile : gset string) (files : list FileEntry) : invalid + gset string :=
  match files with
  | [] => inr seenFile
  | f :: files =>
      match validateFileEntry f with
      | Some e => inl e
      | None =>
          if bool_decide (fileIdentity f ∈ seenFile) then inl InvDuplicateFile
          else check_files ({[fileIdentity f]} ∪ seenFile) files
      end
  end.

(** [Validate] on a manifest that holds its file list. *)
Definition Validate (m : Manifest) : option invalid :=
  match validateHeader m with
  | Some e => Some e
  | None =>
      match check_files ∅ (m_Files m) with
      | inl e => Some e
      | inr seenFile => validateTail m (fun key => bool_decide (key ∈ seenFile))
      end
  end.
End validate.

(** ** Paths that stay below the root *)

(** The level a component moves to: [..] goes up, an empty component or [.] stays. *)
Definition weight (c : string) : Z :=
  if String.eqb c "" || String.eqb c "." then 0 else if String.eqb c ".." then -1 else 1.

Definition depth (cs : list string) : Z := foldr (fun c d => weight c + d) 0 cs.

(** No prefix of the components climbs above the start. *)
Definition inside (cs : list string) : Prop := forall pre post, cs = pre ++ post -> 0 <= depth pre.

Lemma depth_snoc cs c : depth (cs ++ [c]) = depth cs + weight c.
Proof. unfold depth. induction cs as [|x cs IH]; cbn; lia. Qed.

Lemma inside_snoc cs c : inside (cs ++ [c]) <-> inside cs /\ 0 <= depth (cs ++ [c]).
Proof.
  split.
  - intros H. split; [|apply (H _ []); by rewrite app_nil_r].
    intros pre post ->. apply (H pre (post ++ [c])). by rewrite app_assoc.
  - intros [H Hc] pre post E. destruct post as [|x post _] using rev_ind.
    + rewrite app_nil_r in E. by subst.
    + rewrite app_assoc in E. apply app_inj_tail in E as [-> ->]. by eapply H.
Qed.

Definition no_up (st : list string) : Prop := Forall (fun c => c <> "..") st.

Lemma clean_inside cs : inside cs ->
  no_up (foldl clean_step [] cs) /\ Z.of_nat (length (foldl clean_step [] cs)) = depth cs.
Proof.
  induction cs as [|c cs IH] using rev_ind; intros H; [by split; [constructor|]|].
  apply inside_snoc in H as [H Hd]. rewrite depth_snoc in *. destruct (IH H) as [Hn Hl].
  rewrite foldl_snoc. set (st := foldl clean_step [] cs) in *. unfold clean_step, weight in *.
  destruct (String.eqb c "" || String.eqb c "."); [split; [done|lia]|].
  destruct (String.eqb_spec c "..") as [->|Hc].
  - destruct st as [|d st]; cbn [length] in *; [lia|]. inversion Hn as [|? ? Hne Hn']; subst.
    destruct (String.eqb_spec d ".."); [done|]. split; [done|lia].
  - split; [by constructor|]. cbn [length]. lia.
Qed.

Lemma last_step st c : last st = Some ".." -> last (clean_step st c) = Some "..".
Proof.
  intros H. unfold clean_step. destruct (_ || _); [done|].
  destruct st as [|d st]; [done|]. destruct (String.eqb c ".."); [|done].
  destruct (String.eqb_spec d ".."); [done|]. destruct st; [cbn in H; congruence|done].
Qed.

Lemma clean_outside cs : ~ inside cs -> last (foldl clean_step [] cs) = Some "..".
Proof.
  induction cs as [|c cs IH] using rev_ind; intros H.
  - exfalso. apply H. intros pre post E. by destruct pre.
  - rewrite foldl_snoc. destruct (decide (0 <= depth (cs ++ [c]))) as [Hd|Hd].
    + apply last_step, IH. intros Hi. apply H. by apply inside_snoc.
    + destruct (decide (last (foldl clean_step [] cs) = Some "..")) as [Hl|Hl]; [by apply last_step|].
      assert (inside cs) as Hi.
      { intros pre post ->. destruct (decide (0 <= depth pre)); [done|]. exfalso. apply Hl, IH. intros Hi. by specialize (Hi pre post eq_refl). }
      destruct (clean_inside cs Hi) as [Hn Hlen]. specialize (Hi cs [] ltac:(by rewrite app_nil_r)).
      rewrite depth_snoc in Hd. set (st := foldl clean_step [] cs) in *. unfold clean_step, weight in *.
      destruct (_ || _); [lia|]. destruct (String.eqb_spec c ".."); [|lia].
      destruct st; [done|]. cbn [length] in Hlen. lia.
Qed.

Lemma SplitByte_no_sep s c x : x ∈ SplitByte s c -> CutByte x c = None.
Proof.
  revert x. induction s as [|a s IH]; cbn; intros x.
  - intros ->%list_elem_of_singleton. done.
  - destruct (Ascii.eqb_spec a c) as [->|Ha].
    + intros [->|Hx]%elem_of_cons; [done|auto].
    + destruct (SplitByte s c) as [|y l] eqn:E.
      * intros ->%list_elem_of_singleton. cbn. by destruct (Ascii.eqb_spec a c).
      * intros [->|Hx]%elem_of_cons.
        -- cbn. destruct (Ascii.eqb_spec a c); [done|]. by rewrite (IH y ltac:(left)).
        -- apply IH. by right.
Qed.

Lemma clean_step_elem st c x : x ∈ clean_step st c -> x ∈ st \/ x = c.
Proof.
  unfold clean_step. destruct (_ || _); [auto|]. destruct (String.eqb_spec c "..") as [->|].
  - destruct st as [|d st]; [intros ->%list_elem_of_singleton; auto|].
    destruct (String.eqb d ".."); [intros [->|]%elem_of_cons; auto|left; by right].
  - intros [->|]%elem_of_cons; auto.
Qed.

Lemma clean_stack_elem cs x : x ∈ foldl clean_step [] cs -> x ∈ cs.
Proof.
  induction cs as [|c cs IH] using rev_ind; [done|]. rewrite foldl_snoc.
  intros [Hx| ->]%clean_step_elem; apply elem_of_app; [left; auto|right; left].
Qed.

(** A cleaned path leaves its start exactly when its first element is [..]. *)
Lemma Join_head_up x l : CutByte x slash = None ->
  String.eqb (Join (x :: l) "/") ".." || HasPrefix (Join (x :: l) "/") "../" = String.eqb x "..".
Proof.
  destruct l as [|y l].
  - cbn [Join]. destruct (String.eqb_spec x ".."); [done|]. cbn [orb].
    destruct (HasPrefix x "../") eqn:E; [|done]. by apply HasPrefix_inv in E as (t & ->).
  - rewrite Join_cons by done. set (t := Join (y :: l) "/").
    destruct x as [|a [|b [|c x]]]; cbn [String.append String.eqb HasPrefix].
    + done.
    + by destruct (Ascii.eqb a "."), (Ascii.eqb "." a).
    + rewrite (Ascii.eqb_sym "." a), (Ascii.eqb_sym "." b). assert (HasPrefix t "" = true) as -> by (by destruct t). by destruct (Ascii.eqb a "."), (Ascii.eqb b ".").
    + intros Hx. assert (Ascii.eqb "/" c = false) as E.
      { cbn [CutByte] in Hx. rewrite Ascii.eqb_sym. destruct (Ascii.eqb a slash), (Ascii.eqb b slash); try done.
        by destruct (Ascii.eqb c slash) eqn:E. }
      rewrite E. by destruct (Ascii.eqb a "."), (Ascii.eqb b "."), (Ascii.eqb "." a), (Ascii.eqb "." b).
Qed.

(** A path [safeManifestPath] lets through. *)
Definition safe_path (p : string) : Prop :=
  CutByte p NUL = None /\ CutByte p backslash = None /\ HasPrefix p "/" = false /\ inside (SplitByte p slash).

Lemma escapes_outside p :
  String.eqb (path_Clean p) ".." || HasPrefix (path_Clean p) "../" = true <-> ~ inside (SplitByte p slash).
Proof.
  unfold path_Clean, clean_stack. set (cs := SplitByte p slash). split.
  - intros H Hi. destruct (clean_inside cs Hi) as [Hn _].
    destruct (foldl clean_step [] cs) as [|d st] eqn:E; [done|].
    destruct (rev (d :: st)) as [|x l] eqn:Er; [by apply (f_equal length) in Er; rewrite length_rev in Er|].
    assert (x ∈ d :: st) as Hx by (rewrite <- (rev_involutive (d :: st)), Er; apply list_elem_of_In, in_rev; rewrite rev_involutive; by left).
    rewrite Join_head_up in H.
    + apply String.eqb_eq in H. subst. unfold no_up in Hn. rewrite Forall_forall in Hn. by apply (Hn "..").
    + eapply SplitByte_no_sep, (clean_stack_elem cs). by rewrite E.
  - intros H. apply clean_outside in H. apply last_Some in H as [st E]. rewrite E.
    destruct (st ++ [".."]) as [|d l] eqn:Es; [by destruct st|]. rewrite <- Es, rev_app_distr. cbn [rev app].
    by rewrite Join_head_up.
Qed.

Lemma safeManifestPath_None p : safeManifestPath p = None <-> safe_path p.
Proof.
  unfold safeManifestPath, safe_path, ContainsByte, path_IsAbs. pose proof (escapes_outside p) as He.
  destruct (CutByte p NUL); [naive_solver|]. destruct (CutByte p backslash); [naive_solver|].
  destruct (HasPrefix p "/"); [naive_solver|]. destruct (_ || _); [naive_solver|].
  split; [|done]. intros _. split_and!; try done. intros pre post E.
  destruct (decide (0 <= depth pre)); [done|]. exfalso.
  enough (false = true) by done. apply He. intros Hi. by specialize (Hi pre post E).
Qed.

(** ** Files *)

Definition sum_len (refs : list ChunkRef) : Z := foldr (fun r n => cr_Len r + n) 0 refs.

(** The chunks are non-empty, named, and each starts where the [int64] sum of the lengths before
    it says. *)
Definition chunks_chain (refs : list ChunkRef) : Prop :=
  forall pre r post, refs = pre ++ r :: post ->
    Hash_IsZero (cr_Hash r) = false /\ 0 < cr_Len r /\ cr_Offset r = i64 (sum_len pre).

Lemma i64_add a b : i64 (i64 a + b) = i64 (a + b).
Proof.
  unfold i64. f_equal.
  replace ((a + 2 ^ 63) mod 2 ^ 64 - 2 ^ 63 + b + 2 ^ 63) with ((a + 2 ^ 63) mod 2 ^ 64 + b) by lia.
  rewrite Zplus_mod_idemp_l. f_equal. lia.
Qed.

Lemma check_chunks_spec refs : forall n out,
  check_chunks refs (i64 n) (i64 n) = inr out <->
  (forall pre r post, refs = pre ++ r :: post ->
    Hash_IsZero (cr_Hash r) = false /\ 0 < cr_Len r /\ cr_Offset r = i64 (n + sum_len pre)) /\
  out = i64 (n + sum_len refs).
Proof.
  induction refs as [|r refs IH]; intros n out; cbn [check_chunks].
  - cbn. rewrite Z.add_0_r. split; [|by intros [_ ->]]. intros [= <-]. split; [|done]. by intros [|??] ??.
  - destruct (Hash_IsZero (cr_Hash r)) eqn:Hz.
    { split; [done|]. intros [H _]. destruct (H [] r refs eq_refl). congruence. }
    destruct (cr_Len r <=? 0) eqn:Hl.
    { split; [done|]. intros [H _]. destruct (H [] r refs eq_refl) as (_ & ? & _). apply Z.leb_le in Hl. lia. }
    destruct (cr_Offset r =? i64 n) eqn:Ho; cbn [negb].
    2: { split; [done|]. intros [H _]. destruct (H [] r refs eq_refl) as (_ & _ & E). cbn in E.
         rewrite Z.add_0_r in E. apply Z.eqb_neq in Ho. done. }
    apply Z.eqb_eq in Ho. apply Z.leb_gt in Hl. rewrite i64_add, IH. cbn [sum_len foldr].
    split; intros [H ->]; (split; [|by rewrite Z.add_assoc]).
    + intros [|x pre] r' post [= -> ->]; [by rewrite Z.add_0_r|]. cbn [sum_len foldr]. rewrite Z.add_assoc. by eapply H.
    + intros pre r' post ->. rewrite <- Z.add_assoc. by apply (H (r :: pre) r' post).
Qed.

Definition wf_file (f : FileEntry) : Prop :=
  fe_Path f <> "" /\ safe_path (fe_Path f) /\ 0 <= fe_Size f /\
  chunks_chain (fe_Chunks f) /\ fe_Size f = i64 (sum_len (fe_Chunks f)).

Lemma validateFileEntry_None f : validateFileEntry f = None <-> wf_file f.
Proof.
  unfold validateFileEntry, wf_file. rewrite <- safeManifestPath_None.
  destruct (String.eqb_spec (fe_Path f) ""); [naive_solver|].
  destruct (safeManifestPath (fe_Path f)); [naive_solver|].
  destruct (fe_Size f <? 0) eqn:Hs; [apply Z.ltb_lt in Hs; split; [done|]; intros (_ & _ & ? & _); lia|].
  apply Z.ltb_ge in Hs. pose proof (check_chunks_spec (fe_Chunks f) 0) as H. change (i64 0) with 0 in H.
  destruct (check_chunks (fe_Chunks f) 0 0) as [e|out].
  - split; [done|]. intros (_ & _ & _ & Hc & _). exfalso. enough (@inl invalid Z e = inr (i64 (0 + sum_len (fe_Chunks f)))) by done.
    by apply H.
  - destruct (proj1 (H out) eq_refl) as [Hc ->]. change (0 + sum_len (fe_Chunks f)) with (sum_len (fe_Chunks f)).
    destruct (Z.eqb_spec (i64 (sum_len (fe_Chunks f))) (fe_Size f)); cbn [negb].
    + split; [|done]. intros _. by split_and!.
    + split; [done|]. intros (_ & _ & _ & _ & E). by symmetry in E.
Qed.

Lemma CutByte_digits s c : all_chars isDigit s = true -> isDigit c = false -> CutByte s c = None.
Proof.
  intros Hs Hc. induction s as [|a s IH]; [done|]. cbn in *. apply andb_true_iff in Hs as [Ha Hs].
  destruct (Ascii.eqb_spec a c); [congruence|]. by rewrite IH.
Qed.

(** The identity of an entry is its tablespace and its path. *)
Lemma identity_inj a b p q : 0 <= a -> 0 <= b ->
  FormatUint a +:+ String NUL p = FormatUint b +:+ String NUL q -> a = b /\ p = q.
Proof.
  intros Ha Hb E. assert (forall n, 0 <= n -> CutByte (FormatUint n) NUL = None) as Hn
    by (intros n Hp; apply CutByte_digits; [by apply FormatUint_digits|done]).
  pose proof (f_equal (fun s => CutByte s NUL) E) as Ec. cbn beta in Ec.
  rewrite !CutByte_None_app in Ec by auto. injection Ec as Ef ->. rewrite !string_app_nil_r in Ef. split; [|done]. by apply FormatUint_inj.
Qed.

Definition file_id (f : FileEntry) : Z * string := (fe_TablespaceOID f, fe_Path f).
Definition dir_id (d : DirEntry) : Z * string := (de_TablespaceOID d, de_Path d).

Definition identity (i : Z * string) : string := FormatUint i.1 +:+ String NUL i.2.

Lemma identity_eq i j : 0 <= i.1 -> 0 <= j.1 -> identity i = identity j -> i = j.
Proof. intros Hi Hj H. destruct i, j. destruct (identity_inj _ _ _ _ Hi Hj H). cbn in *. by subst. Qed.

(** The loop over entries with their seen identities accepts lists without repetition. *)
Lemma NoDup_seen {A} (key : A -> string) (l : list A) : forall (seen : gset string),
  (NoDup (map key l) /\ (forall x, x ∈ l -> key x ∉ seen)) <->
  match l with
  | [] => True
  | x :: l => (key x ∉ seen) /\ NoDup (map key l) /\ (forall y, y ∈ l -> key y ∉ {[key x]} ∪ seen)
  end.
Proof.
  intros seen. destruct l as [|x l]; [split; [done|]; intros _; split; [constructor|]; intros y Hy; inversion Hy|].
  cbn [map]. rewrite NoDup_cons. setoid_rewrite elem_of_cons. setoid_rewrite list_elem_of_fmap. set_solver.
Qed.

Lemma check_files_spec files : forall seen out, check_files seen files = inr out <->
  Forall wf_file files /\ (NoDup (map fileIdentity files) /\ forall f, f ∈ files -> fileIdentity f ∉ seen) /\
  out = list_to_set (map fileIdentity files) ∪ seen.
Proof.
  induction files as [|f files IH]; intros seen out; cbn [check_files].
  - split.
    + intros [= <-]. split_and!; [constructor|constructor|intros f Hf; inversion Hf|set_solver].
    + intros (_ & _ & ->). f_equal. set_solver.
  - rewrite (NoDup_seen fileIdentity (f :: files)). rewrite Forall_cons, <- validateFileEntry_None.
    destruct (validateFileEntry f); [split; [done|by intros [[? _] _]]|].
    destruct (bool_decide_reflect (fileIdentity f ∈ seen)); [split; [done|by intros (_ & [? _] & _)]|].
    rewrite IH. cbn [map list_to_set]. set (L := list_to_set (map fileIdentity files)).
    replace (L ∪ ({[fileIdentity f]} ∪ seen)) with ({[fileIdentity f]} ∪ L ∪ seen) by set_solver. tauto.
Qed.

Definition wf_dir (d : DirEntry) : Prop := de_Path d <> "" /\ safe_path (de_Path d).

Lemma check_dirs_spec hasFile dirs : forall seen, check_dirs hasFile seen dirs = None <->
  Forall wf_dir dirs /\ (NoDup (map dirIdentity dirs) /\ forall d, d ∈ dirs -> dirIdentity d ∉ seen) /\
  Forall (fun d => hasFile (dirIdentity d) = false) dirs.
Proof.
  induction dirs as [|d dirs IH]; intros seen; cbn [check_dirs].
  - split; [|done]. intros _. split_and!; try constructor. intros d Hd. inversion Hd.
  - rewrite (NoDup_seen dirIdentity (d :: dirs)), !Forall_cons. unfold wf_dir at 1. rewrite <- safeManifestPath_None.
    destruct (String.eqb_spec (de_Path d) ""); [split; [done|]; by intros ([[? _] _] & _)|].
    destruct (bool_decide_reflect (dirIdentity d ∈ seen)); [split; [done|by intros (_ & [? _] & _)]|].
    destruct (safeManifestPath (de_Path d)); [split; [done|by intros ([[_ ?] _] & _)]|].
    destruct (hasFile (dirIdentity d)); [split; [done|by intros (_ & _ & [? _])]|].
    rewrite IH. tauto.
Qed.

Definition wf_encryption (e : EncryptionInfo) : Prop :=
  ei_Scheme e <> "" /\ ei_KEKRef e <> "" /\ ei_WrappedDEK e <> "" /\ 1 <= ei_EnvelopeVersion e /\
  exists raw, base64_DecodeString (ei_WrappedDEK e) = Some raw /\ raw <> "".

Lemma check_encryption_None e : check_encryption e = None <-> wf_encryption e.
Proof.
  unfold check_encryption, wf_encryption.
  destruct (String.eqb_spec (ei_Scheme e) ""); [naive_solver|].
  destruct (String.eqb_spec (ei_KEKRef e) ""); [naive_solver|].
  destruct (String.eqb_spec (ei_WrappedDEK e) ""); [naive_solver|].
  destruct (base64_DecodeString (ei_WrappedDEK e)) as [raw|]; [|split; [done|by intros (_ & _ & _ & _ & ? & ? & _)]].
  destruct (Nat.eqb_spec (String.length raw) 0) as [Hl|Hl].
  - split; [done|]. intros (_ & _ & _ & _ & r & [= <-] & Hr). by destruct raw.
  - destruct (Z.ltb_spec (ei_EnvelopeVersion e) 1); split; try done.
    + intros (_ & _ & _ & ? & _). lia.
    + intros _. split_and!; try done. exists raw. split; [done|]. by intros ->.
Qed.

Section exact.
Context `{L : LSN}.

(** What the header must say. *)
Definition wf_header (m : Manifest) : Prop :=
  m_Schema m = Schema /\ m_BackupID m <> "" /\ m_Deployment m <> "" /\ 1 <= m_PGVersion m /\
  m_SystemIdentifier m <> "" /\ m_StartLSN m <> "" /\ m_StopLSN m <> "" /\
  (forall start stop, ParseLSN (m_StartLSN m) = Some start -> ParseLSN (m_StopLSN m) = Some stop -> start <= stop) /\
  ((m_Type m = BackupTypeFull \/ m_Type m = BackupTypeSnapshot) /\ m_ParentBackupID m = "" \/
   m_Type m = BackupTypeIncremental /\ m_ParentBackupID m <> "" /\ m_ParentBackupID m <> m_BackupID m) /\
  1 <= m_Timeline m /\ m_BackupLabel m <> "" /\ m_Tablespaces m <> [].

Lemma stop_before_start_false m : stop_before_start m = false <->
  forall start stop, ParseLSN (m_StartLSN m) = Some start -> ParseLSN (m_StopLSN m) = Some stop -> start <= stop.
Proof.
  unfold stop_before_start. destruct (ParseLSN (m_StartLSN m)) as [a|]; [|naive_solver].
  destruct (ParseLSN (m_StopLSN m)) as [b|]; [|naive_solver]. rewrite Z.ltb_ge. naive_solver.
Qed.

(** One guard of a chain of early returns. *)
Lemma guard {A} (b : bool) (e : A) (rest : option A) (P Q : Prop) :
  (b = false <-> P) -> (rest = None <-> Q) -> ((if b then Some e else rest) = None <-> P /\ Q).
Proof. destruct b; naive_solver. Qed.

Lemma eqb_ne a b : String.eqb a b = false <-> a <> b.
Proof. apply String.eqb_neq. Qed.

Lemma ltb_one x : (x <? 1) = false <-> 1 <= x.
Proof. apply Z.ltb_ge. Qed.

Lemma validateHeader_None m : validateHeader m = None <-> wf_header m.
Proof.
  unfold validateHeader, wf_header. cbv zeta.
  apply guard; [destruct (String.eqb_spec (m_Schema m) Schema); naive_solver|].
  apply guard; [apply eqb_ne|]. apply guard; [apply eqb_ne|]. apply guard; [rewrite Z.leb_gt; lia|].
  apply guard; [apply eqb_ne|]. rewrite (and_assoc (m_StartLSN m <> "")).
  apply guard; [rewrite orb_false_iff, !eqb_ne; done|]. apply guard; [apply stop_before_start_false|].
  assert (HT : forall k, (match k with Some e => Some e | None =>
      if m_Timeline m <? 1 then Some InvTimeline
      else if String.eqb (m_BackupLabel m) "" then Some InvNoLabel
      else match m_Tablespaces m with [] => Some InvNoTablespaces | _ => None end end) = None <->
    k = None /\ 1 <= m_Timeline m /\ m_BackupLabel m <> "" /\ m_Tablespaces m <> []).
  { intros [e|]; [naive_solver|]. split; [intros H; split; [done|]; revert H|intros [_ H]; revert H];
      (apply guard; [apply ltb_one|]; apply guard; [apply eqb_ne|]; destruct (m_Tablespaces m); naive_solver). }
  rewrite HT. apply and_iff_compat_r.
  destruct (String.eqb_spec (m_Type m) BackupTypeFull) as [->|]; cbn [orb].
  { destruct (String.eqb_spec (m_ParentBackupID m) ""); cbn [negb]; naive_solver. }
  destruct (String.eqb_spec (m_Type m) BackupTypeSnapshot) as [->|].
  { destruct (String.eqb_spec (m_ParentBackupID m) ""); cbn [negb]; naive_solver. }
  destruct (String.eqb_spec (m_Type m) BackupTypeIncremental) as [->|].
  { destruct (String.eqb_spec (m_ParentBackupID m) ""); [naive_solver|].
    destruct (String.eqb_spec (m_ParentBackupID m) (m_BackupID m)); naive_solver. }
  destruct (String.eqb (m_Type m) ""); naive_solver.
Qed.

(** The fields the statement ranges over hold values of their Go types. *)
Definition typed (m : Manifest) : Prop :=
  Forall (fun f => 0 <= fe_TablespaceOID f < 2 ^ 32) (m_Files m) /\
  Forall (fun d => 0 <= de_TablespaceOID d < 2 ^ 32) (m_Dirs m).

Definition wf_manifest (m : Manifest) : Prop :=
  wf_header m /\
  Forall wf_file (m_Files m) /\ NoDup (map file_id (m_Files m)) /\
  Forall wf_dir (m_Dirs m) /\ NoDup (map dir_id (m_Dirs m)) /\
  (forall f d, f ∈ m_Files m -> d ∈ m_Dirs m -> file_id f <> dir_id d) /\
  (forall e, m_Encryption m = Some e -> wf_encryption e).

Lemma fileIdentity_id f : fileIdentity f = identity (file_id f).
Proof. done. Qed.

Lemma dirIdentity_id d : dirIdentity d = identity (dir_id d).
Proof. done. Qed.

Lemma NoDup_identity {A} (id : A -> Z * string) (l : list A) :
  Forall (fun x => 0 <= (id x).1 < 2 ^ 32) l ->
  (NoDup (map (fun x => identity (id x)) l) <-> NoDup (map id l)).
Proof.
  intros Hl. rewrite <- (map_map id identity). split; [apply NoDup_fmap_1|].
  intros H. induction Hl as [|x l Hx Hl IH]; [constructor|]. cbn [map] in *. rewrite !NoDup_cons in *.
  destruct H as [Hn H]. split; [|auto]. intros (i & Hi & Hin)%list_elem_of_fmap. apply Hn.
  apply list_elem_of_fmap in Hin as (y & -> & Hy). apply list_elem_of_fmap. exists y. split; [|done].
  rewrite Forall_forall in Hl. specialize (Hl y Hy). apply identity_eq; [lia..|done].
Qed.

Lemma validateTail_None m hasFile : validateTail m hasFile = None <->
  Forall wf_dir (m_Dirs m) /\ NoDup (map dirIdentity (m_Dirs m)) /\
  Forall (fun d => hasFile (dirIdentity d) = false) (m_Dirs m) /\
  (forall e, m_Encryption m = Some e -> wf_encryption e).
Proof.
  unfold validateTail. pose proof (check_dirs_spec hasFile (m_Dirs m) ∅) as H.
  destruct (check_dirs hasFile ∅ (m_Dirs m)) as [e|].
  - split; [done|]. intros (H1 & H2 & H3 & _). exfalso. enough (Some e = None) by done. apply H. set_solver.
  - destruct (proj1 H eq_refl) as (H1 & [H2 _] & H3). destruct (m_Encryption m) as [e|]; [|naive_solver].
    rewrite check_encryption_None. naive_solver.
Qed.
End exact.

(** ** Properties *)

(** C14: [Validate] is a type checker: it accepts a manifest exactly when the header's fields are
    there and agree with each other (an incremental names another backup as its parent, the backup
    does not stop before it starts), every file and directory has a path that stays below the
    root, no path is there twice in a tablespace, the chunks of each file are named, non-empty and
    start where the lengths before them say, and the encryption block can be unwrapped. *)
Theorem Validate_exact `{L : LSN} (m : Manifest) : typed m -> Validate m = None <-> wf_manifest m.
Proof.
  intros [Hf Hd]. unfold Validate, wf_manifest. rewrite <- validateHeader_None.
  destruct (validateHeader m); [naive_solver|].
  rewrite <- (NoDup_identity file_id), <- (NoDup_identity dir_id) by done.
  pose proof (check_files_spec (m_Files m) ∅) as H. destruct (check_files ∅ (m_Files m)) as [e|seen].
  - split; [done|]. intros (_ & H1 & H2 & _). exfalso.
    enough (@inl invalid (gset string) e = inr (list_to_set (map fileIdentity (m_Files m)) ∪ ∅)) by done.
    apply H. split_and!; [done|done| |done]. intros f _. apply not_elem_of_empty.
  - destruct (proj1 (H seen) eq_refl) as (H1 & [H2 _] & ->). rewrite validateTail_None.
    assert (HD : Forall (fun d => bool_decide (dirIdentity d ∈@{gset string} list_to_set (map fileIdentity (m_Files m)) ∪ ∅) = false) (m_Dirs m)
                 <-> forall f d, f ∈ m_Files m -> d ∈ m_Dirs m -> file_id f <> dir_id d).
    { rewrite Forall_forall. setoid_rewrite bool_decide_eq_false. split.
      - intros Hn f d Hif Hid E. apply (Hn d Hid), elem_of_union_l, elem_of_list_to_set, list_elem_of_fmap.
        exists f. split; [|done]. by rewrite fileIdentity_id, dirIdentity_id, E.
      - intros Hn d Hid Hin. apply elem_of_union in Hin as [Hin|Hin]; [|by apply not_elem_of_empty in Hin].
        apply elem_of_list_to_set, list_elem_of_fmap in Hin as (f & E & Hif). apply (Hn f d Hif Hid).
        pose proof (proj1 (Forall_forall _ _) Hf f Hif). pose proof (proj1 (Forall_forall _ _) Hd d Hid).
        symmetry. cbn beta in *. by apply identity_eq; [cbn; lia..|]. }
    rewrite HD. naive_solver.
Qed.

(** A tiling: every byte position of the file belongs to exactly one chunk. *)
Definition covers (r : ChunkRef) (b : Z) : Prop := cr_Offset r <= b < cr_Offset r + cr_Len r.

Definition tiles (f : FileEntry) : Prop :=
  (forall r, r ∈ fe_Chunks f -> 0 <= cr_Offset r /\ cr_Offset r + cr_Len r <= fe_Size f) /\
  forall b, 0 <= b < fe_Size f -> exists pre r post, fe_Chunks f = pre ++ r :: post /\ covers r b /\
    forall r', r' ∈ pre ++ post -> ~ covers r' b.

Lemma sum_len_app l k : sum_len (l ++ k) = sum_len l + sum_len k.
Proof. unfold sum_len. induction l as [|r l IH]; cbn; lia. Qed.

Lemma sum_len_nonneg l : (forall r, r ∈ l -> 0 < cr_Len r) -> 0 <= sum_len l.
Proof.
  induction l as [|r l IH]; intros H; cbn; [lia|]. specialize (H r ltac:(left)) as Hr.
  assert (0 <= sum_len l) by (apply IH; intros r' Hr'; apply H; by right). unfold sum_len in *. lia.
Qed.

Lemma covering_chunk l b : (forall r, r ∈ l -> 0 < cr_Len r) -> 0 <= b < sum_len l ->
  exists pre r post, l = pre ++ r :: post /\ sum_len pre <= b < sum_len pre + cr_Len r.
Proof.
  intros Hl. induction l as [|r l IH] using rev_ind; [cbn; lia|]. rewrite sum_len_app. cbn. intros Hb.
  destruct (decide (b < sum_len l)) as [Hlt|Hge].
  - destruct IH as (pre & x & post & -> & H); [intros y Hy; apply Hl, elem_of_app; by left|lia|].
    exists pre, x, (post ++ [r]). by rewrite <- app_assoc.
  - exists l, r, []. split; [done|]. lia.
Qed.

(** C39: the chunks of a validated file whose lengths sum within an [int64] tile it: they lie inside
    it and every byte position is in exactly one of them. *)
Theorem validated_file_tiles (f : FileEntry) :
  validateFileEntry f = None -> sum_len (fe_Chunks f) <= max_int64 -> tiles f.
Proof.
  rewrite validateFileEntry_None. intros (_ & _ & _ & Hc & Hs) Hmax.
  assert (forall r, r ∈ fe_Chunks f -> 0 < cr_Len r) as Hpos
    by (intros r (pre & post & E)%list_elem_of_split; by destruct (Hc pre r post E) as (_ & ? & _)).
  assert (forall pre r post, fe_Chunks f = pre ++ r :: post ->
    cr_Offset r = sum_len pre /\ 0 <= sum_len pre /\ 0 <= sum_len post /\ sum_len pre + cr_Len r + sum_len post = sum_len (fe_Chunks f)) as Ho.
  { intros pre r post E. destruct (Hc pre r post E) as (_ & Hr & ->). rewrite E in Hpos, Hmax |- *.
    rewrite sum_len_app in *. cbn in *.
    assert (0 <= sum_len pre) by (apply sum_len_nonneg; intros; apply Hpos, elem_of_app; auto).
    assert (0 <= sum_len post) by (apply sum_len_nonneg; intros; apply Hpos, elem_of_app; right; by right).
    unfold sum_len in *. rewrite i64_id by (unfold min_int64, max_int64 in *; lia). lia. }
  rewrite i64_id in Hs by (pose proof (sum_len_nonneg _ Hpos); unfold min_int64; lia). split.
  - intros r (pre & post & E)%list_elem_of_split. destruct (Ho _ _ _ E) as (-> & ? & ? & ?). lia.
  - intros b Hb. rewrite Hs in Hb. destruct (covering_chunk _ b Hpos Hb) as (pre & r & post & E & Hr).
    exists pre, r, post. split; [done|]. destruct (Ho _ _ _ E) as (Hoff & _). split; [unfold covers; lia|].
    intros r' [Hp|Hp]%elem_of_app; apply list_elem_of_split in Hp as (p1 & p2 & ->); unfold covers.
    + rewrite <- app_assoc in E. destruct (Ho _ _ _ E) as (-> & _). rewrite sum_len_app in Hr. cbn in Hr.
      assert (0 <= sum_len p2); [|unfold sum_len in *; lia]. apply sum_len_nonneg. intros x Hx. apply Hpos. rewrite E. set_solver.
    + change (r :: p1 ++ r' :: p2) with ((r :: p1) ++ r' :: p2) in E. rewrite app_assoc in E.
      destruct (Ho _ _ _ E) as (-> & _). rewrite sum_len_app. cbn.
      assert (0 <= sum_len p1); [|unfold sum_len in *; lia]. apply sum_len_nonneg. intros x Hx. apply Hpos. rewrite E. set_solver.
Qed.

(** The offsets and the total are [int64] sums without an overflow check: four chunks of [2^62]
    bytes validate as a file of no bytes. *)
Definition oversized_file : FileEntry :=
  {| fe_Path := "base/1"; fe_Size := 0; fe_Mode := 0; fe_ModTime := 0; fe_TablespaceOID := 0;
     fe_Chunks := map (fun o => {| cr_Hash := 1; cr_Offset := o; cr_Len := 2 ^ 62 |}) [0; 2 ^ 62; - 2 ^ 63; - 2 ^ 62] |}.

(** A file entry whose chunk lengths overflow [int64] is accepted with a size they do not have. *)
Theorem oversized_file_validates :
  validateFileEntry oversized_file = None /\ sum_len (fe_Chunks oversized_file) = 2 ^ 64 /\ fe_Size oversized_file = 0 /\
  ~ (forall r, r ∈ fe_Chunks oversized_file -> 0 <= cr_Offset r).
Proof.
  split_and!; [by vm_compute..|]. intros H.
  specialize (H {| cr_Hash := 1; cr_Offset := - 2 ^ 63; cr_Len := 2 ^ 62 |}). cbn in H.
  assert (0 <= - 2 ^ 63); [|lia]. apply H. do 2 right. left.
Qed.

(** ** Witnesses *)

Definition sample_file : FileEntry :=
  {| fe_Path := "base/1/1259"; fe_Size := 12; fe_Mode := 384; fe_ModTime := 5; fe_TablespaceOID := 0;
     fe_Chunks := [{| cr_Hash := 7; cr_Offset := 0; cr_Len := 8 |}; {| cr_Hash := 9; cr_Offset := 8; cr_Len := 4 |}] |}.

Definition sample_manifest : Manifest :=
  {| m_Schema := Schema; m_BackupID := "b2"; m_Deployment := "db1"; m_Tenant := ""; m_Type := BackupTypeIncremental;
     m_ParentBackupID := "b1"; m_PGVersion := 17; m_SystemIdentifier := "7"; m_StartLSN := "0/2000028"; m_StopLSN := "0/2000100";
     m_Timeline := 1; m_StartedAt := 1; m_StoppedAt := 2; m_Compression := ""; 
     m_Encryption := Some {| ei_Scheme := "aes-256-gcm"; ei_KEKRef := "k1"; ei_WrappedDEK := "AQID"; ei_EnvelopeVersion := 1 |};
     m_SourceTDE := None; m_Tablespaces := [{| ts_OID := 0; ts_Location := "" |}]; m_Files := [sample_file];
     m_Dirs := [{| de_Path := "pg_notify"; de_Mode := 448; de_TablespaceOID := 0 |}]; m_WALRequired := [];
     m_BackupLabel := "START WAL LOCATION"; m_TablespaceMap := ""; m_PGBackupManifest := ""; m_WALGaps := [];
     m_Attestation := None |}.

Lemma Validate_exact_witness : typed sample_manifest /\ wf_manifest (L := hex_lsn) sample_manifest.
Proof.
  assert (typed sample_manifest) as T by (split; cbn; repeat (apply Forall_cons_2; [cbn; lia|]); apply Forall_nil_2).
  split; [exact T|]. apply (Validate_exact (L := hex_lsn) sample_manifest T). by vm_compute.
Defined.

Lemma validated_file_tiles_witness : tiles sample_file.
Proof. apply (validated_file_tiles sample_file); [by vm_compute|by vm_compute]. Defined.
