(* ===== verification/ManifestRead.v ===== *)
(** Reading backup manifests (internal/backup/manifest.go, manifest_scan.go, manifest_stream.go, sign.go).

    [tokenize] is the scanner of [encoding/json], [unmarshal_manifest], [unmarshal_header] and
    [unmarshal_file] its struct decoding, [encode_manifest] and [encode_file] its encoding; PEM, X.509
    and Ed25519 are an interface.  The caps on sizes and the temporary file of the canonical form are
    left out: what would be spooled is a string.  A nil list is an empty one. *)
From S2P Require Import Prelude GoString Lsn Hash Json BackupManifest.
From Stdlib Require Import Ascii.

Local Open Scope string_scope.
Local Open Scope list_scope.
Local Open Scope Z_scope.
#[local] Arguments String.append : simpl nomatch.

(** ** Documents with one meaning *)

Definition schema_byte (c : ascii) : bool :=
  let b := byte_of c in
  (97 <=? b) && (b <=? 122) || (48 <=? b) && (b <=? 57) || (b =? 95).

Definition isSchemaKey (key : string) : bool := negb (String.eqb key "") && all_chars schema_byte key.

(** [jsonFoldKey] on the keys that reach it, which are ASCII: letters are raised. *)
Definition raise (c : ascii) : ascii :=
  if (97 <=? byte_of c) && (byte_of c <=? 122) then Ascii.ascii_of_N (Ascii.N_of_ascii c - 32) else c.

Fixpoint jsonFoldKey (key : string) : string :=
  match key with EmptyString => EmptyString | String c s => String (raise c) (jsonFoldKey s) end.

(** What a check of the next value says: clean, with the tokens after it, or the two errors. *)
Inductive dup_result := DupOk (d : list token) | DupMalformed | DupAmbiguous.

(** The loops of [checkNoDupKeys] over an array and over an object; the closing token is read
    without looking at the error. *)
Definition dup_arr (rd : list token -> dup_result) :=
  fix arr (n : nat) (d : list token) : dup_result :=
    match n with
    | O => DupMalformed
    | S n =>
        if More d then match rd d with DupOk d => arr n d | e => e end
        else DupOk (tail d)
    end.

Definition dup_obj (rd : list token -> dup_result) :=
  fix obj (n : nat) (seen : gset string) (d : list token) : dup_result :=
    match n with
    | O => DupMalformed
    | S n =>
        if More d then
          match d with
          | TStr key :: d =>
              if negb (isSchemaKey key) then DupAmbiguous
              else if bool_decide (jsonFoldKey key ∈ seen) then DupAmbiguous
              else match rd d with DupOk d => obj n ({[jsonFoldKey key]} ∪ seen) d | e => e end
          | _ => DupMalformed
          end
        else DupOk (tail d)
    end.

Fixpoint checkNoDupKeys (fuel : nat) (d : list token) : dup_result :=
  match fuel with
  | O => DupMalformed
  | S fuel =>
      match d with
      | [] => DupMalformed
      | TOpenObj :: d => dup_obj (checkNoDupKeys fuel) (S (length d)) ∅ d
      | TOpenArr :: d => dup_arr (checkNoDupKeys fuel) (S (length d)) d
      | _ :: d => DupOk d
      end
  end.

(** Whether [rejectDuplicateKeys] refuses: malformed input is left to the decoder. *)
Definition rejectDuplicateKeys (d : list token) : bool :=
  match checkNoDupKeys (S (length d)) d with DupAmbiguous => true | _ => false end.

(** The documents meant: in every object the keys are lowercase words, all different. *)
Inductive unambiguous : json -> Prop :=
| UA_null : unambiguous JNull
| UA_bool b : unambiguous (JBool b)
| UA_num t : unambiguous (JNum t)
| UA_str s : unambiguous (JStr s)
| UA_arr l : (forall x, x ∈ l -> unambiguous x) -> unambiguous (JArr l)
| UA_obj l : Forall (fun kv => isSchemaKey kv.1 = true) l -> NoDup (map fst l) ->
    (forall k x, (k, x) ∈ l -> unambiguous x) -> unambiguous (JObj l).

Lemma raise_inj c c' : schema_byte c = true -> schema_byte c' = true -> raise c = raise c' -> c = c'.
Proof.
  intros H H' E. destruct c as [[][][][][][][][]]; vm_compute in H; try discriminate H;
    destruct c' as [[][][][][][][][]]; vm_compute in H'; try discriminate H'; vm_compute in E; congruence.
Qed.

(** The check agrees with the definition on one value. *)
Definition dup_agrees (rd : list token -> dup_result) (x : json) : Prop := forall rest,
  rd (tokens x ++ rest) = DupOk rest /\ unambiguous x \/ rd (tokens x ++ rest) = DupAmbiguous /\ ~ unambiguous x.

Lemma dup_arr_elems rd l rest : (forall x, x ∈ l -> dup_agrees rd x) -> forall n, (length l < n)%nat ->
  dup_arr rd n (elems l ++ TCloseArr :: rest) = DupOk rest /\ (forall x, x ∈ l -> unambiguous x) \/
  dup_arr rd n (elems l ++ TCloseArr :: rest) = DupAmbiguous /\ ~ (forall x, x ∈ l -> unambiguous x).
Proof.
  induction l as [|x l IH]; intros Hrd n Hn; (destruct n as [|n]; [lia|]).
  - left. split; [done|]. intros x Hx. inversion Hx.
  - rewrite elems_cons, <- app_assoc. cbn [dup_arr]. rewrite tokens_More. cbn [length] in Hn.
    destruct (Hrd x ltac:(left) (elems l ++ TCloseArr :: rest)) as [[-> Hx]|[-> Hx]].
    + destruct (IH ltac:(intros; apply Hrd; by right) n ltac:(lia)) as [[-> Hl]|[-> Hl]].
      * left. split; [done|]. by intros y [->|Hy]%elem_of_cons; [|auto].
      * right. split; [done|]. intros H. apply Hl. intros y Hy. apply H. by right.
    + right. split; [done|]. intros H. apply Hx, H. left.
Qed.

Lemma jsonFoldKey_inj k k' : isSchemaKey k = true -> isSchemaKey k' = true -> jsonFoldKey k = jsonFoldKey k' -> k = k'.
Proof.
  intros [_ H]%andb_true_iff [_ H']%andb_true_iff. revert k' H'.
  induction k as [|c k IH]; intros [|c' k'] H'; try done. cbn in H, H'. apply andb_true_iff in H as [Hc H].
  apply andb_true_iff in H' as [Hc' H']. cbn. intros [= E Ek]. f_equal; [by apply raise_inj|by apply IH].
Qed.

(** The fields of an object, after some that were seen. *)
Definition fields_unambiguous (seen : gset string) (l : list (string * json)) : Prop :=
  Forall (fun kv => isSchemaKey kv.1 = true) l /\ NoDup (map (fun kv => jsonFoldKey kv.1) l) /\
  (forall kv, kv ∈ l -> jsonFoldKey kv.1 ∉ seen) /\ (forall k x, (k, x) ∈ l -> unambiguous x).

Lemma fields_unambiguous_cons seen k x l : fields_unambiguous seen ((k, x) :: l) <->
  isSchemaKey k = true /\ (jsonFoldKey k ∉ seen) /\ unambiguous x /\
  fields_unambiguous ({[jsonFoldKey k]} ∪ seen) l.
Proof.
  unfold fields_unambiguous. cbn [map]. rewrite Forall_cons, NoDup_cons. cbn [fst]. split.
  - intros ([Hk0 Hl0] & [Hk Hn] & H & Hx). split_and!; try done.
    + apply (H (k, x)). left.
    + apply (Hx k). left.
    + intros kv Hkv [E%elem_of_singleton|Hs]%elem_of_union.
      * apply Hk, list_elem_of_fmap. by exists kv.
      * apply (H kv); [by right|done].
    + intros k' x' Hin. apply (Hx k'). by right.
  - intros (Hk0 & Hs & Hx0 & Hl0 & Hn & H & Hx). split_and!; try done.
    + intros (kv & E & Hkv)%list_elem_of_fmap. apply (H kv Hkv), elem_of_union_l, elem_of_singleton. by rewrite E.
    + intros kv [->|Hkv]%elem_of_cons; [done|]. specialize (H kv Hkv). set_solver.
    + intros k' x' [[= -> ->]|Hin]%elem_of_cons; [done|by eapply Hx].
Qed.

Lemma dup_obj_fields rd l rest : (forall k x, (k, x) ∈ l -> dup_agrees rd x) -> forall n seen, (length l < n)%nat ->
  dup_obj rd n seen (fields l ++ TCloseObj :: rest) = DupOk rest /\ fields_unambiguous seen l \/
  dup_obj rd n seen (fields l ++ TCloseObj :: rest) = DupAmbiguous /\ ~ fields_unambiguous seen l.
Proof.
  induction l as [|[k x] l IH]; intros Hrd n seen Hn; (destruct n as [|n]; [lia|]).
  - left. split; [done|]. split_and!; [constructor|constructor|intros ? Hx; inversion Hx|intros ? ? Hx; inversion Hx].
  - rewrite fields_cons. cbn [app dup_obj More]. rewrite <- app_assoc. cbn [length] in Hn.
    rewrite fields_unambiguous_cons. destruct (isSchemaKey k); cbn [negb]; [|right; naive_solver].
    destruct (bool_decide_reflect (jsonFoldKey k ∈ seen)) as [Hs|Hs]; [right; naive_solver|].
    destruct (Hrd k x ltac:(left) (fields l ++ TCloseObj :: rest)) as [[-> Hx]|[-> Hx]]; [|right; naive_solver].
    destruct (IH ltac:(intros k' x' Hin; apply (Hrd k'); by right) n ({[jsonFoldKey k]} ∪ seen) ltac:(lia)) as [[-> Hl]|[-> Hl]];
      [left|right]; naive_solver.
Qed.

Lemma fields_unambiguous_obj l : fields_unambiguous ∅ l <-> unambiguous (JObj l).
Proof.
  split.
  - intros (Hk & Hn & _ & Hx). constructor; [done| |done].
    rewrite <- (map_map fst jsonFoldKey) in Hn. by eapply NoDup_fmap_1.
  - intros H. inversion H as [| | | | |? Hk Hn Hx]; subst. split_and!; [done| |set_solver|done].
    rewrite <- (map_map fst jsonFoldKey). clear Hx H. induction l as [|[k x] l IH]; [constructor|].
    cbn [map fst] in *. apply NoDup_cons in Hn as [Hin Hn]. apply Forall_cons in Hk as [Hk Hl].
    apply NoDup_cons. split; [|auto]. intros (k' & E & Hk')%list_elem_of_fmap.
    apply list_elem_of_fmap in Hk' as ([? y] & -> & Hy). cbn in *. apply Hin, list_elem_of_fmap.
    exists (s, y). split; [|done]. cbn. apply jsonFoldKey_inj; [done| |done].
    rewrite Forall_forall in Hl. by apply (Hl (s, y)).
Qed.

Lemma checkNoDupKeys_agrees fuel : forall j, (length (tokens j) <= fuel)%nat -> dup_agrees (checkNoDupKeys fuel) j.
Proof.
  induction fuel as [|fuel IH]; intros j Hf rest.
  { destruct (tokens_head j) as (t & ts & E & _). rewrite E in Hf. cbn in Hf. lia. }
  destruct j as [|b|t|s|l|l]; try (left; split; [done|constructor]).
  - rewrite tokens_arr in *. cbn [app length checkNoDupKeys] in *. rewrite length_app in Hf. cbn in Hf.
    rewrite <- app_assoc. cbn [app].
    destruct (dup_arr_elems (checkNoDupKeys fuel) l rest) with (n := S (length (elems l ++ TCloseArr :: rest))) as [[-> H]|[-> H]].
    + intros x Hx. apply IH. pose proof (elem_tokens_le x l Hx). lia.
    + rewrite length_app. pose proof (elems_length l). lia.
    + left. split; [done|by constructor].
    + right. split; [done|]. intros Hu. inversion Hu; subst. done.
  - rewrite tokens_obj in *. cbn [app length checkNoDupKeys] in *. rewrite length_app in Hf. cbn in Hf.
    rewrite <- app_assoc. cbn [app]. rewrite <- fields_unambiguous_obj. apply dup_obj_fields.
    + intros k x Hx. apply IH. pose proof (field_tokens_le k x l Hx). lia.
    + rewrite length_app. pose proof (fields_length l). lia.
Qed.

Lemma rejectDuplicateKeys_tokens j rest : rejectDuplicateKeys (tokens j ++ rest) = false <-> unambiguous j.
Proof.
  unfold rejectDuplicateKeys.
  destruct (checkNoDupKeys_agrees (S (length (tokens j ++ rest))) j ltac:(rewrite length_app; lia) rest) as [[-> H]|[-> H]];
    naive_solver.
Qed.

(** ** manifest_scan.go *)

(** The wanted name a key folds to: the first of [want]. *)
Definition canon_of (want : list string) (key : string) : option string :=
  first_some (fun w => if EqualFold key w then Some w else None) want.

(** The loop of [scanTopLevelStrings]. *)
Fixpoint scan_loop (want : list string) (fuel : nat) (out : gmap string string) (d : list token)
    : option (gmap string string * list token) :=
  match fuel with
  | O => None
  | S fuel =>
      if More d then
        match d with
        | [] => None
        | kt :: d =>
            let key := match kt with TStr s => s | _ => "" end in
            match canon_of want key with
            | None => match skipJSONValue d with Some d => scan_loop want fuel out d | None => None end
            | Some canon =>
                match d with
                | TStr v :: d => scan_loop want fuel (<[canon := v]> out) d
                | TNull :: d => scan_loop want fuel out d
                | _ => None
                end
            end
        end
      else match d with _ :: d => Some (out, d) | [] => None end
  end.

Definition scanTopLevelStrings (want : list string) (d : list token) : option (gmap string string) :=
  match d with
  | TOpenObj :: d => option_map fst (scan_loop want (S (length d)) ∅ d)
  | _ => None
  end.

(** The same over the document's fields. *)
Definition scan_field (want : list string) (out : gmap string string) (kv : string * json) : option (gmap string string) :=
  match canon_of want kv.1 with
  | None => Some out
  | Some canon =>
      match kv.2 with JStr v => Some (<[canon := v]> out) | JNull => Some out | _ => None end
  end.

Lemma scan_loop_fields want l : forall fuel out rest, (length l < fuel)%nat ->
  scan_loop want fuel out (fields l ++ TCloseObj :: rest) =
  match foldM (scan_field want) out l with Some out => Some (out, rest) | None => None end.
Proof.
  induction l as [|[k v] l IH]; intros fuel out rest Hf; (destruct fuel as [|fuel]; [cbn in Hf; lia|]); [done|].
  rewrite fields_cons. cbn [app scan_loop More foldM]. rewrite <- app_assoc. cbn [length] in Hf.
  unfold scan_field at 1. cbn [fst snd]. destruct (canon_of want k).
  - destruct v; cbn [tokens app]; try done; by apply IH; lia.
  - rewrite skipJSONValue_tokens. apply IH. lia.
Qed.

Lemma scanTopLevelStrings_fields want l rest :
  scanTopLevelStrings want (tokens (JObj l) ++ rest) = foldM (scan_field want) ∅ l.
Proof.
  rewrite tokens_obj. cbn [app scanTopLevelStrings]. rewrite <- app_assoc. cbn [app].
  rewrite scan_loop_fields; [by destruct (foldM _ _ l)|]. rewrite length_app. cbn. pose proof (fields_length l). lia.
Qed.

(** ** Signatures (sign.go) *)

Class Signing := {
  pem_decode : string -> option (string * string);
  pem_encode : string -> string -> string;
  ParsePKIXPublicKey : string -> option string;
  MarshalPKIXPublicKey : string -> string;
  ed25519_Public : string -> string;
  ed25519_Sign : string -> string -> string;
  ed25519_Verify : string -> string -> string -> bool;
  pem_decode_encode : forall t b, pem_decode (pem_encode t b) = Some (t, b);
  ParsePKIX_Marshal : forall pub, ParsePKIXPublicKey (MarshalPKIXPublicKey pub) = Some pub;
  ed25519_Verify_Sign : forall priv msg, ed25519_Verify (ed25519_Public priv) msg (ed25519_Sign priv msg) = true
}.

Definition pemTypePublicKey : string := "PG_HARDSTORAGE ED25519 PUBLIC KEY".
Definition SchemeEd25519 : string := "ed25519".

Record Signer := { sg_priv : string; sg_pub : string }.
Record Verifier := { vf_pub : string }.

(** Why a manifest is not read. *)
Inductive read_err :=
| RE_Parse | RE_NotObject | RE_Ambiguous | RE_Files | RE_Schema | RE_Invalid (e : invalid)
| RE_Unsigned | RE_Scheme | RE_NilVerifier | RE_KeyParse | RE_KeyMismatch | RE_Base64 | RE_Split
| RE_Signature | RE_Visit.

Section signing.
Context `{SG : Signing}.

Definition LoadVerifier (pubPEM : string) : option Verifier :=
  match pem_decode pubPEM with
  | None => None
  | Some (t, b) =>
      if negb (String.eqb t pemTypePublicKey) then None
      else match ParsePKIXPublicKey b with Some pub => Some {| vf_pub := pub |} | None => None end
  end.

Definition PublicKeyPEM (s : Signer) : string := pem_encode pemTypePublicKey (MarshalPKIXPublicKey (sg_pub s)).

Definition Verify (v : Verifier) (payload signature : string) : bool := ed25519_Verify (vf_pub v) payload signature.

Definition publicKeyEquals (v other : Verifier) : bool := String.eqb (vf_pub v) (vf_pub other).

Definition matchPublicKeys (embeddedPEM : string) (verifier : Verifier) : option read_err :=
  match LoadVerifier embeddedPEM with
  | None => Some RE_KeyParse
  | Some emb => if publicKeyEquals emb verifier then None else Some RE_KeyMismatch
  end.
End signing.

(** [base64.StdEncoding.EncodeToString] *)
Definition base64_char (d : Z) : ascii :=
  chr (if d <? 26 then d + 65 else if d <? 52 then d + 71 else if d <? 62 then d - 4 else if d =? 62 then 43 else 47).

Fixpoint base64_EncodeToString (s : string) : string :=
  match s with
  | EmptyString => ""
  | String a EmptyString =>
      String (base64_char (byte_of a / 4)) (String (base64_char (byte_of a mod 4 * 16)) "==")
  | String a (String b EmptyString) =>
      String (base64_char (byte_of a / 4)) (String (base64_char (byte_of a mod 4 * 16 + byte_of b / 16))
        (String (base64_char (byte_of b mod 16 * 4)) "="))
  | String a (String b (String c s)) =>
      String (base64_char (byte_of a / 4)) (String (base64_char (byte_of a mod 4 * 16 + byte_of b / 16))
        (String (base64_char (byte_of b mod 16 * 4 + byte_of c / 64)) (String (base64_char (byte_of c mod 64))
          (base64_EncodeToString s))))
  end.

Lemma base64_digit_char d : 0 <= d < 64 -> base64_digit (base64_char d) = Some d.
Proof.
  intros Hd. assert (d ∈ map Z.of_nat (seq 0 64)) as Hin.
  { apply list_elem_of_fmap. exists (Z.to_nat d). split; [lia|]. apply elem_of_seq. lia. }
  revert Hin. clear Hd. cbn [map seq Z.of_nat Pos.of_succ_nat Pos.succ]. 
  repeat (intros [->|Hin]%elem_of_cons || (revert Hin; intros [->|Hin]%elem_of_cons)); [by vm_compute..|]. inversion Hin.
Qed.

Lemma chr_byte_of c : chr (byte_of c) = c.
Proof.
  unfold chr. rewrite Z.mod_small by apply byte_of_range. unfold byte_of. rewrite N2Z.id. apply Ascii.ascii_N_embedding.
Qed.

Lemma base64_char_no_newline d : 0 <= d < 64 -> (byte_of (base64_char d) =? 10) || (byte_of (base64_char d) =? 13) = false.
Proof.
  intros Hd. pose proof (base64_digit_char d Hd) as H. revert H. unfold base64_digit.
  destruct (Z.eqb_spec (byte_of (base64_char d)) 10) as [->|]; [done|].
  by destruct (Z.eqb_spec (byte_of (base64_char d)) 13) as [->|].
Qed.

Ltac base64_bounds :=
  repeat match goal with
  | c : ascii |- _ => lazymatch goal with H : 0 <= byte_of c < 256 |- _ => fail | _ => pose proof (byte_of_range c) end
  end; Z.to_euclidean_division_equations; lia.

(** The three bytes of a group from its four digits. *)
Lemma base64_byte1 a b : chr (byte_of a / 4 * 4 + (byte_of a mod 4 * 16 + byte_of b / 16) / 16) = a.
Proof. rewrite <- (chr_byte_of a) at 3. f_equal. base64_bounds. Qed.

Lemma base64_byte2 a b c : chr ((byte_of a mod 4 * 16 + byte_of b / 16) * 16 + (byte_of b mod 16 * 4 + byte_of c / 64) / 4) = b.
Proof.
  rewrite <- (chr_byte_of b) at 3. unfold chr. do 2 f_equal. base64_bounds.
Qed.

Lemma base64_byte3 b c : chr ((byte_of b mod 16 * 4 + byte_of c / 64) * 64 + byte_of c mod 64) = c.
Proof. rewrite <- (chr_byte_of c) at 3. unfold chr. do 2 f_equal. base64_bounds. Qed.

Lemma base64_groups_encode s : base64_DecodeString (base64_EncodeToString s) = Some s.
Proof.
  unfold base64_DecodeString. remember (String.length s) as n eqn:Hn. revert s Hn.
  induction n as [n IH] using (well_founded_induction Nat.lt_wf_0). intros s ->.
  assert (forall d s, 0 <= d < 64 -> drop_newlines (String (base64_char d) s) = String (base64_char d) (drop_newlines s)) as Hdrop
    by (intros d t Hd; cbn [drop_newlines]; by rewrite base64_char_no_newline).
  destruct s as [|a [|b [|c s]]]; [done|..]; cbn [base64_EncodeToString];
    rewrite !Hdrop by base64_bounds; cbn [base64_groups]; rewrite !base64_digit_char by base64_bounds.
  - cbn. do 2 f_equal. pose proof (base64_byte1 a (chr 0)) as H. by rewrite Z.add_0_r in H.
  - cbn. pose proof (base64_byte2 a b (chr 0)) as H. rewrite Z.add_0_r in H. by rewrite base64_byte1, H.
  - rewrite (IH (String.length s)) by (cbn; done || lia). by rewrite base64_byte1, base64_byte2, base64_byte3.
Qed.

(** ** Manifests as documents *)

Definition with_attestation (m : Manifest) (a : option Attestation) : Manifest :=
  {| m_Schema := m_Schema m; m_BackupID := m_BackupID m; m_Deployment := m_Deployment m; m_Tenant := m_Tenant m;
     m_Type := m_Type m; m_ParentBackupID := m_ParentBackupID m; m_PGVersion := m_PGVersion m;
     m_SystemIdentifier := m_SystemIdentifier m; m_StartLSN := m_StartLSN m; m_StopLSN := m_StopLSN m;
     m_Timeline := m_Timeline m; m_StartedAt := m_StartedAt m; m_StoppedAt := m_StoppedAt m;
     m_Compression := m_Compression m; m_Encryption := m_Encryption m; m_SourceTDE := m_SourceTDE m;
     m_Tablespaces := m_Tablespaces m; m_Files := m_Files m; m_Dirs := m_Dirs m; m_WALRequired := m_WALRequired m;
     m_BackupLabel := m_BackupLabel m; m_TablespaceMap := m_TablespaceMap m;
     m_PGBackupManifest := m_PGBackupManifest m; m_WALGaps := m_WALGaps m; m_Attestation := a |}.

Definition with_files (m : Manifest) (files : list FileEntry) : Manifest :=
  {| m_Schema := m_Schema m; m_BackupID := m_BackupID m; m_Deployment := m_Deployment m; m_Tenant := m_Tenant m;
     m_Type := m_Type m; m_ParentBackupID := m_ParentBackupID m; m_PGVersion := m_PGVersion m;
     m_SystemIdentifier := m_SystemIdentifier m; m_StartLSN := m_StartLSN m; m_StopLSN := m_StopLSN m;
     m_Timeline := m_Timeline m; m_StartedAt := m_StartedAt m; m_StoppedAt := m_StoppedAt m;
     m_Compression := m_Compression m; m_Encryption := m_Encryption m; m_SourceTDE := m_SourceTDE m;
     m_Tablespaces := m_Tablespaces m; m_Files := files; m_Dirs := m_Dirs m; m_WALRequired := m_WALRequired m;
     m_BackupLabel := m_BackupLabel m; m_TablespaceMap := m_TablespaceMap m;
     m_PGBackupManifest := m_PGBackupManifest m; m_WALGaps := m_WALGaps m; m_Attestation := m_Attestation m |}.

(** The value of a field: the first of its name. *)
Fixpoint field (name : string) (l : list (string * json)) : option json :=
  match l with
  | [] => None
  | (k, v) :: l => if String.eqb k name then Some v else field name l
  end.

(** A list of files: absent, [null] or an array of entries. *)
Definition file_list (unmarshal_file : json -> option FileEntry) (v : option json) : option (list FileEntry) :=
  match v with
  | None | Some JNull => Some []
  | Some (JArr l) => mapM unmarshal_file l
  | Some _ => None
  end.

(** The manifest encoding of [encoding/json]: decoding undoes encoding on the values that survive
    it ([encodable]: valid UTF-8 and times it can print), and an encoded struct is an object whose
    keys are the struct's tags, followed by nothing.  [clean_end] says that the tokens end with the
    input and not with a syntax error.  A document's file list can be decoded on its own: that is
    what [unmarshal_split] says of a document in which no key is there twice. *)
Class ManifestJSON := {
  tokenize : string -> list token;
  clean_end : string -> bool;
  unmarshal_manifest : string -> option Manifest;
  unmarshal_header : list (string * json) -> option Manifest;
  unmarshal_file : json -> option FileEntry;
  encode_manifest : Manifest -> string;
  encode_file : FileEntry -> string;
  encodable : Manifest -> Prop;
  unmarshal_encode : forall m, encodable m -> unmarshal_manifest (encode_manifest m) = Some m;
  encode_unambiguous : forall m, encodable m -> exists j, tokenize (encode_manifest m) = tokens j /\ unambiguous j;
  unmarshal_split : forall raw l, tokenize raw = tokens (JObj l) -> clean_end raw = true -> unambiguous (JObj l) ->
    unmarshal_manifest raw =
    match unmarshal_header (filter (fun kv => kv.1 <> "files") l), file_list unmarshal_file (field "files" l) with
    | Some m, Some files => Some (with_files m files)
    | _, _ => None
    end;
  unmarshal_header_files : forall l m, (forall v, ("files", v) ∉ l) -> unmarshal_header l = Some m -> m_Files m = []
}.

Definition ok_or {E A} (o : option A) (e : E) : E + A :=
  match o with Some a => inr a | None => inl e end.

(** [if err != nil { return err }] *)
Definition bind_err {E A B} (x : E + A) (f : A -> E + B) : E + B :=
  match x with inl e => inl e | inr a => f a end.

Notation "'let!' x ':=' p 'in' q" := (bind_err p (fun x => q))
  (at level 10, x pattern, p at level 100, q at level 200).

Definition guard_err {E} (b : bool) (e : E) : E + unit := if b then inl e else inr ().

Section documents.
Context `{SG : Signing} `{MJ : ManifestJSON}.

Definition Canonicalize (m : Manifest) : string := encode_manifest (with_attestation m None).

Definition MarshalToBytes (m : Manifest) : string := encode_manifest m.

Definition Sign (signer : Signer) (m : Manifest) : Manifest :=
  let sig := ed25519_Sign (sg_priv signer) (Canonicalize m) in
  with_attestation m (Some {| at_Scheme := SchemeEd25519; at_PublicKey := PublicKeyPEM signer;
                              at_Signature := base64_EncodeToString sig |}).

Definition ParseAttestationless (raw : string) : read_err + Manifest :=
  let! _ := guard_err (rejectDuplicateKeys (tokenize raw)) RE_Ambiguous in
  let! m := ok_or (unmarshal_manifest raw) RE_Parse in
  let! _ := guard_err (negb (String.eqb (m_Schema m) Schema)) RE_Schema in
  inr m.

Definition check_attestation (m : Manifest) : read_err + Attestation :=
  let! a := ok_or (m_Attestation m) RE_Unsigned in
  let! _ := guard_err (negb (String.eqb (at_Scheme a) SchemeEd25519)) RE_Scheme in
  inr a.

Definition match_keys (a : Attestation) (v : Verifier) : read_err + unit :=
  match matchPublicKeys (at_PublicKey a) v with Some e => inl e | None => inr () end.

Definition ParseAndVerify (raw : string) (verifier : option Verifier) : read_err + Manifest :=
  let! m := ParseAttestationless raw in
  let! a := check_attestation m in
  let! v := ok_or verifier RE_NilVerifier in
  let! _ := match_keys a v in
  let! sig := ok_or (base64_DecodeString (at_Signature a)) RE_Base64 in
  let! _ := guard_err (negb (Verify v (Canonicalize m) sig)) RE_Signature in
  inr m.

Definition VerifyEmbedded (raw : string) : read_err + Manifest :=
  let! m := ParseAttestationless raw in
  let! a := check_attestation m in
  let! v := ok_or (LoadVerifier (at_PublicKey a)) RE_KeyParse in
  let! sig := ok_or (base64_DecodeString (at_Signature a)) RE_Base64 in
  let! _ := guard_err (negb (Verify v (Canonicalize m) sig)) RE_Signature in
  inr m.

(** [ScanManifestFields]: the wanted fields before the file list; [got] is keyed by the name as
    written. *)
Fixpoint scan_fields_loop (want : list string) (fuel : nat) (got : list (string * json)) (d : list token)
    : option (list (string * json)) :=
  match fuel with
  | O => None
  | S fuel =>
      if More d && (length got <? length want)%nat then
        match d with
        | [] => None
        | kt :: d =>
            let key := match kt with TStr s => s | _ => "" end in
            if EqualFold key "files" then Some got
            else match canon_of want key with
            | None => match skipJSONValue d with Some d => scan_fields_loop want fuel got d | None => None end
            | Some _ =>
                match Decode d with
                | Some (raw, d) =>
                    scan_fields_loop want fuel (filter (fun kv => kv.1 <> key) got ++ [(key, raw)]) d
                | None => None
                end
            end
        end
      else Some got
  end.

Definition ScanManifestFields (want : list string) (d : list token) : option Manifest :=
  match d with
  | TOpenObj :: d =>
      match scan_fields_loop want (S (length d)) [] d with Some got => unmarshal_header got | None => None end
  | _ => None
  end.

(** ** manifest_stream.go *)

Record StreamOptions := {
  so_Verifier : option Verifier;
  so_VerifyEmbedded : bool;
  so_CanonicalHash : bool;
  so_Validate : bool
}.

Definition no_options : StreamOptions :=
  {| so_Verifier := None; so_VerifyEmbedded := false; so_CanonicalHash := false; so_Validate := false |}.

Definition verifying (v : Verifier) : StreamOptions :=
  {| so_Verifier := Some v; so_VerifyEmbedded := false; so_CanonicalHash := false; so_Validate := false |}.

Definition checkSig (o : StreamOptions) : bool :=
  (match so_Verifier o with Some _ => true | None => false end) || so_VerifyEmbedded o.

Definition so_verify (o : StreamOptions) : bool := checkSig o || so_CanonicalHash o.

(** The first place [sub] occurs, and whether it is the only one. *)
Fixpoint Index (s sub : string) : option nat :=
  if HasPrefix s sub then Some O
  else match s with EmptyString => None | String _ s => option_map S (Index s sub) end.

Definition occurs_once (s sub : string) : bool :=
  match Index s sub with
  | Some i => negb (Contains (sdrop (S i) s) sub)
  | None => false
  end.

Definition dquote : ascii := Ascii.ascii_of_N 34.
Definition files_key : string := String dquote ("files" +:+ String dquote ":").
Definition files_marker : string := files_key +:+ "[]".

(** The canonical form around the file list. *)
Definition canonicalSplit (m : Manifest) : option (string * string) :=
  let b := encode_manifest (with_files (with_attestation m None) []) in
  match Index b files_marker with
  | Some i =>
      if occurs_once b files_marker
      then Some (stake (i + String.length files_key) b, sdrop (i + String.length files_marker) b)
      else None
  | None => None
  end.

Section visit.
Context {S : Type} (visit : S -> FileEntry -> option S).

(** The stream's state: what the visitor holds, the counts, the identities seen and, when the
    canonical form is wanted, its entries (with the prefix written before them). *)
Record streamState := {
  ss_visit : S;
  ss_Files : Z;
  ss_Bytes : Z;
  ss_ChunkRefs : Z;
  ss_fileSet : gset string;
  ss_spool : option (string * list string);
  ss_filesNull : bool
}.

Definition stream_start (st : S) : streamState :=
  {| ss_visit := st; ss_Files := 0; ss_Bytes := 0; ss_ChunkRefs := 0; ss_fileSet := ∅; ss_spool := None; ss_filesNull := false |}.

Definition entry (o : StreamOptions) (s : streamState) (raw : json) : read_err + streamState :=
  let! _ := guard_err (rejectDuplicateKeys (tokens raw)) RE_Ambiguous in
  let! fe := ok_or (unmarshal_file raw) RE_Parse in
  let! seen :=
    if so_Validate o then
      match validateFileEntry fe with
      | Some e => inl (RE_Invalid e)
      | None =>
          if bool_decide (fileIdentity fe ∈ ss_fileSet s) then inl (RE_Invalid InvDuplicateFile)
          else inr ({[fileIdentity fe]} ∪ ss_fileSet s)
      end
    else inr (ss_fileSet s) in
  let! st := ok_or (visit (ss_visit s) fe) RE_Visit in
  inr {| ss_visit := st; ss_Files := ss_Files s + 1; ss_Bytes := i64 (ss_Bytes s + fe_Size fe);
         ss_ChunkRefs := ss_ChunkRefs s + Z.of_nat (length (fe_Chunks fe)); ss_fileSet := seen;
         ss_spool := if so_verify o then option_map (fun '(p, l) => (p, l ++ [encode_file fe])) (ss_spool s) else ss_spool s;
         ss_filesNull := ss_filesNull s |}.

Fixpoint entries_loop (o : StreamOptions) (fuel : nat) (s : streamState) (d : list token)
    : read_err + (streamState * list token) :=
  match fuel with
  | O => inl RE_Parse
  | Datatypes.S fuel =>
      if More d then
        let! (raw, d) := ok_or (Decode d) RE_Parse in
        let! s := entry o s raw in
        entries_loop o fuel s d
      else match d with _ :: d => inr (s, d) | [] => inl RE_Parse end
  end.

(** The file list; [hdr] is what the fields before it decode to. *)
Definition files_value (o : StreamOptions) (fields : list (string * json)) (s : streamState) (d : list token)
    : read_err + (streamState * list token) :=
  match d with
  | TNull :: d =>
      inr ({| ss_visit := ss_visit s; ss_Files := ss_Files s; ss_Bytes := ss_Bytes s; ss_ChunkRefs := ss_ChunkRefs s;
              ss_fileSet := ss_fileSet s; ss_spool := ss_spool s; ss_filesNull := true |}, d)
  | TOpenArr :: d =>
      let! spool :=
        if so_verify o then
          let! hdr := ok_or (unmarshal_header fields) RE_Parse in
          let! (pre, _) := ok_or (canonicalSplit hdr) RE_Split in
          inr (Some (pre, []))
        else inr (ss_spool s) in
      entries_loop o (length d)
        {| ss_visit := ss_visit s; ss_Files := ss_Files s; ss_Bytes := ss_Bytes s; ss_ChunkRefs := ss_ChunkRefs s;
           ss_fileSet := ss_fileSet s; ss_spool := spool; ss_filesNull := ss_filesNull s |} d
  | [] => inl RE_Parse
  | _ => inl RE_Files
  end.

(** The loop over the document's fields. *)
Fixpoint stream_loop (o : StreamOptions) (fuel : nat) (seen : gset string) (fields : list (string * json))
    (s : streamState) (d : list token) : read_err + (list (string * json) * streamState) :=
  match fuel with
  | O => inl RE_Parse
  | Datatypes.S fuel =>
      if More d then
        match d with
        | [] => inl RE_Parse
        | kt :: d =>
            let key := match kt with TStr k => k | _ => "" end in
            if negb (isSchemaKey key) then inl RE_Ambiguous
            else if bool_decide (jsonFoldKey key ∈ seen) then inl RE_Ambiguous
            else
              let seen := {[jsonFoldKey key]} ∪ seen in
              if negb (String.eqb (jsonFoldKey key) (jsonFoldKey "files")) then
                let! (raw, d) := ok_or (Decode d) RE_Parse in
                let! _ := guard_err (rejectDuplicateKeys (tokens raw)) RE_Ambiguous in
                stream_loop o fuel seen (fields ++ [(key, raw)]) s d
              else
                let! (s, d) := files_value o fields s d in
                stream_loop o fuel seen fields s d
        end
      else match d with
           | [_] => inr (fields, s)
           | _ => inl RE_Parse
           end
  end.

Record StreamInfo := {
  si_Manifest : Manifest;
  si_visit : S;
  si_Files : Z;
  si_Bytes : Z;
  si_ChunkRefs : Z;
  si_Verified : bool
}.

(** The canonical form the signature covers. *)
Definition canonical_form (s : streamState) (m : Manifest) : read_err + string :=
  let! (prefix, suffix) := ok_or (canonicalSplit m) RE_Split in
  match ss_spool s with
  | None => inr (prefix +:+ "null" +:+ suffix)
  | Some (_, entries) => inr (prefix +:+ "[" +:+ Join entries "," +:+ "]" +:+ suffix)
  end.

Definition sw_verify (o : StreamOptions) (s : streamState) (m : Manifest) : read_err + unit :=
  if checkSig o then
    let! a := check_attestation m in
    let! v := match so_Verifier o with
              | Some v => let! _ := match_keys a v in inr v
              | None => ok_or (LoadVerifier (at_PublicKey a)) RE_KeyParse
              end in
    let! sig := ok_or (base64_DecodeString (at_Signature a)) RE_Base64 in
    let! msg := canonical_form s m in
    guard_err (negb (Verify v msg sig)) RE_Signature
  else let! _ := canonical_form s m in inr ().

Definition validate_stream `{L : LSN} (o : StreamOptions) (s : streamState) (m : Manifest) : read_err + unit :=
  if so_Validate o then
    match validateHeader m with
    | Some e => inl (RE_Invalid e)
    | None => match validateTail m (fun key => bool_decide (key ∈ ss_fileSet s)) with
              | Some e => inl (RE_Invalid e)
              | None => inr ()
              end
    end
  else inr ().

Definition StreamManifest `{L : LSN} (raw : string) (o : StreamOptions) (st : S) : read_err + StreamInfo :=
  match tokenize raw with
  | [] => inl RE_Parse
  | TOpenObj :: d =>
      let! (fields, s) := stream_loop o (Datatypes.S (length d)) ∅ [] (stream_start st) d in
      let! _ := guard_err (negb (clean_end raw)) RE_Parse in
      let! m := ok_or (unmarshal_header fields) RE_Parse in
      let! _ := guard_err (negb (String.eqb (m_Schema m) Schema)) RE_Schema in
      let! _ := validate_stream o s m in
      let! _ := if so_verify o then sw_verify o s m else inr () in
      inr {| si_Manifest := m; si_visit := ss_visit s; si_Files := ss_Files s; si_Bytes := ss_Bytes s;
             si_ChunkRefs := ss_ChunkRefs s; si_Verified := checkSig o |}
  | _ => inl RE_NotObject
  end.
End visit.
End documents.

(** ** What a signature is worth *)

Section signed.
Context `{SG : Signing} `{MJ : ManifestJSON}.

Definition verifier_of (s : Signer) : Verifier := {| vf_pub := sg_pub s |}.

(** A key pair: the public half is the private one's. *)
Definition keypair (s : Signer) : Prop := sg_pub s = ed25519_Public (sg_priv s).

Lemma LoadVerifier_PEM s : LoadVerifier (PublicKeyPEM s) = Some (verifier_of s).
Proof. unfold LoadVerifier, PublicKeyPEM. by rewrite pem_decode_encode, String.eqb_refl, ParsePKIX_Marshal. Qed.

Lemma Canonicalize_Sign s m : Canonicalize (Sign s m) = Canonicalize m.
Proof. done. Qed.

Lemma Verify_Sign s m : keypair s ->
  Verify (verifier_of s) (Canonicalize m) (ed25519_Sign (sg_priv s) (Canonicalize m)) = true.
Proof. intros Hk. unfold Verify. cbn. rewrite Hk. apply ed25519_Verify_Sign. Qed.

Lemma ParseAttestationless_encode m : encodable m -> m_Schema m = Schema ->
  ParseAttestationless (MarshalToBytes m) = inr m.
Proof.
  intros He Hs. unfold ParseAttestationless, MarshalToBytes. destruct (encode_unambiguous m He) as (j & -> & Hu).
  rewrite <- (app_nil_r (tokens j)), (proj2 (rejectDuplicateKeys_tokens j [])) by done. cbn.
  rewrite unmarshal_encode by done. cbn. by rewrite Hs.
Qed.
End signed.

(** ** The streamed reading is the held reading *)

Section streaming_manifest.
Context `{SG : Signing} `{MJ : ManifestJSON}.
Local Abbreviation state := (streamState (S := list FileEntry)).

Definition collect (l : list FileEntry) (fe : FileEntry) : option (list FileEntry) := Some (l ++ [fe]).

(** What the stream counts. *)
Definition counts (s : state) : list FileEntry * Z * Z * Z := (ss_visit s, ss_Files s, ss_Bytes s, ss_ChunkRefs s).

Definition count (c : list FileEntry * Z * Z * Z) (fe : FileEntry) : list FileEntry * Z * Z * Z :=
  let '(l, n, b, r) := c in (l ++ [fe], n + 1, i64 (b + fe_Size fe), r + Z.of_nat (length (fe_Chunks fe))).

Lemma entry_spec s raw :
  match entry collect no_options s raw with
  | inr s' => unambiguous raw /\ exists fe, unmarshal_file raw = Some fe /\ counts s' = count (counts s) fe
  | inl _ => ~ unambiguous raw \/ unmarshal_file raw = None
  end.
Proof.
  unfold entry. pose proof (rejectDuplicateKeys_tokens raw []) as Hu. rewrite app_nil_r in Hu.
  destruct (rejectDuplicateKeys (tokens raw)); cbn; [left; intros H; by apply Hu in H|].
  destruct (unmarshal_file raw) as [fe|]; cbn; [|by right]. split; [by apply Hu|]. by exists fe.
Qed.

Lemma entries_loop_spec l : forall fuel s rest, (length l < fuel)%nat ->
  match entries_loop collect no_options fuel s (elems l ++ TCloseArr :: rest) with
  | inr (s', d) => (forall x, x ∈ l -> unambiguous x) /\ d = rest /\
      exists fes, mapM unmarshal_file l = Some fes /\ counts s' = foldl count (counts s) fes
  | inl _ => ~ (forall x, x ∈ l -> unambiguous x) \/ mapM unmarshal_file l = None
  end.
Proof.
  induction l as [|x l IH]; intros fuel s rest Hf; (destruct fuel as [|fuel]; [cbn in Hf; lia|]).
  - cbn. split_and!; [intros x Hx; inversion Hx|done|]. by exists [].
  - rewrite elems_cons, <- app_assoc. cbn [entries_loop]. rewrite tokens_More, Decode_tokens. cbn [ok_or bind_err].
    pose proof (entry_spec s x) as He. destruct (entry collect no_options s x) as [e|s1]; cbn [bind_err].
    + destruct He as [He|He]; [left|right; cbn; by rewrite He]. intros H. apply He, H. left.
    + destruct He as (Hu & fe & Hfe & Hc). cbn [length] in Hf. specialize (IH fuel s1 rest ltac:(lia)).
      destruct (entries_loop collect no_options fuel s1 (elems l ++ TCloseArr :: rest)) as [e|[s' d]].
      * destruct IH as [IH|IH]; [left|right; cbn; by rewrite Hfe; cbn; rewrite IH].
        intros H. apply IH. intros y Hy. apply H. by right.
      * destruct IH as (Hl & -> & fes & Hm & Hs). split_and!; [|done|].
        -- by intros y [->|Hy]%elem_of_cons; [|auto].
        -- exists (fe :: fes). split; [cbn; rewrite Hfe; cbn; by rewrite Hm|]. cbn [foldl]. by rewrite <- Hc.
Qed.

Lemma files_value_spec fields s v rest :
  match files_value collect no_options fields s (tokens v ++ rest) with
  | inr (s', d) => unambiguous v /\ d = rest /\
      exists fes, file_list unmarshal_file (Some v) = Some fes /\ counts s' = foldl count (counts s) fes
  | inl _ => ~ unambiguous v \/ file_list unmarshal_file (Some v) = None
  end.
Proof.
  destruct v as [|b|t|t|l|l]; try (right; done).
  - cbn. split_and!; [constructor|done|]. by exists [].
  - rewrite tokens_arr. cbn [app files_value no_options so_verify checkSig so_Verifier so_VerifyEmbedded so_CanonicalHash orb bind_err].
    rewrite <- app_assoc. cbn [app].
    match goal with |- context [entries_loop _ _ _ ?s1 _] => set (s1' := s1) end.
    pose proof (entries_loop_spec l (length (elems l ++ TCloseArr :: rest)) s1' rest) as H.
    specialize (H ltac:(rewrite length_app; cbn; pose proof (elems_length l); lia)).
    destruct (entries_loop collect no_options _ s1' _) as [e|[s' d]].
    + destruct H as [H|H]; [left|by right]. intros Hu. apply H. by inversion Hu.
    + destruct H as (Hu & -> & fes & Hm & Hc). split_and!; [by constructor|done|]. by exists fes.
Qed.

(** The file lists of all fields of that name; in a document with one meaning there is one. *)
Fixpoint all_files (l : list (string * json)) : option (list FileEntry) :=
  match l with
  | [] => Some []
  | (k, v) :: l =>
      if decide (k <> "files") then all_files l
      else match file_list unmarshal_file (Some v), all_files l with Some a, Some b => Some (a ++ b) | _, _ => None end
  end.

Lemma all_files_absent l : "files" ∉ map fst l -> all_files l = Some [].
Proof.
  induction l as [|[k v] l IH]; [done|]. cbn. intros [Hk Hl]%not_elem_of_cons. rewrite decide_True by congruence. auto.
Qed.

Lemma all_files_field l : NoDup (map fst l) -> all_files l = file_list unmarshal_file (field "files" l).
Proof.
  induction l as [|[k v] l IH]; [done|]. cbn [map fst]. intros [Hk Hn]%NoDup_cons. cbn [all_files field].
  destruct (String.eqb_spec k "files") as [->|Hne].
  - rewrite decide_False by auto. rewrite all_files_absent by done.
    destruct (file_list unmarshal_file (Some v)) as [fs|]; [by rewrite app_nil_r|done].
  - rewrite decide_True by done. auto.
Qed.

Lemma stream_loop_spec l : forall fuel seen flds s, (length l < fuel)%nat ->
  match stream_loop collect no_options fuel seen flds s (fields l ++ [TCloseObj]) with
  | inr (flds', s') => fields_unambiguous seen l /\ flds' = flds ++ filter (fun kv => kv.1 <> "files") l /\
      exists fes, all_files l = Some fes /\ counts s' = foldl count (counts s) fes
  | inl _ => ~ fields_unambiguous seen l \/ all_files l = None
  end.
Proof.
  induction l as [|[k v] l IH]; intros fuel seen flds s Hf; (destruct fuel as [|fuel]; [cbn in Hf; lia|]).
  - cbn. split; [split_and!; [constructor|constructor|intros ? Hx; inversion Hx|intros ? ? Hx; inversion Hx]|].
    split; [by rewrite app_nil_r|by exists []].
  - rewrite fields_cons. cbn [app stream_loop More]. rewrite <- app_assoc. cbn [length] in Hf.
    pose proof (fields_unambiguous_cons seen k v l) as Hcons.
    destruct (isSchemaKey k) eqn:Hk; cbn [negb]; [|left; by intros (? & _)%Hcons].
    destruct (bool_decide_reflect (jsonFoldKey k ∈ seen)) as [Hs|Hs]; [left; rewrite Hcons; tauto|].
    assert (String.eqb (jsonFoldKey k) (jsonFoldKey "files") = String.eqb k "files") as ->.
    { destruct (String.eqb_spec k "files") as [->|Hne]; [by rewrite String.eqb_refl|]. apply String.eqb_neq.
      intros E. apply Hne. by apply jsonFoldKey_inj. }
    cbn [all_files]. rewrite filter_cons. cbn [fst]. destruct (String.eqb_spec k "files") as [->|Hne]; cbn [negb].
    + rewrite !decide_False by auto. pose proof (files_value_spec flds s v (fields l ++ [TCloseObj])) as Hv.
      destruct (files_value _ _ _ _ _) as [e|[s1 d]]; cbn [bind_err].
      * destruct Hv as [Hv|Hv]; [left; rewrite Hcons; tauto|right; by rewrite Hv].
      * destruct Hv as (Hu & -> & fes1 & Hf1 & Hc1).
        specialize (IH fuel ({[jsonFoldKey "files"]} ∪ seen) flds s1 ltac:(lia)).
        destruct (stream_loop _ _ _ _ _ _ _) as [e|[flds' s']].
        -- destruct IH as [IH|IH]; [left; rewrite Hcons; tauto|right; by rewrite IH; destruct (file_list _ _)].
        -- destruct IH as (Hl & -> & fes & Hfl & Hc). split; [by apply Hcons|]. split; [done|]. exists (fes1 ++ fes).
           rewrite Hf1, Hfl. split; [done|]. by rewrite foldl_app, <- Hc1.
    + rewrite !decide_True by done. rewrite Decode_tokens. cbn [ok_or bind_err].
      pose proof (rejectDuplicateKeys_tokens v []) as Hu. rewrite app_nil_r in Hu.
      destruct (rejectDuplicateKeys (tokens v)); cbn [guard_err bind_err].
      { left. intros (_ & _ & H & _)%Hcons. by apply Hu in H. }
      assert (unambiguous v) as Hv by (by apply Hu).
      specialize (IH fuel ({[jsonFoldKey k]} ∪ seen) (flds ++ [(k, v)]) s ltac:(lia)).
      destruct (stream_loop _ _ _ _ _ _ _) as [e|[flds' s']].
      * destruct IH as [IH|IH]; [left; rewrite Hcons; tauto|by right].
      * destruct IH as (Hl & -> & fes & Hfl & Hc). split; [by apply Hcons|]. split; [by rewrite <- app_assoc|]. by exists fes.
Qed.

Definition refs_of (files : list FileEntry) : Z := foldr (fun fe n => Z.of_nat (length (fe_Chunks fe)) + n) 0 files.
Definition bytes_of (files : list FileEntry) : Z := foldr (fun fe n => fe_Size fe + n) 0 files.

Lemma counts_fold files : forall l n b r,
  foldl count (l, n, i64 b, r) files =
  (l ++ files, n + Z.of_nat (length files), i64 (b + bytes_of files), r + refs_of files).
Proof.
  induction files as [|fe files IH]; intros l n b r; cbn [foldl length bytes_of refs_of foldr].
  - rewrite app_nil_r, !Z.add_0_r. done.
  - cbn [count]. rewrite i64_add, IH, <- app_assoc. cbn [app]. unfold bytes_of, refs_of.
    apply f_equal2; [apply f_equal2; [apply f_equal2; [done|lia]|f_equal; lia]|lia].
Qed.

(** What a streamed read delivers of a manifest. *)
Definition streamed (m : Manifest) : StreamInfo (S := list FileEntry) :=
  {| si_Manifest := with_files m []; si_visit := m_Files m; si_Files := Z.of_nat (length (m_Files m));
     si_Bytes := i64 (bytes_of (m_Files m)); si_ChunkRefs := refs_of (m_Files m); si_Verified := false |}.

Lemma with_files_twice m a b : with_files (with_files m a) b = with_files m b.
Proof. done. Qed.

Lemma with_files_own m files : m_Files m = files -> with_files m files = m.
Proof. intros <-. by destruct m. Qed.

Lemma unambiguous_or_not j : unambiguous j \/ ~ unambiguous j.
Proof.
  pose proof (rejectDuplicateKeys_tokens j []) as H. destruct (rejectDuplicateKeys _); [right|left]; [|by apply H].
  intros Hu. by apply H in Hu.
Qed.

Lemma stream_loop_document l d : d = fields l ++ [TCloseObj] ->
  match stream_loop collect no_options (S (length d)) ∅ [] (stream_start []) d with
  | inr (flds, s) => unambiguous (JObj l) /\ flds = filter (fun kv => kv.1 <> "files") l /\
      exists files, file_list unmarshal_file (field "files" l) = Some files /\
        counts s = (files, Z.of_nat (length files), i64 (bytes_of files), refs_of files)
  | inl _ => ~ unambiguous (JObj l) \/ file_list unmarshal_file (field "files" l) = None
  end.
Proof.
  intros ->. pose proof (stream_loop_spec l (S (length (fields l ++ [TCloseObj]))) ∅ [] (stream_start [])) as H.
  specialize (H ltac:(rewrite length_app; pose proof (fields_length l); lia)).
  assert (unambiguous (JObj l) -> all_files l = file_list unmarshal_file (field "files" l)) as Ha
    by (intros Hu; apply all_files_field; by inversion Hu).
  destruct (stream_loop _ _ _ _ _ _ _) as [e|[flds s]].
  - rewrite fields_unambiguous_obj in H. destruct H as [H|H]; [by left|].
    destruct (unambiguous_or_not (JObj l)) as [Hu|Hu]; [right; by rewrite <- Ha|by left].
  - destruct H as (Hl & -> & files & Hf & Hc). apply fields_unambiguous_obj in Hl. split; [done|]. split; [done|].
    exists files. rewrite <- Ha by done. split; [done|]. rewrite Hc. apply (counts_fold files [] 0 0 0).
Qed.
End streaming_manifest.

(** C15: streaming a manifest reads the same as holding it: on every complete JSON object the streamed
    reader accepts exactly when the whole-document parser does, with the same header, the same file
    entries in order and the right counts (bytes modulo [2^64]). *)
Theorem StreamManifest_exact `{SG : Signing} `{MJ : ManifestJSON} `{L : LSN} (raw : string) (l : list (string * json)) :
  tokenize raw = tokens (JObj l) -> clean_end raw = true ->
  match ParseAttestationless raw with
  | inr m => StreamManifest collect raw no_options [] = inr (streamed m)
  | inl _ => exists e, StreamManifest collect raw no_options [] = inl e
  end.
Proof.
  intros Ht Hc. unfold ParseAttestationless. 
  pose proof (rejectDuplicateKeys_tokens (JObj l) []) as Hd. rewrite app_nil_r, <- Ht in Hd.
  assert (tokenize raw = TOpenObj :: fields l ++ [TCloseObj]) as Ho by (by rewrite Ht, tokens_obj).
  pose proof (stream_loop_document l _ eq_refl) as H.
  assert (StreamManifest collect raw no_options [] =
    let! (flds, s) := stream_loop collect no_options (S (length (fields l ++ [TCloseObj]))) ∅ [] (stream_start []) (fields l ++ [TCloseObj]) in
    let! m := ok_or (unmarshal_header flds) RE_Parse in
    let! _ := guard_err (negb (String.eqb (m_Schema m) Schema)) RE_Schema in
    inr {| si_Manifest := m; si_visit := ss_visit s; si_Files := ss_Files s; si_Bytes := ss_Bytes s;
           si_ChunkRefs := ss_ChunkRefs s; si_Verified := false |}) as ->.
  { unfold StreamManifest. rewrite Ho, Hc. destruct (stream_loop _ _ _ _ _ _ _) as [e|[flds s]]; [done|]. cbn.
    destruct (unmarshal_header flds) as [m|]; [|done]. cbn. by destruct (negb _). }
  destruct (stream_loop _ _ _ _ _ _ _) as [e|[flds s]]; cbn [bind_err].
  - destruct (rejectDuplicateKeys (tokenize raw)); [by eexists|]. cbn. destruct H as [H|H]; [by destruct H; apply Hd|].
    rewrite (unmarshal_split raw l Ht Hc) by (by apply Hd). rewrite H. destruct (unmarshal_header _); by eexists.
  - destruct H as (Hu & -> & files & Hf & Hcnt). rewrite (proj2 Hd Hu). cbn.
    rewrite (unmarshal_split raw l Ht Hc Hu), Hf.
    destruct (unmarshal_header (filter (fun kv => kv.1 <> "files") l)) as [m|] eqn:Hm; [|by eexists]. cbn.
    destruct (negb _); [by eexists|]. unfold counts in Hcnt. injection Hcnt as -> -> -> ->. cbn. unfold streamed. cbn.
    rewrite with_files_twice, with_files_own; [done|]. eapply unmarshal_header_files; [|exact Hm].
    intros v [Hne _]%list_elem_of_filter. done.
Qed.

(** Signing then reading back: a manifest signed with a key pair, encoded and stored is read by a
    verifier of that key, and by its embedded key, as the same manifest. *)
Theorem signed_manifest_verifies `{SG : Signing} `{MJ : ManifestJSON} (s : Signer) (m : Manifest) :
  keypair s -> m_Schema m = Schema -> encodable (Sign s m) ->
  ParseAndVerify (MarshalToBytes (Sign s m)) (Some (verifier_of s)) = inr (Sign s m) /\
  VerifyEmbedded (MarshalToBytes (Sign s m)) = inr (Sign s m).
Proof.
  intros Hk Hs He. unfold ParseAndVerify, VerifyEmbedded. rewrite ParseAttestationless_encode by done.
  unfold check_attestation, match_keys, matchPublicKeys.
  cbn -[LoadVerifier base64_DecodeString base64_EncodeToString Verify Canonicalize PublicKeyPEM verifier_of].
  rewrite LoadVerifier_PEM, base64_groups_encode. unfold publicKeyEquals. rewrite !String.eqb_refl.
  cbn -[Verify Canonicalize verifier_of]. pose proof (Verify_Sign s m Hk) as Hv.
  rewrite <- (Canonicalize_Sign s m) in Hv at 1. by rewrite Hv.
Qed.
