(* ===== verification/SampleJson.v ===== *)
(** A concrete document format and signature scheme, on which the models of the manifest code are
    evaluated: documents are token streams written out, a manifest is an object with its ids, a
    header and its files, and a signature is the key and the message. *)
From S2P Require Import Prelude GoString Storage Lsn Hash Json BackupManifest ManifestRead.
From Stdlib Require Import Ascii.

Local Open Scope string_scope.
Local Open Scope list_scope.
Local Open Scope Z_scope.
#[local] Arguments String.append : simpl nomatch.

(** ** Tokens as text *)

Fixpoint escape (s : string) : string :=
  match s with
  | EmptyString => "|"
  | String c s =>
      if Ascii.eqb c "|" then String backslash (String "p" (escape s))
      else if Ascii.eqb c backslash then String backslash (String "b" (escape s))
      else String c (escape s)
  end.

Fixpoint unescape (s : string) : option (string * string) :=
  match s with
  | EmptyString => None
  | String c s =>
      if Ascii.eqb c "|" then Some ("", s)
      else if Ascii.eqb c backslash then
        match s with
        | String d s =>
            match unescape s with
            | Some (x, y) => Some (String (if Ascii.eqb d "p" then "|"%char else backslash) x, y)
            | None => None
            end
        | EmptyString => None
        end
      else match unescape s with Some (x, y) => Some (String c x, y) | None => None end
  end.

Lemma unescape_escape s rest : unescape (escape s +:+ rest) = Some (s, rest).
Proof.
  induction s as [|c s IH]; [done|]. cbn [escape]. destruct (Ascii.eqb_spec c "|") as [->|Hb].
  - cbn. by rewrite IH.
  - destruct (Ascii.eqb_spec c backslash) as [->|Hs]; [cbn; by rewrite IH|].
    cbn [String.append unescape]. destruct (Ascii.eqb_spec c "|"); [done|]. destruct (Ascii.eqb_spec c backslash); [done|].
    by rewrite IH.
Qed.

Definition print_token (t : token) : string :=
  match t with
  | TOpenObj => "{" | TCloseObj => "}" | TOpenArr => "[" | TCloseArr => "]"
  | TNull => "n" | TBool true => "t" | TBool false => "f"
  | TNum s => "#" +:+ escape s
  | TStr s => "'" +:+ escape s
  end.

Definition print (l : list token) : string := foldr (fun t s => print_token t +:+ s) "" l.

Fixpoint lex (fuel : nat) (s : string) : list token :=
  match fuel, s with
  | S fuel, String c s =>
      if Ascii.eqb c "{" then TOpenObj :: lex fuel s
      else if Ascii.eqb c "}" then TCloseObj :: lex fuel s
      else if Ascii.eqb c "[" then TOpenArr :: lex fuel s
      else if Ascii.eqb c "]" then TCloseArr :: lex fuel s
      else if Ascii.eqb c "n" then TNull :: lex fuel s
      else if Ascii.eqb c "t" then TBool true :: lex fuel s
      else if Ascii.eqb c "f" then TBool false :: lex fuel s
      else if Ascii.eqb c "#" then match unescape s with Some (x, s) => TNum x :: lex fuel s | None => [] end
      else match unescape s with Some (x, s) => TStr x :: lex fuel s | None => [] end
  | _, _ => []
  end.

Lemma lex_print l : forall fuel, (length l <= fuel)%nat -> lex fuel (print l) = l.
Proof.
  induction l as [|t l IH]; intros fuel Hf; [by destruct fuel|]. destruct fuel as [|fuel]; cbn in Hf; [lia|].
  change (print (t :: l)) with (print_token t +:+ print l).
  destruct t as [| | | | |[]|s|s]; try (cbn -[print]; f_equal; apply IH; lia); cbn [print_token].
  - change (("#" +:+ escape s) +:+ print l) with (String "#" (escape s +:+ print l)). cbn -[print unescape escape].
    rewrite unescape_escape. f_equal. apply IH. lia.
  - change (("'" +:+ escape s) +:+ print l) with (String "'" (escape s +:+ print l)). cbn -[print unescape escape].
    rewrite unescape_escape. f_equal. apply IH. lia.
Qed.

Lemma print_length l : (length l <= String.length (print l))%nat.
Proof.
  induction l as [|t l IH]; [done|]. cbn [print foldr length]. rewrite string_app_length. fold (print l).
  destruct t as [| | | | |[]|s|s]; cbn; lia.
Qed.

Definition sample_tokenize (raw : string) : list token := lex (String.length raw) raw.

Lemma sample_tokenize_print l : sample_tokenize (print l) = l.
Proof. apply lex_print, print_length. Qed.

(** ** Headers and files *)

Definition header_tuple (m : Manifest) :=
  (m_Schema m, m_Deployment m, m_Tenant m, m_Type m, (m_PGVersion m, m_SystemIdentifier m, m_StartLSN m, m_StopLSN m, m_Timeline m),
   (m_StartedAt m, m_StoppedAt m, m_Compression m),
   option_map (fun e => (ei_Scheme e, ei_KEKRef e, ei_WrappedDEK e, ei_EnvelopeVersion e)) (m_Encryption m),
   option_map (fun t => (tde_Engine t, tde_KeyRef t)) (m_SourceTDE m),
   map (fun t => (ts_OID t, ts_Location t)) (m_Tablespaces m),
   map (fun d => (de_Path d, de_Mode d, de_TablespaceOID d)) (m_Dirs m),
   (m_WALRequired m, m_BackupLabel m, m_TablespaceMap m, m_PGBackupManifest m),
   map (fun g => (mg_SlotName g, mg_SlotRole g, mg_Timeline g, mg_GapStartLSN g, mg_GapEndLSN g, mg_GapBytes g, mg_DetectedAt g)) (m_WALGaps m),
   option_map (fun a => (at_Scheme a, at_PublicKey a, at_Signature a)) (m_Attestation m)).

Definition header_type : Type :=
  string * string * string * string * (Z * string * string * string * Z) * (time * time * string) *
  option (string * string * string * Z) * option (string * string) * list (Z * string) * list (string * Z * Z) *
  (list string * string * string * string) * list (string * string * Z * string * string * Z * time) *
  option (string * string * string).

#[export] Instance header_countable : Countable header_type.
Proof. unfold header_type, time. apply _. Defined.

Definition header_of (id parent : string) (h : header_type) : Manifest :=
  let '(schema, dep, tenant, ty, (pg, sys, start, stop, tli), (t1, t2, comp), enc, tde, ts, dirs,
        (wal, label, tsmap, pgm), gaps, att) := h in
  {| m_Schema := schema; m_BackupID := id; m_Deployment := dep; m_Tenant := tenant; m_Type := ty; m_ParentBackupID := parent;
     m_PGVersion := pg; m_SystemIdentifier := sys; m_StartLSN := start; m_StopLSN := stop; m_Timeline := tli;
     m_StartedAt := t1; m_StoppedAt := t2; m_Compression := comp;
     m_Encryption := option_map (fun '(a, b, c, d) => {| ei_Scheme := a; ei_KEKRef := b; ei_WrappedDEK := c; ei_EnvelopeVersion := d |}) enc;
     m_SourceTDE := option_map (fun '(a, b) => {| tde_Engine := a; tde_KeyRef := b |}) tde;
     m_Tablespaces := map (fun '(a, b) => {| ts_OID := a; ts_Location := b |}) ts; m_Files := [];
     m_Dirs := map (fun '(a, b, c) => {| de_Path := a; de_Mode := b; de_TablespaceOID := c |}) dirs;
     m_WALRequired := wal; m_BackupLabel := label; m_TablespaceMap := tsmap; m_PGBackupManifest := pgm;
     m_WALGaps := map (fun '(a, b, c, d, e, f, g) => {| mg_SlotName := a; mg_SlotRole := b; mg_Timeline := c;
        mg_GapStartLSN := d; mg_GapEndLSN := e; mg_GapBytes := f; mg_DetectedAt := g |}) gaps;
     m_Attestation := option_map (fun '(a, b, c) => {| at_Scheme := a; at_PublicKey := b; at_Signature := c |}) att |}.

Lemma option_map_id {A B} (f : A -> B) (g : B -> A) o : (forall x, g (f x) = x) -> option_map g (option_map f o) = o.
Proof. intros H. destruct o; cbn; [by rewrite H|done]. Qed.

Lemma list_map_id {A B} (f : A -> B) (g : B -> A) l : (forall x, g (f x) = x) -> map g (map f l) = l.
Proof. intros H. rewrite map_map, <- (map_id l) at 1. rewrite map_id. induction l; cbn; by rewrite ?H, ?IHl. Qed.

Lemma header_of_tuple m : header_of (m_BackupID m) (m_ParentBackupID m) (header_tuple m) = with_files m [].
Proof.
  destruct m. unfold header_of, header_tuple, with_files. cbn.
  rewrite !option_map_id, !list_map_id by (by intros []). done.
Qed.

Definition file_tuple (f : FileEntry) :=
  (fe_Path f, fe_Size f, fe_Mode f, fe_ModTime f, fe_TablespaceOID f, map (fun c => (cr_Hash c, cr_Offset c, cr_Len c)) (fe_Chunks f)).

Definition file_type : Type := string * Z * Z * time * Z * list (Hash * Z * Z).

#[export] Instance file_countable : Countable file_type.
Proof. unfold file_type, time, Hash. apply _. Defined.

Definition file_of (t : file_type) : FileEntry :=
  let '(p, s, m, mt, o, cs) := t in
  {| fe_Path := p; fe_Size := s; fe_Mode := m; fe_ModTime := mt; fe_TablespaceOID := o;
     fe_Chunks := map (fun '(h, o, l) => {| cr_Hash := h; cr_Offset := o; cr_Len := l |}) cs |}.

Lemma file_of_tuple f : file_of (file_tuple f) = f.
Proof. destruct f. unfold file_of, file_tuple. cbn. rewrite list_map_id by (by intros []). done. Qed.

#[local] Instance header_codec : Codec string header_type := countable_codec.
#[local] Instance file_codec : Codec string file_type := countable_codec.

Definition sample_unmarshal_file (j : json) : option FileEntry :=
  match j with JStr s => option_map file_of (decode (T := file_type) s) | _ => None end.

Definition string_value (o : option json) : string := match o with Some (JStr s) => s | _ => "" end.

Definition sample_unmarshal_header (l : list (string * json)) : option Manifest :=
  match field "header" l with
  | Some (JStr s) => option_map (header_of (string_value (field "backup_id" l)) (string_value (field "parent_backup_id" l))) (decode (T := header_type) s)
  | _ => None
  end.

Definition sample_document (m : Manifest) : list (string * json) :=
  [("backup_id", JStr (m_BackupID m)); ("parent_backup_id", JStr (m_ParentBackupID m));
   ("header", JStr (encode (T := header_type) (header_tuple m)));
   ("files", JArr (map (fun f => JStr (encode (T := file_type) (file_tuple f))) (m_Files m)))].

Definition sample_unmarshal (raw : string) : option Manifest :=
  match Decode (sample_tokenize raw) with
  | Some (JObj l, []) =>
      match sample_unmarshal_header (filter (fun kv => kv.1 <> "files") l), file_list sample_unmarshal_file (field "files" l) with
      | Some m, Some files => Some (with_files m files)
      | _, _ => None
      end
  | _ => None
  end.

Definition sample_encode (m : Manifest) : string := print (tokens (JObj (sample_document m))).

Lemma sample_files l : mapM sample_unmarshal_file (map (fun f => JStr (encode (T := file_type) (file_tuple f))) l) = Some l.
Proof.
  induction l as [|f l IH]; [done|].
  assert (sample_unmarshal_file (JStr (encode (T := file_type) (file_tuple f))) = Some f) as Hf.
  { unfold sample_unmarshal_file. rewrite decode_encode. cbn [option_map]. f_equal. apply file_of_tuple. }
  cbn [map mapM]. rewrite Hf. cbn -[sample_unmarshal_file encode]. by rewrite IH.
Qed.

Lemma sample_unmarshal_encode m : sample_unmarshal (sample_encode m) = Some m.
Proof.
  unfold sample_unmarshal, sample_encode. rewrite sample_tokenize_print, <- (app_nil_r (tokens _)), Decode_tokens.
  assert (sample_unmarshal_header (filter (fun kv => kv.1 <> "files") (sample_document m)) = Some (with_files m [])) as ->.
  { change (filter _ (sample_document m)) with (take 3 (sample_document m)). unfold sample_unmarshal_header.
    change (field "header" (take 3 (sample_document m))) with (Some (JStr (encode (T := header_type) (header_tuple m)))).
    cbv beta iota. rewrite decode_encode. cbn [option_map]. f_equal. apply header_of_tuple. }
  change (field "files" (sample_document m)) with (Some (JArr (map (fun f => JStr (encode (T := file_type) (file_tuple f))) (m_Files m)))).
  cbn [file_list]. rewrite sample_files. by destruct m.
Qed.

Lemma sample_document_unambiguous m : unambiguous (JObj (sample_document m)).
Proof.
  constructor.
  - repeat (apply Forall_cons_2; [done|]). apply Forall_nil_2.
  - cbn. repeat (apply NoDup_cons_2; [set_solver|]). constructor.
  - intros k x H. unfold sample_document in H. rewrite !elem_of_cons in H.
    destruct H as [[= _ ->]|[[= _ ->]|[[= _ ->]|[[= _ ->]|H]]]]; [constructor..| |inversion H].
    constructor. intros y (f & -> & _)%list_elem_of_fmap. constructor.
Qed.

#[export] Program Instance sample_json : ManifestJSON := {|
  tokenize := sample_tokenize; clean_end := fun _ => true; unmarshal_manifest := sample_unmarshal;
  unmarshal_header := sample_unmarshal_header; unmarshal_file := sample_unmarshal_file;
  encode_manifest := sample_encode; encode_file := fun f => encode (T := file_type) (file_tuple f); encodable := fun _ => True |}.
Next Obligation. intros m _. apply sample_unmarshal_encode. Qed.
Next Obligation.
  intros m _. exists (JObj (sample_document m)). split; [apply sample_tokenize_print|apply sample_document_unambiguous].
Qed.
Next Obligation.
  intros raw l Ht _ _. unfold sample_unmarshal. change (sample_tokenize raw = tokens (JObj l)) in Ht.
  by rewrite Ht, <- (app_nil_r (tokens _)), Decode_tokens.
Qed.
Next Obligation.
  intros l m _. unfold sample_unmarshal_header. destruct (field "header" l) as [[| | |s| |]|]; try done.
  destruct (decode s) as [h|]; [|done]. cbn. intros [= <-]. unfold header_of. repeat case_match. done.
Qed.

(** ** Signatures *)

#[local] Instance pem_codec : Codec string (string * string) := countable_codec.

Definition sample_public (priv : string) : string := "public " +:+ priv.
Definition sample_sign (priv msg : string) : string := sample_public priv +:+ "#" +:+ msg.

#[export] Program Instance sample_signing : Signing := {|
  pem_decode := decode (T := string * string); pem_encode := fun t b => encode (t, b);
  ParsePKIXPublicKey := Some; MarshalPKIXPublicKey := fun p => p;
  ed25519_Public := sample_public; ed25519_Sign := sample_sign;
  ed25519_Verify := fun pub msg sig => String.eqb sig (pub +:+ "#" +:+ msg) |}.
Next Obligation. intros t b. apply decode_encode. Qed.
Next Obligation. done. Qed.
Next Obligation. intros priv msg. apply String.eqb_refl. Qed.

Definition sample_signer : Signer := {| sg_priv := "k"; sg_pub := sample_public "k" |}.

(** ** Witnesses *)

Lemma signed_manifest_verifies_witness :
  ParseAndVerify (MarshalToBytes (Sign sample_signer sample_manifest)) (Some (verifier_of sample_signer)) =
  inr (Sign sample_signer sample_manifest).
Proof. exact (proj1 (signed_manifest_verifies sample_signer sample_manifest eq_refl eq_refl I)). Defined.

Lemma StreamManifest_exact_witness :
  match ParseAttestationless (MarshalToBytes sample_manifest) with
  | inr m => StreamManifest (L := hex_lsn) collect (MarshalToBytes sample_manifest) no_options [] = inr (streamed m)
  | inl _ => False
  end.
Proof.
  pose proof (StreamManifest_exact (L := hex_lsn) (MarshalToBytes sample_manifest) (sample_document sample_manifest)
    (sample_tokenize_print _) eq_refl) as H.
  rewrite (ParseAttestationless_encode (MJ := sample_json) sample_manifest I eq_refl) in H |- *. exact H.
Defined.

(** A document that repeats a key is refused by both readers. *)
Example repeated_key_refused :
  let raw := print (tokens (JObj [("schema", JStr Schema); ("files", JArr []); ("files", JNull)])) in
  ParseAttestationless raw = inl RE_Ambiguous /\ StreamManifest (L := hex_lsn) collect raw no_options [] = inl RE_Ambiguous.
Proof. by vm_compute. Qed.
