(* ===== verification/ManifestStore.v ===== *)
(** The manifest store (internal/backup/manifest_store.go, manifest_files.go, chunk_check.go): where a
    manifest, its replica, its tombstone and its index marker are, how a manifest is committed, and
    how it is read and listed.

    A sequence of entries is the list a consumer that reads it to the end sees.  A streamed manifest
    is its header and a handle on the object its file list is read from again.  Contexts are never
    cancelled, the back-off of the replica's retries only lets time pass, and the logger of replica
    failures is not modelled.  [sha256] is the digest of an object's bytes. *)
From S2P Require Import Prelude GoString Storage Concur Commit Lsn Hash Json BackupManifest ManifestRead.
From Stdlib Require Import Ascii.

Local Open Scope string_scope.
Local Open Scope list_scope.
Local Open Scope Z_scope.
#[local] Arguments String.append : simpl nomatch.

(** ** Names *)

Definition illegal_byte (c : ascii) : bool :=
  (byte_of c =? 47) || (byte_of c =? 92) || (byte_of c <? 32) || (byte_of c =? 127).

Inductive id_err := IdEmpty | IdReserved | IdIllegal.

(** A name that is one path component.  The runes looked for are single bytes. *)
Definition validateStorageID (s : string) : option id_err :=
  if String.eqb s "" then Some IdEmpty
  else if String.eqb s "." || String.eqb s ".." then Some IdReserved
  else if all_chars (fun c => negb (illegal_byte c)) s then None else Some IdIllegal.

Definition validateRef (deployment backupID : string) : option id_err :=
  match validateStorageID deployment with
  | Some e => Some e
  | None => validateStorageID backupID
  end.

Definition MaxManifestBytes : Z := Z.shiftl 1 30.

Definition backups_prefix (deployment : string) : string := "manifests/" +:+ deployment +:+ "/backups/".

Definition PrimaryPath (deployment backupID : string) : string :=
  backups_prefix deployment +:+ backupID +:+ "/manifest.json".

Definition ReplicaPath (backupID : string) : string := "manifests/_replicas/" +:+ backupID +:+ ".manifest.json".

Definition TombstonePath (deployment backupID : string) : string := PrimaryPath deployment backupID +:+ ".tombstone".

Definition manifestSuffix : string := "/manifest.json".
Definition tombstoneSuffix : string := "/manifest.json.tombstone".

(** What a listing of a deployment's backups shows: the manifest keys, in listing order, and the ids
    with a tombstone. *)
Definition id_of (prefix key : string) : option string :=
  match CutByte (TrimPrefix key prefix) slash with
  | Some (id, _) => if String.eqb id "" then None else Some id
  | None => None
  end.

Definition sort_key (prefix : string) (st : list string * gset string) (i : ObjectInfo) : list string * gset string :=
  if HasSuffix (Key i) tombstoneSuffix then
    match id_of prefix (Key i) with Some id => (st.1, {[id]} ∪ st.2) | None => st end
  else if HasSuffix (Key i) manifestSuffix then (st.1 ++ [Key i], st.2)
  else st.

Definition sort_keys (prefix : string) (infos : list ObjectInfo) : list string * gset string :=
  foldl (sort_key prefix) ([], ∅) infos.

Definition is_dead (prefix : string) (tombstoned : gset string) (key : string) : bool :=
  match id_of prefix key with Some id => bool_decide (id ∈ tombstoned) | None => false end.

(** ** Errors of a read *)

Inductive get_error :=
| GE_Ref (e : id_err)
| GE_Store (e : serr)
| GE_TombstoneCheck (e : serr)
| GE_Tombstoned
| GE_TooLarge
| GE_Read (e : read_err)
| GE_Identity
| GE_NoVerifier
| GE_Missing
| GE_BothFailed (primary replica : get_error).

(** [errors.Is(err, storage.ErrNotFound)] *)
Fixpoint ge_is_not_found (e : get_error) : bool :=
  match e with
  | GE_Store ErrNotFound | GE_TombstoneCheck ErrNotFound | GE_Missing => true
  | GE_BothFailed p _ => ge_is_not_found p
  | _ => false
  end.

Definition of_read {A} (r : read_err + A) : result get_error A :=
  match r with inl e => Err (GE_Read e) | inr a => Ok a end.

Record ManifestEntry := { en_Manifest : Manifest; en_Tombstoned : bool }.

(** A marker of the deployment index, and the sentinel (no name). *)
Record deploymentMarker := { dm_Schema : string; dm_Deployment : string }.

(** A manifest as a reader holds it: whole, or its header and where its file list is. *)
Record fileStream := { fs_key : string; fs_sha : string; fs_files : Z; fs_bytes : Z; fs_chunkRefs : Z }.

Record handle := { hd_Manifest : Manifest; hd_stream : option fileStream }.

Definition held (m : Manifest) : handle := {| hd_Manifest := m; hd_stream := None |}.

Section store.
Context (sha256 : string -> string).
Context `{CM : Codec string deploymentMarker}.
Context `{SG : Signing} `{MJ : ManifestJSON} `{L : LSN}.

(** ** Tombstones *)

Definition IsTombstoned (deployment backupID : string) : prog string (result (id_err + serr) bool) :=
  match validateRef deployment backupID with
  | Some e => Ret (Err (inl e))
  | None =>
      let* r := sStat (TombstonePath deployment backupID) in
      match r with
      | Ok _ => Ret (Ok true)
      | Err ErrNotFound => Ret (Ok false)
      | Err e => Ret (Err (inr e))
      end
  end.

Definition tombstone_err (e : id_err + serr) : get_error :=
  match e with inl e => GE_Ref e | inr e => GE_TombstoneCheck e end.

Definition removeTombstone (deployment backupID : string) : prog string (result serr bool) :=
  let* r := sDelete (TombstonePath deployment backupID) in
  match r with
  | Ok _ => Ret (Ok true)
  | Err ErrNotFound => Ret (Ok false)
  | Err e => Ret (Err e)
  end.

(** ** Reading *)

Definition read_body (key : string) : prog string (result get_error string) :=
  let* r := sGet key in
  match r with
  | Err e => Ret (Err (GE_Store e))
  | Ok body =>
      match ReadAllLimited body MaxManifestBytes with
      | None => Ret (Err GE_TooLarge)
      | Some b => Ret (Ok b)
      end
  end.

Definition readVerified (key : string) (verifier : option Verifier) : prog string (result get_error Manifest) :=
  let* r := read_body key in
  match r with
  | Err e => Ret (Err e)
  | Ok b => Ret (of_read (ParseAndVerify b verifier))
  end.

Definition same_identity (m : Manifest) (deployment backupID : string) : bool :=
  String.eqb (m_Deployment m) deployment && String.eqb (m_BackupID m) backupID.

Definition readVerifiedFor (key : string) (verifier : option Verifier) (deployment backupID : string)
    : prog string (result get_error Manifest) :=
  let* r := readVerified key verifier in
  match r with
  | Err e => Ret (Err e)
  | Ok m => if same_identity m deployment backupID then Ret (Ok m) else Ret (Err GE_Identity)
  end.

(** Both copies failed. *)
Definition read_failed (primary replica : get_error) : get_error :=
  if ge_is_not_found primary && ge_is_not_found replica then GE_Missing else GE_BothFailed primary replica.

Definition ReadAttestationless (deployment backupID : string) : prog string (result get_error Manifest) :=
  let* dead := IsTombstoned deployment backupID in
  match dead with
  | Err e => Ret (Err (tombstone_err e))
  | Ok true => Ret (Err GE_Tombstoned)
  | Ok false =>
      let replica :=
        let* r := read_body (ReplicaPath backupID) in
        match r with Err e => Ret (Err e) | Ok b => Ret (of_read (ParseAttestationless b)) end in
      let* r := read_body (PrimaryPath deployment backupID) in
      match r with
      | Err _ => replica
      | Ok b => match ParseAttestationless b with inr m => Ret (Ok m) | inl _ => replica end
      end
  end.

Definition Read (deployment backupID : string) (verifier : option Verifier) : prog string (result get_error Manifest) :=
  match validateRef deployment backupID with
  | Some e => Ret (Err (GE_Ref e))
  | None =>
      let* dead := IsTombstoned deployment backupID in
      match dead with
      | Err e => Ret (Err (tombstone_err e))
      | Ok true => Ret (Err GE_Tombstoned)
      | Ok false =>
          let* p := readVerifiedFor (PrimaryPath deployment backupID) verifier deployment backupID in
          match p with
          | Ok m => Ret (Ok m)
          | Err perr =>
              let* r := readVerified (ReplicaPath backupID) verifier in
              match r with
              | Ok m => if same_identity m deployment backupID then Ret (Ok m)
                        else Ret (Err (read_failed perr GE_Identity))
              | Err rerr => Ret (Err (read_failed perr rerr))
              end
          end
      end
  end.

Definition ReadIncludingTombstoned (deployment backupID : string) (verifier : option Verifier)
    : prog string (result get_error (Manifest * bool)) :=
  if String.eqb deployment "" || String.eqb backupID "" then Ret (Err (GE_Ref IdEmpty))
  else
    let* dead := IsTombstoned deployment backupID in
    match dead with
    | Err e => Ret (Err (tombstone_err e))
    | Ok dead =>
        let* p := readVerifiedFor (PrimaryPath deployment backupID) verifier deployment backupID in
        match p with
        | Ok m => Ret (Ok (m, dead))
        | Err perr =>
            let* r := readVerifiedFor (ReplicaPath backupID) verifier deployment backupID in
            match r with
            | Ok m => Ret (Ok (m, dead))
            | Err rerr => Ret (Err (read_failed perr rerr))
            end
        end
    end.

(** The header of a streamed manifest. *)
Definition streamHeader (key : string) (o : StreamOptions) : prog string (result get_error handle) :=
  let* r := sGet key in
  match r with
  | Err e => Ret (Err (GE_Store e))
  | Ok body =>
      match StreamManifest collect body o [] with
      | inl e => Ret (Err (GE_Read e))
      | inr info => Ret (Ok {| hd_Manifest := si_Manifest info;
          hd_stream := Some {| fs_key := key; fs_sha := sha256 body; fs_files := si_Files info;
                               fs_bytes := si_Bytes info; fs_chunkRefs := si_ChunkRefs info |} |})
      end
  end.

Definition readManifestUnverified (deployment backupID : string) : prog string (result get_error handle) :=
  let* r := streamHeader (PrimaryPath deployment backupID) no_options in
  match r with
  | Ok m => Ret (Ok m)
  | Err _ => streamHeader (ReplicaPath backupID) no_options
  end.

Inductive each_err := EF_Get (e : serr) | EF_Parse (e : read_err) | EF_Changed.

(** [EachFile] with a callback that does not fail: the entries delivered. *)
Definition EachFile (m : handle) : prog string (result each_err (list FileEntry)) :=
  match hd_stream m with
  | None => Ret (Ok (m_Files (hd_Manifest m)))
  | Some fs =>
      let* r := sGet (fs_key fs) in
      match r with
      | Err e => Ret (Err (EF_Get e))
      | Ok body =>
          match StreamManifest collect body no_options [] with
          | inl e => Ret (Err (EF_Parse e))
          | inr info => if String.eqb (sha256 body) (fs_sha fs) then Ret (Ok (si_visit info)) else Ret (Err EF_Changed)
          end
      end
  end.

(** ** Listing *)

(** One pass over the manifest keys: the entries and errors a consumer sees, in order. *)
Fixpoint each_key {A} (one : string -> prog string (option (result get_error A))) (keys : list string)
    : prog string (list (result get_error A)) :=
  match keys with
  | [] => Ret []
  | key :: keys =>
      let* r := one key in
      let* rest := each_key one keys in
      Ret (match r with Some x => x :: rest | None => rest end)
  end.

Definition sort_strings (l : list string) : list string := stable_sort string_ltb l.

Definition list_backups {A} (deployment : string)
    (one : gset string -> string -> prog string (option (result get_error A))) : prog string (list (result get_error A)) :=
  let prefix := backups_prefix deployment in
  let* l := sList prefix in
  match l with
  | (_, Some e) => Ret [Err (GE_Store e)]
  | (infos, None) =>
      let '(keys, tombstoned) := sort_keys prefix infos in
      each_key (one tombstoned) (sort_strings keys)
  end.

Definition listAttestationless (deployment : string) (includeTombstoned : bool)
    : prog string (list (result get_error ManifestEntry)) :=
  match validateStorageID deployment with
  | Some e => Ret [Err (GE_Ref e)]
  | None =>
      list_backups deployment (fun tombstoned key =>
        let dead := is_dead (backups_prefix deployment) tombstoned key in
        if dead && negb includeTombstoned then Ret None
        else
          let* r := read_body key in
          Ret (Some (match r with
                     | Err e => Err e
                     | Ok b => match ParseAttestationless b with
                               | inl e => Err (GE_Read e)
                               | inr m => Ok {| en_Manifest := m; en_Tombstoned := dead |}
                               end
                     end)))
  end.

(** An entry read under a key must be the entry the key names. *)
Definition check_placed (prefix deployment key : string) (r : result get_error Manifest) : result get_error Manifest :=
  match r, id_of prefix key with
  | Ok m, Some id => if same_identity m deployment id then Ok m else Err GE_Identity
  | r, _ => r
  end.

Definition List_ (deployment : string) (verifier : option Verifier) : prog string (list (result get_error Manifest)) :=
  let prefix := backups_prefix deployment in
  list_backups deployment (fun tombstoned key =>
    if is_dead prefix tombstoned key then Ret None
    else
      let* r := readVerified key verifier in
      Ret (Some (check_placed prefix deployment key r))).

Definition ListIncludingTombstoned (deployment : string) (verifier : option Verifier)
    : prog string (list (result get_error ManifestEntry)) :=
  let prefix := backups_prefix deployment in
  list_backups deployment (fun tombstoned key =>
    let* r := readVerified key verifier in
    Ret (Some (match check_placed prefix deployment key r with
               | Ok m => Ok {| en_Manifest := m; en_Tombstoned := is_dead prefix tombstoned key |}
               | Err e => Err e
               end))).

Definition AutoStreamThreshold : Z := Z.shiftl 64 20.

Definition readHeld (key : string) (verifier : option Verifier) : prog string (result get_error handle) :=
  let* r :=
    match verifier with
    | Some v => readVerified key (Some v)
    | None =>
        let* r := read_body key in
        match r with Err e => Ret (Err e) | Ok b => Ret (of_read (ParseAttestationless b)) end
    end in
  Ret (match r with Ok m => Ok (held m) | Err e => Err e end).

Definition stream_options (verifier : option Verifier) : StreamOptions :=
  match verifier with Some v => verifying v | None => no_options end.

(** The size of a listed key: a later entry replaces an earlier one. *)
Definition size_of_key (infos : list ObjectInfo) (key : string) : Z :=
  match List.find (fun i => String.eqb (Key i) key) (rev infos) with Some i => Size i | None => 0 end.

Definition list_streaming {A} (entry : handle -> bool -> A) (deployment : string) (verifier : option Verifier)
    (ok includeTombstoned auto : bool) : prog string (list (result get_error A)) :=
  if negb ok then Ret [Err GE_NoVerifier]
  else match validateStorageID deployment with
  | Some e => Ret [Err (GE_Ref e)]
  | None =>
      let prefix := backups_prefix deployment in
      let* l := sList prefix in
      match l with
      | (_, Some e) => Ret [Err (GE_Store e)]
      | (infos, None) =>
          let '(keys, tombstoned) := sort_keys prefix infos in
          each_key (fun key =>
            let dead := is_dead prefix tombstoned key in
            if dead && negb includeTombstoned then Ret None
            else
              let* r := if auto && (size_of_key infos key <=? AutoStreamThreshold)
                        then readHeld key verifier
                        else streamHeader key (stream_options verifier) in
              Ret (Some (match r with
                         | Ok h => Ok (entry h dead)
                         | Err e => Err e
                         end))) (sort_strings keys)
      end
  end.

Definition listStreamingEntries (deployment : string) (verifier : option Verifier) (ok includeTombstoned auto : bool)
    : prog string (list (result get_error ManifestEntry)) :=
  list_streaming (fun h dead => {| en_Manifest := hd_Manifest h; en_Tombstoned := dead |}) deployment verifier ok includeTombstoned auto.

Definition is_some {A} (o : option A) : bool := match o with Some _ => true | None => false end.

Definition entry_manifest (r : result get_error ManifestEntry) : result get_error Manifest :=
  match r with Ok e => Ok (en_Manifest e) | Err e => Err e end.

Definition ListHeaders (deployment : string) (verifier : option Verifier) : prog string (list (result get_error Manifest)) :=
  let* l := listStreamingEntries deployment verifier (is_some verifier) false false in
  Ret (map entry_manifest l).

Definition ListAuto (deployment : string) (verifier : option Verifier) : prog string (list (result get_error Manifest)) :=
  let* l := listStreamingEntries deployment verifier (is_some verifier) false true in
  Ret (map entry_manifest l).

(** The entries as they are held, with whether each is soft-deleted. *)
Definition ListIncludingTombstonedAuto (deployment : string) (verifier : option Verifier)
    : prog string (list (result get_error (handle * bool))) :=
  list_streaming pair deployment verifier (is_some verifier) true true.

Definition ListAttestationlessHeaders (deployment : string) : prog string (list (result get_error Manifest)) :=
  let* l := listStreamingEntries deployment None true false false in
  Ret (map entry_manifest l).

(** ** The deployment index *)

Definition deploymentIndexPrefix : string := "deployments/names/".
Definition deploymentIndexSentinel : string := "deployments/_initialized".
Definition deploymentIndexSchema : string := "pg_hardstorage.deployment.index.v1".

Definition deploymentMarkerKey (name : string) : string := deploymentIndexPrefix +:+ name.

Definition marker_body (name : string) : string :=
  encode {| dm_Schema := deploymentIndexSchema; dm_Deployment := name |}.

Definition put_options (exclusive : bool) (body : string) : PutOptions :=
  {| IfNotExists := exclusive; ContentLength := Z.of_nat (String.length body); RetainUntil := Time.zero; RetentionMode := WORMNone |}.

Definition putDeploymentMarker (name : string) : prog string (result serr unit) :=
  if String.eqb name "" || String.eqb name "_replicas" then Ret (Ok ())
  else
    let* r := sPut (deploymentMarkerKey name) (marker_body name) (put_options true (marker_body name)) in
    match r with
    | Ok _ | Err ErrAlreadyExists => Ret (Ok ())
    | Err e => Ret (Err e)
    end.

Definition indexDeployment (name : string) : prog string unit :=
  let* r := putDeploymentMarker name in
  match r with
  | Ok _ => Ret ()
  | Err _ => let* _ := sDelete deploymentIndexSentinel in Ret ()
  end.

(** The names under manifests/, without repetition, sorted. *)
Definition deployment_of (key : string) : option string :=
  if HasPrefix key "manifests/" then
    match CutByte (TrimPrefix key "manifests/") slash with
    | Some (name, _) => if String.eqb name "" || String.eqb name "_replicas" then None else Some name
    | None => None
    end
  else None.

Definition scanDeployments : prog string (result serr (list string)) :=
  let* l := sList "manifests/" in
  match l with
  | (_, Some e) => Ret (Err e)
  | (infos, None) => Ret (Ok (sort_strings (elements (list_to_set (C := gset string) (omap deployment_of (map Key infos))))))
  end.

Definition listDeploymentIndex : prog string (result serr (list string)) :=
  let* l := sList deploymentIndexPrefix in
  match l with
  | (_, Some e) => Ret (Err e)
  | (infos, None) =>
      Ret (Ok (sort_strings (filter (fun n => n <> "" /\ Contains n "/" = false)
        (map (fun i => TrimPrefix (Key i) deploymentIndexPrefix) infos))))
  end.

Definition backfillDeploymentIndex (names : list string) : prog string unit :=
  let* r := for_ names () (fun n _ =>
    let* r := putDeploymentMarker n in
    match r with Ok _ => Ret (inl ()) | Err _ => Ret (inr ()) end) in
  match r with
  | inr _ => Ret ()
  | inl _ => let* _ := sPut deploymentIndexSentinel (marker_body "") (put_options false (marker_body "")) in Ret ()
  end.

Definition Deployments : prog string (result serr (list string)) :=
  let scan :=
    let* r := scanDeployments in
    match r with
    | Err e => Ret (Err e)
    | Ok names => let* _ := backfillDeploymentIndex names in Ret (Ok names)
    end in
  let* r := sStat deploymentIndexSentinel in
  match r with
  | Err _ => scan
  | Ok _ => let* l := listDeploymentIndex in match l with Ok names => Ret (Ok names) | Err _ => scan end
  end.

(** ** Committing *)

Record CommitOptions := {
  co_SkipReplica : bool;
  co_RetainUntil : time;
  co_RetentionMode : WORMMode
}.

(** Where [commitAtomic] failed. *)
Inductive atomic_err := AE_Commit (e : commit_err) | AE_Retention (e : serr).

Definition atomic_is (e : atomic_err) (target : serr) : bool :=
  match e with AE_Commit e => commit_is e target | AE_Retention e => bool_decide (e = target) end.

Definition no_lock : PutOptions :=
  {| IfNotExists := false; ContentLength := 0; RetainUntil := Time.zero; RetentionMode := WORMNone |}.

Definition commitAtomic (caps : Capabilities) (suffix key body : string) (opts : CommitOptions) : prog string (result atomic_err unit) :=
  let* r := CommitExclusive caps suffix key body (Z.of_nat (String.length body)) no_lock in
  match r with
  | Err e => Ret (Err (AE_Commit e))
  | Ok _ =>
      if Time.IsZero (co_RetainUntil opts) then Ret (Ok ())
      else
        let mode := if bool_decide (co_RetentionMode opts = WORMNone) then WORMCompliance else co_RetentionMode opts in
        let* r := sSetRetention key (co_RetainUntil opts) mode in
        match r with
        | Ok _ | Err ErrUnsupported => Ret (Ok ())
        | Err e => Ret (Err (AE_Retention e))
        end
  end.

Inductive cause :=
| RetentionNotApplied (e : serr)
| ParentCheck (e : (id_err + serr) + serr)
| OrphanedIncremental.

Inductive store_commit_err :=
| SC_Empty
| SC_Ref (e : id_err)
| SC_Invalid (e : invalid)
| SC_NoSigner
| SC_AlreadyCommitted
| SC_Primary (e : atomic_err)
| SC_RolledBack (c : cause)
| SC_RollbackFailed (c : cause) (d : serr).

Definition rollbackPrimaryCommit (primaryKey : string) (c : cause) : prog string store_commit_err :=
  let* r := sDelete primaryKey in
  match r with Ok _ => Ret (SC_RolledBack c) | Err d => Ret (SC_RollbackFailed c d) end.

Definition backupIsLive (deployment backupID : string) : prog string (result ((id_err + serr) + serr) bool) :=
  let* dead := IsTombstoned deployment backupID in
  match dead with
  | Err e => Ret (Err (inl e))
  | Ok true => Ret (Ok false)
  | Ok false =>
      let* r := sStat (PrimaryPath deployment backupID) in
      match r with
      | Ok _ => Ret (Ok true)
      | Err ErrNotFound => Ret (Ok false)
      | Err e => Ret (Err (inr e))
      end
  end.

Definition replicaCommitAttempts : nat := 3.

(** The attempts left; [draw n] is the staging suffix of the [n]-th commit. *)
Fixpoint commitReplica (caps : Capabilities) (draw : nat -> string) (attempts : nat) (replicaKey body : string)
    (opts : CommitOptions) (lastErr : option atomic_err) : prog string (option atomic_err) :=
  match attempts with
  | O => Ret lastErr
  | S n =>
      let* r := commitAtomic caps (draw n) replicaKey body opts in
      match r with
      | Ok _ => Ret None
      | Err e => if atomic_is e ErrAlreadyExists then Ret None else commitReplica caps draw n replicaKey body opts (Some e)
      end
  end.

(** A commit that succeeds reports what became of the replica. *)
Definition commitBody (caps : Capabilities) (draw : nat -> string) (m : Manifest) (body : string) (opts : CommitOptions)
    : prog string (result store_commit_err (option atomic_err)) :=
  let primaryKey := PrimaryPath (m_Deployment m) (m_BackupID m) in
  let rolled_back c := let* e := rollbackPrimaryCommit primaryKey c in Ret (Err e) in
  let* r := commitAtomic caps (draw replicaCommitAttempts) primaryKey body opts in
  match r with
  | Err e =>
      if atomic_is e ErrAlreadyExists then Ret (Err SC_AlreadyCommitted)
      else match e with
           | AE_Retention re => rolled_back (RetentionNotApplied re)
           | AE_Commit _ => Ret (Err (SC_Primary e))
           end
  | Ok _ =>
      let finish :=
        let* _ := indexDeployment (m_Deployment m) in
        if co_SkipReplica opts then Ret (Ok None)
        else
          let* rerr := commitReplica caps draw replicaCommitAttempts (ReplicaPath (m_BackupID m)) body opts None in
          Ret (Ok rerr) in
      if String.eqb (m_Type m) BackupTypeIncremental && negb (String.eqb (m_ParentBackupID m) "") then
        let* live := backupIsLive (m_Deployment m) (m_ParentBackupID m) in
        match live with
        | Err e => rolled_back (ParentCheck e)
        | Ok false => rolled_back OrphanedIncremental
        | Ok true => finish
        end
      else finish
  end.

(** [Commit]: the manifest stored is the signed one. *)
Definition signed (signer : option Signer) (m : Manifest) : option Manifest :=
  match m_Attestation m with
  | Some _ => Some m
  | None => match signer with Some s => Some (Sign s m) | None => None end
  end.

Definition Commit (caps : Capabilities) (draw : nat -> string) (m : Manifest) (signer : option Signer) (opts : CommitOptions)
    : prog string (result store_commit_err (option atomic_err)) :=
  if String.eqb (m_Deployment m) "" || String.eqb (m_BackupID m) "" then Ret (Err SC_Empty)
  else match validateRef (m_Deployment m) (m_BackupID m) with
  | Some e => Ret (Err (SC_Ref e))
  | None =>
      match Validate m with
      | Some e => Ret (Err (SC_Invalid e))
      | None =>
          match signed signer m with
          | None => Ret (Err SC_NoSigner)
          | Some m => commitBody caps draw m (MarshalToBytes m) opts
          end
      end
  end.

(** ** Replicas *)

Inductive replica_err :=
| RP_Empty | RP_ReadReplica (e : serr) | RP_ReadPrimary (e : serr) | RP_NotVerified (e : read_err)
| RP_Identity | RP_Stat (e : serr) | RP_Reread (e : serr) | RP_Install (e : serr) | RP_Changed | RP_Lock (e : serr).

Definition EnsureReplica (deployment backupID : string) (verifier : option Verifier) (retainUntil : time) (mode : WORMMode)
    : prog string (result replica_err bool) :=
  if String.eqb deployment "" || String.eqb backupID "" then Ret (Err RP_Empty)
  else
    let replicaKey := ReplicaPath backupID in
    let primaryKey := PrimaryPath deployment backupID in
    let lock :=
      if Time.IsZero retainUntil then Ret (Ok true)
      else
        let mode := if bool_decide (mode = WORMNone) then WORMCompliance else mode in
        let* r := sSetRetention replicaKey retainUntil mode in
        match r with Ok _ | Err ErrUnsupported => Ret (Ok true) | Err e => Ret (Err (RP_Lock e)) end in
    let rebuild :=
      let* p := sGet primaryKey in
      match p with
      | Err e => Ret (Err (RP_ReadPrimary e))
      | Ok body =>
          match StreamManifest collect body (stream_options verifier) [] with
          | inl e => Ret (Err (RP_NotVerified e))
          | inr info =>
              if negb (same_identity (si_Manifest info) deployment backupID) then Ret (Err RP_Identity)
              else
                let* st := sStat primaryKey in
                match st with
                | Err e => Ret (Err (RP_Stat e))
                | Ok st =>
                    let* src := sGet primaryKey in
                    match src with
                    | Err e => Ret (Err (RP_Reread e))
                    | Ok src =>
                        let* r := sPut replicaKey src {| IfNotExists := false; ContentLength := Size st;
                                                        RetainUntil := Time.zero; RetentionMode := WORMNone |} in
                        match r with
                        | Err e => Ret (Err (RP_Install e))
                        | Ok _ =>
                            if negb (String.eqb (sha256 src) (sha256 body)) then let* _ := sDelete replicaKey in Ret (Err RP_Changed)
                            else lock
                        end
                    end
                end
          end
      end in
    let* r := sGet replicaKey in
    match r with
    | Ok body => match StreamManifest collect body (stream_options verifier) [] with inr _ => Ret (Ok false) | inl _ => rebuild end
    | Err ErrNotFound => rebuild
    | Err e => Ret (Err (RP_ReadReplica e))
    end.

(** ** Chunks of a backup *)

Record ChunkCheckResult := { cc_TotalUnique : Z; cc_Present : Z; cc_Missing : list Hash; cc_MissingCount : Z }.

Definition maxCheckMissingListed : nat := 1000.

Definition NumMissing (r : ChunkCheckResult) : Z := Z.max (cc_MissingCount r) (Z.of_nat (length (cc_Missing r))).
Definition AllPresent (r : ChunkCheckResult) : bool := NumMissing r =? 0.

Definition chunk_hashes (files : list FileEntry) : gset Hash := list_to_set (map cr_Hash (files ≫= fe_Chunks)).

Definition check_one (h : Hash) (res : ChunkCheckResult) : prog string (ChunkCheckResult + serr) :=
  let* r := sStat (ChunkKey h) in
  match r with
  | Ok _ => Ret (inl {| cc_TotalUnique := cc_TotalUnique res; cc_Present := cc_Present res + 1;
                        cc_Missing := cc_Missing res; cc_MissingCount := cc_MissingCount res |})
  | Err ErrNotFound =>
      Ret (inl {| cc_TotalUnique := cc_TotalUnique res; cc_Present := cc_Present res;
                  cc_Missing := if (length (cc_Missing res) <? maxCheckMissingListed)%nat then cc_Missing res ++ [h] else cc_Missing res;
                  cc_MissingCount := cc_MissingCount res + 1 |})
  | Err e => Ret (inr e)
  end.

Inductive check_err := CK_Files (e : each_err) | CK_Stat (e : serr).

(** The distinct hashes are visited in the order the set lists them. *)
Definition CheckChunkExistence (m : handle) : prog string (result check_err ChunkCheckResult) :=
  let* files := EachFile m in
  match files with
  | Err e => Ret (Err (CK_Files e))
  | Ok files =>
      let uniq := elements (chunk_hashes files) in
      let* r := for_ uniq {| cc_TotalUnique := Z.of_nat (length uniq); cc_Present := 0; cc_Missing := []; cc_MissingCount := 0 |} check_one in
      match r with inl res => Ret (Ok res) | inr e => Ret (Err (CK_Stat e)) end
  end.
End store.
