(* ===== verification/Hold.v ===== *)
(** Legal holds on backups (internal/backup/hold.go).

    A hold is a record next to the manifest.  A reader that finds none and a reader that cannot
    read one are told apart; the text of an unreadable record's reason is not modelled. *)
From S2P Require Import Prelude GoString Storage Concur Commit BackupManifest ManifestRead ManifestStore.
From Stdlib Require Import Ascii.

Local Open Scope string_scope.
Local Open Scope list_scope.
Local Open Scope Z_scope.
#[local] Arguments String.append : simpl nomatch.

Record Hold := {
  ho_Schema : string;
  ho_BackupID : string;
  ho_Deployment : string;
  ho_HeldAt : time;
  ho_Holder : string;
  ho_Reason : string;
  ho_ExpiresAt : option time
}.

#[export] Instance Hold_eq_dec : EqDecision Hold.
Proof. solve_decision. Defined.

Definition HoldSchema : string := "pg_hardstorage.hold.v1".

Definition HoldPath (deployment backupID : string) : string := PrimaryPath deployment backupID +:+ ".hold".

Definition holdSuffix : string := "/manifest.json.hold".

Definition ActiveAt (h : option Hold) (now : time) : bool :=
  match h with
  | None => false
  | Some h => match ho_ExpiresAt h with None => true | Some e => Time.Before now e end
  end.

Record PutHoldOptions := { po_Holder : string; po_Reason : string; po_ExpiresAt : time; po_Force : bool }.

Inductive weakening := OtherHolder | EndsIndefinite | EndsEarlier.

Definition holdWeakening (existing : option Hold) (holder : string) (expiresAt now : time) : option weakening :=
  match existing with
  | None => None
  | Some h =>
      if negb (ActiveAt existing now) then None
      else if negb (String.eqb (ho_Holder h) holder) then Some OtherHolder
      else if Time.IsZero expiresAt then None
      else match ho_ExpiresAt h with
           | None => Some EndsIndefinite
           | Some e => if Time.Before expiresAt e then Some EndsEarlier else None
           end
  end.

Inductive hold_get_err := HG_Store (e : serr) | HG_TooLarge | HG_Decode | HG_Schema.

Definition hg_is_not_found (e : hold_get_err) : bool := match e with HG_Store ErrNotFound => true | _ => false end.

Inductive hold_err :=
| HE_Empty | HE_Ref (e : id_err) | HE_NotFound | HE_Stat (e : serr) | HE_TombstoneCheck (e : id_err + serr)
| HE_Tombstoned | HE_ReadExisting (e : hold_get_err) | HE_Weaken (w : weakening) | HE_Install (e : serr)
| HE_Recheck (e : id_err + serr) | HE_Remove (e : serr) | HE_RemoveRaced (e : serr) | HE_List (e : serr)
| HE_Reread (e : hold_get_err).

Section holds.
Context `{CH : Codec string Hold}.

Definition GetHold (deployment backupID : string) : prog string (result hold_get_err Hold) :=
  let* r := sGet (HoldPath deployment backupID) in
  match r with
  | Err e => Ret (Err (HG_Store e))
  | Ok body =>
      match ReadAllLimited body MaxManifestBytes with
      | None => Ret (Err HG_TooLarge)
      | Some b =>
          match decode b with
          | None => Ret (Err HG_Decode)
          | Some h => if String.eqb (ho_Schema h) HoldSchema then Ret (Ok h) else Ret (Err HG_Schema)
          end
      end
  end.

(** [RemoveHold] with its errors in the caller's type. *)
Definition RemoveHold (deployment backupID : string) : prog string (result hold_err unit) :=
  if String.eqb deployment "" || String.eqb backupID "" then Ret (Err HE_Empty)
  else
    let* r := sDelete (HoldPath deployment backupID) in
    match r with
    | Ok _ | Err ErrNotFound => Ret (Ok ())
    | Err e => Ret (Err (HE_Remove e))
    end.

Definition put_body (key body : string) : prog string (result serr unit) :=
  sPut key body {| IfNotExists := false; ContentLength := Z.of_nat (String.length body);
                   RetainUntil := Time.zero; RetentionMode := WORMNone |}.

(** The hold written: the first holding keeps its time. *)
Definition new_hold (deployment backupID : string) (o : PutHoldOptions) (heldAt : time) : Hold :=
  {| ho_Schema := HoldSchema; ho_BackupID := backupID; ho_Deployment := deployment; ho_HeldAt := heldAt;
     ho_Holder := po_Holder o; ho_Reason := po_Reason o;
     ho_ExpiresAt := if Time.IsZero (po_ExpiresAt o) then None else Some (po_ExpiresAt o) |}.

(** After the hold is written: it is taken back when the backup was tombstoned meanwhile and had none. *)
Definition hold_recheck (deployment backupID : string) (prev : option Hold) : prog string (result hold_err (option Hold)) :=
  let* dead := IsTombstoned deployment backupID in
  match dead with
  | Err e => Ret (Err (HE_Recheck e))
  | Ok false => Ret (Ok prev)
  | Ok true =>
      match prev with
      | Some _ => Ret (Err HE_Tombstoned)
      | None =>
          let* r := RemoveHold deployment backupID in
          match r with
          | Err (HE_Remove e) => Ret (Err (HE_RemoveRaced e))
          | Err e => Ret (Err e)
          | Ok _ => Ret (Err HE_Tombstoned)
          end
      end
  end.

Definition install_hold (deployment backupID : string) (o : PutHoldOptions) (heldAt : time) (prev : option Hold)
    : prog string (result hold_err (option Hold)) :=
  let* t := now in
  match holdWeakening prev (po_Holder o) (po_ExpiresAt o) t, po_Force o with
  | Some w, false => Ret (Err (HE_Weaken w))
  | _, _ =>
      let* r := put_body (HoldPath deployment backupID) (encode (new_hold deployment backupID o heldAt)) in
      match r with
      | Err e => Ret (Err (HE_Install e))
      | Ok _ => hold_recheck deployment backupID prev
      end
  end.

Definition PutHoldWithOptions (deployment backupID : string) (o : PutHoldOptions) : prog string (result hold_err (option Hold)) :=
  if String.eqb deployment "" || String.eqb backupID "" then Ret (Err HE_Empty)
  else match validateRef deployment backupID with
  | Some e => Ret (Err (HE_Ref e))
  | None =>
      let* st := sStat (PrimaryPath deployment backupID) in
      match st with
      | Err ErrNotFound => Ret (Err HE_NotFound)
      | Err e => Ret (Err (HE_Stat e))
      | Ok _ =>
          let* dead := IsTombstoned deployment backupID in
          match dead with
          | Err e => Ret (Err (HE_TombstoneCheck e))
          | Ok true => Ret (Err HE_Tombstoned)
          | Ok false =>
              let* heldAt := now in
              let* g := GetHold deployment backupID in
              match g with
              | Ok h => install_hold deployment backupID o (ho_HeldAt h) (Some h)
              | Err e =>
                  if negb (hg_is_not_found e) && negb (po_Force o) then Ret (Err (HE_ReadExisting e))
                  else install_hold deployment backupID o heldAt None
              end
          end
      end
  end.

Definition PutHoldUntil (deployment backupID holder reason : string) (expiresAt : time) : prog string (result hold_err unit) :=
  let* r := PutHoldWithOptions deployment backupID
    {| po_Holder := holder; po_Reason := reason; po_ExpiresAt := expiresAt; po_Force := false |} in
  Ret (match r with Ok _ => Ok () | Err e => Err e end).

Definition PutHold (deployment backupID holder reason : string) : prog string (result hold_err unit) :=
  PutHoldUntil deployment backupID holder reason Time.zero.

Definition IsHeld (deployment backupID : string) : prog string (result serr bool) :=
  let* r := sStat (HoldPath deployment backupID) in
  match r with
  | Ok _ => Ret (Ok true)
  | Err ErrNotFound => Ret (Ok false)
  | Err e => Ret (Err e)
  end.

Definition IsActivelyHeld (deployment backupID : string) : prog string (result hold_get_err bool) :=
  let* r := GetHold deployment backupID in
  match r with
  | Ok h => let* t := now in Ret (Ok (ActiveAt (Some h) t))
  | Err e => if hg_is_not_found e then Ret (Ok false) else Ret (Err e)
  end.

(** ** Listing and purging *)

(** The deployment and the backup a hold's key names. *)
Definition hold_ref (key : string) : option (string * string) :=
  if negb (HasSuffix key holdSuffix) then None
  else match SplitByte key slash with
  | _ :: dep :: _ :: id :: _ :: _ => Some (dep, id)
  | _ => None
  end.

(** What stands for a hold that cannot be read. *)
Definition unreadable_hold (deployment backupID : string) : Hold :=
  {| ho_Schema := HoldSchema; ho_BackupID := backupID; ho_Deployment := deployment; ho_HeldAt := Time.zero;
     ho_Holder := ""; ho_Reason := "[unreadable]"; ho_ExpiresAt := None |}.

Definition ListHolds (deployment : string) : prog string (result serr (list Hold)) :=
  let prefix := if String.eqb deployment "" then "manifests/" else backups_prefix deployment in
  let* l := sList prefix in
  let* r := for_ (R := Empty_set) l.1 [] (fun i out =>
    match hold_ref (Key i) with
    | None => Ret (inl out)
    | Some (dep, id) =>
        let* g := GetHold dep id in
        Ret (inl (out ++ [match g with Ok h => h | Err _ => unreadable_hold dep id end]))
    end) in
  match r, l.2 with
  | inl out, None => Ret (Ok out)
  | inl _, Some e => Ret (Err e)
  | inr v, _ => match v with end
  end.

Record ExpiredHoldRemoved := {
  eh_Deployment : string; eh_BackupID : string; eh_Holder : string; eh_Reason : string; eh_HeldAt : time; eh_ExpiredAt : time }.

Definition purge_entry (h : Hold) (e : time) : ExpiredHoldRemoved :=
  {| eh_Deployment := ho_Deployment h; eh_BackupID := ho_BackupID h; eh_Holder := ho_Holder h; eh_Reason := ho_Reason h;
     eh_HeldAt := ho_HeldAt h; eh_ExpiredAt := e |}.

Definition purge_one (dryRun : bool) (t : time) (h : Hold) (out : list ExpiredHoldRemoved)
    : prog string (list ExpiredHoldRemoved + (list ExpiredHoldRemoved * hold_err)) :=
  match ho_ExpiresAt h with
  | None => Ret (inl out)
  | Some e =>
      if ActiveAt (Some h) t then Ret (inl out)
      else if dryRun then Ret (inl (out ++ [purge_entry h e]))
      else
        let* g := GetHold (ho_Deployment h) (ho_BackupID h) in
        match g with
        | Err ge => if hg_is_not_found ge then Ret (inl out) else Ret (inr (out, HE_Reread ge))
        | Ok cur =>
            match ho_ExpiresAt cur with
            | None => Ret (inl out)
            | Some _ =>
                if ActiveAt (Some cur) t then Ret (inl out)
                else
                  let* r := RemoveHold (ho_Deployment h) (ho_BackupID h) in
                  match r with
                  | Err he => Ret (inr (out, he))
                  | Ok _ => Ret (inl (out ++ [purge_entry h e]))
                  end
            end
        end
  end.

Definition PurgeExpiredHolds (deployment : string) (dryRun : bool) : prog string (list ExpiredHoldRemoved * option hold_err) :=
  let* l := ListHolds deployment in
  match l with
  | Err e => Ret ([], Some (HE_List e))
  | Ok holds =>
      let* t := now in
      let* r := for_ holds [] (purge_one dryRun t) in
      Ret (match r with inl out => (out, None) | inr (out, e) => (out, Some e) end)
  end.
End holds.

(** ** Holds that last *)

Lemma ActiveAt_antitone h t T : t <= T -> ActiveAt h T = true -> ActiveAt h t = true.
Proof.
  unfold ActiveAt, Time.Before. destruct h as [h|]; [|done]. destruct (ho_ExpiresAt h); [|done].
  rewrite !Z.ltb_lt. lia.
Qed.

(** What the weakening check lets through: the same holder, and an end no earlier. *)
Lemma holdWeakening_None h holder expiresAt t T : holdWeakening (Some h) holder expiresAt t = None ->
  t <= T -> ActiveAt (Some h) T = true ->
  ho_Holder h = holder /\ (Time.IsZero expiresAt = true \/ exists e, ho_ExpiresAt h = Some e /\ e <= expiresAt).
Proof.
  intros Hw Ht Ha. unfold holdWeakening in Hw. rewrite (ActiveAt_antitone _ t T) in Hw by done. cbn [negb] in Hw.
  destruct (String.eqb_spec (ho_Holder h) holder) as [->|]; [|done]. cbn [negb] in Hw. split; [done|].
  destruct (Time.IsZero expiresAt); [by left|]. right. destruct (ho_ExpiresAt h) as [e|]; [|done]. exists e. split; [done|].
  unfold Time.Before in Hw. destruct (Z.ltb_spec expiresAt e); [done|lia].
Qed.

Section kept.
Context `{CH : Codec string Hold}.
Local Abbreviation store := (gmap string (object string)).

(** A readable hold at a backup's key, of which [P] is true. *)
Definition hold_at (P : Hold -> Prop) (key : string) (s : store) : Prop :=
  exists o h, s !! key = Some o /\ decode (ob_body o) = Some h /\ ho_Schema h = HoldSchema /\ P h.

Lemma hold_at_other P key k (o : object string) s : k <> key -> hold_at P key s -> hold_at P key (<[k := o]> s).
Proof. intros Hne (o' & h & Ho & H). exists o', h. split; [|done]. by rewrite lookup_insert_ne. Qed.

Lemma hold_at_delete P key k s : k <> key -> hold_at P key s -> hold_at P key (delete k s).
Proof. intros Hne (o' & h & Ho & H). exists o', h. split; [|done]. by rewrite lookup_delete_ne. Qed.

Lemma GetHold_reads deployment id : reads_only (GetHold deployment id).
Proof.
  unfold GetHold. cbn. split; [done|]. intros [b|e]; [|done].
  destruct (ReadAllLimited _ _); [|done]. destruct (decode _); [|done]. by destruct (String.eqb _ _).
Qed.

Lemma IsTombstoned_reads deployment id : reads_only (IsTombstoned deployment id).
Proof. unfold IsTombstoned. destruct (validateRef _ _); [done|]. cbn. split; [done|]. by intros [o|[]]. Qed.

Lemma ListHolds_reads deployment : reads_only (ListHolds deployment).
Proof.
  unfold ListHolds. apply reads_only_bind; [by cbn|]. intros [infos e]. apply reads_only_bind.
  - apply reads_only_for. intros i out. destruct (hold_ref _) as [[dep id]|]; [|done].
    apply reads_only_bind; [apply GetHold_reads|done].
  - intros [out|v]; [by destruct e|destruct v].
Qed.

Context (D : decision -> Prop) (I : store -> Prop) (G : store -> store -> Prop).
Hypothesis G_refl : forall s, G s s.

(** Reading a hold that is there throughout gives one of that kind, or an error that is not "none". *)
Lemma GetHold_sees P deployment id : (forall s, I s -> hold_at P (HoldPath deployment id) s) ->
  wpi D I G (GetHold deployment id) (fun r => match r with
    | Ok h => P h
    | Err e => hg_is_not_found e = false
    end).
Proof.
  intros HI. unfold GetHold. apply wpi_bind, wpi_get; [done| | |done].
  - intros s o Hs Ho. destruct (HI s Hs) as (o' & h & Ho' & Hdec & Hsch & Hp).
    assert (o = o') as -> by congruence. unfold ReadAllLimited. destruct (_ <? _); [done|].
    rewrite Hdec, Hsch, String.eqb_refl. exact Hp.
  - intros s Hs Hn. destruct (HI s Hs) as (o' & h & Ho' & _). congruence.
Qed.

Lemma reads_any {A} (p : prog string A) : reads_only p -> wpi D I G p (fun _ => True).
Proof. by apply reads_only_wpi. Qed.
End kept.

Section no_weaker.
Context `{CH : Codec string Hold}.
Context (key holder : string) (T : time).
Local Abbreviation store := (gmap string (object string)).

(** The hold of [holder], active as late as [T]. *)
Definition lasts (h : Hold) : Prop := ho_Holder h = holder /\ ActiveAt (Some h) T = true.

Local Abbreviation I := (hold_at lasts key).
(** Steps that keep the hold: every step of a program proved under it. *)
Definition keeps (s s' : store) : Prop := I s -> I s'.

Local Abbreviation K := (wpi (fun d => d_time d <= T) I keeps).

Lemma keeps_refl s : keeps s s.
Proof. by intros H. Qed.

Lemma RemoveHold_keeps deployment id : HoldPath deployment id <> key -> K (RemoveHold deployment id) (fun _ => True).
Proof.
  intros Hne. unfold RemoveHold. destruct (_ || _); [done|]. apply wpi_bind. apply wpi_delete.
  - apply keeps_refl.
  - intros s Hs. pose proof (hold_at_delete lasts key _ s Hne Hs) as H. split; [exact H|by intros _].
  - by intros [u|[]].
Qed.

Lemma new_hold_lasts deployment id o h t : holdWeakening (Some h) (po_Holder o) (po_ExpiresAt o) t = None ->
  t <= T -> lasts h -> lasts (new_hold deployment id o (ho_HeldAt h)).
Proof.
  intros Hw Ht [Hl Ha]. destruct (holdWeakening_None _ _ _ _ T Hw Ht Ha) as [Hh He]. split; [cbn; congruence|].
  unfold ActiveAt in Ha |- *. cbn. destruct (Time.IsZero (po_ExpiresAt o)); [done|]. destruct He as [|(e & He & Hle)]; [done|].
  rewrite He in Ha. unfold Time.Before in *. apply Z.ltb_lt in Ha. apply Z.ltb_lt. lia.
Qed.

Lemma install_hold_keeps deployment id o heldAt prev : po_Force o = false ->
  (HoldPath deployment id = key -> exists h, prev = Some h /\ heldAt = ho_HeldAt h /\ lasts h) ->
  K (install_hold deployment id o heldAt prev)
    (fun r => HoldPath deployment id = key -> po_Holder o <> holder -> exists e, r = Err e).
Proof.
  intros Hf Hprev. unfold install_hold. rewrite Hf. apply wpi_bind, wpi_now; [apply keeps_refl|]. intros d Hd.
  destruct (holdWeakening prev (po_Holder o) (po_ExpiresAt o) (d_time d)) as [w|] eqn:Hw; [by eexists|].
  apply wpi_bind. apply wpi_put.
  - apply keeps_refl.
  - intros s t Hs _. cut (I (<[HoldPath deployment id := put_object t (encode (new_hold deployment id o heldAt))
      {| IfNotExists := false; ContentLength := Z.of_nat (String.length (encode (new_hold deployment id o heldAt)));
         RetainUntil := Time.zero; RetentionMode := WORMNone |}]> s)); [by intros H; split; [exact H|intros _]|].
    destruct (decide (HoldPath deployment id = key)) as [E|E]; [|by apply hold_at_other].
    destruct (Hprev E) as (h & -> & -> & Hh). rewrite E. eexists _, _. rewrite lookup_insert_eq. split; [done|].
    split; [apply decode_encode|]. split; [done|]. by eapply new_hold_lasts.
  - intros [u|e]; [|by eexists]. unfold hold_recheck. apply wpi_bind.
    eapply wpi_mono; [|apply reads_any; [apply keeps_refl|apply IsTombstoned_reads]].
    assert (HoldPath deployment id = key -> po_Holder o <> holder -> False) as Hnot.
    { intros E Hne. destruct (Hprev E) as (h & -> & _ & Hh & Ha).
      destruct (holdWeakening_None _ _ _ _ T Hw Hd Ha). congruence. }
    intros [[]|e] _; [|cbn; intros E Hne; by destruct (Hnot E Hne)|by eexists].
    destruct prev as [h|]; [by eexists|]. apply wpi_bind.
    eapply wpi_mono; [|apply RemoveHold_keeps]; [by intros [u'|[]] _; eexists|].
    intros E. by destruct (Hprev E) as (h & [=] & _).
Qed.

Lemma PutHold_keeps deployment id o : po_Force o = false ->
  K (PutHoldWithOptions deployment id o)
    (fun r => HoldPath deployment id = key -> po_Holder o <> holder -> exists e, r = Err e).
Proof.
  intros Hf. unfold PutHoldWithOptions. destruct (_ || _); [by eexists|]. destruct (validateRef _ _); [by eexists|].
  apply wpi_bind. eapply wpi_mono; [|by apply reads_any; [apply keeps_refl|]]. intros [i|[]] _; try by eexists.
  apply wpi_bind. eapply wpi_mono; [|apply reads_any; [apply keeps_refl|apply IsTombstoned_reads]].
  intros [[]|e] _; [by eexists| |by eexists]. apply wpi_bind, wpi_now; [apply keeps_refl|]. intros d Hd.
  apply wpi_bind. destruct (decide (HoldPath deployment id = key)) as [E|E].
  - eapply wpi_mono; [|apply (GetHold_sees _ _ _ keeps_refl lasts); by rewrite E].
    intros [h|e] Hh; [apply install_hold_keeps; [done|by eexists]|]. rewrite Hh, Hf. by eexists.
  - eapply wpi_mono; [|apply reads_any; [apply keeps_refl|apply GetHold_reads]].
    intros [h|e] _; [by apply install_hold_keeps|]. destruct (_ && _); [by eexists|by apply install_hold_keeps].
Qed.

Lemma PurgeExpiredHolds_keeps deployment dryRun : K (PurgeExpiredHolds deployment dryRun) (fun _ => True).
Proof.
  unfold PurgeExpiredHolds. apply wpi_bind. eapply wpi_mono; [|apply reads_any; [apply keeps_refl|apply ListHolds_reads]].
  intros [holds|e] _; [|done]. apply wpi_bind, wpi_now; [apply keeps_refl|]. intros d Hd. apply wpi_bind.
  apply wpi_for with (Inv := fun _ _ => True); [done| |by intros out _].
  intros pre h post out _ _. unfold purge_one. destruct (ho_ExpiresAt h) as [e|]; [|done].
  destruct (ActiveAt (Some h) (d_time d)); [done|]. destruct dryRun; [done|]. apply wpi_bind.
  destruct (decide (HoldPath (ho_Deployment h) (ho_BackupID h) = key)) as [E|E].
  - eapply wpi_mono; [|apply (GetHold_sees _ _ _ keeps_refl lasts); by rewrite E].
    intros [cur|ge] Hc; [|by destruct (hg_is_not_found ge)].
    destruct (ho_ExpiresAt cur); [|done]. destruct Hc as [_ Ha]. by rewrite (ActiveAt_antitone _ _ T).
  - eapply wpi_mono; [|apply reads_any; [apply keeps_refl|apply GetHold_reads]].
    intros [cur|ge] _; [|by destruct (hg_is_not_found ge)]. destruct (ho_ExpiresAt cur); [|done].
    destruct (ActiveAt _ _); [done|]. apply wpi_bind. eapply wpi_mono; [|by apply RemoveHold_keeps]. by intros [u|he] _.
Qed.
End no_weaker.

(** C9: a hold that outlasts every clock reading survives: no [PutHold] without force and no purge of
    expired holds, on any backup, replaces it by one of another holder or one that ends within that
    time, or removes it, whatever fails and whatever other processes do that keeps it; and placing a
    hold of another holder over it is refused. *)
Theorem active_hold_survives `{CH : Codec string Hold} (dep id dep' id' holder : string) (T : time)
    (o : PutHoldOptions) (deployment : string) (dryRun : bool)
    (env : nat -> gmap string (object string) -> gmap string (object string)) (ds : nat -> decision)
    (s : gmap string (object string)) :
  let kept := hold_at (lasts holder T) (HoldPath dep id) in
  po_Force o = false -> (forall j, d_time (ds j) <= T) -> (forall j s, kept s -> kept (env j s)) -> kept s ->
  (let '(r, s', steps) := runc env ds 0 (PutHoldWithOptions dep' id' o) s in
   kept s' /\ Forall (fun st => kept st.1 -> kept st.2) steps /\
   (HoldPath dep' id' = HoldPath dep id -> po_Holder o <> holder -> exists e, r = Err e)) /\
  (let '(_, s', steps) := runc env ds 0 (PurgeExpiredHolds deployment dryRun) s in
   kept s' /\ Forall (fun st => kept st.1 -> kept st.2) steps).
Proof.
  cbn zeta. intros Hf Hd Henv Hs. split.
  - pose proof (wpi_runc _ _ _ _ _ env ds 0%nat s Hd Henv Hs (PutHold_keeps (HoldPath dep id) holder T dep' id' o Hf)) as H.
    destruct (runc env ds 0 _ s) as [[r s'] steps]. destruct H as (Hq & Hk & Hst). done.
  - pose proof (wpi_runc _ _ _ _ _ env ds 0%nat s Hd Henv Hs (PurgeExpiredHolds_keeps (HoldPath dep id) holder T deployment dryRun)) as H.
    destruct (runc env ds 0 _ s) as [[r s'] steps]. destruct H as (_ & Hk & Hst). done.
Qed.

(** *** A store to evaluate on *)

#[export] Instance Hold_countable : Countable Hold.
Proof.
  refine (inj_countable' (fun h => (ho_Schema h, ho_BackupID h, ho_Deployment h, ho_HeldAt h : Z, ho_Holder h, ho_Reason h, ho_ExpiresAt h : option Z))
    (fun '(a, b, c, d, e, f, g) => {| ho_Schema := a; ho_BackupID := b; ho_Deployment := c; ho_HeldAt := d; ho_Holder := e;
                                      ho_Reason := f; ho_ExpiresAt := g |}) _).
  by intros [].
Defined.

#[export] Instance hold_codec : Codec string Hold := countable_codec.

Definition legal_hold : Hold :=
  {| ho_Schema := HoldSchema; ho_BackupID := "b"; ho_Deployment := "d"; ho_HeldAt := 1; ho_Holder := "legal"; ho_Reason := "r";
     ho_ExpiresAt := Some 100 |}.

Definition held_store : gmap string (object string) :=
  {[ HoldPath "d" "b" := Object (encode legal_hold) (Z.of_nat (String.length (encode legal_hold))) 1 0 WORMNone ]}.

Definition other_holder : PutHoldOptions := {| po_Holder := "ops"; po_Reason := ""; po_ExpiresAt := 500; po_Force := false |}.

(** A backend that fails at times, at a fixed time. *)
Definition failing_third : nat -> decision := fun i =>
  {| d_fault := if (i =? 3)%nat then Fails 1 else Normal; d_time := 10; d_order := fun l => l;
     d_order_perm := fun l => Permutation_refl l; d_listed := 0 |}.

Lemma active_hold_survives_witness :
  let '(r, s', steps) := runc (fun _ s => s) failing_third 0 (PutHoldWithOptions "d" "b" other_holder) held_store in
  hold_at (lasts "legal" 20) (HoldPath "d" "b") s' /\
  Forall (fun st => hold_at (lasts "legal" 20) (HoldPath "d" "b") st.1 -> hold_at (lasts "legal" 20) (HoldPath "d" "b") st.2) steps /\
  (HoldPath "d" "b" = HoldPath "d" "b" -> po_Holder other_holder <> "legal" -> exists e, r = Err e).
Proof.
  assert (hold_at (lasts "legal" 20) (HoldPath "d" "b") held_store) as Hs.
  { eexists _, legal_hold. split; [apply lookup_singleton_eq|]. split; [apply decode_encode|]. by split. }
  assert (forall j, d_time (failing_third j) <= 20) as Hd by (intros j; cbn; lia).
  pose proof (active_hold_survives "d" "b" "d" "b" "legal" 20 other_holder "d" false (fun _ s => s) failing_third held_store
    eq_refl Hd (fun _ _ H => H) Hs) as [H _]. exact H.
Defined.
