(* ===== verification/SoftDelete.v ===== *)
(** Soft deletion (internal/backup/manifest_store.go): which backups a backup's chain protects, and
    tombstoning one backup, a chain, or a batch.

    A tombstone is written first and the chain and the holds are looked at again afterwards, so a
    child committed or a hold placed in between is seen; the tombstone is then taken back. *)
From S2P Require Import Prelude GoString Storage Concur Commit Json BackupManifest ManifestRead SampleJson ManifestStore Hold.
From Stdlib Require Import Ascii.

Local Open Scope string_scope.
Local Open Scope list_scope.
Local Open Scope Z_scope.
#[local] Arguments String.append : simpl nomatch.

Record Tombstone := {
  tb_Schema : string;
  tb_BackupID : string;
  tb_Deployment : string;
  tb_TombstonedAt : time;
  tb_Policy : string;
  tb_Reason : string
}.

Definition TombstoneSchema : string := "pg_hardstorage.tombstone.v1".

(** ** Chains *)

Record chainKid := { ck_id : string; ck_parent : string }.

Definition chainSnapshot : Type := list chainKid.

(** One pass of the inner loop: the children of [next] not seen yet, in the snapshot's order. *)
Fixpoint new_kids (cs : chainSnapshot) (next : string) (seen : gset string) : list string * gset string :=
  match cs with
  | [] => ([], seen)
  | k :: cs =>
      if negb (String.eqb (ck_parent k) next) then new_kids cs next seen
      else if bool_decide (ck_id k ∈ seen) then new_kids cs next seen
      else let '(l, seen) := new_kids cs next ({[ck_id k]} ∪ seen) in (ck_id k :: l, seen)
  end.

(** The frontier loop of [descendants]; every id enters the frontier once. *)
Fixpoint descend (fuel : nat) (cs : chainSnapshot) (frontier : list string) (seen : gset string) (out : list string)
    : list string :=
  match fuel, frontier with
  | S fuel, next :: frontier =>
      let '(kids, seen) := new_kids cs next seen in
      descend fuel cs (frontier ++ kids) seen (out ++ kids)
  | _, _ => out
  end.

Definition descendants (cs : chainSnapshot) (backupID : string) : list string :=
  sort_strings (descend (S (length cs)) cs [backupID] {[backupID]} []).

Inductive snap_err := SN_List (e : serr) | SN_Read (e : serr) | SN_Decode.

(** What a look at a backup's hold finds. *)
Inductive hold_state := NotHeld | HeldBy (h : Hold) | HoldUnknown (e : hold_get_err).

Inductive recheck_cause := RC_Scan (e : snap_err) | RC_Hold (e : hold_get_err).

Inductive delete_err :=
| DE_Ref (e : id_err)
| DE_Held (id : string) (h : Hold)
| DE_HoldCheck (e : hold_get_err)
| DE_TombstoneCheck (e : id_err + serr)
| DE_Scan (e : snap_err)
| DE_Descendants (id : string) (l : list string)
| DE_HeldLinks (l : list (string * Hold))
| DE_Install (e : commit_err)
| DE_RollbackFailed
| DE_NotApplied (c : recheck_cause)
| DE_TombstonesRemain (c : recheck_cause).

Section delete.
Context `{MJ : ManifestJSON} `{CH : Codec string Hold} `{CT : Codec string Tombstone}.
Context (caps : Capabilities) (draw : string -> string).

Definition kid_fields : list string := ["backup_id"; "parent_backup_id"].

Definition scan_kid (prefix : string) (tombstoned : gset string) (key : string) (live : chainSnapshot)
    : prog string (chainSnapshot + snap_err) :=
  match id_of prefix key with
  | None => Ret (inl live)
  | Some id =>
      if bool_decide (id ∈ tombstoned) then Ret (inl live)
      else
        let* r := sGet key in
        match r with
        | Err e => Ret (inr (SN_Read e))
        | Ok body =>
            match scanTopLevelStrings kid_fields (tokenize body) with
            | None => Ret (inr SN_Decode)
            | Some fields =>
                let parent := default "" (fields !! "parent_backup_id") in
                if String.eqb parent "" then Ret (inl live)
                else Ret (inl (live ++ [{| ck_id := default "" (fields !! "backup_id"); ck_parent := parent |}]))
            end
        end
  end.

Definition loadChainSnapshot (deployment : string) : prog string (result snap_err chainSnapshot) :=
  let prefix := backups_prefix deployment in
  let* l := sList prefix in
  match l with
  | (_, Some e) => Ret (Err (SN_List e))
  | (infos, None) =>
      let '(keys, tombstoned) := sort_keys prefix infos in
      let* r := for_ keys [] (scan_kid prefix tombstoned) in
      Ret (match r with inl live => Ok live | inr e => Err e end)
  end.

Definition findLiveDescendants (deployment backupID : string) : prog string (result snap_err (list string)) :=
  let* cs := loadChainSnapshot deployment in
  Ret (match cs with Ok cs => Ok (descendants cs backupID) | Err e => Err e end).

(** ** Tombstoning *)

Definition new_tombstone (deployment backupID policy reason : string) (t : time) : Tombstone :=
  {| tb_Schema := TombstoneSchema; tb_BackupID := backupID; tb_Deployment := deployment; tb_TombstonedAt := t;
     tb_Policy := policy; tb_Reason := reason |}.

Definition softDeleteUnchecked (deployment backupID policy reason : string) : prog string (result commit_err bool) :=
  let* t := now in
  let body := encode (new_tombstone deployment backupID policy reason t) in
  let* r := CommitExclusive caps (draw backupID) (TombstonePath deployment backupID) body (Z.of_nat (String.length body)) no_lock in
  match r with
  | Ok _ => Ret (Ok true)
  | Err e => if commit_is e ErrAlreadyExists then Ret (Ok false) else Ret (Err e)
  end.

(** [rollbackTombstones]: every one is tried; whether all went. *)
Fixpoint rollbackTombstones (deployment : string) (ids : list string) : prog string bool :=
  match ids with
  | [] => Ret true
  | id :: ids =>
      let* r := removeTombstone deployment id in
      let* rest := rollbackTombstones deployment ids in
      Ret (is_ok r && rest)
  end.

Definition rollbackOnRecheckError (deployment : string) (ids : list string) (c : recheck_cause) : prog string delete_err :=
  let* ok := rollbackTombstones deployment ids in
  Ret (if ok : bool then DE_NotApplied c else DE_TombstonesRemain c).

(** Undoing because of what the second look found. *)
Definition take_back (deployment : string) (ids : list string) (why : delete_err) : prog string delete_err :=
  let* ok := rollbackTombstones deployment ids in
  Ret (if ok : bool then why else DE_RollbackFailed).

Definition SoftDelete (deployment backupID policy reason : string) : prog string (result delete_err unit) :=
  match validateRef deployment backupID with
  | Some e => Ret (Err (DE_Ref e))
  | None =>
      let* g := GetHold deployment backupID in
      let* held := match g with
                   | Ok h => let* t := now in Ret (if ActiveAt (Some h) t then HeldBy h else NotHeld)
                   | Err e => Ret (if hg_is_not_found e then NotHeld else HoldUnknown e)
                   end in
      match held with
      | HeldBy h => Ret (Err (DE_Held backupID h))
      | HoldUnknown e => Ret (Err (DE_HoldCheck e))
      | NotHeld =>
          let* d := findLiveDescendants deployment backupID in
          match d with
          | Err e => Ret (Err (DE_Scan e))
          | Ok (x :: l) => Ret (Err (DE_Descendants backupID (x :: l)))
          | Ok [] =>
              let* i := softDeleteUnchecked deployment backupID policy reason in
              match i with
              | Err e => Ret (Err (DE_Install e))
              | Ok false => Ret (Ok ())
              | Ok true =>
                  let* d := findLiveDescendants deployment backupID in
                  match d with
                  | Err e => let* e := rollbackOnRecheckError deployment [backupID] (RC_Scan e) in Ret (Err e)
                  | Ok (x :: l) => let* e := take_back deployment [backupID] (DE_Descendants backupID (x :: l)) in Ret (Err e)
                  | Ok [] =>
                      let* g := GetHold deployment backupID in
                      match g with
                      | Err e =>
                          if hg_is_not_found e then Ret (Ok ())
                          else let* e := rollbackOnRecheckError deployment [backupID] (RC_Hold e) in Ret (Err e)
                      | Ok h =>
                          let* t := now in
                          if ActiveAt (Some h) t
                          then let* e := take_back deployment [backupID] (DE_Held backupID h) in Ret (Err e)
                          else Ret (Ok ())
                      end
                  end
              end
          end
      end
  end.

(** The active holds among some backups, at one time. *)
Definition held_links (deployment : string) (t : time) (ids : list string)
    : prog string (list (string * Hold) + (string * hold_get_err)) :=
  for_ ids [] (fun id held =>
    let* g := GetHold deployment id in
    match g with
    | Err e => if hg_is_not_found e then Ret (inl held) else Ret (inr (id, e))
    | Ok h => Ret (inl (if ActiveAt (Some h) t then held ++ [(id, h)] else held))
    end).

(** Tombstones for a list, in its order, until one fails. *)
Fixpoint delete_each (deployment policy reason : string) (ids deleted : list string)
    : prog string (list string * option commit_err) :=
  match ids with
  | [] => Ret (deleted, None)
  | id :: ids =>
      let* r := softDeleteUnchecked deployment id policy reason in
      match r with
      | Err e => Ret (deleted, Some e)
      | Ok _ => delete_each deployment policy reason ids (deleted ++ [id])
      end
  end.

(** What a caller learns with a failed second look: the ids when their tombstones remain. *)
Definition recheck_answer (deleted : list string) (e : delete_err) : list string * option delete_err :=
  match e with DE_TombstonesRemain _ => (deleted, Some e) | _ => ([], Some e) end.

Definition SoftDeleteCascade (deployment backupID policy reason : string) : prog string (list string * option delete_err) :=
  match validateRef deployment backupID with
  | Some e => Ret ([], Some (DE_Ref e))
  | None =>
      let* dead := IsTombstoned deployment backupID in
      match dead with
      | Err e => Ret ([], Some (DE_TombstoneCheck e))
      | Ok true => Ret ([], None)
      | Ok false =>
          let* d := findLiveDescendants deployment backupID in
          match d with
          | Err e => Ret ([], Some (DE_Scan e))
          | Ok desc =>
              let* t := now in
              let* h := held_links deployment t (desc ++ [backupID]) in
              match h with
              | inr (_, e) => Ret ([], Some (DE_HoldCheck e))
              | inl (x :: l) => Ret ([], Some (DE_HeldLinks (x :: l)))
              | inl [] =>
                  let* r := delete_each deployment policy reason (rev desc ++ [backupID]) [] in
                  match r with
                  | (deleted, Some e) => Ret (deleted, Some (DE_Install e))
                  | (deleted, None) =>
                      let* d := findLiveDescendants deployment backupID in
                      match d with
                      | Err e =>
                          let* e := rollbackOnRecheckError deployment deleted (RC_Scan e) in
                          Ret (recheck_answer deleted e)
                      | Ok (x :: l) =>
                          let* e := take_back deployment deleted (DE_Descendants backupID (x :: l)) in Ret ([], Some e)
                      | Ok [] =>
                          let* t := now in
                          let* h := held_links deployment t deleted in
                          match h with
                          | inr (_, e) =>
                              let* e := rollbackOnRecheckError deployment deleted (RC_Hold e) in
                              Ret (recheck_answer deleted e)
                          | inl (x :: l) =>
                              let* e := take_back deployment deleted (DE_HeldLinks (x :: l)) in Ret ([], Some e)
                          | inl [] => Ret (deleted, None)
                          end
                      end
                  end
              end
          end
      end
  end.

(** ** Batches *)

(** The first id of the list with a live descendant outside the batch, and that descendant. *)
Definition firstOrphaningDelete (cs : chainSnapshot) (batch : gset string) (ids : list string) : option (string * string) :=
  first_some (fun id =>
    match List.find (fun d => negb (bool_decide (d ∈ batch))) (descendants cs id) with
    | Some d => Some (id, d)
    | None => None
    end) ids.

(** The hold check of a batch, before and after: the first active hold or failed look. *)
Definition batch_holds (deployment : string) (t : time) (ids : list string) : prog string (unit + (string * (Hold + hold_get_err))) :=
  for_ ids () (fun id _ =>
    let* g := GetHold deployment id in
    match g with
    | Err e => if hg_is_not_found e then Ret (inl ()) else Ret (inr (id, inr e))
    | Ok h => if ActiveAt (Some h) t then Ret (inr (id, inl h)) else Ret (inl ())
    end).

(** The tombstones a batch installed itself, in order, until one fails. *)
Fixpoint install_each (deployment policy reason : string) (ids installed : list string)
    : prog string (list string * option commit_err) :=
  match ids with
  | [] => Ret (installed, None)
  | id :: ids =>
      let* r := softDeleteUnchecked deployment id policy reason in
      match r with
      | Err e => Ret (installed, Some e)
      | Ok ok => install_each deployment policy reason ids (if ok : bool then installed ++ [id] else installed)
      end
  end.

Definition SoftDeleteBatch (deployment : string) (ids : list string) (policy reason : string)
    : prog string (list string * option delete_err) :=
  match validateStorageID deployment, ids with
  | Some e, _ => Ret ([], Some (DE_Ref e))
  | None, [] => Ret ([], None)
  | None, _ =>
      match first_some validateStorageID ids with
      | Some e => Ret ([], Some (DE_Ref e))
      | None =>
          let batch : gset string := list_to_set ids in
          let* t := now in
          let* h := batch_holds deployment t ids in
          match h with
          | inr (id, inl h) => Ret ([], Some (DE_Held id h))
          | inr (_, inr e) => Ret ([], Some (DE_HoldCheck e))
          | inl _ =>
              let* cs := loadChainSnapshot deployment in
              match cs with
              | Err e => Ret ([], Some (DE_Scan e))
              | Ok cs =>
                  match firstOrphaningDelete cs batch ids with
                  | Some (id, d) => Ret ([], Some (DE_Descendants id [d]))
                  | None =>
                      let* r := install_each deployment policy reason ids [] in
                      match r with
                      | (installed, Some e) => Ret (installed, Some (DE_Install e))
                      | (installed, None) =>
                          let* cs2 := loadChainSnapshot deployment in
                          match cs2 with
                          | Err e =>
                              let* e := rollbackOnRecheckError deployment installed (RC_Scan e) in
                              Ret (recheck_answer installed e)
                          | Ok cs2 =>
                              match firstOrphaningDelete cs2 batch installed with
                              | Some (id, d) =>
                                  let* e := take_back deployment installed (DE_Descendants id [d]) in Ret ([], Some e)
                              | None =>
                                  let* t := now in
                                  let* h := batch_holds deployment t installed in
                                  match h with
                                  | inr (_, inr e) =>
                                      let* e := rollbackOnRecheckError deployment installed (RC_Hold e) in
                                      Ret (recheck_answer installed e)
                                  | inr (id, inl h) =>
                                      let* e := take_back deployment installed (DE_Held id h) in Ret ([], Some e)
                                  | inl _ => Ret (installed, None)
                                  end
                              end
                          end
                      end
                  end
              end
          end
      end
  end.
End delete.

(** ** The descendants of a backup *)

Lemma size_list_to_set_le (l : list string) : (size (list_to_set (C := gset string) l) <= length l)%nat.
Proof.
  induction l as [|x l IH]; [done|]. cbn [list_to_set length]. rewrite size_union_alt, size_singleton.
  assert (size (list_to_set (C := gset string) l ∖ {[x]}) <= size (list_to_set (C := gset string) l))%nat
    by (apply subseteq_size; set_solver). lia.
Qed.

(** [edge cs p c]: the snapshot has a child [c] of [p]. *)
Definition edge (cs : chainSnapshot) (p c : string) : Prop := {| ck_id := c; ck_parent := p |} ∈ cs.

Section descent.
Context (cs : chainSnapshot).

Lemma new_kids_spec cs0 next seen : let '(l, seen') := new_kids cs0 next seen in
  seen' = seen ∪ list_to_set l /\ NoDup l /\ (forall x, x ∈ l -> (x ∉ seen) /\ edge cs0 next x) /\
  (forall x, edge cs0 next x -> x ∈ seen').
Proof.
  unfold edge. revert seen. induction cs0 as [|[c p] cs0 IH]; intros seen; cbn [new_kids ck_parent ck_id].
  - split_and!; [set_solver|constructor|set_solver|set_solver].
  - destruct (String.eqb_spec p next) as [->|Hp]; cbn [negb].
    + destruct (bool_decide_reflect (c ∈ seen)) as [Hc|Hc].
      * specialize (IH seen). destruct (new_kids cs0 next seen) as [l seen']. destruct IH as (-> & Hn & Hl & Hk).
        split_and!; [done|done|set_solver|]. intros x [[= ->]|Hx]%elem_of_cons; [set_solver|auto].
      * specialize (IH ({[c]} ∪ seen)). destruct (new_kids cs0 next ({[c]} ∪ seen)) as [l seen']. destruct IH as (-> & Hn & Hl & Hk).
        split_and!.
        -- set_solver.
        -- apply NoDup_cons. split; [|done]. intros Hin. apply Hl in Hin. set_solver.
        -- intros x [->|Hx]%elem_of_cons; [split; [done|left]|]. destruct (Hl x Hx). split; [set_solver|by right].
        -- intros x [[= ->]|Hx]%elem_of_cons; [set_solver|]. specialize (Hk x Hx). set_solver.
    + specialize (IH seen). destruct (new_kids cs0 next seen) as [l seen']. destruct IH as (-> & Hn & Hl & Hk).
      split_and!; [done|done|set_solver|]. intros x [[= -> ->]|Hx]%elem_of_cons; [done|auto].
Qed.

Definition kids : gset string := list_to_set (map ck_id cs).

Lemma edge_kids p c : edge cs p c -> c ∈ kids.
Proof. intros H. apply elem_of_list_to_set, list_elem_of_fmap. by exists {| ck_id := c; ck_parent := p |}. Qed.

(** The search is complete and sound: what it returns is everything reachable from the start. *)
Lemma descend_spec root : forall fuel frontier seen out,
  (size (kids ∖ seen) + length frontier <= fuel)%nat ->
  seen = {[root]} ∪ list_to_set out -> NoDup out -> root ∉ out ->
  (forall x, x ∈ frontier -> x ∈ seen) -> (forall x, x ∈ out -> rtc (edge cs) root x) ->
  (forall p c, p ∈ seen -> p ∉ frontier -> edge cs p c -> c ∈ seen) ->
  NoDup (descend fuel cs frontier seen out) /\ (root ∉ descend fuel cs frontier seen out) /\
  forall x, x ∈ descend fuel cs frontier seen out <-> x <> root /\ rtc (edge cs) root x.
Proof.
  induction fuel as [|fuel IH]; intros frontier seen out Hf Hs Hn Hr Hfr Ho Hcl;
    (destruct frontier as [|next frontier]; [|try (cbn in Hf; lia)]); cbn [descend].
  1, 2: split; [done|]; split; [done|]; intros x; split; [intros Hx; split; [congruence|auto]|];
    intros [Hne Hx]; enough (x ∈ seen) by (subst seen; set_solver);
    clear Hne; revert x Hx; apply rtc_ind_r; [set_solver|]; intros y z _ Hyz IHx; eapply Hcl; [exact IHx|apply not_elem_of_nil|done].
  pose proof (new_kids_spec cs next seen) as Hk. destruct (new_kids cs next seen) as [l seen'].
  destruct Hk as (-> & Hnl & Hl & Hk).
  assert (forall x, x ∈ l -> x ∈ kids) as Hlk by (intros x Hx; eapply edge_kids; by apply Hl).
  apply IH.
  - assert (size (kids ∖ (seen ∪ list_to_set l)) + length l <= size (kids ∖ seen))%nat; [|rewrite length_app; cbn in Hf; lia].
    rewrite <- (size_list_to_set (C := gset string) l Hnl). rewrite <- size_union by set_solver. apply subseteq_size. set_solver.
  - subst seen. set_solver.
  - apply NoDup_app. split_and!; [done| |done]. intros x Hx Hxl. apply Hl in Hxl. subst seen. set_solver.
  - intros [Hx|Hx]%elem_of_app; [done|]. apply Hl in Hx. subst seen. set_solver.
  - intros x [Hx|Hx]%elem_of_app; apply elem_of_union; [left; apply Hfr; by right|right; by apply elem_of_list_to_set].
  - intros x [Hx|Hx]%elem_of_app; [auto|]. apply Hl in Hx as [_ He]. eapply rtc_r; [|exact He].
    specialize (Hfr next ltac:(left)). subst seen. apply elem_of_union in Hfr as [->%elem_of_singleton|Hn']; [done|].
    apply Ho. by apply elem_of_list_to_set in Hn'.
  - intros p c Hp Hnf He. apply elem_of_union in Hp as [Hp|Hp]; [|set_solver].
    destruct (decide (p = next)) as [->|Hne]; [by apply Hk|]. apply elem_of_union_l. eapply Hcl; [done| |done]. set_solver.
Qed.

Lemma descend_enough root : (size (kids ∖ {[root]}) + 1 <= S (length cs))%nat.
Proof.
  assert (size kids <= length cs)%nat by (unfold kids; rewrite <- (length_map ck_id cs); apply size_list_to_set_le).
  assert (size (kids ∖ {[root]}) <= size kids)%nat by (apply subseteq_size; set_solver). lia.
Qed.
End descent.

Lemma descendants_spec (cs : chainSnapshot) (id : string) :
  NoDup (descendants cs id) /\ ordered string_ltb (descendants cs id) /\
  forall x, x ∈ descendants cs id <-> x <> id /\ rtc (edge cs) id x.
Proof.
  unfold descendants, sort_strings.
  destruct (descend_spec cs id (S (length cs)) [id] {[id]} []) as (Hn & Hr & Hx).
  - pose proof (descend_enough cs id). cbn [length]. lia.
  - set_solver.
  - constructor.
  - apply not_elem_of_nil.
  - set_solver.
  - intros x H. by apply not_elem_of_nil in H.
  - set_solver.
  - split_and!.
    + by rewrite stable_sort_perm.
    + apply stable_sort_ordered; [apply string_ltb_asym|]. intros x y z Hxy Hyz.
      destruct (string_ltb z x) eqn:E; [|done].
      destruct (string_ltb_total x y) as [H| [->|H]]; [|congruence|congruence].
      by rewrite (string_ltb_trans z x y E H) in Hyz.
    + intros x. by rewrite elem_of_stable_sort.
Qed.

(** The descendants of a backup in a snapshot of the live chain are exactly the other backups
    reached from it by child links, each once and in order, however deep the chain is and whether
    or not it has a cycle. *)
Theorem descendants_exact (cs : chainSnapshot) (id : string) :
  NoDup (descendants cs id) /\ ordered string_ltb (descendants cs id) /\
  forall x, x ∈ descendants cs id <-> x <> id /\ rtc (edge cs) id x.
Proof. apply descendants_spec. Qed.

(** ** What a listing says *)

Lemma sort_keys_snoc prefix infos i : sort_keys prefix (infos ++ [i]) = sort_key prefix (sort_keys prefix infos) i.
Proof. apply foldl_snoc. Qed.

Lemma sort_keys_spec prefix infos :
  (forall key, key ∈ (sort_keys prefix infos).1 <->
     exists i, i ∈ infos /\ Key i = key /\ HasSuffix key tombstoneSuffix = false /\ HasSuffix key manifestSuffix = true) /\
  (forall id, id ∈ (sort_keys prefix infos).2 <->
     exists i, i ∈ infos /\ HasSuffix (Key i) tombstoneSuffix = true /\ id_of prefix (Key i) = Some id).
Proof.
  induction infos as [|i infos [IH1 IH2]] using rev_ind.
  - split; intros x; (split; [intros H; by apply not_elem_of_nil in H || set_solver|]);
      intros (i & Hi & _); by apply not_elem_of_nil in Hi.
  - rewrite sort_keys_snoc. unfold sort_key. setoid_rewrite elem_of_app. setoid_rewrite list_elem_of_singleton.
    destruct (HasSuffix (Key i) tombstoneSuffix) eqn:Ht; [destruct (id_of prefix (Key i)) as [id0|] eqn:Hid|
      destruct (HasSuffix (Key i) manifestSuffix) eqn:Hm]; cbn [fst snd].
    + split; [intros key; rewrite IH1; naive_solver congruence|]. intros id. rewrite elem_of_union, elem_of_singleton, IH2. naive_solver congruence.
    + split; [intros key; rewrite IH1; naive_solver congruence|intros id; rewrite IH2; naive_solver congruence].
    + split; [intros key|intros id; rewrite IH2; naive_solver congruence].
      rewrite elem_of_app, list_elem_of_singleton, IH1. naive_solver congruence.
    + split; [intros key; rewrite IH1; naive_solver congruence|intros id; rewrite IH2; naive_solver congruence].
Qed.

(** A tombstone of a backup of the deployment is in the store. *)
Definition dead_in {B} (prefix id : string) (s : gmap string (object B)) : Prop :=
  exists k o, s !! k = Some o /\ HasPrefix k prefix = true /\ HasSuffix k tombstoneSuffix = true /\ id_of prefix k = Some id.

Lemma sort_keys_listed {B} prefix (s : gmap string (object B)) infos : infos ≡ₚ listing prefix s ->
  (forall key, key ∈ (sort_keys prefix infos).1 <->
     is_Some (s !! key) /\ HasPrefix key prefix = true /\ HasSuffix key manifestSuffix = true) /\
  (forall id, id ∈ (sort_keys prefix infos).2 <-> dead_in prefix id s).
Proof.
  intros Hp. destruct (sort_keys_spec prefix infos) as [H1 H2]. split.
  - intros key. rewrite H1. setoid_rewrite Hp. setoid_rewrite elem_of_listing. split.
    + intros (i & (o & Ho & _ & Hpre) & <- & _ & Hm). split_and!; [by exists o|done|done].
    + intros ([o Ho] & Hpre & Hm). exists (info_of key o). split_and!; [by exists o|done|by apply manifest_not_tombstone|done].
  - intros id. rewrite H2. setoid_rewrite Hp. setoid_rewrite elem_of_listing. unfold dead_in. split.
    + intros (i & (o & Ho & _ & Hpre) & Ht & Hid). by exists (Key i), o.
    + intros (k & o & Ho & Hpre & Ht & Hid). exists (info_of k o). split_and!; [by exists o|done|done].
Qed.

(** ** Backups that may not be deleted *)

Section protection.
Context `{MJ : ManifestJSON} `{CH : Codec string Hold} `{CT : Codec string Tombstone}.
Context (caps : Capabilities) (draw : string -> string).
Local Abbreviation store := (gmap string (object string)).

(** A live manifest of the deployment, stored under [kid], that names [id] as the parent of [child]. *)
Definition live_child (deployment id kid child : string) (s : store) : Prop :=
  exists o flds, s !! PrimaryPath deployment kid = Some o /\
    scanTopLevelStrings kid_fields (tokenize (ob_body o)) = Some flds /\
    flds !! "parent_backup_id" = Some id /\ flds !! "backup_id" = Some child /\
    ~ dead_in (backups_prefix deployment) kid s.

(** A readable hold that is active as late as [T]. *)
Definition held_until (deployment id : string) (T : time) (s : store) : Prop :=
  hold_at (fun h => ActiveAt (Some h) T = true) (HoldPath deployment id) s.

Lemma backups_prefix_path deployment kid : HasPrefix (PrimaryPath deployment kid) (backups_prefix deployment) = true /\
  HasSuffix (PrimaryPath deployment kid) manifestSuffix = true.
Proof.
  unfold PrimaryPath. split; [apply HasPrefix_app|]. rewrite <- string_app_assoc. apply HasSuffix_app.
Qed.

Lemma id_of_path deployment kid : CutByte kid slash = None -> kid <> "" ->
  id_of (backups_prefix deployment) (PrimaryPath deployment kid) = Some kid.
Proof.
  intros Hc Hk. unfold id_of, PrimaryPath. rewrite TrimPrefix_app, CutByte_None_app by done. cbn.
  rewrite string_app_nil_r. by destruct (String.eqb_spec kid "").
Qed.

Lemma validateStorageID_slash id : validateStorageID id = None -> CutByte id slash = None /\ id <> "".
Proof.
  unfold validateStorageID. destruct (String.eqb_spec id ""); [done|]. destruct (_ || _); [done|].
  destruct (all_chars _ id) eqn:E; [|done]. intros _. split; [|done]. clear n.
  induction id as [|c id IH]; [done|]. cbn in E. apply andb_true_iff in E as [Hc E]. cbn.
  destruct (Ascii.eqb_spec c slash) as [->|]; [done|]. by rewrite IH.
Qed.

Context (D : decision -> Prop) (I : store -> Prop).
Local Abbreviation W := (wpi D I eq).

Lemma scan_kid_reads prefix tombstoned key live : reads_only (scan_kid prefix tombstoned key live).
Proof.
  unfold scan_kid. destruct (id_of _ _); [|done]. destruct (bool_decide _); [done|].
  apply reads_only_bind; [by cbn|]. intros [b|e]; [|done]. destruct (scanTopLevelStrings _ _); [|done].
  by destruct (String.eqb _ _).
Qed.

(** A complete snapshot has every edge that is live throughout. *)
Lemma loadChainSnapshot_sees deployment id kid child :
  (forall s, I s -> live_child deployment id kid child s) ->
  validateStorageID kid = None -> id <> "" ->
  W (loadChainSnapshot deployment) (fun r => forall cs, r = Ok cs -> edge cs id child).
Proof.
  intros HI Hkid Hid. destruct (validateStorageID_slash kid Hkid) as [Hc Hk].
  unfold loadChainSnapshot. apply wpi_bind, wpi_list; [done| |].
  2: { intros s c l l' _ _. cbn. done. }
  intros s infos Hs Hp. cbn -[PrimaryPath backups_prefix]. destruct (sort_keys_listed _ s infos Hp) as [Hkeys Hdead].
  destruct (sort_keys (backups_prefix deployment) infos) as [keys tombs]. cbn [fst snd] in *.
  destruct (HI s Hs) as (o & flds & Ho & _ & _ & _ & Hnd).
  assert (PrimaryPath deployment kid ∈ keys) as Hin
    by (apply Hkeys; destruct (backups_prefix_path deployment kid); split_and!; [by exists o|done|done]).
  assert (kid ∉ tombs) as Hnt by (by rewrite Hdead).
  apply wpi_bind. apply wpi_for with (Inv := fun pre live => PrimaryPath deployment kid ∈ pre -> edge live id child).
  - by intros ?%not_elem_of_nil.
  - intros pre key post live _ Hlive. unfold scan_kid.
    destruct (decide (key = PrimaryPath deployment kid)) as [->|Hne].
    + rewrite id_of_path by done. rewrite bool_decide_eq_false_2 by done.
      apply wpi_bind, wpi_get; [done| | |intros c; cbn; by intros cs].
      * intros s' o' Hs' Ho'. destruct (HI s' Hs') as (o2 & fl & Ho2 & Hsc & Hpar & Hch & _).
        assert (o' = o2) as -> by congruence. rewrite Hsc, Hpar, Hch. cbv [default from_option Datatypes.id].
        rewrite (proj2 (String.eqb_neq id "") Hid). cbn -[PrimaryPath]. intros _. apply elem_of_app. right. left.
      * intros s' Hs' Hn. destruct (HI s' Hs') as (o2 & fl & Ho2 & _). congruence.
    + assert (forall live', (forall k, k ∈ live -> k ∈ live') -> PrimaryPath deployment kid ∈ pre ++ [key] -> edge live' id child) as Hgo.
      { intros live' Hsub [Hpre|Hx]%elem_of_app; [apply Hsub, Hlive; done|]. apply list_elem_of_singleton in Hx. congruence. }
      destruct (id_of (backups_prefix deployment) key) as [kid'|]; [|cbn; by apply Hgo].
      destruct (bool_decide (kid' ∈ tombs)); [cbn; by apply Hgo|].
      apply wpi_bind, wpi_get; [done| |intros s' _ _; cbn; by intros cs|intros c; cbn; by intros cs].
      intros s' o' _ _. destruct (scanTopLevelStrings _ _) as [fl|]; [|cbn; by intros cs].
      destruct (String.eqb _ _); cbn; apply Hgo; [done|]. intros k Hk'. apply elem_of_app. by left.
  - intros live Hlive. cbn. intros cs [= <-]. by apply Hlive.
Qed.

(** What protects a backup, for as long as it lasts. *)
Inductive protection := ByChild (kid child : string) | ByHold (T : time).

Definition protects (deployment id : string) (p : protection) (s : store) : Prop :=
  match p with
  | ByChild kid child => live_child deployment id kid child s
  | ByHold T => held_until deployment id T s
  end.

(** The clock of the deleting process, against a hold. *)
Definition in_time (p : protection) (d : decision) : Prop :=
  match p with ByChild _ _ => True | ByHold T => d_time d <= T end.

Lemma edge_descendant cs id child : edge cs id child -> child <> id -> child ∈ descendants cs id.
Proof. intros He Hne. apply descendants_spec. split; [done|]. by apply rtc_once. Qed.

Lemma orphaning_found cs (batch : gset string) ids id child : id ∈ ids -> child ∉ batch -> child ∈ descendants cs id ->
  firstOrphaningDelete cs batch ids <> None.
Proof.
  intros Hin Hb Hd. unfold firstOrphaningDelete. intros Hn. rewrite first_some_None in Hn. specialize (Hn id Hin).
  destruct (List.find _ _) eqn:E; [done|]. apply list_elem_of_In in Hd.
  pose proof (find_none _ _ E child Hd) as Hf. cbn in Hf. by rewrite bool_decide_eq_false_2 in Hf.
Qed.

Lemma batch_holds_refuses deployment id t ids T : (forall s, I s -> held_until deployment id T s) -> t <= T -> id ∈ ids ->
  W (batch_holds deployment t ids) (fun r => exists x, r = inr x).
Proof.
  intros Hheld Ht Hin. unfold batch_holds.
  apply wpi_for with (Inv := fun pre _ => id ∉ pre).
  - apply not_elem_of_nil.
  - intros pre i post _ _ Hpre. apply wpi_bind. destruct (decide (i = id)) as [->|Hne].
    + eapply wpi_mono; [|by apply (GetHold_sees _ _ eq) with (P := fun h => ActiveAt (Some h) T = true)]. intros [h|e] Hh; cbn -[ActiveAt].
      * rewrite (ActiveAt_antitone _ _ T) by done. by eexists.
      * rewrite Hh. by eexists.
    + assert (id ∉ pre ++ [i]) as Hn by set_solver.
      eapply wpi_mono; [|apply reads_any; [done|apply GetHold_reads]]. intros [h|e] _; cbn -[ActiveAt].
      * destruct (ActiveAt _ _); [by eexists|done].
      * destruct (hg_is_not_found e); [done|by eexists].
  - done.
Qed.

Lemma batch_holds_any deployment t ids : W (batch_holds deployment t ids) (fun _ => True).
Proof.
  apply reads_only_wpi; [done|]. apply reads_only_for. intros i _. apply reads_only_bind.
  - unfold GetHold. cbn. split; [done|]. intros [b|e]; [|done].
    destruct (ReadAllLimited _ _); [|done]. destruct (decode _); [|done]. by destruct (String.eqb _ _).
  - intros [h|e]; [by destruct (ActiveAt _ _)|by destruct (hg_is_not_found e)].
Qed.

Context (deployment id : string) (p : protection).
Hypothesis (HI : forall s, I s -> protects deployment id p s) (HD : forall d, D d -> in_time p d).
Hypothesis Hkid : match p with ByChild kid child => validateStorageID kid = None /\ child <> id | ByHold _ => True end.

Lemma SoftDelete_refuses policy reason :
  W (SoftDelete caps draw deployment id policy reason) (fun r => exists e, r = Err e).
Proof.
  unfold SoftDelete. destruct (validateRef deployment id) as [e|] eqn:Href; [by eexists|].
  assert (id <> "") as Hid.
  { unfold validateRef in Href. destruct (validateStorageID deployment); [done|]. by apply validateStorageID_slash. }
  destruct p as [kid child|T].
  - apply wpi_bind. eapply wpi_mono; [|apply reads_any; [done|apply GetHold_reads]]. intros g _. apply wpi_bind.
    eapply wpi_mono; [|apply reads_only_wpi; [done|]; by destruct g as [h|e]; cbn].
    intros [|h|e] _; [|by eexists..]. destruct Hkid as [Hk Hne]. unfold findLiveDescendants.
    do 2 apply wpi_bind. eapply wpi_mono; [|by apply loadChainSnapshot_sees with (kid := kid) (child := child)].
    intros [cs|e] Hcs; cbn -[descendants]; [|by eexists].
    pose proof (edge_descendant cs id child (Hcs cs eq_refl) Hne) as Hd.
    destruct (descendants cs id); [by apply not_elem_of_nil in Hd|by eexists].
  - apply wpi_bind. eapply wpi_mono; [|by apply (GetHold_sees _ _ eq) with (P := fun h => ActiveAt (Some h) T = true)].
    intros [h|e] Hh; cbn -[ActiveAt].
    + intros s d Hs Hd. cbn -[ActiveAt]. split_and!; [done|done|].
      rewrite (ActiveAt_antitone _ _ T); [by eexists|by apply (HD d)|done].
    + rewrite Hh. by eexists.
Qed.

Lemma SoftDeleteBatch_refuses ids policy reason : id ∈ ids ->
  match p with ByChild _ child => child ∉ ids | ByHold _ => True end ->
  W (SoftDeleteBatch caps draw deployment ids policy reason) (fun r => r.1 = [] /\ r.2 <> None).
Proof.
  intros Hin Hout. unfold SoftDeleteBatch. destruct (validateStorageID deployment); [done|].
  destruct ids as [|i0 ids0]; [by apply not_elem_of_nil in Hin|]. set (ids := i0 :: ids0) in *.
  destruct (first_some validateStorageID ids) eqn:Hids; [done|].
  assert (id <> "") as Hid.
  { rewrite first_some_None in Hids. specialize (Hids id Hin). by apply validateStorageID_slash. }
  apply wpi_bind, wpi_now; [done|]. intros d Hd. apply wpi_bind. destruct p as [kid child|T].
  - eapply wpi_mono; [|apply batch_holds_any]. intros [u|[i [h|e]]] _; [|done..].
    destruct Hkid as [Hk Hne].
    apply wpi_bind. eapply wpi_mono; [|by apply loadChainSnapshot_sees with (kid := kid) (child := child)].
    intros [cs|e] Hcs; [|done]. pose proof (edge_descendant cs id child (Hcs cs eq_refl) Hne) as Hd'.
    pose proof (orphaning_found cs (list_to_set ids) ids id child Hin) as Hf.
    destruct (firstOrphaningDelete cs (list_to_set ids) ids) as [[x y]|]; [done|]. destruct Hf; [|done|done].
    by rewrite elem_of_list_to_set.
  - eapply wpi_mono; [|apply (batch_holds_refuses deployment id (d_time d) ids T); [done|by apply (HD d)|done]].
    by intros r ([i [h|e]] & ->).
Qed.
End protection.

(** C6: a backup that stays protected is not deleted: while another live backup of the deployment names
    it as its parent, or while a readable hold on it stays active past every clock reading, neither
    [SoftDelete] nor a batch that leaves the child out succeeds or writes anything, whatever fails and
    whatever other processes do. *)
Theorem protected_backup_kept `{MJ : ManifestJSON} `{CH : Codec string Hold} `{CT : Codec string Tombstone}
    (caps : Capabilities) (draw : string -> string) (deployment id policy reason : string) (ids : list string)
    (p : protection) (env : nat -> gmap string (object string) -> gmap string (object string))
    (ds : nat -> decision) (s : gmap string (object string)) :
  match p with ByChild kid child => validateStorageID kid = None /\ child <> id /\ (child ∉ ids) | ByHold _ => True end ->
  (forall j, in_time p (ds j)) -> (forall j s, protects deployment id p s -> protects deployment id p (env j s)) ->
  protects deployment id p s -> id ∈ ids ->
  (let '(r, _, steps) := runc env ds 0 (SoftDelete caps draw deployment id policy reason) s in
   r <> Ok () /\ Forall (fun st => st.1 = st.2) steps) /\
  (let '(r, _, steps) := runc env ds 0 (SoftDeleteBatch caps draw deployment ids policy reason) s in
   r.1 = [] /\ r.2 <> None /\ Forall (fun st => st.1 = st.2) steps).
Proof.
  intros Hp Ht Henv Hs Hin. split.
  - pose proof (SoftDelete_refuses caps draw (in_time p) (protects deployment id p) deployment id p
      (fun _ H => H) (fun _ H => H) ltac:(by destruct p; naive_solver) policy reason) as Hw.
    pose proof (wpi_runc _ _ _ _ _ env ds 0%nat s Ht Henv Hs Hw) as H.
    destruct (runc env ds 0 _ s) as [[r s'] steps]. destruct H as ([e ->] & _ & Hst). done.
  - pose proof (SoftDeleteBatch_refuses caps draw (in_time p) (protects deployment id p) deployment id p
      (fun _ H => H) (fun _ H => H) ltac:(by destruct p; naive_solver) ids policy reason Hin ltac:(by destruct p; naive_solver)) as Hw.
    pose proof (wpi_runc _ _ _ _ _ env ds 0%nat s Ht Henv Hs Hw) as H.
    destruct (runc env ds 0 _ s) as [[r s'] steps]. destruct H as ([H1 H2] & _ & Hst). done.
Qed.

(** ** What a deletion leaves behind *)

Section outcomes.
Context `{MJ : ManifestJSON} `{CH : Codec string Hold} `{CT : Codec string Tombstone}.
Context (caps : Capabilities) (draw : string -> string) (D : decision -> Prop).
Local Abbreviation store := (gmap string (object string)).

Lemma loadChainSnapshot_reads deployment : reads_only (loadChainSnapshot deployment).
Proof.
  unfold loadChainSnapshot. apply reads_only_bind; [by cbn|]. intros [infos [e|]]; [done|].
  destruct (sort_keys _ infos) as [keys tombs]. apply reads_only_bind; [|done].
  apply reads_only_for. intros key live. unfold scan_kid. destruct (id_of _ _); [|done]. destruct (bool_decide _); [done|].
  apply reads_only_bind; [by cbn|]. intros [b|e]; [|done]. destruct (scanTopLevelStrings _ _); [|done].
  by destruct (String.eqb _ _).
Qed.

Lemma findLiveDescendants_reads deployment id : reads_only (findLiveDescendants deployment id).
Proof. apply reads_only_bind; [apply loadChainSnapshot_reads|done]. Qed.

Definition hold_look (g : result hold_get_err Hold) : prog string hold_state :=
  match g with
  | Ok h => let* t := now in Ret (if ActiveAt (Some h) t then HeldBy h else NotHeld)
  | Err e => Ret (if hg_is_not_found e then NotHeld else HoldUnknown e)
  end.

Lemma hold_look_reads g : reads_only (hold_look g).
Proof. by destruct g. Qed.

(** An error after which the tombstone is as it was. *)
Definition restored (e : delete_err) : bool :=
  match e with DE_Install _ | DE_RollbackFailed | DE_TombstonesRemain _ => false | _ => true end.

Definition delete_post (deployment id : string) (s : store) (r : result delete_err unit) (s' : store) : Prop :=
  let key := TombstonePath deployment id in
  same_but [key; staging_key key (draw id)] s s' /\
  (r = Ok () -> is_Some (s' !! key)) /\
  (forall e, r = Err e -> restored e = true -> s' !! key = s !! key) /\
  (forall o, s !! key = Some o -> s' !! key = Some o).

Lemma delete_post_same deployment id s r : (r = Ok () -> is_Some (s !! TombstonePath deployment id)) -> delete_post deployment id s r s.
Proof. intros H. split_and!; auto. apply same_but_refl. Qed.

(** Taking a fresh tombstone back. *)
Lemma undo_wp deployment id s s1 why c : restored why = true ->
  same_but [TombstonePath deployment id; staging_key (TombstonePath deployment id) (draw id)] s s1 ->
  s !! TombstonePath deployment id = None ->
  wp D (take_back deployment [id] why) (fun e s' => delete_post deployment id s (Err e) s') s1 /\
  wp D (rollbackOnRecheckError deployment [id] c) (fun e s' => delete_post deployment id s (Err e) s') s1.
Proof.
  intros Hw Hs Hn. set (key := TombstonePath deployment id) in *.
  assert (forall e s', (s' = s1 \/ s' = delete key s1) -> (restored e = true -> s' = delete key s1) -> delete_post deployment id s (Err e) s') as Hpost.
  { intros e s' Hs' He. split_and!; [|done| |].
    - destruct Hs' as [-> | ->]; [done|]. eapply same_but_trans; [exact Hs|]. apply same_but_delete. left.
    - intros e' [= <-] Hr. rewrite (He Hr). fold key. by rewrite lookup_delete_eq, Hn.
    - intros o Ho. fold key in Ho. congruence. }
  unfold take_back, rollbackOnRecheckError, rollbackTombstones, removeTombstone. fold key.
  split; apply wp_bind, wp_bind, wp_bind, wp_delete; intros; cbn; apply Hpost; auto; done.
Qed.

Lemma SoftDelete_wp deployment id policy reason s :
  wp D (SoftDelete caps draw deployment id policy reason) (delete_post deployment id s) s.
Proof.
  unfold SoftDelete. destruct (validateRef deployment id) as [e|]; [by apply delete_post_same|].
  apply wp_bind. eapply wp_mono; [|apply reads_only_wp, GetHold_reads]. intros g s' ->.
  apply wp_bind. change (match g with Ok h => _ | Err e => _ end) with (hold_look g).
  eapply wp_mono; [|apply reads_only_wp, hold_look_reads]. intros [|h|e] s' ->; [|by apply delete_post_same..].
  apply wp_bind. eapply wp_mono; [|apply reads_only_wp, findLiveDescendants_reads].
  intros [[|x l]|e] s' ->; [|by apply delete_post_same..].
  apply wp_bind. unfold softDeleteUnchecked. apply wp_bind, wp_now. intros d _. apply wp_bind.
  eapply wp_mono; [|apply commit_post_wp]. intros i s1 (Hs & Hkeep & Hok & Hex).
  assert (forall r, (r = Ok () -> is_Some (s1 !! TombstonePath deployment id)) ->
    (forall e, r = Err e -> restored e = true -> s1 !! TombstonePath deployment id = s !! TombstonePath deployment id) ->
    delete_post deployment id s r s1) as Hpost.
  { intros r H1 H2. split_and!; [done|done|done|]. intros o Ho. by apply Hkeep. }
  destruct i as [u|e].
  2: { destruct (commit_is e ErrAlreadyExists) eqn:Hae; cbn [wp].
       - apply Hpost; [|done]. intros _. destruct (Hex e eq_refl Hae) as [o Ho]. exists o. by apply Hkeep.
       - apply Hpost; [done|]. by intros e' [= <-]. }
  destruct u. destruct (Hok eq_refl) as (o & Ho & _).
  assert (s !! TombstonePath deployment id = None) as Hnone.
  { destruct (s !! TombstonePath deployment id) as [o'|] eqn:E; [|done]. destruct (Hkeep o' eq_refl) as [_ Hne]. done. }
  cbn [wp]. apply wp_bind. eapply wp_mono; [|apply reads_only_wp, findLiveDescendants_reads].
  assert (forall why c, restored why = true -> _) as Hundo by (intros why c Hw; exact (undo_wp deployment id s s1 why c Hw Hs Hnone)).
  intros [[|x l]|e] s' ->.
  - apply wp_bind. eapply wp_mono; [|apply reads_only_wp, GetHold_reads]. intros [h|e] s' ->.
    + apply wp_bind, wp_now. intros d' _. destruct (ActiveAt _ _).
      * apply wp_bind. by eapply wp_mono; [|apply (Hundo _ (RC_Hold HG_Decode))].
      * apply Hpost; [|done]. by exists o.
    + destruct (hg_is_not_found e).
      * apply Hpost; [|done]. by exists o.
      * apply wp_bind. by eapply wp_mono; [|apply (Hundo (DE_Scan SN_Decode))].
  - apply wp_bind. by eapply wp_mono; [|apply (Hundo _ (RC_Hold HG_Decode))].
  - apply wp_bind. by eapply wp_mono; [|apply (Hundo (DE_Scan SN_Decode))].
Qed.
End outcomes.

(** C13: whatever fails, [SoftDelete] touches nothing but the backup's tombstone and never replaces one;
    success leaves the tombstone there, and every refusal leaves it as it was, except the three that
    say otherwise (the install failed, or taking the tombstone back did). *)
Theorem SoftDelete_outcomes `{MJ : ManifestJSON} `{CH : Codec string Hold} `{CT : Codec string Tombstone}
    (ds : nat -> decision) (caps : Capabilities) (draw : string -> string) (deployment id policy reason : string)
    (s : gmap string (object string)) :
  let '(r, s') := run ds 0 (SoftDelete caps draw deployment id policy reason) s in
  let key := TombstonePath deployment id in
  same_but [key; staging_key key (draw id)] s s' /\
  (r = Ok () -> is_Some (s' !! key)) /\
  (forall e, r = Err e -> restored e = true -> s' !! key = s !! key) /\
  (forall o, s !! key = Some o -> s' !! key = Some o).
Proof.
  pose proof (wp_run (fun _ => True) _ _ _ ds 0 (fun _ => I) (SoftDelete_wp caps draw (fun _ => True) deployment id policy reason s)) as H.
  by destruct (run ds 0 _ s) as [r s'].
Qed.

(** *** A store to evaluate on *)

#[export] Instance Tombstone_eq_dec : EqDecision Tombstone.
Proof. solve_decision. Defined.

#[export] Instance Tombstone_countable : Countable Tombstone.
Proof.
  refine (inj_countable' (fun t => (tb_Schema t, tb_BackupID t, tb_Deployment t, tb_TombstonedAt t : Z, tb_Policy t, tb_Reason t))
    (fun '(a, b, c, d, e, f) => {| tb_Schema := a; tb_BackupID := b; tb_Deployment := c; tb_TombstonedAt := d; tb_Policy := e;
                                   tb_Reason := f |}) _).
  by intros [].
Defined.

#[export] Instance tombstone_codec : Codec string Tombstone := countable_codec.

Definition chain_manifest (id parent : string) : Manifest :=
  {| m_Schema := Schema; m_BackupID := id; m_Deployment := "d"; m_Tenant := "";
     m_Type := if String.eqb parent "" then BackupTypeFull else BackupTypeIncremental;
     m_ParentBackupID := parent; m_PGVersion := 17; m_SystemIdentifier := "7"; m_StartLSN := "0/2"; m_StopLSN := "0/3";
     m_Timeline := 1; m_StartedAt := 1; m_StoppedAt := 2; m_Compression := ""; m_Encryption := None; m_SourceTDE := None;
     m_Tablespaces := [{| ts_OID := 0; ts_Location := "" |}]; m_Files := []; m_Dirs := []; m_WALRequired := []; m_BackupLabel := "l"; m_TablespaceMap := "";
     m_PGBackupManifest := ""; m_WALGaps := []; m_Attestation := None |}.

Definition object_of (body : string) : object string := Object body (Z.of_nat (String.length body)) 1 0 WORMNone.

Definition chain_store (l : list (string * string)) : gmap string (object string) :=
  list_to_map (map (fun '(id, parent) => (PrimaryPath "d" id, object_of (encode_manifest (chain_manifest id parent)))) l).

(** A backend whose [n]-th call fails. *)
Definition failing_at (n : nat) : nat -> decision := fun i =>
  {| d_fault := if (i =? n)%nat then Fails 1 else Normal; d_time := 10; d_order := fun l => l;
     d_order_perm := fun l => Permutation_refl l; d_listed := 0 |}.

Definition conditional : Capabilities := {| WORM := false; ConditionalPut := true |}.

Definition tombstones_of (s : gmap string (object string)) (ids : list string) : list bool :=
  map (fun id => bool_decide (is_Some (s !! TombstonePath "d" id))) ids.

(** The cascade's comment promises that the deepest leaves go first, so that a cascade that stops
    half-way leaves no child on a deleted parent.  The list it walks backwards is sorted by name:
    with [z] a child of [r] and [a] a child of [z], [z] goes first, and a failure on [a] leaves [a]
    live on a deleted parent.  A batch has no order at all and stops the same way. *)
Theorem interrupted_delete_orphans :
  let s := chain_store [("r", ""); ("z", "r"); ("a", "z")] in
  (let '((deleted, e), s') := run (failing_at 12) 0 (SoftDeleteCascade conditional (fun id => id) "d" "r" "manual" "") s in
   deleted = ["z"] /\ e = Some (DE_Install (CE_Put (ErrBackend 1))) /\ tombstones_of s' ["r"; "z"; "a"] = [false; true; false]) /\
  (let '((installed, e), s') := run (failing_at 10) 0 (SoftDeleteBatch conditional (fun id => id) "d" ["z"; "a"] "gfs" "") s in
   installed = ["z"] /\ e = Some (DE_Install (CE_Put (ErrBackend 1))) /\ tombstones_of s' ["r"; "z"; "a"] = [false; true; false]).
Proof. by vm_compute. Qed.

Lemma chain_store_live l id : dead_in (backups_prefix "d") id (chain_store l) -> False.
Proof.
  intros (k & o & Ho & _ & Hs & _). apply elem_of_list_to_map_2 in Ho.
  apply list_elem_of_fmap in Ho as ([i p] & [= -> _] & _).
  pose proof (manifest_not_tombstone _ (proj2 (backups_prefix_path "d" i))) as H. unfold tombstoneSuffix in Hs. congruence.
Qed.

Lemma sample_scan m :
  scanTopLevelStrings kid_fields (tokenize (encode_manifest m)) =
  Some (<["parent_backup_id" := m_ParentBackupID m]> (<["backup_id" := m_BackupID m]> ∅)).
Proof.
  change (tokenize (encode_manifest m)) with (sample_tokenize (sample_encode m)).
  unfold sample_encode. rewrite sample_tokenize_print, <- (app_nil_r (tokens _)), scanTopLevelStrings_fields. reflexivity.
Qed.

Lemma protected_backup_kept_witness :
  let '(r, _, steps) := runc (fun _ s => s) (failing_at 20) 0 (SoftDelete conditional (fun id => id) "d" "r" "manual" "")
                          (chain_store [("r", ""); ("a", "r")]) in
  r <> Ok () /\ Forall (fun st => st.1 = st.2) steps.
Proof.
  assert (protects "d" "r" (ByChild "a" "a") (chain_store [("r", ""); ("a", "r")])) as Hs.
  { exists (object_of (encode_manifest (chain_manifest "a" "r"))), (<["parent_backup_id" := "r"]> (<["backup_id" := "a"]> ∅)).
    split_and!; [|apply sample_scan|done..|exact (chain_store_live _ _)].
    unfold chain_store. cbn [map list_to_map foldr fst snd]. rewrite lookup_insert_ne by done. apply lookup_insert_eq. }
  assert (validateStorageID "a" = None /\ "a" <> "r" /\ ("a" ∉ ["r"])) as Hp by (split_and!; [done|done|set_solver]).
  pose proof (protected_backup_kept conditional (fun id => id) "d" "r" "manual" "" ["r"] (ByChild "a" "a") (fun _ s => s)
    (failing_at 20) (chain_store [("r", ""); ("a", "r")]) Hp (fun _ => I) (fun _ _ H => H) Hs (list_elem_of_here _ _)) as [H _]. exact H.
Defined.
