(* ===== verification/Interleave.v ===== *)
(** Two programs on one store.

    [par] interleaves two programs call by call, in the order a schedule gives, and keeps the history
    of the store, newest first.  [wpt] is the weakest precondition of one of them over that history
    when the other's steps are in [Rel] and its own have to be in [Gua]; [par_sound] composes two such
    proofs.  A program whose calls name only keys the other leaves alone behaves as it does alone
    ([wpt_alone]), so its theorems without interference carry over. *)
From S2P Require Import Prelude GoString Storage Concur.

Section interleave.
Context {B : Type}.
Local Abbreviation store := (gmap string (object B)).

(** A schedule names who takes the next step, with what the environment decides for it; a program
    that has ended takes no step. *)
Fixpoint par {A C} (sched : list (bool * decision)) (p : prog B A) (q : prog B C) (tr : list store)
    : prog B A * prog B C * list store :=
  match sched, tr with
  | (true, d) :: sched, s :: _ =>
      match p with
      | Ret a => par sched (Ret a) q tr
      | Vis o k => let '(r, s') := exec d o s in par sched (k r) q (s' :: tr)
      end
  | (false, d) :: sched, s :: _ =>
      match q with
      | Ret c => par sched p (Ret c) tr
      | Vis o k => let '(r, s') := exec d o s in par sched p (k r) (s' :: tr)
      end
  | _, _ => (p, q, tr)
  end.

(** ** Histories *)

Inductive later (Rel : store -> store -> Prop) (tr : list store) : list store -> Prop :=
| later_refl : later Rel tr tr
| later_step s s' tr' : later Rel tr (s :: tr') -> Rel s s' -> later Rel tr (s' :: s :: tr').

Lemma later_trans Rel tr1 tr2 tr3 : later Rel tr1 tr2 -> later Rel tr2 tr3 -> later Rel tr1 tr3.
Proof. intros H1 H2. induction H2; [done|by constructor]. Qed.

Lemma later_mono (Rel Rel' : store -> store -> Prop) tr tr' :
  (forall s s', Rel s s' -> Rel' s s') -> later Rel tr tr' -> later Rel' tr tr'.
Proof. intros HR H. induction H; constructor; auto. Qed.

Lemma later_once Rel s s' tr : Rel s s' -> later Rel (s :: tr) (s' :: s :: tr).
Proof. intros H. apply later_step; [constructor|done]. Qed.

(** A history extends the one before it. *)
Lemma later_app Rel tr tr' : later Rel tr tr' -> exists ext, tr' = ext ++ tr.
Proof. intros H. induction H as [|s s' tr' _ [ext IH]]; [by exists []|]. exists (s' :: ext). by rewrite IH. Qed.

(** What every state since some moment has. *)
Definition since (P : store -> Prop) (tr tr' : list store) : Prop := exists ext, tr' = ext ++ tr /\ Forall P ext.

Lemma since_refl P tr : since P tr tr.
Proof. exists []. done. Qed.

Lemma since_trans P tr1 tr2 tr3 : since P tr1 tr2 -> since P tr2 tr3 -> since P tr1 tr3.
Proof.
  intros (e1 & -> & H1) (e2 & -> & H2). exists (e2 ++ e1). rewrite app_assoc. split; [done|]. by apply Forall_app_2.
Qed.

(** A property the steps keep holds of every state since it did. *)
Lemma later_since (Rel : store -> store -> Prop) (P : store -> Prop) tr tr' s0 tr0 : tr = s0 :: tr0 ->
  (forall s s', Rel s s' -> P s -> P s') -> P s0 -> later Rel tr tr' ->
  since P tr tr' /\ exists s1 tr1, tr' = s1 :: tr1 /\ P s1.
Proof.
  intros -> HR Hs H. induction H as [|s s' tr' _ [IH (s1 & tr1 & [= <- <-] & H1)] Hr].
  - split; [apply since_refl|]. by eexists _, _.
  - split; [|eexists _, _; split; [done|by eapply HR]]. eapply since_trans; [exact IH|]. exists [s']. split; [done|].
    constructor; [by eapply HR|done].
Qed.

(** ** One program in a history *)

Section logic.
Context (D : decision -> Prop) (Rel Gua : store -> store -> Prop).

Fixpoint wpt {A} (p : prog B A) (Q : A -> list store -> Prop) (tr : list store) : Prop :=
  match p with
  | Ret a => forall tr', later Rel tr tr' -> Q a tr'
  | Vis o k => forall s tr' d, later Rel tr (s :: tr') -> D d ->
      let '(r, s') := exec d o s in Gua s s' /\ wpt (k r) Q (s' :: s :: tr')
  end.

Lemma wpt_later {A} (p : prog B A) Q tr tr' : later Rel tr tr' -> wpt p Q tr -> wpt p Q tr'.
Proof.
  intros Hl. destruct p as [a|R o k]; cbn [wpt].
  - intros H tr2 H2. apply H. by eapply later_trans.
  - intros H s tr2 d H2 Hd. apply H; [by eapply later_trans|done].
Qed.

Lemma wpt_mono {A} (p : prog B A) (Q Q' : A -> list store -> Prop) tr :
  (forall a tr', Q a tr' -> Q' a tr') -> wpt p Q tr -> wpt p Q' tr.
Proof.
  intros HQ. revert tr. induction p as [a|R o k IH]; intros tr; cbn [wpt]; [auto|].
  intros H s tr' d H2 Hd. specialize (H s tr' d H2 Hd). destruct (exec d o s). naive_solver.
Qed.

Lemma wpt_bind {A C} (p : prog B A) (f : A -> prog B C) Q tr :
  wpt p (fun a tr' => wpt (f a) Q tr') tr -> wpt (pbind p f) Q tr.
Proof.
  revert tr. induction p as [a|R o k IH]; intros tr; cbn [wpt pbind].
  - intros H. apply H. constructor.
  - intros H s tr' d H2 Hd. specialize (H s tr' d H2 Hd). destruct (exec d o s). naive_solver.
Qed.

(** A call, from its rule without interference. *)
Lemma wpt_call {R} (o : op B R) (Q : R -> list store -> Prop) tr :
  (forall s tr', later Rel tr (s :: tr') ->
     wp D (call o) (fun r s' => Gua s s' /\ forall tr2, later Rel (s' :: s :: tr') tr2 -> Q r tr2) s) ->
  wpt (call o) Q tr.
Proof. intros H s tr' d Hl Hd. specialize (H s tr' Hl d Hd). by destruct (exec d o s). Qed.

(** A program that writes only certain keys, whose steps keep [J] as the other's do. *)
Lemma touches_wpt {A} K (J : store -> Prop) (p : prog B A) s0 tr :
  (forall s s', frame K s s' -> Gua s s' /\ (J s -> J s')) -> (forall s s', Rel s s' -> J s -> J s') ->
  touches K p -> J s0 ->
  wpt p (fun _ tr' => since J (s0 :: tr) tr' /\ exists s1 tr1, tr' = s1 :: tr1 /\ J s1) (s0 :: tr).
Proof.
  intros HK HR Hp HJ. revert s0 tr HJ Hp. induction p as [a|R o k IH]; intros s0 tr HJ; cbn [touches wpt].
  - intros _ tr' Hl. by eapply later_since.
  - intros [Ho Hk] s tr' d Hl Hd. destruct (later_since _ J _ _ _ _ eq_refl HR HJ Hl) as [Hsi (s1 & tr1 & [= <- <-] & Hs)].
    pose proof (exec_frame d o K s Ho) as Hf. destruct (exec d o s) as [r s']. cbn [snd] in Hf. destruct (HK s s' Hf) as [HG HJ'].
    split; [done|]. eapply wpt_mono; [|apply IH; auto]. intros _ tr2 [H2 H3]. split; [|done].
    eapply since_trans; [exact Hsi|]. eapply since_trans; [|exact H2]. exists [s']. split; [done|]. auto.
Qed.

(** A program that only reads: its answer is right if what it needs held of every state it saw. *)
Lemma reads_wpt {A} (I : store -> Prop) (H : Prop) (p : prog B A) Q tr :
  (forall s, Gua s s) -> reads_only p -> (H -> wpi D I eq p Q) ->
  wpt p (fun a tr' => exists ext, tr' = ext ++ tr /\ (H -> Forall I ext -> Q a)) tr.
Proof.
  intros HG. revert H tr. induction p as [a|R o k IH]; intros H tr; cbn [reads_only wpt wpi].
  - intros _ HQ tr' Hl. destruct (later_app _ _ _ Hl) as [ext ->]. exists ext. auto.
  - intros [Ho Hk] HQ s tr' d Hl Hd. pose proof (exec_read d o s Ho) as Hs.
    destruct (exec d o s) as [r s'] eqn:E. cbn [snd] in Hs. subst s'. split; [done|].
    destruct (later_app _ _ _ Hl) as [ext He].
    eapply wpt_mono; [|apply (IH r (H /\ Forall I (s :: ext)))]; [|done|].
    + intros a tr2 (ext2 & -> & H2). exists (ext2 ++ s :: ext). split.
      * rewrite <- app_assoc. cbn [app]. by rewrite <- He.
      * intros Hh Hf. apply Forall_app in Hf as [Hf1 Hf2]. auto.
    + intros [Hh Hf]. assert (I s) as HI.
      { destruct ext as [|s1 ext]; cbn in He; [|injection He as <- _]; by inversion Hf. }
      specialize (HQ Hh s d HI Hd). rewrite E in HQ. tauto.
Qed.
End logic.
End interleave.

(** ** Two of them *)

Section sound.
Context {B : Type}.
Local Abbreviation store := (gmap string (object B)).
Context (D : decision -> Prop) (R1 R2 : store -> store -> Prop).

(** Each program's steps are what the other tolerates. *)
Lemma par_wpt {A C} sched : forall (p : prog B A) (q : prog B C) Q1 Q2 tr,
  Forall (fun x => D x.2) sched -> wpt D R1 R2 p Q1 tr -> wpt D R2 R1 q Q2 tr ->
  let '(p', q', tr') := par sched p q tr in wpt D R1 R2 p' Q1 tr' /\ wpt D R2 R1 q' Q2 tr'.
Proof.
  induction sched as [|[w d] sched IH]; intros p q Q1 Q2 tr HD Hp Hq; [by cbn|].
  inversion HD as [|x l Hd HD']; subst. cbn in Hd.
  destruct w, tr as [|s tr]; cbn [par]; try done.
  - destruct p as [a|R o k]; [by apply IH|]. cbn [wpt] in Hp.
    specialize (Hp s tr d (later_refl _ _) Hd). destruct (exec d o s) as [r s'].
    destruct Hp as [HG Hp]. apply IH; [done..|]. eapply wpt_later; [|exact Hq]. by apply later_once.
  - destruct q as [c|R o k]; [by apply IH|]. cbn [wpt] in Hq.
    specialize (Hq s tr d (later_refl _ _) Hd). destruct (exec d o s) as [r s'].
    destruct Hq as [HG Hq]. apply IH; [done| |done]. eapply wpt_later; [|exact Hp]. by apply later_once.
Qed.

Lemma par_sound {A C} sched (p : prog B A) (q : prog B C) Q1 Q2 s :
  Forall (fun x => D x.2) sched -> wpt D R1 R2 p Q1 [s] -> wpt D R2 R1 q Q2 [s] ->
  let '(p', q', tr') := par sched p q [s] in
  (forall a, p' = Ret a -> Q1 a tr') /\ (forall c, q' = Ret c -> Q2 c tr').
Proof.
  intros HD Hp Hq. pose proof (par_wpt sched p q Q1 Q2 [s] HD Hp Hq) as H.
  destruct (par sched p q [s]) as [[p' q'] tr']. destruct H as [H1 H2].
  split; intros x ->; [apply H1|apply H2]; constructor.
Qed.
End sound.

(** ** Programs that depend on their own keys only *)

Section local.
Context {B : Type}.
Local Abbreviation store := (gmap string (object B)).

(** The keys a call names; a listing names too many. *)
Definition names {R} (o : op B R) : option (list string) :=
  match o with
  | OGet k | OStat k => Some [k]
  | OList _ => None
  | o => Some (writes o)
  end.

Fixpoint local {A} (K : string -> Prop) (p : prog B A) : Prop :=
  match p with
  | Ret _ => True
  | Vis o k => (exists l, names o = Some l /\ Forall K l) /\ forall r, local K (k r)
  end.

Lemma local_bind {A C} K (p : prog B A) (f : A -> prog B C) :
  local K p -> (forall a, local K (f a)) -> local K (pbind p f).
Proof. intros Hp Hf. induction p as [a|R o k IH]; cbn in *; [done|]. naive_solver. Qed.

(** The stores agree on [K]. *)
Definition agree (K : string -> Prop) (s t : store) : Prop := forall k, K k -> s !! k = t !! k.

Lemma agree_insert K k o s t : agree K s t -> agree K (<[k := o]> s) (<[k := o]> t).
Proof. intros H k' Hk. destruct (decide (k' = k)) as [->|]; [by rewrite !lookup_insert_eq|]. rewrite !lookup_insert_ne; auto. Qed.

Lemma agree_delete K k s t : agree K s t -> agree K (delete k s) (delete k t).
Proof. intros H k' Hk. destruct (decide (k' = k)) as [->|]; [by rewrite !lookup_delete_eq|]. rewrite !lookup_delete_ne; auto. Qed.

#[local] Hint Resolve agree_insert agree_delete : core.

Lemma exec_agree {R} K d (o : op B R) l s t : names o = Some l -> Forall K l -> agree K s t ->
  (exec d o s).1 = (exec d o t).1 /\ agree K (exec d o s).2 (exec d o t).2.
Proof.
  intros Hn Hl Ha. destruct o; cbn in Hn; inversion Hn; subst l; clear Hn;
    repeat match goal with H : Forall K (_ :: _) |- _ => inversion H; clear H; subst end;
    unfold exec, with_fault; try done;
    repeat match goal with H : K ?k |- _ => rewrite (Ha k H) in *; clear H end;
    destruct (d_fault d); cbn; repeat case_match; cbn; subst; auto.
Qed.

(** What it does to its keys it does whatever others do to other keys. *)
Lemma wpt_alone {A} D (Rel Gua : store -> store -> Prop) K (p : prog B A) Q s0 s tr :
  (forall s s', Rel s s' -> agree K s s') -> (forall s s', frame K s s' -> Gua s s') ->
  local K p -> agree K s s0 -> wp D p Q s0 ->
  wpt D Rel Gua p (fun a tr' => exists s1 tr1 t, tr' = s1 :: tr1 /\ agree K s1 t /\ Q a t) (s :: tr).
Proof.
  intros HR HG. assert (forall s tr s' tr', later Rel (s :: tr) (s' :: tr') -> agree K s s') as Hla.
  { intros s1 tr1 s2 tr2 Hl. destruct (later_since Rel (agree K s1) _ _ _ _ eq_refl (fun a b H1 H2 k Hk => eq_trans (H2 k Hk) (HR a b H1 k Hk)) (fun k _ => eq_refl) Hl)
      as [_ (s3 & tr3 & [= <- <-] & H)]. done. }
  revert s0 s tr. induction p as [a|R o k IH]; intros s0 s tr; cbn [local wp wpt].
  - intros _ Ha HQ tr' Hl. destruct (later_app _ _ _ Hl) as [[|s1 ext] ->]; cbn.
    + by eexists _, _, s0.
    + cbn in Hl. pose proof (Hla _ _ _ _ Hl) as Hs1. eexists _, _, s0. split; [done|]. split; [|done].
      intros k Hk. rewrite <- (Hs1 k Hk). auto.
  - intros [(l & Hn & Hl) Hk] Ha Hwp s1 tr1 d Hla' Hd. pose proof (Hla _ _ _ _ Hla') as Hs1.
    assert (agree K s1 s0) as Ha1 by (intros k' Hk'; rewrite <- (Hs1 k' Hk'); auto).
    destruct (exec_agree K d o l s1 s0 Hn Hl Ha1) as [Hr Ha2]. specialize (Hwp d Hd).
    assert (Forall K (writes o)) as Hw.
    { destruct o; cbn in Hn |- *; inversion Hn; subst; auto. }
    pose proof (exec_frame d o K s1 Hw) as Hf.
    destruct (exec d o s1) as [r s2], (exec d o s0) as [r0 t2]. cbn in Hr, Ha2, Hf. subst r0.
    split; [by apply HG|]. by apply IH with (s0 := t2).
Qed.
End local.

Lemma local_touches {B A} K (p : prog B A) : local K p -> touches K p.
Proof.
  induction p as [a|R o k IH]; cbn [local touches]; [done|]. intros [(l & Hn & Hl) Hk]. split; [|auto].
  destruct o; cbn in Hn |- *; inversion Hn; subst; auto.
Qed.

Lemma local_mono {B A} (K K' : string -> Prop) (p : prog B A) : (forall k, K k -> K' k) -> local K p -> local K' p.
Proof.
  intros HK. induction p as [a|R o k IH]; cbn; [done|]. intros [(l & Hn & Hl) Hk]. split; [|auto].
  exists l. split; [done|]. by eapply Forall_impl.
Qed.

Lemma wpt_and {B A} D (Rel Gua : gmap string (object B) -> gmap string (object B) -> Prop) (p : prog B A) Q Q' tr :
  wpt D Rel Gua p Q tr -> wpt D Rel Gua p Q' tr -> wpt D Rel Gua p (fun a tr' => Q a tr' /\ Q' a tr') tr.
Proof.
  revert tr. induction p as [a|R o k IH]; intros tr; cbn [wpt]; [auto|].
  intros H1 H2 s tr' d Hl Hd. specialize (H1 s tr' d Hl Hd). specialize (H2 s tr' d Hl Hd). destruct (exec d o s). naive_solver.
Qed.

(** ** Write, then verify

    Each of two programs makes a mark and then looks for the other's; the one that still sees its own
    mark and did not see the other's has the store to itself. *)
Section verified.
Context {B : Type}.
Local Abbreviation store := (gmap string (object B)).

(** Since some moment [M] has held, and not all that while [V]. *)
Definition verified (M V : store -> Prop) (tr : list store) : Prop :=
  exists suf rest, tr = suf ++ rest /\ Forall M suf /\ (Forall V suf -> False).

Lemma verified_since M V tr tr' : verified M V tr -> since M tr tr' -> verified M V tr'.
Proof.
  intros (suf & rest & -> & HM & HV) (ext & -> & He). exists (ext ++ suf), rest.
  split; [by rewrite app_assoc|]. split; [by apply Forall_app_2|]. intros [_ H]%Forall_app. auto.
Qed.

(** They cannot both. *)
Lemma verified_once M V tr : verified M V tr -> verified V M tr -> False.
Proof.
  intros (s1 & r1 & -> & HM1 & HV1) (s2 & r2 & He & HV2 & HM2).
  destruct (app_eq_inv _ _ _ _ He) as [(l & -> & _)|(l & -> & _)].
  - apply Forall_app in HM1 as [H _]. auto.
  - apply Forall_app in HV2 as [H _]. auto.
Qed.
End verified.

(** A program that has ended stays ended. *)
Lemma par_done_l {B A C} sched (a : A) (q : prog B C) tr : (par sched (Ret a) q tr).1.1 = Ret a.
Proof.
  revert q tr. induction sched as [|[[] d] sched IH]; intros q [|s tr]; cbn [par]; try done.
  destruct q as [c|R o k]; [done|]. by destruct (exec d o s).
Qed.

Lemma par_done_r {B A C} sched (p : prog B A) (c : C) tr : (par sched p (Ret c) tr).1.2 = Ret c.
Proof.
  revert p tr. induction sched as [|[[] d] sched IH]; intros p [|s tr]; cbn [par]; try done.
  destruct p as [a|R o k]; [done|]. by destruct (exec d o s).
Qed.
