(* ===== verification/Pool.v ===== *)
(** Any number of programs on one store.

    [pool] runs a list of programs call by call in the order a schedule gives.  [wps] is the weakest
    precondition of one of them when the others' steps, and its own, are in one relation [Rel]: what
    every process may do to the store.  Facts that [Rel] keeps stay known across the calls of the
    others, and [pool_sound] puts the programs' proofs together. *)
From S2P Require Import Prelude GoString Storage Concur.

Section pool.
Context {B : Type}.
Local Abbreviation store := (gmap string (object B)).

(** A schedule names who takes the next step, with what the environment decides for it; a number
    that names no program, or one that has ended, takes no step. *)
Fixpoint pool {A} (sched : list (nat * decision)) (ps : list (prog B A)) (s : store) : list (prog B A) * store :=
  match sched with
  | [] => (ps, s)
  | (i, d) :: sched =>
      match ps !! i with
      | Some (Vis o k) => let '(r, s') := exec d o s in pool sched (<[i := k r]> ps) s'
      | _ => pool sched ps s
      end
  end.

Section logic.
Context (D : decision -> Prop) (Rel : store -> store -> Prop) `{HRel : !PreOrder Rel}.

Fixpoint wps {A} (p : prog B A) (Q : A -> store -> Prop) (s0 : store) : Prop :=
  match p with
  | Ret a => forall s, Rel s0 s -> Q a s
  | Vis o k => forall s d, Rel s0 s -> D d -> let '(r, s') := exec d o s in Rel s s' /\ wps (k r) Q s'
  end.

Lemma wps_later {A} (p : prog B A) Q s0 s : Rel s0 s -> wps p Q s0 -> wps p Q s.
Proof.
  intros Hs. destruct p as [a|R o k]; cbn [wps].
  - intros H s' H'. apply H. by trans s.
  - intros H s' d H' Hd. apply H; [by trans s|done].
Qed.

Lemma wps_mono {A} (p : prog B A) (Q Q' : A -> store -> Prop) s0 :
  (forall a s, Rel s0 s -> Q a s -> Q' a s) -> wps p Q s0 -> wps p Q' s0.
Proof.
  revert s0. induction p as [a|R o k IH]; intros s0 HQ; cbn [wps]; [auto|].
  intros H s d Hs Hd. specialize (H s d Hs Hd). destruct (exec d o s) as [r s']. destruct H as [HR H].
  split; [done|]. apply (IH r); [|done]. intros a s2 H2. apply HQ. trans s; [done|]. by trans s'.
Qed.

Lemma wps_bind {A C} (p : prog B A) (f : A -> prog B C) Q s0 :
  wps p (fun a s => wps (f a) Q s) s0 -> wps (pbind p f) Q s0.
Proof.
  revert s0. induction p as [a|R o k IH]; intros s0; cbn [wps pbind].
  - intros H. by apply H.
  - intros H s d Hs Hd. specialize (H s d Hs Hd). destruct (exec d o s). naive_solver.
Qed.

(** A call, from its rule without interference. *)
Lemma wps_call {R} (o : op B R) (Q : R -> store -> Prop) s0 :
  (forall s, Rel s0 s -> wp D (call o) (fun r s' => Rel s s' /\ forall s2, Rel s' s2 -> Q r s2) s) -> wps (call o) Q s0.
Proof. intros H s d Hs Hd. specialize (H s Hs d Hd). by destruct (exec d o s). Qed.

(** What a call finds held at some moment after [s0]. *)
Lemma wps_get k (Q : result serr B -> store -> Prop) s0 :
  (forall s s2 o, Rel s0 s -> Rel s s2 -> s !! k = Some o -> Q (Ok (ob_body o)) s2) ->
  (forall s s2, Rel s0 s -> Rel s s2 -> s !! k = None -> Q (Err ErrNotFound) s2) ->
  (forall c s2, Rel s0 s2 -> Q (Err (ErrBackend c)) s2) ->
  wps (sGet k) Q s0.
Proof.
  intros H1 H2 H3. apply wps_call. intros s Hs. apply wp_get.
  - intros o Ho. split; [done|]. eauto.
  - intros Hn. split; [done|]. eauto.
  - intros d c _ _. split; [done|]. intros s2 H. apply H3. by trans s.
Qed.

Lemma wps_list prefix (Q : list ObjectInfo * option serr -> store -> Prop) s0 :
  (forall s s2 l, Rel s0 s -> Rel s s2 -> l ≡ₚ listing prefix s -> Q (l, None) s2) ->
  (forall l c s2, Rel s0 s2 -> Q (l, Some (ErrBackend c)) s2) ->
  wps (sList prefix) Q s0.
Proof.
  intros H1 H2. apply wps_call. intros s Hs. apply wp_list.
  - intros l Hl. split; [done|]. eauto.
  - intros d c l l' _ _ _. split; [done|]. intros s2 H. apply H2. by trans s.
Qed.

Lemma wps_now (Q : time -> store -> Prop) s0 : (forall t s2, Rel s0 s2 -> Q t s2) -> wps now Q s0.
Proof. intros H. apply wps_call. intros s Hs. apply wp_now. intros d _. split; [done|]. intros s2 H2. apply H. by trans s. Qed.

(** What a put finds at its moment stays known when it goes through. *)
Lemma wps_put_found k b o (Q : result serr unit -> store -> Prop) s0 :
  (forall s t, Rel s0 s -> (IfNotExists o = true -> s !! k = None) -> Rel s (<[k := put_object t b o]> s)) ->
  (forall s s2 t, Rel s0 s -> (IfNotExists o = true -> s !! k = None) -> Rel (<[k := put_object t b o]> s) s2 -> Q (Ok ()) s2) ->
  (forall s s2, Rel s0 s -> Rel s s2 -> is_Some (s !! k) -> Q (Err ErrAlreadyExists) s2) ->
  (forall c s2, Rel s0 s2 -> Q (Err (ErrBackend c)) s2) ->
  wps (sPut k b o) Q s0.
Proof.
  intros H1 H2 H3 H4. apply wps_call. intros s Hs. apply wp_put.
  - intros d _ Hn. split; [by apply H1|]. intros s2. by apply H2.
  - intros Hk _. split; [done|]. intros s2 Hs2. by apply (H3 s).
  - intros d c _ _. split; [done|]. intros s2 H. apply H4. by trans s.
  - intros d c _ _ Hn. split; [by apply H1|]. intros s2 H. apply H4. trans s; [done|]. etrans; [by apply (H1 s (d_time d))|done].
Qed.

Lemma wps_put k b o (Q : result serr unit -> store -> Prop) s0 :
  (forall s t, Rel s0 s -> (IfNotExists o = true -> s !! k = None) -> Rel s (<[k := put_object t b o]> s)) ->
  (forall s s2 t, Rel s0 s -> Rel (<[k := put_object t b o]> s) s2 -> Q (Ok ()) s2) ->
  (forall s s2, Rel s0 s -> Rel s s2 -> is_Some (s !! k) -> Q (Err ErrAlreadyExists) s2) ->
  (forall c s2, Rel s0 s2 -> Q (Err (ErrBackend c)) s2) ->
  wps (sPut k b o) Q s0.
Proof. intros H1 H2 H3 H4. by apply wps_put_found; intros; eauto. Qed.

(** A lock put on an object, whatever is answered. *)
Lemma wps_set_retention k until mode (Q : result serr unit -> store -> Prop) s0 :
  (forall s o, Rel s0 s -> s !! k = Some o -> Rel s (<[k := Object (ob_body o) (ob_size o) (ob_mod o) until mode]> s)) ->
  (forall r s2, Rel s0 s2 -> Q r s2) ->
  wps (sSetRetention k until mode) Q s0.
Proof.
  intros H1 H2. apply wps_call. intros s Hs.
  assert (forall s', Rel s s' -> forall r s2, Rel s' s2 -> Q r s2) as HQ by (intros s' H r s2 H'; apply H2; trans s; [done|by trans s']).
  apply wp_set_retention; intros; (split; [done || by apply H1|apply HQ; done || by apply H1]).
Qed.

(** A loop whose body owes something only when it leaves the function. *)
Lemma wps_for {X S R} (l : list X) (st : S) (body : X -> S -> prog B (S + R)) (Q : S + R -> store -> Prop) s0 :
  (forall x st s, Rel s0 s -> wps (body x st) (fun r s' => match r with inl _ => True | inr v => Q (inr v) s' end) s) ->
  (forall st s, Rel s0 s -> Q (inl st) s) ->
  (forall v s s', Rel s0 s -> Rel s s' -> Q (inr v) s -> Q (inr v) s') ->
  wps (for_ l st body) Q s0.
Proof.
  revert st s0. induction l as [|x l IH]; intros st s0 Hb He Hm; cbn [for_].
  { cbn [wps]. auto. }
  apply wps_bind. eapply wps_mono; [|by apply Hb]. intros [st'|v] s Hs; cbn [wps].
  - intros _. apply IH.
    + intros x' st2 s2 H2. apply Hb. by trans s.
    + intros st2 s2 H2. apply He. by trans s.
    + intros v s1 s2 H1 H2. apply Hm; [by trans s|done].
  - intros H s' Hs'. by eapply Hm.
Qed.

(** A program that only reads. *)
Lemma wps_reads {A} (p : prog B A) s0 : reads_only p -> wps p (fun _ _ => True) s0.
Proof.
  revert s0. induction p as [a|R o k IH]; intros s0; cbn [reads_only wps]; [done|]. intros [Ho Hk] s d Hs Hd.
  pose proof (exec_read d o s Ho) as He. destruct (exec d o s) as [r s']. cbn in He. subst s'. split; [done|auto].
Qed.

(** Every program's steps are what the others tolerate. *)
Theorem pool_sound {A} sched (ps : list (prog B A)) (Q : nat -> A -> store -> Prop) s :
  Forall (fun x => D x.2) sched -> (forall i p, ps !! i = Some p -> wps p (Q i) s) ->
  let '(ps', s') := pool sched ps s in
  Rel s s' /\ forall i p, ps' !! i = Some p -> wps p (Q i) s'.
Proof.
  revert ps s. induction sched as [|[i d] sched IH]; intros ps s HD Hps; cbn [pool]; [done|].
  inversion HD as [|x l Hd HD']; subst. cbn in Hd. destruct (ps !! i) as [[a|R o k]|] eqn:Hi; [by apply IH| |by apply IH].
  pose proof (Hps i _ Hi s d (reflexivity s) Hd) as H. destruct (exec d o s) as [r s1]. destruct H as [HR Hk].
  pose proof (IH (<[i := k r]> ps) s1 HD') as H. destruct (pool sched _ s1) as [ps' s'].
  destruct H as [HR' H']; [|split; [by trans s1|done]].
  intros j p. destruct (decide (j = i)) as [->|Hji].
  - rewrite list_lookup_insert_eq by by eapply lookup_lt_Some. by intros [= <-].
  - rewrite list_lookup_insert_ne by done. intros Hj. eapply wps_later; [exact HR|auto].
Qed.

(** The programs that have ended have what they promise. *)
Corollary pool_ended {A} sched (ps : list (prog B A)) (Q : nat -> A -> store -> Prop) s :
  Forall (fun x => D x.2) sched -> (forall i p, ps !! i = Some p -> wps p (Q i) s) ->
  let '(ps', s') := pool sched ps s in
  Rel s s' /\ forall i a, ps' !! i = Some (Ret a) -> Q i a s'.
Proof.
  intros HD Hps. pose proof (pool_sound sched ps Q s HD Hps) as H. destruct (pool sched ps s) as [ps' s'].
  destruct H as [HR H]. split; [done|]. intros i a Hi. by apply (H i _ Hi).
Qed.
End logic.

(** As many programs at the end as at the beginning. *)
Lemma pool_length {A} sched (ps : list (prog B A)) s : length (pool sched ps s).1 = length ps.
Proof.
  revert ps s. induction sched as [|[i d] sched IH]; intros ps s; cbn [pool]; [done|].
  destruct (ps !! i) as [[a|R o k]|]; try apply IH. destruct (exec d o s) as [r s']. rewrite IH. apply length_insert.
Qed.
End pool.
