(* ===== verification/OrphanRace.v ===== *)
(** Deleting a backup while an incremental of it is being committed (internal/backup/manifest_store.go).

    Commit writes the manifest and then looks for the parent's tombstone; a deletion writes the
    tombstone and then looks for children.  Whatever the order of their calls, one of the two sees the
    other. *)
From S2P Require Import Prelude GoString Storage Concur Commit Interleave Lsn Json BackupManifest ManifestRead SampleJson ManifestStore Hold SoftDelete.
From Stdlib Require Import Ascii.

Local Open Scope string_scope.
Local Open Scope list_scope.
Local Open Scope Z_scope.
#[local] Arguments String.append : simpl nomatch.

(** ** The keys each of them writes *)

Section keys.
Context (dep : string).

Definition tombstone_keys (draw : string -> string) (ids : list string) (k : string) : Prop :=
  exists id, id ∈ ids /\ (k = TombstonePath dep id \/ k = staging_key (TombstonePath dep id) (draw id)).

Definition primary_keys (draw : nat -> string) (kid k : string) : Prop :=
  k = PrimaryPath dep kid \/ k = staging_key (PrimaryPath dep kid) (draw replicaCommitAttempts).

(** The index marker and the replica. *)
Definition finish_keys (draw : nat -> string) (kid k : string) : Prop :=
  k = deploymentMarkerKey dep \/ k = deploymentIndexSentinel \/
  k = ReplicaPath kid \/ exists n, k = staging_key (ReplicaPath kid) (draw n).

Definition commit_keys (draw : nat -> string) (kid k : string) : Prop := primary_keys draw kid k \/ finish_keys draw kid k.

Lemma id_of_rest id rest : CutByte id slash = None -> id <> "" ->
  id_of (backups_prefix dep) (backups_prefix dep +:+ id +:+ String slash rest) = Some id.
Proof.
  intros Hc Hid. unfold id_of. rewrite TrimPrefix_app, CutByte_None_app by done. cbn.
  rewrite string_app_nil_r. by destruct (String.eqb_spec id "").
Qed.

(** Every key of a backup carries its id. *)
Lemma id_of_tombstone_key draw ids k : Forall (fun id => validateStorageID id = None) ids -> tombstone_keys draw ids k ->
  exists id, id ∈ ids /\ id_of (backups_prefix dep) k = Some id.
Proof.
  intros Hv (id & Hin & Hk). exists id. split; [done|]. rewrite Forall_forall in Hv.
  destruct (validateStorageID_slash id (Hv id Hin)) as [Hc Hne].
  destruct Hk as [-> | ->]; unfold staging_key, TombstonePath, PrimaryPath; rewrite !string_app_assoc; by apply id_of_rest.
Qed.

Lemma id_of_primary_key draw kid k : validateStorageID kid = None -> primary_keys draw kid k ->
  id_of (backups_prefix dep) k = Some kid.
Proof.
  intros Hv Hk. destruct (validateStorageID_slash kid Hv) as [Hc Hne].
  destruct Hk as [-> | ->]; unfold staging_key, PrimaryPath; rewrite ?string_app_assoc; by apply id_of_rest.
Qed.

(** The index and the replicas are elsewhere. *)
Lemma finish_key_prefix draw kid k : validateStorageID dep = None -> dep <> "_replicas" -> finish_keys draw kid k ->
  HasPrefix k (backups_prefix dep) = false.
Proof.
  intros Hv Hd Hk. destruct (validateStorageID_slash dep Hv) as [Hc _].
  assert (forall s t, s = "_replicas/" +:+ t -> HasPrefix ("manifests/" +:+ s) (backups_prefix dep) = false) as Hr.
  { intros s t ->. destruct (HasPrefix _ _) eqn:E; [|done]. apply HasPrefix_inv in E as [u E].
    unfold backups_prefix in E. rewrite !string_app_assoc in E. injection E as E.
    apply (f_equal (fun x => CutByte x slash)) in E. change ("_replicas/" +:+ t) with ("_replicas" +:+ String slash t) in E.
    rewrite !CutByte_None_app in E by done. cbn in E. rewrite string_app_nil_r in E. congruence. }
  destruct Hk as [-> |[-> |[-> |[n ->]]]]; [reflexivity|reflexivity|by eapply Hr|]. unfold staging_key, ReplicaPath. rewrite !string_app_assoc.
  by eapply Hr.
Qed.

Lemma tombstone_key_prefix draw ids k : tombstone_keys draw ids k -> HasPrefix k (backups_prefix dep) = true.
Proof. intros (id & _ & [-> | ->]); unfold staging_key, TombstonePath, PrimaryPath; rewrite ?string_app_assoc; apply HasPrefix_app. Qed.

Lemma keys_apart drawD drawC ids kid k : validateStorageID dep = None -> dep <> "_replicas" ->
  Forall (fun id => validateStorageID id = None) ids -> validateStorageID kid = None -> kid ∉ ids ->
  tombstone_keys drawD ids k -> commit_keys drawC kid k -> False.
Proof.
  intros Hd Hr Hids Hkid Hn Ht [Hp|Hf].
  - destruct (id_of_tombstone_key drawD ids k Hids Ht) as (id & Hin & Hid).
    rewrite (id_of_primary_key drawC kid k Hkid Hp) in Hid. congruence.
  - pose proof (tombstone_key_prefix drawD ids k Ht). pose proof (finish_key_prefix drawC kid k Hd Hr Hf). congruence.
Qed.
End keys.

(** ** A child that appears *)

(** A document that names [id] as the parent of [kid]. *)
Definition names_parent `{MJ : ManifestJSON} (id kid body : string) : Prop :=
  exists flds, scanTopLevelStrings kid_fields (tokenize body) = Some flds /\
    flds !! "parent_backup_id" = Some id /\ flds !! "backup_id" = Some kid.

Section deleter.
Context `{MJ : ManifestJSON} `{CH : Codec string Hold} `{CT : Codec string Tombstone}.
Context (caps : Capabilities) (draw : string -> string) (D : decision -> Prop).
Context (dep id kid : string) (policy reason : string).
Local Abbreviation store := (gmap string (object string)).

(** The tombstone is there. *)
Definition marked (s : store) : Prop := is_Some (s !! TombstonePath dep id).

Local Abbreviation V := (live_child dep id kid kid).

Lemma CommitExclusive_local (K : string -> Prop) suffix key body size opts : K key -> K (staging_key key suffix) ->
  local K (CommitExclusive (B := string) caps suffix key body size opts).
Proof.
  intros H1 H2. unfold CommitExclusive. destruct (ConditionalPut caps).
  - cbn. split; [eexists; split; [done|by repeat constructor]|]. by intros [u|e].
  - cbn. split; [eexists; split; [done|by repeat constructor]|]. intros [u|e]; [|done]. cbn.
    split; [eexists; split; [done|by repeat constructor]|]. intros [u'|e].
    + unfold lock_committed. destruct (_ && _); [|done]. cbn. split; [eexists; split; [done|by repeat constructor]|].
      intros [u2|e]; [done|]. cbn. split; [eexists; split; [done|by repeat constructor]|]. by intros [].
    + cbn. split; [eexists; split; [done|by repeat constructor]|]. done.
Qed.

Lemma softDeleteUnchecked_local x (K : string -> Prop) : (forall k, tombstone_keys dep draw [x] k -> K k) ->
  local K (softDeleteUnchecked caps draw dep x policy reason).
Proof.
  intros HK. unfold softDeleteUnchecked. apply local_bind; [cbn; split; [by exists []|done]|]. intros t. apply local_bind.
  - apply CommitExclusive_local; apply HK; exists x; (split; [left|]); [by left|by right].
  - intros [u|e]; [done|]. by destruct (commit_is _ _).
Qed.

(** Installing where there is no tombstone. *)
Lemma softDeleteUnchecked_wp x s : s !! TombstonePath dep x = None ->
  wp D (softDeleteUnchecked caps draw dep x policy reason)
    (fun r s' => match r with Ok true => is_Some (s' !! TombstonePath dep x) | Ok false => False | Err _ => True end) s.
Proof.
  intros Hn. unfold softDeleteUnchecked. apply wp_bind, wp_now. intros d _. apply wp_bind.
  eapply wp_mono; [|apply commit_post_wp]. intros r s' (_ & _ & Hok & Hex). destruct r as [u|e].
  - destruct u. destruct (Hok eq_refl) as (o & Ho & _). by exists o.
  - destruct (commit_is e ErrAlreadyExists) eqn:E; [|done]. destruct (Hex e eq_refl E) as [o Ho]. congruence.
Qed.

Lemma removeTombstone_touches x (K : string -> Prop) : K (TombstonePath dep x) -> touches K (removeTombstone dep x).
Proof. intros HK. apply touches_bind; [cbn; split; [by constructor|done]|]. by intros [u|[]]. Qed.

Lemma rollbackTombstones_touches ids : touches (tombstone_keys dep draw ids) (rollbackTombstones dep ids).
Proof.
  assert (forall all, (forall x, x ∈ ids -> x ∈ all) -> touches (tombstone_keys dep draw all) (rollbackTombstones dep ids)) as H; [|by apply H].
  induction ids as [|x ids IH]; intros all Hall; [done|]. cbn [rollbackTombstones].
  apply touches_bind; [apply removeTombstone_touches; exists x; split; [apply Hall; left|by left]|]. intros r.
  apply touches_bind; [|done]. apply IH. intros y Hy. apply Hall. by right.
Qed.

Lemma take_back_touches ids why : touches (tombstone_keys dep draw ids) (take_back dep ids why).
Proof. apply touches_bind; [apply rollbackTombstones_touches|done]. Qed.

Lemma rollbackOnRecheckError_touches ids c : touches (tombstone_keys dep draw ids) (rollbackOnRecheckError dep ids c).
Proof. apply touches_bind; [apply rollbackTombstones_touches|done]. Qed.

(** With the child live throughout, the descendants are not none. *)
Lemma findLiveDescendants_sees : validateStorageID kid = None -> id <> "" -> kid <> id ->
  wpi D V eq (findLiveDescendants dep id) (fun r => r <> Ok []).
Proof.
  intros Hk Hid Hne. unfold findLiveDescendants. apply wpi_bind.
  eapply wpi_mono; [|by apply loadChainSnapshot_sees with (kid := kid) (child := kid)].
  intros [cs|e] Hcs; [|done]. cbn -[descendants]. intros [= Hd].
  pose proof (edge_descendant cs id kid (Hcs cs eq_refl) Hne) as H. rewrite Hd in H. by apply not_elem_of_nil in H.
Qed.
End deleter.

(** The frames of two programs that write different keys. *)
Section apart.
Context (K K' : string -> Prop) (D : decision -> Prop).
Hypothesis apart : forall k, K k -> K' k -> False.
Local Abbreviation store := (gmap string (object string)).
Local Abbreviation W := (wpt D (frame K') (frame K)).

Lemma frame_agree (s s' : store) : frame K' s s' -> agree K s s'.
Proof. intros H k Hk. symmetry. apply H. intros Hk'. eauto. Qed.

Lemma wpt_writes {A} K0 (J : store -> Prop) (p : prog string A) s tr : (forall k, K0 k -> K k) ->
  (forall s s', frame K0 s s' -> J s -> J s') -> (forall s s', frame K' s s' -> J s -> J s') -> touches K0 p -> J s ->
  W p (fun _ tr' => since J (s :: tr) tr' /\ exists s1 tr1, tr' = s1 :: tr1 /\ J s1) (s :: tr).
Proof. intros HK H1 H2 Hp Hs. apply touches_wpt with (K := K0); [|done..]. intros s1 s2 Hf. split; [by eapply frame_mono|by apply H1]. Qed.

Lemma wpt_reads {A} (J : store -> Prop) (p : prog string A) s tr :
  (forall s s', frame K' s s' -> J s -> J s') -> reads_only p -> J s ->
  W p (fun _ tr' => since J (s :: tr) tr' /\ exists s1 tr1, tr' = s1 :: tr1 /\ J s1) (s :: tr).
Proof.
  intros HJ Hp Hs. apply wpt_writes with (K0 := fun _ => False); [done| |done|by apply reads_only_touches|done].
  intros s1 s2 H. assert (s2 = s1) as -> by (apply map_eq; intros k; apply H; tauto). done.
Qed.

Lemma wpt_any {A} (p : prog string A) s tr : touches K p -> W p (fun _ _ => True) (s :: tr).
Proof. intros Hp. eapply wpt_mono; [|by apply wpt_writes with (K0 := K) (J := fun _ => True)]. done. Qed.

(** An error that ends the program, after some writes. *)
Lemma wpt_err {A E T} (p : prog string A) (f : A -> E) (Q : result E T -> list store -> Prop) s tr :
  touches K p -> (forall e tr', Q (Err e) tr') -> W (pbind p (fun e => Ret (Err (f e)))) Q (s :: tr).
Proof. intros Hp HQ. apply wpt_bind. eapply wpt_mono; [|by apply wpt_any]. intros a tr' _. by intros tr2 _. Qed.

Lemma wpt_solo {A} (p : prog string A) Q s tr : local K p -> wp D p Q s ->
  W p (fun a tr' => exists s1 tr1 t, tr' = s1 :: tr1 /\ agree K s1 t /\ Q a t) (s :: tr).
Proof. intros Hl Hw. apply wpt_alone with (s0 := s); [apply frame_agree|done|done|by intros k|done]. Qed.

(** A key of ours is as we left it. *)
Lemma frame_key k (P : option (object string) -> Prop) : K k -> forall s s' : store, frame K' s s' -> P (s !! k) -> P (s' !! k).
Proof. intros Hk s s' Hf. by rewrite <- (frame_agree s s' Hf k Hk). Qed.
End apart.

Section deletion.
Context `{MJ : ManifestJSON} `{CH : Codec string Hold} `{CT : Codec string Tombstone}.
Context (caps : Capabilities) (draw : string -> string) (D : decision -> Prop).
Context (dep id kid : string) (policy reason : string) (K' : string -> Prop).
Local Abbreviation store := (gmap string (object string)).
Local Abbreviation K := (tombstone_keys dep draw [id]).
Local Abbreviation V := (live_child dep id kid kid).
Local Abbreviation M := (marked dep id).
Local Abbreviation W := (wpt D (frame K') (frame K)).
Hypothesis apart : forall k, K k -> K' k -> False.
Hypothesis (Hkid : validateStorageID kid = None) (Hne : kid <> id).

Lemma own_key : K (TombstonePath dep id).
Proof. exists id. split; [left|by left]. Qed.

(** The second look, once the tombstone is there. *)
Lemma second_look s tr : id <> "" -> M s ->
  W (findLiveDescendants dep id) (fun r tr' => (exists s1 tr1, tr' = s1 :: tr1 /\ M s1) /\ (r = Ok [] -> verified M V tr')) (s :: tr).
Proof.
  intros Hid Hm.
  pose proof (wpt_and D _ _ _ _ _ _ (wpt_reads K K' D M _ s tr (frame_key K K' apart _ is_Some own_key) (findLiveDescendants_reads dep id) Hm)
    (reads_wpt D (frame K') (frame K) V True _ _ (s :: tr) (fun s k _ => eq_refl) (findLiveDescendants_reads dep id)
      (fun _ => findLiveDescendants_sees D dep id kid Hkid Hid Hne))) as H.
  eapply wpt_mono; [|exact H]. intros r tr' [[(e1 & -> & Hm1) (s1 & tr1 & He & Hm2)] (e2 & He2 & Hv)].
  split; [rewrite He; by eexists _, _|]. intros ->. apply app_inv_tail in He2 as ->. exists e2, (s :: tr). split_and!; [done|done|].
  intros HV. by apply Hv.
Qed.

Lemma verified_reads {A} (p : prog string A) s tr : reads_only p -> M s -> verified M V (s :: tr) ->
  W p (fun _ tr' => exists s1 tr1, tr' = s1 :: tr1 /\ M s1 /\ verified M V tr') (s :: tr).
Proof.
  intros Hp Hm Hv. eapply wpt_mono; [|apply (wpt_reads K K' D M); [apply (frame_key K K' apart _ is_Some own_key)|done|done]].
  intros _ tr' [Hs (s1 & tr1 & -> & H1)]. exists s1, tr1. split_and!; [done|done|by eapply verified_since].
Qed.

Lemma SoftDelete_verified s : s !! TombstonePath dep id = None ->
  W (SoftDelete caps draw dep id policy reason) (fun r tr => r = Ok () -> verified M V tr) [s].
Proof.
  intros Hs. unfold SoftDelete. destruct (validateRef dep id) as [e|] eqn:Href; [by intros tr' _|].
  assert (id <> "") as Hid.
  { unfold validateRef in Href. destruct (validateStorageID dep); [done|]. by apply validateStorageID_slash. }
  assert (forall A (p : prog string A) s tr, reads_only p -> s !! TombstonePath dep id = None ->
    W p (fun _ tr' => exists s1 tr1, tr' = s1 :: tr1 /\ s1 !! TombstonePath dep id = None) (s :: tr)) as Hread.
  { intros A p s0 tr0 Hp H0. eapply wpt_mono; [|apply (wpt_reads K K' D (fun s => s !! TombstonePath dep id = None));
      [apply (frame_key K K' apart _ (fun x => x = None) own_key)|exact Hp|exact H0]]. by intros _ tr' [_ H]. }
  apply wpt_bind. eapply wpt_mono; [|apply Hread; [apply GetHold_reads|done]]. intros g _ (s1 & tr1 & -> & H1).
  apply wpt_bind. change (match g with Ok h => _ | Err e => _ end) with (hold_look g).
  eapply wpt_mono; [|apply Hread; [apply hold_look_reads|done]]. intros [|h|e] _ (s2 & tr2 & -> & H2); [|by intros tr' _..].
  apply wpt_bind. eapply wpt_mono; [|apply Hread; [apply findLiveDescendants_reads|done]].
  intros [[|x l]|e] _ (s3 & tr3 & -> & H3); [|by intros tr' _..].
  apply wpt_bind. eapply wpt_mono; [|apply (wpt_solo K K' D apart);
    [by apply softDeleteUnchecked_local|by apply softDeleteUnchecked_wp]].
  intros i _ (s4 & tr4 & t & -> & Ha & Hi). destruct i as [[]|e]; [|done|by intros tr' _].
  assert (M s4) as Hm by (unfold marked; by rewrite (Ha _ own_key)).
  apply wpt_bind. eapply wpt_mono; [|by apply second_look]. intros d _ [(s5 & tr5 & -> & H5) Hd].
  destruct d as [[|x l]|e]; [|apply wpt_err; [apply take_back_touches|done]|apply wpt_err; [apply rollbackOnRecheckError_touches|done]].
  specialize (Hd eq_refl). apply wpt_bind. eapply wpt_mono; [|apply verified_reads; [apply GetHold_reads|done|done]].
  intros [h|e] _ (s6 & tr6 & -> & H6 & Hv6).
  - apply wpt_bind. eapply wpt_mono; [|by apply (verified_reads now)]. intros t6 _ (s7 & tr7 & -> & H7 & Hv7).
    destruct (ActiveAt (Some h) t6); [apply wpt_err; [apply take_back_touches|done]|].
    intros tr' Hl _. eapply verified_since; [exact Hv7|].
    by apply (later_since _ M _ _ _ _ eq_refl (frame_key K K' apart _ is_Some own_key) H7 Hl).
  - destruct (hg_is_not_found e); [|apply wpt_err; [apply rollbackOnRecheckError_touches|done]].
    intros tr' Hl _. eapply verified_since; [exact Hv6|].
    by apply (later_since _ M _ _ _ _ eq_refl (frame_key K K' apart _ is_Some own_key) H6 Hl).
Qed.

(** *** The batch *)

Context (ids : list string).
Local Abbreviation KB := (tombstone_keys dep draw ids).
Local Abbreviation WB := (wpt D (frame K') (frame KB)).
Hypothesis apartB : forall k, KB k -> K' k -> False.
Hypothesis (Hin : id ∈ ids) (Hout : kid ∉ ids) (Hids : Forall (fun x => validateStorageID x = None) ids).

Lemma batch_key : KB (TombstonePath dep id).
Proof. exists id. split; [done|by left]. Qed.

(** Where an installation is with [id]: still to come, or done by this batch. *)
Definition progress (rest installed : list string) (s : store) : Prop :=
  (id ∈ rest /\ s !! TombstonePath dep id = None) \/ (M s /\ id ∈ installed).

Lemma install_step x rest installed s : progress (x :: rest) installed s -> validateStorageID x = None -> validateStorageID id = None ->
  wp D (softDeleteUnchecked caps draw dep x policy reason)
    (fun r s' => forall b, r = Ok b -> progress rest (if b : bool then installed ++ [x] else installed) s') s.
Proof.
  intros Hp Hx Hi. unfold softDeleteUnchecked. apply wp_bind, wp_now. intros d _. apply wp_bind.
  eapply wp_mono; [|apply commit_post_wp]. intros r s' (Hs & Hkeep & Hok & Hex).
  destruct (decide (x = id)) as [->|Hxi].
  - destruct r as [u|e].
    + destruct u. intros b [= <-]. right. destruct (Hok eq_refl) as (o & Ho & _). split; [by exists o|]. apply elem_of_app. right. left.
    + destruct (commit_is e ErrAlreadyExists) eqn:E; [|done]. intros b [= <-]. right. destruct (Hex e eq_refl E) as [o Ho].
      destruct Hp as [[_ Hn]|[_ Hp]]; [congruence|]. split; [exists o; by apply Hkeep|done].
  - assert (s' !! TombstonePath dep id = s !! TombstonePath dep id) as He.
    { apply Hs. intros Hk. assert (tombstone_keys dep draw [x] (TombstonePath dep id)) as Hk'.
      { exists x. split; [left|]. apply elem_of_cons in Hk as [Hk|Hk]; [by left|]. right. by apply list_elem_of_singleton in Hk. }
      destruct (id_of_tombstone_key dep draw [x] _ (Forall_cons_2 _ _ _ Hx (Forall_nil_2 _)) Hk') as (y & Hy & Hid).
      destruct (id_of_tombstone_key dep draw [id] (TombstonePath dep id) (Forall_cons_2 _ _ _ Hi (Forall_nil_2 _))) as (z & Hz & Hid');
        [exists id; split; [left|by left]|].
      apply list_elem_of_singleton in Hy, Hz. congruence. }
    assert (forall inst, (forall y, y ∈ installed -> y ∈ inst) -> progress rest inst s') as Hgo.
    { intros inst Hinst. destruct Hp as [[Hr Hn]|[Hm Hi']].
      - left. split; [|by rewrite He]. apply elem_of_cons in Hr as [Hr|Hr]; [congruence|done].
      - right. split; [unfold marked; by rewrite He|auto]. }
    destruct r as [u|e]; [|destruct (commit_is e ErrAlreadyExists); [|done]]; intros b [= <-]; apply Hgo; [|done].
    intros y Hy. apply elem_of_app. by left.
Qed.

Lemma install_each_verified rest : forall installed s tr, (forall x, x ∈ rest -> x ∈ ids) -> (forall x, x ∈ installed -> x ∈ ids) ->
  progress rest installed s ->
  WB (install_each caps draw dep policy reason rest installed)
    (fun r tr' => exists s1 tr1, tr' = s1 :: tr1 /\ (forall x, x ∈ r.1 -> x ∈ ids) /\ (r.2 = None -> M s1 /\ id ∈ r.1)) (s :: tr).
Proof.
  assert (Forall (fun x => validateStorageID x = None) [id]) as Hid1.
  { constructor; [|done]. rewrite Forall_forall in Hids. by apply Hids. }
  assert (forall s s', frame K' s s' -> forall rest inst, progress rest inst s -> progress rest inst s') as Hfr.
  { intros s s' Hf rest' inst [[H1 H2]|[H1 H2]]; [left|right]; (split; [done|]) || (split; [|done]).
    - by apply (frame_key KB K' apartB _ (fun x => x = None) batch_key s).
    - by apply (frame_key KB K' apartB _ is_Some batch_key s). }
  induction rest as [|x rest IH]; intros installed s tr Hsub Hsub2 Hp; cbn [install_each].
  - intros tr' Hl. destruct (later_since _ (progress [] installed) _ _ _ _ eq_refl (fun a b H1 => Hfr a b H1 _ _) Hp Hl)
      as [_ (s1 & tr1 & -> & [[H _]|H1])]; [by apply not_elem_of_nil in H|]. by eexists _, _.
  - assert (x ∈ ids) as Hx by (apply Hsub; left). apply wpt_bind.
    eapply wpt_mono; [|apply (wpt_solo KB K' D apartB)].
    2: { apply softDeleteUnchecked_local. intros k (y & Hy & Hk). apply list_elem_of_singleton in Hy as ->. by exists x. }
    2: { apply install_step; [done| |by inversion Hid1]. rewrite Forall_forall in Hids. by apply Hids. }
    intros [b|e] _ (s1 & tr1 & t & -> & Ha & Hb).
    + apply IH; [intros y Hy; apply Hsub; by right| |].
      { destruct b; [|done]. intros y [Hy|Hy]%elem_of_app; [auto|]. by apply list_elem_of_singleton in Hy as ->. }
      destruct (Hb b eq_refl) as [[H1 H2]|[H1 H2]]; [left|right]; split; try done.
      * by rewrite (Ha _ batch_key).
      * unfold marked. by rewrite (Ha _ batch_key).
    + intros tr' Hl. destruct (later_app _ _ _ Hl) as [[|s2 ext] ->]; by eexists _, _.
Qed.

Lemma batch_second_look s tr installed : id <> "" -> M s -> id ∈ installed ->
  WB (loadChainSnapshot dep) (fun r tr' => (exists s1 tr1, tr' = s1 :: tr1 /\ M s1) /\
    (forall cs, r = Ok cs -> firstOrphaningDelete cs (list_to_set ids) installed = None -> verified M V tr')) (s :: tr).
Proof.
  intros Hid Hm Hinst.
  pose proof (wpt_and D _ _ _ _ _ _ (wpt_reads KB K' D M _ s tr (frame_key KB K' apartB _ is_Some batch_key) (loadChainSnapshot_reads dep) Hm)
    (reads_wpt D (frame K') (frame KB) V True _ _ (s :: tr) (fun s k _ => eq_refl) (loadChainSnapshot_reads dep)
      (fun _ => loadChainSnapshot_sees D V dep id kid kid (fun _ H => H) Hkid Hid))) as H.
  eapply wpt_mono; [|exact H]. intros r tr' [[(e1 & -> & Hm1) (s1 & tr1 & He & Hm2)] (e2 & He2 & Hv)].
  split; [rewrite He; by eexists _, _|]. intros cs -> Hnone. apply app_inv_tail in He2 as ->. exists e2, (s :: tr). split_and!; [done|done|].
  intros HV. apply (orphaning_found cs (list_to_set ids) installed id kid); [done|by rewrite elem_of_list_to_set| |done].
  apply edge_descendant; [by apply Hv|done].
Qed.

Lemma batch_holds_reads deployment t l : reads_only (batch_holds deployment t l).
Proof.
  apply reads_only_for. intros x _. apply reads_only_bind; [apply GetHold_reads|].
  intros [h|e]; [by destruct (ActiveAt _ _)|by destruct (hg_is_not_found e)].
Qed.

Lemma wpt_err2 {A X E} (p : prog string A) (f : A -> X * option E) (Q : X * option E -> list store -> Prop) s tr :
  touches KB p -> (forall a tr', Q (f a) tr') -> WB (pbind p (fun a => Ret (f a))) Q (s :: tr).
Proof. intros Hp HQ. apply wpt_bind. eapply wpt_mono; [|by apply (wpt_any KB K' D)]. intros a tr' _. by intros tr2 _. Qed.

Lemma SoftDeleteBatch_verified s : s !! TombstonePath dep id = None ->
  WB (SoftDeleteBatch caps draw dep ids policy reason) (fun r tr => r.2 = None -> verified M V tr) [s].
Proof.
  intros Hs. unfold SoftDeleteBatch. destruct (validateStorageID dep) as [e|]; [by intros tr' _|].
  assert (forall X (a b : X), match ids with [] => a | _ :: _ => b end = b) as Hcons.
  { intros X a b. clear -Hin. destruct ids; [by apply not_elem_of_nil in Hin|done]. }
  rewrite Hcons. clear Hcons.
  destruct (first_some validateStorageID ids) as [e|]; [by intros tr' _|].
  assert (id <> "") as Hid.
  { rewrite Forall_forall in Hids. by apply validateStorageID_slash, Hids. }
  assert (forall A (p : prog string A) s tr, reads_only p -> s !! TombstonePath dep id = None ->
    WB p (fun _ tr' => exists s1 tr1, tr' = s1 :: tr1 /\ s1 !! TombstonePath dep id = None) (s :: tr)) as Hread.
  { intros A p s0 tr0 Hp H0. eapply wpt_mono; [|apply (wpt_reads KB K' D (fun s => s !! TombstonePath dep id = None));
      [apply (frame_key KB K' apartB _ (fun x => x = None) batch_key)|exact Hp|exact H0]]. by intros _ tr' [_ H]. }
  assert (forall A (p : prog string A) s tr, reads_only p -> M s -> verified M V (s :: tr) ->
    WB p (fun _ tr' => exists s1 tr1, tr' = s1 :: tr1 /\ M s1 /\ verified M V tr') (s :: tr)) as Hver.
  { intros A p s0 tr0 Hp Hm Hv. eapply wpt_mono; [|apply (wpt_reads KB K' D M); [apply (frame_key KB K' apartB _ is_Some batch_key)|done|done]].
    intros _ tr' [Hsi (s1 & tr1 & -> & H1)]. exists s1, tr1. split_and!; [done|done|by eapply verified_since]. }
  apply wpt_bind. eapply wpt_mono; [|by apply (Hread _ now)]. intros t _ (s1 & tr1 & -> & H1).
  apply wpt_bind. eapply wpt_mono; [|apply Hread; [apply batch_holds_reads|done]].
  intros [u|[x [h|e]]] _ (s2 & tr2 & -> & H2); [|by intros tr' _..].
  apply wpt_bind. eapply wpt_mono; [|apply Hread; [apply loadChainSnapshot_reads|done]].
  intros [cs|e] _ (s3 & tr3 & -> & H3); [|by intros tr' _].
  destruct (firstOrphaningDelete cs _ ids) as [[x y]|]; [by intros tr' _|].
  apply wpt_bind. eapply wpt_mono; [|apply install_each_verified; [done|by intros x ?%not_elem_of_nil|by left]].
  intros [installed [e|]] _ (s4 & tr4 & -> & Hsub & Hm); [by intros tr' _|]. destruct (Hm eq_refl) as [H4 Hinst]. cbn [fst] in Hinst.
  apply wpt_bind. eapply wpt_mono; [|by apply (batch_second_look _ _ installed)].
  assert (forall s tr c, WB (let* e := rollbackOnRecheckError dep installed c in Ret (recheck_answer installed e))
    (fun r tr => r.2 = None -> verified M V tr) (s :: tr)) as Hrb.
  { intros s0 tr0 c. apply wpt_err2; [|by intros []]. eapply touches_mono; [|apply rollbackOnRecheckError_touches].
    intros k (x & Hx & Hk). exists x. split; [by apply Hsub|exact Hk]. }
  assert (forall s tr why, WB (let* e := take_back dep installed why in Ret ([] : list string, Some e))
    (fun r tr => r.2 = None -> verified M V tr) (s :: tr)) as Htb.
  { intros s0 tr0 why. apply wpt_err2; [|done]. eapply touches_mono; [|apply take_back_touches].
    intros k (x & Hx & Hk). exists x. split; [by apply Hsub|exact Hk]. }
  intros [cs2|e] _ [(s5 & tr5 & -> & H5) Hv]; [|apply Hrb].
  destruct (firstOrphaningDelete cs2 _ installed) as [[x y]|] eqn:Hf; [apply Htb|]. specialize (Hv cs2 eq_refl Hf).
  apply wpt_bind. eapply wpt_mono; [|by apply (Hver _ now)]. intros t6 _ (s6 & tr6 & -> & H6 & Hv6).
  apply wpt_bind. eapply wpt_mono; [|apply Hver; [apply batch_holds_reads|done|done]].
  intros [u2|[x [h|e]]] _ (s7 & tr7 & -> & H7 & Hv7); [|apply Htb|apply Hrb].
  intros tr' Hl _. eapply verified_since; [exact Hv7|].
  by apply (later_since _ M _ _ _ _ eq_refl (frame_key KB K' apartB _ is_Some batch_key) H7 Hl).
Qed.
End deletion.

(** ** A commit *)

Section commit.
Context `{SG : Signing} `{MJ : ManifestJSON} `{L : LSN} `{CM : Codec string deploymentMarker}.
Context (caps : Capabilities) (draw : nat -> string) (D : decision -> Prop).
Context (dep id kid : string) (K' : string -> Prop).
Local Abbreviation store := (gmap string (object string)).
Local Abbreviation K := (commit_keys dep draw kid).
Local Abbreviation V := (live_child dep id kid kid).
Local Abbreviation M := (marked dep id).
Local Abbreviation W := (wpt D (frame K') (frame K)).
Local Abbreviation P := (PrimaryPath dep kid).

Lemma commitAtomic_local (K0 : string -> Prop) suffix key body opts : K0 key -> K0 (staging_key key suffix) ->
  local K0 (commitAtomic caps suffix key body opts).
Proof.
  intros H1 H2. unfold commitAtomic. apply local_bind; [by apply CommitExclusive_local|]. intros [u|e]; [|done].
  destruct (Time.IsZero _); [done|]. cbn. split; [eexists; split; [done|by repeat constructor]|]. by intros [u'|[]].
Qed.

(** A primary that was not there has the body once the commit of it succeeds. *)
Lemma commitAtomic_wp suffix key body opts s : s !! key = None ->
  wp D (commitAtomic caps suffix key body opts) (fun r s' => r = Ok () -> exists o, s' !! key = Some o /\ ob_body o = body) s.
Proof.
  intros Hn. unfold commitAtomic. apply wp_bind. eapply wp_mono; [|apply commit_post_wp].
  intros [u|e] s' (_ & _ & Hok & _); [|by cbn]. destruct u. destruct (Hok eq_refl) as (o & Ho & Hb & _).
  destruct (Time.IsZero _); [by exists o|]. apply wp_bind, wp_set_retention; cbn; try done.
  - intros o2 Ho2 _. eexists. rewrite lookup_insert_eq. split; [done|]. cbn. congruence.
Qed.

Lemma commitReplica_touches n body opts last : touches (finish_keys dep draw kid)
  (commitReplica caps draw n (ReplicaPath kid) body opts last).
Proof.
  revert last. induction n as [|n IH]; intros last; cbn [commitReplica]; [done|]. apply touches_bind.
  - apply local_touches, commitAtomic_local; [by right; right; left|]. right; right; right. by eexists.
  - intros [u|e]; [done|]. by destruct (atomic_is _ _).
Qed.

Lemma indexDeployment_touches : touches (finish_keys dep draw kid) (indexDeployment dep).
Proof.
  unfold indexDeployment. apply touches_bind.
  - unfold putDeploymentMarker. destruct (_ || _); [done|]. cbn. split; [constructor; [by left|done]|]. by intros [u|[]].
  - intros [u|e]; [done|]. cbn. split; [constructor; [by right; left|done]|done].
Qed.

Hypothesis apart : forall k, K k -> K' k -> False.
Hypothesis others_elsewhere : forall k, K' k -> id_of (backups_prefix dep) k <> Some kid.
Hypothesis (Hdep : validateStorageID dep = None) (Hrep : dep <> "_replicas") (Hkid : validateStorageID kid = None).
Hypothesis staged_name : HasSuffix (staging_key P (draw replicaCommitAttempts)) tombstoneSuffix = false.

(** The child is live as long as its manifest is and no tombstone of it appears. *)
Lemma alive_frame (K0 : string -> Prop) (s s' : store) :
  (forall k, K0 k -> HasPrefix k (backups_prefix dep) = true -> HasSuffix k tombstoneSuffix = true -> id_of (backups_prefix dep) k <> Some kid) ->
  frame K0 s s' -> ~ dead_in (backups_prefix dep) kid s -> ~ dead_in (backups_prefix dep) kid s'.
Proof.
  intros HK Hf Hd (k & o & Ho & Hp & Hs & Hi). apply Hd. exists k, o. split_and!; [|done..].
  rewrite <- Hf; [done|]. intros Hk. by apply (HK k Hk).
Qed.

Lemma live_frame (K0 : string -> Prop) (s s' : store) : (~ K0 P) ->
  (forall k, K0 k -> HasPrefix k (backups_prefix dep) = true -> HasSuffix k tombstoneSuffix = true -> id_of (backups_prefix dep) k <> Some kid) ->
  frame K0 s s' -> V s -> V s'.
Proof.
  intros HP HK Hf (o & flds & Ho & H1 & H2 & H3 & H4). exists o, flds. split_and!; [by rewrite Hf|done..|by eapply alive_frame].
Qed.

Lemma primary_alive (s s' : store) : frame (primary_keys dep draw kid) s s' ->
  ~ dead_in (backups_prefix dep) kid s -> ~ dead_in (backups_prefix dep) kid s'.
Proof.
  apply alive_frame. intros k [-> | ->] _ Hs.
  - destruct (backups_prefix_path dep kid) as [_ Hm]. apply manifest_not_tombstone in Hm. unfold tombstoneSuffix in Hs. congruence.
  - congruence.
Qed.

Lemma others_live (s s' : store) : frame K' s s' -> V s -> V s'.
Proof. apply live_frame; [intros H; apply (apart P); [by left; left|done]|]. intros k Hk _ _. by apply others_elsewhere. Qed.

Lemma finish_live (s s' : store) : frame (finish_keys dep draw kid) s s' -> V s -> V s'.
Proof.
  apply live_frame.
  - intros H. apply (finish_key_prefix dep draw kid P Hdep Hrep) in H. destruct (backups_prefix_path dep kid). congruence.
  - intros k Hk Hp. rewrite (finish_key_prefix dep draw kid k Hdep Hrep Hk) in Hp. done.
Qed.

Lemma backupIsLive_reads : reads_only (backupIsLive dep id).
Proof. unfold backupIsLive. apply reads_only_bind; [apply IsTombstoned_reads|]. intros [[]|e]; [done| |done]. cbn. split; [done|]. by intros [o|[]]. Qed.

(** With the parent tombstoned throughout, it is not found live. *)
Lemma backupIsLive_sees : validateRef dep id = None -> wpi D M eq (backupIsLive dep id) (fun r => r <> Ok true).
Proof.
  intros Hr. unfold backupIsLive, IsTombstoned. rewrite Hr. apply wpi_bind, wpi_bind, wpi_stat; [done|by intros| |done].
  intros s Hs Hn. destruct Hs as [o Ho]. congruence.
Qed.

Lemma commitBody_verified m body opts s : m_Deployment m = dep -> m_BackupID m = kid -> m_Type m = BackupTypeIncremental ->
  m_ParentBackupID m = id -> id <> "" -> validateRef dep id = None -> names_parent id kid body ->
  s !! P = None -> ~ dead_in (backups_prefix dep) kid s ->
  W (commitBody caps draw m body opts) (fun r tr => is_ok r = true -> verified V M tr) [s].
Proof.
  intros Hmd Hmk Hmt Hmp Hid Href (flds & Hsc & Hpar & Hch) Hn Ha. unfold commitBody. rewrite Hmd, Hmk, Hmt, Hmp.
  assert (forall k, primary_keys dep draw kid k -> K k) as Hpk by (intros k; by left).
  assert (local K (commitAtomic caps (draw replicaCommitAttempts) P body opts)) as Hloc
    by (apply commitAtomic_local; left; [by left|by right]).
  assert (forall Q, touches K (rollbackPrimaryCommit P Q)) as Hrb.
  { intros c. apply touches_bind; [cbn; split; [constructor; [by left; left|done]|done]|]. by intros [u|e]. }
  apply wpt_bind. eapply wpt_mono.
  2: { apply wpt_and; [apply (wpt_solo K K' D apart); [exact Hloc|by apply commitAtomic_wp]|].
       apply (wpt_writes K K' D (primary_keys dep draw kid) (fun s => ~ dead_in (backups_prefix dep) kid s)).
       - exact Hpk.
       - apply primary_alive.
       - intros s1 s2. apply alive_frame. intros k Hk _ _. by apply others_elsewhere.
       - apply local_touches, commitAtomic_local; [by left|by right].
       - exact Ha. }
  intros r tr [(s1 & tr1 & t & -> & Hag & Hr) [_ (s1' & tr1' & [= <- <-] & Ha1)]].
  destruct r as [u|e].
  2: { destruct (atomic_is e ErrAlreadyExists); [by intros tr' _|]. destruct e as [e|e]; [by intros tr' _|].
       by apply (wpt_err K K' D). }
  destruct u. destruct (Hr eq_refl) as (o & Ho & Hb).
  assert (V s1) as HV1.
  { exists o, flds. rewrite (Hag P) by (left; by left). rewrite Hb. done. }
  rewrite String.eqb_refl, (proj2 (String.eqb_neq id "") Hid). cbn [andb negb].
  apply wpt_bind. eapply wpt_mono.
  2: { apply wpt_and; [apply (wpt_reads K K' D V _ s1 tr1 others_live backupIsLive_reads HV1)|].
       apply (reads_wpt D (frame K') (frame K) M True _ _ (s1 :: tr1) (fun s k _ => eq_refl) backupIsLive_reads
         (fun _ => backupIsLive_sees Href)). }
  intros live tr [[(e1 & -> & HV2) (s2 & tr2 & He & HVs)] (e2 & He2 & Hv)]. apply app_inv_tail in He2 as ->.
  rewrite He. destruct live as [[]|e]; [|by apply (wpt_err K K' D)..].
  assert (verified V M (s2 :: tr2)) as Hver.
  { rewrite <- He. exists e2, (s1 :: tr1). split_and!; [done|done|]. intros HM. by apply Hv. }
  assert (forall A (p : prog string A) s tr, touches (finish_keys dep draw kid) p -> V s -> verified V M (s :: tr) ->
    W p (fun _ tr' => exists s1 tr1, tr' = s1 :: tr1 /\ V s1 /\ verified V M tr') (s :: tr)) as Hfin.
  { intros A p s0 tr0 Hp H0 Hv0. eapply wpt_mono; [|apply (wpt_writes K K' D (finish_keys dep draw kid) V)];
      [|intros k Hk; by right|apply finish_live|apply others_live|done|done].
    intros _ tr' [Hs (s3 & tr3 & -> & H3)]. eexists _, _. split_and!; [done|done|by eapply verified_since]. }
  assert (forall x s tr, V s -> verified V M (s :: tr) -> W (Ret (Ok x)) (fun (r : result store_commit_err (option atomic_err)) tr => is_ok r = true -> verified V M tr) (s :: tr)) as Hend.
  { intros x s0 tr0 H0 Hv0 tr' Hl _. eapply verified_since; [exact Hv0|]. by apply (later_since _ V _ _ _ _ eq_refl others_live H0 Hl). }
  apply wpt_bind. eapply wpt_mono; [|by apply Hfin; [apply indexDeployment_touches| |]]. intros _ _ (s3 & tr3 & -> & H3 & Hv3).
  destruct (co_SkipReplica opts); [by apply Hend|].
  apply wpt_bind. eapply wpt_mono; [|by apply Hfin; [apply commitReplica_touches| |]]. intros rerr _ (s4 & tr4 & -> & H4 & Hv4).
  by apply Hend.
Qed.
End commit.

(** ** The race *)

Section race.
Context `{SG : Signing} `{MJ : ManifestJSON} `{L : LSN} `{CM : Codec string deploymentMarker}.
Context `{CH : Codec string Hold} `{CT : Codec string Tombstone}.
Context (caps : Capabilities) (drawC : nat -> string) (drawD : string -> string).

(** A commit fails before its first call or is the commit of the signed manifest. *)
Lemma Commit_cases m signer opts :
  (exists e, Commit caps drawC m signer opts = Ret (Err e)) \/
  validateRef (m_Deployment m) (m_BackupID m) = None /\
  exists m', signed signer m = Some m' /\ m_Deployment m' = m_Deployment m /\ m_BackupID m' = m_BackupID m /\
    m_Type m' = m_Type m /\ m_ParentBackupID m' = m_ParentBackupID m /\
    Commit caps drawC m signer opts = commitBody caps drawC m' (MarshalToBytes m') opts.
Proof.
  unfold Commit. destruct (_ || _); [left; by eexists|]. destruct (validateRef _ _); [left; by eexists|].
  destruct (Validate m); [left; by eexists|]. destruct (signed signer m) as [m'|] eqn:E; [|left; by eexists].
  right. split; [done|]. exists m'. unfold signed in E. destruct (m_Attestation m); [by injection E as <-|].
  destruct signer as [sg|]; [|done]. by injection E as <-.
Qed.

Lemma deletion_apart dep kid ids : validateStorageID dep = None -> dep <> "_replicas" -> validateStorageID kid = None ->
  Forall (fun x => validateStorageID x = None) ids -> kid ∉ ids ->
  (forall k, tombstone_keys dep drawD ids k -> commit_keys dep drawC kid k -> False) /\
  (forall k, tombstone_keys dep drawD ids k -> id_of (backups_prefix dep) k <> Some kid).
Proof.
  intros Hd Hr Hk Hids Hn. split; [intros k; by apply keys_apart|]. intros k Ht.
  destruct (id_of_tombstone_key dep drawD ids k Hids Ht) as (x & Hx & ->). congruence.
Qed.

(** A deletion that is verified and a commit beside it. *)
Lemma race_loser {A} (K' : string -> Prop) (q : prog string A) (success : A -> Prop) m signer opts id s sched :
  let dep := m_Deployment m in let kid := m_BackupID m in
  m_Type m = BackupTypeIncremental -> m_ParentBackupID m = id -> dep <> "_replicas" -> validateRef dep id = None ->
  (forall m', signed signer m = Some m' -> names_parent id kid (MarshalToBytes m')) ->
  HasSuffix (staging_key (PrimaryPath dep kid) (drawC replicaCommitAttempts)) tombstoneSuffix = false ->
  s !! PrimaryPath dep kid = None -> ~ dead_in (backups_prefix dep) kid s ->
  (validateStorageID kid = None -> (forall k, K' k -> commit_keys dep drawC kid k -> False) /\
     (forall k, K' k -> id_of (backups_prefix dep) k <> Some kid) /\
     wpt (fun _ => True) (frame (commit_keys dep drawC kid)) (frame K') q
       (fun a tr => success a -> verified (marked dep id) (live_child dep id kid kid) tr) [s]) ->
  let '(c, d, _) := par sched (Commit caps drawC m signer opts) q [s] in
  forall x y, c = Ret (Ok x) -> d = Ret y -> success y -> False.
Proof.
  cbn zeta. intros Hty Hpar Hrep Href Hnames Hstage Hn Halive Hq.
  destruct (par sched (Commit caps drawC m signer opts) q [s]) as [[c d] tr] eqn:E.
  destruct (Commit_cases m signer opts) as [[e He]|(Hvm & m' & Hsig & Hd & Hk & Ht & Hp & He)]; rewrite He in E.
  { pose proof (par_done_l sched (Err e : result store_commit_err (option atomic_err)) q [s]) as H. rewrite E in H. cbn in H. congruence. }
  assert (validateStorageID (m_Deployment m) = None /\ validateStorageID (m_BackupID m) = None) as [Hvd Hvk].
  { unfold validateRef in Hvm. by destruct (validateStorageID (m_Deployment m)). }
  assert (id <> "") as Hid.
  { unfold validateRef in Href. rewrite Hvd in Href. by apply validateStorageID_slash. }
  destruct (Hq Hvk) as (Hap & Hels & Hw).
  pose proof (commitBody_verified caps drawC (fun _ => True) (m_Deployment m) id (m_BackupID m) K' (fun k H1 H2 => Hap k H2 H1) Hels Hvd Hrep Hstage
    m' (MarshalToBytes m') opts s Hd Hk (eq_trans Ht Hty) (eq_trans Hp Hpar) Hid Href (Hnames m' Hsig) Hn Halive) as Hc.
  pose proof (par_sound (fun _ => True) _ _ sched _ _ _ _ s (proj2 (Forall_forall _ _) (fun _ _ => I)) Hc Hw) as H.
  rewrite E in H. destruct H as [H1 H2]. intros x y -> -> Hs. eapply verified_once; [by apply (H2 y)|by apply (H1 (Ok x))].
Qed.
End race.

(** C3: an incremental that is being committed and the deletion of its parent, alone or in a batch that
    leaves the child out, never both succeed: not in any interleaving of their calls, and not under any
    failures of the backend. *)
Theorem commit_delete_race `{SG : Signing} `{MJ : ManifestJSON} `{L : LSN} `{CM : Codec string deploymentMarker}
    `{CH : Codec string Hold} `{CT : Codec string Tombstone} (caps : Capabilities) (drawC : nat -> string) (drawD : string -> string)
    (m : Manifest) (signer : option Signer) (opts : CommitOptions) (policy reason : string) (ids : list string)
    (s : gmap string (object string)) (sched : list (bool * decision)) :
  let dep := m_Deployment m in let kid := m_BackupID m in let id := m_ParentBackupID m in
  m_Type m = BackupTypeIncremental -> dep <> "_replicas" -> kid <> id -> id ∈ ids -> (kid ∉ ids) ->
  (forall m', signed signer m = Some m' -> names_parent id kid (MarshalToBytes m')) ->
  HasSuffix (staging_key (PrimaryPath dep kid) (drawC replicaCommitAttempts)) tombstoneSuffix = false ->
  s !! PrimaryPath dep kid = None -> ~ dead_in (backups_prefix dep) kid s -> s !! TombstonePath dep id = None ->
  (let '(c, d, _) := par sched (Commit caps drawC m signer opts) (SoftDelete caps drawD dep id policy reason) [s] in
   forall x y, c = Ret (Ok x) -> d = Ret (Ok y) -> False) /\
  (let '(c, d, _) := par sched (Commit caps drawC m signer opts) (SoftDeleteBatch caps drawD dep ids policy reason) [s] in
   forall x y, c = Ret (Ok x) -> d = Ret (y, None) -> False).
Proof.
  cbn zeta. set (dep := m_Deployment m). set (kid := m_BackupID m). set (id := m_ParentBackupID m).
  intros Hty Hrep Hne Hin Hout Hnames Hstage Hn Halive Hm. split.
  - destruct (validateRef dep id) as [e|] eqn:Href.
    { assert (SoftDelete caps drawD dep id policy reason = Ret (Err (DE_Ref e))) as -> by (unfold SoftDelete; by rewrite Href).
      destruct (par _ _ _ _) as [[c d] tr] eqn:E. pose proof (par_done_r sched (Commit caps drawC m signer opts) (Err (DE_Ref e) : result delete_err unit) [s]) as H.
      rewrite E in H. cbn in H. congruence. }
    assert (validateStorageID dep = None /\ validateStorageID id = None) as [Hvd Hvi].
    { unfold validateRef in Href. by destruct (validateStorageID dep). }
    pose proof (race_loser caps drawC (tombstone_keys dep drawD [id]) (SoftDelete caps drawD dep id policy reason) (fun r => r = Ok ())
      m signer opts id s sched Hty eq_refl Hrep Href Hnames Hstage Hn Halive) as H.
    destruct (par _ _ _ _) as [[c d] tr]. intros x y Hc Hd. destruct y. refine (H _ x (Ok ()) Hc Hd eq_refl). intros Hvk.
    destruct (deletion_apart drawC drawD dep kid [id] Hvd Hrep Hvk ltac:(by constructor) ltac:(set_solver)) as [H1 H2].
    split_and!; [done|done|]. by apply SoftDelete_verified.
  - destruct (validateStorageID dep) as [e|] eqn:Hvd.
    { assert (SoftDeleteBatch caps drawD dep ids policy reason = Ret ([], Some (DE_Ref e))) as -> by (unfold SoftDeleteBatch; by rewrite Hvd).
      destruct (par _ _ _ _) as [[c d] tr] eqn:E.
      pose proof (par_done_r sched (Commit caps drawC m signer opts) (([], Some (DE_Ref e)) : list string * option delete_err) [s]) as H.
      rewrite E in H. cbn in H. congruence. }
    destruct (first_some validateStorageID ids) as [e|] eqn:Hvs.
    { assert (SoftDeleteBatch caps drawD dep ids policy reason = Ret ([], Some (DE_Ref e))) as ->.
      { unfold SoftDeleteBatch. rewrite Hvd, Hvs. destruct ids; [by apply not_elem_of_nil in Hin|done]. }
      destruct (par _ _ _ _) as [[c d] tr] eqn:E.
      pose proof (par_done_r sched (Commit caps drawC m signer opts) (([], Some (DE_Ref e)) : list string * option delete_err) [s]) as H.
      rewrite E in H. cbn in H. congruence. }
    rewrite first_some_None in Hvs.
    assert (validateRef dep id = None) as Href by (unfold validateRef; rewrite Hvd; by apply Hvs).
    pose proof (race_loser caps drawC (tombstone_keys dep drawD ids) (SoftDeleteBatch caps drawD dep ids policy reason) (fun r => r.2 = None)
      m signer opts id s sched Hty eq_refl Hrep Href Hnames Hstage Hn Halive) as H.
    destruct (par _ _ _ _) as [[c d] tr]. intros x y Hc Hd. refine (H _ x (y, None) Hc Hd eq_refl). intros Hvk.
    assert (Forall (fun x => validateStorageID x = None) ids) as Hids by (apply Forall_forall; auto).
    destruct (deletion_apart drawC drawD dep kid ids Hvd Hrep Hvk Hids Hout) as [H1 H2].
    split_and!; [done|done|]. by apply SoftDeleteBatch_verified.
Qed.

(** *** Runs *)

#[local] Instance marker_eq_dec : EqDecision deploymentMarker.
Proof. solve_decision. Defined.

#[local] Instance marker_countable : Countable deploymentMarker.
Proof.
  apply (inj_countable' (fun x => (dm_Schema x, dm_Deployment x)) (fun '(a, b) => {| dm_Schema := a; dm_Deployment := b |})).
  by intros [].
Defined.
#[local] Instance marker_codec : Codec string deploymentMarker := countable_codec.

Definition presigned (id parent : string) : Manifest :=
  with_attestation (chain_manifest id parent) (Some {| at_Scheme := SchemeEd25519; at_PublicKey := "p"; at_Signature := "s" |}).

Definition plain_options : CommitOptions := {| co_SkipReplica := false; co_RetainUntil := Time.zero; co_RetentionMode := WORMNone |}.

Definition commit_of (id parent : string) : prog string (result store_commit_err (option atomic_err)) :=
  Commit (L := hex_lsn) conditional (fun _ => "x") (presigned id parent) None plain_options.

(** [n] calls of the committer's, [n'] of the deletion's. *)
Definition turns (l : list (bool * nat)) : list (bool * decision) :=
  l ≫= fun '(w, n) => repeat (w, failing_at 0 1%nat) n.

Definition race {A} (l : list (bool * nat)) (id parent : string) (q : prog string A) (s : gmap string (object string)) :=
  par (turns l) (commit_of id parent) q [s].

Definition delete_of (id : string) : prog string (result delete_err unit) := SoftDelete conditional (fun id => id) "d" id "manual" "".

(** Either can win, and when their calls are mixed both may lose. *)
Example races :
  let s := chain_store [("r", "")] in
  let outcome l := let '(c, d, _) := race l "a" "r" (delete_of "r") s in (c, d) in
  outcome [(true, 20%nat); (false, 20%nat)] = (Ret (Ok None), Ret (Err (DE_Descendants "r" ["a"]))) /\
  outcome [(false, 20%nat); (true, 20%nat)] = (Ret (Err (SC_RolledBack OrphanedIncremental)), Ret (Ok ())) /\
  outcome [(false, 5%nat); (true, 1%nat); (false, 2%nat); (true, 20%nat); (false, 20%nat)] =
    (Ret (Err (SC_RolledBack OrphanedIncremental)), Ret (Err (DE_Descendants "r" ["a"]))).
Proof. by vm_compute. Qed.

(** The cascade's second look starts at the root only, and by then the links below it are tombstoned
    and carry no edges: a child committed to a link in between is not seen.  Both succeed, and [a] is
    live on the deleted [p].  The batch looks from every backup it tombstoned, and takes them back. *)
Theorem cascade_misses_child :
  let s := chain_store [("r", ""); ("p", "r")] in
  let outcome (q : prog string (list string * option delete_err)) :=
    match race [(false, 4%nat); (true, 20%nat); (false, 40%nat)] "a" "p" q s with
    | (Ret (Ok None), Ret (deleted, e), s' :: _) =>
        Some (deleted, match e with Some _ => false | None => true end, tombstones_of s' ["r"; "p"; "a"],
              bool_decide (is_Some (s' !! PrimaryPath "d" "a")))
    | _ => None
    end in
  outcome (SoftDeleteCascade conditional (fun id => id) "d" "r" "manual" "") = Some (["p"; "r"], true, [true; true; false], true) /\
  outcome (SoftDeleteBatch conditional (fun id => id) "d" ["p"; "r"] "manual" "") = Some ([], false, [false; false; false], true).
Proof. by vm_compute. Qed.

Lemma commit_delete_race_witness :
  let '(c, d, _) := par (turns [(false, 5%nat); (true, 20%nat); (false, 20%nat)])
    (Commit (L := hex_lsn) conditional (fun _ => "x") (presigned "a" "r") None plain_options)
    (SoftDelete conditional (fun id => id) (m_Deployment (presigned "a" "r")) (m_ParentBackupID (presigned "a" "r")) "manual" "")
    [chain_store [("r", "")]] in
  forall x y, c = Ret (Ok x) -> d = Ret (Ok y) -> False.
Proof.
  assert (forall m', signed (SG := sample_signing) None (presigned "a" "r") = Some m' -> names_parent "r" "a" (MarshalToBytes m')) as Hn.
  { intros m' Hs. change (Some (presigned "a" "r") = Some m') in Hs. apply (inj Some) in Hs as <-. eexists. split; [apply sample_scan|]. by split. }
  assert ("r" ∈ ["r"]) as Hin by left.
  assert ("a" ∉ ["r"]) as Hout by set_solver.
  pose proof (commit_delete_race (L := hex_lsn) conditional (fun _ => "x") (fun id => id) (presigned "a" "r") None plain_options "manual" "" ["r"]
    (chain_store [("r", "")]) (turns [(false, 5%nat); (true, 20%nat); (false, 20%nat)]) eq_refl ltac:(done) ltac:(done) Hin Hout Hn eq_refl eq_refl
    (chain_store_live _ _) eq_refl) as [H _]. exact H.
Defined.
