(* ===== verification/Undelete.v ===== *)
(** Resurrecting a soft-deleted backup (internal/backup/manifest_store.go Undelete, UndeleteForce,
    ReadTombstone; undelete_recheck.go).

    The chunks and the ancestors are looked at while the manifest is hidden and again once it is
    visible; what the second look finds puts the marker back.  The walk over the ancestors has a
    fuel, which [walk_ends] shows is enough when it exceeds twice the number of stored objects. *)
From S2P Require Import Prelude GoString Storage Concur Commit Interleave Lsn Hash Json BackupManifest ManifestRead SampleJson ManifestStore Hold SoftDelete OrphanRace.
From Stdlib Require Import Ascii.

Local Open Scope string_scope.
Local Open Scope list_scope.
Local Open Scope Z_scope.
#[local] Arguments String.append : simpl nomatch.

Inductive walk_err :=
| WK_Cycle (at_ : string) | WK_TombstoneCheck (e : id_err + serr) | WK_Read (id : string) (e : get_error) | WK_Fuel.

Inductive undelete_err :=
| UD_Ref (e : id_err)
| UD_TombstoneCheck (e : id_err + serr)
| UD_Read (e : get_error)
| UD_ChunkCheck (e : check_err)
| UD_ChunksMissing (r : ChunkCheckResult)
| UD_Walk (e : walk_err)
| UD_ParentTombstoned (ancestor : string)
| UD_Remove (e : serr)
| UD_Unverified (c : check_err + walk_err)
| UD_LiveOnDead (ancestor : string) (e : commit_err).

Inductive tombstone_read_err := TR_Empty | TR_Store (e : serr) | TR_TooLarge | TR_Decode | TR_Schema.

Section undelete.
Context (sha256 : string -> string).
Context `{SG : Signing} `{MJ : ManifestJSON} `{L : LSN} `{CT : Codec string Tombstone}.
Context (caps : Capabilities) (draw : string -> string).

Definition ReadTombstone (deployment backupID : string) : prog string (result tombstone_read_err Tombstone) :=
  if String.eqb deployment "" || String.eqb backupID "" then Ret (Err TR_Empty)
  else
    let* r := sGet (TombstonePath deployment backupID) in
    match r with
    | Err e => Ret (Err (TR_Store e))
    | Ok body =>
        match ReadAllLimited body MaxManifestBytes with
        | None => Ret (Err TR_TooLarge)
        | Some b =>
            match decode b with
            | None => Ret (Err TR_Decode)
            | Some t => if String.eqb (tb_Schema t) TombstoneSchema then Ret (Ok t) else Ret (Err TR_Schema)
            end
        end
    end.

(** The loop of [firstTombstonedAncestor] from the manifest [cur]; [None]: the whole chain is live. *)
Fixpoint walk (fuel : nat) (deployment : string) (cur : handle) (seen : gset string) : prog string (result walk_err (option string)) :=
  let p := m_ParentBackupID (hd_Manifest cur) in
  if String.eqb p "" then Ret (Ok None)
  else match fuel with
  | O => Ret (Err WK_Fuel)
  | S fuel =>
      if bool_decide (p ∈ seen) then Ret (Err (WK_Cycle p))
      else
        let* dead := IsTombstoned deployment p in
        match dead with
        | Err e => Ret (Err (WK_TombstoneCheck e))
        | Ok true => Ret (Ok (Some p))
        | Ok false =>
            let* r := readManifestUnverified sha256 deployment p in
            match r with
            | Err e => Ret (Err (WK_Read p e))
            | Ok parent => walk fuel deployment parent ({[p]} ∪ seen)
            end
        end
  end.

Definition firstTombstonedAncestor (fuel : nat) (deployment : string) (m : handle) : prog string (result walk_err (option string)) :=
  walk fuel deployment m ∅.

(** A key's bytes, for the marker's round trip. *)
Definition readRaw (key : string) : prog string (option string) :=
  let* r := sGet key in
  Ret (match r with Ok body => ReadAllLimited body MaxRecordBytes | Err _ => None end).

(** The marker back in place: its own bytes when there are any. *)
Definition own_bytes (marker : option string) : option string :=
  match marker with Some b => if String.eqb b "" then None else Some b | None => None end.

Definition put_back (deployment backupID body : string) : prog string (result commit_err unit) :=
  CommitExclusive caps (draw backupID) (TombstonePath deployment backupID) body (Z.of_nat (String.length body)) no_lock.

Definition reinstallTombstone (deployment backupID : string) (marker : option string) : prog string (option commit_err) :=
  match own_bytes marker with
  | Some b =>
      let* r := put_back deployment backupID b in
      Ret (match r with Ok _ => None | Err e => if commit_is e ErrAlreadyExists then None else Some e end)
  | None =>
      let* r := softDeleteUnchecked caps draw deployment backupID "undelete-rollback" "ancestor tombstoned during undelete" in
      Ret (match r with Ok _ => None | Err e => Some e end)
  end.

Definition recheckResurrected (m : handle) : prog string (result check_err ChunkCheckResult) := CheckChunkExistence sha256 m.

(** Once the marker is gone. *)
Definition second_check (fuel : nat) (deployment backupID : string) (m : handle) (marker : option string)
    : prog string (bool * option undelete_err) :=
  let* recheck := recheckResurrected m in
  match recheck with
  | Err e => Ret (true, Some (UD_Unverified (inl e)))
  | Ok res =>
      if negb (AllPresent res) then
        let* _ := match own_bytes marker with
                  | Some b => let* _ := put_back deployment backupID b in Ret ()
                  | None => Ret ()
                  end in
        Ret (false, Some (UD_ChunksMissing res))
      else
        let* anc := firstTombstonedAncestor fuel deployment m in
        match anc with
        | Err e => Ret (true, Some (UD_Unverified (inr e)))
        | Ok None => Ret (true, None)
        | Ok (Some a) =>
            let* r := reinstallTombstone deployment backupID marker in
            match r with
            | Some e => Ret (true, Some (UD_LiveOnDead a e))
            | None => Ret (false, Some (UD_ParentTombstoned a))
            end
        end
  end.

(** Whether the marker was removed, and the error. *)
Definition Undelete (fuel : nat) (deployment backupID : string) : prog string (bool * option undelete_err) :=
  match validateRef deployment backupID with
  | Some e => Ret (false, Some (UD_Ref e))
  | None =>
      let* dead := IsTombstoned deployment backupID in
      match dead with
      | Err e => Ret (false, Some (UD_TombstoneCheck e))
      | Ok false => Ret (false, None)
      | Ok true =>
          let* r := readManifestUnverified sha256 deployment backupID in
          match r with
          | Err e => Ret (false, Some (UD_Read e))
          | Ok m =>
              let* c := CheckChunkExistence sha256 m in
              match c with
              | Err e => Ret (false, Some (UD_ChunkCheck e))
              | Ok res =>
                  if negb (AllPresent res) then Ret (false, Some (UD_ChunksMissing res))
                  else
                    let* anc := firstTombstonedAncestor fuel deployment m in
                    match anc with
                    | Err e => Ret (false, Some (UD_Walk e))
                    | Ok (Some a) => Ret (false, Some (UD_ParentTombstoned a))
                    | Ok None =>
                        let* marker := readRaw (TombstonePath deployment backupID) in
                        let* removed := removeTombstone deployment backupID in
                        match removed with
                        | Err e => Ret (false, Some (UD_Remove e))
                        | Ok false => Ret (false, None)
                        | Ok true => second_check fuel deployment backupID m marker
                        end
                    end
              end
          end
      end
  end.

Definition UndeleteForce (deployment backupID : string) : prog string (bool * option undelete_err) :=
  match validateRef deployment backupID with
  | Some e => Ret (false, Some (UD_Ref e))
  | None =>
      let* dead := IsTombstoned deployment backupID in
      match dead with
      | Err e => Ret (false, Some (UD_TombstoneCheck e))
      | Ok false => Ret (false, None)
      | Ok true =>
          let* r := removeTombstone deployment backupID in
          match r with
          | Err e => Ret (false, Some (UD_Remove e))
          | Ok b => Ret (b, None)
          end
      end
  end.
End undelete.

(** ** What an undelete answers *)

Section outcomes.
Context (sha256 : string -> string).
Context `{SG : Signing} `{MJ : ManifestJSON} `{L : LSN} `{CT : Codec string Tombstone}.
Context (caps : Capabilities) (draw : string -> string) (D : decision -> Prop).
Context (dep : string).
Local Abbreviation store := (gmap string (object string)).

(** A copy of a backup's manifest, primary or replica, as a reader holds it. *)
Definition copy_at (s : store) (key : string) (h : handle) : Prop :=
  exists o info, s !! key = Some o /\ StreamManifest collect (ob_body o) no_options [] = inr info /\
    h = {| hd_Manifest := si_Manifest info;
           hd_stream := Some {| fs_key := key; fs_sha := sha256 (ob_body o); fs_files := si_Files info;
                                fs_bytes := si_Bytes info; fs_chunkRefs := si_ChunkRefs info |} |}.

Definition copy_of (s : store) (id : string) (h : handle) : Prop := copy_at s (PrimaryPath dep id) h \/ copy_at s (ReplicaPath id) h.

(** The files a reader of [h] is given. *)
Definition lists (s : store) (h : handle) (files : list FileEntry) : Prop :=
  match hd_stream h with
  | None => files = m_Files (hd_Manifest h)
  | Some fs => exists o info, s !! fs_key fs = Some o /\ StreamManifest collect (ob_body o) no_options [] = inr info /\ files = si_visit info
  end.

Definition chunks_there (s : store) (files : list FileEntry) : Prop :=
  forall h, h ∈ chunk_hashes files -> is_Some (s !! ChunkKey h).

(** No ancestor is tombstoned, and each has a readable copy that leads to the next. *)
Inductive chain_alive (s : store) : Manifest -> Prop :=
| alive_root m : m_ParentBackupID m = "" -> chain_alive s m
| alive_step m h : m_ParentBackupID m <> "" -> s !! TombstonePath dep (m_ParentBackupID m) = None ->
    copy_of s (m_ParentBackupID m) h -> chain_alive s (hd_Manifest h) -> chain_alive s m.

Lemma streamHeader_wp key s :
  wp D (streamHeader sha256 key no_options) (fun r s' => s' = s /\ forall h, r = Ok h -> copy_at s key h) s.
Proof.
  unfold streamHeader. apply wp_bind, wp_get; cbn -[StreamManifest].
  - intros o Ho. destruct (StreamManifest _ _ _ _) as [e|info] eqn:E; cbn; (split; [done|]); [done|]. intros h [= <-]. by exists o, info.
  - done.
  - done.
Qed.

Lemma readManifestUnverified_wp id s :
  wp D (readManifestUnverified sha256 dep id) (fun r s' => s' = s /\ forall h, r = Ok h -> copy_of s id h) s.
Proof.
  unfold readManifestUnverified. apply wp_bind. eapply wp_mono; [|apply streamHeader_wp].
  intros [h|e] s' [-> H]; [split; [done|]; intros h' [= <-]; left; by apply H|].
  eapply wp_mono; [|apply streamHeader_wp]. intros r s' [-> H']. split; [done|]. intros h ->. right. by apply H'.
Qed.

Lemma IsTombstoned_wp id s :
  wp D (IsTombstoned dep id) (fun r s' => s' = s /\ forall b, r = Ok b -> b = bool_decide (is_Some (s !! TombstonePath dep id))) s.
Proof.
  unfold IsTombstoned. destruct (validateRef dep id); [done|]. apply wp_bind, wp_stat; cbn -[TombstonePath].
  - intros o Ho. split; [done|]. intros b [= <-]. rewrite bool_decide_eq_true_2; [done|by exists o].
  - intros Hn. split; [done|]. intros b [= <-]. rewrite bool_decide_eq_false_2; [done|]. rewrite Hn. by intros [].
  - done.
Qed.

(** The walk: it changes nothing, and what it says of the chain is so. *)
Lemma walk_wp fuel : forall m seen s,
  wp D (walk sha256 fuel dep m seen) (fun r s' => s' = s /\ match r with
    | Ok None => chain_alive s (hd_Manifest m)
    | _ => True
    end) s.
Proof.
  induction fuel as [|fuel IH]; intros m seen s; cbn [walk].
  - destruct (String.eqb_spec (m_ParentBackupID (hd_Manifest m)) ""); cbn; split; try done. by constructor.
  - destruct (String.eqb_spec (m_ParentBackupID (hd_Manifest m)) "") as [E|E]; [cbn; split; [done|by constructor]|].
    destruct (bool_decide _); [done|]. apply wp_bind. eapply wp_mono; [|apply IsTombstoned_wp].
    intros [[]|e] s' [-> Hd]; [done| |done].
    apply wp_bind. eapply wp_mono; [|apply readManifestUnverified_wp]. intros [h|e] s' [-> Hc]; [|done].
    eapply wp_mono; [|apply IH]. intros [[a|]|e] s' [-> H]; (split; [done|]); [done| |done].
    eapply alive_step; [done| |by apply Hc|done]. specialize (Hd false eq_refl). symmetry in Hd.
    apply bool_decide_eq_false in Hd. by apply eq_None_not_Some.
Qed.

Lemma EachFile_wp h s : wp D (EachFile sha256 h) (fun r s' => s' = s /\ forall files, r = Ok files -> lists s h files) s.
Proof.
  unfold EachFile, lists. destruct (hd_stream h) as [fs|]; [|cbn; split; [done|by intros files [= <-]]].
  apply wp_bind, wp_get; cbn -[StreamManifest].
  - intros o Ho. destruct (StreamManifest _ _ _ _) as [e|info] eqn:E; [done|]. destruct (String.eqb _ _); cbn; (split; [done|]); [|done].
    intros files [= <-]. by exists o, info.
  - done.
  - done.
Qed.

Lemma lists_once s h f1 f2 : lists s h f1 -> lists s h f2 -> f1 = f2.
Proof.
  unfold lists. destruct (hd_stream h) as [fs|]; [|congruence].
  intros (o1 & i1 & H1 & H2 & ->) (o2 & i2 & H3 & H4 & ->). congruence.
Qed.

Lemma chunk_loop_wp s l : forall res, Z.of_nat (length (cc_Missing res)) <= cc_MissingCount res ->
  wp D (for_ l res check_one) (fun r s' => s' = s /\ forall res', r = inl res' ->
    Z.of_nat (length (cc_Missing res')) <= cc_MissingCount res' /\
    (cc_MissingCount res' = 0 <-> cc_MissingCount res = 0 /\ forall h, h ∈ l -> is_Some (s !! ChunkKey h))) s.
Proof.
  induction l as [|h l IH]; intros res Hm; cbn [for_].
  - cbn -[ChunkKey maxCheckMissingListed]. split; [done|]. intros res' [= <-]. split; [done|]. split; [|tauto]. intros H. split; [done|]. by intros x ?%not_elem_of_nil.
  - apply wp_bind. unfold check_one at 1. apply wp_bind, wp_stat; cbn -[ChunkKey maxCheckMissingListed].
    + intros o Ho. eapply wp_mono; [|apply IH; done]. intros r s' [-> H]. split; [done|]. intros res' ->.
      destruct (H res' eq_refl) as [H1 ->]. cbn -[ChunkKey maxCheckMissingListed]. split; [done|]. split.
      * intros [H2 H3]. split; [done|]. intros x [-> |Hx]%elem_of_cons; [by exists o|auto].
      * intros [H2 H3]. split; [done|]. intros x Hx. apply H3. by right.
    + intros Hn. eapply wp_mono; [|apply IH].
      2: { cbn [cc_Missing cc_MissingCount]. case_match; rewrite ?length_app; cbn [length]; lia. }
      intros r s' [-> H]. split; [done|]. intros res' ->.
      destruct (H res' eq_refl) as [H1 ->]. cbn -[ChunkKey maxCheckMissingListed]. split; [done|]. split; [lia|].
      intros [H2 H3]. destruct (H3 h ltac:(left)) as [o Ho]. congruence.
    + done.
Qed.

Lemma CheckChunkExistence_wp h s :
  wp D (CheckChunkExistence sha256 h) (fun r s' => s' = s /\ forall res, r = Ok res ->
    exists files, lists s h files /\ (AllPresent res = true <-> chunks_there s files)) s.
Proof.
  unfold CheckChunkExistence. apply wp_bind. eapply wp_mono; [|apply EachFile_wp]. intros [files|e] s' [-> Hf]; [|done].
  apply wp_bind. eapply wp_mono; [|by apply (chunk_loop_wp s)]. intros [res|e] s' [-> H]; [|done]. cbn. split; [done|].
  intros res' [= <-]. exists files. split; [by apply Hf|]. destruct (H res eq_refl) as [H1 H2]. cbn in H2.
  unfold AllPresent, NumMissing, chunks_there. rewrite Z.eqb_eq. setoid_rewrite <- elem_of_elements.
  transitivity (cc_MissingCount res = 0); [lia|]. rewrite H2. tauto.
Qed.

(** A marker's key is not a manifest's, nor a chunk's. *)
Lemma marker_apart id : TombstonePath dep id <> PrimaryPath dep id /\ TombstonePath dep id <> ReplicaPath id /\
  forall h, TombstonePath dep id <> ChunkKey h.
Proof.
  assert (HasSuffix (TombstonePath dep id) ".tombstone" = true) as Ht by apply HasSuffix_app.
  assert (forall k, HasSuffix k ".json" = true -> TombstonePath dep id <> k) as H.
  { intros k Hk <-. rewrite (HasSuffix_last _ ".jso" ".tombston" "n" "e") in Ht; [done|done|exact Hk]. }
  split_and!; [apply H|apply H|].
  - unfold PrimaryPath. change "/manifest.json" with ("/manifest" +:+ ".json"). rewrite <- !string_app_assoc. apply HasSuffix_app.
  - unfold ReplicaPath. change ".manifest.json" with (".manifest" +:+ ".json"). rewrite <- !string_app_assoc. apply HasSuffix_app.
  - intros h. unfold TombstonePath, PrimaryPath, backups_prefix, ChunkKey. rewrite !string_app_assoc. discriminate.
Qed.

Lemma lists_unmarked s id h files : copy_of s id h -> lists s h files -> lists (delete (TombstonePath dep id) s) h files.
Proof.
  destruct (marker_apart id) as (H1 & H2 & _).
  intros [(o & info & Ho & Hi & ->)|(o & info & Ho & Hi & ->)] (o' & i' & Ho' & H); cbn in Ho'; exists o', i'; cbn;
    (rewrite lookup_delete_ne; [done|done]).
Qed.

Lemma chunks_unmarked s id files : chunks_there s files -> chunks_there (delete (TombstonePath dep id) s) files.
Proof. intros H h Hh. rewrite lookup_delete_ne; [by apply H|]. by apply marker_apart. Qed.
End outcomes.

(** *** The walk ends *)

Section walk_ends.
Context (sha256 : string -> string).
Context `{SG : Signing} `{MJ : ManifestJSON} `{L : LSN}.
Context (D : decision -> Prop) (dep : string).
Local Abbreviation store := (gmap string (object string)).

(** The backups a stored object can be a copy of the manifest of. *)
Definition copied (s : store) : gset string :=
  list_to_set (map (fun k => TrimSuffix (TrimPrefix k (backups_prefix dep)) manifestSuffix) (elements (dom s)) ++
               map (fun k => TrimSuffix (TrimPrefix k "manifests/_replicas/") ".manifest.json") (elements (dom s))).

Lemma copied_size s : (size (copied s) <= 2 * size s)%nat.
Proof.
  unfold copied. etransitivity; [apply size_list_to_set_le|]. rewrite length_app, !length_map.
  change (length (elements (dom s))) with (size (dom s)). rewrite size_dom. lia.
Qed.

Lemma copy_copied s id h : copy_of sha256 dep s id h -> id ∈ copied s.
Proof.
  intros [(o & info & Ho & _)|(o & info & Ho & _)]; apply elem_of_list_to_set, elem_of_app; [left|right]; apply list_elem_of_fmap;
    eexists; (split; [|apply elem_of_elements, elem_of_dom; by exists o]).
  - unfold PrimaryPath. rewrite TrimPrefix_app. unfold manifestSuffix. by rewrite TrimSuffix_app.
  - unfold ReplicaPath. by rewrite TrimPrefix_app, TrimSuffix_app.
Qed.

Lemma walk_fuel s fuel : forall m seen, (size (copied s ∖ seen) < fuel)%nat ->
  wp D (walk sha256 fuel dep m seen) (fun r s' => s' = s /\ r <> Err WK_Fuel) s.
Proof.
  induction fuel as [|fuel IH]; intros m seen Hf; [lia|]. cbn [walk]. destruct (String.eqb _ _); [done|].
  destruct (bool_decide_reflect (m_ParentBackupID (hd_Manifest m) ∈ seen)) as [|Hs]; [done|].
  apply wp_bind. eapply wp_mono; [|apply IsTombstoned_wp]. intros [[]|e] s' [-> _]; [done| |done].
  apply wp_bind. eapply wp_mono; [|apply readManifestUnverified_wp]. intros [h|e] s' [-> Hc]; [|done].
  apply IH. pose proof (copy_copied s _ h (Hc h eq_refl)) as Hin.
  revert Hs Hin Hf. generalize (copied s) (m_ParentBackupID (hd_Manifest m)). clear. intros C x Hs Hin Hf.
  assert (size ({[x]} ∪ C ∖ ({[x]} ∪ seen)) <= size (C ∖ seen))%nat as Hsub by (apply subseteq_size; set_solver).
  rewrite size_union, size_singleton in Hsub by set_solver. lia.
Qed.
End walk_ends.

(** The walk over a backup's ancestors ends, whatever the parent links and the failures of the
    backend: a fuel of more than twice the number of stored objects never runs out. *)
Theorem walk_ends (sha256 : string -> string) `{SG : Signing} `{MJ : ManifestJSON} `{L : LSN}
    (fuel : nat) (dep : string) (m : handle) (ds : nat -> decision) (s : gmap string (object string)) :
  (2 * size s < fuel)%nat ->
  let '(r, s') := run ds 0 (firstTombstonedAncestor sha256 fuel dep m) s in r <> Err WK_Fuel /\ s' = s.
Proof.
  intros Hf. assert (size (copied dep s ∖ ∅) < fuel)%nat as Hm.
  { pose proof (copied_size dep s). replace (copied dep s ∖ ∅) with (copied dep s) by (apply set_eq; clear; set_solver). lia. }
  pose proof (wp_run (fun _ => True) _ _ _ ds 0 (fun _ => I) (walk_fuel sha256 (fun _ => True) dep s fuel m ∅ Hm)) as H.
  change (walk sha256 fuel dep m ∅) with (firstTombstonedAncestor sha256 fuel dep m) in H.
  destruct (run ds 0 _ s) as [r s']. tauto.
Qed.

Section undelete_outcome.
Context (sha256 : string -> string).
Context `{SG : Signing} `{MJ : ManifestJSON} `{L : LSN} `{CT : Codec string Tombstone}.
Context (caps : Capabilities) (draw : string -> string) (D : decision -> Prop).
Context (dep id : string).
Local Abbreviation store := (gmap string (object string)).
Local Abbreviation key := (TombstonePath dep id).
Local Abbreviation touched := [key; staging_key key (draw id)].

(** A backup handed back: visible, its chunks there and its ancestors live. *)
Definition restored_in (s s' : store) : Prop :=
  s' !! key = None /\ exists h files, copy_of sha256 dep s id h /\ lists s' h files /\ chunks_there s' files /\
    chain_alive sha256 dep s' (hd_Manifest h).

Definition undelete_post (s : store) (r : bool * option undelete_err) (s' : store) : Prop :=
  same_but touched s s' /\
  (r = (true, None) -> restored_in s s') /\
  (r.1 = false -> (forall e, r.2 <> Some (UD_Remove e)) -> is_Some (s' !! key) \/ s' = s /\ s !! key = None).

Lemma undelete_same s e : is_Some (s !! key) -> undelete_post s (false, e) s.
Proof. intros H. split_and!; [apply same_but_refl|done|by left]. Qed.

Lemma put_back_wp body s : wp D (put_back caps draw dep id body) (fun r s' => same_but touched s s' /\
  (r = Ok () -> is_Some (s' !! key)) /\ (forall e, r = Err e -> commit_is e ErrAlreadyExists = true -> is_Some (s' !! key))) s.
Proof.
  unfold put_back. eapply wp_mono; [|apply commit_post_wp]. intros r s' (H1 & H2 & H3 & H4). split; [done|]. split.
  - intros Hr. destruct (H3 Hr) as (o & Ho & _). by exists o.
  - intros e He Ha. destruct (H4 e He Ha) as [o Ho]. exists o. by apply H2.
Qed.

Lemma reinstall_wp marker s : wp D (reinstallTombstone caps draw dep id marker) (fun r s' => same_but touched s s' /\
  (r = None -> is_Some (s' !! key))) s.
Proof.
  unfold reinstallTombstone. destruct (own_bytes marker) as [b|].
  - apply wp_bind. eapply wp_mono; [|apply put_back_wp]. intros [[]|e] s' (H1 & H2 & H3); cbn; (split; [done|]).
    + intros _. by apply H2.
    + destruct (commit_is e ErrAlreadyExists) eqn:E; [|done]. intros _. by eapply H3.
  - apply wp_bind. unfold softDeleteUnchecked. apply wp_bind, wp_now. intros d _. apply wp_bind.
    eapply wp_mono; [|apply commit_post_wp]. intros [[]|e] s' (H1 & H2 & H3 & H4); cbn.
    + split; [done|]. intros _. destruct (H3 eq_refl) as (o & Ho & _). by exists o.
    + destruct (commit_is e ErrAlreadyExists) eqn:E; cbn; (split; [done|]); [|done]. intros _.
      destruct (H4 e eq_refl E) as [o Ho]. exists o. by apply H2.
Qed.

(** The second look, over a store from which only the marker went since the first. *)
Lemma second_check_wp fuel h files marker s : copy_of sha256 dep s id h -> lists s h files -> chunks_there s files ->
  wp D (second_check sha256 caps draw fuel dep id h marker) (undelete_post s) (delete key s).
Proof.
  intros Hc Hl Hch. unfold second_check, recheckResurrected.
  assert (same_but touched s (delete key s)) as Hs by (apply same_but_delete; left).
  apply wp_bind. eapply wp_mono; [|apply (CheckChunkExistence_wp sha256 draw D dep)]. intros [res|e] s' [-> Hr]; [|cbn; by split_and!].
  destruct (Hr res eq_refl) as (files2 & Hl2 & Hall).
  assert (files2 = files) as -> by exact (lists_once _ _ _ _ Hl2 (lists_unmarked sha256 dep s id h files Hc Hl)).
  rewrite (proj2 Hall) by (by apply chunks_unmarked). cbn [negb].
  apply wp_bind. unfold firstTombstonedAncestor. eapply wp_mono; [|apply walk_wp]. intros [[a|]|e] s' [-> Ha]; [| |cbn; by split_and!].
  - apply wp_bind. eapply wp_mono; [|apply reinstall_wp]. intros [e|] s' [H1 H2]; cbn.
    + split_and!; [by eapply same_but_trans|done|done].
    + split_and!; [by eapply same_but_trans|done|]. intros _ _. left. by apply H2.
  - split_and!; [done| |done]. intros _. split; [apply lookup_delete_eq|]. exists h, files. split_and!; [done|done|by apply chunks_unmarked|done].
Qed.

Lemma Undelete_wp fuel s : wp D (Undelete sha256 caps draw fuel dep id) (undelete_post s) s.
Proof.
  unfold Undelete. destruct (validateRef dep id) as [e|] eqn:Href.
  { cbn. split_and!; [apply same_but_refl|done|]. intros _ _. destruct (s !! key) eqn:E; [left; by eexists|by right]. }
  apply wp_bind. eapply wp_mono; [|apply IsTombstoned_wp]. intros [b|e] s' [-> Hb].
  2: { cbn. split_and!; [apply same_but_refl|done|]. intros _ _. destruct (s !! key) eqn:E; [left; by eexists|by right]. }
  specialize (Hb b eq_refl). destruct b.
  2: { cbn. split_and!; [apply same_but_refl|done|]. intros _ _. right. symmetry in Hb. apply bool_decide_eq_false in Hb.
       split; [done|]. by apply eq_None_not_Some. }
  symmetry in Hb. apply bool_decide_eq_true in Hb.
  apply wp_bind. eapply wp_mono; [|apply readManifestUnverified_wp]. intros [h|e] s' [-> Hc]; [|by apply undelete_same].
  specialize (Hc h eq_refl).
  apply wp_bind. eapply wp_mono; [|apply (CheckChunkExistence_wp sha256 draw D dep)]. intros [res|e] s' [-> Hr]; [|by apply undelete_same].
  destruct (Hr res eq_refl) as (files & Hl & Hall). destruct (AllPresent res); [|by apply undelete_same]. cbn [negb].
  apply wp_bind. unfold firstTombstonedAncestor. eapply wp_mono; [|apply walk_wp]. intros [[a|]|e] s' [-> Ha]; [by apply undelete_same| |by apply undelete_same].
  apply wp_bind. eapply wp_mono; [|apply reads_only_wp; by cbn]. intros marker s' ->.
  assert (same_but touched s (delete key s)) as Hs by (apply same_but_delete; left).
  apply wp_bind. unfold removeTombstone. apply wp_bind, wp_delete; intros; cbn.
  - eapply second_check_wp; [done|done|by apply Hall].
  - split_and!; [done|done|]. intros _ Hno. by destruct (Hno (ErrBackend c)).
  - split_and!; [done|done|]. intros _ Hno. by destruct (Hno (ErrBackend c)).
Qed.
End undelete_outcome.


(** ** Against a deletion of the parent *)

Section race.
Context (sha256 : string -> string).
Context `{SG : Signing} `{MJ : ManifestJSON} `{L : LSN} `{CT : Codec string Tombstone}.
Context (caps : Capabilities) (draw : string -> string) (D : decision -> Prop).
Context (dep id kid : string) (K' : string -> Prop).
Local Abbreviation store := (gmap string (object string)).
Local Abbreviation K := (tombstone_keys dep draw [kid]).
Local Abbreviation V := (live_child dep id kid kid).
Local Abbreviation M := (marked dep id).
Local Abbreviation W := (wpt D (frame K') (frame K)).

(** The hidden child: its manifest names the parent, and nothing but its own marker hides it. *)
Definition hidden_child (s : store) : Prop :=
  (exists o, s !! PrimaryPath dep kid = Some o /\ names_parent id kid (ob_body o)) /\
  (forall h, copy_of sha256 dep s kid h -> m_ParentBackupID (hd_Manifest h) = id) /\
  (forall k o, s !! k = Some o -> HasPrefix k (backups_prefix dep) = true -> HasSuffix k tombstoneSuffix = true ->
     id_of (backups_prefix dep) k = Some kid -> k = TombstonePath dep kid).

Hypothesis apart : forall k, K k -> K' k -> False.
Hypothesis others_elsewhere : forall k, K' k -> HasPrefix k (backups_prefix dep) = true /\ id_of (backups_prefix dep) k <> Some kid.
Hypothesis (Hdep : validateStorageID dep = None) (Hrep : dep <> "_replicas") (Hkid : validateStorageID kid = None) (Hid : id <> "").

Lemma copy_frame (K0 : string -> Prop) (s s' : store) h : (~ K0 (PrimaryPath dep kid)) -> (~ K0 (ReplicaPath kid)) ->
  frame K0 s s' -> copy_of sha256 dep s' kid h -> copy_of sha256 dep s kid h.
Proof.
  intros H1 H2 Hf [(o & info & Ho & H)|(o & info & Ho & H)]; [left|right]; exists o, info; (split; [|done]); rewrite <- Hf; done.
Qed.

Lemma hidden_frame (K0 : string -> Prop) (s s' : store) : (~ K0 (PrimaryPath dep kid)) -> (~ K0 (ReplicaPath kid)) ->
  (forall k, K0 k -> HasSuffix k tombstoneSuffix = true -> id_of (backups_prefix dep) k = Some kid -> k = TombstonePath dep kid) ->
  frame K0 s s' -> hidden_child s -> hidden_child s'.
Proof.
  intros H1 H2 H3 Hf ((o & Ho & Hn) & Hc & Hd). split_and!.
  - exists o. by rewrite Hf.
  - intros h Hh. by eapply Hc, copy_frame.
  - intros k o' Ho' Hp Hs Hi. destruct (decide (k = TombstonePath dep kid)) as [|Hne]; [done|].
    apply (Hd k o'); [|done..]. rewrite <- Hf; [done|]. intros Hk. by apply Hne, H3.
Qed.

Lemma primary_of : id_of (backups_prefix dep) (PrimaryPath dep kid) = Some kid.
Proof. apply id_of_path; by apply validateStorageID_slash. Qed.

Lemma replica_prefix : HasPrefix (ReplicaPath kid) (backups_prefix dep) = false.
Proof. apply (finish_key_prefix dep (fun _ => "") kid); [done|done|]. by right; right; left. Qed.

Lemma hidden_others s s' : frame K' s s' -> hidden_child s -> hidden_child s'.
Proof.
  apply hidden_frame.
  - intros H. apply others_elsewhere in H as [_ H]. by rewrite primary_of in H.
  - intros H. apply others_elsewhere in H as [H _]. by rewrite replica_prefix in H.
  - intros k H _ Hi. apply others_elsewhere in H as [_ H]. done.
Qed.

Lemma hidden_marker s s' : frame (fun k => k = TombstonePath dep kid) s s' -> hidden_child s -> hidden_child s'.
Proof. destruct (marker_apart dep kid) as (H1 & H2 & _). apply hidden_frame; [done|done|]. by intros k ->. Qed.

Lemma hidden_shown s : hidden_child s -> s !! TombstonePath dep kid = None -> V s.
Proof.
  intros ((o & Ho & flds & H1 & H2 & H3) & _ & Hd) Hn. exists o, flds. split_and!; [done..|].
  intros (k & o' & Ho' & Hp & Hs & Hi). rewrite (Hd k o' Ho' Hp Hs Hi) in Ho'. congruence.
Qed.

Lemma shown_others s s' : frame K' s s' -> V s -> V s'.
Proof.
  apply live_frame.
  - intros H. apply others_elsewhere in H as [_ H]. by rewrite primary_of in H.
  - intros k H _ _. by apply others_elsewhere.
Qed.

Lemma readManifest_parent s0 tr : hidden_child s0 ->
  W (readManifestUnverified sha256 dep kid) (fun r tr' => (exists s1 tr1, tr' = s1 :: tr1 /\ hidden_child s1) /\
    forall h, r = Ok h -> m_ParentBackupID (hd_Manifest h) = id) (s0 :: tr).
Proof.
  intros Hs. assert (forall key, reads_only (streamHeader sha256 key no_options)) as Hsr.
  { intros key. unfold streamHeader. cbn -[StreamManifest]. split; [done|]. intros [b|e]; [|done]. by destruct (StreamManifest _ _ _ _). }
  assert (reads_only (readManifestUnverified sha256 dep kid)) as Hr.
  { unfold readManifestUnverified. apply reads_only_bind; [done|]. by intros [h|e]. }
  assert (forall key, (forall s h, hidden_child s -> copy_at sha256 s key h -> m_ParentBackupID (hd_Manifest h) = id) ->
    wpi D hidden_child eq (streamHeader sha256 key no_options) (fun r => forall h, r = Ok h -> m_ParentBackupID (hd_Manifest h) = id)) as Hw.
  { intros key Hkey. unfold streamHeader. apply wpi_bind, wpi_get; [done| |by cbn|by cbn].
    intros s o Hh Ho. destruct (StreamManifest _ _ _ _) as [e|info] eqn:E; cbn; [done|]. intros h [= <-].
    apply (Hkey s); [done|]. by exists o, info. }
  assert (wpi D hidden_child eq (readManifestUnverified sha256 dep kid) (fun r => forall h, r = Ok h -> m_ParentBackupID (hd_Manifest h) = id)) as Hrm.
  { unfold readManifestUnverified. apply wpi_bind. eapply wpi_mono; [|apply Hw].
    - intros [h|e] Hh; [intros h' [= <-]; by apply Hh|]. apply Hw. intros s h (_ & Hc & _) Hk. apply Hc. by right.
    - intros s h (_ & Hc & _) Hk. apply Hc. by left. }
  pose proof (wpt_and D _ _ _ _ _ _ (wpt_reads K K' D hidden_child _ s0 tr hidden_others Hr Hs)
    (reads_wpt D (frame K') (frame K) hidden_child True _ (fun r => forall h, r = Ok h -> m_ParentBackupID (hd_Manifest h) = id)
      (s0 :: tr) (fun s k _ => eq_refl) Hr (fun _ => Hrm))) as H.
  eapply wpt_mono; [|exact H]. intros r tr' [[(e1 & -> & H1) (s1 & tr1 & He & H2)] (e2 & He2 & Hq)]. apply app_inv_tail in He2 as ->.
  split; [rewrite He; by eexists _, _|]. by apply Hq.
Qed.

Lemma walk_reads fuel : forall m seen, reads_only (walk sha256 fuel dep m seen).
Proof.
  induction fuel as [|fuel IH]; intros m seen; cbn [walk]; destruct (String.eqb _ _); try done.
  destruct (bool_decide _); [done|]. apply reads_only_bind; [apply IsTombstoned_reads|]. intros [[]|e]; [done| |done].
  apply reads_only_bind; [|by intros [h|e]]. unfold readManifestUnverified, streamHeader. cbn -[StreamManifest].
  split; [done|]. intros [b|e]; cbn -[StreamManifest]; [destruct (StreamManifest _ _ _ _); cbn -[StreamManifest]; [|done]|];
    (split; [done|]; intros [b'|e']; cbn -[StreamManifest]; [by destruct (StreamManifest _ _ _ _)|done]).
Qed.

Lemma CheckChunkExistence_reads h : reads_only (CheckChunkExistence sha256 h).
Proof.
  unfold CheckChunkExistence. apply reads_only_bind.
  - unfold EachFile. destruct (hd_stream h); [|done]. cbn -[StreamManifest]. split; [done|]. intros [b|e]; [|done].
    destruct (StreamManifest _ _ _ _); [done|]. by destruct (String.eqb _ _).
  - intros [files|e]; [|done]. apply reads_only_bind; [|by intros [res|e]]. apply reads_only_for. intros x res.
    unfold check_one. cbn -[ChunkKey]. split; [done|]. by intros [o|[]].
Qed.

(** With the parent tombstoned throughout, the walk does not come out clean. *)
Lemma walk_sees fuel h : m_ParentBackupID (hd_Manifest h) = id ->
  wpi D M eq (firstTombstonedAncestor sha256 fuel dep h) (fun r => r <> Ok None).
Proof.
  intros Hp. unfold firstTombstonedAncestor. destruct fuel as [|fuel]; cbn [walk]; rewrite Hp, (proj2 (String.eqb_neq id "") Hid); [done|].
  rewrite bool_decide_eq_false_2 by set_solver. unfold IsTombstoned. destruct (validateRef dep id); [done|].
  apply wpi_bind, wpi_bind, wpi_stat; [done|by intros| |done]. intros s Hs Hn. destruct Hs as [o Ho]. congruence.
Qed.

Lemma marker_key : K (TombstonePath dep kid).
Proof. exists kid. split; [left|by left]. Qed.

Lemma put_back_touches b : touches K (put_back caps draw dep kid b).
Proof. apply local_touches, CommitExclusive_local; exists kid; (split; [left|]); [by left|by right]. Qed.

Lemma reinstall_touches marker : touches K (reinstallTombstone caps draw dep kid marker).
Proof.
  unfold reinstallTombstone. destruct (own_bytes marker); (apply touches_bind; [|done]); [apply put_back_touches|].
  apply local_touches, softDeleteUnchecked_local. auto.
Qed.

Lemma second_check_verified fuel h marker s tr : m_ParentBackupID (hd_Manifest h) = id -> V s ->
  W (second_check sha256 caps draw fuel dep kid h marker) (fun r tr' => r = (true, None) -> verified V M tr') (s :: tr).
Proof.
  intros Hp Hs. unfold second_check, recheckResurrected. apply wpt_bind.
  eapply wpt_mono; [|apply (wpt_reads K K' D V); [apply shown_others|apply CheckChunkExistence_reads|exact Hs]].
  intros [res|e] _ [_ (s1 & tr1 & -> & H1)]; [|by intros tr' _]. destruct (negb (AllPresent res)).
  { apply wpt_bind. eapply wpt_mono; [|apply (wpt_any K K' D)]; [by intros _ tr' _ tr2 _|].
    destruct (own_bytes marker); [|done]. apply touches_bind; [apply put_back_touches|done]. }
  apply wpt_bind. eapply wpt_mono.
  2: { apply wpt_and; [apply (wpt_reads K K' D V _ s1 tr1 shown_others (walk_reads fuel h ∅) H1)|].
       apply (reads_wpt D (frame K') (frame K) M True _ _ (s1 :: tr1) (fun s k _ => eq_refl) (walk_reads fuel h ∅)
         (fun _ => walk_sees fuel h Hp)). }
  intros r tr' [[(e1 & -> & H2) (s2 & tr2 & He & H3)] (e2 & He2 & Hv)]. apply app_inv_tail in He2 as ->. rewrite He.
  destruct r as [[a|]|e]; [| |by intros tr' _].
  - apply wpt_bind. eapply wpt_mono; [|apply (wpt_any K K' D), reinstall_touches]. by intros [e|] tr' _ tr3 _.
  - intros tr' Hl _. eapply verified_since.
    + exists e2, (s1 :: tr1). split_and!; [reflexivity|done|]. intros HM. by apply Hv.
    + rewrite He. by apply (later_since _ V _ _ _ _ eq_refl shown_others H3 Hl).
Qed.

Lemma Undelete_verified fuel s : hidden_child s ->
  W (Undelete sha256 caps draw fuel dep kid) (fun r tr => r = (true, None) -> verified V M tr) [s].
Proof.
  intros Hs. unfold Undelete. destruct (validateRef dep kid) as [e|]; [by intros tr' _|].
  assert (forall A (p : prog string A) s tr, reads_only p -> hidden_child s ->
    W p (fun _ tr' => exists s1 tr1, tr' = s1 :: tr1 /\ hidden_child s1) (s :: tr)) as Hread.
  { intros A p s0 tr0 Hp H0. eapply wpt_mono; [|apply (wpt_reads K K' D hidden_child _ s0 tr0 hidden_others Hp H0)]. by intros _ tr' [_ H]. }
  apply wpt_bind. eapply wpt_mono; [|apply Hread; [apply IsTombstoned_reads|done]].
  intros [[]|e] _ (s1 & tr1 & -> & H1); [|by intros tr' _..].
  apply wpt_bind. eapply wpt_mono; [|by apply readManifest_parent]. intros [h|e] _ [(s2 & tr2 & -> & H2) Hpar]; [|by intros tr' _].
  specialize (Hpar h eq_refl).
  apply wpt_bind. eapply wpt_mono; [|apply Hread; [apply CheckChunkExistence_reads|done]].
  intros [res|e] _ (s3 & tr3 & -> & H3); [|by intros tr' _]. destruct (negb (AllPresent res)); [by intros tr' _|].
  apply wpt_bind. eapply wpt_mono; [|apply Hread; [apply walk_reads|done]].
  intros [[a|]|e] _ (s4 & tr4 & -> & H4); [by intros tr' _| |by intros tr' _].
  apply wpt_bind. eapply wpt_mono; [|apply Hread; [by cbn|done]]. intros marker _ (s5 & tr5 & -> & H5).
  apply wpt_bind. eapply wpt_mono.
  2: { apply wpt_and.
       - apply (wpt_solo K K' D apart) with (Q := fun r t => r = Ok true -> t !! TombstonePath dep kid = None).
         + unfold removeTombstone. cbn. split; [eexists; split; [done|by constructor; [apply marker_key|]]|]. by intros [u|[]].
         + unfold removeTombstone. apply wp_bind, wp_delete; intros; cbn; [intros _; apply lookup_delete_eq|done..].
       - apply (wpt_writes K K' D (fun k => k = TombstonePath dep kid) hidden_child).
         + intros k ->. apply marker_key.
         + apply hidden_marker.
         + apply hidden_others.
         + by apply removeTombstone_touches.
         + exact H5. }
  intros [[]|e] _ [(s6 & tr6 & t & -> & Ha & Ht) [_ (s6' & tr6' & [= <- <-] & H6)]]; [|by intros tr' _..].
  apply second_check_verified; [done|]. apply hidden_shown; [done|]. rewrite (Ha _ marker_key). by apply Ht.
Qed.
End race.

(** C5: resurrecting an incremental and deleting its parent, alone or in a batch that leaves the child
    out, never both succeed: not in any interleaving of their calls, and not under any failures of the
    backend. *)
Theorem undelete_delete_race (sha256 : string -> string) `{SG : Signing} `{MJ : ManifestJSON} `{L : LSN}
    `{CH : Codec string Hold} `{CT : Codec string Tombstone} (caps : Capabilities) (drawU drawD : string -> string) (fuel : nat)
    (dep id kid policy reason : string) (ids : list string) (s : gmap string (object string)) (sched : list (bool * decision)) :
  dep <> "_replicas" -> kid <> id -> id ∈ ids -> (kid ∉ ids) -> validateRef dep id = None -> validateStorageID kid = None ->
  Forall (fun x => validateStorageID x = None) ids ->
  hidden_child sha256 dep id kid s -> s !! TombstonePath dep id = None ->
  (let '(c, d, _) := par sched (Undelete sha256 caps drawU fuel dep kid) (SoftDelete caps drawD dep id policy reason) [s] in
   c = Ret (true, None) -> d = Ret (Ok ()) -> False) /\
  (let '(c, d, _) := par sched (Undelete sha256 caps drawU fuel dep kid) (SoftDeleteBatch caps drawD dep ids policy reason) [s] in
   forall y, c = Ret (true, None) -> d = Ret (y, None) -> False).
Proof.
  intros Hrep Hne Hin Hout Href Hvk Hids Hs Hm.
  assert (validateStorageID dep = None /\ validateStorageID id = None) as [Hvd Hvi].
  { unfold validateRef in Href. by destruct (validateStorageID dep). }
  assert (id <> "") as Hid by by apply validateStorageID_slash.
  assert (forall l, kid ∉ l -> Forall (fun x => validateStorageID x = None) l ->
    (forall k, tombstone_keys dep drawU [kid] k -> tombstone_keys dep drawD l k -> False) /\
    (forall k, tombstone_keys dep drawD l k -> HasPrefix k (backups_prefix dep) = true /\ id_of (backups_prefix dep) k <> Some kid)) as Hap.
  { intros l Hl Hvl. assert (forall k, tombstone_keys dep drawD l k -> id_of (backups_prefix dep) k <> Some kid) as Hk.
    { intros k Hk. destruct (id_of_tombstone_key dep drawD l k Hvl Hk) as (x & Hx & ->). congruence. }
    split; [|intros k Hk'; split; [by eapply tombstone_key_prefix|by apply Hk]]. intros k H1 H2. apply (Hk k H2).
    destruct (id_of_tombstone_key dep drawU [kid] k ltac:(by constructor) H1) as (x & Hx & ->).
    by apply list_elem_of_singleton in Hx as ->. }
  split.
  - destruct (Hap [id] ltac:(set_solver) ltac:(by constructor)) as [H1 H2].
    pose proof (par_sound (fun _ => True) _ _ sched _ _ _ _ s (proj2 (Forall_forall _ _) (fun _ _ => I))
      (Undelete_verified sha256 caps drawU (fun _ => True) dep id kid _ H1 H2 Hvd Hrep Hvk Hid fuel s Hs)
      (SoftDelete_verified caps drawD (fun _ => True) dep id kid policy reason _ (fun k A B => H1 k B A) Hvk Hne s Hm)) as H.
    destruct (par _ _ _ _) as [[c d] tr]. destruct H as [Hc Hd]. intros -> ->.
    eapply verified_once; [by apply (Hd (Ok ()))|by apply (Hc (true, None))].
  - destruct (Hap ids Hout Hids) as [H1 H2].
    pose proof (par_sound (fun _ => True) _ _ sched _ _ _ _ s (proj2 (Forall_forall _ _) (fun _ _ => I))
      (Undelete_verified sha256 caps drawU (fun _ => True) dep id kid _ H1 H2 Hvd Hrep Hvk Hid fuel s Hs)
      (SoftDeleteBatch_verified caps drawD (fun _ => True) dep id kid policy reason _ Hvk Hne ids (fun k A B => H1 k B A) Hin Hout Hids s Hm)) as H.
    destruct (par _ _ _ _) as [[c d] tr]. destruct H as [Hc Hd]. intros y -> ->.
    eapply verified_once; [by apply (Hd (y, None))|by apply (Hc (true, None))].
Qed.

(** *** Runs *)

Definition deleted_child : gmap string (object string) :=
  <[TombstonePath "d" "a" := object_of "gone"]> (chain_store [("r", ""); ("a", "r")]).

Definition undelete_of (id : string) : prog string (bool * option undelete_err) :=
  Undelete (L := hex_lsn) (fun b => b) conditional (fun _ => "x") 20 "d" id.

Example undelete_races :
  let outcome l := let '(c, d, _) := par (turns l) (undelete_of "a") (delete_of "r") [deleted_child] in (c, d) in
  outcome [(true, 30%nat); (false, 30%nat)] = (Ret (true, None), Ret (Err (DE_Descendants "r" ["a"]))) /\
  outcome [(false, 30%nat); (true, 30%nat)] = (Ret (false, Some (UD_ParentTombstoned "r")), Ret (Ok ())) /\
  outcome [(true, 4%nat); (false, 30%nat); (true, 30%nat)] = (Ret (false, Some (UD_ParentTombstoned "r")), Ret (Ok ())).
Proof. by vm_compute. Qed.

Lemma walk_ends_witness :
  let '(r, s') := run (failing_at 3) 0 (firstTombstonedAncestor (L := hex_lsn) (fun b => b) 20 "d" (held (chain_manifest "a" "r"))) deleted_child in
  r <> Err WK_Fuel /\ s' = deleted_child.
Proof.
  pose proof (walk_ends (L := hex_lsn) (fun b => b) 20 "d" (held (chain_manifest "a" "r")) (failing_at 3) deleted_child) as H.
  apply H. assert (size deleted_child = 3%nat) as E by (by vm_compute). rewrite E. lia.
Defined.

Lemma deleted_child_hidden : hidden_child (L := hex_lsn) (fun b => b) "d" "r" "a" deleted_child.
Proof.
  assert (deleted_child !! PrimaryPath "d" "a" = Some (object_of (encode_manifest (chain_manifest "a" "r")))) as Hp.
  { unfold deleted_child, chain_store. cbn [map list_to_map foldr fst snd].
    do 2 rewrite lookup_insert_ne by done. apply lookup_insert_eq. }
  split_and!.
  - eexists. split; [exact Hp|]. eexists. split; [apply sample_scan|]. by split.
  - intros h [(o & info & Ho & Hi & ->)|(o & info & Ho & _)].
    + assert (o = object_of (encode_manifest (chain_manifest "a" "r"))) as -> by congruence.
      assert (match StreamManifest (L := hex_lsn) collect (ob_body (object_of (encode_manifest (chain_manifest "a" "r")))) no_options [] with
              | inr i => String.eqb (m_ParentBackupID (si_Manifest i)) "r" | inl _ => false end = true) as Hc by (by vm_compute).
      rewrite Hi in Hc. by apply String.eqb_eq in Hc.
    + assert (deleted_child !! ReplicaPath "a" = None) as Hn by (by vm_compute). congruence.
  - intros k o Ho _ Hs _. unfold deleted_child in Ho. destruct (decide (k = TombstonePath "d" "a")) as [|Hne]; [done|].
    rewrite lookup_insert_ne in Ho by done. apply elem_of_list_to_map_2 in Ho.
    apply list_elem_of_fmap in Ho as ([i p] & [= -> _] & _).
    pose proof (manifest_not_tombstone _ (proj2 (backups_prefix_path "d" i))) as H. unfold tombstoneSuffix in Hs. congruence.
Qed.

Lemma undelete_delete_race_witness :
  let '(c, d, _) := par (turns [(true, 4%nat); (false, 30%nat); (true, 30%nat)])
    (Undelete (L := hex_lsn) (fun b => b) conditional (fun _ => "x") 20 "d" "a")
    (SoftDelete conditional (fun id => id) "d" "r" "manual" "") [deleted_child] in
  c = Ret (true, None) -> d = Ret (Ok ()) -> False.
Proof.
  assert ("r" ∈ ["r"]) as Hin by left.
  assert ("a" ∉ ["r"]) as Hout by set_solver.
  assert (Forall (fun x => validateStorageID x = None) ["r"]) as Hids by (by constructor).
  assert ("d" <> "_replicas") as H1 by done. assert ("a" <> "r") as H2 by done.
  assert (deleted_child !! TombstonePath "d" "r" = None) as Hm by (by vm_compute).
  pose proof (undelete_delete_race (L := hex_lsn) (fun b => b) conditional (fun _ => "x") (fun id => id) 20 "d" "r" "a" "manual" "" ["r"]
    deleted_child (turns [(true, 4%nat); (false, 30%nat); (true, 30%nat)]) H1 H2 Hin Hout eq_refl eq_refl Hids deleted_child_hidden Hm) as [H _].
  exact H.
Defined.
