(* ===== verification/AuditLog.v ===== *)
(** The audit log (internal/audit/audit.go, computehash.go): events, their shards and keys, and
    appending to a shard's hash chain.

    Every event carries the hash of the one before it.  An append claims the key of the next sequence
    number with one exclusive put; the loser of a race reads the winner, links to it and tries the
    next number.  The head pointer only saves a listing. *)
From S2P Require Import Prelude GoString Storage Concur Pool Commit Worm Timeline.
From S2P Require SampleJson.
From Stdlib Require Import Ascii.

Local Open Scope string_scope.
Local Open Scope list_scope.
Local Open Scope Z_scope.
#[local] Arguments String.append : simpl nomatch.

(** ** Events *)

Record Subject := {
  su_Deployment : string;
  su_BackupID : string;
  su_Tenant : string;
  su_Repo : string
}.

(** A body's values are the JSON texts they are written as: nothing here looks inside one. *)
Record Event := {
  ev_Schema : string;
  ev_ID : string;
  ev_Sequence : Z;
  ev_Timestamp : time;
  ev_Actor : string;
  ev_Tenant : string;
  ev_Action : string;
  ev_Subject : Subject;
  ev_Body : gmap string string;
  ev_PrevHash : string;
  ev_Hash : string
}.

Record HeadPointer := {
  hp_Schema : string;
  hp_Sequence : Z;
  hp_Hash : string;
  hp_EventID : string;
  hp_Key : string;
  hp_UpdatedAt : time
}.

#[export] Instance Subject_eq_dec : EqDecision Subject.
Proof. solve_decision. Defined.
#[export] Instance Event_eq_dec : EqDecision Event.
Proof. solve_decision. Defined.
#[export] Instance HeadPointer_eq_dec : EqDecision HeadPointer.
Proof. solve_decision. Defined.

Definition Schema : string := "pg_hardstorage.audit.v1".
Definition HeadPointerSchema : string := "pg_hardstorage.audit.head.v1".

(** 64 zeros. *)
Definition GenesisHash : string := hexLow 64 0.

Definition HeadKey : string := "audit/_head.json".
Definition AnchorPrefix : string := "audit/anchors/".
Definition shardsRoot : string := "audit/shards/".

Definition with_link (ev : Event) (prevHash : string) (seq : Z) (hash : string) : Event :=
  {| ev_Schema := ev_Schema ev; ev_ID := ev_ID ev; ev_Sequence := seq; ev_Timestamp := ev_Timestamp ev;
     ev_Actor := ev_Actor ev; ev_Tenant := ev_Tenant ev; ev_Action := ev_Action ev; ev_Subject := ev_Subject ev;
     ev_Body := ev_Body ev; ev_PrevHash := prevHash; ev_Hash := hash |}.

Definition clear_hash (ev : Event) : Event := with_link ev (ev_PrevHash ev) (ev_Sequence ev) "".

(** The compact JSON of an event and the indented one that is stored; on strings that are valid
    UTF-8, as decoding gives them, both determine the event. *)
Class EventJSON := {
  marshal : Event -> string;
  marshal_inj : forall a b, marshal a = marshal b -> a = b;
  event_codec :: Codec string Event;
  head_codec :: Codec string HeadPointer
}.

(** ** Keys *)

Definition byte (z : Z) : ascii := Ascii.ascii_of_N (Z.to_N z).

(** A UTF-8 continuation byte in a range. *)
Definition in_range (lo hi : Z) (c : ascii) : bool := (lo <=? byte_of c) && (byte_of c <=? hi).
Definition is_cont (c : ascii) : bool := in_range 128 191 c.

(** How many continuation bytes the rune has that starts a string, with the ranges of Go's decoder;
    [None] for a byte that starts no rune. *)
Definition rune_tail (s : string) : option nat :=
  match s with
  | String a s =>
      let b := byte_of a in
      if b <? 128 then Some 0%nat
      else match s with
      | String c s =>
          if (194 <=? b) && (b <=? 223) then (if is_cont c then Some 1%nat else None)
          else match s with
          | String c2 s =>
              if (224 <=? b) && (b <=? 239) then
                if in_range (if b =? 224 then 160 else 128) (if b =? 237 then 159 else 191) c && is_cont c2
                then Some 2%nat else None
              else match s with
              | String c3 _ =>
                  if (240 <=? b) && (b <=? 244) then
                    if in_range (if b =? 240 then 144 else 128) (if b =? 244 then 143 else 191) c && is_cont c2 && is_cont c3
                    then Some 3%nat else None
                  else None
              | EmptyString => None
              end
          | EmptyString => None
          end
      | EmptyString => None
      end
  | EmptyString => None
  end.

Definition segment_rune (c : ascii) : ascii :=
  if Ascii.eqb c slash || (byte_of c =? 92) || (byte_of c <? 32) || (byte_of c =? 127) then "_"%char else c.

(** [strings.Map] over the runes: a byte that starts none becomes U+FFFD.  [tail] counts the bytes
    of the current rune still to copy. *)
Fixpoint sanitize_runes (tail : nat) (s : string) : string :=
  match s with
  | EmptyString => EmptyString
  | String c s' =>
      match tail with
      | S tail => String c (sanitize_runes tail s')
      | O =>
          match rune_tail s with
          | Some n => String (segment_rune c) (sanitize_runes n s')
          | None => String (byte 239) (String (byte 191) (String (byte 189) (sanitize_runes 0 s')))
          end
      end
  end.

Definition sanitizeShardSegment (s : string) : string := sanitize_runes 0 s.

Definition shardKeyFor (ev : Event) : string :=
  if negb (String.eqb (su_Deployment (ev_Subject ev)) "") then "d." +:+ sanitizeShardSegment (su_Deployment (ev_Subject ev))
  else if negb (String.eqb (su_Tenant (ev_Subject ev)) "") then "t." +:+ sanitizeShardSegment (su_Tenant (ev_Subject ev))
  else if negb (String.eqb (ev_Tenant ev) "") then "t." +:+ sanitizeShardSegment (ev_Tenant ev)
  else "".

Definition shardEventDir (shard : string) : string :=
  if String.eqb shard "" then "audit/" else shardsRoot +:+ shard +:+ "/".

Definition headKeyForShard (shard : string) : string :=
  if String.eqb shard "" then HeadKey else shardsRoot +:+ shard +:+ "/_head.json".

Definition hexSeq (n : Z) : string := hexLow 16 n.

(** The key of a shard's event with a sequence number. *)
Definition slot (shard : string) (n : Z) : string := shardEventDir shard +:+ hexSeq n +:+ ".json".

Definition keyFor (ev : Event) : string := slot (shardKeyFor ev) (ev_Sequence ev).

(** [strconv.ParseInt(s, 16, 64)] on 16 bytes without a minus sign. *)
Definition parseInt16 (s : string) : option Z :=
  let digits := match s with String "+" s => s | s => s end in
  match hexParse 0 digits with
  | Some n => if n <=? max_int64 then Some n else None
  | None => None
  end.

Definition seqFromEventKey (key : string) : option Z :=
  let base := TrimSuffix (basename key) ".json" in
  let base := match CutByte base "-"%char with Some (a, _) => a | None => base end in
  if negb (String.length base =? 16)%nat then None else parseInt16 base.

Definition isShardEventKey (shard key headKey : string) : bool :=
  if negb (HasSuffix key ".json") || String.eqb key headKey then false
  else negb (String.eqb shard "" && (HasPrefix key shardsRoot || HasPrefix key AnchorPrefix)).

(** The id of an event that comes without one: the low 40 bits of its time and 8 random bytes. *)
Definition newEventID (t : time) (rb : list Z) : string :=
  hexLow 10 (u64 (t - Time.unix_epoch)) +:+ String.concat "" (map (hexLow 2) rb).

Example event_id : newEventID (Time.unix_epoch + 0x123456789abc) [0; 255; 16; 1; 2; 3; 4; 5] = "3456789abc00ff100102030405".
Proof. reflexivity. Qed.

Example sanitized : sanitizeShardSegment "a/b\c" = "a_b_c" /\ seqFromEventKey "audit/shards/d.x/000000000000001f.json" = Some 31 /\
  seqFromEventKey "audit/2026/04/29/0000000000000002-01h7k8.json" = Some 2 /\ seqFromEventKey "audit/_head.json" = None.
Proof. split_and!; reflexivity. Qed.

(** ** Appending *)

Inductive audit_err :=
| AE_Action | AE_Store (e : serr) | AE_TooLarge | AE_Decode | AE_GaveUp.

Definition maxAppendAttempts : nat := 1024.

(** [io.LimitReader]. *)
Definition limited (n : Z) (body : string) : string :=
  if Z.of_nat (String.length body) <=? n then body else stake (Z.to_nat n) body.

Definition worm_mode (mode : string) : WORMMode :=
  if String.eqb mode "compliance" then WORMCompliance
  else if String.eqb mode "governance" then WORMGovernance else WORMNone.

Section store.
Context `{EJ : EventJSON}.
(** SHA-256 in hexadecimal. *)
Context (sha256hex : string -> string).
(** The backend, the repository's write-once policy, and who acts when nobody says. *)
Context (caps : Capabilities) (worm : option WORMPolicy) (DefaultActor : string).

Definition canonicalForHash (ev : Event) : string := marshal (clear_hash ev).

Definition ComputeHash (ev : Event) : string := sha256hex (canonicalForHash ev).

Definition getByKey (key : string) : prog string (result audit_err Event) :=
  let* r := sGet key in
  Ret (match r with
       | Err e => Err (AE_Store e)
       | Ok body =>
           match ReadAllLimited body MaxMetadataBytes with
           | None => Err AE_TooLarge
           | Some b => match decode b with Some ev => Ok ev | None => Err AE_Decode end
           end
       end).

(** [Ok None]: no pointer, or one that does not parse. *)
Definition readHeadPointer (shard : string) : prog string (result audit_err (option HeadPointer)) :=
  let* r := sGet (headKeyForShard shard) in
  Ret (match r with
       | Err ErrNotFound => Ok None
       | Err e => Err (AE_Store e)
       | Ok body =>
           match ReadAllLimited body MaxMetadataBytes with
           | None => Err AE_TooLarge
           | Some b =>
               match decode b with
               | None => Ok None
               | Some hp => if String.eqb (hp_Schema hp) HeadPointerSchema then Ok (Some hp) else Ok None
               end
           end
       end).

Definition writeHeadPointer (shard : string) (ev : Event) (key : string) : prog string (result serr unit) :=
  let* t := now in
  let body := encode {| hp_Schema := HeadPointerSchema; hp_Sequence := ev_Sequence ev; hp_Hash := ev_Hash ev;
                        hp_EventID := ev_ID ev; hp_Key := key; hp_UpdatedAt := t |} in
  sPut (headKeyForShard shard) body
    {| IfNotExists := false; ContentLength := Z.of_nat (String.length body); RetainUntil := Time.zero; RetentionMode := WORMNone |}.

(** The listing's fold: the highest sequence's key with its number, and the last key in byte order. *)
Record tip := { tp_tail : string; tp_seq : Z; tp_lex : string }.

Definition no_tip : tip := {| tp_tail := ""; tp_seq := -1; tp_lex := "" |}.

Definition note_key (shard : string) (t : tip) (i : ObjectInfo) : tip :=
  let k := Key i in
  if negb (isShardEventKey shard k (headKeyForShard shard)) then t
  else
    let lex := if string_ltb (tp_lex t) k then k else tp_lex t in
    match seqFromEventKey k with
    | None => {| tp_tail := tp_tail t; tp_seq := tp_seq t; tp_lex := lex |}
    | Some seq =>
        if String.eqb (tp_tail t) "" || (tp_seq t <? seq) then {| tp_tail := k; tp_seq := seq; tp_lex := lex |}
        else {| tp_tail := tp_tail t; tp_seq := tp_seq t; tp_lex := lex |}
    end.

Definition list_head (shard : string) : prog string (result audit_err (option Event)) :=
  let* l := sList (shardEventDir shard) in
  match l with
  | (_, Some e) => Ret (Err (AE_Store e))
  | (infos, None) =>
      let t := foldl (note_key shard) no_tip infos in
      if String.eqb (tp_lex t) "" then Ret (Ok None)
      else
        let* r := getByKey (if String.eqb (tp_tail t) "" then tp_lex t else tp_tail t) in
        Ret (match r with Ok ev => Ok (Some ev) | Err e => Err e end)
  end.

Definition head (shard : string) : prog string (result audit_err (option Event)) :=
  let* hp := readHeadPointer shard in
  match hp with
  | Ok (Some hp) =>
      if String.eqb (hp_Key hp) "" then list_head shard
      else
        let* r := getByKey (hp_Key hp) in
        match r with
        | Ok ev => if String.eqb (ev_Hash ev) (hp_Hash hp) && (ev_Sequence ev =? hp_Sequence hp)
                   then Ret (Ok (Some ev)) else list_head shard
        | Err _ => list_head shard
        end
  | _ => list_head shard
  end.

Definition readSlotRaw (key : string) : prog string (result serr string) :=
  let* r := sGet key in
  Ret (match r with Ok body => Ok (limited (2 ^ 20) body) | Err e => Err e end).

(** What the next attempt links to after losing the slot [seq] to [winner]. *)
Definition relink (seq : Z) (winner : Event) : string * Z :=
  let next := i64 (ev_Sequence winner + 1) in
  (ev_Hash winner, if seq <? next then next else i64 (seq + 1)).

Definition link (ev : Event) (prevHash : string) (seq : Z) : Event :=
  let ev := with_link ev prevHash seq (ev_Hash ev) in
  with_link ev prevHash seq (ComputeHash ev).

Definition event_opts (body : string) (t : time) : PutOptions :=
  if WORM_IsZero worm
  then {| IfNotExists := true; ContentLength := Z.of_nat (String.length body); RetainUntil := Time.zero; RetentionMode := WORMNone |}
  else {| IfNotExists := true; ContentLength := Z.of_nat (String.length body); RetainUntil := WORM_RetainUntil worm t;
          RetentionMode := worm_mode (match worm with Some p => Mode p | None => "" end) |}.

(** Where the backend makes no single-winner promise the slot is looked at before the put ... *)
Definition probe (key : string) : prog string (option Event) :=
  if ConditionalPut caps then Ret None
  else let* r := getByKey key in Ret (match r with Ok ev => Some ev | Err _ => None end).

(** ... and read back after it. *)
Definition read_back (key body : string) (r : result serr unit) : prog string (result serr unit) :=
  match r with
  | Ok _ =>
      if ConditionalPut caps then Ret r
      else
        let* stored := readSlotRaw key in
        Ret (match stored with
             | Ok b => if String.eqb b body then r else Err ErrAlreadyExists
             | Err _ => Err ErrAlreadyExists
             end)
  | Err _ => Ret r
  end.

Definition put_event (key body : string) : prog string (result serr unit) :=
  let* t := if WORM_IsZero worm then Ret Time.zero else now in
  let* r := sPut key body (event_opts body t) in
  read_back key body r.

(** The attempts; the event as it was stored. *)
Fixpoint append_loop (attempts : nat) (ev : Event) (prevHash : string) (seq : Z) : prog string (result audit_err Event) :=
  match attempts with
  | O => Ret (Err AE_GaveUp)
  | S attempts =>
      let ev := link ev prevHash seq in
      let key := keyFor ev in
      let body := encode ev in
      let* occupant := probe key in
      match occupant with
      | Some w => append_loop attempts ev (relink seq w).1 (relink seq w).2
      | None =>
          let* r := put_event key body in
          match r with
          | Ok _ => let* _ := writeHeadPointer (shardKeyFor ev) ev key in Ret (Ok ev)
          | Err ErrAlreadyExists =>
              let* w := getByKey key in
              match w with
              | Err e => Ret (Err e)
              | Ok w => append_loop attempts ev (relink seq w).1 (relink seq w).2
              end
          | Err e => Ret (Err (AE_Store e))
          end
      end
  end.

(** The fields a caller may leave out. *)
Definition complete (ev : Event) (t : time) (rb : list Z) : Event :=
  {| ev_Schema := if String.eqb (ev_Schema ev) "" then Schema else ev_Schema ev;
     ev_ID := if String.eqb (ev_ID ev) "" then newEventID t rb else ev_ID ev;
     ev_Sequence := ev_Sequence ev; ev_Timestamp := t;
     ev_Actor := if String.eqb (TrimSpace (ev_Actor ev)) "" then DefaultActor else ev_Actor ev;
     ev_Tenant := ev_Tenant ev; ev_Action := ev_Action ev; ev_Subject := ev_Subject ev; ev_Body := ev_Body ev;
     ev_PrevHash := ev_PrevHash ev; ev_Hash := ev_Hash ev |}.

Definition Append (rb : list Z) (ev : Event) : prog string (result audit_err Event) :=
  if String.eqb (ev_Action ev) "" then Ret (Err AE_Action)
  else
    let* t := if Time.IsZero (ev_Timestamp ev) then now else Ret (ev_Timestamp ev) in
    let ev := complete ev t rb in
    let* prev := head (shardKeyFor ev) in
    match prev with
    | Err e => Ret (Err e)
    | Ok None => append_loop maxAppendAttempts ev GenesisHash 0
    | Ok (Some p) => append_loop maxAppendAttempts ev (ev_Hash p) (i64 (ev_Sequence p + 1))
    end.

(** [AppendOrLog]: a failure goes to the log only. *)
Definition AppendOrLog (rb : list Z) (ev : Event) : prog string unit :=
  let* _ := Append rb ev in Ret ().
End store.

(** ** Keys of shards *)

Definition noslash (s : string) : Prop := CutByte s slash = None.

Definition int64 (n : Z) : Prop := min_int64 <= n <= max_int64.

Lemma noslash_app s t : noslash s -> noslash t -> noslash (s +:+ t).
Proof. unfold noslash. intros Hs Ht. by rewrite CutByte_None_app, Ht. Qed.

Lemma not_slash c : 127 < byte_of c -> Ascii.eqb c slash = false.
Proof. intros H. destruct (Ascii.eqb_spec c slash) as [->|]; [by vm_compute in H|done]. Qed.

Lemma in_range_high lo hi c : in_range lo hi c = true -> 128 <= lo -> Ascii.eqb c slash = false.
Proof. unfold in_range. intros H Hlo. apply not_slash. zbool. lia. Qed.

Lemma rune_tail_noslash c s n : rune_tail (String c s) = Some n -> noslash (stake n s).
Proof.
  unfold noslash, rune_tail, is_cont. intros H.
  destruct (byte_of c <? 128); [by injection H as <-|].
  destruct s as [|c1 s]; [done|]. destruct ((194 <=? byte_of c) && _).
  { destruct (in_range 128 191 c1) eqn:E; [|done]. injection H as <-. cbn. by rewrite (in_range_high _ _ _ E) by lia. }
  destruct s as [|c2 s]; [done|]. destruct ((224 <=? byte_of c) && _).
  { destruct (in_range _ _ c1 && _) eqn:E; [|done]. apply andb_true_iff in E as [E1 E2]. injection H as <-. cbn.
    rewrite (in_range_high _ _ _ E1), (in_range_high _ _ _ E2) by (try case_match; lia). done. }
  destruct s as [|c3 s]; [done|]. destruct ((240 <=? byte_of c) && _); [|done].
  destruct (in_range _ _ c1 && _ && _) eqn:E; [|done]. apply andb_true_iff in E as [E E3]. apply andb_true_iff in E as [E1 E2].
  injection H as <-. cbn.
  rewrite (in_range_high _ _ _ E1), (in_range_high _ _ _ E2), (in_range_high _ _ _ E3) by (try case_match; lia). done.
Qed.

Lemma sanitize_runes_noslash s tail : noslash (stake tail s) -> noslash (sanitize_runes tail s).
Proof.
  unfold noslash. revert tail. induction s as [|c s IH]; intros [|tail] H; cbn [sanitize_runes]; try done.
  - destruct (rune_tail (String c s)) as [n|] eqn:E.
    + cbn [CutByte]. unfold segment_rune at 1. destruct (Ascii.eqb c slash) eqn:Ec; cbn [orb].
      * cbn. rewrite IH; [done|]. by eapply rune_tail_noslash.
      * destruct (_ || _); cbn; rewrite ?Ec, IH; try done; by eapply rune_tail_noslash.
    + cbn. by rewrite IH.
  - cbn in H |- *. destruct (Ascii.eqb c slash); [done|]. rewrite IH; [done|]. by destruct (CutByte (stake tail s) slash) as [[]|].
Qed.

Lemma shardKeyFor_noslash ev : noslash (shardKeyFor ev).
Proof.
  unfold shardKeyFor. repeat case_match; try done; apply noslash_app; try done; by apply sanitize_runes_noslash.
Qed.

Lemma hexLow_noslash n z : noslash (hexLow n z).
Proof.
  revert z. induction n as [|n IH]; intros z; cbn [hexLow]; [done|]. apply noslash_app; [apply IH|].
  unfold noslash. cbn. destruct (Ascii.eqb_spec (hexDigitLow (z mod 16)) slash) as [E|]; [|done].
  pose proof (hexNibble_digitLow (z mod 16) (Z.mod_pos_bound z 16 ltac:(lia))) as H. by rewrite E in H.
Qed.

Lemma hexSeq_inj n n' : int64 n -> int64 n' -> hexSeq n = hexSeq n' -> n = n'.
Proof.
  unfold int64, min_int64, max_int64, hexSeq. intros Hn Hn' E. pose proof (hexParse_hexLow 16 n 0) as H. pose proof (hexParse_hexLow 16 n' 0) as H'.
  rewrite E, H' in H. injection H as H. change (16 ^ Z.of_nat 16) with (2 ^ 64) in H.
  pose proof (Z.div_mod n (2 ^ 64) ltac:(lia)). pose proof (Z.div_mod n' (2 ^ 64) ltac:(lia)). lia.
Qed.

(** What lies under a shard's directory without a further slash lies under no other shard's, except
    that the global chain's directory contains the others. *)
Lemma dir_prefix sh sh' base : noslash sh -> noslash sh' -> noslash base ->
  HasPrefix (shardEventDir sh +:+ base) (shardEventDir sh') = true ->
  sh = sh' \/ sh' = "" /\ HasPrefix (shardEventDir sh +:+ base) shardsRoot = true.
Proof.
  intros Hsh Hsh' Hb H. unfold shardEventDir in *.
  destruct (String.eqb_spec sh "") as [->|Hne], (String.eqb_spec sh' "") as [->|Hne']; [by left| | |].
  - apply HasPrefix_inv in H as [t Ht]. cbn in Ht. injection Ht as Ht. rewrite Ht in Hb. by unfold noslash in Hb; cbn in Hb.
  - right. split; [done|]. rewrite !string_app_assoc. apply HasPrefix_app.
  - left. apply HasPrefix_inv in H as [t Ht]. rewrite !string_app_assoc in Ht.
    assert (forall a b : string, shardsRoot +:+ a = shardsRoot +:+ b -> a = b) as Hinj by (intros a b E; cbn in E; by injection E).
    apply Hinj in Ht. assert (SplitByte (sh +:+ ("/" +:+ base)) slash = SplitByte (sh' +:+ ("/" +:+ t)) slash) as Hs by by rewrite Ht.
    change ("/" +:+ base) with (String slash base) in Hs. change ("/" +:+ t) with (String slash t) in Hs.
    rewrite !SplitByte_app in Hs by done. by injection Hs.
Qed.

Lemma slot_eq sh n : slot sh n = shardEventDir sh +:+ (hexSeq n +:+ ".json").
Proof. reflexivity. Qed.

Lemma head_eq sh : headKeyForShard sh = shardEventDir sh +:+ "_head.json".
Proof. unfold headKeyForShard, shardEventDir. destruct (String.eqb sh ""); [done|]. by rewrite !string_app_assoc. Qed.

Lemma slot_base n : noslash (hexSeq n +:+ ".json").
Proof. apply noslash_app; [apply hexLow_noslash|done]. Qed.

Lemma shardEventDir_inj sh sh' : noslash sh -> noslash sh' -> shardEventDir sh = shardEventDir sh' -> sh = sh'.
Proof.
  intros H H' E. destruct (dir_prefix sh sh' "" H H' eq_refl) as [|[-> Hp]]; [|done|].
  - rewrite string_app_nil_r, E. pose proof (HasPrefix_app (shardEventDir sh') "") as P. by rewrite string_app_nil_r in P.
  - rewrite E in Hp. done.
Qed.

Lemma slot_inj sh sh' n n' : noslash sh -> noslash sh' -> int64 n -> int64 n' -> slot sh n = slot sh' n' -> sh = sh' /\ n = n'.
Proof.
  intros Hs Hs' Hn Hn' E. rewrite !slot_eq in E. apply string_app_inj_length in E as [Ed Eb].
  - apply string_app_inj_length in Eb as [Eh _]; [|done]. split; [by apply shardEventDir_inj|by apply hexSeq_inj].
  - rewrite !string_app_length. unfold hexSeq. by rewrite !hexLow_length.
Qed.

Lemma slot_not_head sh sh' n : slot sh n <> headKeyForShard sh'.
Proof.
  rewrite slot_eq, head_eq. intros E.
  assert (forall d b, noslash b -> basename (shardEventDir d +:+ b) = b) as Hb.
  { intros d b H. unfold shardEventDir. destruct (String.eqb d ""); [by apply (basename_app "audit")|].
    rewrite !string_app_assoc. change ("/" +:+ b) with (String slash b). rewrite <- string_app_assoc. by apply basename_app. }
  apply (f_equal basename) in E. rewrite !Hb in E by (apply slot_base || done).
  apply (f_equal String.length) in E. rewrite string_app_length in E. unfold hexSeq in E. by rewrite hexLow_length in E.
Qed.

(** ** The chain *)

(** What an append adds to an event the caller gave. *)
Definition payload (ev : Event) : Event := with_link ev "" 0 "".

Lemma with_link_shard ev p n h : shardKeyFor (with_link ev p n h) = shardKeyFor ev.
Proof. reflexivity. Qed.

Section chain.
Context `{EJ : EventJSON}.
Context (sha256hex : string -> string).
Local Abbreviation store := (gmap string (object string)).

(** A shard's event with a number. *)
Definition at_slot (s : store) (sh : string) (n : Z) (ev : Event) : Prop :=
  exists o, s !! slot sh n = Some o /\ decode (ob_body o) = Some ev.

(** The hash an event has to carry at a number: that of the event before it. *)
Definition follows (s : store) (sh : string) (n : Z) (prevHash : string) : Prop :=
  n = 0 /\ prevHash = GenesisHash \/ n = min_int64 \/ exists ev, at_slot s sh (n - 1) ev /\ prevHash = ev_Hash ev.

Definition linked_event (s : store) (sh : string) (n : Z) (ev : Event) : Prop :=
  ev_Sequence ev = n /\ shardKeyFor ev = sh /\ ev_Hash ev = ComputeHash sha256hex ev /\ follows s sh n (ev_PrevHash ev).

(** The log: the events of every shard form a chain, nothing else lies in a shard's directory, and
    a pointer that parses points at an event. *)
Record sound_log (s : store) : Prop := {
  so_keys : forall sh k, noslash sh -> is_Some (s !! k) -> HasPrefix k (shardEventDir sh) = true ->
    isShardEventKey sh k (headKeyForShard sh) = true -> exists n, int64 n /\ k = slot sh n;
  so_event : forall sh n o, noslash sh -> int64 n -> s !! slot sh n = Some o ->
    exists ev, decode (ob_body o) = Some ev /\ linked_event s sh n ev;
  so_head : forall sh o hp, noslash sh -> s !! headKeyForShard sh = Some o -> decode (ob_body o) = Some hp ->
    hp_Schema hp = HeadPointerSchema ->
    exists ev, int64 (hp_Sequence hp) /\ hp_Key hp = slot sh (hp_Sequence hp) /\ at_slot s sh (hp_Sequence hp) ev /\ hp_Hash hp = ev_Hash ev
}.

(** The events of a log stay in a later one. *)
Definition committed (s s' : store) : Prop :=
  forall sh n o, noslash sh -> int64 n -> s !! slot sh n = Some o -> s' !! slot sh n = Some o.

(** What anybody who only appends does to the store. *)
Definition log_step (s s' : store) : Prop := (sound_log s -> sound_log s') /\ committed s s'.

#[global] Instance log_step_preorder : PreOrder log_step.
Proof.
  split; [by split; [|intros sh n o]|]. intros s1 s2 s3 [H1 C1] [H2 C2]. split; [auto|].
  intros sh n o Hs Hn Ho. auto.
Qed.

Lemma at_slot_later s s' sh n ev : noslash sh -> int64 n -> committed s s' -> at_slot s sh n ev -> at_slot s' sh n ev.
Proof. intros Hs Hn Hc (o & Ho & Hd). exists o. auto. Qed.

Lemma int64_pred n : int64 n -> n <> min_int64 -> int64 (n - 1).
Proof. unfold int64. lia. Qed.

Lemma follows_later s s' sh n h : noslash sh -> int64 n -> committed s s' -> follows s sh n h -> follows s' sh n h.
Proof.
  intros Hs Hn Hc [H|[H|(ev & He & Hh)]]; [by left|by right; left|].
  destruct (decide (n = min_int64)) as [|Hne]; [by right; left|].
  right. right. exists ev. split; [|done]. eapply at_slot_later; [done| |done|done]. by apply int64_pred.
Qed.

Lemma linked_later s s' sh n ev : noslash sh -> int64 n -> committed s s' -> linked_event s sh n ev -> linked_event s' sh n ev.
Proof. intros Hs Hn Hc (H1 & H2 & H3 & H4). split_and!; try done. by eapply follows_later. Qed.

(** A key with a shard's directory and a plain name is that shard's own, as far as the filter goes. *)
Lemma event_key_dir sh sh' base : noslash sh -> noslash sh' -> noslash base ->
  HasPrefix (shardEventDir sh +:+ base) (shardEventDir sh') = true ->
  isShardEventKey sh' (shardEventDir sh +:+ base) (headKeyForShard sh') = true -> sh' = sh.
Proof.
  intros Hs Hs' Hb Hp He. destruct (dir_prefix sh sh' base Hs Hs' Hb Hp) as [|[-> Hr]]; [done|].
  unfold isShardEventKey in He. destruct (_ || _); [done|]. rewrite Hr in He. done.
Qed.

Lemma head_key_not_event sh : isShardEventKey sh (headKeyForShard sh) (headKeyForShard sh) = false.
Proof. unfold isShardEventKey. by rewrite String.eqb_refl, orb_true_r. Qed.

(** Claiming a free slot with an event that follows the one before it. *)
Lemma claim_slot s sh n ev o : noslash sh -> int64 n -> s !! slot sh n = None -> decode (ob_body o) = Some ev ->
  linked_event s sh n ev -> log_step s (<[slot sh n := o]> s).
Proof.
  intros Hsh Hn Hnone Hd Hev.
  assert (committed s (<[slot sh n := o]> s)) as Hc.
  { intros sh' n' o' Hs' Hn' Ho'. rewrite lookup_insert_ne; [done|]. congruence. }
  split; [|done]. intros Hl. split.
  - intros sh' k Hs' Hk Hp He. destruct (decide (k = slot sh n)) as [->|Hne].
    + rewrite slot_eq in Hp, He. apply event_key_dir in He as ->; [by eexists|done..|apply slot_base|done].
    + rewrite lookup_insert_ne in Hk by done. by apply (so_keys s Hl).
  - intros sh' n' o' Hs' Hn' Ho'. destruct (decide (slot sh' n' = slot sh n)) as [E|Hne].
    + apply slot_inj in E as [-> ->]; [|done..]. rewrite lookup_insert_eq in Ho'. injection Ho' as <-.
      exists ev. split; [done|]. by eapply linked_later.
    + rewrite lookup_insert_ne in Ho' by done. destruct (so_event s Hl sh' n' o' Hs' Hn' Ho') as (ev' & Hd' & He').
      exists ev'. split; [done|]. by eapply linked_later.
  - intros sh' o' hp Hs' Ho' Hd' Hsc. rewrite lookup_insert_ne in Ho' by apply slot_not_head.
    destruct (so_head s Hl sh' o' hp Hs' Ho' Hd' Hsc) as (ev' & Hi & Hk & Ha & Hh).
    exists ev'. split_and!; try done. by eapply at_slot_later.
Qed.

(** Writing a pointer to an event that is there. *)
Lemma point_head s sh n ev o hp : noslash sh -> int64 n -> at_slot s sh n ev -> decode (ob_body o) = Some hp ->
  hp_Sequence hp = n -> hp_Key hp = slot sh n -> hp_Hash hp = ev_Hash ev ->
  log_step s (<[headKeyForShard sh := o]> s).
Proof.
  intros Hsh Hn Hev Hd Hq Hk Hh.
  assert (committed s (<[headKeyForShard sh := o]> s)) as Hc.
  { intros sh' n' o' Hs' Hn' Ho'. rewrite lookup_insert_ne; [done|]. intros E. by apply (slot_not_head sh' sh n'). }
  split; [|done]. intros Hl. split.
  - intros sh' k Hs' Hk' Hp He. destruct (decide (k = headKeyForShard sh)) as [->|Hne].
    + exfalso. pose proof He as He'. rewrite head_eq in Hp, He'. apply event_key_dir in He' as ->; [|done..].
      by rewrite head_key_not_event in He.
    + rewrite lookup_insert_ne in Hk' by done. by apply (so_keys s Hl).
  - intros sh' n' o' Hs' Hn' Ho'. rewrite lookup_insert_ne in Ho' by (intros E; by apply (slot_not_head sh' sh n')).
    destruct (so_event s Hl sh' n' o' Hs' Hn' Ho') as (ev' & Hd' & He'). exists ev'. split; [done|]. by eapply linked_later.
  - intros sh' o' hp' Hs' Ho' Hd' Hsc. destruct (decide (headKeyForShard sh' = headKeyForShard sh)) as [E|Hne].
    + assert (sh' = sh) as ->.
      { rewrite !head_eq in E. apply string_app_inj_length in E as [E _]; [|done]. by apply shardEventDir_inj. }
      rewrite lookup_insert_eq in Ho'. injection Ho' as <-. assert (hp' = hp) as -> by congruence.
      exists ev. rewrite Hq. split_and!; try done. by eapply at_slot_later.
    + rewrite lookup_insert_ne in Ho' by done. destruct (so_head s Hl sh' o' hp' Hs' Ho' Hd' Hsc) as (ev' & Hi & Hk' & Ha & Hh').
      exists ev'. split_and!; try done. by eapply at_slot_later.
Qed.
End chain.

Section append.
Context `{EJ : EventJSON}.
Context (sha256hex : string -> string) (caps : Capabilities) (worm : option WORMPolicy) (DefaultActor : string).
Context (D : decision -> Prop).
Local Abbreviation store := (gmap string (object string)).
Local Abbreviation W := (wps D (log_step sha256hex)).
Local Abbreviation W_bind := (wps_bind D (log_step sha256hex)).
Local Abbreviation W_get := (wps_get D (log_step sha256hex)).
Local Abbreviation W_list := (wps_list D (log_step sha256hex)).
Local Abbreviation W_now := (wps_now D (log_step sha256hex)).
Local Abbreviation W_put := (wps_put D (log_step sha256hex)).
Local Abbreviation W_mono := (wps_mono D (log_step sha256hex)).
Local Abbreviation sound := (sound_log sha256hex).

Lemma log_sound s s' : log_step sha256hex s s' -> sound s -> sound s'.
Proof. by intros [H _]. Qed.

Lemma log_committed s s' : log_step sha256hex s s' -> committed s s'.
Proof. by intros [_ H]. Qed.

#[local] Hint Resolve log_sound log_committed : core.

(** An outcome that promises nothing. *)
Ltac wret := intros; cbn [wps]; intros; done.

Lemma sound_slot s sh n ev : sound s -> noslash sh -> int64 n -> at_slot s sh n ev -> linked_event sha256hex s sh n ev.
Proof.
  intros Hs Hsh Hn (o & Ho & Hd). destruct (so_event _ s Hs sh n o Hsh Hn Ho) as (ev' & Hd' & H). by replace ev with ev' by congruence.
Qed.

Lemma getByKey_slot sh n s0 : sound s0 -> noslash sh -> int64 n ->
  W (getByKey (slot sh n)) (fun r s => match r with Ok ev => at_slot s sh n ev /\ ev_Sequence ev = n | Err _ => True end) s0.
Proof.
  intros Hs Hsh Hn. unfold getByKey. apply W_bind, W_get; [|wret..].
  intros s s2 o H1 H2 Ho. cbn [wps]. intros s3 H3. unfold ReadAllLimited. destruct (_ <? _); [done|].
  destruct (decode (ob_body o)) as [ev|] eqn:Hd; [|done].
  assert (at_slot s sh n ev) as Ha by (by exists o). split.
  - eapply at_slot_later; [done..| |exact Ha]. apply log_committed. by trans s2.
  - destruct (sound_slot s sh n ev) as [H _]; eauto.
Qed.

(** An answer to [head]: an event of the shard at its number. *)
Definition head_answer (sh : string) (r : result audit_err (option Event)) (s : store) : Prop :=
  match r with Ok (Some ev) => int64 (ev_Sequence ev) /\ at_slot s sh (ev_Sequence ev) ev | _ => True end.

(** The keys the listing ends on are among those listed. *)
Definition listed_key (sh : string) (infos : list ObjectInfo) (k : string) : Prop :=
  k = "" \/ k ∈ map Key infos /\ isShardEventKey sh k (headKeyForShard sh) = true.

Lemma note_keys_listed sh infos :
  listed_key sh infos (tp_lex (foldl (note_key sh) no_tip infos)) /\
  listed_key sh infos (tp_tail (foldl (note_key sh) no_tip infos)).
Proof.
  induction infos as [|i infos [IH1 IH2]] using rev_ind; [by split; left|].
  rewrite foldl_app. cbn [foldl]. set (t := foldl _ _ infos) in *.
  assert (forall k, listed_key sh infos k -> listed_key sh (infos ++ [i]) k) as Hmono.
  { intros k [->|[Hk He]]; [by left|]. right. split; [|done]. rewrite map_app. apply elem_of_app. by left. }
  apply Hmono in IH1, IH2. unfold note_key. destruct (isShardEventKey sh (Key i) _) eqn:E; cbn [negb]; [|done].
  assert (listed_key sh (infos ++ [i]) (Key i)) as Hi.
  { right. split; [|done]. rewrite map_app. apply elem_of_app. right. by left. }
  destruct (string_ltb _ _), (seqFromEventKey (Key i)) as [q|]; try destruct (_ || _); by split.
Qed.

Lemma listed_slot sh s infos k : sound s -> noslash sh -> infos ≡ₚ listing (shardEventDir sh) s ->
  k ∈ map Key infos -> isShardEventKey sh k (headKeyForShard sh) = true -> exists n, int64 n /\ k = slot sh n.
Proof.
  intros Hs Hsh Hp (i & -> & Hi)%list_elem_of_fmap He. rewrite Hp in Hi. apply elem_of_listing in Hi as (o & Ho & _ & Hpre).
  eapply so_keys; eauto.
Qed.

Lemma list_head_W sh s0 : sound s0 -> noslash sh -> W (list_head sh) (head_answer sh) s0.
Proof.
  intros Hs Hsh. unfold list_head. apply W_bind, W_list; [|wret].
  intros s s2 l H1 H2 Hl. destruct (String.eqb_spec (tp_lex (foldl (note_key sh) no_tip l)) "") as [|Hlex]; [wret|].
  destruct (note_keys_listed sh l) as [[|[Nl El]] Nt]; [done|]. set (t := foldl _ _ _) in *.
  assert (exists n, int64 n /\ (if String.eqb (tp_tail t) "" then tp_lex t else tp_tail t) = slot sh n) as (n & Hn & ->).
  { destruct (String.eqb_spec (tp_tail t) "") as [|Ht]; [|destruct Nt as [|[Nt Et]]; [done|]]; apply (listed_slot sh s l); eauto. }
  apply W_bind. eapply W_mono; [|apply getByKey_slot; eauto].
  intros [ev|e] s3 H3 H; cbn [wps]; [|done]. destruct H as [H E]. intros s4 H4. cbn. rewrite E. split; [done|].
  eapply at_slot_later; eauto.
Qed.

Lemma readHeadPointer_W sh s0 : sound s0 -> noslash sh ->
  W (readHeadPointer sh) (fun r s => match r with
    | Ok (Some hp) => int64 (hp_Sequence hp) /\ hp_Key hp = slot sh (hp_Sequence hp)
    | _ => True end) s0.
Proof.
  intros Hs Hsh. unfold readHeadPointer. apply W_bind, W_get; [|wret..].
  intros s s2 o H1 H2 Ho. cbn [wps]. intros s3 H3. unfold ReadAllLimited. destruct (_ <? _); [done|].
  destruct (decode (ob_body o)) as [hp|] eqn:Hd; [|done]. destruct (String.eqb_spec (hp_Schema hp) HeadPointerSchema); [|done].
  destruct (so_head _ s (log_sound _ _ H1 Hs) sh o hp) as (ev & Hi & Hk & _); done.
Qed.

Lemma head_W sh s0 : sound s0 -> noslash sh -> W (head sh) (head_answer sh) s0.
Proof.
  intros Hs Hsh. unfold head. apply W_bind. eapply W_mono; [|by apply readHeadPointer_W].
  intros [[hp|]|e] s1 H1 Hhp; [|by apply list_head_W; eauto..].
  destruct (String.eqb (hp_Key hp) ""); [by apply list_head_W; eauto|]. destruct Hhp as [Hn ->].
  apply W_bind. eapply W_mono; [|apply getByKey_slot; eauto].
  intros [ev|e] s2 H2 H; [|by apply list_head_W; eauto]. destruct H as [Ha E].
  destruct (_ && _); [|by apply list_head_W; eauto]. cbn [wps]. intros s3 H3. cbn. rewrite E. split; [done|].
  eapply at_slot_later; eauto.
Qed.

(** A completed append: the event is in the log under its own key, with what the caller gave. *)
Definition appended (ev : Event) (r : result audit_err Event) (s : store) : Prop :=
  match r with
  | Ok ev' => payload ev' = payload ev /\ int64 (ev_Sequence ev') /\ at_slot s (shardKeyFor ev') (ev_Sequence ev') ev'
  | Err _ => True
  end.

Lemma writeHeadPointer_W sh n ev s0 : sound s0 -> noslash sh -> int64 n -> at_slot s0 sh n ev -> ev_Sequence ev = n ->
  W (writeHeadPointer sh ev (slot sh n)) (fun _ _ => True) s0.
Proof.
  intros Hs Hsh Hn Ha Hq. unfold writeHeadPointer. apply W_bind, W_now. intros t s H.
  apply W_put; [|by intros..]. intros s2 t2 H2 _. eapply point_head; [done|done| |apply decode_encode|..]; try done.
  eapply at_slot_later; [done|done| |exact Ha]. eapply log_committed. by trans s.
Qed.

Lemma link_linked s sh n ev h : shardKeyFor ev = sh -> follows s sh n h -> linked_event sha256hex s sh n (link sha256hex ev h n).
Proof. intros Hsh Hf. by split_and!. Qed.

Lemma relink_follows s sh n w : int64 n -> at_slot s sh n w -> ev_Sequence w = n ->
  int64 (relink n w).2 /\ follows s sh (relink n w).2 (relink n w).1.
Proof.
  intros Hn Ha Hq. unfold relink. rewrite Hq. cbn [fst snd]. pose proof Hn as [H1 H2].
  assert ((if n <? i64 (n + 1) then i64 (n + 1) else i64 (n + 1)) = i64 (n + 1)) as -> by by destruct (_ <? _).
  destruct (decide (n = max_int64)) as [->|Hne].
  - change (i64 (max_int64 + 1)) with min_int64. split; [done|]. by right; left.
  - rewrite i64_id by lia. split; [unfold int64; lia|]. right. right. exists w. by rewrite Z.add_simpl_r.
Qed.

Lemma i64_follows s sh ev : int64 (ev_Sequence ev) -> at_slot s sh (ev_Sequence ev) ev ->
  int64 (i64 (ev_Sequence ev + 1)) /\ follows s sh (i64 (ev_Sequence ev + 1)) (ev_Hash ev).
Proof.
  intros Hn Ha. pose proof (relink_follows s sh _ ev Hn Ha eq_refl) as H. unfold relink in H. cbn [fst snd] in H.
  by destruct (_ <? _).
Qed.

Hypothesis Hcond : ConditionalPut caps = true.

(** An attempt that goes through puts an event that follows the one before it. *)
Lemma put_event_W s0 sh n ev : sound s0 -> noslash sh -> int64 n -> linked_event sha256hex s0 sh n ev ->
  W (put_event caps worm (slot sh n) (encode ev)) (fun r s => match r with Ok _ => at_slot s sh n ev | Err _ => True end) s0.
Proof.
  intros Hs Hsh Hn Hev. unfold put_event, read_back. rewrite Hcond. apply W_bind.
  assert (W (if WORM_IsZero worm then Ret Time.zero else now) (fun _ _ => True) s0) as Hnow
    by by destruct (WORM_IsZero worm); [|apply W_now].
  eapply W_mono; [|exact Hnow]. intros t s1 H1 _. apply W_bind, W_put.
  - intros s t' H' Hnone. apply (claim_slot sha256hex s sh n ev); [done|done| |apply decode_encode|].
    + apply Hnone. unfold event_opts. by destruct (WORM_IsZero worm).
    + eapply linked_later; [done|done| |exact Hev]. eapply log_committed. by trans s1.
  - intros s s2 t' H' H2. cbn [wps]. intros s3 H3. eapply at_slot_later; [done|done|eapply log_committed; by trans s2|].
    eexists. rewrite lookup_insert_eq. split; [done|apply decode_encode].
  - by intros.
  - by intros.
Qed.

Lemma append_loop_W attempts : forall ev h n s0, sound s0 -> int64 n -> follows s0 (shardKeyFor ev) n h ->
  W (append_loop sha256hex caps worm attempts ev h n) (appended ev) s0.
Proof.
  induction attempts as [|attempts IH]; intros ev h n s0 Hs Hn Hf; cbn [append_loop]; [by cbn|].
  pose proof (shardKeyFor_noslash ev) as Hsh. set (sh := shardKeyFor ev) in *.
  change (keyFor (link sha256hex ev h n)) with (slot sh n).
  unfold probe. rewrite Hcond. cbn [pbind]. apply W_bind.
  eapply W_mono; [|by apply (put_event_W s0 sh n _ Hs Hsh Hn), link_linked].
  intros [u|e] s1 H1 Ha.
  - apply W_bind. eapply W_mono; [|apply (writeHeadPointer_W sh n); eauto].
    intros _ s2 H2 _. cbn [wps]. intros s3 H3. split; [done|]. split; [done|]. cbn.
    eapply at_slot_later; [done|done| |exact Ha]. eapply log_committed. by trans s2.
  - destruct e; try by cbn. apply W_bind. eapply W_mono; [|apply getByKey_slot; eauto].
    intros [w|e] s2 H2 Hw; [|by cbn]. destruct Hw as [Hw Hq].
    destruct (relink_follows s2 sh n w Hn Hw Hq) as [Hn' Hf'].
    eapply W_mono; [|apply IH; eauto]. by intros [ev'|e] s3 _ H.
Qed.

Lemma Append_W rb ev s0 : sound s0 ->
  W (Append sha256hex caps worm DefaultActor rb ev)
    (fun r s => exists t, appended (complete DefaultActor ev t rb) r s) s0.
Proof.
  intros Hs. unfold Append. destruct (String.eqb (ev_Action ev) ""); [by exists Time.zero|]. apply W_bind.
  assert (W (if Time.IsZero (ev_Timestamp ev) then now else Ret (ev_Timestamp ev)) (fun _ _ => True) s0) as Hnow
    by by destruct (Time.IsZero _); [apply W_now|].
  eapply W_mono; [|exact Hnow]. intros t s1 H1 _. set (ev1 := complete DefaultActor ev t rb).
  apply W_bind. eapply W_mono; [|apply head_W; eauto using shardKeyFor_noslash].
  intros [[p|]|e] s2 H2 Hp; [..|by exists t].
  - destruct Hp as [Hn Ha]. destruct (i64_follows s2 _ p Hn Ha). eapply W_mono; [|apply append_loop_W; eauto].
    intros r s _ Hr. by exists t.
  - eapply W_mono; [|apply append_loop_W; [eauto|done|by left]]. intros r s _ Hr. by exists t.
Qed.
End append.

(** Whatever appends do together, they only append. *)
Lemma appends_only_append `{EJ : EventJSON} (sha256hex : string -> string) (caps : Capabilities)
    (worm : option WORMPolicy) (DefaultActor : string) (evs : list (list Z * Event)) (sched : list (nat * decision))
    (s : gmap string (object string)) :
  ConditionalPut caps = true -> sound_log sha256hex s ->
  let '(ps', s') := pool sched (map (fun '(rb, ev) => Append sha256hex caps worm DefaultActor rb ev) evs) s in
  log_step sha256hex s s' /\
  forall i r, ps' !! i = Some (Ret r) -> exists rb ev t, evs !! i = Some (rb, ev) /\ appended (complete DefaultActor ev t rb) r s'.
Proof.
  intros Hc Hs. set (ps := map _ evs).
  assert (forall i p, ps !! i = Some p -> wps (fun _ => True) (log_step sha256hex) p
    (fun r s' => forall rb ev, evs !! i = Some (rb, ev) -> exists t, appended (complete DefaultActor ev t rb) r s') s) as Hps.
  { intros i p Hp. unfold ps in Hp. apply list_lookup_fmap_Some in Hp as ([rb ev] & -> & Hi).
    eapply wps_mono; [apply _| |by apply Append_W]. intros r s' _ H rb' ev' Hi'. rewrite Hi in Hi'. by injection Hi' as <- <-. }
  pose proof (pool_ended (fun _ => True) (log_step sha256hex) sched ps _ s ltac:(by apply Forall_true) Hps) as H.
  destruct (pool sched ps s) as [ps' s'] eqn:E. destruct H as [Hstep Hend]. split; [done|].
  assert (forall i r, ps' !! i = Some (Ret r) -> exists rb ev t, evs !! i = Some (rb, ev) /\ appended (complete DefaultActor ev t rb) r s') as Hall.
  { intros i r Hi. pose proof (pool_length sched ps s) as Hl. rewrite E in Hl. cbn in Hl.
    destruct (evs !! i) as [[rb ev]|] eqn:He.
    - destruct (Hend i r Hi rb ev He) as [t Ht]. by exists rb, ev, t.
    - apply lookup_ge_None in He. apply lookup_lt_Some in Hi. unfold ps in Hl. rewrite length_map in Hl. lia. }
  exact Hall.
Qed.

(** C10: appends form one chain.  Any number of appends run at once on a backend whose exclusive put has
    one winner, call by call in any order, with any calls failing, with or without an effect.  At every
    moment each shard of the log is a chain: an event at every number it reaches from the first, each
    with its own hash and with the hash of the event before it; no event that was there is gone or
    changed; an append that reports success has stored what its caller gave, under a key no other
    event's append reports. *)
Theorem concurrent_appends_chain `{EJ : EventJSON} (sha256hex : string -> string) (caps : Capabilities)
    (worm : option WORMPolicy) (DefaultActor : string) (evs : list (list Z * Event)) (sched : list (nat * decision))
    (s : gmap string (object string)) :
  ConditionalPut caps = true -> sound_log sha256hex s ->
  let '(ps', s') := pool sched (map (fun '(rb, ev) => Append sha256hex caps worm DefaultActor rb ev) evs) s in
  sound_log sha256hex s' /\ committed s s' /\
  (forall i rb ev r, evs !! i = Some (rb, ev) -> ps' !! i = Some (Ret r) ->
     exists t, appended (complete DefaultActor ev t rb) r s') /\
  (forall i j a b, ps' !! i = Some (Ret (Ok a)) -> ps' !! j = Some (Ret (Ok b)) -> payload a <> payload b -> keyFor a <> keyFor b).
Proof.
  intros Hc Hs. pose proof (appends_only_append sha256hex caps worm DefaultActor evs sched s Hc Hs) as H.
  destruct (pool sched _ s) as [ps' s']. destruct H as [[Hsound Hcom] Hall]. split_and!; [auto|done| |].
  - intros i rb ev r Hi Hr. destruct (Hall i r Hr) as (rb' & ev' & t & Hi' & H). rewrite Hi in Hi'. injection Hi' as -> ->. by exists t.
  - intros i j a b Hi Hj Hne Hk. destruct (Hall i _ Hi) as (rb & ev & t & _ & _ & Hna & Ha).
    destruct (Hall j _ Hj) as (rb' & ev' & t' & _ & _ & Hnb & Hb).
    destruct Ha as (oa & Hoa & Hda), Hb as (ob & Hob & Hdb). unfold keyFor in Hk. rewrite Hk in Hoa. congruence.
Qed.

(** *** An encoding to evaluate on *)

(** Texts one after the other. *)
Fixpoint print_fields (l : list string) : string :=
  match l with [] => "" | s :: l => SampleJson.escape s +:+ print_fields l end.

Fixpoint read_fields (n : nat) (s : string) : option (list string) :=
  match n with
  | O => Some []
  | S n => match SampleJson.unescape s with
           | Some (x, s) => match read_fields n s with Some l => Some (x :: l) | None => None end
           | None => None
           end
  end.

Lemma read_print_fields l : read_fields (length l) (print_fields l) = Some l.
Proof.
  induction l as [|s l IH]; [done|]. cbn [length read_fields print_fields].
  by rewrite SampleJson.unescape_escape, IH.
Qed.

Definition numbers_text (n t : Z) (b : gmap string string) : string := bits (countable.encode (n, t, b)).

Definition text_numbers (s : string) : option (Z * Z * gmap string string) :=
  match unbits s with Some p => countable.decode p | None => None end.

Definition event_fields (e : Event) : list string :=
  [ev_Schema e; ev_ID e; numbers_text (ev_Sequence e) (ev_Timestamp e) (ev_Body e); ev_Actor e; ev_Tenant e; ev_Action e;
   su_Deployment (ev_Subject e); su_BackupID (ev_Subject e); su_Tenant (ev_Subject e); su_Repo (ev_Subject e); ev_PrevHash e; ev_Hash e].

Definition event_of_fields (l : list string) : option Event :=
  match l with
  | [sc; id; nt; ac; te; act; d; b; t; r; p; h] =>
      match text_numbers nt with
      | Some (n, ts, body) =>
          Some {| ev_Schema := sc; ev_ID := id; ev_Sequence := n; ev_Timestamp := ts; ev_Actor := ac; ev_Tenant := te; ev_Action := act;
                  ev_Subject := {| su_Deployment := d; su_BackupID := b; su_Tenant := t; su_Repo := r |};
                  ev_Body := body; ev_PrevHash := p; ev_Hash := h |}
      | None => None
      end
  | _ => None
  end.

Definition sample_event_codec : Codec string Event.
Proof.
  refine {| encode := fun e => print_fields (event_fields e);
            decode := fun s => match read_fields 12 s with Some l => event_of_fields l | None => None end |}.
  intros e. assert (read_fields 12 (print_fields (event_fields e)) = Some (event_fields e)) as -> by exact (read_print_fields (event_fields e)).
  unfold event_of_fields, event_fields, text_numbers, numbers_text.
  rewrite unbits_bits, countable.decode_encode. by destruct e as [? ? ? ? ? ? ? [] ? ? ?].
Defined.

#[export] Instance HeadPointer_countable : Countable HeadPointer.
Proof.
  refine (inj_countable' (fun h => (hp_Schema h, hp_Sequence h, hp_Hash h, hp_EventID h, hp_Key h, (hp_UpdatedAt h : Z)))
    (fun '(a, b, c, d, e, f) => {| hp_Schema := a; hp_Sequence := b; hp_Hash := c; hp_EventID := d; hp_Key := e; hp_UpdatedAt := f |}) _).
  by intros [].
Defined.

Definition sample_audit_json : EventJSON.
Proof.
  refine {| marshal := encode (Codec := sample_event_codec); event_codec := sample_event_codec; head_codec := countable_codec |}.
  intros a b H. apply (f_equal (decode (Codec := sample_event_codec))) in H. rewrite !decode_encode in H. by injection H.
Defined.

(** Not a digest, but easily computed. *)
Definition length_hash (s : string) : string := hexLow 64 (Z.of_nat (String.length s)).

Definition sample_event (id : string) : Event :=
  {| ev_Schema := ""; ev_ID := id; ev_Sequence := 0; ev_Timestamp := 1; ev_Actor := "ops"; ev_Tenant := "";
     ev_Action := "backup.create"; ev_Subject := {| su_Deployment := "db"; su_BackupID := ""; su_Tenant := ""; su_Repo := "" |};
     ev_Body := ∅; ev_PrevHash := ""; ev_Hash := "" |}.

Definition calm (t : time) : decision :=
  {| d_fault := Normal; d_time := t; d_order := fun l => l; d_order_perm := fun l => Permutation_refl l; d_listed := 0 |}.

Definition strict : Capabilities := {| WORM := false; ConditionalPut := true |}.

(** Two appends, turn by turn: one loses the first number and takes the second. *)
Definition turns : list (nat * decision) := map (fun i => (Nat.modulo i 2, calm 5)) (seq 0 40).

Definition two_appends := pool turns
  (map (fun '(rb, ev) => Append (EJ := sample_audit_json) length_hash strict None "me" rb ev)
     [([], sample_event "a"); ([], sample_event "b")]) ∅.

Lemma empty_log `{EJ : EventJSON} sha : sound_log sha ∅.
Proof. split; intros *; rewrite ?lookup_empty; done. Qed.

Example both_appended : exists a b,
  two_appends.1 = [Ret (Ok a); Ret (Ok b)] /\ ev_Sequence a = 0 /\ ev_Sequence b = 1 /\ ev_PrevHash b = ev_Hash a.
Proof. eexists _, _. by vm_compute. Qed.

Lemma concurrent_appends_chain_witness :
  let '(ps', s') := two_appends in
  sound_log (EJ := sample_audit_json) length_hash s' /\
  (forall i j a b, ps' !! i = Some (Ret (Ok a)) -> ps' !! j = Some (Ret (Ok b)) -> payload a <> payload b -> keyFor a <> keyFor b).
Proof.
  pose proof (concurrent_appends_chain (EJ := sample_audit_json) length_hash strict None "me"
    [([], sample_event "a"); ([], sample_event "b")] turns ∅ eq_refl (empty_log (EJ := sample_audit_json) length_hash)) as H.
  unfold two_appends. destruct (pool turns _ ∅) as [ps' s']. destruct H as (H1 & _ & _ & H2). exact (conj H1 H2).
Defined.

(** ** Events over the read-back limit *)

Section oversized.
Context `{EJ : EventJSON}.
Context (sha256hex : string -> string) (worm : option WORMPolicy).
Local Abbreviation store := (gmap string (object string)).

(** A backend without a single-winner promise. *)
Definition lenient : Capabilities := {| WORM := false; ConditionalPut := false |}.

Lemma healthy_fault d : healthy d -> d_fault d <> Normal -> False.
Proof. by intros ->. Qed.

Lemma limited_differs body : 2 ^ 20 < Z.of_nat (String.length body) -> String.eqb (limited (2 ^ 20) body) body = false.
Proof.
  intros H. unfold limited. rewrite (proj2 (Z.leb_gt _ _)) by done. apply String.eqb_neq. intros E.
  apply (f_equal String.length) in E. rewrite stake_length in E. lia.
Qed.

(** Each attempt stores the event, reads back a shorter text than it wrote, takes itself for the
    winner of the slot and moves on: as many copies as attempts, and an error at the end. *)
Theorem oversized_event_repeats ev (attempts : nat) : forall h n (s : store),
  (forall h n, 2 ^ 20 < Z.of_nat (String.length (encode (link sha256hex ev h n))) <= MaxMetadataBytes) ->
  0 <= n -> n + Z.of_nat attempts <= max_int64 ->
  (forall i, n <= i < n + Z.of_nat attempts -> s !! slot (shardKeyFor ev) i = None) ->
  wp healthy (append_loop sha256hex lenient worm attempts ev h n)
    (fun r s' => r = Err AE_GaveUp /\ committed s s' /\ forall i, n <= i < n + Z.of_nat attempts ->
       exists ev', at_slot s' (shardKeyFor ev) i ev' /\ payload ev' = payload ev) s.
Proof.
  intros h n s. revert ev h n s. induction attempts as [|k IH]; intros ev h n s Hsize Hn Hmax Hfree; cbn [append_loop].
  { split_and!; [done|by intros sh i o|]. intros i Hi. lia. }
  set (ev1 := link sha256hex ev h n). change (keyFor ev1) with (slot (shardKeyFor ev) n). set (sh := shardKeyFor ev) in *.
  assert (s !! slot sh n = None) as Hnone by (apply Hfree; lia).
  unfold probe, lenient at 1. cbn [ConditionalPut]. unfold getByKey at 1. apply wp_bind, wp_bind, wp_bind, wp_get; [by rewrite Hnone|intros _|by intros d c ? []%healthy_fault].
  cbn [wp]. unfold put_event. apply wp_bind, wp_bind.
  assert (wp healthy (if WORM_IsZero worm then Ret Time.zero else now) (fun _ s' => s' = s) s) as Hnow
    by (by destruct (WORM_IsZero worm); [|apply wp_now]).
  eapply wp_mono; [|exact Hnow]. intros t s1 ->. apply wp_bind, wp_put; [|by rewrite Hnone; intros []|by intros d c ? []%healthy_fault..].
  intros d _ _. set (o := put_object _ _ _). unfold read_back, lenient at 1. cbn [ConditionalPut].
  unfold readSlotRaw. apply wp_bind, wp_bind, wp_get; [|by rewrite lookup_insert_eq|by intros d' c ? []%healthy_fault].
  rewrite lookup_insert_eq. intros o' [= <-]. cbn [wp ob_body o put_object]. rewrite limited_differs by apply Hsize.
  unfold getByKey. apply wp_bind, wp_bind, wp_get; [|by rewrite lookup_insert_eq|by intros d' c ? []%healthy_fault].
  rewrite lookup_insert_eq. intros o' [= <-]. cbn [wp ob_body o put_object]. unfold ReadAllLimited.
  rewrite (proj2 (Z.ltb_ge _ _)) by apply Hsize. rewrite decode_encode. unfold relink. cbn [fst snd].
  change (ev_Sequence ev1) with n. rewrite i64_id by (unfold max_int64, min_int64 in *; lia). rewrite (proj2 (Z.ltb_lt _ _)) by lia.
  eapply wp_mono; [|apply (IH ev1)].
  - intros r s' (-> & Hc & H). split; [done|]. assert (int64 n) as Hn64 by (unfold int64, min_int64 in *; lia). split.
    + intros sh' i o' Hs' Hi Ho'. apply Hc; [done..|]. rewrite lookup_insert_ne; [done|]. congruence.
    + intros i Hi. destruct (decide (i = n)) as [->|]; [|destruct (H i) as (ev' & H1 & H2); [lia|by exists ev']].
      exists ev1. split; [|done]. exists o. split; [|apply decode_encode].
      apply Hc; [apply shardKeyFor_noslash|done|apply lookup_insert_eq].
  - apply Hsize.
  - lia.
  - lia.
  - intros i Hi. rewrite lookup_insert_ne; [apply Hfree; lia|]. intros E. apply slot_inj in E as [_ E]; [lia|apply shardKeyFor_noslash..| |];
      unfold int64, min_int64 in *; lia.
Qed.
End oversized.
