(* ===== verification/AuditVerify.v ===== *)
(** Verifying the audit log (internal/audit/audit.go, transparency.go): the chain of every shard
    against its head pointer, and anchors against the events they name. *)
From S2P Require Import Prelude GoString Storage Concur Pool Commit Worm Timeline ManifestStore AuditLog.
From Stdlib Require Import Ascii.

Local Open Scope string_scope.
Local Open Scope list_scope.
Local Open Scope Z_scope.
#[local] Arguments String.append : simpl nomatch.

(** ** Results *)

(** What the tail check finds: events missing below the pointer's number, or another event at it. *)
Inductive truncation :=
| TailMissing (shard : string) (pointer : Z) (eventID : string) (head : Z)
| HeadReplaced (shard : string) (head : Z).

Record VerifyResult := {
  vr_EventsChecked : Z;
  vr_HashMismatches : list string;
  vr_ChainBreaks : list string;
  vr_Misfiled : list string;
  vr_Truncated : list truncation;
  vr_HeadPointerMissing : list string;
  vr_FindingsTruncated : bool;
  vr_OK : bool
}.

Definition no_result : VerifyResult :=
  {| vr_EventsChecked := 0; vr_HashMismatches := []; vr_ChainBreaks := []; vr_Misfiled := []; vr_Truncated := [];
     vr_HeadPointerMissing := []; vr_FindingsTruncated := false; vr_OK := false |}.

Definition maxVerifyFindings : Z := 10000.

(** [addFinding] on a list: the list, and whether a finding was dropped. *)
Definition addFinding (l : list string) (id : string) : list string * bool :=
  if maxVerifyFindings <=? Z.of_nat (length l) then (l, true) else (l ++ [id], false).

Definition count_event (r : VerifyResult) : VerifyResult :=
  {| vr_EventsChecked := vr_EventsChecked r + 1; vr_HashMismatches := vr_HashMismatches r; vr_ChainBreaks := vr_ChainBreaks r;
     vr_Misfiled := vr_Misfiled r; vr_Truncated := vr_Truncated r; vr_HeadPointerMissing := vr_HeadPointerMissing r;
     vr_FindingsTruncated := vr_FindingsTruncated r; vr_OK := vr_OK r |}.

Definition add_mismatch (r : VerifyResult) (id : string) : VerifyResult :=
  let '(l, t) := addFinding (vr_HashMismatches r) id in
  {| vr_EventsChecked := vr_EventsChecked r; vr_HashMismatches := l; vr_ChainBreaks := vr_ChainBreaks r;
     vr_Misfiled := vr_Misfiled r; vr_Truncated := vr_Truncated r; vr_HeadPointerMissing := vr_HeadPointerMissing r;
     vr_FindingsTruncated := vr_FindingsTruncated r || t; vr_OK := vr_OK r |}.

Definition add_break (r : VerifyResult) (id : string) : VerifyResult :=
  let '(l, t) := addFinding (vr_ChainBreaks r) id in
  {| vr_EventsChecked := vr_EventsChecked r; vr_HashMismatches := vr_HashMismatches r; vr_ChainBreaks := l;
     vr_Misfiled := vr_Misfiled r; vr_Truncated := vr_Truncated r; vr_HeadPointerMissing := vr_HeadPointerMissing r;
     vr_FindingsTruncated := vr_FindingsTruncated r || t; vr_OK := vr_OK r |}.

Definition add_misfiled (r : VerifyResult) (id : string) : VerifyResult :=
  let '(l, t) := addFinding (vr_Misfiled r) id in
  {| vr_EventsChecked := vr_EventsChecked r; vr_HashMismatches := vr_HashMismatches r; vr_ChainBreaks := vr_ChainBreaks r;
     vr_Misfiled := l; vr_Truncated := vr_Truncated r; vr_HeadPointerMissing := vr_HeadPointerMissing r;
     vr_FindingsTruncated := vr_FindingsTruncated r || t; vr_OK := vr_OK r |}.

Definition add_truncated (r : VerifyResult) (t : truncation) : VerifyResult :=
  {| vr_EventsChecked := vr_EventsChecked r; vr_HashMismatches := vr_HashMismatches r; vr_ChainBreaks := vr_ChainBreaks r;
     vr_Misfiled := vr_Misfiled r; vr_Truncated := vr_Truncated r ++ [t]; vr_HeadPointerMissing := vr_HeadPointerMissing r;
     vr_FindingsTruncated := vr_FindingsTruncated r; vr_OK := vr_OK r |}.

Definition add_missing_head (r : VerifyResult) (shard : string) : VerifyResult :=
  {| vr_EventsChecked := vr_EventsChecked r; vr_HashMismatches := vr_HashMismatches r; vr_ChainBreaks := vr_ChainBreaks r;
     vr_Misfiled := vr_Misfiled r; vr_Truncated := vr_Truncated r; vr_HeadPointerMissing := vr_HeadPointerMissing r ++ [shard];
     vr_FindingsTruncated := vr_FindingsTruncated r; vr_OK := vr_OK r |}.

Definition nil_list {A} (l : list A) : bool := match l with [] => true | _ => false end.

(** No finding so far. *)
Definition clean (r : VerifyResult) : bool :=
  nil_list (vr_HashMismatches r) && nil_list (vr_ChainBreaks r) && nil_list (vr_Misfiled r) &&
  nil_list (vr_Truncated r) && nil_list (vr_HeadPointerMissing r).

Definition with_ok (r : VerifyResult) : VerifyResult :=
  {| vr_EventsChecked := vr_EventsChecked r; vr_HashMismatches := vr_HashMismatches r; vr_ChainBreaks := vr_ChainBreaks r;
     vr_Misfiled := vr_Misfiled r; vr_Truncated := vr_Truncated r; vr_HeadPointerMissing := vr_HeadPointerMissing r;
     vr_FindingsTruncated := vr_FindingsTruncated r; vr_OK := clean r |}.

(** ** Links on their way through the sorter *)

Definition nul : ascii := byte 0.

Definition encodeLink (hash prev id : string) : string := hash +:+ String nul (prev +:+ String nul id).

(** [bytes.SplitN(b, 0, 3)], with the parts that are not there left empty. *)
Definition decodeLink (b : string) : string * string * string :=
  match CutByte b nul with
  | None => (b, "", "")
  | Some (hash, rest) =>
      match CutByte rest nul with
      | None => (hash, rest, "")
      | Some (prev, id) => (hash, prev, id)
      end
  end.

(** A record of the sorter: the sequence number as its key, and the encoded link. *)
Definition link_less (a b : Z * string) : bool := a.1 <? b.1.

(** The walk over the sorted links: the hash expected next, the last number and hash, the result. *)
Record walk := { wk_prev : string; wk_seq : Z; wk_hash : string; wk_res : VerifyResult }.

Definition walk_link (w : walk) (l : Z * string) : walk :=
  let '(hash, prev, id) := decodeLink l.2 in
  {| wk_prev := hash; wk_seq := l.1; wk_hash := hash;
     wk_res := if String.eqb prev (wk_prev w) then wk_res w else add_break (wk_res w) id |}.

(** ** The verifier *)

Section verify.
Context `{EJ : EventJSON}.
Context (sha256hex : string -> string).
(** The order the sorter leaves links of one number in. *)
Context (ties : list (Z * string) -> list (Z * string)).

(** A shard of a key under the shards' root, where it has one. *)
Definition shard_of (key : string) : option string :=
  match CutByte (TrimPrefix key shardsRoot) slash with
  | Some (shard, _) => if String.eqb shard "" then None else Some shard
  | None => None
  end.

Definition listShards : prog string (result serr (list string)) :=
  let* l := sList shardsRoot in
  match l with
  | (_, Some e) => Ret (Err e)
  | (infos, None) => Ret (Ok (sort_strings ("" :: elements (list_to_set (C := gset string) (omap (fun i => shard_of (Key i)) infos)))))
  end.

(** A listing's entries one by one: a failure of the body ends it, then one of the listing. *)
Definition eachShardEventKey {S} (shard : string) (st : S) (fn : string -> S -> prog string (S + audit_err))
    : prog string (result audit_err S) :=
  let* l := sList (shardEventDir shard) in
  let* r := for_ l.1 st (fun i st =>
    if negb (isShardEventKey shard (Key i) (headKeyForShard shard)) then Ret (inl st) else fn (Key i) st) in
  Ret (match r, l.2 with
       | inr e, _ => Err e
       | inl _, Some e => Err (AE_Store e)
       | inl st, None => Ok st
       end).

(** What an event adds to the result and to the sorter. *)
Definition note_event (shard : string) (ev : Event) (st : VerifyResult * list (Z * string)) : VerifyResult * list (Z * string) :=
  let r := count_event st.1 in
  let r := if String.eqb (ComputeHash sha256hex ev) (ev_Hash ev) then r else add_mismatch r (ev_ID ev) in
  let r := if String.eqb (shardKeyFor ev) shard then r else add_misfiled r (ev_ID ev) in
  (r, st.2 ++ [(ev_Sequence ev, encodeLink (ev_Hash ev) (ev_PrevHash ev) (ev_ID ev))]).

Definition walk_links (links : list (Z * string)) (r : VerifyResult) : walk :=
  foldl walk_link {| wk_prev := GenesisHash; wk_seq := 0; wk_hash := ""; wk_res := r |} (stable_sort link_less (ties links)).

(** The tail check against the head pointer. *)
Definition check_tail (shard : string) (hp : option HeadPointer) (w : walk) : VerifyResult :=
  match hp with
  | None => add_missing_head (wk_res w) shard
  | Some hp =>
      if wk_seq w <? hp_Sequence hp then add_truncated (wk_res w) (TailMissing shard (hp_Sequence hp) (hp_EventID hp) (wk_seq w))
      else if (hp_Sequence hp =? wk_seq w) && negb (String.eqb (hp_Hash hp) (wk_hash w))
      then add_truncated (wk_res w) (HeadReplaced shard (wk_seq w))
      else wk_res w
  end.

Definition verifyShard (shard : string) (res : VerifyResult) : prog string (result audit_err VerifyResult) :=
  let* r := eachShardEventKey shard (res, []) (fun k st =>
    let* ev := getByKey k in
    match ev with
    | Err e => Ret (inr e)
    | Ok ev => Ret (inl (note_event shard ev st))
    end) in
  match r with
  | Err e => Ret (Err e)
  | Ok (res, links) =>
      let w := walk_links links res in
      if nil_list links then Ret (Ok (wk_res w))
      else
        let* hp := readHeadPointer shard in
        Ret (match hp with
             | Err e => Err e
             | Ok hp => Ok (check_tail shard hp w)
             end)
  end.

Definition VerifyChain : prog string (result audit_err VerifyResult) :=
  let* shards := listShards in
  match shards with
  | Err e => Ret (Err (AE_Store e))
  | Ok shards =>
      let* r := for_ shards no_result (fun shard res =>
        let* r := verifyShard shard res in
        Ret (match r with Ok res => inl res | Err e => inr e end)) in
      Ret (match r with inl res => Ok (with_ok res) | inr e => Err e end)
  end.
End verify.

(** ** Anchors *)

Record Anchor := {
  an_Schema : string;
  an_Shard : string;
  an_ChainHeadHash : string;
  an_HeadSequence : Z;
  an_AnchoredAt : time;
  an_PublisherID : string;
  an_LogID : string
}.

Definition AnchorSchema : string := "pg_hardstorage.audit.anchor.v1".

Inductive anchor_err :=
| AN_NoHash | AN_Empty | AN_NotFound | AN_Put (e : serr) | AN_Get (e : audit_err) | AN_Audit (e : audit_err).

(** An append-only log of chain heads outside the chain. *)
Class TransparencyLog := {
  PutAnchor : Anchor -> prog string (result anchor_err string);
  GetAnchor : string -> prog string (result anchor_err Anchor);
  LatestAnchor : prog string (result anchor_err (option Anchor))
}.

Definition with_schema (a : Anchor) : Anchor :=
  {| an_Schema := if String.eqb (an_Schema a) "" then AnchorSchema else an_Schema a; an_Shard := an_Shard a;
     an_ChainHeadHash := an_ChainHeadHash a; an_HeadSequence := an_HeadSequence a; an_AnchoredAt := an_AnchoredAt a;
     an_PublisherID := an_PublisherID a; an_LogID := an_LogID a |}.

Definition with_log_id (a : Anchor) (id : string) : Anchor :=
  {| an_Schema := an_Schema a; an_Shard := an_Shard a; an_ChainHeadHash := an_ChainHeadHash a;
     an_HeadSequence := an_HeadSequence a; an_AnchoredAt := an_AnchoredAt a; an_PublisherID := an_PublisherID a; an_LogID := id |}.

Section storage_log.
Context `{EJ : EventJSON} `{CA : Codec string Anchor}.
Context (sha256hex : string -> string) (worm : option WORMPolicy).

(** The first 16 bytes of a digest, in hexadecimal. *)
Definition deriveAnchorID (a : Anchor) : string :=
  stake 32 (sha256hex (an_Schema a +:+ String nul (an_ChainHeadHash a +:+ String nul (hexSeq (an_HeadSequence a) +:+
    (if String.eqb (an_Shard a) "" then "" else String nul (an_Shard a)))))).

Definition anchor_key (id : string) : string := AnchorPrefix +:+ id +:+ ".json".

Definition exists_ (key : string) : prog string bool :=
  let* r := sGet key in Ret (match r with Ok _ => true | Err _ => false end).

Definition put_anchor (a : Anchor) : prog string (result anchor_err string) :=
  let a := with_schema a in
  if String.eqb (an_ChainHeadHash a) "" then Ret (Err AN_NoHash)
  else
    let logID := deriveAnchorID a in
    let body := encode (with_log_id a logID) in
    let* t := if WORM_IsZero worm then Ret Time.zero else now in
    let* r := sPut (anchor_key logID) body (event_opts worm body t) in
    match r with
    | Ok _ => Ret (Ok logID)
    | Err e =>
        let* there := exists_ (anchor_key logID) in
        Ret (if there : bool then Ok logID else Err (AN_Put e))
    end.

Definition get_anchor (logID : string) : prog string (result anchor_err Anchor) :=
  let* r := sGet (anchor_key logID) in
  Ret (match r with
       | Err e => Err (AN_Get (AE_Store e))
       | Ok body =>
           match ReadAllLimited body MaxMetadataBytes with
           | None => Err (AN_Get AE_TooLarge)
           | Some b => match decode b with Some a => Ok a | None => Err (AN_Get AE_Decode) end
           end
       end).

(** Anchors that cannot be read are passed over. *)
Definition latest_anchor : prog string (result anchor_err (option Anchor)) :=
  let* l := sList AnchorPrefix in
  match l with
  | (_, Some e) => Ret (Err (AN_Get (AE_Store e)))
  | (infos, None) =>
      let keys := filter (fun k => HasSuffix k ".json" = true) (map Key infos) in
      let* r := for_ (R := Empty_set) keys None (fun k best =>
        let* a := get_anchor (TrimSuffix (TrimPrefix k AnchorPrefix) ".json") in
        Ret (inl (match a, best with
                  | Err _, _ => best
                  | Ok a, None => Some a
                  | Ok a, Some b => if an_HeadSequence b <? an_HeadSequence a then Some a else best
                  end))) in
      Ret (match r with inl best => Ok best | inr v => match v with end end)
  end.

#[export] Instance StorageBackedLog : TransparencyLog :=
  {| PutAnchor := put_anchor; GetAnchor := get_anchor; LatestAnchor := latest_anchor |}.
End storage_log.

(** Why an anchor does not verify. *)
Inductive mismatch :=
| ChainShorter (local anchored : Z) | EventMissing (anchored local : Z) | EventRewritten (seq : Z) | OtherEvent (seq : Z).

Record VerifyAnchorResult := {
  va_ChainHeadHash : string;
  va_HeadSequence : Z;
  va_LocalHeadHash : string;
  va_LocalHeadSequence : Z;
  va_Mismatch : option mismatch;
  va_OK : bool
}.

Section anchors.
Context `{EJ : EventJSON} `{TL : TransparencyLog}.
Context (sha256hex : string -> string).

Definition anchorShard (publisherID shard : string) : prog string (result anchor_err (option Anchor)) :=
  let* h := head shard in
  match h with
  | Err e => Ret (Err (AN_Audit e))
  | Ok None => Ret (Ok None)
  | Ok (Some ev) =>
      let* t := now in
      let a := {| an_Schema := AnchorSchema; an_Shard := shard; an_ChainHeadHash := ev_Hash ev; an_HeadSequence := ev_Sequence ev;
                  an_AnchoredAt := t; an_PublisherID := publisherID; an_LogID := "" |} in
      let* r := PutAnchor a in
      Ret (match r with Err e => Err e | Ok id => Ok (Some (with_log_id a id)) end)
  end.

Definition AnchorGlobal (publisherID : string) : prog string (result anchor_err Anchor) :=
  let* r := anchorShard publisherID "" in
  Ret (match r with Err e => Err e | Ok None => Err AN_Empty | Ok (Some a) => Ok a end).

(** The anchors published, with the error that ended it. *)
Definition AnchorAll (publisherID : string) : prog string (list Anchor * option anchor_err) :=
  let* shards := listShards in
  match shards with
  | Err e => Ret ([], Some (AN_Audit (AE_Store e)))
  | Ok shards =>
      let* r := for_ shards [] (fun shard out =>
        let* a := anchorShard publisherID shard in
        Ret (match a with
             | Err e => inr (out, e)
             | Ok None => inl out
             | Ok (Some a) => inl (out ++ [a])
             end)) in
      Ret (match r with inl out => (out, None) | inr (out, e) => (out, Some e) end)
  end.

(** The anchored number's key, where a listed key has it, and the highest number listed. *)
Definition note_anchored (seq : Z) (k : string) (st : option string * Z) : option string * Z :=
  match seqFromEventKey k with
  | None => st
  | Some n => (if n =? seq then Some k else st.1, if st.2 <? n then n else st.2)
  end.

Definition compare_anchor (a : Anchor) (ev : Event) : option mismatch :=
  let recomputed := ComputeHash sha256hex ev in
  if negb (String.eqb recomputed (ev_Hash ev)) then Some (EventRewritten (an_HeadSequence a))
  else if negb (String.eqb recomputed (an_ChainHeadHash a)) then Some (OtherEvent (an_HeadSequence a))
  else None.

Definition VerifyAnchor (logID : string) : prog string (result anchor_err VerifyAnchorResult) :=
  let* r := GetAnchor logID in
  match r with
  | Err e => Ret (Err e)
  | Ok a =>
      let answer := fun local localSeq m =>
        {| va_ChainHeadHash := an_ChainHeadHash a; va_HeadSequence := an_HeadSequence a; va_LocalHeadHash := local;
           va_LocalHeadSequence := localSeq; va_Mismatch := m; va_OK := match m with None => true | Some _ => false end |} in
      let* l := eachShardEventKey (an_Shard a) (None, -1) (fun k st => Ret (inl (note_anchored (an_HeadSequence a) k st))) in
      match l with
      | Err e => Ret (Err (AN_Audit e))
      | Ok (None, maxSeq) =>
          Ret (Ok (answer "" 0 (Some (if maxSeq <? an_HeadSequence a then ChainShorter maxSeq (an_HeadSequence a)
                                      else EventMissing (an_HeadSequence a) maxSeq))))
      | Ok (Some key, _) =>
          let* ev := getByKey key in
          Ret (match ev with
               | Err e => Err (AN_Audit e)
               | Ok ev => Ok (answer (ev_Hash ev) (ev_Sequence ev) (compare_anchor a ev))
               end)
      end
  end.
End anchors.

(** ** What a verified chain is *)

Definition upto_nul (s : string) : string := match CutByte s nul with Some (a, _) => a | None => s end.

(** Each event carries the hash of the one before it, the first one [prev]. *)
Fixpoint chained (prev : string) (evs : list Event) : Prop :=
  match evs with
  | [] => True
  | ev :: evs => upto_nul (ev_PrevHash ev) = prev /\ chained (ev_Hash ev) evs
  end.

Lemma chained_app prev l1 l2 : chained prev (l1 ++ l2) <-> chained prev l1 /\ chained (default prev (ev_Hash <$> last l1)) l2.
Proof.
  revert prev. induction l1 as [|e l1 IH]; intros prev; cbn [chained app]; [cbn; tauto|].
  rewrite IH. destruct l1 as [|e' l1]; [cbn; tauto|]. rewrite last_cons_cons.
  destruct (last (e' :: l1)) eqn:E; [cbn [fmap option_fmap option_map default]; tauto|by apply last_None in E].
Qed.

Section valid.
Context `{EJ : EventJSON}.
Context (sha256hex : string -> string).
Local Abbreviation store := (gmap string (object string)).

(** The event's own hash is right, and the shard it is filed under is its own. *)
Definition in_place (sh : string) (ev : Event) : Prop := ComputeHash sha256hex ev = ev_Hash ev /\ shardKeyFor ev = sh.

(** The pointer does not point past the last event, nor to another event of its number. *)
Definition tail_ok (hp : option HeadPointer) (ev : Event) : Prop :=
  exists h, hp = Some h /\ hp_Sequence h <= ev_Sequence ev /\ (hp_Sequence h = ev_Sequence ev -> hp_Hash h = ev_Hash ev).

Definition chain_valid (sh : string) (hp : option HeadPointer) (evs : list Event) : Prop :=
  Forall (in_place sh) evs /\ chained GenesisHash evs /\ (forall ev, last evs = Some ev -> tail_ok hp ev).

(** What the store has for a shard: its events, in some order, and its pointer. *)
Definition readable (s : store) (k : string) (ev : Event) : Prop :=
  exists o, s !! k = Some o /\ Z.of_nat (String.length (ob_body o)) <= MaxMetadataBytes /\ decode (ob_body o) = Some ev.

Definition event_infos (s : store) (sh : string) : list ObjectInfo :=
  filter (fun i => isShardEventKey sh (Key i) (headKeyForShard sh) = true) (listing (shardEventDir sh) s).

Definition events_of (s : store) (sh : string) (evs : list Event) : Prop :=
  exists infos, infos ≡ₚ event_infos s sh /\ Forall2 (fun i ev => readable s (Key i) ev) infos evs.

Definition pointer (s : store) (sh : string) : option HeadPointer :=
  match s !! headKeyForShard sh with
  | Some o =>
      match decode (ob_body o) with
      | Some hp => if String.eqb (hp_Schema hp) HeadPointerSchema then Some hp else None
      | None => None
      end
  | None => None
  end.

Definition by_sequence (a b : Event) : bool := ev_Sequence a <? ev_Sequence b.

(** ** Tamper evidence *)

Hypothesis no_collision : forall a b, ComputeHash sha256hex a = ComputeHash sha256hex b -> canonicalForHash a = canonicalForHash b.
Hypothesis no_genesis : forall a, ComputeHash sha256hex a <> GenesisHash.

Lemma hash_determines sh sh' a b : in_place sh a -> in_place sh' b -> ev_Hash a = ev_Hash b -> a = b.
Proof.
  intros [Ha _] [Hb _] He. pose proof He as E. rewrite <- Ha, <- Hb in E. apply no_collision, marshal_inj in E. unfold clear_hash, with_link in E.
  injection E as H1 H2 H3 H4 H5 H6 H7 H8 H9 H10. destruct a, b; cbn in *. congruence.
Qed.

(** Two chains that agree in one hash agree in everything up to it. *)
Lemma same_history sh sh' : forall p1 p2 e1 e2,
  Forall (in_place sh) (p1 ++ [e1]) -> Forall (in_place sh') (p2 ++ [e2]) ->
  chained GenesisHash (p1 ++ [e1]) -> chained GenesisHash (p2 ++ [e2]) ->
  ev_Hash e1 = ev_Hash e2 -> p1 ++ [e1] = p2 ++ [e2].
Proof.
  induction p1 as [|d1 p1 IH] using rev_ind; intros p2 e1 e2 Hp1 Hp2 C1 C2 He;
    (assert (e1 = e2) as <- by (apply (hash_determines sh sh'); [apply Forall_app in Hp1 as [_ H]|apply Forall_app in Hp2 as [_ H]|done]; by inversion H));
    apply Forall_app in Hp1 as [Hp1 _]; apply Forall_app in Hp2 as [Hp2 _];
    apply chained_app in C1 as [C1 [L1 _]]; apply chained_app in C2 as [C2 [L2 _]].
  - destruct p2 as [|d2 p2 _] using rev_ind; [done|]. rewrite L1, last_snoc in L2. cbn in L2.
    apply Forall_app in Hp2 as [_ H]. inversion H as [|x l [Hd _]]; subst. exfalso. apply (no_genesis d2). by rewrite Hd.
  - destruct p2 as [|d2 p2 _] using rev_ind.
    + rewrite L2, last_snoc in L1. cbn in L1. apply Forall_app in Hp1 as [_ H]. inversion H as [|x l [Hd _]]; subst.
      exfalso. apply (no_genesis d1). by rewrite Hd.
    + f_equal. apply IH; [done..|]. rewrite last_snoc in L1, L2. cbn in L1, L2. congruence.
Qed.
End valid.

(** ** What the verifier computes *)

Lemma addFinding_found l id : nil_list (addFinding l id).1 = false.
Proof.
  unfold addFinding, maxVerifyFindings. destruct (10000 <=? Z.of_nat (length l)) eqn:E; cbn; [|by destruct l].
  destruct l; [by cbn in E|done].
Qed.

Lemma clean_mismatch r id : clean (add_mismatch r id) = false.
Proof. unfold add_mismatch, clean. pose proof (addFinding_found (vr_HashMismatches r) id) as H. by destruct (addFinding _ id) as [l t]; cbn in *; rewrite H. Qed.

Lemma clean_break r id : clean (add_break r id) = false.
Proof.
  unfold add_break, clean. pose proof (addFinding_found (vr_ChainBreaks r) id) as H.
  destruct (addFinding _ id) as [l t]; cbn in *; rewrite H. by rewrite andb_false_r.
Qed.

Lemma clean_misfiled r id : clean (add_misfiled r id) = false.
Proof.
  unfold add_misfiled, clean. pose proof (addFinding_found (vr_Misfiled r) id) as H.
  destruct (addFinding _ id) as [l t]; cbn in *; rewrite H. by rewrite !andb_false_r.
Qed.

Lemma clean_truncated r t : clean (add_truncated r t) = false.
Proof. unfold clean. cbn. destruct (vr_Truncated r); cbn; by rewrite !andb_false_r. Qed.

Lemma clean_missing_head r sh : clean (add_missing_head r sh) = false.
Proof. unfold clean. cbn. destruct (vr_HeadPointerMissing r); cbn; by rewrite !andb_false_r. Qed.

Lemma CutByte_Some_app s t c a b : CutByte s c = Some (a, b) -> CutByte (s +:+ t) c = Some (a, b +:+ t).
Proof.
  revert a. induction s as [|d s IH]; intros a; cbn; [done|]. destruct (Ascii.eqb d c); [by intros [= <- <-]|].
  destruct (CutByte s c) as [[x y]|]; [|done]. intros [= <- <-]. by rewrite (IH x).
Qed.

Section computed.
Context `{EJ : EventJSON}.
Context (sha256hex : string -> string) (ties : list (Z * string) -> list (Z * string)).
Local Abbreviation store := (gmap string (object string)).
Hypothesis ties_perm : forall l, ties l ≡ₚ l.
(** A digest in hexadecimal has no zero byte. *)
Hypothesis hash_no_nul : forall s, CutByte (sha256hex s) nul = None.

Definition link_of (ev : Event) : Z * string := (ev_Sequence ev, encodeLink (ev_Hash ev) (ev_PrevHash ev) (ev_ID ev)).

Lemma decode_encodeLink h p i : CutByte h nul = None -> (decodeLink (encodeLink h p i)).1 = (h, upto_nul p).
Proof.
  intros Hh. unfold decodeLink, encodeLink. rewrite CutByte_None_app by done. cbn [CutByte]. rewrite Ascii.eqb_refl.
  rewrite string_app_nil_r. unfold upto_nul. destruct (CutByte p nul) as [[a b]|] eqn:E.
  - apply CutByte_Some_app with (t := String nul i) in E. by rewrite E.
  - rewrite CutByte_None_app by done. cbn [CutByte]. rewrite Ascii.eqb_refl. by rewrite string_app_nil_r.
Qed.

Lemma note_events_spec sh evs st :
  (foldl (fun st ev => note_event sha256hex sh ev st) st evs).2 = st.2 ++ map link_of evs /\
  (clean (foldl (fun st ev => note_event sha256hex sh ev st) st evs).1 = true <->
   clean st.1 = true /\ Forall (in_place sha256hex sh) evs).
Proof.
  revert st. induction evs as [|ev evs IH]; intros st; cbn [foldl map].
  { rewrite app_nil_r. split; [done|]. split; [done|by intros []]. }
  destruct (IH (note_event sha256hex sh ev st)) as [-> H]. rewrite H. clear H IH. change ((note_event sha256hex sh ev st).2) with (st.2 ++ [link_of ev]). split; [by rewrite <- app_assoc|].
  rewrite Forall_cons. unfold note_event, in_place. cbn [fst snd].
  destruct (String.eqb_spec (ComputeHash sha256hex ev) (ev_Hash ev)) as [E|E], (String.eqb_spec (shardKeyFor ev) sh) as [E'|E'];
    rewrite ?clean_mismatch, ?clean_misfiled; [|naive_solver..].
  change (clean (count_event st.1)) with (clean st.1). naive_solver.
Qed.

Lemma walk_mono w ls : clean (wk_res (foldl walk_link w ls)) = true -> clean (wk_res w) = true.
Proof.
  revert w. induction ls as [|l ls IH]; intros w; cbn [foldl]; [done|]. intros H. apply IH in H. unfold walk_link in H.
  destruct (decodeLink l.2) as [[h p] i]. cbn in H. destruct (String.eqb p (wk_prev w)); [done|]. by rewrite clean_break in H.
Qed.

Lemma walk_spec sh evs w : Forall (in_place sha256hex sh) evs ->
  (clean (wk_res (foldl walk_link w (map link_of evs))) = true <-> clean (wk_res w) = true /\ chained (wk_prev w) evs) /\
  (forall ev, last evs = Some ev ->
    wk_seq (foldl walk_link w (map link_of evs)) = ev_Sequence ev /\ wk_hash (foldl walk_link w (map link_of evs)) = ev_Hash ev).
Proof.
  intros Hp. revert w. induction evs as [|ev evs IH]; intros w; cbn [map foldl chained]; [naive_solver|].
  apply Forall_cons in Hp as [[Hh _] Hp]. specialize (IH Hp).
  assert (CutByte (ev_Hash ev) nul = None) as Hn by (rewrite <- Hh; apply hash_no_nul).
  pose proof (decode_encodeLink (ev_Hash ev) (ev_PrevHash ev) (ev_ID ev) Hn) as Hd. set (w1 := walk_link w _).
  assert (wk_prev w1 = ev_Hash ev /\ wk_seq w1 = ev_Sequence ev /\ wk_hash w1 = ev_Hash ev /\
    (clean (wk_res w1) = true <-> clean (wk_res w) = true /\ upto_nul (ev_PrevHash ev) = wk_prev w)) as (E1 & E2 & E3 & E4).
  { unfold w1, walk_link. cbn [fst snd]. destruct (decodeLink _) as [[h p] i]. cbn in Hd. injection Hd as -> ->. cbn.
    split_and!; try done. destruct (String.eqb_spec (upto_nul (ev_PrevHash ev)) (wk_prev w)); [naive_solver|]. rewrite clean_break. naive_solver. }
  destruct (IH w1) as [H1 H2]. rewrite E1, E4 in H1. split; [rewrite H1; tauto|].
  intros e He. destruct evs as [|ev' evs]; [|apply H2; by rewrite last_cons_cons in He].
  cbn in He. injection He as <-. done.
Qed.

(** The walk goes over the events in the order of their numbers. *)
Lemma walk_links_order evs : exists evs', evs' ≡ₚ evs /\ ordered by_sequence evs' /\ stable_sort link_less (ties (map link_of evs)) = map link_of evs'.
Proof.
  assert (stable_sort link_less (ties (map link_of evs)) ≡ₚ map link_of evs) as Hp by by rewrite stable_sort_perm, ties_perm.
  pose proof Hp as Hp'. apply Permutation_map_inv in Hp' as (evs' & He & Hpe). exists evs'. split; [by symmetry|]. split; [|done].
  assert (ordered link_less (stable_sort link_less (ties (map link_of evs)))) as Ho.
  { apply stable_sort_ordered; unfold link_less; intros; lia. }
  rewrite He in Ho. clear -Ho. unfold ordered in *. induction evs' as [|e l IH]; [constructor|].
  cbn in Ho. inversion Ho as [|x y Hl Hf]; subst. constructor; [auto|]. by apply Forall_map in Hf.
Qed.

(** The verdict on the events of a shard, given its pointer. *)
Definition shard_verdict (sh : string) (hp : option HeadPointer) (res : VerifyResult) (evs : list Event) : VerifyResult :=
  let st := foldl (fun st ev => note_event sha256hex sh ev st) (res, []) evs in
  let w := walk_links ties st.2 st.1 in
  if nil_list st.2 then wk_res w else check_tail sh hp w.

Lemma shard_verdict_spec sh hp res evs :
  exists evs', evs' ≡ₚ evs /\ ordered by_sequence evs' /\
    (clean (shard_verdict sh hp res evs) = true <-> clean res = true /\ chain_valid sha256hex sh hp evs').
Proof.
  destruct (walk_links_order evs) as (evs' & Hp & Ho & He). exists evs'. split; [done|]. split; [done|].
  destruct (note_events_spec sh evs (res, [])) as [E1 E2]. unfold shard_verdict, chain_valid. rewrite E1. cbn [fst snd app] in E2 |- *.
  set (r := (foldl _ _ evs).1) in *. unfold walk_links. rewrite He. set (w0 := {| wk_prev := GenesisHash |}).
  assert (Forall (in_place sha256hex sh) evs' <-> Forall (in_place sha256hex sh) evs) as Hf by by rewrite Hp.
  destruct (decide (Forall (in_place sha256hex sh) evs')) as [Hin|Hin].
  2:{ assert (clean r = false) as Hr by (apply not_true_is_false; tauto).
      assert (clean (wk_res (foldl walk_link w0 (map link_of evs'))) = false) as Hw.
      { apply not_true_is_false. intros H. apply walk_mono in H. cbn in H. congruence. }
      split; [|tauto]. intros H. exfalso. unfold check_tail in H. destruct (nil_list _); [congruence|]. destruct hp as [h|].
      - repeat case_match; rewrite ?clean_truncated in H; congruence.
      - by rewrite clean_missing_head in H. }
  destruct (walk_spec sh evs' w0 Hin) as [H1 H2]. set (w := foldl walk_link w0 _) in *. cbn [wk_prev wk_res w0] in H1.
  destruct (last evs') as [ev|] eqn:El.
  - destruct (H2 ev eq_refl) as [Hs Hh]. assert (nil_list (map link_of evs) = false) as ->.
    { destruct evs as [|e l]; [|done]. apply Permutation_nil_r in Hp. by subst. }
    assert (clean (check_tail sh hp w) = true <-> clean (wk_res w) = true /\ tail_ok hp ev) as Ht.
    { unfold check_tail, tail_ok. rewrite Hs, Hh. destruct hp as [h|]; [|rewrite clean_missing_head; naive_solver].
      destruct (Z.ltb_spec (ev_Sequence ev) (hp_Sequence h)); [rewrite clean_truncated; split; [done|intros (_ & h' & [= <-] & ? & _); lia]|].
      destruct (Z.eqb_spec (hp_Sequence h) (ev_Sequence ev)) as [E|E]; cbn [andb].
      - destruct (String.eqb_spec (hp_Hash h) (ev_Hash ev)) as [Eh|Eh]; cbn [negb].
        + split; [|tauto]. intros Hc. split; [done|]. exists h. split_and!; [done|lia|done].
        + rewrite clean_truncated. split; [done|]. intros (_ & h' & [= <-] & _ & Hx). by destruct Eh; auto.
      - split; [|tauto]. intros Hc. split; [done|]. exists h. split_and!; [done|lia|done]. }
    rewrite Ht, H1, E2. assert ((forall e, Some ev = Some e -> tail_ok hp e) <-> tail_ok hp ev) as -> by naive_solver. tauto.
  - apply last_None in El as ->. apply Permutation_nil_l in Hp. subst evs. cbn [map nil_list]. change (clean r = true <-> clean res = true /\ Forall (in_place sha256hex sh) [] /\ True /\ (forall ev, None = Some ev -> tail_ok hp ev)).
    split; [intros H; split; [by apply E2|by split]|intros [H _]; by apply E2].
Qed.
End computed.

(** ** The verifier on a backend that does not fail *)

Section programs.
Context `{EJ : EventJSON}.
Context (sha256hex : string -> string) (ties : list (Z * string) -> list (Z * string)).
Local Abbreviation store := (gmap string (object string)).

(** A key whose object is no event, or too large to be read. *)
Definition unreadable (s : store) (k : string) : Prop := forall ev, readable s k ev -> False.

Lemma getByKey_healthy k (s : store) : wp healthy (getByKey k) (fun r s' => s' = s /\
  match r with Ok ev => readable s k ev | Err _ => unreadable s k end) s.
Proof.
  unfold getByKey. apply wp_bind, wp_get.
  - intros o Ho. split; [done|]. unfold ReadAllLimited. destruct (Z.ltb_spec MaxMetadataBytes (Z.of_nat (String.length (ob_body o)))).
    + intros ev (o' & Ho' & Hl & _). assert (o' = o) as -> by congruence. lia.
    + destruct (decode (ob_body o)) as [ev|] eqn:Hd; [by exists o|]. intros ev (o' & Ho' & _ & Hd'). congruence.
  - intros Hn. split; [done|]. intros ev (o' & Ho' & _). congruence.
  - by intros d c ? []%healthy_fault.
Qed.

Lemma readHeadPointer_healthy sh (s : store) : wp healthy (readHeadPointer sh) (fun r s' => s' = s /\
  match r with
  | Ok hp => hp = pointer s sh
  | Err _ => exists o, s !! headKeyForShard sh = Some o /\ MaxMetadataBytes < Z.of_nat (String.length (ob_body o))
  end) s.
Proof.
  unfold readHeadPointer, pointer. apply wp_bind, wp_get.
  - intros o Ho. split; [done|]. rewrite Ho. unfold ReadAllLimited.
    destruct (Z.ltb_spec MaxMetadataBytes (Z.of_nat (String.length (ob_body o)))); [by exists o|].
    destruct (decode (ob_body o)) as [hp|]; [|done]. by destruct (String.eqb _ _).
  - intros Hn. by rewrite Hn.
  - by intros d c ? []%healthy_fault.
Qed.

Lemma listed_filter sh (s : store) l : l ≡ₚ listing (shardEventDir sh) s ->
  filter (fun i => isShardEventKey sh (Key i) (headKeyForShard sh) = true) l ≡ₚ event_infos s sh.
Proof. intros H. unfold event_infos. by rewrite H. Qed.

(** A fold over the keys of a shard's events. *)
Lemma eachShardEventKey_pure {S} sh (st : S) (f : string -> S -> S) (s : store) :
  wp healthy (eachShardEventKey sh st (fun k st => Ret (inl (f k st)))) (fun r s' => s' = s /\
    exists infos, infos ≡ₚ event_infos s sh /\ r = Ok (foldl (fun st i => f (Key i) st) st infos)) s.
Proof.
  unfold eachShardEventKey. apply wp_bind, wp_list; [|by intros d c l l' ? []%healthy_fault].
  intros l Hl. cbn [fst snd]. apply wp_bind.
  apply wp_for with (I := fun pre _ st' s' => s' = s /\
    st' = foldl (fun st i => f (Key i) st) st (filter (fun i => isShardEventKey sh (Key i) (headKeyForShard sh) = true) pre)).
  - done.
  - intros pre i post st' s' _ [-> ->]. rewrite filter_app, foldl_app, filter_cons.
    destruct (isShardEventKey sh (Key i) _) eqn:E; cbn [negb wp]; [rewrite decide_True by done|rewrite decide_False by done]; done.
  - intros st' s' [-> ->]. cbn. split; [done|]. eexists. split; [by apply listed_filter|done].
Qed.

(** Reading every event of a shard. *)
Lemma read_events {S} sh (st : S) (f : Event -> S -> S) (s : store) :
  wp healthy (eachShardEventKey sh st (fun k st =>
      let* ev := getByKey k in match ev with Err e => Ret (inr e) | Ok ev => Ret (inl (f ev st)) end))
    (fun r s' => s' = s /\ match r with
      | Ok st' => exists evs, events_of s sh evs /\ st' = foldl (fun st ev => f ev st) st evs
      | Err _ => exists i, i ∈ event_infos s sh /\ unreadable s (Key i)
      end) s.
Proof.
  unfold eachShardEventKey. apply wp_bind, wp_list; [|by intros d c l l' ? []%healthy_fault].
  intros l Hl. cbn [fst snd]. apply wp_bind. set (P := fun i => isShardEventKey sh (Key i) (headKeyForShard sh) = true).
  apply wp_for with (I := fun pre _ st' s' => s' = s /\ exists evs,
    Forall2 (fun i ev => readable s (Key i) ev) (filter P pre) evs /\ st' = foldl (fun st ev => f ev st) st evs).
  - split; [done|]. by exists [].
  - intros pre i post st' s' Hi (-> & evs & Hf & ->). rewrite filter_app, filter_cons.
    destruct (decide (P i)) as [E|E]; unfold P in E; [rewrite E|apply not_true_is_false in E; rewrite E]; cbn [negb wp].
    2:{ split; [done|]. exists evs. by rewrite app_nil_r. }
    apply wp_bind. eapply wp_mono; [|apply getByKey_healthy]. intros [ev|e] s' [-> Hr]; cbn [wp].
    + split; [done|]. exists (evs ++ [ev]). rewrite foldl_app. split; [|done].
      apply Forall2_app; [done|]. by repeat constructor.
    + cbn. split; [done|]. exists i. split; [|done]. rewrite <- (listed_filter sh s l Hl), list_elem_of_filter. split; [done|].
      rewrite Hi. set_solver.
  - intros st' s' (-> & evs & Hf & ->). cbn. split; [done|]. exists evs. split; [|done].
    eexists. split; [by apply listed_filter|done].
Qed.

Hypothesis ties_perm : forall l, ties l ≡ₚ l.
Hypothesis hash_no_nul : forall s, CutByte (sha256hex s) nul = None.

(** What keeps a shard from being verified at all. *)
Definition blocked (s : store) (sh : string) : Prop :=
  (exists i, i ∈ event_infos s sh /\ unreadable s (Key i)) \/
  (exists o, s !! headKeyForShard sh = Some o /\ MaxMetadataBytes < Z.of_nat (String.length (ob_body o))).

Lemma verifyShard_healthy sh res (s : store) : wp healthy (verifyShard sha256hex ties sh res) (fun r s' => s' = s /\
  match r with
  | Ok res' => exists evs, events_of s sh evs /\ ordered by_sequence evs /\
      (clean res' = true <-> clean res = true /\ chain_valid sha256hex sh (pointer s sh) evs)
  | Err _ => blocked s sh
  end) s.
Proof.
  unfold verifyShard. apply wp_bind. eapply wp_mono; [|apply (read_events sh (res, []) (note_event sha256hex sh))].
  intros [st|e] s' [-> Hr]; [|by split; [|left]]. destruct Hr as (evs & Hevs & ->).
  destruct (shard_verdict_spec sha256hex ties ties_perm hash_no_nul sh (pointer s sh) res evs) as (evs' & Hp & Ho & Hv).
  assert (events_of s sh evs') as Hevs'.
  { destruct Hevs as (infos & Hi & Hf). apply Forall2_flip in Hf.
    destruct (Permutation_Forall2 (symmetry Hp) Hf) as (infos' & Hi' & Hf'). apply Forall2_flip in Hf'.
    exists infos'. split; [by rewrite <- Hi'|done]. }
  unfold shard_verdict in Hv. destruct (foldl _ _ evs) as [r links]. cbn [fst snd] in Hv.
  destruct (nil_list links); [split; [done|]; by exists evs'|].
  apply wp_bind. eapply wp_mono; [|apply readHeadPointer_healthy]. intros [hp|e] s' [-> Hhp]; cbn [wp].
  - split; [done|]. subst hp. by exists evs'.
  - split; [done|]. by right.
Qed.

(** The shards there are: the global chain, and every directory under the shards' root. *)
Definition is_shard (s : store) (sh : string) : Prop :=
  sh = "" \/ exists k, is_Some (s !! k) /\ HasPrefix k shardsRoot = true /\ shard_of k = Some sh.

Lemma listShards_healthy (s : store) : wp healthy listShards (fun r s' => s' = s /\
  exists shards, r = Ok shards /\ forall sh, sh ∈ shards <-> is_shard s sh) s.
Proof.
  unfold listShards. apply wp_bind, wp_list; [|by intros d c l l' ? []%healthy_fault].
  intros l Hl. cbn [wp]. split; [done|]. eexists. split; [done|]. intros sh.
  unfold sort_strings. rewrite elem_of_stable_sort, elem_of_cons, elem_of_elements, elem_of_list_to_set, list_elem_of_omap.
  unfold is_shard. apply or_iff_compat_l. split.
  - intros (i & Hi & Hs). rewrite Hl in Hi. apply elem_of_listing in Hi as (o & Ho & _ & Hp). exists (Key i). by rewrite Ho.
  - intros (k & [o Ho] & Hp & Hs). exists (info_of k o). split; [|done]. rewrite Hl. apply elem_of_listing. by exists o.
Qed.
End programs.

(** ** Logs that were only appended to *)

Section appended_logs.
Context `{EJ : EventJSON}.
Context (sha256hex : string -> string).
Local Abbreviation store := (gmap string (object string)).
Hypothesis hash_no_nul : forall s, CutByte (sha256hex s) nul = None.

(** No number below zero was taken: none of the 2^63 of an [int64] above was used up. *)
Definition from_zero (s : store) : Prop := forall sh n o, noslash sh -> int64 n -> s !! slot sh n = Some o -> 0 <= n.

Lemma upto_nul_hash s sh n ev : linked_event sha256hex s sh n ev -> upto_nul (ev_Hash ev) = ev_Hash ev.
Proof. intros (_ & _ & -> & _). unfold upto_nul, ComputeHash. by rewrite hash_no_nul. Qed.

Lemma linked_in_place s sh n ev : linked_event sha256hex s sh n ev -> in_place sha256hex sh ev.
Proof. by intros (_ & H1 & H2 & _). Qed.

Lemma slot_under sh n : noslash sh -> HasPrefix (slot sh n) (shardEventDir sh) = true /\
  isShardEventKey sh (slot sh n) (headKeyForShard sh) = true.
Proof.
  intros Hsh. rewrite slot_eq. split; [apply HasPrefix_app|]. unfold isShardEventKey.
  assert (HasSuffix (shardEventDir sh +:+ (hexSeq n +:+ ".json")) ".json" = true) as ->
    by (rewrite <- string_app_assoc; apply HasSuffix_app).
  rewrite <- slot_eq. destruct (String.eqb_spec (slot sh n) (headKeyForShard sh)) as [E|_]; [by apply slot_not_head in E|].
  cbn [negb orb]. destruct (String.eqb_spec sh "") as [->|]; [|done]. cbn [andb].
  assert (forall q, CutByte q slash <> None -> HasPrefix (slot "" n) ("audit/" +:+ q) = false) as Hq.
  { intros q Hq. apply not_true_is_false. intros [t Ht]%HasPrefix_inv. rewrite slot_eq in Ht.
    change (shardEventDir "") with "audit/" in Ht. rewrite string_app_assoc in Ht. apply string_app_inj_l in Ht.
    pose proof (slot_base n) as Hb. unfold noslash in Hb. rewrite Ht in Hb. destruct (CutByte q slash) as [[x y]|] eqn:E; [|done].
    by rewrite (CutByte_Some_app _ _ _ _ _ E) in Hb. }
  pose proof (Hq "shards/" ltac:(done)) as E1. pose proof (Hq "anchors/" ltac:(done)) as E2. cbn [String.append] in E1, E2.
  unfold shardsRoot, AnchorPrefix. by rewrite E1, E2.
Qed.

(** The events of a shard are those at its numbers, each once. *)
Lemma events_at_slots s sh evs : sound_log sha256hex s -> noslash sh -> events_of s sh evs ->
  NoDup (map ev_Sequence evs) /\
  (forall ev, ev ∈ evs -> int64 (ev_Sequence ev) /\ at_slot s sh (ev_Sequence ev) ev) /\
  (forall n ev, int64 n -> at_slot s sh n ev -> ev ∈ evs).
Proof.
  intros Hs Hsh (infos & Hi & Hf).
  assert (forall i, i ∈ infos -> exists n, int64 n /\ Key i = slot sh n) as Hkey.
  { intros i. rewrite Hi. unfold event_infos. rewrite list_elem_of_filter, elem_of_listing. intros (He & o & Ho & _ & Hp).
    apply (so_keys _ _ Hs); [done|by rewrite Ho|done..]. }
  assert (forall i ev, i ∈ infos -> readable s (Key i) ev -> Key i = slot sh (ev_Sequence ev) /\ int64 (ev_Sequence ev) /\ at_slot s sh (ev_Sequence ev) ev) as Hev.
  { intros i ev Hin (o & Ho & _ & Hd). destruct (Hkey i Hin) as (n & Hn & E). rewrite E in Ho.
    assert (at_slot s sh n ev) as Ha by by exists o. destruct (sound_slot _ s sh n ev Hs Hsh Hn Ha) as [Hq _]. by rewrite E, Hq. }
  split_and!.
  - assert (NoDup (map Key infos)) as Hnd.
    { rewrite Hi. unfold event_infos. eapply sublist_NoDup; [apply (listing_keys_NoDup (shardEventDir sh) s)|].
      apply fmap_sublist, sublist_filter. }
    clear -Hf Hnd Hev. induction Hf as [|i ev infos evs Hr Hf IH]; cbn [map] in *; [constructor|].
    apply NoDup_cons in Hnd as [Hni Hnd]. apply NoDup_cons. split; [|apply IH; [intros; apply Hev; [by right|done]|done]].
    intros Hin. apply list_elem_of_fmap in Hin as (ev' & E & Hin). apply Hni.
    apply list_elem_of_lookup in Hin as [j Hj]. destruct (Forall2_lookup_r _ _ _ _ _ Hf Hj) as (i' & Hi' & Hr').
    apply list_elem_of_lookup_2 in Hi'. apply list_elem_of_fmap. exists i'. split; [|done].
    destruct (Hev i ev ltac:(left) Hr) as [-> _]. destruct (Hev i' ev' ltac:(by right) Hr') as [-> _]. by rewrite E.
  - intros ev Hin. apply list_elem_of_lookup in Hin as [j Hj]. destruct (Forall2_lookup_r _ _ _ _ _ Hf Hj) as (i & Hj' & Hr).
    apply list_elem_of_lookup_2 in Hj'. by destruct (Hev i ev Hj' Hr) as (_ & ? & ?).
  - intros n ev Hn (o & Ho & Hd). destruct (slot_under sh n Hsh) as [Hp He].
    assert (info_of (slot sh n) o ∈ infos) as Hin.
    { rewrite Hi. unfold event_infos. rewrite list_elem_of_filter, elem_of_listing. split; [done|]. by exists o. }
    apply list_elem_of_lookup in Hin as [j Hj]. destruct (Forall2_lookup_l _ _ _ _ _ Hf Hj) as (ev' & Hj' & o' & Ho' & _ & Hd').
    cbn in Ho'. assert (ev' = ev) as <- by congruence. by apply list_elem_of_lookup_2 in Hj'.
Qed.

Lemma at_slot_fun (s : store) sh n a b : at_slot s sh n a -> at_slot s sh n b -> a = b.
Proof. intros (o & Ho & Hd) (o' & Ho' & Hd'). congruence. Qed.

Lemma ordered_before l1 l2 x y : ordered by_sequence (l1 ++ l2) -> NoDup (map ev_Sequence (l1 ++ l2)) ->
  x ∈ l1 -> y ∈ l2 -> ev_Sequence x < ev_Sequence y.
Proof.
  intros Ho Hnd Hx Hy. pose proof (StronglySorted_app_1_elem_of _ _ _ _ _ Ho Hx Hy) as Hle. unfold by_sequence in Hle. apply Z.ltb_ge in Hle.
  rewrite map_app in Hnd. apply NoDup_app in Hnd as (_ & Hnd & _).
  assert (ev_Sequence x <> ev_Sequence y); [|lia]. intros Eq. apply (Hnd (ev_Sequence x)); [apply list_elem_of_fmap; by exists x|].
  apply list_elem_of_fmap. by exists y.
Qed.

(** In the order of their numbers the events form the chain. *)
Lemma ordered_chained s sh evs : sound_log sha256hex s -> from_zero s -> noslash sh -> events_of s sh evs ->
  ordered by_sequence evs -> chained GenesisHash evs.
Proof.
  intros Hs Hz Hsh Hevs Ho. destruct (events_at_slots s sh evs Hs Hsh Hevs) as (Hnd & Hat & Hall).
  assert (forall ev, ev ∈ evs -> 0 <= ev_Sequence ev) as Hpos.
  { intros ev Hin. destruct (Hat ev Hin) as (Hn & o & Hx & _). by eapply Hz. }
  enough (forall suf pre, evs = pre ++ suf -> chained (default GenesisHash (ev_Hash <$> last pre)) suf) as H by exact (H evs [] eq_refl).
  induction suf as [|e suf IH]; intros pre E; cbn [chained]; [done|].
  assert (e ∈ evs) as Hin by (rewrite E; set_solver). destruct (Hat e Hin) as [Hn Ha].
  destruct (sound_slot _ s sh _ e Hs Hsh Hn Ha) as (_ & _ & _ & Hf). split.
  2:{ pose proof (IH (pre ++ [e]) ltac:(by rewrite <- app_assoc)) as H. by rewrite last_snoc in H. }
  assert (forall x, x ∈ pre -> ev_Sequence x < ev_Sequence e) as Hpre.
  { intros x Hx. rewrite E in Ho, Hnd. apply (ordered_before pre (e :: suf)); [done..|by left]. }
  destruct Hf as [[H0 Hg]|[Hmin|(p & Hp & Hh)]].
  - destruct pre as [|x pre]; [by rewrite Hg|]. pose proof (Hpre x ltac:(left)). pose proof (Hpos x ltac:(rewrite E; left)). lia.
  - pose proof (Hpos e Hin). unfold min_int64 in Hmin. lia.
  - assert (int64 (ev_Sequence e - 1)) as Hn1.
    { apply int64_pred; [done|]. pose proof (Hpos e Hin). unfold min_int64. lia. }
    pose proof (Hall _ p Hn1 Hp) as Hpin. pose proof (sound_slot _ s sh _ p Hs Hsh Hn1 Hp) as Hl.
    assert (ev_Sequence p = ev_Sequence e - 1) as Hq by apply Hl.
    rewrite Hh, (upto_nul_hash s sh _ p Hl). rewrite E in Hpin. apply elem_of_app in Hpin as [Hpp|Hps].
    + destruct (last pre) as [x|] eqn:Ex; [|apply last_None in Ex; subst; inversion Hpp]. cbn. f_equal.
      apply last_Some in Ex as [pre' ->]. assert (x ∈ pre' ++ [x]) as Hx by set_solver. pose proof (Hpre x Hx).
      apply elem_of_app in Hpp as [Hpp|Hpp%list_elem_of_singleton]; [|done].
      rewrite E in Ho, Hnd. rewrite <- !app_assoc in Ho, Hnd.
      pose proof (ordered_before pre' ([x] ++ e :: suf) p x Ho Hnd Hpp ltac:(by left)). lia.
    + exfalso. apply elem_of_cons in Hps as [->|Hps]; [lia|]. rewrite E in Ho, Hnd.
      replace (pre ++ e :: suf) with ((pre ++ [e]) ++ suf) in Ho, Hnd by by rewrite <- app_assoc.
      pose proof (ordered_before (pre ++ [e]) suf e p Ho Hnd ltac:(set_solver) Hps). lia.
Qed.
End appended_logs.

(** ** Properties *)

(** A shard of the store that is in order: its events, put in the order of their numbers, are filed
    where they belong, hash right and follow each other from the genesis hash up to the pointer. *)
Definition shard_valid `{EJ : EventJSON} (sha256hex : string -> string) (s : gmap string (object string)) (sh : string) (evs : list Event) : Prop :=
  events_of s sh evs /\ ordered by_sequence evs -> chain_valid sha256hex sh (pointer s sh) evs.

Lemma VerifyChain_wp `{EJ : EventJSON} sha256hex ties (s : gmap string (object string)) :
  (forall l, ties l ≡ₚ l) -> (forall x, CutByte (sha256hex x) nul = None) ->
  wp healthy (VerifyChain sha256hex ties) (fun r s' => s' = s /\ match r with
    | Ok res =>
        (vr_OK res = true -> forall sh, is_shard s sh -> exists evs, events_of s sh evs /\ ordered by_sequence evs /\
           chain_valid sha256hex sh (pointer s sh) evs) /\
        ((forall sh evs, is_shard s sh -> shard_valid sha256hex s sh evs) -> vr_OK res = true)
    | Err _ => exists sh, is_shard s sh /\ blocked s sh
    end) s.
Proof.
  intros Ht Hn. unfold VerifyChain. apply wp_bind. eapply wp_mono; [|apply listShards_healthy].
  intros r s' (-> & shards & -> & Hsh). apply wp_bind.
  apply wp_for with (I := fun pre _ res s' => s' = s /\
    (clean res = true -> forall sh, sh ∈ pre -> exists evs, events_of s sh evs /\ ordered by_sequence evs /\
       chain_valid sha256hex sh (pointer s sh) evs) /\
    ((forall sh evs, is_shard s sh -> shard_valid sha256hex s sh evs) -> clean res = true)).
  - split_and!; [done| |done]. intros _ sh Hx. by apply elem_of_nil in Hx.
  - intros pre sh post res s' E (-> & H1 & H2). assert (is_shard s sh) as His by (apply Hsh; rewrite E; set_solver).
    apply wp_bind. eapply wp_mono; [|by apply verifyShard_healthy]. intros [res'|e] s' [-> Hr]; cbn [wp].
    + destruct Hr as (evs & Hevs & Ho & Hc). split_and!; [done| |].
      * intros Hres sh' Hsh'. apply Hc in Hres as [Hres Hv]. apply elem_of_app in Hsh' as [Hp|Hp%list_elem_of_singleton]; [by apply H1|].
        subst. by exists evs.
      * intros Hall. apply Hc. split; [by apply H2|]. by apply Hall.
    + cbn. split; [done|]. by exists sh.
  - intros res s' (-> & H1 & H2). cbn. split; [done|]. split; [|done]. intros Hres sh His. apply H1; [done|by apply Hsh].
Qed.

(** C17: the verifier is exact.  On a backend that does not fail and with nobody else at work, it changes
    nothing, and fails only on an object that is no event or is too large; when it says OK, the events
    of every shard, in the order of their numbers, are filed where they belong, carry their own hash
    and the one of the event before them back to the genesis hash, and the pointer is there and points
    no further than the last event and at no other; and when all that holds it says OK. *)
Theorem VerifyChain_exact `{EJ : EventJSON} (sha256hex : string -> string) (ties : list (Z * string) -> list (Z * string))
    (ds : nat -> decision) (s : gmap string (object string)) :
  (forall l, ties l ≡ₚ l) -> (forall x, CutByte (sha256hex x) nul = None) -> (forall j, healthy (ds j)) ->
  let '(r, s') := run ds 0 (VerifyChain sha256hex ties) s in
  s' = s /\ match r with
  | Ok res =>
      (vr_OK res = true -> forall sh, is_shard s sh -> exists evs, events_of s sh evs /\ ordered by_sequence evs /\
         chain_valid sha256hex sh (pointer s sh) evs) /\
      ((forall sh evs, is_shard s sh -> shard_valid sha256hex s sh evs) -> vr_OK res = true)
  | Err _ => exists sh, is_shard s sh /\ blocked s sh
  end.
Proof.
  intros Ht Hn Hd. pose proof (wp_run _ _ _ s ds 0 Hd (VerifyChain_wp sha256hex ties s Ht Hn)) as H.
  by destruct (run ds 0 _ s) as [r s'].
Qed.

Lemma CutByte_left s c a b : CutByte s c = Some (a, b) -> CutByte a c = None.
Proof.
  revert a. induction s as [|d s IH]; intros a; cbn; [done|]. destruct (Ascii.eqb d c) eqn:E; [by intros [= <- _]|].
  destruct (CutByte s c) as [[x y]|]; [|done]. intros [= <- <-]. cbn. by rewrite E, (IH x).
Qed.

Lemma is_shard_noslash s sh : is_shard s sh -> noslash sh.
Proof.
  intros [->|(k & _ & _ & H)]; [done|]. unfold shard_of in H. destruct (CutByte _ slash) as [[a b]|] eqn:E; [|done].
  destruct (String.eqb a ""); [done|]. injection H as <-. by eapply CutByte_left.
Qed.

(** C40: what was only appended to verifies: whatever appends, at once or one after the other, have made
    of an empty log, the verifier says OK, provided every shard's pointer was written, no object is
    too large to be read, and the numbers have not run out. *)
Theorem appended_log_verifies `{EJ : EventJSON} (sha256hex : string -> string) (ties : list (Z * string) -> list (Z * string))
    (ds : nat -> decision) (s : gmap string (object string)) :
  (forall l, ties l ≡ₚ l) -> (forall x, CutByte (sha256hex x) nul = None) -> (forall j, healthy (ds j)) ->
  sound_log sha256hex s -> from_zero s ->
  (forall k o, s !! k = Some o -> Z.of_nat (String.length (ob_body o)) <= MaxMetadataBytes) ->
  (forall sh n ev, noslash sh -> int64 n -> at_slot s sh n ev -> is_Some (pointer s sh)) ->
  exists res, run ds 0 (VerifyChain sha256hex ties) s = (Ok res, s) /\ vr_OK res = true.
Proof.
  intros Ht Hn Hd Hs Hz Hsize Hptr. pose proof (wp_run _ _ _ s ds 0 Hd (VerifyChain_wp sha256hex ties s Ht Hn)) as H.
  destruct (run ds 0 _ s) as [r s']. cbn [fst snd] in H. destruct H as [-> H]. destruct r as [res|e].
  - exists res. split; [done|]. apply H. intros sh evs His [Hevs Ho]. pose proof (is_shard_noslash s sh His) as Hsh.
    destruct (events_at_slots sha256hex s sh evs Hs Hsh Hevs) as (Hnd & Hat & Hall). split_and!.
    + apply Forall_forall. intros ev Hin. destruct (Hat ev Hin) as [Hi Ha]. by eapply linked_in_place, sound_slot.
    + by eapply ordered_chained.
    + intros ev Hl. apply last_Some in Hl as [pre ->]. destruct (Hat ev ltac:(set_solver)) as [Hi Ha].
      destruct (Hptr sh _ ev Hsh Hi Ha) as [hp Hp]. exists hp. split; [done|].
      unfold pointer in Hp. destruct (s !! headKeyForShard sh) as [o|] eqn:Ho'; [|done]. destruct (decode (ob_body o)) as [h|] eqn:Hdec; [|done].
      destruct (String.eqb_spec (hp_Schema h) HeadPointerSchema) as [Hsc|]; [|done]. injection Hp as ->.
      destruct (so_head _ s Hs sh o hp Hsh Ho' Hdec Hsc) as (ev' & Hi' & _ & Ha' & Hh).
      pose proof (Hall _ ev' Hi' Ha') as Hin. destruct (sound_slot _ s sh _ ev' Hs Hsh Hi' Ha') as [Hq _].
      apply elem_of_app in Hin as [Hin|Hin%list_elem_of_singleton].
      * pose proof (ordered_before pre [ev] ev' ev Ho Hnd Hin ltac:(by left)). split; [lia|]. intros E. lia.
      * subst ev'. split; [lia|done].
  - exfalso. destruct H as (sh & His & [(i & Hi & Hu)|(o & Ho & Hl)]).
    + unfold event_infos in Hi. apply list_elem_of_filter in Hi as [He Hi]. apply elem_of_listing in Hi as (o & Ho & _ & Hp).
      pose proof (is_shard_noslash s sh His) as Hsh.
      destruct (so_keys _ s Hs sh (Key i) Hsh ltac:(by rewrite Ho) Hp He) as (n & Hn' & E). rewrite E in Ho.
      destruct (so_event _ s Hs sh n o Hsh Hn' Ho) as (ev & Hdec & _). apply (Hu ev). exists o. rewrite E. split_and!; [done| |done].
      by eapply Hsize.
    + apply Hsize in Ho. lia.
Qed.

(** The events up to one of the log form a chain. *)
Lemma prefix_chain `{EJ : EventJSON} sha256hex s sh n ev : (forall x, CutByte (sha256hex x) nul = None) ->
  sound_log sha256hex s -> from_zero s -> noslash sh -> 0 <= n -> int64 n -> at_slot s sh n ev ->
  exists p, Forall (in_place sha256hex sh) (p ++ [ev]) /\ chained GenesisHash (p ++ [ev]) /\
    forall m e, 0 <= m <= n -> at_slot s sh m e -> e ∈ p ++ [ev].
Proof.
  intros Hnul Hs Hz Hsh Hn. revert ev. pattern n. apply natlike_ind; [| |done]; clear n Hn.
  - intros ev Hi Ha. pose proof (sound_slot _ s sh _ ev Hs Hsh Hi Ha) as Hl. exists [].
    split; [by apply Forall_singleton, (linked_in_place _ s sh 0)|]. split.
    + destruct Hl as (_ & _ & _ & [[_ Hg]|[|(p & (o & Ho & _) & _)]]); [cbn [app chained]; by rewrite Hg|done|].
      apply Hz in Ho; [lia|done|unfold int64, min_int64, max_int64; lia].
    + intros m e Hm He. assert (m = 0) as -> by lia. rewrite (at_slot_fun s sh 0 e ev He Ha). by left.
  - intros n Hn IH ev Hi Ha. pose proof (sound_slot _ s sh _ ev Hs Hsh Hi Ha) as Hl.
    destruct Hl as (Hq & Hk & Hh & [[H0 _]|[Hmin|(p & Hp & Hph)]]); [lia|unfold min_int64 in Hmin; lia|].
    replace (Z.succ n - 1) with n in Hp by lia. assert (int64 n) as Hi' by (unfold int64, min_int64 in *; lia).
    destruct (IH p Hi' Hp) as (pre & Hf & Hc & Hall). exists (pre ++ [p]). split_and!.
    + apply Forall_app_2; [done|]. by apply Forall_singleton.
    + apply chained_app. split; [done|]. rewrite last_snoc. cbn. split; [|done]. rewrite Hph.
      eapply upto_nul_hash; [done|]. by apply (sound_slot sha256hex s sh n).
    + intros m e Hm He. destruct (decide (m = Z.succ n)) as [->|]; [rewrite (at_slot_fun s sh _ e ev He Ha); set_solver|].
      apply elem_of_app. left. apply (Hall m); [lia|done].
Qed.

(** ** Anchors pin the history *)

Section anchored.
Context `{EJ : EventJSON} `{TL : TransparencyLog}.
Context (sha256hex : string -> string).
Local Abbreviation store := (gmap string (object string)).

Lemma note_anchored_key seq infos st k :
  (foldl (fun st i => note_anchored seq (Key i) st) st infos).1 = Some k -> st.1 = Some k \/ exists i, i ∈ infos /\ Key i = k.
Proof.
  revert st. induction infos as [|i infos IH]; intros st; cbn [foldl]; [by left|]. intros H. apply IH in H as [H|(j & Hj & E)].
  - unfold note_anchored in H. destruct (seqFromEventKey (Key i)) as [n|]; [|by left]. cbn in H.
    destruct (n =? seq); [|by left]. injection H as H. right. exists i. split; [by left|done].
  - right. exists j. split; [by right|done].
Qed.

(** An anchor that verifies names an event of the shard with its hash. *)
Lemma VerifyAnchor_wp logID a (s : store) :
  wp healthy (GetAnchor logID) (fun r s' => s' = s /\ r = Ok a) s ->
  wp healthy (VerifyAnchor sha256hex logID) (fun r s' => s' = s /\ forall va, r = Ok va -> va_OK va = true ->
    exists i ev, i ∈ event_infos s (an_Shard a) /\ readable s (Key i) ev /\
      ComputeHash sha256hex ev = ev_Hash ev /\ ev_Hash ev = an_ChainHeadHash a) s.
Proof.
  intros Ha. unfold VerifyAnchor. apply wp_bind. eapply wp_mono; [|exact Ha]. intros r s' [-> ->]. apply wp_bind.
  eapply wp_mono; [|apply (eachShardEventKey_pure (an_Shard a) (None, -1) (note_anchored (an_HeadSequence a)))].
  intros r s' (-> & infos & Hi & ->). destruct (foldl _ _ infos) as [[k|] m] eqn:E; [|by split; [|intros va [= <-]]].
  apply wp_bind. eapply wp_mono; [|apply getByKey_healthy]. intros [ev|e] s' [-> Hr]; cbn [wp]; [|by split].
  split; [done|]. intros va [= <-]. cbn. unfold compare_anchor.
  destruct (String.eqb_spec (ComputeHash sha256hex ev) (ev_Hash ev)) as [E1|]; cbn [negb]; [|done].
  destruct (String.eqb_spec (ComputeHash sha256hex ev) (an_ChainHeadHash a)) as [E2|]; cbn [negb]; [|done]. intros _.
  pose proof (note_anchored_key (an_HeadSequence a) infos (None, -1) k) as Hk. rewrite E in Hk. destruct (Hk eq_refl) as [|(i & Hin & <-)]; [done|].
  exists i, ev. rewrite <- Hi. split_and!; [done..|congruence].
Qed.

Lemma event_info_shard (s : store) sh i : noslash sh -> i ∈ event_infos s sh -> is_shard s sh.
Proof.
  intros Hsh Hi. apply list_elem_of_filter in Hi as [_ Hi]. apply elem_of_listing in Hi as (o & Ho & _ & Hp).
  unfold is_shard. destruct (String.eqb_spec sh "") as [|Hne]; [by left|]. right. exists (Key i). split; [by rewrite Ho|].
  unfold shardEventDir in Hp. destruct (String.eqb_spec sh ""); [done|]. apply HasPrefix_inv in Hp as [t Ht].
  rewrite !string_app_assoc in Ht. rewrite Ht. split; [apply HasPrefix_app|]. unfold shard_of. rewrite TrimPrefix_app.
  rewrite CutByte_None_app by done. cbn [String.append CutByte]. rewrite Ascii.eqb_refl, string_app_nil_r. by destruct (String.eqb_spec sh "").
Qed.
End anchored.

(** C18: an anchored history cannot be rewritten.  An anchor was made of an event of a log that was only
    appended to; later, in whatever state the store is then, the verifier and the anchor's check both
    say OK.  Then every event of the shard up to the anchored one is still there, unchanged: barring
    two events with one digest and one with the genesis hash. *)
Theorem anchored_history_kept `{EJ : EventJSON} `{TL : TransparencyLog} (sha256hex : string -> string)
    (ties : list (Z * string) -> list (Z * string)) (ds ds' : nat -> decision) (s1 s2 : gmap string (object string))
    (sh logID : string) (n : Z) (e : Event) (a : Anchor) (res : VerifyResult) (va : VerifyAnchorResult) :
  (forall a b, ComputeHash sha256hex a = ComputeHash sha256hex b -> canonicalForHash a = canonicalForHash b) ->
  (forall a, ComputeHash sha256hex a <> GenesisHash) -> (forall x, CutByte (sha256hex x) nul = None) ->
  (forall l, ties l ≡ₚ l) -> (forall j, healthy (ds j)) -> (forall j, healthy (ds' j)) ->
  sound_log sha256hex s1 -> from_zero s1 -> noslash sh -> 0 <= n -> int64 n -> at_slot s1 sh n e ->
  an_Shard a = sh -> an_ChainHeadHash a = ev_Hash e ->
  wp healthy (GetAnchor logID) (fun r s' => s' = s2 /\ r = Ok a) s2 ->
  run ds 0 (VerifyChain sha256hex ties) s2 = (Ok res, s2) -> vr_OK res = true ->
  run ds' 0 (VerifyAnchor sha256hex logID) s2 = (Ok va, s2) -> va_OK va = true ->
  forall m ev, 0 <= m <= n -> at_slot s1 sh m ev -> exists k, HasPrefix k (shardEventDir sh) = true /\ readable s2 k ev.
Proof.
  intros Hcol Hgen Hnul Ht Hd Hd' Hs Hz Hsh Hn Hi Ha Hash Hah Hget Hrun Hok Hrun' Hok' m ev Hm Hev. subst sh.
  pose proof (wp_run _ _ _ s2 ds 0 Hd (VerifyChain_wp sha256hex ties s2 Ht Hnul)) as H. rewrite Hrun in H. cbn [fst snd] in H.
  destruct H as (_ & H & _). specialize (H Hok).
  pose proof (wp_run _ _ _ s2 ds' 0 Hd' (VerifyAnchor_wp sha256hex logID a s2 Hget)) as H'. rewrite Hrun' in H'. cbn [fst snd] in H'.
  destruct H' as [_ H']. destruct (H' va eq_refl Hok') as (i & e2 & Hi2 & Hr2 & Hh2 & He2).
  destruct (H _ (event_info_shard s2 _ i Hsh Hi2)) as (evs & (infos & Hinf & Hf) & _ & Hin & Hch & _).
  assert (e2 ∈ evs) as He2in.
  { rewrite <- Hinf in Hi2. apply list_elem_of_lookup in Hi2 as [j Hj]. destruct (Forall2_lookup_l _ _ _ _ _ Hf Hj) as (e' & Hj' & o' & Ho' & _ & Hdec').
    destruct Hr2 as (o & Ho & _ & Hdec). assert (e' = e2) as <- by congruence. by apply list_elem_of_lookup_2 in Hj'. }
  destruct (prefix_chain sha256hex s1 _ n e Hnul Hs Hz Hsh Hn Hi Ha) as (p1 & Hp1 & Hc1 & Hall).
  apply list_elem_of_split in He2in as (p2 & t & ->). replace (p2 ++ e2 :: t) with ((p2 ++ [e2]) ++ t) in Hin, Hch, Hf by by rewrite <- app_assoc.
  apply Forall_app in Hin as [Hin _]. apply chained_app in Hch as [Hch _].
  assert (p1 ++ [e] = p2 ++ [e2]) as Heq by (eapply (same_history sha256hex Hcol Hgen); eauto; congruence).
  specialize (Hall m ev Hm Hev). rewrite Heq in Hall.
  apply list_elem_of_lookup in Hall as [j Hj].
  assert (((p2 ++ [e2]) ++ t) !! j = Some ev) as Hj' by (rewrite lookup_app_l; [done|by eapply lookup_lt_Some]).
  destruct (Forall2_lookup_r _ _ _ _ _ Hf Hj') as (i' & Hi' & Hr'). exists (Key i'). split; [|done].
  apply list_elem_of_lookup_2 in Hi'. rewrite Hinf in Hi'. apply list_elem_of_filter in Hi' as [_ Hi']. by apply elem_of_listing in Hi' as (o & _ & _ & Hp).
Qed.

(** *** Logs to evaluate on *)

(** Two hexadecimal digits per byte, after a mark: collision free, though no digest. *)
Fixpoint hex_text (s : string) : string :=
  match s with
  | EmptyString => "h"
  | String c s => hexLow 2 (byte_of c) +:+ hex_text s
  end.

Lemma hexLow_no_nul n z : CutByte (hexLow n z) nul = None.
Proof.
  revert z. induction n as [|n IH]; intros z; cbn [hexLow]; [done|]. rewrite CutByte_None_app by apply IH. cbn [CutByte].
  destruct (Ascii.eqb_spec (hexDigitLow (z mod 16)) nul) as [E|]; [|done].
  pose proof (hexNibble_digitLow (z mod 16) (Z.mod_pos_bound z 16 ltac:(lia))) as H. by rewrite E in H.
Qed.

Lemma hex_text_no_nul s : CutByte (hex_text s) nul = None.
Proof. induction s as [|c s IH]; [done|]. cbn [hex_text]. rewrite CutByte_None_app by apply hexLow_no_nul. by rewrite IH. Qed.

Lemma hex_text_length s : String.length (hex_text s) = S (2 * String.length s).
Proof. induction s as [|c s IH]; [done|]. cbn [hex_text]. rewrite string_app_length, hexLow_length, IH. cbn. lia. Qed.

Lemma hex_text_inj s t : hex_text s = hex_text t -> s = t.
Proof.
  revert t. induction s as [|c s IH]; intros [|d t] E; [done| | |].
  - apply (f_equal String.length) in E. rewrite !hex_text_length in E. cbn in E. lia.
  - apply (f_equal String.length) in E. rewrite !hex_text_length in E. cbn in E. lia.
  - pose proof E as El. apply (f_equal String.length) in El. rewrite !hex_text_length in El. cbn [hex_text String.length] in E, El.
    apply string_app_inj_length in E as [Ec Es]; [|rewrite !hex_text_length; lia]. f_equal; [|by apply IH].
    apply (f_equal (hexParse 0)) in Ec. rewrite !hexParse_hexLow in Ec. injection Ec as Ec.
    change (16 ^ Z.of_nat 2) with 256 in Ec. pose proof (byte_of_range c). pose proof (byte_of_range d).
    rewrite !Z.mod_small in Ec by lia. unfold byte_of in Ec. apply N2Z.inj in Ec.
    by rewrite <- (Ascii.ascii_N_embedding c), <- (Ascii.ascii_N_embedding d), Ec.
Qed.

Lemma hex_text_not_genesis s : hex_text s <> GenesisHash.
Proof. intros E. apply (f_equal String.length) in E. rewrite hex_text_length in E. unfold GenesisHash in E. rewrite hexLow_length in E. lia. Qed.

(** One append, alone. *)
Definition one_append (sha : string -> string) (id : string) (s : gmap string (object string)) :=
  pool (map (fun _ => (0%nat, calm 5)) (seq 0 20))
    (map (fun '(rb, ev) => Append (EJ := sample_audit_json) sha strict None "me" rb ev) [([], sample_event id)]) s.

Definition log_of_one : gmap string (object string) := (one_append hex_text "a" ∅).2.

Lemma log_of_one_sound : sound_log (EJ := sample_audit_json) hex_text log_of_one.
Proof.
  pose proof (appends_only_append (EJ := sample_audit_json) hex_text strict None "me" [([], sample_event "a")]
    (map (fun _ => (0%nat, calm 5)) (seq 0 20)) ∅ eq_refl (empty_log (EJ := sample_audit_json) hex_text)) as H.
  unfold log_of_one, one_append. destruct (pool _ _ ∅) as [ps' s']. apply H, empty_log.
Qed.

Lemma log_of_one_keys : map fst (map_to_list log_of_one) = [slot "d.db" 0; headKeyForShard "d.db"] \/
  map fst (map_to_list log_of_one) = [headKeyForShard "d.db"; slot "d.db" 0].
Proof. vm_compute. (left; reflexivity) || (right; reflexivity). Qed.

(** A store with one event and its shard's pointer. *)
Lemma only_slot (s : gmap string (object string)) sh0 n0 :
  map fst (map_to_list s) = [slot sh0 n0; headKeyForShard sh0] \/ map fst (map_to_list s) = [headKeyForShard sh0; slot sh0 n0] ->
  noslash sh0 -> int64 n0 -> forall sh n o, noslash sh -> int64 n -> s !! slot sh n = Some o -> sh = sh0 /\ n = n0.
Proof.
  intros Hk Hsh0 Hn0 sh n o Hsh Hn Ho. apply elem_of_map_to_list in Ho. assert (slot sh n ∈ map fst (map_to_list s)) as Hin
    by (apply list_elem_of_fmap; by exists (slot sh n, o)).
  apply slot_inj; [done..|]. destruct Hk as [Ek|Ek]; rewrite Ek in Hin; apply elem_of_cons in Hin as [E|Hin].
  - exact E.
  - apply list_elem_of_singleton in Hin. by apply slot_not_head in Hin.
  - by apply slot_not_head in E.
  - by apply list_elem_of_singleton in Hin.
Qed.

Lemma log_of_one_slots sh n o : noslash sh -> int64 n -> log_of_one !! slot sh n = Some o -> sh = "d.db" /\ n = 0.
Proof. intros Hsh Hn. apply (only_slot log_of_one "d.db" 0 log_of_one_keys eq_refl); [by vm_compute|exact Hsh|exact Hn]. Qed.

Lemma sizes_checked (s : gmap string (object string)) :
  forallb (fun p => Z.of_nat (String.length (ob_body p.2)) <=? MaxMetadataBytes) (map_to_list s) = true ->
  forall k o, s !! k = Some o -> Z.of_nat (String.length (ob_body o)) <= MaxMetadataBytes.
Proof.
  intros H k o Ho. apply elem_of_map_to_list in Ho. rewrite forallb_forall in H. apply Z.leb_le, (H (k, o)). by apply list_elem_of_In.
Qed.

Lemma log_of_one_sizes k o : log_of_one !! k = Some o -> Z.of_nat (String.length (ob_body o)) <= MaxMetadataBytes.
Proof. apply sizes_checked. vm_compute. reflexivity. Qed.

Lemma log_of_one_from_zero : from_zero log_of_one.
Proof. intros sh n o Hsh Hn Ho. destruct (log_of_one_slots sh n o Hsh Hn Ho) as [_ E]. clear Ho. lia. Qed.

Lemma VerifyChain_exact_witness :
  let '(r, s') := run (fun _ => calm 6) 0 (VerifyChain (EJ := sample_audit_json) hex_text (fun l => l)) log_of_one in
  s' = log_of_one /\ is_ok r = true.
Proof.
  pose proof (VerifyChain_exact (EJ := sample_audit_json) hex_text (fun l => l) (fun _ => calm 6) log_of_one
    (fun l => Permutation_refl l) hex_text_no_nul (fun j => eq_refl)) as H.
  assert (is_ok (run (fun _ => calm 6) 0 (VerifyChain (EJ := sample_audit_json) hex_text (fun l => l)) log_of_one).1 = true) as Hok by by vm_compute.
  destruct (run _ 0 _ log_of_one) as [r s']. destruct H as [H _]. exact (conj H Hok).
Defined.

Lemma appended_log_verifies_witness : exists res,
  run (fun _ => calm 6) 0 (VerifyChain (EJ := sample_audit_json) hex_text (fun l => l)) log_of_one = (Ok res, log_of_one) /\ vr_OK res = true.
Proof.
  apply (appended_log_verifies (EJ := sample_audit_json) hex_text (fun l => l) (fun _ => calm 6) log_of_one
    (fun l => Permutation_refl l) hex_text_no_nul (fun j => eq_refl) log_of_one_sound log_of_one_from_zero log_of_one_sizes).
  intros sh n ev Hsh Hn (o & Ho & _). destruct (log_of_one_slots sh n o Hsh Hn Ho) as [-> _]. vm_compute. by eexists.
Defined.

(** The anchor of the only event. *)
Definition first_event : Event :=
  link (EJ := sample_audit_json) hex_text (complete "me" (sample_event "a") 1 []) GenesisHash 0.

Definition first_anchor : Anchor :=
  {| an_Schema := AnchorSchema; an_Shard := "d.db"; an_ChainHeadHash := ev_Hash first_event; an_HeadSequence := 0;
     an_AnchoredAt := 5; an_PublisherID := "me"; an_LogID := "1" |}.

Definition one_anchor_log : TransparencyLog :=
  {| PutAnchor := fun _ => Ret (Ok "1"); GetAnchor := fun _ => Ret (Ok first_anchor); LatestAnchor := Ret (Ok (Some first_anchor)) |}.

Lemma first_event_there : at_slot (EJ := sample_audit_json) log_of_one "d.db" 0 first_event.
Proof.
  assert (match log_of_one !! slot "d.db" 0 with
          | Some o => bool_decide (decode (Codec := event_codec (EventJSON := sample_audit_json)) (ob_body o) = Some first_event)
          | None => false end = true) as H by by vm_compute.
  destruct (log_of_one !! slot "d.db" 0) as [o|] eqn:Ho; [|done]. exists o. split; [done|]. by apply bool_decide_eq_true in H.
Qed.

Definition ok_or {E A} (d : A) (r : result E A) : A := match r with Ok a => a | Err _ => d end.

Definition no_anchor_result : VerifyAnchorResult :=
  {| va_ChainHeadHash := ""; va_HeadSequence := 0; va_LocalHeadHash := ""; va_LocalHeadSequence := 0; va_Mismatch := None; va_OK := false |}.

Definition first_verdict := run (fun _ => calm 6) 0 (VerifyChain (EJ := sample_audit_json) hex_text (fun l => l)) log_of_one.
Definition anchor_verdict := run (fun _ => calm 7) 0 (VerifyAnchor (EJ := sample_audit_json) (TL := one_anchor_log) hex_text "1") log_of_one.

Lemma first_verdict_ok : first_verdict = (Ok (ok_or no_result first_verdict.1), log_of_one).
Proof.
  assert (is_ok first_verdict.1 = true) as Hok by by vm_compute.
  pose proof (wp_run healthy _ _ log_of_one (fun _ => calm 6) 0 (fun j => eq_refl)
    (VerifyChain_wp (EJ := sample_audit_json) hex_text (fun l => l) log_of_one (fun l => Permutation_refl l) hex_text_no_nul)) as [H _].
  unfold first_verdict in *. destruct (run _ 0 _ log_of_one) as [[r|e] s']; [|done]. cbn [fst snd ok_or] in *. by rewrite H.
Qed.

Lemma anchor_verdict_ok : anchor_verdict = (Ok (ok_or no_anchor_result anchor_verdict.1), log_of_one).
Proof.
  assert (is_ok anchor_verdict.1 = true) as Hok by by vm_compute.
  pose proof (wp_run healthy _ _ log_of_one (fun _ => calm 7) 0 (fun j => eq_refl)
    (VerifyAnchor_wp (EJ := sample_audit_json) (TL := one_anchor_log) hex_text "1" first_anchor log_of_one (conj eq_refl eq_refl))) as [H _].
  unfold anchor_verdict in *. destruct (run _ 0 _ log_of_one) as [[r|e] s']; [|done]. cbn [fst snd ok_or] in *. by rewrite H.
Qed.

Lemma anchored_history_kept_witness : exists k, HasPrefix k (shardEventDir "d.db") = true /\
  readable (EJ := sample_audit_json) log_of_one k first_event.
Proof.
  apply (anchored_history_kept (EJ := sample_audit_json) (TL := one_anchor_log) hex_text (fun l => l) (fun _ => calm 6) (fun _ => calm 7)
    log_of_one log_of_one "d.db" "1" 0 first_event first_anchor
    (ok_or no_result first_verdict.1) (ok_or no_anchor_result anchor_verdict.1))
    with (m := 0).
  - intros a b E. exact (hex_text_inj _ _ E).
  - intros a. apply hex_text_not_genesis.
  - apply hex_text_no_nul.
  - intros l. reflexivity.
  - intros j. reflexivity.
  - intros j. reflexivity.
  - apply log_of_one_sound.
  - apply log_of_one_from_zero.
  - reflexivity.
  - lia.
  - by vm_compute.
  - apply first_event_there.
  - reflexivity.
  - reflexivity.
  - split; reflexivity.
  - exact first_verdict_ok.
  - vm_compute. reflexivity.
  - exact anchor_verdict_ok.
  - vm_compute. reflexivity.
  - lia.
  - apply first_event_there.
Defined.

(** ** Verifying while somebody appends *)

(** The verifier reads a shard's pointer after its events: an append in between leaves it with a
    pointer past every event it saw, and it reports a tail cut off, though it says OK before that
    append and after it. *)
Theorem verify_during_append_alarms :
  let s0 := (one_append length_hash "a" ∅).2 in
  let s1 := (one_append length_hash "b" s0).2 in
  let verdict := fun s => ok_or no_result (run (fun _ => calm 6) 0 (VerifyChain (EJ := sample_audit_json) length_hash (fun l => l)) s).1 in
  let during := runc (fun i s => if (i =? 4)%nat then s1 else s) (fun _ => calm 6) 0
                  (VerifyChain (EJ := sample_audit_json) length_hash (fun l => l)) s0 in
  vr_OK (verdict s0) = true /\ vr_OK (verdict s1) = true /\
  vr_OK (ok_or no_result during.1.1) = false /\ vr_Truncated (ok_or no_result during.1.1) = [TailMissing "d.db" 1 "b" 0].
Proof. vm_compute. by split_and!. Qed.
