(* ===== verification/Rotate.v ===== *)
(** Rotation (internal/cli/rotate.go, rotate_policy_source.go, hold.go's filterHeld): a deployment's
    manifests, the policy that applies to it, what the policy deletes less what a hold keeps, and the
    batch that tombstones the rest.

    This is where [Retention]'s decision, the holds of [Hold] and the batch of [SoftDelete] meet. *)
From S2P Require Import Prelude GoString Storage Concur Commit Worm Lsn Hash Json Retention BackupManifest ManifestRead ManifestStore Hold SoftDelete Interleave Pool OrphanRace AuditLog.
From S2P Require SampleJson.
From Stdlib Require Import Ascii.

Local Open Scope string_scope.
Local Open Scope list_scope.
Local Open Scope Z_scope.
#[local] Arguments String.append : simpl nomatch.

(** ** The policy *)

Record rotateOpts := {
  ro_deployment : string;
  ro_policy : string;
  ro_keepDaily : Z;
  ro_keepWeekly : Z;
  ro_keepMonthly : Z;
  ro_keepYearly : Z;
  ro_keepFor : duration;
  ro_keepFulls : Z;
  ro_apply : bool
}.

Inductive policy_err := PE_NegativeGFS | PE_KeepFor | PE_KeepFulls | PE_Unknown | PE_ConfigKeepFor | PE_ConfigPolicy.

(** The policy of the command's flags. *)
Definition buildPolicy (o : rotateOpts) : result policy_err Retention.Policy :=
  let p := ToLower (ro_policy o) in
  if String.eqb p "gfs" then
    if (ro_keepDaily o <? 0) || (ro_keepWeekly o <? 0) || (ro_keepMonthly o <? 0) || (ro_keepYearly o <? 0) then Err PE_NegativeGFS
    else Ok (Retention.GFSPolicy (ro_keepDaily o) (ro_keepWeekly o) (ro_keepMonthly o) (ro_keepYearly o))
  else if String.eqb p "simple" then
    if ro_keepFor o <=? 0 then Err PE_KeepFor else Ok (Retention.SimplePolicy (ro_keepFor o))
  else if String.eqb p "count" then
    if ro_keepFulls o <? 0 then Err PE_KeepFulls else Ok (Retention.CountPolicy (ro_keepFulls o))
  else Err PE_Unknown.

(** A deployment's retention block in the configuration. *)
Record RetentionConfig := {
  rc_Policy : string;
  rc_KeepDaily : Z;
  rc_KeepWeekly : Z;
  rc_KeepMonthly : Z;
  rc_KeepYearly : Z;
  rc_KeepFor : string;
  rc_KeepFulls : Z
}.

#[export] Instance RetentionConfig_eq_dec : EqDecision RetentionConfig.
Proof. solve_decision. Defined.

Definition no_retention : RetentionConfig :=
  {| rc_Policy := ""; rc_KeepDaily := 0; rc_KeepWeekly := 0; rc_KeepMonthly := 0; rc_KeepYearly := 0; rc_KeepFor := ""; rc_KeepFulls := 0 |}.

Definition retentionDeclared (r : RetentionConfig) : bool := negb (bool_decide (r = no_retention)).

Definition defaultIfZero (v def : Z) : Z := if v =? 0 then def else v.

Inductive policy_source := FromFlags | FromConfig | BuiltIn.

(** One member of a batch's report. *)
Record rotation := {
  rp_Deployment : string;
  rp_Source : policy_source;
  rp_Decision : Retention.Decision;
  rp_Delete : list Retention.Manifest;
  rp_Held : list string;
  rp_Anchors : list string;
  rp_Applied : nat
}.

(** ** Holds and their chains *)

(** The ancestors of one backup join the anchors, as far as the index has them.  The walk has no other
    end than a backup without a parent or outside the index: [None] when [fuel] parents did not reach it. *)
Fixpoint anchor_walk (fuel : nat) (byID : gmap string Retention.Manifest) (heldSet : gset string)
    (cur : option Retention.Manifest) (anchors : gset string) : option (gset string) :=
  match cur with
  | None => Some anchors
  | Some m =>
      let pid := Retention.ParentBackupID m in
      if String.eqb pid "" then Some anchors
      else match fuel with
           | O => None
           | S fuel =>
               let anchors := if bool_decide (pid ∈ heldSet) || bool_decide (pid ∈ anchors) then anchors else {[pid]} ∪ anchors in
               anchor_walk fuel byID heldSet (byID !! pid) anchors
           end
  end.

Fixpoint anchors_of (fuel : nat) (byID : gmap string Retention.Manifest) (heldSet : gset string) (ids : list string)
    (anchors : gset string) : option (gset string) :=
  match ids with
  | [] => Some anchors
  | id :: ids =>
      match anchor_walk fuel byID heldSet (byID !! id) anchors with
      | None => None
      | Some anchors => anchors_of fuel byID heldSet ids anchors
      end
  end.

(** What remains to delete, the held ids and the anchors among the ids to delete. *)
Definition split_held (heldSet anchors : gset string) (l : list Retention.Manifest) : list Retention.Manifest * list string :=
  (filter (fun m => (Retention.BackupID m ∉ heldSet) /\ (Retention.BackupID m ∉ anchors)) l,
   map Retention.BackupID (filter (fun m => (Retention.BackupID m ∉ heldSet) /\ Retention.BackupID m ∈ anchors) l)).

(** The part of [filterHeld] after the holds were looked at; [range] is the order of a Go range over
    the held ids. *)
Definition filter_chains (range : list string -> list string) (fuel : nat) (all l : list Retention.Manifest) (held : list string)
    : option (list Retention.Manifest * list string) :=
  let byID := Retention.index all in
  let heldSet := list_to_set held in
  match anchors_of fuel byID heldSet (range (elements heldSet)) ∅ with
  | None => None
  | Some anchors => Some (split_held heldSet anchors l)
  end.

Inductive rotate_err :=
| RT_NoDeployment | RT_Deployments (e : serr) | RT_List (deployment : string) (e : get_error) | RT_Policy (deployment : string) (e : policy_err)
| RT_Hold (id : string) (e : hold_get_err) | RT_Endless | RT_Batch (deployment : string) (deleted : list string) (e : delete_err).

Inductive task_err := TK_List (e : get_error) | TK_Delete (id : string) (e : delete_err).

(** The fields of a manifest retention reads. *)
Definition view (m : Manifest) : Retention.Manifest :=
  {| Retention.BackupID := m_BackupID m; Retention.Type_ := m_Type m; Retention.ParentBackupID := m_ParentBackupID m;
     Retention.StoppedAt := m_StoppedAt m |}.

(** The manifests of a listing, or its first error. *)
Fixpoint all_ok {E A} (l : list (result E A)) : result E (list A) :=
  match l with
  | [] => Ok []
  | Err e :: _ => Err e
  | Ok a :: l => match all_ok l with Ok l => Ok (a :: l) | Err e => Err e end
  end.

Section rotate.
Context `{CM : Codec string deploymentMarker} `{SG : Signing} `{MJ : ManifestJSON} `{L : LSN} `{CH : Codec string Hold}
  `{CT : Codec string Tombstone} `{EJ : EventJSON}.
Context (sha256 : string -> string) (sha256hex : string -> string) (caps : Capabilities) (draw : string -> string)
  (worm : option WORMPolicy) (DefaultActor repoURL : string) (random : string -> list Z).
(** The orders of Go's ranges over maps, [time.Duration]'s text, and the parser of durations with days,
    whose arithmetic is in floating point. *)
Context (range : list string -> list string) (Duration_String : duration -> string) (ParseDurationDays : string -> option duration).

Definition buildRetentionPolicy (c : RetentionConfig) : result policy_err Retention.Policy :=
  let p := ToLower (rc_Policy c) in
  if String.eqb p "" || String.eqb p "gfs" then
    Ok (Retention.GFSPolicy (defaultIfZero (rc_KeepDaily c) 7) (defaultIfZero (rc_KeepWeekly c) 4)
          (defaultIfZero (rc_KeepMonthly c) 12) (defaultIfZero (rc_KeepYearly c) 5))
  else if String.eqb p "simple" then
    if String.eqb (rc_KeepFor c) "" then Ok (Retention.SimplePolicy (30 * 24 * Time.Hour))
    else match ParseDurationDays (rc_KeepFor c) with
         | None => Err PE_ConfigKeepFor
         | Some d => Ok (Retention.SimplePolicy d)
         end
  else if String.eqb p "count" then Ok (Retention.CountPolicy (defaultIfZero (rc_KeepFulls c) 14))
  else Err PE_ConfigPolicy.

Definition resolveRotatePolicy (deployment : string) (flagsSet : bool) (o : rotateOpts) (deps : gmap string RetentionConfig)
    : result policy_err (Retention.Policy * policy_source) :=
  let with_source (src : policy_source) (r : result policy_err Retention.Policy) :=
    match r with Ok p => Ok (p, src) | Err e => Err e end in
  if flagsSet then with_source FromFlags (buildPolicy o)
  else match deps !! deployment with
       | Some c => if retentionDeclared c then with_source FromConfig (buildRetentionPolicy c) else with_source BuiltIn (buildPolicy o)
       | None => with_source BuiltIn (buildPolicy o)
       end.

Definition selectDeployments (filter : string) : prog string (result rotate_err (list string)) :=
  let* all := Deployments in
  Ret (match all with
       | Err e => Err (RT_Deployments e)
       | Ok all =>
           if String.eqb filter "" then Ok all
           else if bool_decide (filter ∈ all) then Ok [filter] else Err RT_NoDeployment
       end).

Definition loadDeploymentManifests (dep : string) (verifier : option Verifier) : prog string (result get_error (list Manifest)) :=
  let* l := ListHeaders sha256 dep verifier in Ret (all_ok l).

(** The ids of a list under an active hold, or the first look that failed. *)
Definition active_holds (deployment : string) (l : list Retention.Manifest) : prog string (list string + (string * hold_get_err)) :=
  for_ l [] (fun m held =>
    let* r := IsActivelyHeld deployment (Retention.BackupID m) in
    Ret (match r with
         | Err e => inr (Retention.BackupID m, e)
         | Ok true => inl (held ++ [Retention.BackupID m])
         | Ok false => inl held
         end)).

Definition filterHeld (fuel : nat) (deployment : string) (decisionDelete all : list Retention.Manifest)
    : prog string (result rotate_err (list Retention.Manifest * list string * list string)) :=
  match decisionDelete with
  | [] => Ret (Ok ([], [], []))
  | _ =>
      let* h := active_holds deployment decisionDelete in
      Ret (match h with
         | inr (id, e) => Err (RT_Hold id e)
         | inl held =>
             match filter_chains range fuel all decisionDelete held with
             | None => Err RT_Endless
             | Some (keep, anchors) => Ok (keep, held, anchors)
             end
         end)
  end.

(** The audit event of one deletion; the policy's name as a JSON string. *)
Definition rotate_event (deployment id policy : string) : Event :=
  {| ev_Schema := ""; ev_ID := ""; ev_Sequence := 0; ev_Timestamp := Time.zero; ev_Actor := ""; ev_Tenant := "";
     ev_Action := "backup.rotate_delete";
     ev_Subject := {| su_Deployment := deployment; su_BackupID := id; su_Tenant := ""; su_Repo := repoURL |};
     ev_Body := {["policy" := String (byte 34) (policy +:+ String (byte 34) "")]}; ev_PrevHash := ""; ev_Hash := "" |}.

Definition audit_each (deployment policy : string) (ids : list string) : prog string (unit + Empty_set) :=
  for_ ids () (fun id _ =>
    let* _ := AppendOrLog sha256hex caps worm DefaultActor (random id) (rotate_event deployment id policy) in Ret (inl ())).

(** What is done with a deployment's manifests; [t] is the instant of the whole run. *)
Definition plan_manifests (fuel : nat) (o : rotateOpts) (flagsSet : bool) (deps : gmap string RetentionConfig)
    (t : time) (dep : string) (all : list Retention.Manifest) : prog string (result rotate_err rotation) :=
  match resolveRotatePolicy dep flagsSet o deps with
  | Err e => Ret (Err (RT_Policy dep e))
  | Ok (policy, source) =>
      let d := Retention.Apply range Duration_String policy t all in
      let* f := filterHeld fuel dep (Retention.Delete d) all in
      Ret (match f with
           | Err e => Err e
           | Ok (del, held, anchors) =>
               Ok {| rp_Deployment := dep; rp_Source := source; rp_Decision := d; rp_Delete := del;
                     rp_Held := held; rp_Anchors := anchors; rp_Applied := 0 |}
           end)
  end.

Definition with_applied (rep : rotation) (n : nat) : rotation :=
  {| rp_Deployment := rp_Deployment rep; rp_Source := rp_Source rep; rp_Decision := rp_Decision rep; rp_Delete := rp_Delete rep;
     rp_Held := rp_Held rep; rp_Anchors := rp_Anchors rep; rp_Applied := n |}.

Definition apply_plan (o : rotateOpts) (dep : string) (p : result rotate_err rotation) : prog string (result rotate_err rotation) :=
  match p with
  | Err e => Ret (Err e)
  | Ok report =>
      if negb (ro_apply o) then Ret (Ok report)
      else
        let policy := Retention.PolicyName (rp_Decision report) in
        let* r := SoftDeleteBatch caps draw dep (map Retention.BackupID (rp_Delete report)) policy ("policy=" +:+ policy) in
        let* _ := audit_each dep policy r.1 in
        Ret (match r.2 with
             | Some e => Err (RT_Batch dep r.1 e)
             | None => Ok (with_applied report (length r.1))
             end)
  end.

Definition rotate_manifests (fuel : nat) (o : rotateOpts) (flagsSet : bool) (deps : gmap string RetentionConfig)
    (t : time) (dep : string) (all : list Retention.Manifest) : prog string (result rotate_err rotation) :=
  let* p := plan_manifests fuel o flagsSet deps t dep all in apply_plan o dep p.

Definition rotate_deployment (fuel : nat) (o : rotateOpts) (flagsSet : bool) (deps : gmap string RetentionConfig)
    (verifier : option Verifier) (t : time) (dep : string) : prog string (result rotate_err rotation) :=
  let* ms := loadDeploymentManifests dep verifier in
  match ms with
  | Err e => Ret (Err (RT_List dep e))
  | Ok ms => rotate_manifests fuel o flagsSet deps t dep (map view ms)
  end.

Definition runRotate (fuel : nat) (o : rotateOpts) (flagsSet : bool) (deps : gmap string RetentionConfig)
    (verifier : option Verifier) : prog string (result (rotate_err * list rotation) (list rotation)) :=
  let* deployments := selectDeployments (ro_deployment o) in
  match deployments with
  | Err e => Ret (Err (e, []))
  | Ok deployments =>
      let* t := now in
      let* r := for_ deployments [] (fun dep overall =>
        let* r := rotate_deployment fuel o flagsSet deps verifier t dep in
        Ret (match r with Ok rep => inl (overall ++ [rep]) | Err e => inr (e, overall) end)) in
      Ret (match r with inl overall => Ok overall | inr e => Err e end)
  end.

(** ** The agent's scheduled rotation *)

(** [retentionRotateSkippable] ([errors.Is] of a hold or of live descendants). *)
Definition retentionRotateSkippable (e : delete_err) : bool :=
  match e with DE_Held _ _ | DE_Descendants _ _ => true | _ => false end.

Definition rotate_reason (d : Retention.Decision) (id : string) : string :=
  let reason := Join (default [] (Retention.Reasons d !! id)) "," in
  if String.eqb reason "" then "policy=" +:+ Retention.PolicyName d else reason.

(** The body of [buildRotateTask]'s task. *)
Definition rotate_task (policy : Retention.Policy) (verifier : option Verifier) (name : string)
    : prog string (result task_err unit) :=
  let* ms := loadDeploymentManifests name verifier in
  match ms with
  | Err e => Ret (Err (TK_List e))
  | Ok ms =>
      let* t := now in
      let d := Retention.Apply range Duration_String policy t (map view ms) in
      let* r := for_ (Retention.Delete d) () (fun m _ =>
        let id := Retention.BackupID m in
        let* r := SoftDelete caps draw name id (Retention.PolicyName d) (rotate_reason d id) in
        Ret (match r with
             | Ok _ => inl ()
             | Err e => if retentionRotateSkippable e then inl () else inr (TK_Delete id e)
             end)) in
      Ret (match r with inl _ => Ok () | inr e => Err e end)
  end.
End rotate.

(** ** What a hold's chain protects *)

(** [up byID x y]: the index has [x], and [y] is its parent. *)
Definition up (byID : gmap string Retention.Manifest) (x y : string) : Prop :=
  exists m, byID !! x = Some m /\ Retention.ParentBackupID m = y /\ y <> "".

Definition acyclic (byID : gmap string Retention.Manifest) : Prop := forall x, ~ tc (up byID) x x.

Section walk.
Context (byID : gmap string Retention.Manifest) (heldSet : gset string).

Lemma up_tc x y z : up byID x y -> tc (up byID) x z <-> z = y \/ tc (up byID) y z.
Proof.
  intros (m & Hm & Hp & Hne). split.
  - intros H. inversion H as [? ? (m' & Hm' & Hp' & _)|? w ? (m' & Hm' & Hp' & _) Ht]; subst; left + right; congruence.
  - intros [->|Ht]; [apply tc_once|eapply tc_l; [|exact Ht]]; by exists m.
Qed.

Lemma no_up_tc x z : (forall y, ~ up byID x y) -> ~ tc (up byID) x z.
Proof. intros Hn H. inversion H as [? ? Hu|? w ? Hu Ht]; by eapply Hn. Qed.

Lemma anchor_walk_spec fuel : forall id anchors anchors',
  anchor_walk fuel byID heldSet (byID !! id) anchors = Some anchors' ->
  forall x, x ∈ heldSet \/ x ∈ anchors' <-> x ∈ heldSet \/ x ∈ anchors \/ tc (up byID) id x.
Proof.
  induction fuel as [|fuel IH]; intros id anchors anchors'; cbn [anchor_walk];
    (destruct (byID !! id) as [m|] eqn:Em; [destruct (String.eqb_spec (Retention.ParentBackupID m) "") as [Hp|Hp]|]);
    cbn [anchor_walk]; rewrite ?(proj2 (String.eqb_eq _ _) Hp), ?(proj2 (String.eqb_neq _ _) Hp); try discriminate.
  1, 3: intros [= <-] x; pose proof (no_up_tc id x ltac:(intros y (m' & Hm' & ? & ?); congruence)); tauto.
  1, 3: intros [= <-] x; pose proof (no_up_tc id x ltac:(intros y (m' & Hm' & _); congruence)); tauto.
  intros Hw x. rewrite (IH _ _ _ Hw x), (up_tc id (Retention.ParentBackupID m)) by (by exists m).
  destruct (bool_decide_reflect (Retention.ParentBackupID m ∈ heldSet)), (bool_decide_reflect (Retention.ParentBackupID m ∈ anchors));
    cbn [orb]; set_solver.
Qed.

Lemma anchors_of_spec fuel : forall ids anchors anchors', anchors_of fuel byID heldSet ids anchors = Some anchors' ->
  forall x, x ∈ heldSet \/ x ∈ anchors' <-> x ∈ heldSet \/ x ∈ anchors \/ exists h, h ∈ ids /\ tc (up byID) h x.
Proof.
  induction ids as [|id ids IH]; intros anchors anchors'; cbn [anchors_of].
  - intros [= <-] x. setoid_rewrite elem_of_nil. naive_solver.
  - destruct (anchor_walk _ _ _ _ _) as [a|] eqn:Ew; [|done]. intros H x.
    pose proof (anchor_walk_spec _ _ _ _ Ew x) as Hw. rewrite (IH _ _ H x). setoid_rewrite elem_of_cons.
    clear IH H Ew. split; [|intros [?|[?|(h & [->|Hh] & Ht)]]]; naive_solver.
Qed.

(** Every parent is new, so as many parents as the index has entries are enough. *)
Lemma anchor_walk_ends : acyclic byID -> forall fuel id V anchors,
  (forall v, v ∈ V -> v ∈ dom byID /\ tc (up byID) v id) -> (size (dom byID ∖ V) <= fuel)%nat ->
  is_Some (anchor_walk fuel byID heldSet (byID !! id) anchors).
Proof.
  intros Hac. induction fuel as [|fuel IH]; intros id V anchors HV Hf; cbn [anchor_walk];
    (destruct (byID !! id) as [m|] eqn:Em; [destruct (String.eqb_spec (Retention.ParentBackupID m) "") as [Hp|Hp]|]); try (by eexists).
  all: assert (id ∈ dom byID ∖ V) as Hid by
    (apply elem_of_difference; split; [by apply elem_of_dom_2 in Em|]; intros H; by apply (Hac id), HV).
  - apply Nat.le_0_r, size_empty_inv in Hf. set_solver.
  - assert (up byID id (Retention.ParentBackupID m)) as Hup by (by exists m). apply IH with (V := {[id]} ∪ V).
    + intros v [->%elem_of_singleton|Hv]%elem_of_union; [split; [by apply elem_of_dom_2 in Em|by apply tc_once]|].
      split; [by apply HV|]. eapply tc_r; [by apply HV|done].
    + assert (size (dom byID ∖ ({[id]} ∪ V)) < size (dom byID ∖ V))%nat; [|lia]. apply subset_size. set_solver.
Qed.

Lemma anchors_of_ends fuel ids : acyclic byID -> (size byID <= fuel)%nat ->
  forall anchors, is_Some (anchors_of fuel byID heldSet ids anchors).
Proof.
  intros Hac Hf. induction ids as [|id ids IH]; intros anchors; cbn [anchors_of]; [by eexists|].
  destruct (anchor_walk_ends Hac fuel id ∅ anchors) as [a ->]; [set_solver| |apply IH].
  rewrite difference_empty_L, size_dom. done.
Qed.
End walk.

(** ** The plan of a rotation *)

(** [h] is held, and [id] is [h] or an ancestor of it as far as the index goes. *)
Definition held_chain (byID : gmap string Retention.Manifest) (held : list string) (id : string) : Prop :=
  exists h, h ∈ held /\ rtc (up byID) h id.

(** The links of the manifests, as [loadChainSnapshot] lists them. *)
Definition chain_of (all : list Retention.Manifest) : chainSnapshot :=
  map (fun m => {| ck_id := Retention.BackupID m; ck_parent := Retention.ParentBackupID m |})
    (filter (fun m => Retention.ParentBackupID m <> "") all).

Lemma edge_chain_of all p c :
  edge (chain_of all) p c <-> exists m, m ∈ all /\ Retention.BackupID m = c /\ Retention.ParentBackupID m = p /\ p <> "".
Proof.
  unfold edge, chain_of. rewrite list_elem_of_fmap. setoid_rewrite list_elem_of_filter. split.
  - intros (m & [= -> ->] & Hp & Hm). by exists m.
  - intros (m & Hm & <- & <- & Hp). by exists m.
Qed.

Lemma rtc_tc_iff {A} (R : A -> A -> Prop) x y : rtc R x y <-> x = y \/ tc R x y.
Proof. split; [apply rtc_tc|]. intros [->|H]; [done|by apply tc_rtc]. Qed.

Section plan.
Context (range : list string -> list string) (Hrange : forall l, range l ≡ₚ l).

Lemma filter_chains_spec fuel all l held keep anchors : filter_chains range fuel all l held = Some (keep, anchors) ->
  (forall m, m ∈ keep <-> m ∈ l /\ ~ held_chain (Retention.index all) held (Retention.BackupID m)) /\
  (forall id, id ∈ anchors <-> (exists m, m ∈ l /\ Retention.BackupID m = id) /\ (id ∉ held) /\
     held_chain (Retention.index all) held id).
Proof.
  unfold filter_chains. destruct (anchors_of _ _ _ _ _) as [a|] eqn:Ea; [|done]. intros [= <- <-].
  assert (forall x, x ∈ (list_to_set held : gset string) \/ x ∈ a <-> held_chain (Retention.index all) held x) as Ha.
  { intros x. rewrite (anchors_of_spec _ _ _ _ _ _ Ea x). unfold held_chain. setoid_rewrite rtc_tc_iff.
    rewrite elem_of_list_to_set. setoid_rewrite Hrange. setoid_rewrite elem_of_elements. setoid_rewrite elem_of_list_to_set.
    set_solver. }
  split.
  - intros m. rewrite list_elem_of_filter, <- Ha. tauto.
  - intros id. rewrite list_elem_of_fmap. setoid_rewrite list_elem_of_filter.
    rewrite <- Ha, elem_of_list_to_set. split.
    + intros (m & -> & [Hh Hm] & Hl). rewrite elem_of_list_to_set in Hh. naive_solver.
    + intros ((m & Hm & <-) & Hh & [?|?]); [done|]. exists m. rewrite elem_of_list_to_set. done.
Qed.

Lemma index_size l : (size (Retention.index l) <= length l)%nat.
Proof.
  unfold Retention.index. induction l as [|x l IH] using rev_ind; [done|]. rewrite foldl_snoc, length_app. cbn [length].
  rewrite map_size_insert. destruct (_ !! _); cbn; lia.
Qed.

Lemma filter_chains_ends all l held : acyclic (Retention.index all) ->
  is_Some (filter_chains range (length all) all l held).
Proof.
  intros Hac. unfold filter_chains.
  destruct (anchors_of_ends (Retention.index all) (list_to_set held) (length all) (range (elements (list_to_set (C := gset string) held))) Hac
    (index_size all) ∅) as [a ->]. by eexists.
Qed.

Context (Duration_String : duration -> string).

Lemma deleted_not_required p t all m : NoDup (map Retention.BackupID all) ->
  let d := Retention.Apply range Duration_String p t all in
  m ∈ Retention.Delete d -> m ∈ all /\ ~ (m ∈ Retention.Keep d).
Proof.
  intros Hnd d Hm. pose proof (proj1 (Retention.finalize_split range (Retention.Name p)
    (Retention.claims Duration_String p t (Retention.sortByStoppedAtDesc all)) all)) as Hp.
  change (Retention.Keep d ++ Retention.Delete d ≡ₚ all) in Hp.
  apply (NoDup_fmap_1 Retention.BackupID) in Hnd. rewrite <- Hp in Hnd. apply NoDup_app in Hnd as (_ & Hd & _).
  split; [rewrite <- Hp; apply elem_of_app; by right|]. intros Hk. by apply (Hd m).
Qed.

(** A manifest whose parent goes is not kept either. *)
Lemma deleted_parent p t all m c : NoDup (map Retention.BackupID all) ->
  let d := Retention.Apply range Duration_String p t all in
  m ∈ Retention.Delete d -> c ∈ all -> Retention.ParentBackupID c = Retention.BackupID m -> Retention.BackupID m <> "" ->
  c ∈ Retention.Delete d.
Proof.
  intros Hnd d Hm Hc Hp Hne. destruct (deleted_not_required p t all m Hnd Hm) as [Hall Hnk].
  set (cl := Retention.claims Duration_String p t (Retention.sortByStoppedAtDesc all)).
  destruct (Retention.finalize_split range (Retention.Name p) cl all) as [Hperm Hkeep].
  change (Retention.Keep d ++ Retention.Delete d ≡ₚ all) in Hperm.
  pose proof Hc as Hc'. rewrite <- Hperm in Hc'. apply elem_of_app in Hc' as [Hk|?]; [|done]. exfalso. apply Hnk.
  apply Hkeep in Hk as [_ Hk]. apply Hkeep. split; [done|].
  apply Retention.finalize_reasons in Hk; [|done..]. apply Retention.finalize_reasons; [done..|].
  eapply Retention.req_parent; [exact Hk|done|done|congruence].
Qed.

Lemma plan_closed p t all fuel held keep anchors m c : NoDup (map Retention.BackupID all) ->
  let d := Retention.Apply range Duration_String p t all in
  filter_chains range fuel all (Retention.Delete d) held = Some (keep, anchors) ->
  m ∈ keep -> c ∈ all -> Retention.ParentBackupID c = Retention.BackupID m -> Retention.BackupID m <> "" -> c ∈ keep.
Proof.
  intros Hnd d Hf Hm Hc Hp Hne. destruct (filter_chains_spec _ _ _ _ _ _ Hf) as [Hk _].
  apply Hk in Hm as [Hd Hh]. apply Hk. split; [by apply (deleted_parent p t all m)|].
  intros (h & Hin & Ht). apply Hh. exists h. split; [done|]. eapply rtc_r; [exact Ht|]. exists c.
  split_and!; [by apply Retention.index_lookup|done|done].
Qed.
End plan.


(** ** Parents in a circle *)

Definition bare (id parent : string) (t : time) : Retention.Manifest :=
  {| Retention.BackupID := id; Retention.Type_ := "incremental"; Retention.ParentBackupID := parent; Retention.StoppedAt := t |}.

(** Two manifests that name each other as parent, one of them held: looking for the ancestors of the
    held one does not end.  Every other walk over parents in the code remembers where it has been. *)
Theorem held_circle_endless (range : list string -> list string) (fuel : nat) :
  (forall l, range l ≡ₚ l) ->
  filter_chains range fuel [bare "a" "b" 1; bare "b" "a" 2] [bare "a" "b" 1; bare "b" "a" 2] ["a"] = None.
Proof.
  intros Hr. unfold filter_chains. set (byID := Retention.index _). set (h := list_to_set ["a"] : gset string).
  assert (range (elements h) = ["a"]) as -> by (apply Permutation_singleton_r; rewrite Hr; reflexivity).
  assert (byID !! "a" = Some (bare "a" "b" 1)) as Ha by reflexivity. assert (byID !! "b" = Some (bare "b" "a" 2)) as Hb by reflexivity.
  assert (forall f x, anchor_walk f byID h (byID !! "a") x = None /\ anchor_walk f byID h (byID !! "b") x = None) as H.
  { induction f as [|f IH]; intros x; rewrite Ha, Hb; [done|]. cbn [anchor_walk bare Retention.ParentBackupID String.eqb].
    split; apply IH. }
  cbn [anchors_of]. by rewrite (proj1 (H fuel ∅)).
Qed.

(** *** Witness *)

(** An old full with a held child, an old full with a free child, and a new full. *)
Definition sample_backups : list Retention.Manifest :=
  [bare "f1" "" 10; bare "i1" "f1" 11; bare "f2" "" 20; bare "i2" "f2" 21; bare "f3" "" 30].

Lemma sample_acyclic : acyclic (Retention.index sample_backups).
Proof.
  set (byID := Retention.index _).
  assert (forall x y, up byID x y -> y = "f1" \/ y = "f2") as H1.
  { intros x y (m & Hm & <- & Hne). apply Retention.index_lookup in Hm as [Hm _]; [|by apply (bool_decide_unpack _); vm_compute].
    unfold sample_backups in Hm. rewrite !elem_of_cons, elem_of_nil in Hm. naive_solver. }
  assert (forall x y, up byID x y -> x <> "f1" /\ x <> "f2") as H2.
  { intros x y (m & Hm & <- & Hne). split; intros ->; revert Hne; injection Hm as <-; done. }
  intros x H. apply tc_ind_r with (P := fun y => y = "f1" \/ y = "f2") in H as Hx; [|exact (H1 x)|intros; eauto].
  inversion H as [? ? Hu|? ? ? Hu]; subst; destruct (H2 _ _ Hu); by destruct Hx.
Qed.


(** The plan of the example: the held child and its parent stay, the other chain goes. *)
Example sample_plan :
  let d := Retention.Apply (fun l => l) (fun _ => "") (Retention.CountPolicy 1) 40 sample_backups in
  map Retention.BackupID (Retention.Delete d) = ["i2"; "f2"; "i1"; "f1"] /\
  option_map (fun r => (map Retention.BackupID r.1, r.2)) (filter_chains (fun l => l) 5 sample_backups (Retention.Delete d) ["i1"]) =
    Some (["i2"; "f2"], ["f1"]).
Proof. by vm_compute. Qed.

(** ** What a rotation writes *)

Section touched.
Context `{CM : Codec string deploymentMarker} `{SG : Signing} `{MJ : ManifestJSON} `{L : LSN} `{CH : Codec string Hold}
  `{CT : Codec string Tombstone} `{EJ : EventJSON}.
Context (caps : Capabilities) (draw : string -> string).

Lemma each_key_reads {A} (one : string -> prog string (option (result get_error A))) keys :
  (forall k, reads_only (one k)) -> reads_only (each_key one keys).
Proof. intros H. induction keys as [|k keys IH]; [done|]. apply reads_only_bind; [done|]. intros r. by apply reads_only_bind. Qed.

Lemma streamHeader_reads sha256 key so : reads_only (streamHeader sha256 key so).
Proof. cbn. split; [done|]. intros [b|e]; [|done]. by destruct (StreamManifest _ _ _ _). Qed.

Lemma ListHeaders_reads sha256 dep verifier : reads_only (ListHeaders sha256 dep verifier).
Proof.
  apply reads_only_bind; [|done]. unfold listStreamingEntries, list_streaming. destruct (negb _); [done|]. destruct (validateStorageID dep); [done|].
  apply reads_only_bind; [by cbn|]. intros [infos [e|]]; [done|]. destruct (sort_keys _ infos) as [keys tombs].
  apply each_key_reads. intros k. destruct (_ && _); [done|]. apply reads_only_bind; [apply streamHeader_reads|done].
Qed.

Lemma loadDeploymentManifests_reads sha256 dep verifier : reads_only (loadDeploymentManifests sha256 dep verifier).
Proof. apply reads_only_bind; [apply ListHeaders_reads|done]. Qed.

Lemma active_holds_reads dep l : reads_only (active_holds dep l).
Proof.
  apply reads_only_for. intros m held. apply reads_only_bind; [|by intros [[]|e]].
  unfold IsActivelyHeld. apply reads_only_bind; [apply GetHold_reads|]. intros [h|e]; [by cbn|by destruct (hg_is_not_found e)].
Qed.

(** *** Tombstones *)

Context (dep policy reason : string).

Lemma softDeleteUnchecked_touches (K : string -> Prop) x : (forall k, tombstone_keys dep draw [x] k -> K k) ->
  touches K (softDeleteUnchecked caps draw dep x policy reason).
Proof. intros HK. by apply local_touches, softDeleteUnchecked_local. Qed.

Lemma tombstone_keys_mono ids ids' k : (forall x, x ∈ ids -> x ∈ ids') -> tombstone_keys dep draw ids k -> tombstone_keys dep draw ids' k.
Proof. intros H (x & Hx & Hk). exists x. auto. Qed.

Lemma install_each_then {A} ids all installed (f : list string * option commit_err -> prog string A) :
  (forall x, x ∈ ids -> x ∈ all) -> (forall x, x ∈ installed -> x ∈ all) ->
  (forall l e, (forall x, x ∈ l -> x ∈ all) -> touches (tombstone_keys dep draw all) (f (l, e))) ->
  touches (tombstone_keys dep draw all) (pbind (install_each caps draw dep policy reason ids installed) f).
Proof.
  intros Hids Hin Hf. revert installed Hin. induction ids as [|x ids IH]; intros installed Hin; cbn [install_each]; [by apply Hf|].
  assert (touches (tombstone_keys dep draw all) (softDeleteUnchecked caps draw dep x policy reason)) as Ht.
  { apply softDeleteUnchecked_touches. intros k. apply tombstone_keys_mono. intros y ->%list_elem_of_singleton. apply Hids. left. }
  assert (forall i, touches (tombstone_keys dep draw all)
    (pbind (match i with Err e => Ret (installed, Some e) | Ok ok => install_each caps draw dep policy reason ids (if ok : bool then installed ++ [x] else installed) end) f)) as Hk.
  { intros [ok|e]; [|by apply Hf]. apply IH; [intros y Hy; apply Hids; by right|]. destruct ok; [|done].
    intros y [Hy|Hy]%elem_of_app; [auto|]. apply list_elem_of_singleton in Hy as ->. apply Hids. left. }
  clear IH Hf. induction (softDeleteUnchecked caps draw dep x policy reason) as [a|R o k IH]; [apply Hk|].
  destruct Ht as [Hw Ht]. split; [done|]. intros r. by apply IH.
Qed.

Lemma SoftDeleteBatch_touches ids : touches (tombstone_keys dep draw ids) (SoftDeleteBatch caps draw dep ids policy reason).
Proof.
  unfold SoftDeleteBatch. destruct (validateStorageID dep); [done|]. destruct ids as [|x0 l0]; [done|]. set (ids := x0 :: l0).
  destruct (first_some _ ids); [done|]. apply touches_bind; [by cbn|]. intros t.
  apply touches_bind; [apply reads_only_touches, batch_holds_reads|]. intros [u|[i [h|e]]]; [|done..].
  apply touches_bind; [apply reads_only_touches, loadChainSnapshot_reads|]. intros [cs|e]; [|done].
  destruct (firstOrphaningDelete cs _ ids) as [[i d]|]; [done|].
  apply install_each_then; [done|by intros x ?%not_elem_of_nil|]. intros l [e|] Hl; [done|].
  assert (forall A (p : prog string A), touches (tombstone_keys dep draw l) p -> touches (tombstone_keys dep draw ids) p) as Hsub.
  { intros A p. apply touches_mono. intros k. by apply tombstone_keys_mono. }
  apply touches_bind; [apply reads_only_touches, loadChainSnapshot_reads|]. intros [cs2|e].
  2: { apply touches_bind; [apply Hsub, rollbackOnRecheckError_touches|done]. }
  destruct (firstOrphaningDelete cs2 _ l) as [[i d]|]; [apply touches_bind; [apply Hsub, take_back_touches|done]|].
  apply touches_bind; [by cbn|]. intros t2. apply touches_bind; [apply reads_only_touches, batch_holds_reads|].
  intros [u2|[i [h|e]]]; [done|apply touches_bind; [apply Hsub, take_back_touches|done]|
    apply touches_bind; [apply Hsub, rollbackOnRecheckError_touches|done]].
Qed.

Lemma SoftDelete_touches x : touches (tombstone_keys dep draw [x]) (SoftDelete caps draw dep x policy reason).
Proof.
  unfold SoftDelete. destruct (validateRef dep x); [done|]. apply touches_bind; [apply reads_only_touches, GetHold_reads|]. intros g.
  apply touches_bind; [apply reads_only_touches, (hold_look_reads g)|]. intros [|h|e]; [|done..].
  apply touches_bind; [apply reads_only_touches, findLiveDescendants_reads|]. intros [[|y l]|e]; [|done..].
  apply touches_bind; [by apply softDeleteUnchecked_touches|]. intros [[]|e]; [|done..].
  apply touches_bind; [apply reads_only_touches, findLiveDescendants_reads|]. intros [[|y l]|e];
    [|apply touches_bind; [apply take_back_touches|done]|apply touches_bind; [apply rollbackOnRecheckError_touches|done]].
  apply touches_bind; [apply reads_only_touches, GetHold_reads|]. intros [h|e].
  - apply touches_bind; [by cbn|]. intros t. destruct (ActiveAt _ _); [|done]. apply touches_bind; [apply take_back_touches|done].
  - destruct (hg_is_not_found e); [done|]. apply touches_bind; [apply rollbackOnRecheckError_touches|done].
Qed.
End touched.

(** *** The log *)

Definition audit_key (k : string) : Prop := HasPrefix k "audit/" = true.

Lemma shard_key sh base : audit_key (shardEventDir sh +:+ base).
Proof. unfold audit_key, shardEventDir. destruct (String.eqb sh ""); [apply HasPrefix_app|]. rewrite string_app_assoc. reflexivity. Qed.

Section logged.
Context `{EJ : EventJSON}.
Context (sha256hex : string -> string) (caps : Capabilities) (worm : option WORMPolicy) (DefaultActor : string).

Lemma put_event_touches key body : audit_key key -> touches audit_key (put_event caps worm key body).
Proof.
  intros Hk. apply touches_bind; [by destruct (WORM_IsZero worm)|]. intros t. apply touches_bind; [cbn; split; [by constructor|done]|].
  intros r. apply reads_only_touches. unfold read_back. destruct r as [u|e]; [|done]. destruct (ConditionalPut caps); [done|].
  apply reads_only_bind; [|done]. by cbn.
Qed.

Lemma append_loop_touches attempts : forall ev h n, touches audit_key (append_loop sha256hex caps worm attempts ev h n).
Proof.
  induction attempts as [|attempts IH]; intros ev h n; [done|]. cbn [append_loop].
  apply touches_bind; [apply reads_only_touches; unfold probe; destruct (ConditionalPut caps); by cbn|]. intros [w|]; [apply IH|].
  apply touches_bind; [apply put_event_touches; unfold keyFor; rewrite slot_eq; apply shard_key|]. intros [u|e].
  - apply touches_bind; [|done]. unfold writeHeadPointer. apply touches_bind; [by cbn|]. intros t. cbn.
    split; [|done]. constructor; [|done]. rewrite head_eq. apply shard_key.
  - destruct e; try done. apply touches_bind; [by apply reads_only_touches|]. intros [w|e]; [apply IH|done].
Qed.

Lemma head_reads sh : reads_only (head sh).
Proof.
  assert (reads_only (list_head sh)) as Hl.
  { unfold list_head. apply reads_only_bind; [by cbn|]. intros [infos [e|]]; [done|]. cbv zeta. destruct (String.eqb _ _); [done|].
    apply reads_only_bind; [|done]. by cbn. }
  unfold head. apply reads_only_bind; [by cbn|]. intros [[hp|]|e]; [|done..]. destruct (String.eqb _ _); [done|].
  apply reads_only_bind; [by cbn|]. intros [ev|e]; [|done]. by destruct (_ && _).
Qed.

Lemma AppendOrLog_touches rb ev : touches audit_key (AppendOrLog sha256hex caps worm DefaultActor rb ev).
Proof.
  apply touches_bind; [|done]. unfold Append. destruct (String.eqb _ _); [done|]. apply touches_bind; [by destruct (Time.IsZero _)|].
  intros t. apply touches_bind; [apply reads_only_touches, head_reads|]. intros [[p|]|e]; [apply append_loop_touches..|done].
Qed.
Lemma audit_each_touches repoURL random dep policy ids :
  touches audit_key (audit_each sha256hex caps worm DefaultActor repoURL random dep policy ids).
Proof. apply touches_for. intros id u. apply touches_bind; [apply AppendOrLog_touches|done]. Qed.
End logged.

(** *** One deployment's rotation *)

(** What follows a program that only reads starts on the same store, at a later decision. *)
Lemma run_reads_bind {B A C} (p : prog B A) (f : A -> prog B C) ds s : reads_only p -> forall i,
  (run ds i p s).2 = s /\ exists j, run ds i (pbind p f) s = run ds j (f (run ds i p s).1) s.
Proof.
  induction p as [a|R o k IH]; intros Hp i; cbn [pbind run]; [split; [done|by exists i]|]. destruct Hp as [Ho Hk].
  pose proof (exec_read (ds i) o s Ho) as Hs. destruct (exec (ds i) o s) as [r s1]. cbn in Hs. subst s1. by apply IH.
Qed.

Lemma touches_run {B A} K (p : prog B A) ds i s : touches K p -> frame K s (run ds i p s).2.
Proof.
  intros Hp. pose proof (wp_run (fun _ => True) p _ s ds i (fun _ => I) (touches_wp (fun _ => True) K p s Hp)) as H.
  by destruct (run ds i p s).
Qed.

Lemma run_reads_map {B A C} (p : prog B A) (g : A -> C) ds s i : reads_only p ->
  (run ds i (pbind p (fun a => Ret (g a))) s).1 = g (run ds i p s).1.
Proof. intros Hp. by destruct (run_reads_bind p (fun a => Ret (g a)) ds s Hp i) as [_ (j & ->)]. Qed.

Section written.
Context `{CM : Codec string deploymentMarker} `{SG : Signing} `{MJ : ManifestJSON} `{L : LSN} `{CH : Codec string Hold}
  `{CT : Codec string Tombstone} `{EJ : EventJSON}.
Context (sha256 : string -> string) (range : list string -> list string) (Duration_String : duration -> string)
  (ParseDurationDays : string -> option duration).

Lemma filterHeld_reads fuel dep del all : reads_only (filterHeld range fuel dep del all).
Proof. unfold filterHeld. destruct del; [done|]. apply reads_only_bind; [apply active_holds_reads|done]. Qed.

Lemma plan_reads fuel o flagsSet deps t dep all :
  reads_only (plan_manifests range Duration_String ParseDurationDays fuel o flagsSet deps t dep all).
Proof.
  unfold plan_manifests. destruct (resolveRotatePolicy _ _ _ _ _) as [[p src]|e]; [|done].
  apply reads_only_bind; [apply filterHeld_reads|done].
Qed.

(** The chains of the backups a look at the holds found held were taken out of [del]. *)
Definition filtered (fuel : nat) (all del : list Retention.Manifest) (held : list string)
    (keep : list Retention.Manifest) (anchors : list string) : Prop :=
  del = [] /\ keep = [] \/ filter_chains range fuel all del held = Some (keep, anchors).

Lemma filterHeld_run fuel dep del all ds i s :
  match (run ds i (filterHeld range fuel dep del all) s).1 with
  | Err _ => True
  | Ok (keep, held, anchors) => filtered fuel all del held keep anchors /\
      (del = [] \/ (run ds i (active_holds dep del) s).1 = inl held)
  end.
Proof.
  unfold filterHeld, filtered. destruct del as [|m del]; [cbn; split; by left|].
  rewrite (run_reads_map (active_holds dep (m :: del))) by apply active_holds_reads.
  destruct (run ds i (active_holds dep (m :: del)) s).1 as [held|[id e]]; [|done].
  destruct (filter_chains _ _ _ _ _) as [[keep anchors]|] eqn:E; [|done]. split; by right.
Qed.

(** What a plan is, given the manifests that were read. *)
Definition planned (fuel : nat) (o : rotateOpts) (flagsSet : bool) (deps : gmap string RetentionConfig) (t : time)
    (dep : string) (all : list Retention.Manifest) (pl : rotation) : Prop :=
  exists policy, resolveRotatePolicy ParseDurationDays dep flagsSet o deps = Ok (policy, rp_Source pl) /\
    rp_Decision pl = Retention.Apply range Duration_String policy t all /\
    filtered fuel all (Retention.Delete (rp_Decision pl)) (rp_Held pl) (rp_Delete pl) (rp_Anchors pl).

Lemma plan_run fuel o flagsSet deps t dep all ds i s :
  match (run ds i (plan_manifests range Duration_String ParseDurationDays fuel o flagsSet deps t dep all) s).1 with
  | Err _ => True
  | Ok pl => planned fuel o flagsSet deps t dep all pl /\
      let del := Retention.Delete (rp_Decision pl) in
      del = [] \/ (run ds i (active_holds dep del) s).1 = inl (rp_Held pl)
  end.
Proof.
  unfold plan_manifests. destruct (resolveRotatePolicy _ _ _ _ _) as [[p src]|e] eqn:Ep; [|done]. cbv zeta.
  rewrite run_reads_map by apply filterHeld_reads. set (d := Retention.Apply _ _ _ _ _).
  pose proof (filterHeld_run fuel dep (Retention.Delete d) all ds i s) as H.
  destruct (run ds i (filterHeld _ _ _ _ _) s).1 as [[[keep held] anchors]|e]; [|done].
  cbn [rp_Source rp_Decision rp_Delete rp_Held rp_Anchors]. destruct H as [H1 H2]. split; [by exists p|done].
Qed.

Definition task_key (draw : string -> string) (policy : Retention.Policy) (dep : string) (all : list Retention.Manifest) (k : string) : Prop :=
  exists t, tombstone_keys dep draw (map Retention.BackupID (Retention.Delete (Retention.Apply range Duration_String policy t all))) k.

(** A part of a scheduled rotation's deletions. *)
Lemma task_loop_touches (caps : Capabilities) draw policy dep all t l :
  let d := Retention.Apply range Duration_String policy t all in
  (forall m, m ∈ l -> m ∈ Retention.Delete d) ->
  touches (task_key draw policy dep all) (for_ l () (fun m _ => let id := Retention.BackupID m in
    let* r := SoftDelete caps draw dep id (Retention.PolicyName d) (rotate_reason d id) in
    Ret (match r with
         | Ok _ => inl ()
         | Err e => if retentionRotateSkippable e then inl () else inr (TK_Delete id e)
         end))).
Proof.
  intros d. induction l as [|m l IH]; intros Hl; [done|]. cbn [for_].
  apply touches_bind; [|intros [[]|e]; [apply IH; intros x Hx; apply Hl; by right|done]].
  apply touches_bind; [|done]. eapply touches_mono; [|apply SoftDelete_touches]. intros k (x & ->%list_elem_of_singleton & Hk).
  exists t, (Retention.BackupID m). split; [|done]. apply list_elem_of_fmap. exists m. split; [done|]. apply Hl. left.
Qed.
End written.

Section applied.
Context `{CM : Codec string deploymentMarker} `{SG : Signing} `{MJ : ManifestJSON} `{L : LSN} `{CH : Codec string Hold}
  `{CT : Codec string Tombstone} `{EJ : EventJSON}.
Context (sha256hex : string -> string) (caps : Capabilities) (draw : string -> string)
  (worm : option WORMPolicy) (DefaultActor repoURL : string) (random : string -> list Z) (range : list string -> list string)
  (Duration_String : duration -> string) (ParseDurationDays : string -> option duration).

Lemma apply_plan_touches o dep pl :
  touches (fun k => ro_apply o = true /\ (audit_key k \/ tombstone_keys dep draw (map Retention.BackupID (rp_Delete pl)) k))
    (apply_plan sha256hex caps draw worm DefaultActor repoURL random o dep (Ok pl)).
Proof.
  unfold apply_plan. destruct (ro_apply o); [|done]. cbn [negb].
  apply touches_bind; [eapply touches_mono; [|apply SoftDeleteBatch_touches]; auto|]. intros r.
  apply touches_bind; [|done]. eapply touches_mono; [|apply audit_each_touches]. auto.
Qed.

Lemma rotate_manifests_run fuel o flagsSet deps t dep all ds i s :
  let rotated := run ds i (rotate_manifests sha256hex caps draw worm DefaultActor repoURL random range Duration_String
                             ParseDurationDays fuel o flagsSet deps t dep all) s in
  match (run ds i (plan_manifests range Duration_String ParseDurationDays fuel o flagsSet deps t dep all) s).1 with
  | Err e => rotated = (Err e, s)
  | Ok pl => frame (fun k => ro_apply o = true /\ (audit_key k \/ tombstone_keys dep draw (map Retention.BackupID (rp_Delete pl)) k))
               s rotated.2
  end.
Proof.
  unfold rotate_manifests. match goal with |- context [pbind _ ?f] =>
    destruct (run_reads_bind _ f ds s (plan_reads range Duration_String ParseDurationDays fuel o flagsSet deps t dep all) i) as [_ (j & ->)] end.
  destruct (run ds i (plan_manifests _ _ _ _ _ _ _ _ _ _) s).1 as [pl|e]; [|done]. apply touches_run, apply_plan_touches.
Qed.
End applied.

(** C24: a rotation first plans: the policy's decision on the manifests it read, less the chains of the
    backups it found held.  It writes nothing when it cannot plan or is not told to apply, and then
    nothing but the log and tombstones of the plan; the agent's scheduled rotation writes nothing but
    tombstones of backups the policy lets go.  This holds whatever fails on the way. *)
Theorem rotation_writes_plan `{CM : Codec string deploymentMarker} `{SG : Signing} `{MJ : ManifestJSON} `{L : LSN}
    `{CH : Codec string Hold} `{CT : Codec string Tombstone} `{EJ : EventJSON}
    (sha256 sha256hex : string -> string) (caps : Capabilities) (draw : string -> string) (worm : option WORMPolicy)
    (DefaultActor repoURL : string) (random : string -> list Z) (range : list string -> list string)
    (Duration_String : duration -> string) (ParseDurationDays : string -> option duration)
    (fuel : nat) (o : rotateOpts) (flagsSet : bool) (deps : gmap string RetentionConfig)
    (verifier : option Verifier) (t : time) (policy : Retention.Policy) (dep : string) (ds : nat -> decision)
    (s : gmap string (object string)) :
  (forall all i,
    let rotated := run ds i (rotate_manifests sha256hex caps draw worm DefaultActor repoURL random range Duration_String
                               ParseDurationDays fuel o flagsSet deps t dep all) s in
    match (run ds i (plan_manifests range Duration_String ParseDurationDays fuel o flagsSet deps t dep all) s).1 with
    | Err e => rotated = (Err e, s)
    | Ok pl => planned range Duration_String ParseDurationDays fuel o flagsSet deps t dep all pl /\
        frame (fun k => ro_apply o = true /\ (audit_key k \/ tombstone_keys dep draw (map Retention.BackupID (rp_Delete pl)) k))
          s rotated.2
    end) /\
  let rotated := run ds 0 (rotate_deployment sha256 sha256hex caps draw worm DefaultActor repoURL random range Duration_String
                             ParseDurationDays fuel o flagsSet deps verifier t dep) s in
  let task := run ds 0 (rotate_task sha256 caps draw range Duration_String policy verifier dep) s in
  match (run ds 0 (loadDeploymentManifests sha256 dep verifier) s).1 with
  | Err e => rotated = (Err (RT_List dep e), s) /\ task = (Err (TK_List e), s)
  | Ok ms =>
      (exists i, rotated = run ds i (rotate_manifests sha256hex caps draw worm DefaultActor repoURL random range Duration_String
                                       ParseDurationDays fuel o flagsSet deps t dep (map view ms)) s) /\
      frame (task_key range Duration_String draw policy dep (map view ms)) s task.2
  end.
Proof.
  cbv zeta. split.
  - intros all i. pose proof (plan_run range Duration_String ParseDurationDays fuel o flagsSet deps t dep all ds i s) as Hpl.
    pose proof (rotate_manifests_run sha256hex caps draw worm DefaultActor repoURL random range Duration_String ParseDurationDays
      fuel o flagsSet deps t dep all ds i s) as Hf. cbv zeta in Hf.
    destruct (run ds i (plan_manifests _ _ _ _ _ _ _ _ _ _) s).1 as [pl|e]; [|done]. split; [apply Hpl|done].
  - unfold rotate_deployment, rotate_task.
    match goal with |- context [run ds 0 (pbind _ ?f) s] =>
      destruct (run_reads_bind _ f ds s (loadDeploymentManifests_reads sha256 dep verifier) 0%nat) as [_ (j & ->)] end.
    match goal with |- context [run ds 0 (pbind _ ?f) s] =>
      destruct (run_reads_bind _ f ds s (loadDeploymentManifests_reads sha256 dep verifier) 0%nat) as [_ (j' & ->)] end.
    destruct (run ds 0 (loadDeploymentManifests sha256 dep verifier) s).1 as [ms|e]; [|done]. split; [by exists j|].
    apply touches_run, touches_bind; [by cbn|]. intros t'. cbv zeta. apply touches_bind; [by apply task_loop_touches|by intros [[]|e]].
Qed.

(** ** A held backup and its ancestors *)

Section held.
Context `{MJ : ManifestJSON} `{CH : Codec string Hold} `{CT : Codec string Tombstone}.

(** A hold that lasts is found. *)
Lemma active_holds_finds D (I : gmap string (object string) -> Prop) dep l h T :
  (forall s, I s -> held_until dep h T s) -> (forall d, D d -> d_time d <= T) -> h ∈ map Retention.BackupID l ->
  wpi D I eq (active_holds dep l) (fun r => forall held, r = inl held -> h ∈ held).
Proof.
  intros HI HD Hin. unfold active_holds. apply wpi_for with (Inv := fun pre held => h ∈ map Retention.BackupID pre -> h ∈ held).
  - intros Hn. by apply not_elem_of_nil in Hn.
  - intros pre m post held _ Hpre. 
    assert (forall held' : list string, (h ∈ held -> h ∈ held') -> (h = Retention.BackupID m -> h ∈ held') ->
      h ∈ map Retention.BackupID (pre ++ [m]) -> h ∈ held') as Hgo.
    { intros held' H1 H2. rewrite map_app, elem_of_app. cbn [map]. rewrite list_elem_of_singleton. naive_solver. }
    apply wpi_bind. destruct (decide (h = Retention.BackupID m)) as [->|Hne].
    + unfold IsActivelyHeld. apply wpi_bind.
      eapply wpi_mono; [|by apply (GetHold_sees _ _ eq) with (P := fun h => ActiveAt (Some h) T = true)]. intros [x|e] Hx; cbn -[ActiveAt].
      * intros s d Hs Hd. cbn -[ActiveAt]. split_and!; [done|done|]. rewrite (ActiveAt_antitone _ _ T) by auto.
        apply Hgo; intros; apply elem_of_app; [by left|right; left].
      * rewrite Hx. intros held'. done.
    + eapply wpi_mono; [|apply reads_any; [done|]].
      * intros [[]|e] _; cbn -[map]; [apply Hgo; [intros; apply elem_of_app; by left|done]|by apply Hgo|done].
      * unfold IsActivelyHeld. apply reads_only_bind; [apply GetHold_reads|]. intros [x|e]; [by cbn|by destruct (hg_is_not_found e)].
  - intros held Hh. cbn. intros held' [= <-]. by apply Hh.
Qed.

Lemma active_holds_run dep l h T ds i s held : held_until dep h T s -> (forall j, d_time (ds j) <= T) ->
  h ∈ map Retention.BackupID l -> (run ds i (active_holds dep l) s).1 = inl held -> h ∈ held.
Proof.
  intros Hs Ht Hin E. pose proof (active_holds_finds (fun d => d_time d <= T) (held_until dep h T) dep l h T (fun _ H => H) (fun _ H => H) Hin) as Hw.
  pose proof (wp_run _ _ _ s ds i Ht (wpi_wp _ _ _ _ _ s Hs Hw)) as H. destruct (run ds i (active_holds dep l) s) as [r s'].
  destruct H as [H _]. by apply H.
Qed.

Context (range : list string -> list string) (Hrange : forall l, range l ≡ₚ l) (Duration_String : duration -> string)
  (ParseDurationDays : string -> option duration).

(** A manifest the policy lets go takes its descendants with it. *)
Lemma deleted_descendant p t all m h : NoDup (map Retention.BackupID all) ->
  let d := Retention.Apply range Duration_String p t all in
  m ∈ Retention.Delete d -> rtc (up (Retention.index all)) h (Retention.BackupID m) -> h ∈ map Retention.BackupID (Retention.Delete d).
Proof.
  intros Hnd d Hm. revert h. apply rtc_ind_l; [apply list_elem_of_fmap; by exists m|].
  intros x y (c & Hc & Hp & Hne) _ (my & -> & Hy)%list_elem_of_fmap. apply Retention.index_lookup in Hc as [Hc <-]; [|done].
  apply list_elem_of_fmap. exists c. split; [done|]. by apply (deleted_parent range Hrange Duration_String p t all my).
Qed.

Lemma plan_spares fuel o flagsSet deps t dep all pl h T m ds i s : NoDup (map Retention.BackupID all) ->
  held_until dep h T s -> (forall j, d_time (ds j) <= T) ->
  planned range Duration_String ParseDurationDays fuel o flagsSet deps t dep all pl ->
  (let del := Retention.Delete (rp_Decision pl) in del = [] \/ (run ds i (active_holds dep del) s).1 = inl (rp_Held pl)) ->
  m ∈ rp_Delete pl -> ~ rtc (up (Retention.index all)) h (Retention.BackupID m).
Proof.
  intros Hnd Hs Ht (p & _ & Hd & Hf) Hh Hm Hr. destruct Hf as [[_ E]|Hf]; [rewrite E in Hm; by apply not_elem_of_nil in Hm|].
  destruct (filter_chains_spec range Hrange _ _ _ _ _ _ Hf) as [Hk _]. apply Hk in Hm as [Hm Hn]. apply Hn. exists h. split; [|done].
  rewrite Hd in Hm, Hh. pose proof (deleted_descendant p t all m h Hnd Hm Hr) as Hin.
  destruct Hh as [E|E]; [rewrite E in Hin; by apply not_elem_of_nil in Hin|]. by eapply active_holds_run.
Qed.
End held.

Lemma tombstone_of_plan draw dep ids id : Forall (fun id => validateStorageID id = None) ids -> validateStorageID id = None ->
  audit_key (TombstonePath dep id) \/ tombstone_keys dep draw ids (TombstonePath dep id) -> id ∈ ids.
Proof.
  intros Hv Hid [Ha|Ht]; [done|]. destruct (id_of_tombstone_key dep draw ids _ Hv Ht) as (x & Hx & E).
  assert (tombstone_keys dep draw [id] (TombstonePath dep id)) as H1 by (exists id; split; [left|by left]).
  destruct (id_of_tombstone_key dep draw [id] _ ltac:(by constructor) H1) as (y & ->%list_elem_of_singleton & E'). congruence.
Qed.

(** C7: a backup under a readable hold that stays active past every clock reading, and every ancestor of
    it, keeps what it has at its tombstone's place through a rotation: whatever the policy, its source
    and the flags, whatever fails, none of them is tombstoned. *)
Theorem rotation_spares_held `{MJ : ManifestJSON} `{CH : Codec string Hold} `{CT : Codec string Tombstone} `{EJ : EventJSON}
    (sha256hex : string -> string) (caps : Capabilities) (draw : string -> string) (worm : option WORMPolicy)
    (DefaultActor repoURL : string) (random : string -> list Z) (range : list string -> list string)
    (Duration_String : duration -> string) (ParseDurationDays : string -> option duration)
    (fuel : nat) (o : rotateOpts) (flagsSet : bool) (deps : gmap string RetentionConfig) (t : time) (dep : string)
    (all : list Retention.Manifest) (h : string) (T : time) (m : Retention.Manifest) (ds : nat -> decision) (i : nat)
    (s : gmap string (object string)) :
  (forall l, range l ≡ₚ l) -> NoDup (map Retention.BackupID all) ->
  Forall (fun m => validateStorageID (Retention.BackupID m) = None) all ->
  held_until dep h T s -> (forall j, d_time (ds j) <= T) ->
  m ∈ all -> rtc (up (Retention.index all)) h (Retention.BackupID m) ->
  (run ds i (rotate_manifests sha256hex caps draw worm DefaultActor repoURL random range Duration_String ParseDurationDays
               fuel o flagsSet deps t dep all) s).2 !! TombstonePath dep (Retention.BackupID m) =
  s !! TombstonePath dep (Retention.BackupID m).
Proof.
  intros Hrange Hnd Hv Hh Ht Hm Hr.
  pose proof (plan_run range Duration_String ParseDurationDays fuel o flagsSet deps t dep all ds i s) as Hpl.
  pose proof (rotate_manifests_run sha256hex caps draw worm DefaultActor repoURL random range Duration_String ParseDurationDays
    fuel o flagsSet deps t dep all ds i s) as Hf. cbv zeta in Hf.
  destruct (run ds i (plan_manifests _ _ _ _ _ _ _ _ _ _) s).1 as [pl|e]; [|by rewrite Hf]. destruct Hpl as [Hpl Hact].
  apply Hf. intros [_ Hk].
  assert (forall x, x ∈ rp_Delete pl -> x ∈ all) as Hsub.
  { intros x Hx. destruct Hpl as (p & _ & Hd & [[_ E]|Hfc]); [rewrite E in Hx; by apply not_elem_of_nil in Hx|].
    apply (filter_chains_spec range Hrange _ _ _ _ _ _ Hfc) in Hx as [Hx _]. rewrite Hd in Hx.
    by apply (deleted_not_required range Duration_String p t all x Hnd). }
  rewrite Forall_forall in Hv. apply tombstone_of_plan in Hk; [|rewrite Forall_forall; intros x (y & -> & Hy)%list_elem_of_fmap; auto|auto].
  apply list_elem_of_fmap in Hk as (x & E & Hx). rewrite E in Hr. by eapply plan_spares.
Qed.

(** ** A retention block that keeps nothing *)

(** The flags refuse a window that is not positive; the configuration's block takes it as it is.  With
    one, [simple] claims no backup stopped before now, and only the newest backup, its ancestors and
    the undatable ones are left. *)
Theorem config_window_unchecked (range : list string -> list string) (Duration_String : duration -> string)
    (ParseDurationDays : string -> option duration) (o : rotateOpts) (deps : gmap string RetentionConfig) (dep : string)
    (c : RetentionConfig) (d : duration) (t : time) (all : list Retention.Manifest) :
  (forall l, range l ≡ₚ l) -> NoDup (map Retention.BackupID all) -> (forall m, m ∈ all -> Retention.StoppedAt m < t) ->
  deps !! dep = Some c -> ToLower (rc_Policy c) = "simple" -> rc_KeepFor c <> "" -> ParseDurationDays (rc_KeepFor c) = Some d ->
  d <= 0 ->
  (ToLower (ro_policy o) = "simple" -> ro_keepFor o = d -> buildPolicy o = Err PE_KeepFor) /\
  resolveRotatePolicy ParseDurationDays dep false o deps = Ok (Retention.SimplePolicy d, FromConfig) /\
  forall m, m ∈ all -> m ∈ Retention.Keep (Retention.Apply range Duration_String (Retention.SimplePolicy d) t all) <->
    Retention.required (fun _ => False) all m.
Proof.
  intros Hrange Hnd Hold Hc Hp Hk Hd Hneg. split_and!.
  - intros Ep Ek. unfold buildPolicy. rewrite Ep, Ek. cbn [String.eqb Ascii.eqb Bool.eqb]. by rewrite (proj2 (Z.leb_le d 0)).
  - unfold resolveRotatePolicy, retentionDeclared, buildRetentionPolicy. rewrite Hc, Hp.
    rewrite bool_decide_eq_false_2 by (intros ->; by apply Hk). cbn [negb String.eqb Ascii.eqb Bool.eqb orb].
    by rewrite (proj2 (String.eqb_neq _ _) Hk), Hd.
  - intros m Hm. unfold Retention.Apply. cbv zeta.
    destruct (Retention.finalize_split range (Retention.Name (Retention.SimplePolicy d))
      (Retention.claims Duration_String (Retention.SimplePolicy d) t (Retention.sortByStoppedAtDesc all)) all) as [_ ->].
    rewrite Retention.finalize_reasons by done.
    assert (forall P Q : string -> Prop, (forall id, P id -> Q id) ->
      forall x, Retention.required P all x -> Retention.required Q all x) as Hmono.
    { induction 2; eauto using Retention.required. }
    split; [intros [_ H]|intros H; split; [done|]]; (eapply Hmono; [|exact H]); intros id; [|done].
    intros H1. apply Retention.simple_claims_spec in H1 as (x & [Hx Hw] & _). unfold Retention.sortByStoppedAtDesc in Hx.
    apply elem_of_stable_sort in Hx. apply Hold in Hx. lia.
Qed.

(** *** A held child *)

Definition sample_hold : Hold :=
  {| ho_Schema := HoldSchema; ho_BackupID := "i1"; ho_Deployment := "d"; ho_HeldAt := 1; ho_Holder := "legal"; ho_Reason := "";
     ho_ExpiresAt := None |}.

Definition held_store : gmap string (object string) := {[HoldPath "d" "i1" := object_of (encode sample_hold)]}.

Definition keep_one : rotateOpts :=
  {| ro_deployment := ""; ro_policy := "count"; ro_keepDaily := 0; ro_keepWeekly := 0; ro_keepMonthly := 0; ro_keepYearly := 0;
     ro_keepFor := 0; ro_keepFulls := 1; ro_apply := true |}.

Lemma sample_NoDup : NoDup (map Retention.BackupID sample_backups).
Proof. by apply (bool_decide_unpack _); vm_compute. Qed.

Lemma sample_valid : Forall (fun m => validateStorageID (Retention.BackupID m) = None) sample_backups.
Proof. by repeat constructor. Qed.

Lemma sample_held : held_until "d" "i1" 5 held_store.
Proof.
  exists (object_of (encode sample_hold)), sample_hold. split; [apply lookup_singleton_eq|]. split; [apply decode_encode|]. split; reflexivity.
Qed.

Lemma sample_up : rtc (up (Retention.index sample_backups)) "i1" "f1".
Proof. apply rtc_once. exists (bare "i1" "f1" 11). split; [by vm_compute|]. split; [reflexivity|discriminate]. Qed.

(** The held child's parent keeps its place; the rotation does apply. *)
Lemma rotation_spares_held_witness :
  (run (fun _ => calm 5) 0 (rotate_manifests (MJ := SampleJson.sample_json) (EJ := sample_audit_json) length_hash strict (fun id => id) None "cli" "" (fun _ => []) (fun l => l)
     (fun _ => "") (fun _ => None) 5 keep_one true ∅ 40 "d" sample_backups) held_store).2 !! TombstonePath "d" "f1" =
  held_store !! TombstonePath "d" "f1".
Proof.
  exact (rotation_spares_held (MJ := SampleJson.sample_json) (EJ := sample_audit_json) length_hash strict (fun id => id) None "cli" "" (fun _ => []) (fun l => l) (fun _ => "")
    (fun _ => None) 5 keep_one true ∅ 40 "d" sample_backups "i1" 5 (bare "f1" "" 10) (fun _ => calm 5) 0 held_store
    (fun l => Permutation_refl l) sample_NoDup sample_valid sample_held (fun _ => Z.le_refl 5) (list_elem_of_here _ _) sample_up).
Defined.

(** The same run does delete the other chain. *)
Example sample_rotation :
  let '(r, s') := run (fun _ => calm 5) 0 (rotate_manifests (MJ := SampleJson.sample_json) (EJ := sample_audit_json) length_hash strict (fun id => id) None "cli" ""
     (fun _ => []) (fun l => l) (fun _ => "") (fun _ => None) 5 keep_one true ∅ 40 "d" sample_backups) held_store in
  match r with Ok rep => (rp_Applied rep, rp_Held rep, rp_Anchors rep) | Err _ => (0%nat, [], []) end = (2%nat, ["i1"], ["f1"]) /\
  tombstones_of s' ["f1"; "i1"; "f2"; "i2"; "f3"] = [false; false; true; true; false].
Proof. by vm_compute. Qed.
