(* ===== verification/RestoreSeed.v ===== *)
(** Which backup a restore starts from (internal/restore/latest.go, timetarget.go): the newest one, or
    the newest one that stopped by a target time, among the manifests that could be read. *)
From S2P Require Import Prelude GoString Storage Concur Commit Lsn Hash Json Retention Calendar BackupManifest ManifestRead ManifestStore Rotate.
From S2P Require SampleJson.

Local Open Scope string_scope.
Local Open Scope list_scope.
Local Open Scope Z_scope.
#[local] Arguments String.append : simpl nomatch.

(** The layout [20060102T150405.000000000Z] of a time in UTC. *)
Definition latest_key (t : time) : string :=
  let '(y, m, d) := civil (day_of t) in
  let s := t / Time.Second in
  fmt_dec 4 y +:+ fmt_dec 2 m +:+ fmt_dec 2 d +:+ "T" +:+ fmt_dec 2 (s / 3600 mod 24) +:+ fmt_dec 2 (s / 60 mod 60) +:+
  fmt_dec 2 (s mod 60) +:+ "." +:+ fmt_dec 9 (t mod Time.Second) +:+ "Z".

Example latest_key_sample : latest_key 0 = "00010101T000000.000000000Z".
Proof. by vm_compute. Qed.

Inductive seed_err :=
| SE_ZeroTarget | SE_NoBackupsFound | SE_AllFailed (errored : nat) | SE_NoBackupBefore (laterCount skipped : nat).

(** ** The scans *)

Record latest_scan := { ls_bestID : string; ls_bestT : string; ls_seen : nat; ls_errored : nat }.

Definition no_latest : latest_scan := {| ls_bestID := ""; ls_bestT := ""; ls_seen := 0; ls_errored := 0 |}.

Definition latest_step {E} (st : latest_scan) (r : result E Manifest) : latest_scan :=
  match r with
  | Err _ => {| ls_bestID := ls_bestID st; ls_bestT := ls_bestT st; ls_seen := ls_seen st; ls_errored := S (ls_errored st) |}
  | Ok m =>
      let t := latest_key (m_StoppedAt m) in
      if String.eqb (ls_bestT st) "" || string_ltb (ls_bestT st) t
      then {| ls_bestID := m_BackupID m; ls_bestT := t; ls_seen := S (ls_seen st); ls_errored := ls_errored st |}
      else {| ls_bestID := ls_bestID st; ls_bestT := ls_bestT st; ls_seen := S (ls_seen st); ls_errored := ls_errored st |}
  end.

Definition latest_of {E} (l : list (result E Manifest)) : result seed_err (string * nat) :=
  let st := foldl latest_step no_latest l in
  if String.eqb (ls_bestID st) "" then
    if (ls_seen st =? 0)%nat && (ls_errored st =? 0)%nat then Err SE_NoBackupsFound else Err (SE_AllFailed (ls_errored st))
  else Ok (ls_bestID st, ls_errored st).

Record time_scan := { ts_bestID : string; ts_bestT : time; ts_seen : nat; ts_errored : nat; ts_laterCount : nat }.

Definition no_seed : time_scan := {| ts_bestID := ""; ts_bestT := Time.zero; ts_seen := 0; ts_errored := 0; ts_laterCount := 0 |}.

Definition time_step {E} (target : time) (st : time_scan) (r : result E Manifest) : time_scan :=
  match r with
  | Err _ => {| ts_bestID := ts_bestID st; ts_bestT := ts_bestT st; ts_seen := ts_seen st; ts_errored := S (ts_errored st);
                ts_laterCount := ts_laterCount st |}
  | Ok m =>
      let stop := m_StoppedAt m in
      if Time.After stop target
      then {| ts_bestID := ts_bestID st; ts_bestT := ts_bestT st; ts_seen := S (ts_seen st); ts_errored := ts_errored st;
              ts_laterCount := S (ts_laterCount st) |}
      else if String.eqb (ts_bestID st) "" || Time.After stop (ts_bestT st)
      then {| ts_bestID := m_BackupID m; ts_bestT := stop; ts_seen := S (ts_seen st); ts_errored := ts_errored st;
              ts_laterCount := ts_laterCount st |}
      else {| ts_bestID := ts_bestID st; ts_bestT := ts_bestT st; ts_seen := S (ts_seen st); ts_errored := ts_errored st;
              ts_laterCount := ts_laterCount st |}
  end.

Definition seed_for {E} (target : time) (l : list (result E Manifest)) : result seed_err (string * nat) :=
  if Time.IsZero target then Err SE_ZeroTarget
  else
    let st := foldl (time_step target) no_seed l in
    if negb (String.eqb (ts_bestID st) "") then Ok (ts_bestID st, ts_errored st)
    else if (ts_seen st =? 0)%nat && (ts_errored st =? 0)%nat then Err SE_NoBackupsFound
    else if (0 <? ts_errored st)%nat && (ts_seen st =? 0)%nat then Err (SE_AllFailed (ts_errored st))
    else Err (SE_NoBackupBefore (ts_laterCount st) (ts_errored st)).

Section resolve.
Context `{SG : Signing} `{MJ : ManifestJSON} `{L : LSN}.
Context (sha256 : string -> string).

Definition ResolveLatestDetailed (deployment : string) (verifier : option Verifier) : prog string (result seed_err (string * nat)) :=
  let* l := ListHeaders sha256 deployment verifier in Ret (latest_of l).

Definition ResolveBackupForTimeDetailed (deployment : string) (target : time) (verifier : option Verifier)
    : prog string (result seed_err (string * nat)) :=
  if Time.IsZero target then Ret (Err SE_ZeroTarget)
  else let* l := ListHeaders sha256 deployment verifier in Ret (seed_for target l).

Definition without_count {E} (r : result E (string * nat)) : result E string :=
  match r with Ok (id, _) => Ok id | Err e => Err e end.

Definition ResolveLatest (deployment : string) (verifier : option Verifier) : prog string (result seed_err string) :=
  let* r := ResolveLatestDetailed deployment verifier in Ret (without_count r).

Definition ResolveBackupForTime (deployment : string) (target : time) (verifier : option Verifier) : prog string (result seed_err string) :=
  let* r := ResolveBackupForTimeDetailed deployment target verifier in Ret (without_count r).
End resolve.

(** ** The key grows with the time *)

Definition four_digits (t : time) : Prop := 0 <= t /\ (civil (day_of t)).1.1 <= 9999.

Lemma clock_parts t : let s := t / Time.Second in
  t = day_of t * (86400 * Time.Second) + (s / 3600 mod 24 * 3600 + s / 60 mod 60 * 60 + s mod 60) * Time.Second + t mod Time.Second /\
  0 <= s / 3600 mod 24 < 24 /\ 0 <= s / 60 mod 60 < 60 /\ 0 <= s mod 60 < 60 /\ 0 <= t mod Time.Second < Time.Second.
Proof.
  intros s. unfold day_of. rewrite (Z.mul_comm 86400), <- Z.div_div by done. fold s.
  pose proof (Z.div_mod t Time.Second ltac:(done)) as Et. fold s in Et.
  pose proof (Z.mod_pos_bound t Time.Second ltac:(done)) as Bt. clearbody s. unfold Time.Second in *.
  split; [|Z.to_euclidean_division_equations; lia]. rewrite Et at 1. Z.to_euclidean_division_equations. lia.
Qed.

Lemma latest_key_ltb t t' : four_digits t -> four_digits t' -> string_ltb (latest_key t) (latest_key t') = true <-> t < t'.
Proof.
  intros [H0 H9] [H0' H9']. unfold latest_key. cbv zeta.
  pose proof (clock_parts t) as (E & Bh & Bm & Bs & Bn). pose proof (clock_parts t') as (E' & Bh' & Bm' & Bs' & Bn'). cbv zeta in *.
  pose proof (civil_year _ (day_of_nonneg _ H0)) as Hy. pose proof (civil_year _ (day_of_nonneg _ H0')) as Hy'.
  pose proof (day_good (day_of t)) as [_ Hg]. pose proof (day_good (day_of t')) as [_ Hg'].
  pose proof (civil_lt_iff (day_of t) (day_of t')) as Hlt. pose proof (civil_inj (day_of t) (day_of t')) as Hinj.
  assert (day_of t = day_of t' -> civil (day_of t) = civil (day_of t')) as Hfun by congruence.
  destruct (civil (day_of t)) as [[y m] d], (civil (day_of t')) as [[y' m'] d']. cbn [fst snd] in *. unfold date_lt in Hlt.
  assert (Time.Second = 10 ^ 9) as ES by done. rewrite ES in *.
  do 3 (rewrite field_ltb by lia). rewrite string_ltb_same. do 3 (rewrite field_ltb by lia). rewrite string_ltb_same.
  rewrite field_ltb, string_ltb_irrefl by lia.
  generalize dependent (t / 10 ^ 9). generalize dependent (t' / 10 ^ 9). intros s' E' Bh' Bm' Bs' s E Bh Bm Bs.
  generalize dependent (s / 3600 mod 24). generalize dependent (s / 60 mod 60). generalize dependent (s mod 60).
  generalize dependent (s' / 3600 mod 24). generalize dependent (s' / 60 mod 60). generalize dependent (s' mod 60).
  intros c' Bc' b' Bb' a' E' Ba' c Bc b Bb a E Ba.
  generalize dependent (t mod 10 ^ 9). generalize dependent (t' mod 10 ^ 9). intros n' Bn' E' n Bn E.
  assert (y = y' /\ m = m' /\ d = d' <-> day_of t = day_of t') as Heq.
  { split; [intros (-> & -> & ->); by apply Hinj|]. intros ED. by injection (Hfun ED) as -> -> ->. }
  clear Hinj Hfun Hg Hg'. generalize dependent (day_of t). generalize dependent (day_of t'). intros D' H1 D H2 H3 H4. lia.
Qed.

Lemma latest_key_nonempty t : latest_key t <> "".
Proof.
  unfold latest_key. destruct (civil (day_of t)) as [[y m] d]. cbv zeta. intros E. apply (f_equal String.length) in E.
  rewrite !string_app_length in E. cbn in E. lia.
Qed.

(** ** What is chosen *)

Section chosen.
Context {E : Type}.
Implicit Types (l : list (result E Manifest)) (P : Manifest -> Prop).

Definition errors l : nat := length (filter (fun r => is_ok r = false) l).

(** Of the readable manifests with [P], the first of those that stopped last. *)
Definition first_newest P l (m : Manifest) : Prop :=
  exists i, l !! i = Some (Ok m) /\ P m /\ forall j m', l !! j = Some (Ok m') -> P m' ->
    m_StoppedAt m' <= m_StoppedAt m /\ ((j < i)%nat -> m_StoppedAt m' < m_StoppedAt m).

Definition none_with P l : Prop := forall m, Ok m ∈ l -> ~ P m.

Lemma lookup_snoc_inv {A} (l : list A) (x y : A) j : (l ++ [x]) !! j = Some y -> l !! j = Some y /\ (j < length l)%nat \/ j = length l /\ y = x.
Proof.
  intros H. destruct (decide (j < length l)%nat) as [Hj|Hj]; [left; rewrite lookup_app_l in H by done; done|].
  right. rewrite lookup_app_r in H by lia. destruct (j - length l)%nat as [|n] eqn:Ej; [cbn in H; injection H as <-; split; [lia|done]|done].
Qed.

Lemma first_newest_keep P l b r : first_newest P l b ->
  match r with Ok m => P m -> m_StoppedAt m <= m_StoppedAt b | Err _ => True end -> first_newest P (l ++ [r]) b.
Proof.
  intros (i & Hi & HP & Hn) Hr. exists i. split; [by apply lookup_app_l_Some|]. split; [done|]. intros j m' Hj HP'.
  apply lookup_snoc_inv in Hj as [[Hj _]|[-> <-]]; [by apply Hn|]. apply lookup_lt_Some in Hi. split; [auto|lia].
Qed.

Lemma first_newest_move P l m : P m ->
  (forall m', Ok m' ∈ l -> P m' -> m_StoppedAt m' < m_StoppedAt m) -> first_newest P (l ++ [Ok m]) m.
Proof.
  intros HP H. exists (length l). split; [by apply list_lookup_middle|]. split; [done|]. intros j m' Hj HP'.
  apply lookup_snoc_inv in Hj as [[Hj Hlt]|[-> [= ->]]]; [|split; lia]. apply list_elem_of_lookup_2 in Hj. specialize (H m' Hj HP'). lia.
Qed.

Lemma first_newest_max P l b m : first_newest P l b -> Ok m ∈ l -> P m -> m_StoppedAt m <= m_StoppedAt b.
Proof. intros (i & _ & _ & Hn) Hm HP. apply list_elem_of_lookup_1 in Hm as [j Hj]. by apply (Hn j m). Qed.

Lemma first_newest_in P l b : first_newest P l b -> Ok b ∈ l.
Proof. intros (i & Hi & _). by eapply list_elem_of_lookup_2. Qed.

Lemma errors_snoc l r : errors (l ++ [r]) = (errors l + if is_ok r then 0 else 1)%nat.
Proof. unfold errors. rewrite filter_app, length_app, filter_cons, filter_nil. by destruct r. Qed.

Lemma first_newest_unique P l m m' : first_newest P l m -> first_newest P l m' -> m = m'.
Proof.
  intros (i & Hi & HP & Hn) (j & Hj & HP' & Hn'). destruct (Hn j m' Hj HP') as [H1 H2], (Hn' i m Hi HP) as [H3 H4].
  destruct (Nat.lt_trichotomy i j) as [Hlt|[->|Hlt]]; [specialize (H4 Hlt); lia|congruence|specialize (H2 Hlt); lia].
Qed.

(** *** The newest *)

Definition latest_inv l (st : latest_scan) : Prop :=
  ls_errored st = errors l /\ (ls_seen st + ls_errored st = length l)%nat /\
  (none_with (fun _ => True) l /\ st = {| ls_bestID := ""; ls_bestT := ""; ls_seen := ls_seen st; ls_errored := ls_errored st |} \/
   exists m, first_newest (fun _ => True) l m /\ ls_bestID st = m_BackupID m /\ ls_bestT st = latest_key (m_StoppedAt m)).

Lemma latest_scan_spec l : (forall m, Ok m ∈ l -> four_digits (m_StoppedAt m)) -> latest_inv l (foldl latest_step no_latest l).
Proof.
  induction l as [|r l IH] using rev_ind; intros H4.
  - split_and!; [done..|]. left. split; [|done]. intros m Hm. by apply not_elem_of_nil in Hm.
  - rewrite foldl_snoc. destruct IH as (He & Hs & Hb); [intros m Hm; apply H4; apply elem_of_app; by left|].
    set (st := foldl latest_step no_latest l) in *. unfold latest_inv. rewrite errors_snoc, length_app. cbn [length].
    destruct r as [m|e]; cbn [latest_step is_ok].
    + assert (four_digits (m_StoppedAt m)) as H4m by (apply H4, elem_of_app; right; left).
      destruct Hb as [[Hn Est]|(b & Hb & Hid & Ht)].
      * rewrite Est. cbn [ls_bestT ls_bestID ls_seen ls_errored String.eqb orb]. split_and!; [lia..|]. right. exists m.
        split; [|done]. apply first_newest_move; [done|]. intros m' Hm' _. by destruct (Hn m' Hm').
      * assert (four_digits (m_StoppedAt b)) as H4b by (apply H4, elem_of_app; left; by eapply first_newest_in).
        rewrite Ht, (proj2 (String.eqb_neq _ _) (latest_key_nonempty _)). cbn [orb].
        destruct (string_ltb _ _) eqn:Eq; cbn [ls_bestT ls_bestID ls_seen ls_errored]; (split_and!; [lia..|]); right.
        -- apply latest_key_ltb in Eq; [|done..]. exists m. split; [|done]. apply first_newest_move; [done|].
           intros m' Hm' _. pose proof (first_newest_max _ _ _ _ Hb Hm' I). lia.
        -- exists b. split; [|done]. apply first_newest_keep; [done|]. intros _. apply not_true_iff_false in Eq.
           rewrite latest_key_ltb in Eq by done. lia.
    + cbn [ls_bestT ls_bestID ls_seen ls_errored]. split_and!; [lia..|]. destruct Hb as [[Hn Est]|(b & Hb & Hid & Ht)].
      * left. split; [|by rewrite Est]. intros m [Hm|Hm]%elem_of_app; [exact (Hn m Hm)|]. by apply list_elem_of_singleton in Hm.
      * right. exists b. split; [by apply first_newest_keep|done].
Qed.

(** *** The newest by a target *)

Definition by_target (target : time) (m : Manifest) : Prop := m_StoppedAt m <= target.

Definition time_inv (target : time) l (st : time_scan) : Prop :=
  ts_errored st = errors l /\ (ts_seen st + ts_errored st = length l)%nat /\ (ts_laterCount st <= ts_seen st)%nat /\
  (none_with (by_target target) l /\ ts_bestID st = "" /\ ts_laterCount st = ts_seen st \/
   exists m, first_newest (by_target target) l m /\ ts_bestID st = m_BackupID m /\ ts_bestT st = m_StoppedAt m).

Lemma time_scan_spec target l : (forall m, Ok m ∈ l -> m_BackupID m <> "") -> time_inv target l (foldl (time_step target) no_seed l).
Proof.
  induction l as [|r l IH] using rev_ind; intros Hid.
  - split_and!; [done..|]. left. split; [|done]. intros m Hm. by apply not_elem_of_nil in Hm.
  - rewrite foldl_snoc. destruct IH as (He & Hs & Hl & Hb); [intros m Hm; apply Hid; apply elem_of_app; by left|].
    set (st := foldl (time_step target) no_seed l) in *. unfold time_inv. rewrite errors_snoc, length_app. cbn [length].
    destruct r as [m|e]; cbn [time_step is_ok].
    + unfold Time.After. destruct (target <? m_StoppedAt m) eqn:Et; zbool.
      * cbn [ts_bestID ts_bestT ts_seen ts_errored ts_laterCount]. split_and!; [lia..|]. destruct Hb as [(Hn & Hb & Hc)|(b & Hb & Hx)].
        -- left. split_and!; [|done|lia]. intros m' [Hm|Hm]%elem_of_app; [exact (Hn m' Hm)|]. apply list_elem_of_singleton in Hm as [= ->].
           unfold by_target. lia.
        -- right. exists b. split; [|done]. apply first_newest_keep; [done|]. unfold by_target. lia.
      * destruct Hb as [(Hn & Hb & Hc)|(b & Hb & Hbid & Hbt)].
        -- rewrite Hb. cbn [String.eqb orb ts_bestID ts_bestT ts_seen ts_errored ts_laterCount]. split_and!; [lia..|]. right. exists m.
           split; [|done]. apply first_newest_move; [done|]. intros m' Hm' HP. by destruct (Hn m' Hm').
        -- rewrite Hbid, Hbt. assert (m_BackupID b <> "") as Hne by (apply Hid, elem_of_app; left; by eapply first_newest_in).
           rewrite (proj2 (String.eqb_neq _ _) Hne). cbn [orb].
           destruct (m_StoppedAt b <? m_StoppedAt m) eqn:Eb; zbool; cbn [ts_bestID ts_bestT ts_seen ts_errored ts_laterCount];
             (split_and!; [lia..|]); right.
           ++ exists m. split; [|done]. apply first_newest_move; [done|]. intros m' Hm' HP.
              pose proof (first_newest_max _ _ _ _ Hb Hm' HP). lia.
           ++ exists b. split; [|done]. by apply first_newest_keep.
    + cbn [ts_bestID ts_bestT ts_seen ts_errored ts_laterCount]. split_and!; [lia..|]. destruct Hb as [(Hn & Hb & Hc)|(b & Hb & Hx)].
      * left. split_and!; [|done..]. intros m [Hm|Hm]%elem_of_app; [exact (Hn m Hm)|]. by apply list_elem_of_singleton in Hm.
      * right. exists b. split; [by apply first_newest_keep|done].
Qed.
End chosen.

(** C27: the backup a restore starts from: the newest readable one, or the newest readable one that stopped
    by the target, the first listed among equals, with the number of manifests that could not be read;
    and an error exactly when there is none, which tells an empty deployment from one whose manifests
    all failed and from one whose readable manifests are all too new.  Comparing the newest by text is
    comparing times as long as years have four digits. *)
Theorem seed_choice {E} (target : time) (l : list (result E Manifest)) :
  (forall m, Ok m ∈ l -> four_digits (m_StoppedAt m) /\ m_BackupID m <> "") -> target <> Time.zero ->
  match latest_of l with
  | Ok (id, skipped) => skipped = errors l /\ exists m, first_newest (fun _ => True) l m /\ id = m_BackupID m
  | Err SE_NoBackupsFound => l = []
  | Err (SE_AllFailed n) => n = length l /\ errors l = length l /\ l <> []
  | Err _ => False
  end /\
  match seed_for target l with
  | Ok (id, skipped) => skipped = errors l /\ exists m, first_newest (by_target target) l m /\ id = m_BackupID m
  | Err SE_NoBackupsFound => l = []
  | Err (SE_AllFailed n) => n = length l /\ errors l = length l /\ l <> []
  | Err (SE_NoBackupBefore later skipped) =>
      skipped = errors l /\ (later + skipped = length l)%nat /\ (0 < later)%nat /\ none_with (by_target target) l
  | Err SE_ZeroTarget => False
  end.
Proof.
  intros H Ht. assert (length l = 0%nat -> l = []) as Hnil by (by destruct l).
  assert ((0 < length l)%nat -> l <> []) as Hcons by (intros ? ->; cbn in *; lia). split.
  - destruct (latest_scan_spec l (fun m Hm => proj1 (H m Hm))) as (He & Hs & Hb). unfold latest_of. cbv zeta.
    destruct Hb as [[Hn Est]|(b & Hb & Hid & _)].
    + rewrite Est. cbn [ls_bestID ls_seen ls_errored String.eqb].
      set (st := foldl latest_step no_latest l) in *. destruct (ls_seen st) as [|n] eqn:En.
      * destruct (ls_errored st) as [|k] eqn:Ek; cbn [Nat.eqb andb]; [apply Hnil; lia|]. split_and!; [lia|lia|apply Hcons; lia].
      * exfalso. clear Est. assert (exists m, Ok m ∈ l) as [m Hm]; [|exact (Hn m Hm I)].
        assert (errors l < length l)%nat as Hlt by lia. clear - Hlt. induction l as [|[m|e] l IH]; [by apply Nat.nlt_0_r in Hlt|exists m; left|].
        destruct IH as [m Hm]; [unfold errors in *; rewrite filter_cons_True in Hlt by done; cbn [length] in Hlt; lia|exists m; by right].
    + rewrite Hid. destruct (H b (first_newest_in _ _ _ Hb)) as [_ Hne]. rewrite (proj2 (String.eqb_neq _ _) Hne). split; [done|by exists b].
  - destruct (time_scan_spec target l (fun m Hm => proj2 (H m Hm))) as (He & Hs & Hl & Hb). unfold seed_for, Time.IsZero. cbv zeta.
    rewrite (proj2 (Z.eqb_neq target 0) Ht). destruct Hb as [(Hn & Hid & Hc)|(b & Hb & Hid & _)].
    + rewrite Hid. cbn [String.eqb negb]. set (st := foldl (time_step target) no_seed l) in *.
      destruct (ts_seen st) as [|n] eqn:En; cbn [Nat.eqb andb].
      * destruct (ts_errored st) as [|k] eqn:Ek; cbn [Nat.eqb Nat.ltb Nat.leb andb]; [apply Hnil; lia|]. split_and!; [lia|lia|apply Hcons; lia].
      * rewrite andb_false_r. split_and!; [lia..|done].
    + rewrite Hid. destruct (H b (first_newest_in _ _ _ Hb)) as [_ Hne]. rewrite (proj2 (String.eqb_neq _ _) Hne). split; [done|by exists b].
Qed.

Lemma ok_mem (ms : list Manifest) m : Ok (E := get_error) m ∈ map Ok ms -> m ∈ ms.
Proof. by intros (x & [= ->] & Hx)%list_elem_of_fmap. Qed.

Lemma latest_found (ms : list Manifest) : (forall m, m ∈ ms -> four_digits (m_StoppedAt m) /\ m_BackupID m <> "") -> ms <> [] ->
  exists m, first_newest (fun _ => True) (map (Ok (E := get_error)) ms) m /\
    latest_of (map (Ok (E := get_error)) ms) = Ok (m_BackupID m, 0%nat).
Proof.
  intros H Hne. pose proof (ok_mem ms) as Hin.
  assert (errors (map (Ok (E := get_error)) ms) = 0%nat) as He.
  { unfold errors. clear. induction ms as [|m ms IH]; [done|]. cbn [map]. rewrite filter_cons_False; done. }
  destruct (latest_scan_spec (map (Ok (E := get_error)) ms) (fun m Hm => proj1 (H m (Hin m Hm)))) as (Herr & _ & [[Hn _]|(b & Hb & Hid & _)]).
  - exfalso. destruct ms as [|m ms]; [done|]. apply (Hn m); [left|done].
  - exists b. split; [done|]. unfold latest_of. cbv zeta. rewrite Hid.
    destruct (H b (Hin b (first_newest_in _ _ _ Hb))) as [_ Hbne]. by rewrite (proj2 (String.eqb_neq _ _) Hbne), Herr, He.
Qed.

#[local] Existing Instance Retention.Manifest_eq_dec.

(** What is left of a deployment after a rotation deleted [del]. *)
Definition remaining (del : list Retention.Manifest) (ms : list Manifest) : list Manifest := filter (fun m => view m ∉ del) ms.

(** C25: the newest backup survives every rotation: what "latest" resolves to among the manifests left
    stopped at the same time as what it resolved to before, whatever the policy deleted. *)
Theorem rotation_keeps_latest (range : list string -> list string) (Duration_String : duration -> string) (p : Retention.Policy)
    (t : time) (ms : list Manifest) (del : list Retention.Manifest) :
  NoDup (map Retention.BackupID (map view ms)) -> (forall l, range l ≡ₚ l) ->
  (forall m, m ∈ ms -> four_digits (m_StoppedAt m) /\ m_BackupID m <> "") -> ms <> [] ->
  (forall x, x ∈ del -> x ∈ Retention.Delete (Retention.Apply range Duration_String p t (map view ms))) ->
  exists m m', latest_of (map (Ok (E := get_error)) ms) = Ok (m_BackupID m, 0%nat) /\
    latest_of (map (Ok (E := get_error)) (remaining del ms)) = Ok (m_BackupID m', 0%nat) /\
    m ∈ ms /\ m' ∈ remaining del ms /\ m_StoppedAt m' = m_StoppedAt m.
Proof.
  intros Hnd Hrange H Hne Hdel. destruct (latest_found ms H Hne) as (m & Hm & Hl).
  assert (forall (k : list Manifest) x, first_newest (fun _ => True) (map (Ok (E := get_error)) k) x -> x ∈ k /\ forall y, y ∈ k -> m_StoppedAt y <= m_StoppedAt x) as Hspec.
  { intros k x Hx. split; [apply first_newest_in, list_elem_of_fmap in Hx as (z & [= ->] & Hz); done|]. intros y Hy.
    apply (first_newest_max _ _ _ _ Hx); [apply list_elem_of_fmap; by exists y|done]. }
  destruct (Hspec ms m Hm) as [Hin Hmax].
  (* retention's newest backup is kept *)
  assert (exists w, w ∈ ms /\ (view w ∉ del) /\ m_StoppedAt m <= m_StoppedAt w) as (w & Hw & Hwd & Hwt).
  { destruct (Retention.sortByStoppedAtDesc (map view ms)) as [|n rest] eqn:Es.
    { assert (view m ∈ Retention.sortByStoppedAtDesc (map view ms)) as Hx by (apply elem_of_stable_sort, list_elem_of_fmap; by exists m).
      rewrite Es in Hx. by apply not_elem_of_nil in Hx. }
    pose proof (Retention.sorted_head _ _ _ Es) as Hn. pose proof (proj1 Hn) as Hnin. pose proof Hnin as Hn2.
    apply list_elem_of_fmap in Hn2 as (w & -> & Hw). exists w. split; [done|]. split.
    - intros Hd. apply Hdel in Hd. destruct (deleted_not_required range Duration_String p t _ _ Hnd Hd) as [_ Hk]. apply Hk.
      set (cl := Retention.claims Duration_String p t (Retention.sortByStoppedAtDesc (map view ms))).
      apply (Retention.finalize_split range (Retention.Name p) cl (map view ms)). split; [done|].
      apply Retention.finalize_reasons; [done..|]. by apply Retention.req_newest.
    - assert (view m ∈ map view ms) as Hvm by (apply list_elem_of_fmap; by exists m).
      pose proof (proj2 Hn (view m) Hvm) as Hnew. apply Retention.newer_false in Hnew. cbn in Hnew. lia. }
  destruct (latest_found (remaining del ms)) as (m' & Hm' & Hl').
  - intros x Hx. apply list_elem_of_filter in Hx as [_ Hx]. by apply H.
  - intros E. assert (w ∈ remaining del ms) as Hx by (by apply list_elem_of_filter). rewrite E in Hx. by apply not_elem_of_nil in Hx.
  - destruct (Hspec _ m' Hm') as [Hin' Hmax']. exists m, m'. split_and!; [done..|].
    pose proof (Hmax' w ltac:(by apply list_elem_of_filter)). pose proof (Hmax m' ltac:(by apply list_elem_of_filter in Hin' as [_ ?])). lia.
Qed.

(** *** Witnesses *)

Definition seed_manifest (id parent : string) (stopped : time) : Manifest :=
  {| m_Schema := BackupManifest.Schema; m_BackupID := id; m_Deployment := "d"; m_Tenant := "";
     m_Type := if String.eqb parent "" then BackupTypeFull else BackupTypeIncremental;
     m_ParentBackupID := parent; m_PGVersion := 17; m_SystemIdentifier := "7"; m_StartLSN := "0/2"; m_StopLSN := "0/3";
     m_Timeline := 1; m_StartedAt := 1; m_StoppedAt := stopped; m_Compression := ""; m_Encryption := None; m_SourceTDE := None;
     m_Tablespaces := []; m_Files := []; m_Dirs := []; m_WALRequired := []; m_BackupLabel := "l"; m_TablespaceMap := "";
     m_PGBackupManifest := ""; m_WALGaps := []; m_Attestation := None |}.

Definition seed_list : list Manifest := [seed_manifest "a" "" 10; seed_manifest "b" "" 30; seed_manifest "c" "" 30].

Lemma seed_list_good m : m ∈ seed_list -> four_digits (m_StoppedAt m) /\ m_BackupID m <> "".
Proof.
  intros Hm. apply list_elem_of_In in Hm. destruct Hm as [<-|[<-|[<-|[]]]]; (split; [split; by vm_compute|done]).
Qed.

Example seed_choices :
  latest_of (map Ok seed_list ++ [Err (GE_Store ErrNotFound)]) = Ok ("b", 1%nat) /\
  seed_for 20 (map (Ok (E := get_error)) seed_list) = Ok ("a", 0%nat) /\
  seed_for 5 (map (Ok (E := get_error)) seed_list) = Err (SE_NoBackupBefore 3 0) /\
  latest_of (E := get_error) [] = Err SE_NoBackupsFound.
Proof. by vm_compute. Qed.

Lemma seed_choice_witness :
  match latest_of (map (Ok (E := get_error)) seed_list) with
  | Ok (id, skipped) => skipped = errors (map (Ok (E := get_error)) seed_list) /\
      exists m, first_newest (fun _ => True) (map (Ok (E := get_error)) seed_list) m /\ id = m_BackupID m
  | Err _ => False
  end.
Proof.
  pose proof (seed_choice 20 (map (Ok (E := get_error)) seed_list)
    (fun m Hm => seed_list_good m (ok_mem _ m Hm)) ltac:(discriminate)) as [H _].
  exact H.
Defined.

Lemma seed_NoDup : NoDup (map Retention.BackupID (map view seed_list)).
Proof. by apply (bool_decide_unpack _); vm_compute. Qed.

Lemma rotation_keeps_latest_witness :
  exists m m', latest_of (map (Ok (E := get_error)) seed_list) = Ok (m_BackupID m, 0%nat) /\
    latest_of (map (Ok (E := get_error)) (remaining (Retention.Delete (Retention.Apply (fun l => l) (fun _ => "") (Retention.CountPolicy 1) 40
      (map view seed_list))) seed_list)) = Ok (m_BackupID m', 0%nat) /\
    m_StoppedAt m' = m_StoppedAt m.
Proof.
  destruct (rotation_keeps_latest (fun l => l) (fun _ => "") (Retention.CountPolicy 1) 40 seed_list
    (Retention.Delete (Retention.Apply (fun l => l) (fun _ => "") (Retention.CountPolicy 1) 40 (map view seed_list)))
    seed_NoDup (fun l => Permutation_refl l) seed_list_good ltac:(discriminate) (fun x H => H)) as (m & m' & H1 & H2 & _ & _ & H3).
  exact (ex_intro _ m (ex_intro _ m' (conj H1 (conj H2 H3)))).
Defined.
