(* ===== verification/SharedKey.v ===== *)
(** The one data key of a repository (internal/repo/sharedkey/sharedkey.go, and its callers
    [selectDEK] and [wormDEKParams]).

    Every encrypted artifact under one key-encryption key must share one data key: chunks are
    deduplicated by their plain text, and a second writer has to open what a first one sealed.  The
    key is minted by a conditional put of one object; repositories older than that object are
    searched for it.  Below: the search, the mint, the rewrap of a key rotation; that any number of
    writers at once, whatever fails, end with one key; and where a failed read makes a second one.

    The key-encryption key's custody (a local key or a remote service) is a parameter, as are the
    random key and SHA-256. *)
From S2P Require Import Prelude GoString Storage Concur Commit Worm Hash Json BackupManifest ManifestRead Pool.
From S2P Require SampleJson.
From Stdlib Require Import Ascii.

Local Open Scope string_scope.
Local Open Scope list_scope.
Local Open Scope Z_scope.
#[local] Arguments String.append : simpl nomatch.

Definition KeyLen : nat := 32.

Definition Scheme : string := "aes-256-gcm".

Definition sharedDEKPrefix : string := "keys/shared-dek/".

(** ** The envelope of a document *)

Record envelope := { en_Scheme : string; en_KEKRef : string; en_WrappedDEK : string }.

(** [json.Decode] into an envelope: [null] leaves a field, what is not a string is an error. *)
Fixpoint envelope_fields (e : envelope) (l : list (string * json)) : option envelope :=
  match l with
  | [] => Some e
  | (k, v) :: l =>
      let set (f : string -> envelope) :=
        match v with
        | JStr s => envelope_fields (f s) l
        | JNull => envelope_fields e l
        | _ => None
        end in
      if EqualFold k "scheme" then
        set (fun s => {| en_Scheme := s; en_KEKRef := en_KEKRef e; en_WrappedDEK := en_WrappedDEK e |})
      else if EqualFold k "kek_ref" then
        set (fun s => {| en_Scheme := en_Scheme e; en_KEKRef := s; en_WrappedDEK := en_WrappedDEK e |})
      else if EqualFold k "wrapped_dek" then
        set (fun s => {| en_Scheme := en_Scheme e; en_KEKRef := en_KEKRef e; en_WrappedDEK := s |})
      else envelope_fields e l
  end.

Definition no_envelope : envelope := {| en_Scheme := ""; en_KEKRef := ""; en_WrappedDEK := "" |}.

Definition decode_envelope (j : json) : option (option envelope) :=
  match j with
  | JNull => Some None
  | JObj l => option_map Some (envelope_fields no_envelope l)
  | _ => None
  end.

(** The rest of a value of which [depth] brackets are open. *)
Fixpoint skip_depth (depth : Z) (d : list token) : option (list token) :=
  if depth <=? 0 then Some d
  else match d with
       | [] => None
       | t :: d =>
           skip_depth (match t with
                       | TOpenObj | TOpenArr => depth + 1
                       | TCloseObj | TCloseArr => depth - 1
                       | _ => depth
                       end) d
       end.

Definition skipJSONValue (d : list token) : option (list token) :=
  match d with
  | [] => None
  | (TOpenObj | TOpenArr) :: d => skip_depth 1 d
  | _ :: d => Some d
  end.

Fixpoint envelope_loop (fuel : nat) (d : list token) : option (option envelope) :=
  match fuel with
  | O => None
  | S fuel =>
      if negb (More d) then Some None
      else match msReadKey d with
           | None => None
           | Some (key, d) =>
               if EqualFold key "encryption" then
                 match Decode d with Some (j, _) => decode_envelope j | None => None end
               else if EqualFold key "files" then Some None
               else match skipJSONValue d with Some d => envelope_loop fuel d | None => None end
           end
  end.

Definition scanEncryptionEnvelope (d : list token) : option (option envelope) :=
  match d with TOpenObj :: d => envelope_loop (S (length d)) d | _ => None end.

Definition isManifestKey (prefix key : string) : bool :=
  if String.eqb prefix "manifests/" then
    HasSuffix key "/manifest.json" && negb (HasPrefix (TrimPrefix key "manifests/") "_replicas/")
  else if String.eqb prefix "wal/" then HasSuffix key ".json" && negb (Contains key ".tmp")
  else false.

(** ** Custody *)

Inductive unwrap_err := Refused | Transient.

Definition IsDefinitiveUnwrapFailure (e : unwrap_err) : bool := match e with Refused => true | Transient => false end.

Definition Unwrapper : Type := string -> unwrap_err + string.
Definition Wrapper : Type := string -> option string.

(** Where in [ResolveOrMint] the custody is asked: it may answer one question now and not later. *)
Inductive site := AtSlot | AtCandidate (key : string) | AtAdopted | AtMint.

Definition unwrapsToSame (wrapped : string) (unwrap : Unwrapper) (dek : string) : bool :=
  match unwrap wrapped with
  | inl _ => false
  | inr got => (String.length got =? KeyLen)%nat && String.eqb got dek
  end.

Inductive sk_err :=
| SK_List (e : serr) | SK_Put (e : serr) | SK_Unwrap (e : unwrap_err) | SK_Wrap | SK_Generate | SK_Length | SK_Unreadable
| SK_Panic.

Record Result := { rs_DEK : option string; rs_SawCandidate : bool }.

Record MintResult := { mr_DEK : string; mr_Have : bool; mr_UnusableCandidate : bool }.

Definition unusable : MintResult := {| mr_DEK := ""; mr_Have := false; mr_UnusableCandidate := true |}.
Definition having (dek : string) : MintResult := {| mr_DEK := dek; mr_Have := true; mr_UnusableCandidate := false |}.

Definition zero_key : string := Nat.iter KeyLen (String "000"%char) "".

Definition unwrapInto (wrapped : string) (unwrap : Unwrapper) : result sk_err MintResult :=
  match unwrap wrapped with
  | inl e => if IsDefinitiveUnwrapFailure e then Ok unusable else Err (SK_Unwrap e)
  | inr dek =>
      if negb (String.length dek =? KeyLen)%nat then Ok unusable
      else if String.eqb dek zero_key then Err SK_Panic
      else Ok (having dek)
  end.

Definition dekRetention (retainUntil : time) (mode : WORMMode) : time * WORMMode := (retainUntil, mode).

Section sharedkey.
(** The tokens of a text, [json.Marshal] of a tree, and SHA-256 in hex. *)
Context (tokenize : string -> list token) (marshal : json -> string) (sha256hex : string -> string).

Definition sharedDEKKey (kekRef : string) : string := sharedDEKPrefix +:+ sha256hex kekRef +:+ ".json".

Definition envelope_json (kekRef wrapped : string) : json :=
  JObj [("encryption", JObj [("scheme", JStr Scheme); ("kek_ref", JStr kekRef); ("wrapped_dek", JStr (base64_EncodeToString wrapped))])].

(** The wrapped key a document holds for [wantKEKRef]. *)
Definition wrapped_in (wantKEKRef body : string) : option string :=
  match scanEncryptionEnvelope (tokenize body) with
  | Some (Some e) =>
      if negb (String.eqb (en_Scheme e) Scheme) || negb (String.eqb (en_KEKRef e) wantKEKRef) then None
      else base64_DecodeString (en_WrappedDEK e)
  | _ => None
  end.

Definition readWrappedDEK (key wantKEKRef : string) : prog string (option string) :=
  let* r := sGet key in
  Ret (match r with Ok body => wrapped_in wantKEKRef body | Err _ => None end).

Definition dek_options (exclusive : bool) (body : string) (retainUntil : time) (mode : WORMMode) : PutOptions :=
  let '(retainUntil, mode) := dekRetention retainUntil mode in
  if Time.IsZero retainUntil then
    {| IfNotExists := exclusive; ContentLength := Z.of_nat (String.length body); RetainUntil := Time.zero; RetentionMode := WORMNone |}
  else
    {| IfNotExists := exclusive; ContentLength := Z.of_nat (String.length body); RetainUntil := retainUntil; RetentionMode := mode |}.

Definition putSharedDEK (key kekRef wrapped : string) (retainUntil : time) (mode : WORMMode) : prog string (result serr unit) :=
  let body := marshal (envelope_json kekRef wrapped) in
  sPut key body (dek_options true body retainUntil mode).

Definition putSharedDEKOverwrite (key kekRef wrapped : string) (retainUntil : time) (mode : WORMMode) : prog string (result serr unit) :=
  let body := marshal (envelope_json kekRef wrapped) in
  sPut key body (dek_options false body retainUntil mode).

Definition extendDEKRetention (key : string) (retainUntil : time) (mode : WORMMode) : prog string unit :=
  let '(retainUntil, mode) := dekRetention retainUntil mode in
  if Time.IsZero retainUntil then Ret ()
  else let* _ := sSetRetention key retainUntil mode in Ret ().

(** ** The search *)

Definition scan_candidate (unwrap : site -> Unwrapper) (wantKEKRef prefix : string) (info : ObjectInfo) (saw : bool)
    : prog string (bool + result sk_err Result) :=
  if negb (isManifestKey prefix (Key info)) then Ret (inl saw)
  else
    let* w := readWrappedDEK (Key info) wantKEKRef in
    match w with
    | None => Ret (inl saw)
    | Some wrapped =>
        match unwrap (AtCandidate (Key info)) wrapped with
        | inr dek =>
            if (String.length dek =? KeyLen)%nat then Ret (inr (Ok {| rs_DEK := Some dek; rs_SawCandidate := true |}))
            else Ret (inl true)
        | inl e => if IsDefinitiveUnwrapFailure e then Ret (inl true) else Ret (inr (Err (SK_Unwrap e)))
        end
    end.

Definition scan_prefix (unwrap : site -> Unwrapper) (wantKEKRef prefix : string) (saw : bool)
    : prog string (bool + result sk_err Result) :=
  let* l := sList prefix in
  let* r := for_ l.1 saw (scan_candidate unwrap wantKEKRef prefix) in
  match r with
  | inr v => Ret (inr v)
  | inl saw => Ret (match l.2 with Some e => inr (Err (SK_List e)) | None => inl saw end)
  end.

Definition Resolve (wantKEKRef : string) (unwrap : site -> Unwrapper) : prog string (result sk_err Result) :=
  let* r := for_ ["manifests/"; "wal/"] false (scan_prefix unwrap wantKEKRef) in
  Ret (match r with inr v => v | inl saw => Ok {| rs_DEK := None; rs_SawCandidate := saw |} end).

(** ** The mint *)

(** The adopted key is put into the slot; a slot that does not open to it is replaced. *)
Definition promote (kekRef : string) (unwrap : Unwrapper) (wrap : Wrapper) (dek : string) (retainUntil : time) (mode : WORMMode)
    : prog string unit :=
  let key := sharedDEKKey kekRef in
  match wrap dek with
  | None => Ret ()
  | Some wrapped =>
      let* p := putSharedDEK key kekRef wrapped retainUntil mode in
      match p with
      | Err ErrAlreadyExists =>
          let* existing := readWrappedDEK key kekRef in
          if match existing with Some x => unwrapsToSame x unwrap dek | None => false end then Ret ()
          else let* _ := putSharedDEKOverwrite key kekRef wrapped retainUntil mode in Ret ()
      | _ => Ret ()
      end
  end.

Definition mint (kekRef : string) (unwrap : Unwrapper) (wrap : Wrapper) (fresh : option string) (retainUntil : time)
    (mode : WORMMode) : prog string (result sk_err MintResult) :=
  let key := sharedDEKKey kekRef in
  match fresh with
  | None => Ret (Err SK_Generate)
  | Some fresh =>
      match wrap fresh with
      | None => Ret (Err SK_Wrap)
      | Some wrapped =>
          let* p := putSharedDEK key kekRef wrapped retainUntil mode in
          match p with
          | Ok _ | Err ErrAlreadyExists =>
              let* w := readWrappedDEK key kekRef in
              Ret (match w with None => Err SK_Unreadable | Some w => unwrapInto w unwrap end)
          | Err e => Ret (Err (SK_Put e))
          end
      end
  end.

Definition ResolveOrMint (kekRef : string) (unwrap : site -> Unwrapper) (wrap : Wrapper) (fresh : option string)
    (retainUntil : time) (mode : WORMMode) : prog string (result sk_err MintResult) :=
  let key := sharedDEKKey kekRef in
  let* w := readWrappedDEK key kekRef in
  let slot := match w with None => Ok unusable | Some w => unwrapInto w (unwrap AtSlot) end in
  match slot with
  | Err e => Ret (Err e)
  | Ok out =>
      if mr_Have out then
        let* _ := extendDEKRetention key retainUntil mode in
        Ret (Ok out)
      else
        let* r := Resolve kekRef unwrap in
        match r with
        | Err e => Ret (Err e)
        | Ok res =>
            match rs_DEK res with
            | Some dek =>
                if negb (String.length dek =? KeyLen)%nat then Ret (Err SK_Length)
                else
                  let* _ := promote kekRef (unwrap AtAdopted) wrap dek retainUntil mode in
                  Ret (Ok (having dek))
            | None =>
                if rs_SawCandidate res then Ret (Ok unusable)
                else mint kekRef (unwrap AtMint) wrap fresh retainUntil mode
            end
        end
  end.

Inductive select_err := SD_Resolve (e : sk_err) | SD_Unusable | SD_NoKey.

Definition selectDEK (kekRef : string) (unwrap : site -> Unwrapper) (wrap : Wrapper) (fresh : option string)
    (retainUntil : time) (mode : WORMMode) : prog string (result select_err string) :=
  let* r := ResolveOrMint kekRef unwrap wrap fresh retainUntil mode in
  Ret (match r with
       | Err e => Err (SD_Resolve e)
       | Ok res =>
           if mr_UnusableCandidate res then Err SD_Unusable
           else if negb (mr_Have res) then Err SD_NoKey
           else Ok (mr_DEK res)
       end).

(** ** The rewrap of a rotation *)

Definition Rewrap (oldRef newRef : string) (unwrapOld : Unwrapper) (unwrapNew : option Unwrapper) (wrapNew : Wrapper)
    (removeOld : bool) (retainUntil : time) (mode : WORMMode) : prog string (result sk_err bool) :=
  let oldKey := sharedDEKKey oldRef in
  let newKey := sharedDEKKey newRef in
  let finish : prog string (result sk_err bool) :=
    if removeOld && negb (String.eqb oldKey newKey) then let* _ := sDelete oldKey in Ret (Ok true) else Ret (Ok true) in
  let* w := readWrappedDEK oldKey oldRef in
  match w with
  | None => Ret (Ok false)
  | Some wrapped =>
      match unwrapOld wrapped with
      | inl e => Ret (Err (SK_Unwrap e))
      | inr dek =>
          if negb (String.length dek =? KeyLen)%nat then Ret (Err SK_Length)
          else match wrapNew dek with
               | None => Ret (Err SK_Wrap)
               | Some newWrapped =>
                   let* existing := readWrappedDEK newKey newRef in
                   if match existing, unwrapNew with Some x, Some u => unwrapsToSame x u dek | _, _ => false end then finish
                   else
                     let* p := putSharedDEKOverwrite newKey newRef newWrapped retainUntil mode in
                     match p with Err e => Ret (Err (SK_Put e)) | Ok _ => finish end
               end
      end
  end.

Definition SlotResolves (ref : string) (unwrap : Unwrapper) : prog string bool :=
  let* w := readWrappedDEK (sharedDEKKey ref) ref in
  Ret (match w with
       | None => false
       | Some w => match unwrap w with inr dek => (String.length dek =? KeyLen)%nat | inl _ => false end
       end).
End sharedkey.

(** ** Reading an envelope *)

(** What is relied on of [json.Marshal]: an envelope is written as it is read. *)
Definition marshals (tokenize : string -> list token) (marshal : json -> string) (kekRef : string) : Prop :=
  forall w, tokenize (marshal (envelope_json kekRef w)) = tokens (envelope_json kekRef w).

(** The first [encryption] before any [files]. *)
Fixpoint first_envelope (l : list (string * json)) : option (option envelope) :=
  match l with
  | [] => Some None
  | (k, v) :: l =>
      if EqualFold k "encryption" then decode_envelope v
      else if EqualFold k "files" then Some None
      else first_envelope l
  end.

Lemma skip_depth_loop d : forall depth, 0 < depth -> skip_depth depth d = skip_loop (length d) depth d.
Proof.
  induction d as [|t d IH]; intros depth Hd; cbn [skip_depth skip_loop length]; rewrite (proj2 (Z.leb_gt _ _)) by done; [done|].
  cbv zeta. set (n := match t with TOpenObj | TOpenArr => depth + 1 | TCloseObj | TCloseArr => depth - 1 | _ => depth end).
  assert (0 <= n) as Hn by (destruct t; lia). destruct (Z.eqb_spec n 0) as [->|Hne]; [by destruct d|]. apply IH. lia.
Qed.

Lemma skipJSONValue_value j rest : skipJSONValue (tokens j ++ rest) = Some rest.
Proof.
  rewrite <- (Json.skipJSONValue_tokens j rest). destruct (tokens_head j) as (t & ts & E & H1 & H2). rewrite E. cbn [app].
  unfold skipJSONValue, Json.skipJSONValue. cbn [length skip_loop]. destruct t; try done; by rewrite skip_depth_loop.
Qed.

Lemma envelope_loop_fields l : forall fuel rest, (length l < fuel)%nat ->
  envelope_loop fuel (fields l ++ TCloseObj :: rest) = first_envelope l.
Proof.
  induction l as [|[k v] l IH]; intros [|fuel] rest Hf; cbn [length] in Hf; try lia; [done|].
  rewrite fields_cons. cbn [app envelope_loop More negb msReadKey first_envelope]. rewrite <- !app_assoc.
  destruct (EqualFold k "encryption"); [by rewrite Decode_tokens|]. destruct (EqualFold k "files"); [done|].
  rewrite skipJSONValue_value. apply IH. lia.
Qed.

(** On a whole object the reader finds the first envelope that comes before the files. *)
Lemma scan_document l rest : scanEncryptionEnvelope (tokens (JObj l) ++ rest) = first_envelope l.
Proof.
  rewrite tokens_obj. cbn [app scanEncryptionEnvelope]. rewrite <- app_assoc. apply envelope_loop_fields.
  rewrite length_app. pose proof (fields_length l). lia.
Qed.

Lemma wrapped_in_marshal tokenize marshal kekRef w : marshals tokenize marshal kekRef ->
  wrapped_in tokenize kekRef (marshal (envelope_json kekRef w)) = Some w.
Proof.
  intros H. unfold wrapped_in. rewrite H, <- (app_nil_r (tokens _)). unfold envelope_json. rewrite scan_document.
  cbn [first_envelope EqualFold fold_case]. change (EqualFold "encryption" "encryption") with true. cbv iota.
  unfold decode_envelope. cbn [envelope_fields].
  change (EqualFold "scheme" "scheme") with true. change (EqualFold "kek_ref" "scheme") with false.
  change (EqualFold "kek_ref" "kek_ref") with true. change (EqualFold "wrapped_dek" "scheme") with false.
  change (EqualFold "wrapped_dek" "kek_ref") with false. change (EqualFold "wrapped_dek" "wrapped_dek") with true.
  cbv iota. cbn [option_map en_Scheme en_KEKRef en_WrappedDEK no_envelope]. rewrite !String.eqb_refl. cbn [negb orb].
  apply base64_groups_encode.
Qed.

(** ** Many writers *)

Section writers.
Context (tokenize : string -> list token) (marshal : json -> string) (sha256hex : string -> string) (kekRef : string).
(** The key a wrapped key opens to. *)
Context (opens : string -> option string).
Context (Hm : marshals tokenize marshal kekRef).
Local Abbreviation store := (gmap string (object string)).
Local Abbreviation slot := (sharedDEKKey sha256hex kekRef).

Definition carries (s : store) (k w : string) : Prop :=
  exists o, s !! k = Some o /\ wrapped_in tokenize kekRef (ob_body o) = Some w.

(** Every envelope that opens holds [d]. *)
Definition agreed (d : string) (s : store) : Prop := forall k w, carries s k w -> opens w = Some d \/ opens w = None.

(** No key yet: the slot is free and no envelope opens. *)
Definition unset (s : store) : Prop := s !! slot = None /\ forall k w, carries s k w -> opens w = None.

(** A custody opens a wrapped key to what it holds, or fails. *)
Definition honest (u : Unwrapper) : Prop := forall w d, u w = inr d -> opens w = Some d.
Definition wraps (f : Wrapper) : Prop := forall d w, f d = Some w -> opens w = Some d.

(** A writer: the key it gets, and an artifact it writes under that key. *)
Record writer := {
  wr_unwrap : site -> Unwrapper; wr_wrap : Wrapper; wr_fresh : option string; wr_until : time; wr_mode : WORMMode;
  wr_key : string; wr_body : string -> string; wr_opts : PutOptions
}.

Definition sound_writer (w : writer) : Prop :=
  (forall x, honest (wr_unwrap w x)) /\ wraps (wr_wrap w) /\ wr_key w <> slot /\
  (forall d x, wrapped_in tokenize kekRef (wr_body w d) = Some x -> opens x = Some d).

Definition write_artifact (w : writer) : prog string (result sk_err MintResult) :=
  let* r := ResolveOrMint tokenize marshal sha256hex kekRef (wr_unwrap w) (wr_wrap w) (wr_fresh w) (wr_until w) (wr_mode w) in
  match r with
  | Ok m => if mr_Have m then let* _ := sPut (wr_key w) (wr_body w (mr_DEK m)) (wr_opts w) in Ret r else Ret r
  | Err _ => Ret r
  end.

Section pinned.
(** The key the store is known to hold from the start, if it is. *)
Context (D0 : option string).

Definition settled (d : string) (s : store) : Prop :=
  agreed d s /\
  match D0 with
  | Some d0 => d = d0 /\ is_Some (s !! slot)
  | None => exists w, carries s slot w /\ opens w = Some d
  end.

Definition good (s : store) : Prop := (D0 = None /\ unset s) \/ exists d, settled d s.

Definition key_step (s s' : store) : Prop := good s -> good s' /\ forall d, settled d s -> settled d s'.

#[export] Instance key_step_preorder : PreOrder key_step.
Proof.
  split; [by intros s H|]. intros a b c H1 H2 Ha. destruct (H1 Ha) as [Hb H1']. destruct (H2 Hb) as [Hc H2']. split; auto.
Qed.

Lemma settled_unique d d' s : settled d s -> settled d' s -> d = d'.
Proof.
  intros [_ H] [_ H']. destruct D0 as [d0|]; [by destruct H as [-> _], H' as [-> _]|].
  destruct H as (w & (o & Ho & Hw) & Hd), H' as (w' & (o' & Ho' & Hw') & Hd'). congruence.
Qed.

Lemma settled_slot d s : settled d s -> is_Some (s !! slot).
Proof. intros [_ H]. destruct D0; [by destruct H|]. destruct H as (w & (o & -> & _) & _). by eexists. Qed.

Lemma carries_insert s k o k' w : carries (<[k := o]> s) k' w <->
  k' = k /\ wrapped_in tokenize kekRef (ob_body o) = Some w \/ k' <> k /\ carries s k' w.
Proof.
  unfold carries. destruct (decide (k' = k)) as [->|Hne].
  - rewrite lookup_insert_eq. naive_solver.
  - rewrite lookup_insert_ne by done. naive_solver.
Qed.

(** An object put where its envelope, if it opens, holds the key; at the slot it must open. *)
Lemma settled_insert d s k o : settled d s ->
  (forall w, wrapped_in tokenize kekRef (ob_body o) = Some w -> opens w = Some d) ->
  (k = slot -> is_Some (wrapped_in tokenize kekRef (ob_body o))) -> settled d (<[k := o]> s).
Proof.
  intros [Ha Hs] Ho Hk. split.
  - intros k' w [[-> Hw]|[_ Hw]]%carries_insert; [left; auto|by eapply Ha].
  - destruct (decide (k = slot)) as [->|Hne].
    + destruct D0 as [d0|]; [split; [apply Hs|rewrite lookup_insert_eq; by eexists]|]. destruct (Hk eq_refl) as [w Hw]. exists w.
      split; [|auto]. apply carries_insert. by left.
    + destruct D0 as [d0|]; [by rewrite lookup_insert_ne|]. destruct Hs as (w & Hw & Hd). exists w. split; [|done].
      apply carries_insert. right. split; [congruence|done].
Qed.

Lemma key_step_insert s k o : (forall d, good s -> settled d s -> settled d (<[k := o]> s)) ->
  (D0 = None -> unset s -> good (<[k := o]> s)) -> key_step s (<[k := o]> s).
Proof. intros H1 H2 Hg. split; [|auto]. destruct Hg as [[HD Hu]|[d Hd]]; [auto|]. right. exists d. apply H1; [right; by exists d|done]. Qed.

(** A new lock changes no body. *)
Lemma key_step_lock s k o until mode : s !! k = Some o -> key_step s (<[k := Object (ob_body o) (ob_size o) (ob_mod o) until mode]> s).
Proof.
  intros Hk. set (o' := Object _ _ _ _ _).
  assert (forall k' w, carries (<[k := o']> s) k' w <-> carries s k' w) as E.
  { intros k' w. rewrite carries_insert. unfold carries. destruct (decide (k' = k)) as [->|]; [rewrite Hk|]; naive_solver. }
  assert (forall k', is_Some ((<[k := o']> s) !! k') <-> is_Some (s !! k')) as E'.
  { intros k'. destruct (decide (k' = k)) as [->|]; [rewrite lookup_insert_eq, Hk|rewrite lookup_insert_ne by done]; [|done].
    split; by eexists. }
  apply key_step_insert.
  - intros d _ [Ha Hs]. split; [intros k' w Hw; apply E in Hw; by eapply Ha|].
    destruct D0 as [d0|]; [rewrite E'; done|]. destruct Hs as (w & Hw & Hd). exists w. by rewrite E.
  - intros HD [Hn Hu]. left. split; [done|]. split; [|intros k' w Hw; apply E in Hw; by eapply Hu].
    apply eq_None_not_Some. rewrite E'. by rewrite Hn; intros [].
Qed.

(** What a read envelope tells, once it opens. *)
Lemma found_settled s k w d : good s -> carries s k w -> opens w = Some d -> settled d s.
Proof.
  intros [[_ [_ Hu]]|[d' Hd]] Hw Ho; [rewrite (Hu _ _ Hw) in Ho; done|].
  destruct (proj1 Hd _ _ Hw) as [E|E]; congruence.
Qed.

Local Abbreviation D := (fun _ : decision => True).
Local Abbreviation W := (wps D key_step).
Local Abbreviation W_bind := (wps_bind D key_step).
Local Abbreviation W_mono := (wps_mono D key_step).
Local Abbreviation W_get := (wps_get D key_step).
Local Abbreviation W_list := (wps_list D key_step).
Local Abbreviation W_put := (wps_put_found D key_step).
Local Abbreviation W_lock := (wps_set_retention D key_step).
Local Abbreviation W_for := (wps_for D key_step).

Lemma step_good s s' : good s -> key_step s s' -> good s'.
Proof. intros Hg H. by apply H. Qed.

Lemma step_settled d s s' : good s -> key_step s s' -> settled d s -> settled d s'.
Proof. intros Hg H. by apply H. Qed.

Lemma readWrappedDEK_W key s0 : good s0 ->
  W (readWrappedDEK tokenize key kekRef)
    (fun r s => match r with Some w => forall d, opens w = Some d -> settled d s | None => True end) s0.
Proof.
  intros Hg. unfold readWrappedDEK. apply W_bind, W_get; cbn [wps]; [|by intros..]. intros s s2 o H1 H2 Ho s3 H3.
  destruct (wrapped_in tokenize kekRef (ob_body o)) as [w|] eqn:Ew; [|done]. intros d Hd.
  assert (good s) as Hs by by eapply step_good.
  eapply step_settled; [by eapply step_good|done|]. eapply step_settled; [done..|]. eapply found_settled; [done| |done]. by exists o.
Qed.

Lemma put_key_W exclusive w d until mode s0 : opens w = Some d -> good s0 -> settled d s0 \/ exclusive = true ->
  W (sPut slot (marshal (envelope_json kekRef w)) (dek_options exclusive (marshal (envelope_json kekRef w)) until mode))
    (fun r s => match r with Ok _ => settled d s | Err _ => True end) s0.
Proof.
  intros Hw Hg He. set (body := marshal _).
  assert (IfNotExists (dek_options exclusive body until mode) = exclusive) as Eo by (unfold dek_options, dekRetention; by destruct (Time.IsZero _)).
  assert (wrapped_in tokenize kekRef body = Some w) as Eb by by apply wrapped_in_marshal.
  assert (forall s t, settled d s -> settled d (<[slot := put_object t body (dek_options exclusive body until mode)]> s)) as Hin.
  { intros s t Hs. apply settled_insert; [done| |]; cbn [ob_body put_object]; intros; rewrite Eb in *; [congruence|by eexists]. }
  assert (forall s t, key_step s0 s -> (IfNotExists (dek_options exclusive body until mode) = true -> s !! slot = None) ->
    key_step s (<[slot := put_object t body (dek_options exclusive body until mode)]> s) /\
    settled d (<[slot := put_object t body (dek_options exclusive body until mode)]> s)) as Hp.
  { intros s t Hs Hn. assert (good s) as Hgs by by eapply step_good. destruct He as [Hd| ->].
    - assert (settled d s) as Hds by by apply (step_settled d s0). split; [|auto].
      apply key_step_insert; [|intros _ [Hno _]; apply settled_slot in Hds; rewrite Hno in Hds; by destruct Hds].
      intros d' _ Hd'. pose proof (settled_unique _ _ _ Hd' Hds) as ->. auto.
    - rewrite Eo in Hn. specialize (Hn eq_refl).
      destruct Hgs as [[HD [_ Hu]]|[d' Hd']]; [|apply settled_slot in Hd'; rewrite Hn in Hd'; by destruct Hd'].
      assert (settled d (<[slot := put_object t body (dek_options true body until mode)]> s)) as Hnew.
      { unfold settled. rewrite HD. split.
        - intros k w' [[-> Hw']|[_ Hw']]%carries_insert; [|right; by eapply Hu]. cbn [ob_body put_object] in Hw'. left. congruence.
        - exists w. split; [|done]. apply carries_insert. left. by cbn [ob_body put_object]. }
      split; [|done]. apply key_step_insert; [|intros _ _; right; by exists d].
      intros d' _ Hd'. apply settled_slot in Hd'. rewrite Hn in Hd'; by destruct Hd'. }
  apply W_put.
  - intros s t Hs Hn. by apply Hp.
  - intros s s2 t Hs Hn H2. destruct (Hp s t Hs Hn) as [Hst Hd]. assert (good s) as Hgs by by eapply step_good.
    eapply step_settled; [|done..]. by eapply step_good.
  - done.
  - done.
Qed.

Lemma unwrapInto_W w u s : honest u -> (forall d, opens w = Some d -> settled d s) ->
  match unwrapInto w u with Ok m => mr_Have m = true -> settled (mr_DEK m) s | Err _ => True end.
Proof.
  intros Hu Hs. unfold unwrapInto. destruct (u w) as [[]|d] eqn:E; cbn [IsDefinitiveUnwrapFailure]; [done|done|].
  destruct (negb _); [done|]. destruct (String.eqb d zero_key); [done|]. cbn. intros _. by apply Hs, Hu.
Qed.

Definition found_key (res : Result) (s : store) : Prop := forall d, rs_DEK res = Some d -> settled d s.

Lemma found_key_later res s s' : good s -> key_step s s' -> found_key res s -> found_key res s'.
Proof. intros Hg Hs H d Hd. eapply step_settled; eauto. Qed.

Lemma scan_candidate_W u prefix i saw s0 : (forall x, honest (u x)) -> good s0 ->
  W (scan_candidate tokenize u kekRef prefix i saw)
    (fun r s => match r with inr (Ok res) => found_key res s | _ => True end) s0.
Proof.
  intros Hu Hg. unfold scan_candidate. destruct (negb _); [by cbn|]. apply W_bind.
  eapply W_mono; [|by apply readWrappedDEK_W]. intros [w|] s Hs; cbn [wps]; [|done]. intros Hw.
  destruct (u _ w) as [[]|d] eqn:E; cbn [IsDefinitiveUnwrapFailure wps]; [done|done|].
  destruct (_ =? _)%nat; cbn [wps]; [|done]. intros s' Hs' d' [= <-]. apply Hu in E.
  eapply step_settled; [by eapply step_good|done|auto].
Qed.

Lemma scan_prefix_W u prefix saw s0 : (forall x, honest (u x)) -> good s0 ->
  W (scan_prefix tokenize u kekRef prefix saw)
    (fun r s => match r with inr (Ok res) => found_key res s | _ => True end) s0.
Proof.
  intros Hu Hg. unfold scan_prefix.
  assert (forall l e s, good s -> W (pbind (for_ l saw (scan_candidate tokenize u kekRef prefix)) (fun r =>
    match r with inr v => Ret (inr v) | inl saw => Ret (match e with Some e => inr (Err (SK_List e)) | None => inl saw end) end))
    (fun r s => match r with inr (Ok res) => found_key res s | _ => True end) s) as Hl.
  { intros l e s Hs. apply W_bind. eapply W_mono; [|apply W_for with (Q := fun r s => match r with inr (Ok res) => found_key res s | _ => True end)].
    - intros [saw'|v] s' Hs' Hv; cbn [wps]; intros s2 H2; [by destruct e|]. destruct v as [res|]; [|done].
      eapply found_key_later; [|done..]. by eapply step_good.
    - intros i saw' s' Hs'. eapply W_mono; [|apply scan_candidate_W; [done|by eapply step_good]]. by intros [?|[?|?]].
    - done.
    - intros [res|e'] s1 s2 H1 H2; [|done]. apply found_key_later; [by eapply step_good|done]. }
  apply W_bind, W_list.
  - intros s s2 l H1 H2 _. apply (Hl l None). eapply step_good; [|exact H2]. by eapply step_good.
  - intros l c s2 H2. apply (Hl l (Some (ErrBackend c))). by eapply step_good.
Qed.

Lemma Resolve_W u s0 : (forall x, honest (u x)) -> good s0 ->
  W (Resolve tokenize kekRef u) (fun r s => match r with Ok res => found_key res s | Err _ => True end) s0.
Proof.
  intros Hu Hg. unfold Resolve. apply W_bind.
  eapply W_mono; [|apply W_for with (Q := fun r s => match r with inr (Ok res) => found_key res s | _ => True end)].
  - intros [saw|[res|e]] s Hs Hv; cbn [wps]; intros s2 H2; [by intros d| |done]. by eapply found_key_later; [eapply step_good|..].
  - intros prefix saw s Hs. eapply W_mono; [|apply scan_prefix_W; [done|by eapply step_good]]. by intros [?|[?|?]].
  - done.
  - intros [res|e'] s1 s2 H1 H2; [|done]. apply found_key_later; [by eapply step_good|done].
Qed.

Lemma promote_W u wrap d until mode s0 : honest u -> wraps wrap -> good s0 -> settled d s0 ->
  W (promote tokenize marshal sha256hex kekRef u wrap d until mode) (fun _ s => settled d s) s0.
Proof.
  intros Hu Hw Hg Hd.
  assert (forall s, key_step s0 s -> settled d s) as Hl by (intros s Hs; by apply (step_settled d s0)).
  unfold promote. destruct (wrap d) as [w|] eqn:E; [|by cbn]. apply Hw in E. apply W_bind.
  eapply W_mono; [|apply (put_key_W true w d); auto]. intros [[]|e] s Hs _; cbn [wps]; [intros; apply Hl; by trans s|].
  destruct e; cbn [wps]; try (intros; apply Hl; by trans s). apply W_bind.
  assert (good s) as Hgs by by eapply step_good.
  eapply W_mono; [|by apply readWrappedDEK_W]. intros x s1 H1 _. destruct (match x with Some _ => _ | None => _ end); cbn [wps].
  { intros. apply Hl. trans s; [done|]. by trans s1. }
  assert (key_step s0 s1) as H01 by by trans s. apply W_bind.
  eapply W_mono; [|apply (put_key_W false w d); auto; by eapply step_good]. intros [[]|e'] s2 H2 _; cbn [wps]; intros; apply Hl; trans s2; [by trans s1|done|by trans s1|done].
Qed.

Lemma mint_W u wrap fresh until mode s0 : honest u -> wraps wrap -> good s0 ->
  W (mint tokenize marshal sha256hex kekRef u wrap fresh until mode)
    (fun r s => match r with Ok m => mr_Have m = true -> settled (mr_DEK m) s | Err _ => True end) s0.
Proof.
  intros Hu Hw Hg. unfold mint. destruct fresh as [d|]; [|by cbn]. destruct (wrap d) as [w|] eqn:E; [|by cbn]. apply Hw in E.
  assert (forall s, key_step s0 s -> W (let* w := readWrappedDEK tokenize slot kekRef in
    Ret (match w with None => Err SK_Unreadable | Some w => unwrapInto w u end))
    (fun r s => match r with Ok m => mr_Have m = true -> settled (mr_DEK m) s | Err _ => True end) s) as Hr.
  { intros s Hs. assert (good s) as Hgs by by eapply step_good. apply W_bind. eapply W_mono; [|by apply readWrappedDEK_W].
    intros [x|] s1 H1; cbn [wps]; [|done]. intros Hx s2 H2. apply unwrapInto_W; [done|]. intros d' Hd'.
    eapply step_settled; [by eapply step_good|done|auto]. }
  apply W_bind. eapply W_mono; [|apply (put_key_W true w d); auto].
  intros [[]|[]] s Hs _; [by apply Hr|by cbn|by apply Hr|by cbn..].
Qed.

Lemma ResolveOrMint_W u wrap fresh until mode s0 : (forall x, honest (u x)) -> wraps wrap -> good s0 ->
  W (ResolveOrMint tokenize marshal sha256hex kekRef u wrap fresh until mode)
    (fun r s => match r with Ok m => mr_Have m = true -> settled (mr_DEK m) s | Err _ => True end) s0.
Proof.
  intros Hu Hw Hg. unfold ResolveOrMint. apply W_bind. eapply W_mono; [|by apply readWrappedDEK_W]. intros w s Hs Hx.
  assert (good s) as Hgs by by eapply step_good.
  assert (match match w with None => Ok unusable | Some w => unwrapInto w (u AtSlot) end with
          | Ok m => mr_Have m = true -> settled (mr_DEK m) s | Err _ => True end) as Hsl by (destruct w; [by apply unwrapInto_W|done]).
  destruct (match w with None => _ | Some _ => _ end) as [out|e]; [|by cbn]. destruct (mr_Have out) eqn:Eh.
  - apply W_bind. pose proof (Hsl eq_refl) as Hset.
    assert (W (extendDEKRetention slot until mode) (fun _ s' => settled (mr_DEK out) s') s) as Hx'.
    { unfold extendDEKRetention, dekRetention. destruct (Time.IsZero _); cbn [wps]; [intros; by apply (step_settled _ s)|].
      apply W_bind, W_lock; [intros s1 o _; apply key_step_lock|]. intros r s2 H2. cbn [wps]. intros s3 H3.
      apply (step_settled _ s); [done|by trans s2|done]. }
    eapply W_mono; [|exact Hx']. intros [] s1 H1 Hd. cbn [wps]. intros s2 H2 _. apply (step_settled _ s1); [by eapply step_good|done..].
  - apply W_bind. eapply W_mono; [|by apply Resolve_W]. intros [res|e] s1 H1 Hres; [|by cbn].
    assert (good s1) as Hg1 by by eapply step_good.
    destruct (rs_DEK res) as [d|] eqn:Ed.
    + destruct (negb _); [by cbn|]. apply W_bind. eapply W_mono; [|apply promote_W; auto].
      intros [] s2 H2 Hd. cbn [wps]. intros s3 H3 _. apply (step_settled _ s2); [by eapply step_good|done..].
    + destruct (rs_SawCandidate res); [by cbn|]. by apply mint_W.
Qed.

Definition got_key (r : result sk_err MintResult) (s : store) : Prop :=
  match r with Ok m => mr_Have m = true -> settled (mr_DEK m) s | Err _ => True end.

Lemma write_artifact_W w s0 : sound_writer w -> good s0 -> W (write_artifact w) got_key s0.
Proof.
  intros (Hu & Hw & Hk & Hb) Hg. unfold write_artifact. apply W_bind. eapply W_mono; [|by apply ResolveOrMint_W].
  intros [m|e] s Hs Hr; [|by cbn]. destruct (mr_Have m) eqn:Eh; [|cbn [wps]; intros s1 _ H; congruence].
  specialize (Hr eq_refl). assert (good s) as Hgs by by eapply step_good. apply W_bind.
  assert (forall s1, key_step s s1 -> W (Ret (Ok m)) got_key s1) as Hend.
  { intros s1 H1. cbn [wps]. intros s2 H2 _. apply (step_settled _ s); [done|by trans s1|done]. }
  assert (forall s1 t, key_step s s1 -> key_step s1 (<[wr_key w := put_object t (wr_body w (mr_DEK m)) (wr_opts w)]> s1)) as Hput.
  { intros s1 t H1. assert (settled (mr_DEK m) s1) as Hd by by apply (step_settled _ s). apply key_step_insert.
    - intros d _ Hd'. pose proof (settled_unique _ _ _ Hd' Hd) as ->. apply settled_insert; [done|apply Hb|done].
    - intros HD Hun. destruct (settled_slot _ _ Hd) as [o Ho]. destruct Hun as [Hun _]. congruence. }
  apply W_put.
  - intros s1 t H1 _. by apply Hput.
  - intros s1 s2 t H1 _ H2. apply Hend. trans s1; [done|]. etrans; [by apply (Hput s1 t)|done].
  - intros s1 s2 H1 H2 _. apply Hend. by trans s1.
  - intros c s2 H2. by apply Hend.
Qed.

Lemma pool_settles sched ws s : Forall sound_writer ws -> good s ->
  let '(ps', s') := pool sched (map write_artifact ws) s in
  good s' /\ forall i r, ps' !! i = Some (Ret r) -> got_key r s'.
Proof.
  intros Hw Hg. pose proof (pool_ended D key_step sched (map write_artifact ws) (fun _ => got_key) s) as H.
  destruct (pool sched _ s) as [ps' s']. destruct H as [Hs Hr].
  - by apply Forall_forall.
  - intros i p Hp. apply list_lookup_fmap_Some in Hp as (w & -> & Hi). apply write_artifact_W; [|done].
    rewrite Forall_forall in Hw. apply Hw. by eapply list_elem_of_lookup_2.
  - split; [by apply Hs|done].
Qed.
End pinned.
End writers.

(** Any number of writers at once, in any order and with any failure: those that get a key get the
    same one, and every envelope in the store that opens holds it. *)
Theorem writers_share_key (tokenize : string -> list token) (marshal : json -> string) (sha256hex : string -> string)
    (kekRef : string) (opens : string -> option string) (sched : list (nat * decision)) (ws : list writer)
    (s : gmap string (object string)) :
  marshals tokenize marshal kekRef -> Forall (sound_writer tokenize sha256hex kekRef opens) ws ->
  unset tokenize sha256hex kekRef opens s \/
    (exists d, agreed tokenize kekRef opens d s /\ is_Some (s !! sharedDEKKey sha256hex kekRef)) ->
  let '(ps', s') := pool sched (map (write_artifact tokenize marshal sha256hex kekRef) ws) s in
  exists d, agreed tokenize kekRef opens d s' /\
    forall i m, ps' !! i = Some (Ret (Ok m)) -> mr_Have m = true -> mr_DEK m = d.
Proof.
  intros Hm Hw Hs.
  assert (exists D0, good tokenize sha256hex kekRef opens D0 s) as [D0 Hg].
  { destruct Hs as [Hs|(d & Ha & Hk)]; [exists None; by left|]. exists (Some d). right. exists d. by split. }
  pose proof (pool_settles tokenize marshal sha256hex kekRef opens Hm D0 sched ws s Hw Hg) as H.
  destruct (pool sched _ s) as [ps' s']. destruct H as [[[-> [Hn Hu]]|[d Hd]] Hr].
  - exists "". split; [intros k w Hc; right; by eapply Hu|]. intros i m Hi Hh. specialize (Hr i _ Hi Hh).
    apply settled_slot in Hr as [o Ho]. congruence.
  - exists d. split; [apply Hd|]. intros i m Hi Hh. by eapply settled_unique; [apply (Hr i _ Hi)|].
Qed.

(** ** The rewrap *)

Section rewrap.
Context (tokenize : string -> list token) (marshal : json -> string) (sha256hex : string -> string) (oldRef newRef : string).
(** What a wrapped key opens to under the new key-encryption key. *)
Context (opensNew : string -> option string).
Local Abbreviation store := (gmap string (object string)).
Local Abbreviation oldKey := (sharedDEKKey sha256hex oldRef).
Local Abbreviation newKey := (sharedDEKKey sha256hex newRef).

(** The new slot holds [d] under the new key. *)
Definition moved (d : string) (s : store) : Prop :=
  exists w, carries tokenize newRef s newKey w /\ opensNew w = Some d.

Lemma moved_delete d s : oldKey <> newKey -> moved d s -> moved d (delete oldKey s).
Proof. intros Hne (w & (o & Ho & Hw) & Hd). exists w. split; [|done]. exists o. by rewrite lookup_delete_ne. Qed.

Lemma moved_put d s w t exclusive until mode : marshals tokenize marshal newRef -> opensNew w = Some d ->
  moved d (<[newKey := put_object t (marshal (envelope_json newRef w)) (dek_options exclusive (marshal (envelope_json newRef w)) until mode)]> s).
Proof. intros Hm Hw. exists w. split; [|done]. eexists. rewrite lookup_insert_eq. split; [done|]. by apply wrapped_in_marshal. Qed.

(** Where the key is: the two slots are all that changes, the old slot goes only once the new one holds the key. *)
Definition kept (removeOld : bool) (d : string) (s s' : store) : Prop :=
  frame (fun k => k = oldKey \/ k = newKey) s s' /\
  (s' !! oldKey = s !! oldKey \/ removeOld = true /\ moved d s').

Lemma kept_refl removeOld d s : kept removeOld d s s.
Proof. split; [by intros k|by left]. Qed.

Lemma kept_put removeOld d s o : oldKey <> newKey -> kept removeOld d s (<[newKey := o]> s).
Proof.
  intros Hne. split; [|left; by rewrite lookup_insert_ne]. intros k Hk. rewrite lookup_insert_ne; [done|]. intros E. apply Hk. by right.
Qed.

Lemma kept_delete d s s' : kept true d s s' -> moved d s' -> oldKey <> newKey -> kept true d s (delete oldKey s').
Proof.
  intros [Hf _] Hmv Hne. split; [|right; split; [done|by apply moved_delete]].
  intros k Hk. rewrite lookup_delete_ne; [by apply Hf|]. intros E. apply Hk. by left.
Qed.

Lemma readWrappedDEK_wp key ref (Q : option string -> store -> Prop) s :
  Q None s -> (forall w, carries tokenize ref s key w -> Q (Some w) s) ->
  wp (fun _ => True) (readWrappedDEK tokenize key ref) Q s.
Proof.
  intros Hn Hs. unfold readWrappedDEK. wp_step; [intros o Ho|intros _|intros d c _ _]; cbn [wp]; try done.
  destruct (wrapped_in tokenize ref (ob_body o)) as [w|] eqn:E; [|done]. apply Hs. by exists o.
Qed.
End rewrap.

(** Whatever fails, the data key of the old slot is in one of the two: the old slot is as it was until
    the new one holds the key, nothing else is written, and a success means that the new one does. *)
Theorem Rewrap_keeps_key (tokenize : string -> list token) (marshal : json -> string) (sha256hex : string -> string)
    (oldRef newRef : string) (opensNew : string -> option string) (unwrapOld : Unwrapper) (unwrapNew : option Unwrapper)
    (wrapNew : Wrapper) (removeOld : bool) (until : time) (mode : WORMMode) (w d : string) (ds : nat -> decision) (i : nat)
    (s : gmap string (object string)) :
  marshals tokenize marshal newRef -> sharedDEKKey sha256hex oldRef <> sharedDEKKey sha256hex newRef ->
  wraps opensNew wrapNew -> (forall u, unwrapNew = Some u -> honest opensNew u) ->
  carries tokenize oldRef s (sharedDEKKey sha256hex oldRef) w -> unwrapOld w = inr d ->
  let '(r, s') := run ds i (Rewrap tokenize marshal sha256hex oldRef newRef unwrapOld unwrapNew wrapNew removeOld until mode) s in
  kept tokenize sha256hex oldRef newRef opensNew removeOld d s s' /\
  (r = Ok true -> moved tokenize sha256hex newRef opensNew d s').
Proof.
  intros Hm Hne Hw Hu (o & Ho & Hc) Hd.
  set (Q := fun (r : result sk_err bool) s' => kept tokenize sha256hex oldRef newRef opensNew removeOld d s s' /\
    (r = Ok true -> moved tokenize sha256hex newRef opensNew d s')).
  set (p := Rewrap _ _ _ _ _ _ _ _ _ _ _). enough (wp (fun _ => True) p Q s) as H.
  { apply (wp_run _ p Q s ds i) in H; [|done]. by destruct (run ds i p s). }
  subst p. unfold Rewrap.
  set (finish := if removeOld && _ then _ else _).
  assert (forall s1, kept tokenize sha256hex oldRef newRef opensNew removeOld d s s1 -> moved tokenize sha256hex newRef opensNew d s1 ->
    wp (fun _ => True) finish Q s1) as Hf.
  { intros s1 Hk Hmv. subst finish. destruct removeOld; cbn [andb]; [|by split].
    rewrite (proj2 (String.eqb_neq _ _)) by done. cbn [negb].
    assert (Q (Ok true) (delete (sharedDEKKey sha256hex oldRef) s1)) as HQ by (split; [by apply kept_delete|intros _; by apply moved_delete]).
    wp_step; intros; cbn [wp]; done. }
  assert (forall e, Q (Err e) s) as He by (intros e; split; [apply kept_refl|done]).
  apply wp_bind, readWrappedDEK_wp; [cbn [wp]; split; [apply kept_refl|done]|].
  intros w' (o' & Ho' & Hw'). assert (w' = w) as -> by congruence. rewrite Hd.
  destruct (negb (_ =? _)%nat); [apply He|]. destruct (wrapNew d) as [w2|] eqn:Ew; [|apply He]. apply Hw in Ew.
  assert (wp (fun _ => True) (let* p := putSharedDEKOverwrite marshal (sharedDEKKey sha256hex newRef) newRef w2 until mode in
    match p with Err e => Ret (Err (SK_Put e)) | Ok _ => finish end) Q s) as Hp.
  { unfold putSharedDEKOverwrite. wp_step.
    - intros x _ _. apply Hf; [by apply kept_put|by apply moved_put].
    - intros _. unfold dek_options, dekRetention. by destruct (Time.IsZero _).
    - intros x c _ _. apply He.
    - intros x c _ _ _. split; [by apply kept_put|done]. }
  apply wp_bind, readWrappedDEK_wp; [done|]. intros x Hx.
  destruct unwrapNew as [u|]; [|exact Hp]. destruct (unwrapsToSame x u d) eqn:Es; [|exact Hp].
  apply Hf; [apply kept_refl|]. exists x. split; [done|]. unfold unwrapsToSame in Es. destruct (u x) as [|d'] eqn:Eu; [done|].
  apply andb_true_iff in Es as [_ Es]. apply String.eqb_eq in Es as ->. by apply (Hu u).
Qed.

(** ** One writer, nothing failing *)

Section alone.
Context (tokenize : string -> list token) (marshal : json -> string) (sha256hex : string -> string) (kekRef : string).
Context (opens : string -> option string).
Local Abbreviation store := (gmap string (object string)).
Local Abbreviation slot := (sharedDEKKey sha256hex kekRef).
Local Abbreviation carries := (carries tokenize kekRef).

(** A custody that answers. *)
Definition answers (u : site -> Unwrapper) : Prop :=
  forall x w, u x w = match opens w with Some d => inr d | None => inl Refused end.

Definition usable (w d : string) : Prop := opens w = Some d /\ String.length d = KeyLen.

(** The manifests the search reads. *)
Definition candidate (prefix : string) (s : store) (k w : string) : Prop :=
  HasPrefix k prefix = true /\ isManifestKey prefix k = true /\ carries s k w.

Definition searched (prefixes : list string) (saw0 : bool) (s : store) (r : bool + result sk_err Result) : Prop :=
  match r with
  | inr (Ok res) => exists d p k w, rs_DEK res = Some d /\ p ∈ prefixes /\ candidate p s k w /\ usable w d
  | inr (Err _) => False
  | inl saw =>
      (forall p k w d, p ∈ prefixes -> candidate p s k w -> ~ usable w d) /\
      (saw = true <-> saw0 = true \/ exists p k w, p ∈ prefixes /\ candidate p s k w)
  end.

Lemma readWrappedDEK_calm key (Q : option string -> store -> Prop) s :
  ((forall w, ~ carries s key w) -> Q None s) -> (forall w, carries s key w -> Q (Some w) s) ->
  wp healthy (readWrappedDEK tokenize key kekRef) Q s.
Proof.
  intros Hn Hs. unfold readWrappedDEK. wp_step; [intros o Ho|intros Ho|by intros d c ->]; cbn [wp].
  - destruct (wrapped_in tokenize kekRef (ob_body o)) as [w|] eqn:E; [apply Hs; by exists o|]. apply Hn. intros w (o' & Ho' & Hw). congruence.
  - apply Hn. intros w (o & Ho' & _). congruence.
Qed.

Lemma scan_prefix_calm u prefix saw s : answers u ->
  wp healthy (scan_prefix tokenize u kekRef prefix saw) (fun r s' => s' = s /\ searched [prefix] saw s r) s.
Proof.
  intros Hu. unfold scan_prefix. wp_step; [|by intros d c l l' ->]. intros l Hl. cbn [fst snd]. apply wp_bind.
  apply wp_for with (I := fun pre _ saw' s' => s' = s /\
    (forall i w d, i ∈ pre -> candidate prefix s (Key i) w -> ~ usable w d) /\
    (saw' = true <-> saw = true \/ exists i w, i ∈ pre /\ candidate prefix s (Key i) w)).
  - split; [done|]. split; [by intros i w d ?%elem_of_nil|]. split; [by left|]. intros [?|(i & w & ?%elem_of_nil & _)]; done.
  - intros pre i post saw1 s1 El (-> & Ha & Hb). unfold scan_candidate.
    assert (i ∈ listing prefix s) as Hi by (rewrite <- Hl, El; set_solver). apply elem_of_listing in Hi as (o & Ho & _ & Hp).
    assert ((forall w d, candidate prefix s (Key i) w -> ~ usable w d) -> forall b, (b = true <-> saw1 = true \/ exists w, candidate prefix s (Key i) w) ->
      s = s /\ (forall j w d, j ∈ pre ++ [i] -> candidate prefix s (Key j) w -> ~ usable w d) /\
      (b = true <-> saw = true \/ exists j w, j ∈ pre ++ [i] /\ candidate prefix s (Key j) w)) as Hstep.
    { intros Hi b Hbb. split; [done|]. split.
      - intros j w d [Hj| ->%list_elem_of_singleton]%elem_of_app; [by apply Ha|apply Hi].
      - rewrite Hbb, Hb. split.
        + intros [[?|(j & w & Hj & Hc)]|(w & Hc)]; [by left|right; exists j, w; set_solver|right; exists i, w; set_solver].
        + intros [?|(j & w & [Hj| ->%list_elem_of_singleton]%elem_of_app & Hc)]; [by left; left|left; right; by exists j, w|right; by exists w]. }
    destruct (isManifestKey prefix (Key i)) eqn:Ek; cbn [negb wp].
    + apply wp_bind, readWrappedDEK_calm; cbn [wp].
      * intros Hn. apply Hstep; [by intros w d (_ & _ & ?%Hn)|]. split; [by left|]. intros [?|(w & _ & _ & ?%Hn)]; done.
      * intros w Hw. assert (candidate prefix s (Key i) w) as Hc by done. rewrite Hu.
        assert (forall w', candidate prefix s (Key i) w' -> w' = w) as Hone.
        { intros w' (_ & _ & o' & Ho' & Hw'). destruct Hw as (o2 & Ho2 & Hw2). congruence. }
        assert (true = true <-> saw1 = true \/ exists w, candidate prefix s (Key i) w) as Ht by (split; [right; by exists w|done]).
        destruct (opens w) as [d|] eqn:Eo; cbn [IsDefinitiveUnwrapFailure].
        -- destruct (Nat.eqb_spec (String.length d) KeyLen) as [El'|El']; cbn [wp].
           ++ split; [done|]. cbn. exists d, prefix, (Key i), w. split; [done|]. split; [set_solver|]. done.
           ++ apply Hstep; [|done]. intros w' d' ->%Hone [E E']. congruence.
        -- cbn [wp]. apply Hstep; [|done]. intros w' d' ->%Hone [E E']. congruence.
    + apply Hstep; [by intros w d (_ & ? & _); congruence|]. split; [by left|]. intros [?|(w & _ & ? & _)]; [done|congruence].
  - intros saw1 s1 (-> & Ha & Hb). cbn [wp searched]. split; [done|].
    assert (forall k w, candidate prefix s k w -> exists i, i ∈ l /\ Key i = k) as Hin.
    { intros k w (Hp & Hk & o & Ho & Hw). exists (info_of k o). split; [|done]. rewrite Hl. apply elem_of_listing. by exists o. }
    split.
    + intros p k w d ->%list_elem_of_singleton Hc. destruct (Hin _ _ Hc) as (i & Hi & <-). by apply (Ha i w d).
    + rewrite Hb. split; (intros [?|H]; [by left|right]).
      * destruct H as (i & w & Hi & Hc). exists prefix, (Key i), w. split; [set_solver|done].
      * destruct H as (p & k & w & ->%list_elem_of_singleton & Hc). destruct (Hin _ _ Hc) as (i & Hi & <-). by exists i, w.
Qed.

Definition prefixes : list string := ["manifests/"; "wal/"].

Lemma Resolve_calm u s : answers u ->
  wp healthy (Resolve tokenize kekRef u) (fun r s' => s' = s /\
    match r with
    | Ok res => match rs_DEK res with
                | Some d => exists p k w, p ∈ prefixes /\ candidate p s k w /\ usable w d
                | None => (forall p k w d, p ∈ prefixes -> candidate p s k w -> ~ usable w d) /\
                          (rs_SawCandidate res = true <-> exists p k w, p ∈ prefixes /\ candidate p s k w)
                end
    | Err _ => False
    end) s.
Proof.
  intros Hu. unfold Resolve. fold prefixes. apply wp_bind.
  apply wp_for with (I := fun pre _ saw s' => s' = s /\ searched pre false s (inl saw)).
  - split; [done|]. split; [by intros p k w d ?%elem_of_nil|]. split; [done|]. intros [?|(p & k & w & ?%elem_of_nil & _)]; done.
  - intros pre p post saw s1 Ep (-> & Ha & Hb). eapply wp_mono; [|by apply scan_prefix_calm].
    intros [saw'|[res|e]] s' (-> & H); [|cbn [wp]|done]; cbn [searched] in *.
    + destruct H as [H1 H2]. split; [done|]. split.
      * intros q k w d [Hq|Hq]%elem_of_app; [by apply Ha|by apply H1].
      * rewrite H2, Hb. split.
        -- intros [[?|(q & k & w & Hq & Hc)]|(q & k & w & Hq & Hc)]; [by left|right..]; exists q, k, w; set_solver.
        -- intros [?|(q & k & w & [Hq|Hq]%elem_of_app & Hc)]; [by left; left|left; right; by exists q, k, w|right; by exists q, k, w].
    + split; [done|]. destruct H as (d & q & k & w & -> & Hq & Hc & Hus). exists q, k, w. split; [|done].
      rewrite Ep. apply list_elem_of_singleton in Hq as ->. set_solver.
  - intros saw s1 (-> & Ha & Hb). cbn [wp rs_DEK rs_SawCandidate]. split; [done|]. split; [done|]. rewrite Hb. naive_solver.
Qed.
End alone.

Section decided.
Context (tokenize : string -> list token) (marshal : json -> string) (sha256hex : string -> string) (kekRef : string).
Context (opens : string -> option string) (u : site -> Unwrapper) (wrap : Wrapper) (f : string) (until : time) (mode : WORMMode).
Context (Hm : marshals tokenize marshal kekRef) (Hu : answers opens u) (Hw : wraps opens wrap) (Htot : forall d, d <> zero_key -> is_Some (wrap d)).
Context (Hf : String.length f = KeyLen /\ f <> zero_key) (Hz : forall w, opens w <> Some zero_key).
Local Abbreviation store := (gmap string (object string)).
Local Abbreviation slot := (sharedDEKKey sha256hex kekRef).
Local Abbreviation carries := (carries tokenize kekRef).
Local Abbreviation candidate := (candidate tokenize kekRef).
Local Abbreviation usable := (usable opens).

Definition slot_holds (d : string) (s : store) : Prop := exists w, carries s slot w /\ opens w = Some d.

Lemma slot_put d w s t exclusive : opens w = Some d ->
  slot_holds d (<[slot := put_object t (marshal (envelope_json kekRef w)) (dek_options exclusive (marshal (envelope_json kekRef w)) until mode)]> s).
Proof. intros Hd. exists w. split; [|done]. eexists. rewrite lookup_insert_eq. split; [done|]. by apply wrapped_in_marshal. Qed.

Lemma dek_options_exclusive b body : IfNotExists (dek_options b body until mode) = b.
Proof. unfold dek_options, dekRetention. by destruct (Time.IsZero _). Qed.

Lemma promote_calm d s : d <> zero_key ->
  wp healthy (promote tokenize marshal sha256hex kekRef (u AtAdopted) wrap d until mode) (fun _ s' => slot_holds d s') s.
Proof.
  intros Hd. unfold promote. destruct (Htot d Hd) as [w E]. rewrite E. apply Hw in E. unfold putSharedDEK, putSharedDEKOverwrite.
  assert (forall s, wp healthy (let* _ := sPut slot (marshal (envelope_json kekRef w)) (dek_options false (marshal (envelope_json kekRef w)) until mode) in Ret ())
    (fun _ s' => slot_holds d s') s) as Hover.
  { intros s1. wp_step; [|rewrite dek_options_exclusive; done|by intros x c ->..]. intros x _ _. by apply slot_put. }
  wp_step; [intros x _ _; by apply slot_put| |by intros x c ->..]. intros _ _.
  apply wp_bind, readWrappedDEK_calm; [intros _; apply Hover|]. intros x Hx.
  destruct (unwrapsToSame x (u AtAdopted) d) eqn:Es; [|apply Hover]. cbn [wp]. exists x. split; [done|].
  unfold unwrapsToSame in Es. rewrite Hu in Es. destruct (opens x) as [d'|]; [|done].
  apply andb_true_iff in Es as [_ Es]. by apply String.eqb_eq in Es as ->.
Qed.

Lemma unwrapInto_decides x w :
  unwrapInto w (u x) = Ok unusable /\ (forall d, ~ usable w d) \/ exists d, unwrapInto w (u x) = Ok (having d) /\ usable w d.
Proof.
  unfold unwrapInto. setoid_rewrite Hu. destruct (opens w) as [d|] eqn:E; [|left; split; [done|]; intros d [? _]; congruence].
  destruct (Nat.eqb_spec (String.length d) KeyLen) as [El|El]; cbn [negb].
  - right. exists d. rewrite (proj2 (String.eqb_neq _ _)) by (intros ->; by eapply Hz). done.
  - left. split; [done|]. intros d' [? ?]. congruence.
Qed.

(** No document the search reads, nor the slot, holds a key that opens. *)
Definition none_usable (s : store) : Prop :=
  (forall w d, carries s slot w -> ~ usable w d) /\ forall p k w d, p ∈ prefixes -> candidate p s k w -> ~ usable w d.

Definition decided (r : result sk_err MintResult) (s s' : store) : Prop :=
  match r with
  | Ok m =>
      if mr_Have m then
        slot_holds (mr_DEK m) s' /\
        ((exists w, carries s slot w /\ usable w (mr_DEK m)) \/
         (exists p k w, p ∈ prefixes /\ candidate p s k w /\ usable w (mr_DEK m)) \/
         (mr_DEK m = f /\ s !! slot = None /\ forall p k w, p ∈ prefixes -> ~ candidate p s k w))
      else s' = s /\ none_usable s /\ ((exists w, carries s slot w) \/ exists p k w, p ∈ prefixes /\ candidate p s k w)
  | Err _ => s' = s /\ is_Some (s !! slot) /\ (forall w, ~ carries s slot w) /\ forall p k w, p ∈ prefixes -> ~ candidate p s k w
  end.

Lemma mint_calm s : (forall w d, carries s slot w -> ~ usable w d) -> (forall p k w, p ∈ prefixes -> ~ candidate p s k w) ->
  wp healthy (mint tokenize marshal sha256hex kekRef (u AtMint) wrap (Some f) until mode) (fun r s' => decided r s s') s.
Proof.
  intros Hs Hc. unfold mint. destruct (Htot f (proj2 Hf)) as [w E]. rewrite E. apply Hw in E. unfold putSharedDEK.
  assert (unwrapInto w (u AtMint) = Ok (having f)) as Ef.
  { destruct (unwrapInto_decides AtMint w) as [[_ H]|(d & -> & Hd & _)]; [destruct (H f); by split; [|apply Hf]|congruence]. }
  wp_step; [| |by intros x c ->..].
  - intros x _ Hn. rewrite dek_options_exclusive in Hn. set (s1 := <[_ := _]> s).
    assert (slot_holds f s1) as (w' & Hw' & Ho) by by apply slot_put.
    apply wp_bind, readWrappedDEK_calm; [intros Hno; by destruct (Hno w')|]. intros w2 H2. cbn [wp].
    assert (w2 = w) as ->.
    { destruct H2 as (o & Ho2 & Hw2). subst s1. rewrite lookup_insert_eq in Ho2. injection Ho2 as <-. cbn [ob_body put_object] in Hw2.
      rewrite wrapped_in_marshal in Hw2 by done. congruence. }
    rewrite Ef. cbn. split; [by exists w|]. right. right. auto.
  - intros Hx _. apply wp_bind, readWrappedDEK_calm; cbn [wp].
    + intros Hno. done.
    + intros w2 H2. destruct (unwrapInto_decides AtMint w2) as [[-> H]|(d & -> & Hd)]; cbn.
      * split; [done|]. split; [|by left; exists w2]. split; [done|]. intros p k w3 d Hp Hc3. by destruct (Hc p k w3).
      * by destruct (Hs w2 d).
Qed.
End decided.

(** With nothing failing: a key that opens is found and returned if any document holds one; a fresh key
    is minted only where the slot is free and no manifest records one; and what is returned is in the
    slot at the end. *)
Theorem ResolveOrMint_decides (tokenize : string -> list token) (marshal : json -> string) (sha256hex : string -> string)
    (kekRef : string) (opens : string -> option string) (u : site -> Unwrapper) (wrap : Wrapper) (f : string)
    (until : time) (mode : WORMMode) (s : gmap string (object string)) :
  marshals tokenize marshal kekRef -> answers opens u -> wraps opens wrap -> (forall d, d <> zero_key -> is_Some (wrap d)) ->
  String.length f = KeyLen /\ f <> zero_key -> (forall w, opens w <> Some zero_key) ->
  wp healthy (ResolveOrMint tokenize marshal sha256hex kekRef u wrap (Some f) until mode)
    (fun r s' => decided tokenize sha256hex kekRef opens f r s s') s.
Proof.
  intros Hm Hu Hw Ht Hf Hz. unfold ResolveOrMint. set (slot := sharedDEKKey sha256hex kekRef).
  assert ((forall w d, carries tokenize kekRef s slot w -> ~ usable opens w d) ->
    wp healthy (let* r := Resolve tokenize kekRef u in
      match r with
      | Err e => Ret (Err e)
      | Ok res => match rs_DEK res with
                  | Some dek => if negb (String.length dek =? KeyLen)%nat then Ret (Err SK_Length)
                                else let* _ := promote tokenize marshal sha256hex kekRef (u AtAdopted) wrap dek until mode in Ret (Ok (having dek))
                  | None => if rs_SawCandidate res then Ret (Ok unusable)
                            else mint tokenize marshal sha256hex kekRef (u AtMint) wrap (Some f) until mode
                  end
      end) (fun r s' => decided tokenize sha256hex kekRef opens f r s s') s) as Hrest.
  { intros Hs. apply wp_bind. eapply wp_mono; [|by apply Resolve_calm]. intros [res|e] s1 [-> H]; [|done].
    destruct (rs_DEK res) as [d|].
    - destruct H as (p & k & w & Hp & Hc & Ho & Hl). rewrite Hl. cbn [Nat.eqb negb KeyLen]. apply wp_bind.
      eapply wp_mono; [|apply (promote_calm _ _ _ _ opens); try done; intros ->; by eapply Hz]. intros [] s2 H2. cbn. split; [done|]. right. left. by exists p, k, w.
    - destruct H as [Hn Hsaw]. destruct (rs_SawCandidate res).
      + cbn. split; [done|]. split; [by split|]. right. by apply Hsaw.
      + apply mint_calm; try done. intros p k w Hp Hc. assert (false = true) as ?; [|done]. apply Hsaw. by exists p, k, w. }
  apply wp_bind, readWrappedDEK_calm; cbn [mr_Have unusable].
  - intros Hno. apply Hrest. intros w d Hc. by destruct (Hno w).
  - intros w Hc. destruct (unwrapInto_decides opens u Hu Hz AtSlot w) as [[-> H]|(d & -> & Hd)]; cbn [mr_Have unusable having].
    + apply Hrest. intros w' d (o' & Ho' & Hw'). destruct Hc as (o & Ho & Hw1). assert (w' = w) as -> by congruence. apply H.
    + assert (wp healthy (extendDEKRetention slot until mode) (fun _ s' => slot_holds tokenize sha256hex kekRef opens d s') s) as He.
      { unfold extendDEKRetention, dekRetention. destruct (Time.IsZero until); [exists w; by split; [|apply Hd]|].
        destruct Hc as (o & Ho & Hw1). wp_step; [|by intros ?; congruence|by intros x c ->|by intros x c o2 ->]. intros o' Ho'. cbn [wp]. exists w.
        split; [|apply Hd]. eexists. rewrite lookup_insert_eq. split; [done|]. cbn [ob_body]. congruence. }
      apply wp_bind. eapply wp_mono; [|exact He]. intros [] s1 H1. cbn. split; [done|]. left. by exists w.
Qed.

(** ** Samples *)

Definition print_json (j : json) : string := SampleJson.print (tokens j).

Lemma print_marshals kekRef : marshals SampleJson.sample_tokenize print_json kekRef.
Proof. intros w. apply SampleJson.sample_tokenize_print. Qed.

(** A custody that marks what it wraps. *)
Definition sample_wrap (d : string) : option string := if String.eqb d zero_key then None else Some (String "w"%char d).
Definition sample_opens (w : string) : option string :=
  match w with String "w"%char d => if String.eqb d zero_key then None else Some d | _ => None end.
Definition sample_unwrap (_ : site) (w : string) : unwrap_err + string :=
  match sample_opens w with Some d => inr d | None => inl Refused end.

Lemma sample_wraps : wraps sample_opens sample_wrap.
Proof. intros d w. unfold sample_wrap, sample_opens. destruct (String.eqb d zero_key) eqn:E; [done|]. intros [= <-]. by rewrite E. Qed.

Lemma sample_wrap_total d : d <> zero_key -> is_Some (sample_wrap d).
Proof. intros H. unfold sample_wrap. rewrite (proj2 (String.eqb_neq _ _) H). by eexists. Qed.

Lemma sample_not_zero w : sample_opens w <> Some zero_key.
Proof.
  unfold sample_opens. destruct w as [|c d]; [done|].
  destruct (decide (c = "w"%char)) as [->|Hc].
  - destruct (String.eqb d zero_key) eqn:E; [done|]. intros [= ->]. by rewrite String.eqb_refl in E.
  - destruct c as [[] [] [] [] [] [] [] []]; done.
Qed.

Definition key_a : string := Nat.iter KeyLen (String "a"%char) "".
Lemma key_a_sound : String.length key_a = KeyLen /\ key_a <> zero_key.
Proof. split; [done|]. intros H%String.eqb_eq. by vm_compute in H. Qed.

Definition key_b : string := Nat.iter KeyLen (String "b"%char) "".

Definition name_hash (s : string) : string := s.

Definition sample_slot : string := sharedDEKKey name_hash "k".

Definition carrying (d : string) : object string :=
  put_object 1 (print_json (envelope_json "k" (String "w"%char d))) (dek_options true (print_json (envelope_json "k" (String "w"%char d))) 0 WORMNone).

Lemma sample_carries : carries SampleJson.sample_tokenize "k" {[sample_slot := carrying key_a]} (sharedDEKKey name_hash "k") (String "w"%char key_a).
Proof. exists (carrying key_a). split; [apply lookup_singleton_eq|]. by vm_compute. Qed.

Definition calm (t : time) : decision :=
  {| d_fault := Normal; d_time := t; d_order := fun l => l; d_order_perm := fun l => Permutation_refl l; d_listed := 0 |}.
Definition failing (t : time) : decision :=
  {| d_fault := Fails 500; d_time := t; d_order := fun l => l; d_order_perm := fun l => Permutation_refl l; d_listed := 0 |}.

Definition sample_writer (key f : string) : writer :=
  {| wr_unwrap := sample_unwrap; wr_wrap := sample_wrap; wr_fresh := Some f; wr_until := 0; wr_mode := WORMNone;
     wr_key := key; wr_body := fun d => match sample_wrap d with Some w => print_json (envelope_json "k" w) | None => "" end; wr_opts := dek_options false "" 0 WORMNone |}.

Lemma sample_sound key f : key <> sample_slot -> sound_writer SampleJson.sample_tokenize name_hash "k" sample_opens (sample_writer key f).
Proof.
  intros Hk. split; [|split; [exact sample_wraps|split; [done|]]].
  - intros x w d. cbn. unfold sample_unwrap. destruct (sample_opens w); [by intros [= <-]|done].
  - intros d x. cbn [wr_body sample_writer]. destruct (sample_wrap d) as [w|] eqn:E; [|done]. rewrite wrapped_in_marshal by apply print_marshals.
    intros [= <-]. by apply sample_wraps.
Qed.

Lemma empty_unset : unset SampleJson.sample_tokenize name_hash "k" sample_opens ∅.
Proof. split; [apply lookup_empty|]. intros k w (o & Ho & _). by rewrite lookup_empty in Ho. Qed.

Lemma backup_apart : "manifests/d/backups/b/manifest.json" <> sample_slot.
Proof. by apply String.eqb_neq. Qed.

Lemma segment_apart : "wal/d/1/s.json" <> sample_slot.
Proof. by apply String.eqb_neq. Qed.

(** Two writers, turn by turn, each with a key of its own at hand. *)
Definition two_writers :=
  pool (map (fun i => (Nat.modulo i 2, calm 5)) (seq 0 20))
    (map (write_artifact SampleJson.sample_tokenize print_json name_hash "k")
       [sample_writer "manifests/d/backups/b/manifest.json" key_a; sample_writer "wal/d/1/s.json" key_b]) ∅.

Example both_take_the_first : two_writers.1 = [Ret (Ok (having key_a)); Ret (Ok (having key_a))].
Proof. by vm_compute. Qed.

Lemma writers_share_key_witness :
  let '(ps', s') := two_writers in
  exists d, agreed SampleJson.sample_tokenize "k" sample_opens d s' /\
    forall i m, ps' !! i = Some (Ret (Ok m)) -> mr_Have m = true -> mr_DEK m = d.
Proof.
  exact (writers_share_key SampleJson.sample_tokenize print_json name_hash "k" sample_opens
    (map (fun i => (Nat.modulo i 2, calm 5)) (seq 0 20))
    [sample_writer "manifests/d/backups/b/manifest.json" key_a; sample_writer "wal/d/1/s.json" key_b] ∅
    (print_marshals "k")
    (Forall_cons_2 _ _ _ (sample_sound _ key_a backup_apart) (Forall_cons_2 _ _ _ (sample_sound _ key_b segment_apart) (Forall_nil_2 _)))
    (or_introl empty_unset)).
Defined.

Lemma ResolveOrMint_decides_witness :
  wp healthy (ResolveOrMint SampleJson.sample_tokenize print_json name_hash "k" sample_unwrap sample_wrap (Some key_a) 0 WORMNone)
    (fun r s' => decided SampleJson.sample_tokenize name_hash "k" sample_opens key_a r ∅ s') ∅.
Proof.
  exact (ResolveOrMint_decides SampleJson.sample_tokenize print_json name_hash "k" sample_opens sample_unwrap sample_wrap key_a 0 WORMNone ∅
    (print_marshals "k") (fun _ _ => eq_refl) sample_wraps sample_wrap_total key_a_sound sample_not_zero).
Defined.

Lemma sample_apart : sharedDEKKey name_hash "k" <> sharedDEKKey name_hash "n".
Proof. by apply String.eqb_neq; vm_compute. Qed.

Lemma no_unwrapper u : None = Some u -> honest sample_opens u.
Proof. done. Qed.

(** A rotation's first put is lost on the way back: both slots hold the key. *)
Lemma Rewrap_keeps_key_witness :
  let s := {[sample_slot := carrying key_a]} in
  let '(r, s') := run (fun i => if (i =? 2)%nat then failing 5 else calm 5) 0
    (Rewrap SampleJson.sample_tokenize print_json name_hash "k" "n" (sample_unwrap AtSlot) None sample_wrap true 0 WORMNone) s in
  kept SampleJson.sample_tokenize name_hash "k" "n" sample_opens true key_a s s' /\
  (r = Ok true -> moved SampleJson.sample_tokenize name_hash "n" sample_opens key_a s').
Proof.
  exact (Rewrap_keeps_key SampleJson.sample_tokenize print_json name_hash "k" "n" sample_opens (sample_unwrap AtSlot) None sample_wrap true 0
    WORMNone (String "w"%char key_a) key_a (fun i => if (i =? 2)%nat then failing 5 else calm 5) 0 {[sample_slot := carrying key_a]}
    (print_marshals "n") sample_apart sample_wraps no_unwrapper sample_carries eq_refl).
Defined.

(** ** What a failed read does *)

(** The key of the only manifest cannot be read once: a second key is minted, and the slot holds it. *)
Example failed_read_forks :
  let s := {["manifests/d/backups/b/manifest.json" := carrying key_a]} in
  let '(r, s') := run (fun i => if (i =? 2)%nat then failing 5 else calm 5) 0
    (ResolveOrMint SampleJson.sample_tokenize print_json name_hash "k" sample_unwrap sample_wrap (Some key_b) 0 WORMNone) s in
  r = Ok (having key_b) /\ option_map ob_body (s' !! sample_slot) = Some (ob_body (carrying key_b)) /\
  option_map ob_body (s' !! "manifests/d/backups/b/manifest.json") = Some (ob_body (carrying key_a)).
Proof. by vm_compute. Qed.

(** The slot cannot be read once: the key of an older manifest replaces the one it holds. *)
Example failed_read_replaces_slot :
  let s := <[sample_slot := carrying key_a]> {["manifests/d/backups/b/manifest.json" := carrying key_b]} in
  let '(r, s') := run (fun i => if (i =? 0)%nat then failing 5 else calm 5) 0
    (ResolveOrMint SampleJson.sample_tokenize print_json name_hash "k" sample_unwrap sample_wrap None 0 WORMNone) s in
  r = Ok (having key_b) /\ option_map ob_body (s' !! sample_slot) = Some (ob_body (carrying key_b)).
Proof. by vm_compute. Qed.
